(* ===== verification/_CoqProject ===== *)
-Q . S2P
Prelude.v
Util.v
Value.v
RecordCodec.v
SlottedPage.v
PageManager.v
PageStore.v
BufferPool.v
HeapFile.v
RecordManager.v
Catalog.v
CatalogSpec.v
CatalogTheorems.v
TableManager.v
TableSpec.v
TableTheorems.v
BPlusNode.v
BPlusTree.v
BPlusTreeSpec.v
BPlusTreeOps.v
BPlusTreeSearch.v
BPlusTreeTheorems.v
Transaction.v
Mvcc.v
LockManager.v
Wal.v
Recovery.v
Tokenizer.v
Ast.v
ExprEval.v
Doubles.v
Parser.v
ParserSpec.v
ParserComplete.v
Operators.v
OperatorSpec.v
SortSpec.v
AggregateSpec.v
Database.v
Scans.v
Executor.v
IndexSpec.v
ExecutorSpec.v
SelectSpec.v
DdlSpec.v
ExecutorTheorems.v
DatabaseSpec.v
Samples.v
DatabaseTheorems.v
QueryTheorems.v
Formatter.v
Repl.v
Protocol.v
Listener.v
Server.v
Divergences.v
