(* ===== verification/Prelude.v ===== *)
(** * MiniDB: a verification development

    MiniDB is a small relational database: slotted pages in page files, a
    buffer pool, heap files, a B+ tree index, a catalog, an SQL tokenizer,
    parser and executor, a shell and a server; and, beside the executor and not
    yet used by it, transactions with MVCC and locks and a write-ahead log with
    recovery.  This library models those parts from their C++ sources under
    src/src and proves what makes them correct, up to the shell and the server.

    ** How the code is modelled

    - Memory is bytes: a page is a list of 4096 bytes ([Util.page_wf]) and the
      layouts ([SlottedPage], [BPlusNode], [RecordCodec], [Catalog], [Wal]) are offsets in
      it.  Integers are [Z] at the width of their C++ type, with the
      wrap-around written out ([Prelude.u16], [u32], [i32], ...); doubles are
      their 64 bits, with [SpecFloat] arithmetic.
    - A method that changes its object is a state function; [Prelude.M] adds
      undefined behaviour ([None]): a null [Page*] dereferenced, an index past
      the end of a vector, an exception, a loop that outlives its fuel.
      [Util.Result] and [Util.Status] are the code's error values; [let?]/[do?]
      are its early returns.
    - A method that holds its object's mutex is one step.  [ReleaseAll] of the
      lock manager takes its mutex several times and is as many steps
      ([LockManager.lm_step]); the server's mutex around the execution of a
      statement is modelled with the steps of its threads.
    - The order in which an [std::unordered_map] is traversed is unspecified:
      functions that traverse one take the order as an argument, or fix one
      where the result does not depend on it.
    - Loops that are not structural carry fuel; every theorem about such a loop
      states how much is enough (one unit per page of a heap file's chain, the
      number of pages for a descent in the tree, the rows of a table for a
      query, the length of the text for the scanner and the parser, the bytes
      and interruptions of a socket) and that the result is then returned.

    ** The parts

    Storage.
    - [Util], [Value]: src/utilities, src/common, src/storage/page.hpp.
    - [RecordCodec]: src/storage/record.cpp, rows as bytes.
    - [SlottedPage]: src/storage/slotted_page.hpp.
    - [PageManager]: src/storage/page_manager.cpp over a model of [std::fstream].
    - [PageStore]: the interface between the buffer pool and its clients, as a
      class of operations and the laws they promise; [BufferPool]
      (src/buffer) implements it, everything above the pool uses it.
    - [HeapFile], [RecordManager]: src/storage/heap_file.cpp,
      record_manager.hpp.
    - [Catalog] (src/catalog), with its invariant in [CatalogSpec] and its
      refinement theorem in [CatalogTheorems].
    - [TableManager]: src/storage/table_manager.hpp; [TableSpec] and
      [TableTheorems] relate it to a map from names to schemas and rows.

    Index.
    - [BPlusNode], [BPlusTree]: src/index; [BPlusTreeSpec] is the invariant,
      [BPlusTreeOps] and [BPlusTreeSearch] the specifications of the
      operations, [BPlusTreeTheorems] the theorems.

    Transactions.
    - [Transaction], [Mvcc], [LockManager]: src/transaction.
    - [Wal], [Recovery]: src/recovery.

    SQL.
    - [Tokenizer], [Ast], [Parser]: src/parser; [ParserSpec] is the grammar as
      relations with the soundness proofs, [ParserComplete] the converse.
    - [ExprEval], [Doubles]: src/executor/expr_eval.cpp, value_compare.hpp, and
      integers as doubles.
    - [Operators], [Scans]: the iterators of src/executor, each an instance of
      the class of operators; [OperatorSpec] says what stream each yields,
      [SortSpec] that ORDER BY sorts, [AggregateSpec] what aggregates are.
    - [Database]: src/database.hpp, the three files with their pools.
    - [Executor]: src/executor/executor.cpp.  [IndexSpec] is the invariant that
      an index has the entries of its table's rows; [ExecutorSpec], [SelectSpec]
      and [DdlSpec] specify the statements that change rows, query and change
      the catalog; [ExecutorTheorems] puts them together.
    - [DatabaseSpec], [DatabaseTheorems], [QueryTheorems]: opening and reopening,
      sessions, queries; [Samples] has databases the theorems are applied to.

    Shell and server.
    - [Formatter]: src/executor/result_formatter.cpp.
    - [Repl]: src/cli/repl.cpp.
    - [Protocol]: src/network/protocol.cpp over an abstract socket.
    - [Listener], [Server]: src/network/tcp_server.cpp; starting and stopping
      over the socket calls, and the threads as a step relation.
    - [Divergences]: sessions that show where the program departs from SQL.

    ** What the theorems show

    - Layouts: the invariant of a slotted page, the effect of each operation on
      the list of its records; encoding and decoding of rows, catalog entries,
      log records and responses invert each other; truncated input is
      detected.
    - Refinement: the buffer pool is a map of pages with pin counts whatever it
      evicts; a heap file is a map from record ids; the B+ tree is a list
      sorted by key; the catalog is two maps, also after it was reopened; the
      table manager is a map of tables; the executor is SQL on that map
      ([DatabaseTheorems.execute_refines], with the specification
      [ExecutorTheorems.sql_step]); the shell divides what is typed as its
      specification does and carries it out.
    - Queries: aggregates are those of a reference definition, integer sums are
      exact below 2^53, indexes do not change what a query returns.
    - Durability: flushed pages are found after the file was closed and opened,
      and so is the whole database; recovery restores the last committed image
      and can be interrupted.
    - Isolation: snapshots do not change; scans see the visible versions;
      exclusive locks exclude; deadlock detection finds exactly the cycles; the
      server's responses are those of a serial execution, and it does not
      deadlock.
    - SQL: the tokenizer accepts exactly the lexical grammar and the parser
      exactly the grammar of statements; typed expressions evaluate to values
      of their type.
    - Failures: what the code does on oversized records, on rows that do not
      fit a schema, on a torn log, on many equal keys in the index.

    ** Conditions on statements

    The theorems on the executor ask for [ExecutorTheorems.stmt_ok]: page ids and
    table ids that do not run out ([db_room]), at most [kLeafMaxKeys] rows with
    the same key of an index (beyond that the tree loses entries,
    [BPlusTreeTheorems.bplus_duplicates_lost]), updated rows that fit a page, a
    WHERE clause that evaluates on every row (for SELECT), comparisons on indexed
    columns within 53 bits and not [<>], no NaN in a sort column, and no index
    left over from a dropped table of the same name.  [Divergences] shows what
    happens otherwise.

    A client of the buffer pool keeps to [PageStore.cmd_ok]: it does not fetch
    page 0, accesses and flushes pages while they are pinned, holds fewer than
    2^31 pins of a page, and unpins what it wrote as dirty or flushes it.  A
    client of the table manager passes record ids of the table's pages or of
    pages that are not in the file ([TableTheorems.own_rid]): the code does not
    check that a page belongs to the table.

    ** What is not modelled

    - socket_compat.cpp and the main programs: wrappers of system calls, signals
      and command-line arguments.  What the protocol and the server need of the
      system are the classes [Protocol.SocketSpec] and [Listener.SocketApiSpec].
    - The mutexes of the buffer pool and the other classes, and a device that
      fails in the middle of a write (except for the log, where a torn tail is
      modelled).
    - That the process ends without [FlushAll]: what is then in the files is what
      the pools have written back. *)

From stdpp Require Export prelude gmap strings list fin_maps.
From Stdlib Require Export ZArith Lia.

#[export] Set Default Goal Selector "!".

(** ** Scopes, notations and the monads of the model *)

Declare Scope minidb_scope.
Delimit Scope minidb_scope with minidb.
Global Open Scope minidb_scope.
Global Open Scope Z_scope.

(** Computations over a state [S] that may run into undefined behaviour:
    [None] is undefined behaviour of the C++ abstract machine (a null [Page*]
    dereferenced, a loop that does not end within its fuel). *)
Definition M (S A : Type) : Type := S → option (A * S).

Definition ret {S A} (a : A) : M S A := λ s, Some (a, s).
Definition bind {S A B} (m : M S A) (k : A → M S B) : M S B :=
  λ s, match m s with
       | Some (a, s') => k a s'
       | None => None
       end.
Definition undefined_behaviour {S A} : M S A := λ _, None.
Definition gets {S A} (f : S → A) : M S A := λ s, Some (f s, s).
Definition modify {S} (f : S → S) : M S unit := λ s, Some (tt, f s).
(** A C++ member function that always returns, as a state function. *)
Definition lift {S A} (f : S → A * S) : M S A := λ s, Some (f s).

Notation "'let!' x ':=' m 'in' k" := (bind m (λ x, k))
  (at level 10, x binder, m at level 100, k at level 200)
  : minidb_scope.
Notation "'do!' m 'in' k" := (bind m (λ _, k))
  (at level 10, m at level 100, k at level 200)
  : minidb_scope.

(** ** Byte buffers

    A buffer is a list of bytes; an address is an offset in [Z] from its
    start, as in [page->Data() + off]. *)

Abbreviation byte := Init.Byte.byte.
Abbreviation bytes := (list byte).

Definition zero_byte : byte := Init.Byte.x00.

Definition mem_read (m : bytes) (off len : Z) : bytes :=
  take (Z.to_nat len) (drop (Z.to_nat off) m).

(** [std::memcpy(m + off, bs, bs.size())]. *)
Definition mem_write (m : bytes) (off : Z) (bs : bytes) : bytes :=
  take (Z.to_nat off) m ++ bs ++ drop (Z.to_nat off + length bs) m.

Definition blen (bs : bytes) : Z := Z.of_nat (length bs).

(** An access of [len] bytes at [off] stays inside a buffer of [size] bytes. *)
Definition in_bounds (size off len : Z) : Prop := 0 ≤ off ∧ 0 ≤ len ∧ off + len ≤ size.

(** ** Integers at their width *)

Definition u8 (z : Z) : Z := z `mod` 2 ^ 8.
Definition u16 (z : Z) : Z := z `mod` 2 ^ 16.
Definition u32 (z : Z) : Z := z `mod` 2 ^ 32.
Definition u64 (z : Z) : Z := z `mod` 2 ^ 64.
(** Two's complement reading of the low [w] bits. *)
Definition sword (w z : Z) : Z := (z + 2 ^ (w - 1)) `mod` 2 ^ w - 2 ^ (w - 1).
Definition i32 (z : Z) : Z := sword 32 z.
Definition i64 (z : Z) : Z := sword 64 z.

Definition in_u8 (z : Z) : Prop := 0 ≤ z < 2 ^ 8.
Definition in_u16 (z : Z) : Prop := 0 ≤ z < 2 ^ 16.
Definition in_u32 (z : Z) : Prop := 0 ≤ z < 2 ^ 32.
Definition in_u64 (z : Z) : Prop := 0 ≤ z < 2 ^ 64.
Definition in_i32 (z : Z) : Prop := - 2 ^ 31 ≤ z < 2 ^ 31.
Definition in_i64 (z : Z) : Prop := - 2 ^ 63 ≤ z < 2 ^ 63.

(** ** Tactics *)

Ltac unfold_widths :=
  unfold in_u8, in_u16, in_u32, in_u64, in_i32, in_i64, in_bounds, blen in *.

(** Linear arithmetic after the width predicates and buffer lengths are
    unfolded. *)
Ltac blia := unfold_widths; lia.

Create HintDb minidb discriminated.

(** Split conjunctions and close each part with the development's hints. *)
Ltac crush := repeat split; eauto with minidb; try blia; try done.

(** Case analysis on the scrutinee of a match or conditional in the goal. *)
Ltac case_goal :=
  match goal with
  | |- context [match ?x with _ => _ end] => destruct x eqn:?
  end.

(** The same for a hypothesis, discarding impossible branches. *)
Ltac case_hyp H :=
  match type of H with
  | context [match ?x with _ => _ end] => destruct x eqn:?; simplify_eq/=
  end.

(** Boolean comparisons on [Z] as propositions. *)
Ltac zbool :=
  repeat match goal with
  | H : (_ >? _) = _ |- _ => rewrite Z.gtb_ltb in H
  | H : (_ >=? _) = _ |- _ => rewrite Z.geb_leb in H
  | H : (_ <? _) = true |- _ => apply Z.ltb_lt in H
  | H : (_ <? _) = false |- _ => apply Z.ltb_ge in H
  | H : (_ <=? _) = true |- _ => apply Z.leb_le in H
  | H : (_ <=? _) = false |- _ => apply Z.leb_gt in H
  | H : (_ =? _) = true |- _ => apply Z.eqb_eq in H
  | H : (_ =? _) = false |- _ => apply Z.eqb_neq in H
  | H : andb _ _ = true |- _ => apply andb_true_iff in H as [? ?]
  | H : orb _ _ = false |- _ => apply orb_false_iff in H as [? ?]
  | H : negb _ = true |- _ => apply negb_true_iff in H
  | H : negb _ = false |- _ => apply negb_false_iff in H
  end.

(** ** Lemmas: widths *)

Lemma u16_small z : in_u16 z → u16 z = z.
Proof. intros ?. unfold u16. apply Z.mod_small. blia. Qed.

Lemma u32_small z : in_u32 z → u32 z = z.
Proof. intros ?. unfold u32. apply Z.mod_small. blia. Qed.

Lemma u64_small z : in_u64 z → u64 z = z.
Proof. intros ?. unfold u64. apply Z.mod_small. blia. Qed.

Lemma u16_range z : in_u16 (u16 z).
Proof. apply Z.mod_pos_bound. lia. Qed.

Lemma u32_range z : in_u32 (u32 z).
Proof. apply Z.mod_pos_bound. lia. Qed.

Lemma sword_mod w z : 0 < w → sword w (z `mod` 2 ^ w) = sword w z.
Proof. intros ?. unfold sword. by rewrite Zplus_mod_idemp_l. Qed.

Lemma sword_small w z :
  0 < w → - 2 ^ (w - 1) ≤ z < 2 ^ (w - 1) → sword w z = z.
Proof.
  intros ? ?. unfold sword.
  assert (2 ^ w = 2 * 2 ^ (w - 1)).
  { rewrite <- Z.pow_succ_r by lia. f_equal. lia. }
  rewrite Z.mod_small by lia. lia.
Qed.

Lemma i32_small z : in_i32 z → i32 z = z.
Proof. intros ?. apply sword_small; blia. Qed.

Lemma i64_small z : in_i64 z → i64 z = z.
Proof. intros ?. apply sword_small; blia. Qed.

Lemma i32_range z : in_i32 (i32 z).
Proof.
  unfold i32, sword, in_i32.
  pose proof (Z.mod_pos_bound (z + 2 ^ (32 - 1)) (2 ^ 32) ltac:(lia)). lia.
Qed.

#[export] Hint Resolve u16_range u32_range i32_range : minidb.

(** ** Lemmas: buffers *)

Lemma length_mem_write m off bs :
  in_bounds (blen m) off (blen bs) → length (mem_write m off bs) = length m.
Proof.
  intros ?. unfold mem_write. rewrite !length_app, length_take, length_drop. blia.
Qed.

Lemma blen_mem_write m off bs :
  in_bounds (blen m) off (blen bs) → blen (mem_write m off bs) = blen m.
Proof. intros ?. unfold blen. by rewrite length_mem_write. Qed.

Lemma length_mem_read m off len :
  in_bounds (blen m) off len → length (mem_read m off len) = Z.to_nat len.
Proof. intros ?. unfold mem_read. rewrite length_take, length_drop. blia. Qed.

Lemma blen_mem_read m off len :
  in_bounds (blen m) off len → blen (mem_read m off len) = len.
Proof. intros ?. unfold blen. rewrite length_mem_read; blia. Qed.

Lemma mem_read_write_eq m off bs len :
  in_bounds (blen m) off (blen bs) → len = blen bs →
  mem_read (mem_write m off bs) off len = bs.
Proof.
  intros ? ->. unfold mem_read, mem_write.
  rewrite drop_app_ge by (rewrite length_take; blia).
  rewrite length_take, Nat.min_l by blia. rewrite Nat.sub_diag, drop_0.
  rewrite take_app_le by blia. apply take_ge. blia.
Qed.

Lemma lookup_mem_write_old m off bs i :
  in_bounds (blen m) off (blen bs) →
  (i < Z.to_nat off)%nat ∨ (Z.to_nat off + length bs ≤ i)%nat →
  mem_write m off bs !! i = m !! i.
Proof.
  intros ? [?|?]; unfold mem_write.
  - rewrite lookup_app_l by (rewrite length_take; blia).
    by rewrite lookup_take_lt.
  - rewrite lookup_app_r by (rewrite length_take; blia).
    rewrite length_take, Nat.min_l by blia.
    rewrite lookup_app_r by lia. rewrite lookup_drop. f_equal. lia.
Qed.

Lemma lookup_mem_read m off len i :
  mem_read m off len !! i =
  if decide (i < Z.to_nat len)%nat then m !! (Z.to_nat off + i)%nat else None.
Proof.
  unfold mem_read. case_decide.
  - rewrite lookup_take_lt by done. apply lookup_drop.
  - rewrite lookup_take_ge by lia. done.
Qed.

(** Two buffers that agree on a range read the same there. *)
Lemma mem_read_ext m1 m2 off len :
  (∀ i, (Z.to_nat off ≤ i < Z.to_nat off + Z.to_nat len)%nat → m1 !! i = m2 !! i) →
  mem_read m1 off len = mem_read m2 off len.
Proof.
  intros Heq. apply list_eq. intros i. rewrite !lookup_mem_read.
  case_decide; [|done]. apply Heq. lia.
Qed.

Lemma mem_read_write_ne m off bs off' len :
  in_bounds (blen m) off (blen bs) → 0 ≤ off' → 0 ≤ len →
  off' + len ≤ off ∨ off + blen bs ≤ off' →
  mem_read (mem_write m off bs) off' len = mem_read m off' len.
Proof.
  intros ? ? ? Hd. apply mem_read_ext. intros i Hi.
  apply lookup_mem_write_old; [done|]. blia.
Qed.

Lemma mem_read_full m len : len = blen m → mem_read m 0 len = m.
Proof. intros ->. unfold mem_read. rewrite drop_0. apply take_ge. blia. Qed.

Lemma mem_read_app_l m1 m2 off len :
  in_bounds (blen m1) off len → mem_read (m1 ++ m2) off len = mem_read m1 off len.
Proof.
  intros ?. apply mem_read_ext. intros i ?. apply lookup_app_l. blia.
Qed.

Lemma mem_read_app_r m1 m2 off len :
  blen m1 ≤ off → mem_read (m1 ++ m2) off len = mem_read m2 (off - blen m1) len.
Proof.
  intros ?. unfold mem_read. rewrite drop_app_ge by blia. do 2 f_equal. blia.
Qed.

Lemma blen_app (a b : bytes) : blen (a ++ b) = blen a + blen b.
Proof. unfold blen. rewrite length_app. lia. Qed.

Lemma blen_nonneg (a : bytes) : 0 ≤ blen a.
Proof. blia. Qed.

Lemma blen_nil : blen [] = 0.
Proof. done. Qed.

Lemma blen_cons b (bs : bytes) : blen (b :: bs) = 1 + blen bs.
Proof. unfold blen. simpl. lia. Qed.

Lemma blen_replicate n b : blen (replicate n b) = Z.of_nat n.
Proof. unfold blen. by rewrite length_replicate. Qed.

(** ** Lemmas: the monad *)

Lemma bind_assoc {S A B C} (m : M S A) (k : A → M S B) (h : B → M S C) s :
  bind (bind m k) h s = bind m (λ a, bind (k a) h) s.
Proof. unfold bind. by destruct (m s) as [[??]|]. Qed.

Lemma bind_Some {S A B} (m : M S A) (k : A → M S B) s a s' :
  m s = Some (a, s') → bind m k s = k a s'.
Proof. intros Hm. unfold bind. by rewrite Hm. Qed.

Lemma bind_ret {S A B} (a : A) (k : A → M S B) s : bind (ret a) k s = k a s.
Proof. done. Qed.

Lemma bind_gets {S A B} (f : S → A) (k : A → M S B) s : bind (gets f) k s = k (f s) s.
Proof. done. Qed.

(** ** Lemmas: lists *)

Lemma NoDup_snoc {A} (l : list A) x : x ∉ l → NoDup l → NoDup (l ++ [x]).
Proof.
  intros Hx Hl. apply NoDup_app. split_and!; [done| |apply NoDup_singleton].
  intros y ? ->%list_elem_of_singleton. done.
Qed.

Lemma last_elem_of {A} (l : list A) x : last l = Some x → x ∈ l.
Proof. intros [l' ->]%last_Some. set_solver. Qed.

(** Distinct numbers below a bound are no more than the bound allows. *)
Lemma NoDup_range_length (ps : list Z) c :
  NoDup ps → (∀ p, p ∈ ps → 1 ≤ p < c) → Z.of_nat (length ps) ≤ Z.max 0 (c - 1).
Proof.
  intros Hnd Hr. assert (ps ⊆+ seqZ 1 (c - 1)) as Hs%submseteq_length.
  { apply NoDup_submseteq; [done|]. intros p Hp%Hr. apply elem_of_seqZ. lia. }
  rewrite length_seqZ in Hs. lia.
Qed.

(** ** Lemmas: filtering *)

Lemma filter_all {A} (P : A → Prop) `{!∀ x, Decision (P x)} (l : list A) : Forall P l → filter P l = l.
Proof. induction 1; [done|]. rewrite filter_cons, decide_True by done. by f_equal. Qed.

Lemma filter_none {A} (P : A → Prop) `{!∀ x, Decision (P x)} (l : list A) :
  Forall (λ x, ¬ P x) l → filter P l = [].
Proof. induction 1; [done|]. by rewrite filter_cons, decide_False. Qed.
