(* ===== verification/Util.v ===== *)
(** * Utilities: src/utilities and the page type

    [status.hpp] (error values), [bytes.hpp] (fixed-width integers in a byte
    buffer), [config.hpp] and [page.hpp]. *)

From S2P Require Import Prelude.
From coqutil Require Word.LittleEndianList.

Import LittleEndianList.

(** ** status.hpp *)

Inductive Code :=
  kOk | kNotFound | kInvalidArgument | kOutOfSpace | kIOError | kCorruption
  | kAlreadyExists | kConflict.

#[export] Instance Code_eq_dec : EqDecision Code.
Proof. solve_decision. Defined.

Record Status := mkStatus { code_ : Code; message_ : string }.

#[export] Instance Status_eq_dec : EqDecision Status.
Proof. solve_decision. Defined.

Definition Status_OK : Status := mkStatus kOk "".
Definition NotFound (msg : string) : Status := mkStatus kNotFound msg.
Definition InvalidArgument (msg : string) : Status := mkStatus kInvalidArgument msg.
Definition OutOfSpace (msg : string) : Status := mkStatus kOutOfSpace msg.
Definition IOError (msg : string) : Status := mkStatus kIOError msg.
Definition Corruption (msg : string) : Status := mkStatus kCorruption msg.
Definition AlreadyExists (msg : string) : Status := mkStatus kAlreadyExists msg.
Definition Conflict (msg : string) : Status := mkStatus kConflict msg.

Definition status_ok (s : Status) : bool := bool_decide (code_ s = kOk).

(** [Result<T>]: a value, or the status that was returned instead. *)
Inductive Result (T : Type) :=
  | Ok (value_ : T)
  | Err (status_ : Status).
Arguments Ok {T} value_.
Arguments Err {T} status_.

Definition result_ok {T} (r : Result T) : bool :=
  match r with Ok _ => true | Err s => status_ok s end.
Definition result_status {T} (r : Result T) : Status :=
  match r with Ok _ => Status_OK | Err s => s end.

(** [if (!r.ok()) return r.status();] between computations that give results. *)
Definition rbind {S A B} (m : M S (Result A)) (k : A → M S (Result B)) : M S (Result B) :=
  let! r := m in match r with Ok a => k a | Err e => ret (Err e) end.
Definition rret {S A} (a : A) : M S (Result A) := ret (Ok a).

Notation "'let?' x ':=' m 'in' k" := (rbind m (λ x, k))
  (at level 10, x binder, m at level 100, k at level 200) : minidb_scope.
Notation "'do?' m 'in' k" := (rbind m (λ _, k))
  (at level 10, m at level 100, k at level 200) : minidb_scope.

(** ** bytes.hpp

    [WriteFixed] and [ReadFixed] copy the object representation of an
    integer; the representation is little-endian. *)

Definition WriteFixed (sz : nat) (dst : bytes) (off : Z) (value : Z) : bytes :=
  mem_write dst off (le_split sz value).

Definition ReadFixedU (sz : nat) (src : bytes) (off : Z) : Z :=
  le_combine (mem_read src off (Z.of_nat sz)).

Definition ReadFixedS (sz : nat) (src : bytes) (off : Z) : Z :=
  sword (8 * Z.of_nat sz) (ReadFixedU sz src off).

Definition byte_of_Z (z : Z) : byte := coqutil.Byte.byte.of_Z z.
Definition Z_of_byte (b : byte) : Z := coqutil.Byte.byte.unsigned b.

(** ** config.hpp and page.hpp *)

Definition kPageSize : Z := 4096.
Definition kDefaultBufferPoolSize : Z := 64.
Definition kHeaderPageId : Z := 0.
Definition kFirstDataPageId : Z := 1.
Definition kInvalidPageId : Z := -1.

(** [Page]: a buffer of [kPageSize] bytes ([page_wf]), zeroed on construction
    and by [Reset]. *)
Abbreviation Page := bytes.
Definition blank_page : Page := replicate (Z.to_nat kPageSize) zero_byte.
Definition page_wf (p : Page) : Prop := blen p = kPageSize.

Record RecordId := mkRid { rid_page_id : Z; rid_slot_id : Z }.

#[export] Instance RecordId_eq_dec : EqDecision RecordId.
Proof. solve_decision. Defined.

#[export] Instance RecordId_countable : Countable RecordId.
Proof.
  refine (inj_countable' (λ r, (rid_page_id r, rid_slot_id r))
            (λ p, mkRid p.1 p.2) _).
  by intros [].
Defined.

Definition RecordId_IsValid (r : RecordId) : bool := negb (rid_page_id r =? kInvalidPageId).

(** ** Lemmas *)

Lemma blen_le_split sz v : blen (le_split sz v) = Z.of_nat sz.
Proof. unfold blen. by rewrite length_le_split. Qed.

Lemma le_combine_range bs : 0 ≤ le_combine bs < 2 ^ (8 * blen bs).
Proof. apply le_combine_bound. Qed.

Lemma ReadFixedU_range sz m off : 0 ≤ ReadFixedU sz m off < 2 ^ (8 * Z.of_nat sz).
Proof.
  unfold ReadFixedU.
  pose proof (le_combine_range (mem_read m off (Z.of_nat sz))) as [? ?].
  split; [done|]. eapply Z.lt_le_trans; [done|].
  apply Z.pow_le_mono_r; [lia|].
  unfold blen, mem_read. rewrite length_take, length_drop. lia.
Qed.

Lemma blen_WriteFixed sz m off v :
  in_bounds (blen m) off (Z.of_nat sz) → blen (WriteFixed sz m off v) = blen m.
Proof. intros ?. apply blen_mem_write. by rewrite blen_le_split. Qed.

Lemma page_wf_WriteFixed sz m off v :
  page_wf m → in_bounds kPageSize off (Z.of_nat sz) → page_wf (WriteFixed sz m off v).
Proof. unfold page_wf. intros Hm ?. rewrite blen_WriteFixed; by rewrite ?Hm. Qed.

Lemma ReadU_WriteFixed_eq sz m off v :
  in_bounds (blen m) off (Z.of_nat sz) →
  ReadFixedU sz (WriteFixed sz m off v) off = v `mod` 2 ^ (8 * Z.of_nat sz).
Proof.
  intros ?. unfold ReadFixedU, WriteFixed.
  rewrite mem_read_write_eq by (rewrite ?blen_le_split; done).
  rewrite le_combine_split. do 2 f_equal. lia.
Qed.

Lemma ReadS_WriteFixed_eq sz m off v :
  (0 < sz)%nat → in_bounds (blen m) off (Z.of_nat sz) →
  - 2 ^ (8 * Z.of_nat sz - 1) ≤ v < 2 ^ (8 * Z.of_nat sz - 1) →
  ReadFixedS sz (WriteFixed sz m off v) off = v.
Proof.
  intros ? ? ?. unfold ReadFixedS. rewrite ReadU_WriteFixed_eq by done.
  rewrite sword_mod by lia. apply sword_small; lia.
Qed.

Lemma ReadU_WriteFixed_ne sz sz' m off off' v :
  in_bounds (blen m) off (Z.of_nat sz) → 0 ≤ off' →
  off' + Z.of_nat sz' ≤ off ∨ off + Z.of_nat sz ≤ off' →
  ReadFixedU sz' (WriteFixed sz m off v) off' = ReadFixedU sz' m off'.
Proof.
  intros ? ? ?. unfold ReadFixedU, WriteFixed.
  rewrite mem_read_write_ne; rewrite ?blen_le_split; [done..|lia|done].
Qed.

Lemma ReadS_WriteFixed_ne sz sz' m off off' v :
  in_bounds (blen m) off (Z.of_nat sz) → 0 ≤ off' →
  off' + Z.of_nat sz' ≤ off ∨ off + Z.of_nat sz ≤ off' →
  ReadFixedS sz' (WriteFixed sz m off v) off' = ReadFixedS sz' m off'.
Proof. intros. unfold ReadFixedS. by rewrite ReadU_WriteFixed_ne. Qed.

Lemma mem_read_WriteFixed_ne sz m off v off' len :
  in_bounds (blen m) off (Z.of_nat sz) → 0 ≤ off' → 0 ≤ len →
  off' + len ≤ off ∨ off + Z.of_nat sz ≤ off' →
  mem_read (WriteFixed sz m off v) off' len = mem_read m off' len.
Proof. intros. unfold WriteFixed. apply mem_read_write_ne; by rewrite ?blen_le_split. Qed.

Lemma ReadU_mem_write_ne sz m off bs off' :
  in_bounds (blen m) off (blen bs) → 0 ≤ off' →
  off' + Z.of_nat sz ≤ off ∨ off + blen bs ≤ off' →
  ReadFixedU sz (mem_write m off bs) off' = ReadFixedU sz m off'.
Proof. intros. unfold ReadFixedU. rewrite mem_read_write_ne; [done..|lia|done]. Qed.

(** Reading an integer back from the bytes [WriteFixed] produced, at the
    front of a stream. *)
Lemma le_combine_split_small sz v :
  0 ≤ v < 2 ^ (8 * Z.of_nat sz) → le_combine (le_split sz v) = v.
Proof.
  intros ?. rewrite le_combine_split. apply Z.mod_small.
  by rewrite (Z.mul_comm (Z.of_nat sz)).
Qed.

Lemma ReadFixedU_app sz v pre post :
  0 ≤ v < 2 ^ (8 * Z.of_nat sz) →
  ReadFixedU sz (pre ++ le_split sz v ++ post) (blen pre) = v.
Proof.
  intros ?. unfold ReadFixedU. rewrite mem_read_app_r by lia. rewrite Z.sub_diag.
  rewrite mem_read_app_l by (rewrite blen_le_split; blia).
  rewrite mem_read_full by (by rewrite blen_le_split).
  by apply le_combine_split_small.
Qed.

Lemma ReadFixedS_app sz v pre post :
  (0 < sz)%nat → - 2 ^ (8 * Z.of_nat sz - 1) ≤ v < 2 ^ (8 * Z.of_nat sz - 1) →
  ReadFixedS sz (pre ++ le_split sz v ++ post) (blen pre) = v.
Proof.
  intros ? ?. unfold ReadFixedS, ReadFixedU. rewrite mem_read_app_r by lia.
  rewrite Z.sub_diag.
  rewrite mem_read_app_l by (rewrite blen_le_split; blia).
  rewrite mem_read_full by (by rewrite blen_le_split).
  rewrite le_combine_split, (Z.mul_comm (Z.of_nat sz)).
  rewrite sword_mod by lia. apply sword_small; lia.
Qed.

(** Fields written one after another into a buffer. *)
Lemma WriteFixed_append sz pre n v off :
  blen pre = off → (sz ≤ n)%nat →
  WriteFixed sz (pre ++ replicate n zero_byte) off v =
  (pre ++ le_split sz v) ++ replicate (n - sz) zero_byte.
Proof.
  intros Hoff Hn. unfold WriteFixed, mem_write. rewrite length_le_split, <- Hoff. unfold blen.
  rewrite Nat2Z.id, take_app_length, <- app_assoc. do 2 f_equal.
  rewrite drop_app_ge by lia. replace (length pre + sz - length pre)%nat with sz by lia.
  apply drop_replicate.
Qed.

Lemma page_wf_blank : page_wf blank_page.
Proof. unfold page_wf, blank_page. rewrite blen_replicate. done. Qed.

#[export] Hint Resolve page_wf_blank : minidb.

#[global] Opaque le_split le_combine blank_page.
