(* ===== verification/Value.v ===== *)
(** * Values and schemas: src/common/value.hpp, src/common/schema.hpp *)

From S2P Require Import Prelude Util.
From Stdlib Require Strings.String.

(** ** Data *)

Inductive ColumnType := kInt | kBigInt | kDouble | kBool | kVarchar.

#[export] Instance ColumnType_eq_dec : EqDecision ColumnType.
Proof. solve_decision. Defined.

Definition ColumnType_code (t : ColumnType) : Z :=
  match t with kInt => 0 | kBigInt => 1 | kDouble => 2 | kBool => 3 | kVarchar => 4 end.

Definition ColumnTypeName (t : ColumnType) : string :=
  match t with
  | kInt => "INT"
  | kBigInt => "BIGINT"
  | kDouble => "DOUBLE"
  | kBool => "BOOLEAN"
  | kVarchar => "VARCHAR"
  end.

(** [Value]: the alternatives of the [std::variant].  A double is its 64-bit
    object representation. *)
Inductive Value :=
  | VNull
  | VInt32 (v : Z)
  | VInt64 (v : Z)
  | VDouble (bits : Z)
  | VBool (b : bool)
  | VString (s : string).

#[export] Instance Value_eq_dec : EqDecision Value.
Proof. solve_decision. Defined.

(** The ranges the alternatives' C++ types give. *)
Definition value_wf (v : Value) : Prop :=
  match v with
  | VNull | VBool _ | VString _ => True
  | VInt32 z => in_i32 z
  | VInt64 z => in_i64 z
  | VDouble bits => in_u64 bits
  end.

Record Column := mkColumn {
  col_name : string;
  col_type : ColumnType;
  col_nullable : bool;
  col_max_length : Z
}.

(** [max_length] is a [std::uint16_t]. *)
Definition column_wf (c : Column) : Prop := in_u16 (col_max_length c).

Abbreviation Schema := (list Column).

(** ** Operations *)

Definition IsNull (v : Value) : bool := match v with VNull => true | _ => false end.

Definition ValueMatchesType (v : Value) (t : ColumnType) : bool :=
  if IsNull v then true
  else
    match t with
    | kInt => match v with VInt32 _ => true | _ => false end
    | kBigInt => match v with VInt64 _ => true | _ => false end
    | kDouble => match v with VDouble _ => true | _ => false end
    | kBool => match v with VBool _ => true | _ => false end
    | kVarchar => match v with VString _ => true | _ => false end
    end.

Definition ColumnCount (s : Schema) : Z := Z.of_nat (length s).

Fixpoint IndexOf_from (s : Schema) (column_name : string) (i : nat) : option nat :=
  match s with
  | [] => None
  | c :: s' => if String.eqb (col_name c) column_name then Some i
               else IndexOf_from s' column_name (S i)
  end.

Definition IndexOf (s : Schema) (column_name : string) : option nat :=
  IndexOf_from s column_name 0.

(** ** Strings as bytes *)

Definition string_bytes (s : string) : bytes := String.list_byte_of_string s.
Definition bytes_string (b : bytes) : string := String.string_of_list_byte b.

Lemma bytes_string_bytes s : bytes_string (string_bytes s) = s.
Proof. apply String.string_of_list_byte_of_string. Qed.

Lemma string_bytes_string b : string_bytes (bytes_string b) = b.
Proof. apply String.list_byte_of_string_of_list_byte. Qed.

(** ** Lemmas *)

Lemma IndexOf_from_Some s name i k :
  IndexOf_from s name i = Some k →
  ∃ j c, k = (i + j)%nat ∧ s !! j = Some c ∧ col_name c = name ∧
         ∀ j' c', (j' < j)%nat → s !! j' = Some c' → col_name c' ≠ name.
Proof.
  revert i. induction s as [|c s IH]; intros i; simpl; [done|].
  destruct (String.eqb_spec (col_name c) name) as [Hn|Hn].
  - intros [= <-]. exists O, c. split_and!; [lia|done|done|lia].
  - intros (j & c' & -> & ? & ? & Hlt)%IH. exists (S j), c'.
    split_and!; [lia|done|done|]. intros [|j'] c'' ?; simpl.
    + by intros [= <-].
    + apply Hlt. lia.
Qed.

Lemma IndexOf_from_None s name i :
  IndexOf_from s name i = None ↔ ∀ c, c ∈ s → col_name c ≠ name.
Proof.
  revert i. induction s as [|c s IH]; intros i; simpl.
  - split; [|done]. intros _ c []%elem_of_nil.
  - destruct (String.eqb_spec (col_name c) name) as [Hn|Hn].
    + split; [done|]. intros H. by destruct (H c); [left|].
    + rewrite IH. split.
      * intros H c' [->|?]%elem_of_cons; auto.
      * intros H c' ?. apply H. by right.
Qed.

(** [IndexOf] returns the first column of that name, and none only when no
    column has it. *)
Lemma IndexOf_spec s name :
  match IndexOf s name with
  | Some k => ∃ c, s !! k = Some c ∧ col_name c = name ∧
                   ∀ k' c', (k' < k)%nat → s !! k' = Some c' → col_name c' ≠ name
  | None => ∀ c, c ∈ s → col_name c ≠ name
  end.
Proof.
  unfold IndexOf. destruct (IndexOf_from s name 0) as [k|] eqn:E.
  - destruct (IndexOf_from_Some _ _ _ _ E) as (j & c & -> & ? & ? & ?). eauto.
  - by apply (IndexOf_from_None s name 0).
Qed.
