(* ===== verification/RecordCodec.v ===== *)
(** * Row encoding: src/storage/record.hpp, src/storage/record.cpp

    A row is a null bitmap of one bit per column followed by the non-null
    values.  [payload_of] is the reference encoding of the values; the
    theorems show that decoding inverts encoding, when encoding fails, and
    that a truncated row is rejected. *)

From S2P Require Import Prelude Util Value.
From coqutil Require Word.LittleEndianList.

Import LittleEndianList.

(** ** Operations *)

Definition NullBitmapBytes (column_count : Z) : Z := (column_count + 7) / 8.

(** [out[i / 8] |= 1 << (i % 8)]. *)
Definition set_null_bit (out : bytes) (i : Z) : bytes :=
  let k := Z.to_nat (i / 8) in
  <[k := byte_of_Z (Z.lor (Z_of_byte (default zero_byte (out !! k)))
                          (Z.shiftl 1 (i mod 8)))]> out.

(** [(bytes[i / 8] & (1 << (i % 8))) != 0]. *)
Definition get_null_bit (bs : bytes) (i : Z) : bool :=
  negb (Z.land (Z_of_byte (default zero_byte (bs !! Z.to_nat (i / 8))))
               (Z.shiftl 1 (i mod 8)) =? 0).

(** The body of the loop over the columns, from column [i].  [std::get] of an
    alternative that [v] does not hold would throw (the last case of the
    [switch]); the type check above excludes it. *)
Fixpoint encode_columns (cols : Schema) (values : list Value) (i : Z) (out : bytes)
    : Result bytes :=
  match cols, values with
  | col :: cols', v :: values' =>
      if negb (ValueMatchesType v (col_type col)) then
        Err (InvalidArgument ("RecordCodec::Encode: type mismatch for column '" ++ col_name col ++ "'"))
      else if IsNull v then
        if negb (col_nullable col) then
          Err (InvalidArgument ("RecordCodec::Encode: NULL given for NOT NULL column '" ++ col_name col ++ "'"))
        else encode_columns cols' values' (i + 1) (set_null_bit out i)
      else
        match col_type col, v with
        | kInt, VInt32 iv => encode_columns cols' values' (i + 1) (out ++ le_split 4 iv)
        | kBigInt, VInt64 iv => encode_columns cols' values' (i + 1) (out ++ le_split 8 iv)
        | kDouble, VDouble dv => encode_columns cols' values' (i + 1) (out ++ le_split 8 dv)
        | kBool, VBool bv =>
            encode_columns cols' values' (i + 1)
              (out ++ [if bv then Init.Byte.x01 else Init.Byte.x00])
        | kVarchar, VString sv =>
            let size := blen (string_bytes sv) in
            if size >? col_max_length col then
              Err (InvalidArgument ("RecordCodec::Encode: value too long for column '" ++ col_name col ++ "'"))
            else if size >? 65535 then
              Err (InvalidArgument "RecordCodec::Encode: value exceeds 65535-byte codec limit")
            else
              encode_columns cols' values' (i + 1)
                (out ++ le_split 2 (u16 size) ++ string_bytes sv)
        | _, _ => Err (InvalidArgument "bad_variant_access")
        end
  | _, _ => Ok out
  end.

Definition Encode (schema : Schema) (values : list Value) : Result bytes :=
  if negb (Z.of_nat (length values) =? ColumnCount schema) then
    Err (InvalidArgument "RecordCodec::Encode: value count does not match schema")
  else
    let bitmap_bytes := NullBitmapBytes (ColumnCount schema) in
    encode_columns schema values 0 (replicate (Z.to_nat bitmap_bytes) zero_byte).

Fixpoint decode_columns (cols : Schema) (i cursor : Z) (bs : bytes) (values : list Value)
    : Result (list Value) :=
  match cols with
  | [] => Ok values
  | col :: cols' =>
      if get_null_bit bs i then
        decode_columns cols' (i + 1) cursor bs (values ++ [VNull])
      else
        match col_type col with
        | kInt =>
            if cursor + 4 >? blen bs then Err (Corruption "RecordCodec::Decode: truncated INT")
            else decode_columns cols' (i + 1) (cursor + 4) bs
                   (values ++ [VInt32 (ReadFixedS 4 bs cursor)])
        | kBigInt =>
            if cursor + 8 >? blen bs then Err (Corruption "RecordCodec::Decode: truncated BIGINT")
            else decode_columns cols' (i + 1) (cursor + 8) bs
                   (values ++ [VInt64 (ReadFixedS 8 bs cursor)])
        | kDouble =>
            if cursor + 8 >? blen bs then Err (Corruption "RecordCodec::Decode: truncated DOUBLE")
            else decode_columns cols' (i + 1) (cursor + 8) bs
                   (values ++ [VDouble (ReadFixedU 8 bs cursor)])
        | kBool =>
            if cursor + 1 >? blen bs then Err (Corruption "RecordCodec::Decode: truncated BOOLEAN")
            else decode_columns cols' (i + 1) (cursor + 1) bs
                   (values ++ [VBool (negb (ReadFixedU 1 bs cursor =? 0))])
        | kVarchar =>
            if cursor + 2 >? blen bs then
              Err (Corruption "RecordCodec::Decode: truncated VARCHAR length")
            else
              let len := ReadFixedU 2 bs cursor in
              let cursor := cursor + 2 in
              if cursor + len >? blen bs then
                Err (Corruption "RecordCodec::Decode: truncated VARCHAR payload")
              else decode_columns cols' (i + 1) (cursor + len) bs
                     (values ++ [VString (bytes_string (mem_read bs cursor len))])
        end
  end.

Definition Decode (schema : Schema) (bs : bytes) : Result (list Value) :=
  let bitmap_bytes := NullBitmapBytes (ColumnCount schema) in
  if blen bs <? bitmap_bytes then
    Err (Corruption "RecordCodec::Decode: record shorter than null bitmap")
  else decode_columns schema 0 bitmap_bytes bs [].

(** ** The reference encoding *)

Definition enc_value (v : Value) : bytes :=
  match v with
  | VNull => []
  | VInt32 z => le_split 4 z
  | VInt64 z => le_split 8 z
  | VDouble bits => le_split 8 bits
  | VBool b => [if b then Init.Byte.x01 else Init.Byte.x00]
  | VString s => le_split 2 (blen (string_bytes s)) ++ string_bytes s
  end.

Definition payload_of (values : list Value) : bytes := values ≫= enc_value.

(** Bit [j] of a bitmap. *)
Definition bit_at (bs : bytes) (j : Z) : bool :=
  Z.testbit (Z_of_byte (default zero_byte (bs !! Z.to_nat (j / 8)))) (j mod 8).

(** A value the column accepts. *)
Definition value_fits (col : Column) (v : Value) : bool :=
  ValueMatchesType v (col_type col) &&
  match v with
  | VNull => col_nullable col
  | VString s => blen (string_bytes s) <=? col_max_length col
  | _ => true
  end.

Definition row_fits (schema : Schema) (values : list Value) : Prop :=
  Forall2 (λ c v, value_fits c v = true) schema values.

(** ** Lemmas: the bitmap *)

Lemma Z_of_byte_range b : 0 ≤ Z_of_byte b < 256.
Proof. apply coqutil.Byte.byte.unsigned_range. Qed.

Lemma Z_of_byte_of_Z z : Z_of_byte (byte_of_Z z) = z mod 256.
Proof. apply coqutil.Byte.byte.unsigned_of_Z. Qed.

Lemma get_null_bit_testbit bs i : 0 ≤ i → get_null_bit bs i = bit_at bs i.
Proof.
  intros ?. unfold get_null_bit, bit_at.
  set (b := Z_of_byte _). pose proof (Z.mod_pos_bound i 8 ltac:(lia)).
  rewrite Z.shiftl_1_l.
  destruct (Z.testbit b (i mod 8)) eqn:E.
  - apply negb_true_iff, Z.eqb_neq. intros Hz.
    apply (f_equal (λ z, Z.testbit z (i mod 8))) in Hz.
    rewrite Z.land_spec, E, Z.bits_0, Z.pow2_bits_true in Hz by lia. done.
  - apply negb_false_iff, Z.eqb_eq. apply Z.bits_inj'. intros n ?.
    rewrite Z.land_spec, Z.bits_0. destruct (decide (n = i mod 8)) as [->|].
    + by rewrite E.
    + rewrite Z.pow2_bits_false by lia. apply andb_false_r.
Qed.

Lemma length_set_null_bit out i : length (set_null_bit out i) = length out.
Proof. apply length_insert. Qed.

Lemma Z_div_mod_inj i j : i ≠ j → i / 8 = j / 8 → i mod 8 ≠ j mod 8.
Proof.
  intros ? ? ?. pose proof (Z.div_mod i 8 ltac:(lia)).
  pose proof (Z.div_mod j 8 ltac:(lia)). lia.
Qed.

Lemma bit_at_set_null_bit out i j :
  0 ≤ i < 8 * blen out → 0 ≤ j →
  bit_at (set_null_bit out i) j = bool_decide (i = j) || bit_at out j.
Proof.
  intros Hi Hj. unfold bit_at, set_null_bit.
  pose proof (Z.mod_pos_bound i 8 ltac:(lia)). pose proof (Z.mod_pos_bound j 8 ltac:(lia)).
  assert (i / 8 < blen out) by (apply Z.div_lt_upper_bound; lia).
  assert (0 ≤ i / 8) by (apply Z.div_pos; lia).
  assert (0 ≤ j / 8) by (apply Z.div_pos; lia).
  destruct (decide (i / 8 = j / 8)) as [He|He].
  - rewrite He. rewrite list_lookup_insert_eq by blia. cbn [from_option id].
    rewrite Z_of_byte_of_Z.
    replace 256 with (2 ^ 8) by done. rewrite Z.mod_pow2_bits_low by lia.
    rewrite Z.lor_spec, Z.shiftl_1_l, orb_comm. f_equal.
    case_bool_decide as Hij; [subst; by rewrite Z.pow2_bits_true by lia|].
    apply Z.pow2_bits_false. by apply Z_div_mod_inj.
  - rewrite list_lookup_insert_ne by blia.
    rewrite bool_decide_false; [done|]. intros ->. done.
Qed.

Lemma bit_at_app out l j :
  0 ≤ j < 8 * blen out → bit_at (out ++ l) j = bit_at out j.
Proof.
  intros ?. unfold bit_at. rewrite lookup_app_l; [done|].
  assert (j / 8 < blen out) by (apply Z.div_lt_upper_bound; lia). blia.
Qed.

Lemma bit_at_zeros n j : bit_at (replicate n zero_byte) j = false.
Proof.
  unfold bit_at. assert (default zero_byte (replicate n zero_byte !! Z.to_nat (j / 8)) = zero_byte) as ->.
  { destruct (_ !! _) as [b|] eqn:E; [|done].
    by apply lookup_replicate_1 in E as [-> _]. }
  change (Z_of_byte zero_byte) with 0. apply Z.bits_0.
Qed.

Lemma drop_set_null_bit n out i :
  0 ≤ i < 8 * Z.of_nat n → drop n (set_null_bit out i) = drop n out.
Proof.
  intros ?. apply drop_insert_lt.
  assert (i / 8 < Z.of_nat n) by (apply Z.div_lt_upper_bound; lia). lia.
Qed.

(** ** Lemmas: encoding *)

(** [Encode]'s loop appends the reference payload and sets the bits of the
    null columns. *)
Lemma encode_columns_ok cols values i out n :
  row_fits cols values → Forall column_wf cols →
  0 ≤ i → i + Z.of_nat (length cols) ≤ 8 * Z.of_nat n → (n ≤ length out)%nat →
  ∃ out', encode_columns cols values i out = Ok out' ∧
    drop n out' = drop n out ++ payload_of values ∧ (n ≤ length out')%nat ∧
    (∀ j, 0 ≤ j < 8 * Z.of_nat n →
       bit_at out' j =
         bit_at out j || (bool_decide (i ≤ j) &&
           default false (IsNull <$> values !! Z.to_nat (j - i)))).
Proof.
  intros Hfit. revert i out. induction Hfit as [|c v cols values Hv _ IH];
    intros i out Hcw Hi Hn Hl; simpl.
  { exists out. split_and!; [done|by rewrite app_nil_r|done|].
    intros j ?. by rewrite andb_false_r, orb_false_r. }
  apply Forall_cons in Hcw as [Hc Hcw]. unfold value_fits in Hv. zbool.
  match goal with H : ValueMatchesType _ _ = true |- _ => rewrite H end. simpl.
  (* every branch continues the loop on some [out2] *)
  assert (∀ out2, (n ≤ length out2)%nat → drop n out2 = drop n out ++ enc_value v →
    (∀ j, 0 ≤ j < 8 * Z.of_nat n →
       bit_at out2 j = bit_at out j || (bool_decide (i = j) && IsNull v)) →
    ∃ out', encode_columns cols values (i + 1) out2 = Ok out' ∧
      drop n out' = drop n out ++ enc_value v ++ payload_of values ∧
      (n ≤ length out')%nat ∧
      (∀ j, 0 ≤ j < 8 * Z.of_nat n →
         bit_at out' j = bit_at out j || (bool_decide (i ≤ j) &&
           default false (IsNull <$> (v :: values) !! Z.to_nat (j - i))))) as Hstep.
  { intros out2 Hl2 Hd2 Hb2. simpl in Hn.
    destruct (IH (i + 1) out2) as (out' & -> & Hd' & ? & Hb'); [done|lia..|].
    exists out'. split_and!; [done|by rewrite Hd', Hd2, app_assoc|done|].
    intros j Hj. rewrite Hb', Hb2 by done. rewrite <- orb_assoc. f_equal.
    destruct (decide (i = j)) as [->|].
    - rewrite Z.sub_diag. repeat case_bool_decide; try lia. simpl.
      by rewrite orb_false_r.
    - rewrite (bool_decide_false (i = j)) by done. simpl.
      destruct (decide (i + 1 ≤ j)).
      + repeat case_bool_decide; try lia. simpl.
        replace (Z.to_nat (j - i)) with (S (Z.to_nat (j - (i + 1)))) by lia. done.
      + repeat case_bool_decide; (lia || done). }
  assert (∀ l, v ≠ VNull → enc_value v = l →
    ∃ out', encode_columns cols values (i + 1) (out ++ l) = Ok out' ∧
      drop n out' = drop n out ++ enc_value v ++ payload_of values ∧
      (n ≤ length out')%nat ∧
      (∀ j, 0 ≤ j < 8 * Z.of_nat n →
         bit_at out' j = bit_at out j || (bool_decide (i ≤ j) &&
           default false (IsNull <$> (v :: values) !! Z.to_nat (j - i))))) as Happ.
  { intros l Hv' <-. apply Hstep.
    - rewrite length_app. lia.
    - by rewrite drop_app_le by lia.
    - intros j ?. rewrite bit_at_app by blia. destruct v; try done; simpl;
        by rewrite andb_false_r, orb_false_r. }
  destruct v as [| | | | |s]; [|destruct (col_type c); try done..]; simpl in *; [|by apply Happ..|].
  - match goal with H : col_nullable _ = true |- _ => rewrite H end. simpl.
    apply Hstep.
    + by rewrite length_set_null_bit.
    + rewrite app_nil_r. apply drop_set_null_bit. lia.
    + intros j ?. rewrite bit_at_set_null_bit by blia. by rewrite andb_true_r, orb_comm.
  - zbool. unfold column_wf in Hc.
    destruct (Z.gtb_spec (blen (string_bytes s)) (col_max_length c)); [lia|].
    destruct (Z.gtb_spec (blen (string_bytes s)) 65535); [blia|].
    apply Happ; [done|]. by rewrite u16_small by blia.
Qed.

(** A row that does not fit is refused with [kInvalidArgument]. *)
Lemma encode_columns_err cols values i out :
  length cols = length values → ¬ row_fits cols values →
  ∃ msg, encode_columns cols values i out = Err (InvalidArgument msg).
Proof.
  revert values i out. induction cols as [|c cols IH]; intros [|v values] i out Hl Hn;
    simpl in *; try done.
  { destruct Hn. constructor. }
  injection Hl as Hl.
  assert (value_fits c v = true → ∀ i' out', ∃ msg,
            encode_columns cols values i' out' = Err (InvalidArgument msg)) as Hrec.
  { intros Hv i' out'. apply IH; [done|]. contradict Hn. by constructor. }
  unfold value_fits in Hrec.
  destruct (ValueMatchesType v (col_type c)) eqn:Ht; simpl in *; [|eauto].
  destruct v as [| | | | |s]; [|destruct (col_type c); try done..]; simpl in *; eauto.
  - destruct (col_nullable c); simpl; eauto.
  - destruct (Z.gtb_spec (blen (string_bytes s)) (col_max_length c)); [eauto|].
    destruct (Z.gtb_spec (blen (string_bytes s)) 65535); [eauto|].
    apply Hrec. apply Z.leb_le. lia.
Qed.

(** ** Lemmas: decoding *)

Lemma blen_drop bs cur : 0 ≤ cur ≤ blen bs → blen bs = cur + blen (drop (Z.to_nat cur) bs).
Proof. intros ?. unfold blen in *. rewrite length_drop. lia. Qed.

Lemma drop_app_step bs cur (a rest : bytes) :
  0 ≤ cur → drop (Z.to_nat cur) bs = a ++ rest →
  drop (Z.to_nat (cur + blen a)) bs = rest.
Proof.
  intros ? H. rewrite Z2Nat.inj_add by blia. rewrite <- drop_drop, H.
  unfold blen. rewrite Nat2Z.id. apply drop_app_length.
Qed.

Lemma mem_read_drop bs cur (a rest : bytes) n :
  drop (Z.to_nat cur) bs = a ++ rest → n = blen a → mem_read bs cur n = a.
Proof.
  intros H ->. unfold mem_read, blen. rewrite H, Nat2Z.id. apply take_app_length.
Qed.

Lemma ReadFixedU_drop sz bs cur v rest :
  drop (Z.to_nat cur) bs = le_split sz v ++ rest → 0 ≤ v < 2 ^ (8 * Z.of_nat sz) →
  ReadFixedU sz bs cur = v.
Proof.
  intros H ?. unfold ReadFixedU.
  rewrite (mem_read_drop _ _ _ _ _ H) by (by rewrite blen_le_split).
  by apply le_combine_split_small.
Qed.

Lemma ReadFixedS_drop sz bs cur v rest :
  drop (Z.to_nat cur) bs = le_split sz v ++ rest → (0 < sz)%nat →
  - 2 ^ (8 * Z.of_nat sz - 1) ≤ v < 2 ^ (8 * Z.of_nat sz - 1) →
  ReadFixedS sz bs cur = v.
Proof.
  intros H ? ?. unfold ReadFixedS, ReadFixedU.
  rewrite (mem_read_drop _ _ _ _ _ H) by (by rewrite blen_le_split).
  rewrite le_combine_split, (Z.mul_comm (Z.of_nat sz)), sword_mod by lia.
  apply sword_small; lia.
Qed.

Lemma ReadFixedU1_drop bs cur b rest :
  drop (Z.to_nat cur) bs = b :: rest → ReadFixedU 1 bs cur = Z_of_byte b.
Proof.
  intros H. unfold ReadFixedU. rewrite (mem_read_drop bs cur [b] rest) by done.
  apply le_combine_1.
Qed.

Definition nulls_match (bs : bytes) (i : Z) (values : list Value) : Prop :=
  ∀ k v, values !! k = Some v → get_null_bit bs (i + Z.of_nat k) = IsNull v.

Lemma nulls_match_cons bs i v values :
  nulls_match bs i (v :: values) →
  get_null_bit bs i = IsNull v ∧ nulls_match bs (i + 1) values.
Proof.
  intros H. split.
  - rewrite <- (H O v) by done. f_equal. lia.
  - intros k w Hk. rewrite <- (H (S k) w) by done. f_equal. lia.
Qed.

Lemma blen_enc_value v :
  blen (enc_value v) =
  match v with
  | VNull => 0
  | VInt32 _ => 4
  | VInt64 _ | VDouble _ => 8
  | VBool _ => 1
  | VString s => 2 + blen (string_bytes s)
  end.
Proof. destruct v; cbn [enc_value]; rewrite ?blen_app, ?blen_le_split; done. Qed.

Lemma decode_columns_ok cols values i cur bs acc rest :
  row_fits cols values → Forall column_wf cols → Forall value_wf values →
  nulls_match bs i values → 0 ≤ cur ≤ blen bs →
  drop (Z.to_nat cur) bs = payload_of values ++ rest →
  decode_columns cols i cur bs acc = Ok (acc ++ values).
Proof.
  intros Hfit. revert i cur acc.
  induction Hfit as [|c v cols values Hv _ IH]; intros i cur acc Hcw Hvw Hnull Hcur Hd;
    simpl; [by rewrite app_nil_r|].
  apply Forall_cons in Hcw as [Hc Hcw]. apply Forall_cons in Hvw as [Hw Hvw].
  apply nulls_match_cons in Hnull as [Hb Hnull]. rewrite Hb.
  pose proof (blen_drop bs cur Hcur) as Hlen.
  simpl in Hd. rewrite <- app_assoc in Hd. rewrite Hd, !blen_app, blen_enc_value in Hlen.
  pose proof (blen_nonneg (payload_of values)). pose proof (blen_nonneg rest).
  assert (∀ cur', cur' = cur + blen (enc_value v) →
    decode_columns cols (i + 1) cur' bs (acc ++ [v]) = Ok (acc ++ v :: values)) as Hk.
  { intros cur' ->. rewrite (IH (i + 1)); try done.
    - by rewrite <- app_assoc.
    - rewrite blen_enc_value. destruct v; blia.
    - apply (drop_app_step bs cur); [lia|done]. }
  rewrite blen_enc_value in Hk. unfold value_fits in Hv. zbool.
  destruct v as [|z|z|z|b|s]; [apply Hk; simpl; lia|..]; destruct (col_type c);
    try done; simpl in *.
  - destruct (Z.gtb_spec (cur + 4) (blen bs)); [lia|].
    rewrite (ReadFixedS_drop 4 bs cur z _ Hd) by blia. by apply Hk.
  - destruct (Z.gtb_spec (cur + 8) (blen bs)); [lia|].
    rewrite (ReadFixedS_drop 8 bs cur z _ Hd) by blia. by apply Hk.
  - destruct (Z.gtb_spec (cur + 8) (blen bs)); [lia|].
    rewrite (ReadFixedU_drop 8 bs cur z _ Hd) by blia. by apply Hk.
  - destruct (Z.gtb_spec (cur + 1) (blen bs)); [lia|].
    rewrite (ReadFixedU1_drop _ _ _ _ Hd).
    replace (negb (Z_of_byte _ =? 0)) with b by (by destruct b). by apply Hk.
  - zbool. unfold column_wf in Hc. pose proof (blen_nonneg (string_bytes s)).
    destruct (Z.gtb_spec (cur + 2) (blen bs)); [lia|]. rewrite <- app_assoc in Hd.
    rewrite (ReadFixedU_drop 2 bs cur (blen (string_bytes s)) _ Hd) by (simpl; blia).
    destruct (Z.gtb_spec (cur + 2 + blen (string_bytes s)) (blen bs)); [lia|].
    rewrite (mem_read_drop bs (cur + 2) (string_bytes s) (payload_of values ++ rest));
      [| |done].
    2: { change 2 with (Z.of_nat 2). rewrite <- (blen_le_split 2 (blen (string_bytes s))).
         apply drop_app_step; [lia|done]. }
    rewrite bytes_string_bytes. apply Hk. lia.
Qed.

(** A row cut anywhere before its end is reported as corrupt. *)
Lemma decode_columns_truncated cols values i cur bs acc extra :
  row_fits cols values → Forall column_wf cols → Forall value_wf values →
  nulls_match bs i values → 0 ≤ cur ≤ blen bs → extra ≠ [] →
  payload_of values = drop (Z.to_nat cur) bs ++ extra →
  ∃ msg, decode_columns cols i cur bs acc = Err (Corruption msg).
Proof.
  intros Hfit. revert i cur acc.
  induction Hfit as [|c v cols values Hv _ IH]; intros i cur acc Hcw Hvw Hnull Hcur He Hd;
    simpl.
  { simpl in Hd. symmetry in Hd. by apply app_nil in Hd as [_ ?]. }
  apply Forall_cons in Hcw as [Hc Hcw]. apply Forall_cons in Hvw as [Hw Hvw].
  apply nulls_match_cons in Hnull as [Hb Hnull]. rewrite Hb.
  pose proof (blen_drop bs cur Hcur) as Hlen. simpl in Hd.
  set (t := drop (Z.to_nat cur) bs) in *.
  assert (blen (enc_value v) ≤ blen t → ∀ cur' acc', cur' = cur + blen (enc_value v) →
    ∃ msg, decode_columns cols (i + 1) cur' bs acc' = Err (Corruption msg)) as Hk.
  { intros Hle cur' acc' ->. pose proof (blen_nonneg (enc_value v)).
    assert (∃ t', t = enc_value v ++ t' ∧ payload_of values = t' ++ extra) as (t' & Ht & ?).
    { destruct (app_eq_inv _ _ _ _ Hd) as [(k & Ha & Hb')|(k & Ha & Hb')].
      - exists []. rewrite Ha, blen_app in Hle.
        assert (k = []) as -> by (destruct k; [done|rewrite blen_cons in Hle; blia]).
        rewrite app_nil_r in *. done.
      - exists k. done. }
    apply IH; try done; [lia|].
    rewrite (drop_app_step bs cur (enc_value v) t'); [done|lia|]. by rewrite <- Ht. }
  assert (∀ a, (∃ r, enc_value v = a ++ r) → blen a ≤ blen t → ∃ r, t = a ++ r) as Hpre.
  { intros a [r Hr] Hle. rewrite Hr, <- app_assoc in Hd.
    destruct (app_eq_inv _ _ _ _ Hd) as [(k & Ha & _)|(k & Ha & _)]; [|eauto].
    exists []. rewrite Ha, blen_app in Hle.
    assert (k = []) as -> by (destruct k; [done|rewrite blen_cons in Hle; blia]).
    by rewrite Ha, !app_nil_r. }
  rewrite blen_enc_value in Hk. unfold value_fits in Hv. zbool.
  destruct v as [|z|z|z|b|s]; [apply Hk; simpl; [apply blen_nonneg|lia]|..];
    destruct (col_type c); try done; simpl in *; (case_goal; [eauto|]);
    zbool; [apply Hk; lia..|].
  - unfold column_wf in Hc. pose proof (blen_nonneg (string_bytes s)).
    destruct (Hpre (le_split 2 (blen (string_bytes s)))) as [r Hr];
      [eauto|rewrite blen_le_split; lia|].
    rewrite (ReadFixedU_drop 2 bs cur (blen (string_bytes s)) r Hr) by (simpl; blia).
    case_goal; [eauto|]. zbool. apply Hk; lia.
Qed.

(** ** Lemmas: whole rows *)

#[export] Instance row_fits_dec schema values : Decision (row_fits schema values).
Proof. unfold row_fits. apply _. Defined.

Lemma NullBitmapBytes_bound n : 0 ≤ n → n ≤ 8 * NullBitmapBytes n ∧ 0 ≤ NullBitmapBytes n.
Proof.
  intros ?. unfold NullBitmapBytes.
  pose proof (Z.div_mod (n + 7) 8 ltac:(lia)).
  pose proof (Z.mod_pos_bound (n + 7) 8 ltac:(lia)).
  pose proof (Z.div_pos (n + 7) 8). lia.
Qed.

(** What [Encode] produces for a row that fits. *)
Lemma Encode_shape schema values :
  row_fits schema values → Forall column_wf schema →
  ∃ bs, Encode schema values = Ok bs ∧
    let nb := NullBitmapBytes (ColumnCount schema) in
    nb ≤ blen bs ∧ drop (Z.to_nat nb) bs = payload_of values ∧
    ∀ bs', (∀ k, (k < Z.to_nat nb)%nat → bs' !! k = bs !! k) → nulls_match bs' 0 values.
Proof.
  intros Hfit Hcw. pose proof (Forall2_length _ _ _ Hfit) as Hl.
  unfold Encode, ColumnCount. rewrite Hl, Z.eqb_refl. simpl.
  set (n := Z.of_nat (length values)).
  destruct (NullBitmapBytes_bound n) as [Hb1 Hb2]; [lia|].
  set (nb := NullBitmapBytes n) in *.
  destruct (encode_columns_ok schema values 0 (replicate (Z.to_nat nb) zero_byte)
              (Z.to_nat nb)) as (bs & E & Hd & Hlen & Hbits);
    [done..|unfold n in *; lia|by rewrite length_replicate|].
  exists bs. split; [done|]. split_and!.
  - blia.
  - rewrite Hd, drop_ge by (by rewrite length_replicate). done.
  - intros bs' Heq k v Hk. pose proof (lookup_lt_Some _ _ _ Hk).
    rewrite get_null_bit_testbit by lia.
    assert (Z.of_nat k / 8 < nb) by (apply Z.div_lt_upper_bound; lia).
    assert (0 ≤ Z.of_nat k / 8) by (apply Z.div_pos; lia).
    transitivity (bit_at bs (Z.of_nat k)).
    { rewrite Z.add_0_l. unfold bit_at. rewrite Heq; [done|]. lia. }
    rewrite Hbits by lia. rewrite bit_at_zeros. simpl.
    rewrite Z.sub_0_r, Nat2Z.id, Hk. by case_bool_decide; [|lia].
Qed.

Lemma Encode_err schema values :
  ¬ row_fits schema values → ∃ msg, Encode schema values = Err (InvalidArgument msg).
Proof.
  intros Hn. unfold Encode, ColumnCount.
  destruct (Z.eqb_spec (Z.of_nat (length values)) (Z.of_nat (length schema))); simpl; [|eauto].
  apply encode_columns_err; [lia|done].
Qed.

Lemma Encode_Ok_fits schema values bs : Encode schema values = Ok bs → row_fits schema values.
Proof.
  intros E. destruct (decide (row_fits schema values)) as [|Hn]; [done|].
  destruct (Encode_err _ _ Hn). congruence.
Qed.

Lemma Decode_Encode schema values bs rest :
  Forall column_wf schema → Forall value_wf values →
  Encode schema values = Ok bs → Decode schema (bs ++ rest) = Ok values.
Proof.
  intros Hcw Hvw E. pose proof (Encode_Ok_fits _ _ _ E) as Hfit.
  destruct (Encode_shape schema values Hfit Hcw) as (bs' & E' & Hlen & Hd & Hnull).
  rewrite E in E'. injection E' as <-. unfold Decode.
  set (nb := NullBitmapBytes _) in *.
  assert (0 ≤ nb) by (apply NullBitmapBytes_bound; unfold ColumnCount; lia).
  destruct (Z.ltb_spec (blen (bs ++ rest)) nb); [rewrite blen_app in *; blia|].
  rewrite (decode_columns_ok schema values 0 nb (bs ++ rest) [] rest); try done.
  - apply Hnull. intros k ?. apply lookup_app_l. blia.
  - rewrite drop_app_le by blia. by rewrite Hd.
Qed.

Lemma Decode_truncated schema values bs n :
  Forall column_wf schema → Forall value_wf values →
  Encode schema values = Ok bs → (n < length bs)%nat →
  ∃ msg, Decode schema (take n bs) = Err (Corruption msg).
Proof.
  intros Hcw Hvw E Hn. pose proof (Encode_Ok_fits _ _ _ E) as Hfit.
  destruct (Encode_shape schema values Hfit Hcw) as (bs' & E' & Hlen & Hd & Hnull).
  rewrite E in E'. injection E' as <-. unfold Decode.
  set (nb := NullBitmapBytes _) in *.
  assert (0 ≤ nb) by (apply NullBitmapBytes_bound; unfold ColumnCount; lia).
  destruct (Z.ltb_spec (blen (take n bs)) nb) as [|Hle]; [eauto|].
  assert (blen (take n bs) = Z.of_nat n) as Ht by (unfold blen; rewrite length_take; lia).
  apply (decode_columns_truncated schema values 0 nb (take n bs) [] (drop n bs)); try done.
  - apply Hnull. intros k ?. apply lookup_take_lt. lia.
  - intros He. apply (f_equal length) in He. rewrite length_drop in He. simpl in He. lia.
  - rewrite <- Hd, <- (take_drop n bs) at 1. rewrite drop_app_le; [done|].
    rewrite length_take. lia.
Qed.

(** The schema and row of the witnesses. *)
Definition sample_schema : Schema :=
  [mkColumn "id" kInt false 255; mkColumn "name" kVarchar true 50;
   mkColumn "age" kBigInt true 255].
Definition sample_row : list Value := [VInt32 (-7); VString "alice"; VNull].

Lemma sample_schema_wf : Forall column_wf sample_schema.
Proof. repeat constructor; done. Qed.

Lemma sample_row_wf : Forall value_wf sample_row.
Proof. repeat constructor; done. Qed.

(** ** Properties *)

(** C14: decoding the bytes [Encode] produced for a row gives the row back, for
    every schema and also when other bytes follow. *)
Theorem codec_roundtrip schema values bs rest :
  Forall column_wf schema → Forall value_wf values →
  Encode schema values = Ok bs → Decode schema (bs ++ rest) = Ok values.
Proof. apply Decode_Encode. Qed.

Lemma codec_roundtrip_witness :
  ∃ bs, Encode sample_schema sample_row = Ok bs ∧ Decode sample_schema bs = Ok sample_row.
Proof.
  eexists. split; [vm_compute; reflexivity|].
  pose proof (codec_roundtrip sample_schema sample_row _ [] sample_schema_wf sample_row_wf eq_refl)
    as H.
  exact H.
Defined.

(** C33: [Encode] accepts exactly the rows that fit the schema (one value per
    column, of the column's type, NULL only where allowed, strings within
    [max_length]) and refuses every other row with [kInvalidArgument]. *)
Theorem codec_accepts_fitting_rows schema values :
  Forall column_wf schema →
  ((∃ bs, Encode schema values = Ok bs) ↔ row_fits schema values) ∧
  (¬ row_fits schema values → ∃ msg, Encode schema values = Err (InvalidArgument msg)).
Proof.
  intros Hcw. split; [split|].
  - intros [bs E]. by eapply Encode_Ok_fits.
  - intros Hfit. destruct (Encode_shape schema values Hfit Hcw) as (bs & ? & _). eauto.
  - apply Encode_err.
Qed.

Lemma codec_accepts_fitting_rows_witness :
  ∃ msg, Encode sample_schema [VNull; VNull; VNull] = Err (InvalidArgument msg).
Proof.
  apply (codec_accepts_fitting_rows sample_schema [VNull; VNull; VNull] sample_schema_wf).
  intros H. apply Forall2_cons_1 in H as [? _]. done.
Defined.

(** An encoded row cut short at any point is reported as [kCorruption]; no
    strict prefix decodes to a row. *)
Theorem codec_truncation_detected schema values bs n :
  Forall column_wf schema → Forall value_wf values →
  Encode schema values = Ok bs → (n < length bs)%nat →
  ∃ msg, Decode schema (take n bs) = Err (Corruption msg).
Proof. apply Decode_truncated. Qed.

Lemma codec_truncation_detected_witness :
  ∃ bs msg, Encode sample_schema sample_row = Ok bs ∧
    Decode sample_schema (take 9 bs) = Err (Corruption msg).
Proof.
  eexists. edestruct (codec_truncation_detected sample_schema sample_row) as [msg Hmsg];
    [apply sample_schema_wf|apply sample_row_wf|vm_compute; reflexivity| |].
  2: { exists msg. split; [vm_compute; reflexivity|exact Hmsg]. }
  simpl. lia.
Defined.
