(* ===== verification/SlottedPage.v ===== *)
(** * Slotted pages: src/storage/slotted_page.hpp

    A page holds a 12-byte header, a directory of 4-byte slots that grows
    upward and the records, packed downward from the end of the page.  The
    definitions work on the bytes of the page; [slots_of] reads the page as
    the list of its records and the theorems state each operation on that
    list. *)

From S2P Require Import Prelude Util.
From coqutil Require Word.LittleEndianList.

(** ** Data *)

Record PageHeader := mkPageHeader {
  page_id : Z;
  next_page_id : Z;
  slot_count : Z;
  free_space_offset : Z
}.

Record Slot := mkSlot { slot_offset : Z; slot_length : Z }.

Definition kHeaderSize : Z := 4 * 2 + 2 * 2.
Definition kSlotSize : Z := 2 * 2.

(** ** Operations *)

Definition ReadHeader (d : Page) : PageHeader :=
  {| page_id := ReadFixedS 4 d 0;
     next_page_id := ReadFixedS 4 d 4;
     slot_count := ReadFixedU 2 d 8;
     free_space_offset := ReadFixedU 2 d 10 |}.

Definition WriteHeader (d : Page) (h : PageHeader) : Page :=
  let d := WriteFixed 4 d 0 (page_id h) in
  let d := WriteFixed 4 d 4 (next_page_id h) in
  let d := WriteFixed 2 d 8 (slot_count h) in
  WriteFixed 2 d 10 (free_space_offset h).

Definition slot_base (slot_id : Z) : Z := kHeaderSize + slot_id * kSlotSize.

Definition ReadSlot (d : Page) (slot_id : Z) : Slot :=
  {| slot_offset := ReadFixedU 2 d (slot_base slot_id + 0);
     slot_length := ReadFixedU 2 d (slot_base slot_id + 2) |}.

Definition WriteSlot (d : Page) (slot_id : Z) (s : Slot) : Page :=
  let d := WriteFixed 2 d (slot_base slot_id + 0) (slot_offset s) in
  WriteFixed 2 d (slot_base slot_id + 2) (slot_length s).

Definition Init (d : Page) (pid next : Z) : Page :=
  WriteHeader d
    {| page_id := pid; next_page_id := next; slot_count := 0;
       free_space_offset := u16 kPageSize |}.

Definition PageId (d : Page) : Z := page_id (ReadHeader d).
Definition NextPageId (d : Page) : Z := next_page_id (ReadHeader d).
Definition SlotCount (d : Page) : Z := slot_count (ReadHeader d).

Definition SetNextPageId (d : Page) (next : Z) : Page :=
  let h := ReadHeader d in
  WriteHeader d
    {| page_id := page_id h; next_page_id := next; slot_count := slot_count h;
       free_space_offset := free_space_offset h |}.

Definition FreeSpace (d : Page) : Z :=
  let h := ReadHeader d in
  let directory_end := kHeaderSize + slot_count h * kSlotSize in
  if directory_end >? free_space_offset h then 0
  else free_space_offset h - directory_end.

(** The search for a tombstoned slot: [fuel] is the number of slots left. *)
Fixpoint find_reuse_slot (d : Page) (i : Z) (fuel : nat) : option Z :=
  match fuel with
  | O => None
  | S fuel' =>
      if slot_length (ReadSlot d i) =? 0 then Some i
      else find_reuse_slot d (i + 1) fuel'
  end.

(** [InsertRecord(data, length)] with [data] the [length] bytes passed. *)
Definition InsertRecord (d : Page) (data : bytes) : option Z * Page :=
  let length := blen data in
  let h := ReadHeader d in
  let reuse_slot := find_reuse_slot d 0 (Z.to_nat (slot_count h)) in
  let needed_directory_growth :=
    match reuse_slot with Some _ => 0 | None => kSlotSize end in
  let directory_end := kHeaderSize + slot_count h * kSlotSize in
  let needed_before_record := directory_end + needed_directory_growth in
  if needed_before_record >? free_space_offset h then (None, d)
  else
    let available := free_space_offset h - needed_before_record in
    if available <? length then (None, d)
    else
      let new_offset := u16 (free_space_offset h - length) in
      let d := mem_write d new_offset data in
      let slot := {| slot_offset := new_offset; slot_length := length |} in
      match reuse_slot with
      | Some slot_id =>
          let d := WriteSlot d slot_id slot in
          (Some slot_id,
           WriteHeader d
             {| page_id := page_id h; next_page_id := next_page_id h;
                slot_count := slot_count h; free_space_offset := new_offset |})
      | None =>
          let slot_id := slot_count h in
          let d := WriteSlot d slot_id slot in
          (Some slot_id,
           WriteHeader d
             {| page_id := page_id h; next_page_id := next_page_id h;
                slot_count := u16 (slot_count h + 1);
                free_space_offset := new_offset |})
      end.

(** [GetRecord]: the bytes the returned pointer and length delimit. *)
Definition GetRecord (d : Page) (slot_id : Z) : option bytes :=
  if slot_id >=? SlotCount d then None
  else
    let s := ReadSlot d slot_id in
    if slot_length s =? 0 then None
    else Some (mem_read d (slot_offset s) (slot_length s)).

Definition DeleteRecord (d : Page) (slot_id : Z) : bool * Page :=
  if slot_id >=? SlotCount d then (false, d)
  else
    let s := ReadSlot d slot_id in
    if slot_length s =? 0 then (false, d)
    else
      (true, WriteSlot d slot_id {| slot_offset := slot_offset s; slot_length := 0 |}).

Definition UpdateRecordInPlace (d : Page) (slot_id : Z) (data : bytes) : bool * Page :=
  let length := blen data in
  if slot_id >=? SlotCount d then (false, d)
  else
    let s := ReadSlot d slot_id in
    if slot_length s =? 0 then (false, d)
    else if length >? slot_length s then (false, d)
    else
      let d := mem_write d (slot_offset s) data in
      (true, WriteSlot d slot_id {| slot_offset := slot_offset s; slot_length := length |}).

Definition IsTombstoned (d : Page) (slot_id : Z) : bool :=
  if slot_id >=? SlotCount d then true
  else slot_length (ReadSlot d slot_id) =? 0.

(** ** The abstract page: its list of slots, [None] for a tombstone *)

Definition slot_record (d : Page) (i : Z) : option bytes :=
  let s := ReadSlot d i in
  if slot_length s =? 0 then None
  else Some (mem_read d (slot_offset s) (slot_length s)).

Definition slots_of (d : Page) : list (option bytes) :=
  (λ i, slot_record d (Z.of_nat i)) <$> seq 0 (Z.to_nat (SlotCount d)).

(** First free slot of an abstract page, if any. *)
Fixpoint first_free (l : list (option bytes)) : option nat :=
  match l with
  | [] => None
  | None :: _ => Some O
  | Some _ :: l' => S <$> first_free l'
  end.

(** How a stored record reads back: a record of no bytes reads as a tombstone. *)
Definition rec_of (data : bytes) : option bytes :=
  if blen data =? 0 then None else Some data.

(** Where an insertion goes: the first tombstone, else a new slot. *)
Definition insert_slot (l : list (option bytes)) : nat :=
  default (length l) (first_free l).

Definition abs_insert (l : list (option bytes)) (data : bytes) : list (option bytes) :=
  match first_free l with
  | Some i => <[i := rec_of data]> l
  | None => l ++ [rec_of data]
  end.

(** Room for a record of [n] bytes, directory growth included. *)
Definition fits (d : Page) (n : Z) : Prop :=
  (match first_free (slots_of d) with Some _ => 0 | None => kSlotSize end) + n
  ≤ FreeSpace d.

(** ** Invariant *)

Definition live (d : Page) (i : Z) : Prop :=
  0 ≤ i < SlotCount d ∧ slot_length (ReadSlot d i) ≠ 0.

Record sp_wf (d : Page) : Prop := {
  wf_size : page_wf d;
  wf_directory : kHeaderSize + SlotCount d * kSlotSize ≤ free_space_offset (ReadHeader d);
  wf_free : free_space_offset (ReadHeader d) ≤ kPageSize;
  wf_live : ∀ i, live d i →
    free_space_offset (ReadHeader d) ≤ slot_offset (ReadSlot d i) ∧
    slot_offset (ReadSlot d i) + slot_length (ReadSlot d i) ≤ kPageSize;
  wf_disjoint : ∀ i j, live d i → live d j → i ≠ j →
    slot_offset (ReadSlot d i) + slot_length (ReadSlot d i) ≤ slot_offset (ReadSlot d j) ∨
    slot_offset (ReadSlot d j) + slot_length (ReadSlot d j) ≤ slot_offset (ReadSlot d i)
}.

#[global] Arguments ReadHeader : simpl never.
#[global] Arguments WriteHeader : simpl never.
#[global] Arguments ReadSlot : simpl never.
#[global] Arguments WriteSlot : simpl never.

(** ** Lemmas: headers and slots as byte ranges *)

Ltac page_lia :=
  unfold slot_base, kHeaderSize, kSlotSize, page_wf, kPageSize, SlotCount in *; blia.

(** Reading through a write at another place, or after a write that keeps the
    page's size. *)
Ltac read_other :=
  repeat first
    [ rewrite ReadU_WriteFixed_ne by page_lia
    | rewrite ReadS_WriteFixed_ne by page_lia
    | rewrite ReadU_mem_write_ne by page_lia ].

(** Name the intermediate pages of [WriteHeader] and [WriteSlot] and record
    that each is a page. *)
Ltac header_steps d h :=
  assert (page_wf (WriteFixed 4 d 0 (page_id h)))
    by (apply page_wf_WriteFixed; page_lia);
  assert (page_wf (WriteFixed 4 (WriteFixed 4 d 0 (page_id h)) 4 (next_page_id h)))
    by (apply page_wf_WriteFixed; page_lia);
  assert (page_wf (WriteFixed 2 (WriteFixed 4 (WriteFixed 4 d 0 (page_id h)) 4
                     (next_page_id h)) 8 (slot_count h)))
    by (apply page_wf_WriteFixed; page_lia).

Ltac slot_steps d i s :=
  assert (page_wf (WriteFixed 2 d (slot_base i + 0) (slot_offset s)))
    by (apply page_wf_WriteFixed; page_lia).

Lemma header_eta h :
  h = mkPageHeader (page_id h) (next_page_id h) (slot_count h) (free_space_offset h).
Proof. by destruct h. Qed.

Lemma slot_count_range d : in_u16 (slot_count (ReadHeader d)).
Proof. apply (ReadFixedU_range 2). Qed.

Lemma free_space_offset_range d : in_u16 (free_space_offset (ReadHeader d)).
Proof. apply (ReadFixedU_range 2). Qed.

Lemma slot_offset_range d i : in_u16 (slot_offset (ReadSlot d i)).
Proof. apply (ReadFixedU_range 2). Qed.

Lemma slot_length_range d i : in_u16 (slot_length (ReadSlot d i)).
Proof. apply (ReadFixedU_range 2). Qed.

#[export] Hint Resolve slot_count_range free_space_offset_range
  slot_offset_range slot_length_range : minidb.

Lemma page_id_range d : in_i32 (page_id (ReadHeader d)).
Proof. apply i32_range. Qed.

Lemma next_page_id_range d : in_i32 (next_page_id (ReadHeader d)).
Proof. apply i32_range. Qed.

Lemma sword_ReadFixedU_mod v : in_i32 v → sword 32 (v `mod` 2 ^ 32) = v.
Proof. intros ?. rewrite sword_mod by lia. by apply i32_small. Qed.

Lemma page_wf_WriteHeader d h : page_wf d → page_wf (WriteHeader d h).
Proof. intros ?. unfold WriteHeader. repeat apply page_wf_WriteFixed; page_lia. Qed.

Lemma page_wf_WriteSlot d i s :
  page_wf d → 0 ≤ i → slot_base (i + 1) ≤ kPageSize → page_wf (WriteSlot d i s).
Proof. intros ???. unfold WriteSlot. repeat apply page_wf_WriteFixed; page_lia. Qed.

Lemma page_wf_mem_write d off bs :
  page_wf d → in_bounds kPageSize off (blen bs) → page_wf (mem_write d off bs).
Proof. unfold page_wf. intros Hd ?. rewrite blen_mem_write; by rewrite ?Hd. Qed.

#[export] Hint Resolve page_wf_WriteHeader page_wf_WriteSlot page_wf_mem_write : minidb.

Lemma ReadHeader_WriteHeader d h :
  page_wf d → in_i32 (page_id h) → in_i32 (next_page_id h) →
  in_u16 (slot_count h) → in_u16 (free_space_offset h) →
  ReadHeader (WriteHeader d h) = h.
Proof.
  intros Hd H1 H2 H3 H4. rewrite (header_eta h). unfold ReadHeader, WriteHeader; simpl.
  header_steps d h.
  f_equal.
  - read_other. apply ReadS_WriteFixed_eq; page_lia.
  - read_other. apply ReadS_WriteFixed_eq; page_lia.
  - read_other. rewrite ReadU_WriteFixed_eq by page_lia. apply Z.mod_small. page_lia.
  - rewrite ReadU_WriteFixed_eq by page_lia. apply Z.mod_small. page_lia.
Qed.

Lemma ReadSlot_WriteHeader d h i :
  page_wf d → 0 ≤ i → ReadSlot (WriteHeader d h) i = ReadSlot d i.
Proof.
  intros Hd ?. unfold ReadSlot, WriteHeader.
  header_steps d h.
  f_equal; read_other; done.
Qed.

Lemma mem_read_WriteHeader d h off len :
  page_wf d → kHeaderSize ≤ off → 0 ≤ len →
  mem_read (WriteHeader d h) off len = mem_read d off len.
Proof.
  intros Hd ??. unfold WriteHeader.
  header_steps d h.
  repeat rewrite mem_read_WriteFixed_ne by page_lia. done.
Qed.

Lemma ReadHeader_WriteSlot d i s :
  page_wf d → 0 ≤ i → slot_base (i + 1) ≤ kPageSize →
  ReadHeader (WriteSlot d i s) = ReadHeader d.
Proof.
  intros Hd ? ?. unfold ReadHeader, WriteSlot.
  slot_steps d i s.
  f_equal; read_other; done.
Qed.

Lemma ReadSlot_WriteSlot_eq d i s :
  page_wf d → 0 ≤ i → slot_base (i + 1) ≤ kPageSize →
  in_u16 (slot_offset s) → in_u16 (slot_length s) →
  ReadSlot (WriteSlot d i s) i = s.
Proof.
  intros Hd ????. unfold ReadSlot, WriteSlot.
  slot_steps d i s.
  destruct s as [o l]; simpl in *. f_equal.
  - read_other. rewrite ReadU_WriteFixed_eq by page_lia.
    apply Z.mod_small. page_lia.
  - rewrite ReadU_WriteFixed_eq by page_lia. apply Z.mod_small. page_lia.
Qed.

Lemma ReadSlot_WriteSlot_ne d i j s :
  page_wf d → 0 ≤ i → 0 ≤ j → i ≠ j → slot_base (i + 1) ≤ kPageSize →
  ReadSlot (WriteSlot d i s) j = ReadSlot d j.
Proof.
  intros Hd ????. unfold ReadSlot, WriteSlot.
  slot_steps d i s.
  f_equal; read_other; done.
Qed.

Lemma mem_read_WriteSlot d i s off len :
  page_wf d → 0 ≤ i → slot_base (i + 1) ≤ kPageSize → 0 ≤ len →
  slot_base (i + 1) ≤ off → mem_read (WriteSlot d i s) off len = mem_read d off len.
Proof.
  intros Hd ????. unfold WriteSlot.
  slot_steps d i s.
  repeat rewrite mem_read_WriteFixed_ne by page_lia. done.
Qed.

Lemma ReadHeader_mem_write d off bs :
  page_wf d → in_bounds kPageSize off (blen bs) → kHeaderSize ≤ off →
  ReadHeader (mem_write d off bs) = ReadHeader d.
Proof.
  intros Hd ??. unfold ReadHeader, ReadFixedS.
  f_equal; rewrite ?ReadU_mem_write_ne by page_lia; done.
Qed.

Lemma ReadSlot_mem_write d off bs i :
  page_wf d → in_bounds kPageSize off (blen bs) → 0 ≤ i → slot_base (i + 1) ≤ off →
  ReadSlot (mem_write d off bs) i = ReadSlot d i.
Proof.
  intros Hd ???. unfold ReadSlot.
  f_equal; rewrite ?ReadU_mem_write_ne by page_lia; done.
Qed.

#[local] Opaque ReadHeader ReadSlot WriteHeader WriteSlot.

(** ** Lemmas: the list of slots *)

Lemma length_slots_of d : length (slots_of d) = Z.to_nat (SlotCount d).
Proof. unfold slots_of. by rewrite length_fmap, length_seq. Qed.

Lemma slots_of_lookup d i :
  (i < Z.to_nat (SlotCount d))%nat → slots_of d !! i = Some (slot_record d (Z.of_nat i)).
Proof.
  intros ?. unfold slots_of. rewrite list_lookup_fmap.
  rewrite lookup_seq_lt by done. done.
Qed.

Lemma slots_of_lookup_Z d i :
  0 ≤ i < SlotCount d → slots_of d !! Z.to_nat i = Some (slot_record d i).
Proof. intros ?. rewrite slots_of_lookup by lia. by rewrite Z2Nat.id by lia. Qed.

Lemma slots_of_ext d l :
  length l = Z.to_nat (SlotCount d) →
  (∀ i, (i < Z.to_nat (SlotCount d))%nat → l !! i = Some (slot_record d (Z.of_nat i))) →
  slots_of d = l.
Proof.
  intros Hlen Hl. apply list_eq. intros i.
  destruct (decide (i < Z.to_nat (SlotCount d))%nat).
  - rewrite slots_of_lookup by done. by rewrite Hl.
  - rewrite !lookup_ge_None_2; [done|lia|]. rewrite length_slots_of. lia.
Qed.

Lemma find_reuse_slot_from d i n :
  find_reuse_slot d (Z.of_nat i) n =
  (λ k, Z.of_nat (i + k)) <$> first_free ((λ j, slot_record d (Z.of_nat j)) <$> seq i n).
Proof.
  revert i. induction n as [|n IH]; intros i; [done|].
  cbn [find_reuse_slot seq fmap list_fmap first_free]. unfold slot_record at 1.
  destruct (slot_length (ReadSlot d (Z.of_nat i)) =? 0); simpl.
  { by rewrite Nat.add_0_r. }
  replace (Z.of_nat i + 1) with (Z.of_nat (S i)) by lia. rewrite IH.
  destruct (first_free _); simpl; [|done]. f_equal. lia.
Qed.

Lemma find_reuse_slot_spec d :
  find_reuse_slot d 0 (Z.to_nat (SlotCount d)) = Z.of_nat <$> first_free (slots_of d).
Proof. apply (find_reuse_slot_from d 0). Qed.

Lemma first_free_Some l i : first_free l = Some i → l !! i = Some None.
Proof.
  revert i. induction l as [|[r|] l IH]; intros i; simpl; [done| |].
  - destruct (first_free l) as [k|]; simpl; intros [= <-]. by apply IH.
  - by intros [= <-].
Qed.

Lemma first_free_None l : first_free l = None ↔ ∀ i, l !! i ≠ Some None.
Proof.
  induction l as [|[r|] l IH]; simpl.
  - split; [|done]. by intros _ i.
  - destruct (first_free l) as [k|] eqn:E; simpl.
    + split; [done|]. intros H. destruct (H (S k)). exact (first_free_Some l k E).
    + destruct IH as [IH _]. split; [|done]. intros _ [|i]; simpl; [done|]. by apply IH.
  - split; [done|]. intros H. by destruct (H O).
Qed.

Lemma GetRecord_slots d i :
  0 ≤ i → GetRecord d i = mjoin (slots_of d !! Z.to_nat i).
Proof.
  intros ?. unfold GetRecord. destruct (i >=? SlotCount d) eqn:E.
  - rewrite lookup_ge_None_2; [done|]. rewrite length_slots_of. lia.
  - rewrite slots_of_lookup_Z by lia. done.
Qed.

(** ** Lemmas: the three writes of an insertion *)

Section insertion.
Context (d : Page) (data : bytes) (id off : Z) (h : PageHeader).
Hypothesis Hd : page_wf d.
Hypothesis Hid : 0 ≤ id < slot_count h.
Hypothesis Hdir : slot_base (slot_count h) ≤ off.
Hypothesis Hoff : off + blen data ≤ kPageSize.
Hypothesis Hp : in_i32 (page_id h).
Hypothesis Hn : in_i32 (next_page_id h).
Hypothesis Hf : free_space_offset h = off.

Let d' : Page :=
  WriteHeader (WriteSlot (mem_write d off data) id (mkSlot off (blen data))) h.

Local Lemma ins_page1 : page_wf (mem_write d off data).
Proof. apply page_wf_mem_write; [done|]. page_lia. Qed.

Local Lemma ins_page2 : page_wf (WriteSlot (mem_write d off data) id (mkSlot off (blen data))).
Proof. apply page_wf_WriteSlot; [apply ins_page1|lia|page_lia]. Qed.

Lemma ins_page : page_wf d'.
Proof. apply page_wf_WriteHeader, ins_page2. Qed.

Lemma ins_header : ReadHeader d' = h.
Proof.
  apply ReadHeader_WriteHeader; [apply ins_page2|done|done| |]; page_lia.
Qed.

Lemma ins_slot_eq : ReadSlot d' id = mkSlot off (blen data).
Proof.
  unfold d'. rewrite ReadSlot_WriteHeader; [|apply ins_page2|lia].
  apply ReadSlot_WriteSlot_eq; [apply ins_page1| | |simpl|simpl]; page_lia.
Qed.

Lemma ins_slot_ne j : 0 ≤ j < slot_count h → j ≠ id → ReadSlot d' j = ReadSlot d j.
Proof.
  intros ??. unfold d'. rewrite ReadSlot_WriteHeader; [|apply ins_page2|lia].
  rewrite ReadSlot_WriteSlot_ne; [|apply ins_page1|try page_lia..].
  apply ReadSlot_mem_write; [done|page_lia..].
Qed.

Lemma ins_read_eq : mem_read d' off (blen data) = data.
Proof.
  unfold d'. rewrite mem_read_WriteHeader; [|apply ins_page2|page_lia..].
  rewrite mem_read_WriteSlot; [|apply ins_page1|page_lia..].
  apply mem_read_write_eq; [page_lia|done].
Qed.

Lemma ins_read_ne o l : off + blen data ≤ o → 0 ≤ l → mem_read d' o l = mem_read d o l.
Proof.
  intros ??. unfold d'. rewrite mem_read_WriteHeader; [|apply ins_page2|page_lia..].
  rewrite mem_read_WriteSlot; [|apply ins_page1|page_lia..].
  apply mem_read_write_ne; page_lia.
Qed.

(** Records above the insertion point keep their bytes. *)
Lemma ins_record_ne j :
  0 ≤ j < slot_count h → j ≠ id →
  (slot_length (ReadSlot d j) ≠ 0 → off + blen data ≤ slot_offset (ReadSlot d j)) →
  slot_record d' j = slot_record d j.
Proof.
  intros ?? Habove. unfold slot_record. rewrite ins_slot_ne by done.
  destruct (slot_length (ReadSlot d j) =? 0) eqn:E; [done|]. zbool.
  rewrite ins_read_ne; [done|by apply Habove|]. apply slot_length_range.
Qed.

Lemma ins_record_eq : slot_record d' id = rec_of data.
Proof. unfold slot_record, rec_of. rewrite ins_slot_eq. simpl. by rewrite ins_read_eq. Qed.

(** An insertion below every live record keeps the page well formed, for any
    slot [id] that was not live. *)
Lemma ins_wf :
  (∀ j, 0 ≤ j < slot_count h → j ≠ id → slot_length (ReadSlot d j) ≠ 0 → live d j) →
  (∀ j, live d j → off + blen data ≤ slot_offset (ReadSlot d j) ∧
     slot_offset (ReadSlot d j) + slot_length (ReadSlot d j) ≤ kPageSize) →
  (∀ i j, live d i → live d j → i ≠ j →
    slot_offset (ReadSlot d i) + slot_length (ReadSlot d i) ≤ slot_offset (ReadSlot d j) ∨
    slot_offset (ReadSlot d j) + slot_length (ReadSlot d j) ≤ slot_offset (ReadSlot d i)) →
  sp_wf d'.
Proof.
  intros Hold Habove Hdisj.
  assert (∀ j, live d' j → j ≠ id → live d j ∧ ReadSlot d' j = ReadSlot d j) as Hl.
  { intros j [Hj Hlj] ?. unfold SlotCount in Hj. rewrite ins_header in Hj.
    rewrite ins_slot_ne in * by done. auto. }
  split; unfold SlotCount; rewrite ?ins_header.
  - apply ins_page.
  - rewrite Hf. page_lia.
  - rewrite Hf. page_lia.
  - intros i Hi. rewrite Hf. destruct (decide (i = id)) as [->|?].
    + rewrite ins_slot_eq. simpl. lia.
    + destruct (Hl i) as [? ->]; [done..|]. destruct (Habove i); [done|]. blia.
  - intros i j Hi Hj Hij.
    destruct (decide (i = id)) as [->|]; [|destruct (decide (j = id)) as [->|]].
    + destruct (Hl j) as [? ->]; [done..|]. rewrite ins_slot_eq. simpl.
      left. by apply Habove.
    + destruct (Hl i) as [? ->]; [done..|]. rewrite ins_slot_eq. simpl.
      right. by apply Habove.
    + destruct (Hl i) as [? ->]; [done..|]. destruct (Hl j) as [? ->]; [done..|].
      by apply Hdisj.
Qed.
End insertion.

(** ** Lemmas: insertion *)

Definition set_free (h : PageHeader) (cnt off : Z) : PageHeader :=
  mkPageHeader (page_id h) (next_page_id h) cnt off.

Lemma FreeSpace_wf d :
  sp_wf d →
  FreeSpace d = free_space_offset (ReadHeader d) - slot_base (SlotCount d).
Proof.
  intros [? Hdir ? ? ?]. unfold FreeSpace. case_goal; [|page_lia].
  rewrite Z.gtb_lt in *. page_lia.
Qed.

Lemma insert_reused_slot d data i :
  sp_wf d → first_free (slots_of d) = Some i →
  blen data ≤ FreeSpace d →
  let h := ReadHeader d in
  let off := free_space_offset h - blen data in
  let d' := WriteHeader (WriteSlot (mem_write d off data) (Z.of_nat i)
              (mkSlot off (blen data))) (set_free h (slot_count h) off) in
  sp_wf d' ∧ slots_of d' = <[i := rec_of data]> (slots_of d) ∧
  ReadHeader d' = set_free h (slot_count h) off.
Proof.
  intros Hwf Hfree Hfit h off d'. subst h.
  pose proof (blen_nonneg data). rewrite (FreeSpace_wf d Hwf) in Hfit.
  pose proof (first_free_Some _ _ Hfree) as Hi.
  pose proof (lookup_lt_Some _ _ _ Hi) as Hlt. rewrite length_slots_of in Hlt.
  rewrite slots_of_lookup in Hi by done.
  assert (slot_length (ReadSlot d (Z.of_nat i)) = 0) as Hz.
  { unfold slot_record in Hi. case_hyp Hi. by zbool. }
  destruct Hwf as [Hd Hdir Hf Hlive Hdisj].
  pose proof (slot_count_range d). pose proof (page_id_range d).
  pose proof (next_page_id_range d).
  assert (page_wf d) by done.
  assert (0 ≤ Z.of_nat i < slot_count (set_free (ReadHeader d) (slot_count (ReadHeader d)) off))
    by (simpl; page_lia).
  assert (slot_base (slot_count (set_free (ReadHeader d) (slot_count (ReadHeader d)) off)) ≤ off)
    by (simpl; unfold off; page_lia).
  assert (off + blen data ≤ kPageSize) by (unfold off; page_lia).
  assert (ReadHeader d' = set_free (ReadHeader d) (slot_count (ReadHeader d)) off) as Hh
    by (apply ins_header; done).
  split_and!; [| |done].
  - apply ins_wf; try done.
    intros j Hj. destruct (Hlive j Hj). split; [|done]. unfold off. lia.
  - apply slots_of_ext; unfold SlotCount; rewrite Hh; simpl.
    { rewrite length_insert, length_slots_of. done. }
    intros j Hj. destruct (decide (j = i)) as [->|Hne].
    + rewrite list_lookup_insert_eq by (rewrite length_slots_of; page_lia).
      f_equal. symmetry. apply ins_record_eq; done.
    + rewrite list_lookup_insert_ne by done.
      rewrite slots_of_lookup by (page_lia). f_equal. symmetry.
      apply ins_record_ne; [done..|simpl; lia|lia|].
      intros Hl. destruct (Hlive (Z.of_nat j)); [split; [page_lia|done]|].
      unfold off. lia.
Qed.

Lemma insert_new_slot d data :
  sp_wf d → first_free (slots_of d) = None →
  kSlotSize + blen data ≤ FreeSpace d →
  let h := ReadHeader d in
  let off := free_space_offset h - blen data in
  let d' := WriteHeader (WriteSlot (mem_write d off data) (slot_count h)
              (mkSlot off (blen data))) (set_free h (slot_count h + 1) off) in
  sp_wf d' ∧ slots_of d' = slots_of d ++ [rec_of data] ∧
  ReadHeader d' = set_free h (slot_count h + 1) off.
Proof.
  intros Hwf Hfree Hfit h off d'. subst h.
  pose proof (blen_nonneg data). rewrite (FreeSpace_wf d Hwf) in Hfit.
  destruct Hwf as [Hd Hdir Hf Hlive Hdisj].
  pose proof (slot_count_range d). pose proof (page_id_range d).
  pose proof (next_page_id_range d).
  assert (0 ≤ slot_count (ReadHeader d) < slot_count (set_free (ReadHeader d) (slot_count (ReadHeader d) + 1) off))
    by (simpl; page_lia).
  assert (slot_base (slot_count (set_free (ReadHeader d) (slot_count (ReadHeader d) + 1) off)) ≤ off)
    by (simpl; unfold off; page_lia).
  assert (off + blen data ≤ kPageSize) by (unfold off; page_lia).
  assert (ReadHeader d' = set_free (ReadHeader d) (slot_count (ReadHeader d) + 1) off) as Hh
    by (apply ins_header; done).
  split_and!; [| |done].
  - apply ins_wf; try done.
    + intros j Hj ??. split; [|done]. simpl in Hj. page_lia.
    + intros j Hj. destruct (Hlive j Hj). split; [|done]. unfold off. lia.
  - apply slots_of_ext; unfold SlotCount; rewrite Hh; simpl.
    { rewrite length_app, length_slots_of. simpl. page_lia. }
    intros j Hj. destruct (decide (j = Z.to_nat (SlotCount d))) as [->|Hne].
    + rewrite lookup_app_r by (rewrite length_slots_of; lia).
      rewrite length_slots_of, Nat.sub_diag. simpl. f_equal. symmetry.
      rewrite Z2Nat.id by page_lia. apply ins_record_eq; done.
    + assert (j < Z.to_nat (SlotCount d))%nat by (page_lia).
      rewrite lookup_app_l by (by rewrite length_slots_of).
      rewrite slots_of_lookup by done. f_equal. symmetry.
      apply ins_record_ne; [done..|simpl; page_lia| |].
      * page_lia.
      * intros Hl. destruct (Hlive (Z.of_nat j)); [split; [lia|done]|].
        unfold off. lia.
Qed.

(** What an insertion does to a well-formed page, in both outcomes. *)
Lemma InsertRecord_cases d data :
  sp_wf d →
  (fits d (blen data) ∧
   ∃ d', InsertRecord d data = (Some (Z.of_nat (insert_slot (slots_of d))), d') ∧
         sp_wf d' ∧ slots_of d' = abs_insert (slots_of d) data ∧
         PageId d' = PageId d ∧ NextPageId d' = NextPageId d)
  ∨ (¬ fits d (blen data) ∧ InsertRecord d data = (None, d)).
Proof.
  intros Hwf. pose proof Hwf as [Hd Hdir Hf Hlive Hdisj]. pose proof (blen_nonneg data).
  pose proof (free_space_offset_range d). pose proof (slot_count_range d).
  unfold fits, InsertRecord, abs_insert, insert_slot.
  change (slot_count (ReadHeader d)) with (SlotCount d).
  rewrite find_reuse_slot_spec, (FreeSpace_wf d Hwf).
  destruct (first_free (slots_of d)) as [i|] eqn:Hfree; simpl.
  - destruct (_ >? _) eqn:E1; [right; split; [|done]; rewrite Z.gtb_lt in E1; page_lia|].
    destruct (_ <? _) eqn:E2; [right; split; [|done]; page_lia|].
    left. split; [page_lia|]. eexists. split; [done|].
    rewrite u16_small by page_lia.
    destruct (insert_reused_slot d data i) as (? & ? & Hh); [done..| |].
    { rewrite FreeSpace_wf by done. page_lia. }
    unfold PageId, NextPageId, SlotCount, set_free in *. by rewrite Hh.
  - destruct (_ >? _) eqn:E1; [right; split; [|done]; rewrite Z.gtb_lt in E1; page_lia|].
    destruct (_ <? _) eqn:E2; [right; split; [|done]; page_lia|].
    left. split; [page_lia|]. eexists. rewrite length_slots_of.
    rewrite Z2Nat.id by page_lia. split; [done|].
    rewrite !u16_small by page_lia.
    destruct (insert_new_slot d data) as (? & ? & Hh); [done..| |].
    { rewrite FreeSpace_wf by done. page_lia. }
    unfold PageId, NextPageId, SlotCount, set_free in *. by rewrite Hh.
Qed.

(** ** Lemmas: deletion, update in place, links *)

Lemma live_bound d i : sp_wf d → live d i → slot_base (i + 1) ≤ free_space_offset (ReadHeader d).
Proof. intros [? ? ? ? ?] [? ?]. page_lia. Qed.

(** Shrinking a live slot in the directory. *)
Lemma WriteSlot_shrink d i l :
  sp_wf d → live d i → 0 ≤ l ≤ slot_length (ReadSlot d i) →
  let d' := WriteSlot d i (mkSlot (slot_offset (ReadSlot d i)) l) in
  sp_wf d' ∧ ReadHeader d' = ReadHeader d ∧
  ReadSlot d' i = mkSlot (slot_offset (ReadSlot d i)) l ∧
  (∀ j, 0 ≤ j → j ≠ i → ReadSlot d' j = ReadSlot d j) ∧
  (∀ off len, 0 ≤ len → free_space_offset (ReadHeader d) ≤ off →
     mem_read d' off len = mem_read d off len).
Proof.
  intros Hwf Hli Hl d'. pose proof (live_bound d i Hwf Hli).
  destruct Hwf as [Hd Hdir Hf Hlive Hdisj]. pose proof Hli as [Hi ?].
  pose proof (slot_offset_range d i). pose proof (slot_length_range d i).
  assert (ReadHeader d' = ReadHeader d) as Hh by (apply ReadHeader_WriteSlot; page_lia).
  assert (ReadSlot d' i = mkSlot (slot_offset (ReadSlot d i)) l) as Hsi
    by (apply ReadSlot_WriteSlot_eq; simpl; page_lia).
  assert (∀ j, 0 ≤ j → j ≠ i → ReadSlot d' j = ReadSlot d j) as Hsj
    by (intros; apply ReadSlot_WriteSlot_ne; page_lia).
  assert (∀ j, live d' j → live d j ∧ slot_offset (ReadSlot d' j) = slot_offset (ReadSlot d j)
            ∧ slot_length (ReadSlot d' j) ≤ slot_length (ReadSlot d j)) as Hlj.
  { intros j [Hj Hlj]. unfold SlotCount in Hj. rewrite Hh in Hj.
    destruct (decide (j = i)) as [->|].
    - rewrite Hsi. simpl. split_and!; [done|done|lia].
    - rewrite Hsj in * by lia. split_and!; [by split|done|lia]. }
  split_and!; try done.
  - split; unfold SlotCount; rewrite ?Hh; try done.
    + apply page_wf_WriteSlot; page_lia.
    + intros j Hj. destruct (Hlj j Hj) as (Hj' & -> & ?).
      destruct (Hlive j Hj'). lia.
    + intros j k Hj Hk Hjk. destruct (Hlj j Hj) as (Hj' & -> & ?).
      destruct (Hlj k Hk) as (Hk' & -> & ?).
      destruct (Hdisj j k Hj' Hk' Hjk); [left|right]; lia.
  - intros off len ??. apply mem_read_WriteSlot; page_lia.
Qed.

(** Writing inside the bytes of a live record. *)
Lemma mem_write_live d i data :
  sp_wf d → live d i → blen data ≤ slot_length (ReadSlot d i) →
  let d' := mem_write d (slot_offset (ReadSlot d i)) data in
  sp_wf d' ∧ ReadHeader d' = ReadHeader d ∧
  (∀ j, 0 ≤ j < SlotCount d → ReadSlot d' j = ReadSlot d j) ∧
  mem_read d' (slot_offset (ReadSlot d i)) (blen data) = data ∧
  (∀ j, live d j → j ≠ i → slot_record d' j = slot_record d j).
Proof.
  intros Hwf Hli Hl d'.
  destruct Hwf as [Hd Hdir Hf Hlive Hdisj]. destruct (Hlive i Hli) as [Ho1 Ho2].
  pose proof (slot_offset_range d i). pose proof (slot_count_range d).
  assert (in_bounds kPageSize (slot_offset (ReadSlot d i)) (blen data)) as Hb by page_lia.
  assert (ReadHeader d' = ReadHeader d) as Hh by (apply ReadHeader_mem_write; page_lia).
  assert (∀ j, 0 ≤ j < SlotCount d → ReadSlot d' j = ReadSlot d j) as Hs.
  { intros j ?. apply ReadSlot_mem_write; page_lia. }
  assert (∀ j, live d' j ↔ live d j) as Hlj.
  { intros j. unfold live, SlotCount. rewrite Hh. unfold SlotCount in Hs.
    split; intros [? ?]; rewrite Hs in * by done; done. }
  split_and!; try done.
  - split; unfold SlotCount; rewrite ?Hh; try done.
    + apply page_wf_mem_write; done.
    + intros j Hj%Hlj. pose proof Hj as [? ?]. rewrite Hs by done. by apply Hlive.
    + intros j k Hj%Hlj Hk%Hlj ?. pose proof Hj as [? ?]. pose proof Hk as [? ?].
      rewrite !Hs by done. by apply Hdisj.
  - apply mem_read_write_eq; [page_lia|done].
  - intros j Hj ?. pose proof Hj as [? ?]. unfold slot_record. rewrite Hs by done.
    case_goal; [done|]. f_equal. pose proof (slot_length_range d j).
    destruct (Hlive j Hj). apply mem_read_write_ne; [page_lia..|].
    destruct (Hdisj i j Hli Hj); [done|right|left]; lia.
Qed.

Lemma slot_record_None d i : slot_record d i = None ↔ slot_length (ReadSlot d i) = 0.
Proof. unfold slot_record. case_goal; zbool; split; done. Qed.

Lemma slots_of_insert d d' i r :
  ReadHeader d' = ReadHeader d → 0 ≤ i < SlotCount d →
  slot_record d' i = r →
  (∀ j, 0 ≤ j < SlotCount d → j ≠ i → slot_record d' j = slot_record d j) →
  slots_of d' = <[Z.to_nat i := r]> (slots_of d).
Proof.
  intros Hh Hi Hr Hother.
  assert (SlotCount d' = SlotCount d) as Hc by (unfold SlotCount; by rewrite Hh).
  apply slots_of_ext; rewrite Hc; [by rewrite length_insert, length_slots_of|].
  intros j Hj. destruct (decide (j = Z.to_nat i)) as [->|].
  - rewrite list_lookup_insert_eq by (rewrite length_slots_of; lia).
    rewrite Z2Nat.id by lia. by rewrite Hr.
  - rewrite list_lookup_insert_ne by done. rewrite slots_of_lookup by done.
    rewrite Hother by lia. done.
Qed.

Lemma live_slots d i :
  0 ≤ i → live d i ↔ ∃ r, slots_of d !! Z.to_nat i = Some (Some r).
Proof.
  intros ?. unfold live. destruct (decide (i < SlotCount d)).
  - rewrite slots_of_lookup_Z by lia. unfold slot_record.
    destruct (_ =? 0) eqn:E; zbool.
    + split; [intros [? ?]|intros [? ?]]; done.
    + split; [eauto|]. intros _. split; [lia|done].
  - rewrite lookup_ge_None_2 by (rewrite length_slots_of; lia).
    split; [lia|]. by intros [? ?].
Qed.

(** [DeleteRecord] on a live slot, and on any other. *)
(** The length stored with a live record. *)
Lemma live_length d i r :
  sp_wf d → 0 ≤ i → slots_of d !! Z.to_nat i = Some (Some r) → slot_length (ReadSlot d i) = blen r.
Proof.
  intros Hwf Hi Hr. assert (live d i) as Hl by (apply live_slots; eauto).
  destruct (wf_live d Hwf i Hl) as [? ?]. pose proof (slot_length_range d i).
  pose proof (free_space_offset_range d).
  rewrite slots_of_lookup_Z in Hr by (destruct Hl; lia). injection Hr as Hr.
  unfold slot_record in Hr. case_match; [done|]. injection Hr as <-.
  pose proof (wf_size d Hwf). unfold mem_read, blen. rewrite length_take, length_drop. page_lia.
Qed.

Lemma DeleteRecord_live d i :
  sp_wf d → live d i →
  ∃ d', DeleteRecord d i = (true, d') ∧ sp_wf d' ∧
        slots_of d' = <[Z.to_nat i := None]> (slots_of d) ∧
        PageId d' = PageId d ∧ NextPageId d' = NextPageId d.
Proof.
  intros Hwf Hli. pose proof Hli as [Hi Hl].
  unfold DeleteRecord.
  destruct (i >=? SlotCount d) eqn:E; [lia|].
  destruct (slot_length (ReadSlot d i) =? 0) eqn:E2; zbool; [done|].
  pose proof (slot_length_range d i).
  destruct (WriteSlot_shrink d i 0) as (? & Hh & Hsi & Hsj & Hr); [done..|page_lia|].
  eexists. split; [done|]. unfold PageId, NextPageId. rewrite Hh. split_and!; try done.
  apply slots_of_insert; [done..| |].
  - apply slot_record_None. by rewrite Hsi.
  - intros j Hj ?. unfold slot_record. rewrite Hsj by lia. case_goal; [done|].
    zbool. f_equal. apply Hr; [apply slot_length_range|].
    destruct Hwf as [? ? ? Hlive ?]. apply Hlive. by split.
Qed.

Lemma DeleteRecord_dead d i : 0 ≤ i → ¬ live d i → DeleteRecord d i = (false, d).
Proof.
  intros ? Hli. unfold DeleteRecord.
  destruct (i >=? SlotCount d) eqn:E; [done|].
  destruct (_ =? 0) eqn:E2; zbool; [done|]. destruct Hli. split; [lia|done].
Qed.

(** [UpdateRecordInPlace] when the new bytes fit over the old record. *)
Lemma UpdateRecordInPlace_fits d i data :
  sp_wf d → live d i → blen data ≤ slot_length (ReadSlot d i) →
  ∃ d', UpdateRecordInPlace d i data = (true, d') ∧ sp_wf d' ∧
        slots_of d' =
          <[Z.to_nat i := rec_of data]> (slots_of d) ∧
        PageId d' = PageId d ∧ NextPageId d' = NextPageId d.
Proof.
  intros Hwf Hli Hlen. pose proof Hli as [Hi Hl]. unfold UpdateRecordInPlace.
  destruct (i >=? SlotCount d) eqn:E; [lia|].
  destruct (slot_length (ReadSlot d i) =? 0) eqn:E2; zbool; [done|].
  destruct (_ >? _) eqn:E3; [rewrite Z.gtb_lt in E3; lia|].
  destruct (mem_write_live d i data) as (Hwf1 & Hh1 & Hs1 & Hr1 & Ho1); [done..|].
  set (d1 := mem_write d (slot_offset (ReadSlot d i)) data) in *.
  assert (live d1 i) as Hli1.
  { unfold live, SlotCount. rewrite Hh1, Hs1 by done. by split. }
  destruct (WriteSlot_shrink d1 i (blen data)) as (? & Hh & Hsi & Hsj & Hr); [done..| |].
  { rewrite Hs1 by done. blia. }
  rewrite Hs1 in * by done.
  destruct Hwf as [? ? ? Hlive ?].
  eexists. split; [done|]. unfold PageId, NextPageId. rewrite Hh, Hh1.
  split_and!; try done.
  apply slots_of_insert; [by rewrite Hh|done| |].
  - unfold slot_record, rec_of. rewrite Hsi. simpl. case_goal; [done|]. f_equal.
    rewrite Hr; [done|blia|]. rewrite Hh1. by apply Hlive.
  - intros j Hj ?. unfold slot_record. rewrite Hsj by lia. rewrite Hs1 by done.
    case_goal; [done|]. zbool. f_equal.
    assert (live d j) as Hlj by by split.
    rewrite Hr; [|apply slot_length_range|rewrite Hh1; by apply Hlive].
    pose proof (Ho1 j Hlj) as Ho. unfold slot_record in Ho.
    rewrite Hs1 in Ho by done.
    destruct (slot_length (ReadSlot d j) =? 0) eqn:?; zbool; [done|]. by injection Ho.
Qed.

Lemma UpdateRecordInPlace_declines d i data :
  0 ≤ i → ¬ (live d i ∧ blen data ≤ slot_length (ReadSlot d i)) →
  UpdateRecordInPlace d i data = (false, d).
Proof.
  intros ? Hn. unfold UpdateRecordInPlace.
  destruct (i >=? SlotCount d) eqn:E; [done|].
  destruct (_ =? 0) eqn:E2; zbool; [done|].
  destruct (_ >? _) eqn:E3; [done|].
  destruct Hn. split; [split; [lia|done]|].
  destruct (Z.gtb_spec (blen data) (slot_length (ReadSlot d i))); [done|lia].
Qed.

Lemma Init_spec d pid next :
  page_wf d → in_i32 pid → in_i32 next →
  sp_wf (Init d pid next) ∧ slots_of (Init d pid next) = [] ∧
  PageId (Init d pid next) = pid ∧ NextPageId (Init d pid next) = next ∧
  FreeSpace (Init d pid next) = kPageSize - kHeaderSize.
Proof.
  intros Hd Hp Hn.
  assert (ReadHeader (Init d pid next) = mkPageHeader pid next 0 kPageSize) as Hh.
  { unfold Init. rewrite ReadHeader_WriteHeader; simpl; done || page_lia. }
  split_and!.
  - split; unfold live, SlotCount; rewrite ?Hh; simpl; try page_lia.
    apply page_wf_WriteHeader. done.
  - unfold slots_of, SlotCount. by rewrite Hh.
  - unfold PageId. by rewrite Hh.
  - unfold NextPageId. by rewrite Hh.
  - unfold FreeSpace. by rewrite Hh.
Qed.

Lemma SetNextPageId_spec d next :
  sp_wf d → in_i32 next →
  sp_wf (SetNextPageId d next) ∧ slots_of (SetNextPageId d next) = slots_of d ∧
  PageId (SetNextPageId d next) = PageId d ∧ NextPageId (SetNextPageId d next) = next ∧
  FreeSpace (SetNextPageId d next) = FreeSpace d.
Proof.
  intros Hwf Hn. destruct Hwf as [Hd Hdir Hf Hlive Hdisj].
  set (h := mkPageHeader (page_id (ReadHeader d)) next (slot_count (ReadHeader d))
              (free_space_offset (ReadHeader d))).
  assert (ReadHeader (SetNextPageId d next) = h) as Hh.
  { apply ReadHeader_WriteHeader; simpl; eauto using page_id_range with minidb. }
  assert (∀ i, 0 ≤ i → ReadSlot (SetNextPageId d next) i = ReadSlot d i) as Hs.
  { intros i ?. by apply ReadSlot_WriteHeader. }
  assert (∀ i, live (SetNextPageId d next) i ↔ live d i) as Hl.
  { intros i. unfold live, SlotCount. rewrite Hh. simpl.
    split; intros [[? ?] ?]; rewrite Hs in * by done; done. }
  split_and!.
  - split; unfold SlotCount; rewrite ?Hh; simpl; try done.
    + by apply page_wf_WriteHeader.
    + intros i Hi%Hl. pose proof Hi as [[? ?] ?]. rewrite Hs by done. by apply Hlive.
    + intros i j Hi%Hl Hj%Hl. pose proof Hi as [[? ?] ?]. pose proof Hj as [[? ?] ?].
      rewrite !Hs by done. by apply Hdisj.
  - apply slots_of_ext; unfold SlotCount; rewrite Hh; simpl; [by rewrite length_slots_of|].
    intros i Hi. rewrite slots_of_lookup by done. f_equal. unfold slot_record.
    rewrite Hs by lia. case_goal; [done|]. zbool. f_equal. symmetry.
    assert (live d (Z.of_nat i)) as Hli by (split; [page_lia|done]).
    destruct (Hlive _ Hli). pose proof (slot_count_range d).
    apply mem_read_WriteHeader; [done|page_lia|apply slot_length_range].
  - unfold PageId. by rewrite Hh.
  - unfold NextPageId. by rewrite Hh.
  - unfold FreeSpace. by rewrite Hh.
Qed.

(** ** The page as a state machine *)

(** Any sequence of the page's public operations on an initialised page. *)
Inductive page_reachable : Page → Prop :=
  | reach_init d pid next :
      page_wf d → in_i32 pid → in_i32 next → page_reachable (Init d pid next)
  | reach_insert d data :
      page_reachable d → page_reachable (InsertRecord d data).2
  | reach_delete d i :
      page_reachable d → 0 ≤ i → page_reachable (DeleteRecord d i).2
  | reach_update d i data :
      page_reachable d → 0 ≤ i → page_reachable (UpdateRecordInPlace d i data).2
  | reach_link d next :
      page_reachable d → in_i32 next → page_reachable (SetNextPageId d next).

Lemma live_dec d i : 0 ≤ i → live d i ∨ ¬ live d i.
Proof.
  intros ?. unfold live.
  destruct (decide (0 ≤ i < SlotCount d)), (decide (slot_length (ReadSlot d i) = 0));
    tauto.
Qed.

Lemma page_reachable_sp_wf d : page_reachable d → sp_wf d.
Proof.
  induction 1 as [d pid next|d data _ IH|d i _ IH Hi|d i data _ IH Hi|d next _ IH Hn].
  - by apply Init_spec.
  - by destruct (InsertRecord_cases d data IH) as [(_ & d' & -> & ? & _)|[_ ->]].
  - destruct (live_dec d i Hi) as [Hl|Hl].
    + by destruct (DeleteRecord_live d i IH Hl) as (d' & -> & ? & _).
    + by rewrite DeleteRecord_dead.
  - destruct (live_dec d i Hi) as [Hl|Hl];
      [destruct (decide (blen data ≤ slot_length (ReadSlot d i)))|].
    + by destruct (UpdateRecordInPlace_fits d i data IH Hl) as (d' & -> & ? & _).
    + rewrite UpdateRecordInPlace_declines by tauto. done.
    + rewrite UpdateRecordInPlace_declines by tauto. done.
  - by apply SetNextPageId_spec.
Qed.

Lemma abs_insert_lookup_eq l data :
  abs_insert l data !! insert_slot l = Some (rec_of data).
Proof.
  unfold abs_insert, insert_slot. destruct (first_free l) as [i|] eqn:E; simpl.
  - apply list_lookup_insert_eq. eapply lookup_lt_Some. by apply first_free_Some.
  - rewrite lookup_app_r, Nat.sub_diag; done.
Qed.

Lemma abs_insert_lookup_ne l data j :
  j ≠ insert_slot l → abs_insert l data !! j = l !! j.
Proof.
  unfold abs_insert, insert_slot. destruct (first_free l) as [i|] eqn:E; simpl; intros ?.
  - by apply list_lookup_insert_ne.
  - destruct (decide (j < length l)%nat); [by rewrite lookup_app_l|].
    rewrite !lookup_ge_None_2; [done|lia|]. rewrite length_app. simpl. lia.
Qed.

Lemma insert_slot_free l : mjoin (l !! insert_slot l) = None.
Proof.
  unfold insert_slot. destruct (first_free l) as [i|] eqn:E; simpl.
  - by rewrite (first_free_Some l i E).
  - by rewrite lookup_ge_None_2.
Qed.

Lemma insert_slot_le l : (insert_slot l ≤ length l)%nat.
Proof.
  unfold insert_slot. destruct (first_free l) as [i|] eqn:E; simpl; [|done].
  apply first_free_Some, lookup_lt_Some in E. lia.
Qed.

(** No earlier slot is free. *)
Lemma insert_slot_least l j : (j < insert_slot l)%nat → mjoin (l !! j) ≠ None.
Proof.
  unfold insert_slot. induction l as [|[b|] l IH] in j |- *; cbn [first_free default length]; [lia| |simpl; lia].
  destruct j as [|j]; [done|]. intros Hj. apply (IH j). destruct (first_free l); simpl in *; lia.
Qed.

(** A record inserted into a fresh page: the page used by the witnesses. *)
Definition sample_page : Page :=
  (InsertRecord (Init blank_page 1 kInvalidPageId) (replicate 5 Init.Byte.x61)).2.

Lemma sample_page_reachable : page_reachable sample_page.
Proof. apply reach_insert, reach_init; [apply page_wf_blank|done|done]. Qed.

(** ** Properties *)

(** C11: whatever sequence of operations built a page, its directory ends
    below the record area, every live record lies inside the page and no two
    live records overlap; so at most 1021 slots exist and every slot entry
    and record the code addresses is inside the 4096-byte buffer. *)
Theorem slotted_page_safe d :
  page_reachable d →
  sp_wf d ∧ SlotCount d ≤ 1021 ∧
  (∀ i, 0 ≤ i < SlotCount d → in_bounds kPageSize (slot_base i) kSlotSize) ∧
  (∀ i, live d i →
     in_bounds kPageSize (slot_offset (ReadSlot d i)) (slot_length (ReadSlot d i))).
Proof.
  intros Hr. pose proof (page_reachable_sp_wf d Hr) as Hwf.
  pose proof Hwf as [Hd Hdir Hf Hlive Hdisj].
  split_and!; [done|page_lia|intros; page_lia|].
  intros i Hi. destruct (Hlive i Hi).
  pose proof (slot_offset_range d i). pose proof (slot_length_range d i). page_lia.
Qed.

Lemma slotted_page_safe_witness :
  page_reachable sample_page ∧ SlotCount sample_page ≤ 1021.
Proof.
  split; [apply sample_page_reachable|].
  apply (slotted_page_safe sample_page sample_page_reachable).
Defined.

(** C12: inserting a non-empty record either reports no room, exactly when the
    record and the directory growth it needs exceed the free space, and leaves
    the page as it was; or it returns the first slot that holds no record (the
    first deleted one, else the new one after the last), reading that slot
    gives the record back and every other slot reads as before. *)
Theorem slotted_insert_correct d data :
  sp_wf d → 0 < blen data →
  match InsertRecord d data with
  | (Some i, d') =>
      fits d (blen data) ∧ sp_wf d' ∧ 0 ≤ i ≤ SlotCount d ∧ GetRecord d i = None ∧
      (∀ j, 0 ≤ j < i → GetRecord d j ≠ None) ∧ GetRecord d' i = Some data ∧
      (∀ j, 0 ≤ j → j ≠ i → GetRecord d' j = GetRecord d j)
  | (None, d') => ¬ fits d (blen data) ∧ d' = d
  end.
Proof.
  intros Hwf Hlen.
  destruct (InsertRecord_cases d data Hwf) as [(? & d' & -> & Hwf' & Hs & _)|[? ->]];
    [|done].
  set (i := insert_slot (slots_of d)) in *.
  split_and!; try done; try lia; rewrite ?GetRecord_slots, ?Nat2Z.id by lia.
  - unfold i. pose proof (insert_slot_le (slots_of d)) as Hle. rewrite length_slots_of in Hle. pose proof (slot_count_range d). unfold SlotCount in *. blia.
  - apply insert_slot_free.
  - intros j ?. rewrite GetRecord_slots by lia. apply insert_slot_least. fold i. lia.
  - rewrite Hs. unfold i. rewrite abs_insert_lookup_eq. unfold rec_of; simpl.
    destruct (Z.eqb_spec (blen data) 0); [lia|done].
  - intros j ? ?. rewrite !GetRecord_slots by done.
    rewrite Hs, abs_insert_lookup_ne by lia. done.
Qed.

Lemma slotted_insert_correct_witness :
  sp_wf sample_page ∧
  ∃ d', InsertRecord sample_page [Init.Byte.x62] = (Some 1, d') ∧
        GetRecord d' 1 = Some [Init.Byte.x62].
Proof.
  pose proof (page_reachable_sp_wf _ sample_page_reachable) as Hwf.
  split; [done|].
  pose proof (slotted_insert_correct sample_page [Init.Byte.x62] Hwf eq_refl) as H.
  assert ((InsertRecord sample_page [Init.Byte.x62]).1 = Some 1) as E by (vm_compute; done).
  destruct (InsertRecord sample_page [Init.Byte.x62]) as [o d'].
  simpl in E. subst o. destruct H as (_ & _ & _ & _ & _ & ? & _). eauto.
Defined.

(** C13: deleting or overwriting a record touches that record only.  A slot
    without a record is refused and the page is unchanged; so is an update
    longer than the record it replaces. *)
Theorem slotted_delete_update_correct d i data :
  sp_wf d → 0 ≤ i →
  (match DeleteRecord d i with
   | (true, d') => sp_wf d' ∧ GetRecord d i ≠ None ∧ GetRecord d' i = None ∧
                   (∀ j, 0 ≤ j → j ≠ i → GetRecord d' j = GetRecord d j)
   | (false, d') => GetRecord d i = None ∧ d' = d
   end) ∧
  (match UpdateRecordInPlace d i data with
   | (true, d') => sp_wf d' ∧ GetRecord d' i = rec_of data ∧
                   (∃ old, GetRecord d i = Some old ∧ blen data ≤ blen old) ∧
                   (∀ j, 0 ≤ j → j ≠ i → GetRecord d' j = GetRecord d j)
   | (false, d') => d' = d ∧ (∀ old, GetRecord d i = Some old → blen old < blen data)
   end).
Proof.
  intros Hwf Hi.
  assert (¬ live d i → GetRecord d i = None) as Hdead.
  { intros Hn. rewrite GetRecord_slots by done.
    destruct (slots_of d !! Z.to_nat i) as [[r|]|] eqn:E; [|done..].
    destruct Hn. apply live_slots; eauto. }
  assert (live d i → ∃ old, GetRecord d i = Some old ∧ blen old = slot_length (ReadSlot d i))
    as Hold.
  { intros Hl. pose proof Hl as [? ?]. unfold GetRecord.
    destruct (i >=? SlotCount d) eqn:?; [lia|].
    destruct (_ =? 0) eqn:?; zbool; [lia|]. eexists. split; [done|].
    destruct Hwf as [? ? ? Hlive ?]. destruct (Hlive i Hl).
    pose proof (slot_offset_range d i). pose proof (slot_length_range d i).
    apply blen_mem_read. page_lia. }
  assert (∀ d' r, slots_of d' = <[Z.to_nat i := r]> (slots_of d) → live d i →
            GetRecord d' i = r ∧ (∀ j, 0 ≤ j → j ≠ i → GetRecord d' j = GetRecord d j)) as Hset.
  { intros d' r Hs [? _]. split; [|intros j ??]; rewrite !GetRecord_slots, Hs by done.
    - rewrite list_lookup_insert_eq; [done|]. rewrite length_slots_of. lia.
    - by rewrite list_lookup_insert_ne by lia. }
  split.
  - destruct (live_dec d i Hi) as [Hl|Hn]; [|rewrite DeleteRecord_dead by done; auto].
    destruct (DeleteRecord_live d i Hwf Hl) as (d' & -> & ? & Hs & _).
    destruct (Hset d' _ Hs Hl). destruct (Hold Hl) as (? & -> & _). done.
  - destruct (live_dec d i Hi) as [Hl|Hn];
      [destruct (decide (blen data ≤ slot_length (ReadSlot d i)))|].
    + destruct (UpdateRecordInPlace_fits d i data Hwf Hl) as (d' & -> & ? & Hs & _); [done|].
      destruct (Hset d' _ Hs Hl). destruct (Hold Hl) as (old & ? & ?).
      split_and!; try done. exists old. split; [done|lia].
    + rewrite UpdateRecordInPlace_declines by tauto. split; [done|].
      destruct (Hold Hl) as (? & -> & ?). intros ? [= <-]. lia.
    + rewrite UpdateRecordInPlace_declines by tauto. split; [done|].
      by rewrite Hdead.
Qed.

Lemma slotted_delete_update_correct_witness :
  sp_wf sample_page ∧ (DeleteRecord sample_page 0).1 = true ∧
  GetRecord (UpdateRecordInPlace sample_page 0 [Init.Byte.x62]).2 0 = Some [Init.Byte.x62].
Proof.
  pose proof (page_reachable_sp_wf _ sample_page_reachable) as Hwf.
  split; [done|]. split; [vm_compute; done|].
  destruct (slotted_delete_update_correct sample_page 0 [Init.Byte.x62] Hwf) as [_ H];
    [done|].
  assert ((UpdateRecordInPlace sample_page 0 [Init.Byte.x62]).1 = true) as E
    by (vm_compute; done).
  destruct (UpdateRecordInPlace sample_page 0 [Init.Byte.x62]) as [o d'].
  simpl in *. subst o. by destruct H as (_ & ? & _).
Defined.

(** A record of zero bytes is accepted and given a slot, but the slot
    reads as a tombstone: the record cannot be read back and the next
    insertion reuses the slot. *)
Theorem slotted_empty_record_lost d :
  sp_wf d → fits d 0 →
  ∃ i d', InsertRecord d [] = (Some i, d') ∧ GetRecord d' i = None ∧
          IsTombstoned d' i = true.
Proof.
  intros Hwf Hfit.
  destruct (InsertRecord_cases d [] Hwf) as [(? & d' & E & Hwf' & Hs & _)|[? ?]]; [|done].
  eexists _, d'. split; [done|]. set (i := insert_slot (slots_of d)) in *.
  assert (GetRecord d' (Z.of_nat i) = None) as Hg.
  { rewrite GetRecord_slots, Nat2Z.id by lia. rewrite Hs. unfold i.
    by rewrite abs_insert_lookup_eq. }
  split; [done|]. unfold GetRecord in Hg. unfold IsTombstoned.
  destruct (_ >=? _); [done|]. by destruct (slot_length _ =? 0).
Qed.

Lemma slotted_empty_record_lost_witness :
  sp_wf sample_page ∧ ∃ i d', InsertRecord sample_page [] = (Some i, d') ∧
    GetRecord d' i = None.
Proof.
  pose proof (page_reachable_sp_wf _ sample_page_reachable) as Hwf.
  split; [done|].
  destruct (slotted_empty_record_lost sample_page Hwf) as (i & d' & ? & ? & _);
    [vm_compute; done|].
  eauto.
Defined.
