(* ===== verification/PageManager.v ===== *)
(** * Page files: src/storage/page_manager.hpp, src/storage/page_manager.cpp

    A database file is an array of 4096-byte pages; page 0 is the file header.
    [fstream] models the [std::fstream] the class owns: the bytes of the file,
    the stream's error bits, and whether the device accepts writes.  Every
    access of the class seeks first, so the stream position is an argument of
    the read and write operations. *)

From S2P Require Import Prelude Util.
From coqutil Require Word.LittleEndianList.

(** ** The file stream *)

Record fstream := mkFstream {
  fs_data : bytes;
  fs_open : bool;
  fs_eof : bool;
  fs_fail : bool;
  fs_bad : bool;
  fs_device_ok : bool
}.

Definition fs_set_data (s : fstream) (d : bytes) : fstream :=
  mkFstream d (fs_open s) (fs_eof s) (fs_fail s) (fs_bad s) (fs_device_ok s).
Definition fs_set_bits (s : fstream) (eof fail bad : bool) : fstream :=
  mkFstream (fs_data s) (fs_open s) eof fail bad (fs_device_ok s).

Definition fs_good (s : fstream) : bool := negb (fs_eof s || fs_fail s || fs_bad s).
Definition fs_clear (s : fstream) : fstream := fs_set_bits s false false false.

(** [seekg(off); read(buf, n)]: the bytes read.  [seekg] clears [eofbit]; a
    short read sets [eofbit] and [failbit]. *)
Definition fs_read_at (s : fstream) (off n : Z) : bytes * fstream :=
  let s := fs_set_bits s false (fs_fail s) (fs_bad s) in
  if negb (fs_good s) || (off <? 0) then ([], fs_set_bits s false true (fs_bad s))
  else
    let bs := mem_read (fs_data s) off n in
    if blen bs <? n then (bs, fs_set_bits s true true false) else (bs, s).

(** The bytes of a file after a write at [off], which extends it as needed. *)
Definition file_write (d : bytes) (off : Z) (bs : bytes) : bytes :=
  let gap := replicate (Z.to_nat (off - blen d)) zero_byte in
  mem_write (d ++ gap) off bs.

(** [seekp(off); write(bs)], which sets [badbit] when the device refuses. *)
Definition fs_write_at (s : fstream) (off : Z) (bs : bytes) : fstream :=
  if negb (fs_good s) || (off <? 0) then fs_set_bits s (fs_eof s) true (fs_bad s)
  else if fs_device_ok s then fs_set_data s (file_write (fs_data s) off bs)
  else fs_set_bits s (fs_eof s) (fs_fail s) true.

(** ** State and operations *)

Record PageManager := mkPM {
  file_ : fstream;
  next_page_id_ : Z;
  page_count_ : Z
}.

Definition pm_set_file (pm : PageManager) (f : fstream) : PageManager :=
  mkPM f (next_page_id_ pm) (page_count_ pm).

Definition EncodeHeaderPage (next_page_id page_count : Z) : Page :=
  let page := blank_page in
  let page := WriteFixed 4 page 0 next_page_id in
  WriteFixed 4 page 4 (u32 page_count).

Definition DecodeHeaderPage (page : Page) : Z * Z :=
  (ReadFixedS 4 page 0, ReadFixedU 4 page 4).

Definition OffsetOf (pid : Z) : Z := pid * kPageSize.

(** [read] into a page buffer overwrites the bytes it delivers. *)
Definition fill_page (out bs : bytes) : Page := bs ++ drop (length bs) out.

Definition ReadFileHeader (pm : PageManager) : PageManager :=
  let '(bs, f) := fs_read_at (file_ pm) (OffsetOf kHeaderPageId) kPageSize in
  let '(next, count) := DecodeHeaderPage (fill_page blank_page bs) in
  mkPM f next count.

Definition WriteFileHeader (pm : PageManager) : PageManager :=
  let header_page := EncodeHeaderPage (next_page_id_ pm) (page_count_ pm) in
  pm_set_file pm (fs_write_at (file_ pm) (OffsetOf kHeaderPageId) header_page).

(** The constructor, on the bytes found at the path ([None]: no such file),
    for a file that can be opened or created. *)
Definition PageManager_open (disk : option bytes) : PageManager :=
  let f := mkFstream (default [] disk) true false false false true in
  match disk with
  | Some _ => ReadFileHeader (mkPM f kFirstDataPageId 0)
  | None => WriteFileHeader (mkPM f kFirstDataPageId 1)
  end.

(** The destructor: the bytes it leaves in the file. *)
Definition PageManager_close (pm : PageManager) : bytes :=
  if fs_open (file_ pm) then fs_data (file_ (WriteFileHeader pm)) else fs_data (file_ pm).

Definition AllocatePage (pm : PageManager) : Result Z * PageManager :=
  let new_id := next_page_id_ pm in
  let pm := mkPM (file_ pm) (i32 (next_page_id_ pm + 1)) (u64 (page_count_ pm + 1)) in
  let pm := pm_set_file pm (fs_write_at (file_ pm) (OffsetOf new_id) blank_page) in
  if negb (fs_good (file_ pm)) then
    (Err (IOError "failed to extend data file for new page"), pm)
  else (Ok new_id, WriteFileHeader pm).

(** [ReadPage(page_id, out)]: the status, the buffer [out] afterwards. *)
Definition ReadPage (pid : Z) (out : Page) (pm : PageManager) : Status * Page * PageManager :=
  if (pid <? 0) || (pid >=? page_count_ pm) then
    (InvalidArgument "ReadPage: page_id out of range", out, pm)
  else
    let '(bs, f) := fs_read_at (file_ pm) (OffsetOf pid) kPageSize in
    let out := fill_page out bs in
    if negb (fs_good f) && negb (fs_eof f) then
      (IOError "ReadPage: I/O error", out, pm_set_file pm f)
    else (Status_OK, out, pm_set_file pm (fs_clear f)).

Definition WritePage (pid : Z) (page : Page) (pm : PageManager) : Status * PageManager :=
  if (pid <? 0) || (pid >=? page_count_ pm) then
    (InvalidArgument "WritePage: page_id out of range", pm)
  else
    let f := fs_write_at (file_ pm) (OffsetOf pid) page in
    if negb (fs_good f) then (IOError "WritePage: I/O error", pm_set_file pm f)
    else (Status_OK, pm_set_file pm f).

Definition PageCount (pm : PageManager) : Z := page_count_ pm.

(** ** The abstract disk and the invariant *)

(** The page stored at [pid]. *)
Definition pm_page (pm : PageManager) (pid : Z) : Page :=
  mem_read (fs_data (file_ pm)) (OffsetOf pid) kPageSize.

Definition pm_has (pm : PageManager) (pid : Z) : Prop := 0 ≤ pid < page_count_ pm.

Record pm_wf (pm : PageManager) : Prop := {
  wf_open : fs_open (file_ pm) = true;
  wf_good : fs_good (file_ pm) = true;
  wf_device : fs_device_ok (file_ pm) = true;
  wf_length : blen (fs_data (file_ pm)) = page_count_ pm * kPageSize;
  wf_next : next_page_id_ pm = page_count_ pm;
  wf_count : 1 ≤ page_count_ pm < 2 ^ 31
}.

(** The header page on disk describes the current state. *)
Definition pm_header_ok (pm : PageManager) : Prop :=
  DecodeHeaderPage (pm_page pm kHeaderPageId) = (next_page_id_ pm, page_count_ pm).

(** ** Lemmas: streams *)

Ltac pm_lia := unfold OffsetOf, pm_has, page_wf, kPageSize, kHeaderPageId in *; blia.

Lemma fs_good_bits s :
  fs_good s = true ↔ fs_eof s = false ∧ fs_fail s = false ∧ fs_bad s = false.
Proof.
  unfold fs_good. rewrite negb_true_iff, !orb_false_iff. tauto.
Qed.

Lemma fs_clear_good s : fs_good s = true → fs_clear s = s.
Proof.
  intros (H1 & H2 & H3)%fs_good_bits. destruct s. simpl in *. by subst.
Qed.

Lemma fs_read_at_ok s off n :
  fs_good s = true → in_bounds (blen (fs_data s)) off n →
  fs_read_at s off n = (mem_read (fs_data s) off n, s).
Proof.
  intros Hg Hb. pose proof (fs_clear_good s Hg) as Hc. unfold fs_clear in Hc.
  pose proof (proj1 (fs_good_bits s) Hg) as (H1 & H2 & H3).
  unfold fs_read_at. rewrite H2, H3, Hc, Hg. simpl.
  destruct (Z.ltb_spec off 0); [blia|].
  rewrite blen_mem_read by done. by rewrite Z.ltb_irrefl.
Qed.

Lemma fs_write_at_ok s off bs :
  fs_good s = true → fs_device_ok s = true → 0 ≤ off →
  fs_write_at s off bs = fs_set_data s (file_write (fs_data s) off bs).
Proof.
  intros Hg Hd ?. unfold fs_write_at. rewrite Hg, Hd.
  destruct (Z.ltb_spec off 0); [lia|done].
Qed.

(** A stream whose fail bit is set drops the write. *)
Lemma fs_write_at_failed s off bs :
  fs_fail s = true →
  fs_write_at s off bs = fs_set_bits s (fs_eof s) true (fs_bad s).
Proof. intros Hf. unfold fs_write_at, fs_good. by rewrite Hf, orb_true_r. Qed.

Lemma fs_good_failed s eof bad : fs_good (fs_set_bits s eof true bad) = false.
Proof. unfold fs_good. simpl. by rewrite orb_true_r. Qed.

Lemma fs_read_at_short s off n :
  fs_good s = true → 0 ≤ off → 0 < n → blen (fs_data s) < off + n →
  fs_read_at s off n = (mem_read (fs_data s) off n, fs_set_bits s true true false).
Proof.
  intros Hg ???. pose proof (proj1 (fs_good_bits s) Hg) as (E1 & E2 & E3).
  pose proof (fs_clear_good s Hg) as Hc. unfold fs_clear in Hc.
  unfold fs_read_at. rewrite E2, E3, Hc, Hg. cbn [negb orb].
  destruct (Z.ltb_spec off 0); [lia|].
  destruct (Z.ltb_spec (blen (mem_read (fs_data s) off n)) n) as [|Hle]; [done|].
  unfold mem_read, blen in *. rewrite length_take, length_drop in Hle. lia.
Qed.

Lemma fs_good_set_data s d : fs_good (fs_set_data s d) = fs_good s.
Proof. done. Qed.

(** ** Lemmas: file contents *)

Lemma file_write_in d off bs :
  in_bounds (blen d) off (blen bs) → file_write d off bs = mem_write d off bs.
Proof.
  intros ?. unfold file_write.
  replace (Z.to_nat (off - blen d)) with O by blia. by rewrite app_nil_r.
Qed.

Lemma file_write_end d bs : file_write d (blen d) bs = d ++ bs.
Proof.
  unfold file_write, mem_write. rewrite Z.sub_diag. simpl. rewrite app_nil_r.
  unfold blen. rewrite Nat2Z.id, take_ge by lia. rewrite drop_ge by lia.
  by rewrite app_nil_r.
Qed.

Lemma fill_page_full out bs : page_wf out → page_wf bs → fill_page out bs = bs.
Proof.
  intros ??. unfold fill_page. rewrite drop_ge by pm_lia. apply app_nil_r.
Qed.

Lemma pm_set_file_id pm : pm_set_file pm (file_ pm) = pm.
Proof. by destruct pm. Qed.

Section pages.
Context (pm : PageManager) (Hwf : pm_wf pm).

Lemma pm_bounds pid : pm_has pm pid → in_bounds (blen (fs_data (file_ pm))) (OffsetOf pid) kPageSize.
Proof. intros ?. rewrite (wf_length pm Hwf). pm_lia. Qed.

Lemma page_wf_pm_page pid : pm_has pm pid → page_wf (pm_page pm pid).
Proof. intros ?. apply blen_mem_read. by apply pm_bounds. Qed.

Lemma ReadPage_ok pid out :
  pm_has pm pid → page_wf out →
  ReadPage pid out pm = (Status_OK, pm_page pm pid, pm).
Proof.
  intros Hp Ho. unfold ReadPage.
  destruct (Z.ltb_spec pid 0); [pm_lia|].
  destruct (pid >=? page_count_ pm) eqn:E; [zbool; pm_lia|]. cbn [orb].
  rewrite fs_read_at_ok by (apply Hwf || by apply pm_bounds).
  rewrite (wf_good pm Hwf). cbn [negb andb].
  rewrite fs_clear_good by apply Hwf.
  rewrite (fill_page_full out); [|done|by apply page_wf_pm_page].
  rewrite pm_set_file_id. unfold pm_page. reflexivity.
Qed.

Lemma ReadPage_out_of_range pid out :
  ¬ pm_has pm pid →
  ReadPage pid out pm = (InvalidArgument "ReadPage: page_id out of range", out, pm).
Proof.
  intros Hn. unfold ReadPage. destruct ((pid <? 0) || (pid >=? page_count_ pm)) eqn:E; [done|].
  zbool. unfold pm_has in Hn. lia.
Qed.

Definition pm_write (pid : Z) (p : Page) : PageManager :=
  pm_set_file pm (fs_set_data (file_ pm) (mem_write (fs_data (file_ pm)) (OffsetOf pid) p)).

Lemma WritePage_ok pid p :
  pm_has pm pid → page_wf p → WritePage pid p pm = (Status_OK, pm_write pid p).
Proof.
  intros Hp Ho. unfold WritePage. pose proof (pm_bounds pid Hp).
  destruct (Z.ltb_spec pid 0); [pm_lia|].
  destruct (pid >=? page_count_ pm) eqn:E; [zbool; pm_lia|]. cbn [orb].
  rewrite fs_write_at_ok by (apply Hwf || pm_lia).
  rewrite fs_good_set_data, (wf_good pm Hwf). cbn [negb].
  by rewrite file_write_in by (by rewrite Ho).
Qed.

Lemma pm_write_wf pid p : pm_has pm pid → page_wf p → pm_wf (pm_write pid p).
Proof.
  intros Hp Ho. pose proof (pm_bounds pid Hp). destruct Hwf.
  split; try done. simpl. rewrite blen_mem_write; [done|by rewrite Ho].
Qed.

Lemma pm_page_write_eq pid p :
  pm_has pm pid → page_wf p → pm_page (pm_write pid p) pid = p.
Proof.
  intros Hp Ho. pose proof (pm_bounds pid Hp).
  unfold pm_page. simpl. apply mem_read_write_eq; by rewrite Ho.
Qed.

Lemma pm_page_write_ne pid pid' p :
  pm_has pm pid → page_wf p → 0 ≤ pid' → pid ≠ pid' →
  pm_page (pm_write pid p) pid' = pm_page pm pid'.
Proof.
  intros Hp Ho ? ?. pose proof (pm_bounds pid Hp).
  unfold pm_page. simpl. apply mem_read_write_ne; [by rewrite Ho|pm_lia..].
Qed.

(** The state after a successful [AllocatePage]. *)
Definition pm_grow : PageManager :=
  WriteFileHeader
    (mkPM (fs_set_data (file_ pm) (fs_data (file_ pm) ++ blank_page))
       (page_count_ pm + 1) (page_count_ pm + 1)).

Lemma AllocatePage_ok :
  page_count_ pm < 2 ^ 31 - 1 → AllocatePage pm = (Ok (page_count_ pm), pm_grow).
Proof.
  intros ?. pose proof (wf_count pm Hwf). unfold AllocatePage. cbn [file_ pm_set_file].
  rewrite (wf_next pm Hwf).
  rewrite fs_write_at_ok by (apply Hwf || pm_lia).
  unfold OffsetOf. rewrite <- (wf_length pm Hwf), file_write_end.
  rewrite fs_good_set_data, (wf_good pm Hwf). cbn [negb].
  unfold pm_grow, pm_set_file. simpl. rewrite i32_small, u64_small by blia. done.
Qed.
End pages.

Lemma page_wf_EncodeHeaderPage n c : page_wf (EncodeHeaderPage n c).
Proof.
  unfold EncodeHeaderPage. repeat apply page_wf_WriteFixed; [apply page_wf_blank|pm_lia..].
Qed.

Lemma Decode_EncodeHeaderPage n c :
  in_i32 n → in_u32 c → DecodeHeaderPage (EncodeHeaderPage n c) = (n, c).
Proof.
  intros ??. unfold DecodeHeaderPage, EncodeHeaderPage.
  pose proof page_wf_blank as Hb.
  assert (page_wf (WriteFixed 4 blank_page 0 n)) by (apply page_wf_WriteFixed; [done|pm_lia]).
  f_equal.
  - rewrite ReadS_WriteFixed_ne by pm_lia. apply ReadS_WriteFixed_eq; pm_lia.
  - rewrite ReadU_WriteFixed_eq by pm_lia. rewrite u32_small by done. apply Z.mod_small. pm_lia.
Qed.

Lemma WriteFileHeader_wf pm :
  pm_wf pm →
  WriteFileHeader pm = pm_write pm kHeaderPageId (EncodeHeaderPage (next_page_id_ pm) (page_count_ pm)) ∧
  pm_wf (WriteFileHeader pm) ∧ pm_header_ok (WriteFileHeader pm).
Proof.
  intros Hwf. pose proof (wf_count pm Hwf).
  assert (pm_has pm kHeaderPageId) by pm_lia.
  pose proof (page_wf_EncodeHeaderPage (next_page_id_ pm) (page_count_ pm)) as Hp.
  assert (WriteFileHeader pm =
    pm_write pm kHeaderPageId (EncodeHeaderPage (next_page_id_ pm) (page_count_ pm))) as ->.
  { unfold WriteFileHeader, pm_write. rewrite fs_write_at_ok by (apply Hwf || pm_lia).
    rewrite file_write_in; [done|]. rewrite Hp. by apply pm_bounds. }
  split_and!; [done|by apply pm_write_wf|].
  unfold pm_header_ok. rewrite pm_page_write_eq by done. simpl.
  rewrite (wf_next pm Hwf). apply Decode_EncodeHeaderPage; blia.
Qed.

Lemma pm_grow_spec pm :
  pm_wf pm → page_count_ pm < 2 ^ 31 - 1 →
  pm_wf (pm_grow pm) ∧ pm_header_ok (pm_grow pm) ∧
  page_count_ (pm_grow pm) = page_count_ pm + 1 ∧
  pm_page (pm_grow pm) (page_count_ pm) = blank_page ∧
  (∀ pid, 1 ≤ pid < page_count_ pm → pm_page (pm_grow pm) pid = pm_page pm pid).
Proof.
  intros Hwf ?. pose proof (wf_count pm Hwf).
  set (pm1 := mkPM (fs_set_data (file_ pm) (fs_data (file_ pm) ++ blank_page))
                (page_count_ pm + 1) (page_count_ pm + 1)).
  assert (pm_wf pm1) as Hwf1.
  { destruct Hwf as [? ? ? Hl ? ?]. split; try done; simpl; try lia.
    rewrite blen_app, Hl, page_wf_blank. lia. }
  destruct (WriteFileHeader_wf pm1 Hwf1) as (E & ? & ?).
  change (pm_grow pm) with (WriteFileHeader pm1).
  split_and!; [assumption|assumption|reflexivity| |].
  - rewrite E. rewrite pm_page_write_ne
      by first [done|apply page_wf_EncodeHeaderPage|unfold pm1, pm_has; simpl; pm_lia].
    unfold pm_page. simpl. rewrite mem_read_app_r by (rewrite (wf_length pm Hwf); pm_lia).
    rewrite (wf_length pm Hwf). unfold OffsetOf. rewrite Z.sub_diag.
    by apply mem_read_full.
  - intros pid ?. rewrite E. rewrite pm_page_write_ne
      by first [done|apply page_wf_EncodeHeaderPage|unfold pm1, pm_has; simpl; pm_lia].
    unfold pm_page. simpl. apply mem_read_app_l. rewrite (wf_length pm Hwf). pm_lia.
Qed.

(** ** Lemmas: opening *)

Lemma PageManager_create :
  PageManager_open None =
    WriteFileHeader (mkPM (mkFstream [] true false false false true) 1 1).
Proof. done. Qed.

Lemma PageManager_create_wf :
  pm_wf (PageManager_open None) ∧ pm_header_ok (PageManager_open None) ∧
  page_count_ (PageManager_open None) = 1.
Proof.
  pose proof (page_wf_EncodeHeaderPage 1 1) as Hp.
  assert (fs_data (file_ (PageManager_open None)) = EncodeHeaderPage 1 1) as Hd.
  { change (file_write [] (blen []) (EncodeHeaderPage 1 1) = EncodeHeaderPage 1 1).
    by rewrite file_write_end. }
  assert (pm_wf (PageManager_open None)) as Hwf.
  { split; [reflexivity..|by rewrite Hd, Hp|reflexivity|split; done]. }
  split_and!; [done| |done].
  unfold pm_header_ok, pm_page. rewrite Hd. rewrite mem_read_full by (by rewrite Hp).
  change (DecodeHeaderPage (EncodeHeaderPage 1 1) = (1, 1)).
  apply Decode_EncodeHeaderPage; blia.
Qed.

Lemma PageManager_reopen pm :
  pm_wf pm → pm_header_ok pm →
  PageManager_open (Some (fs_data (file_ pm))) =
  mkPM (mkFstream (fs_data (file_ pm)) true false false false true)
    (next_page_id_ pm) (page_count_ pm).
Proof.
  intros Hwf Hh. pose proof (wf_count pm Hwf).
  assert (pm_has pm kHeaderPageId) as Hp by pm_lia.
  unfold PageManager_open, ReadFileHeader. cbn [file_ default from_option].
  rewrite fs_read_at_ok; [|done|by apply pm_bounds].
  change (mem_read _ _ _) with (pm_page pm kHeaderPageId).
  rewrite fill_page_full; [|apply page_wf_blank|by apply page_wf_pm_page].
  by rewrite Hh.
Qed.

Lemma PageManager_close_open pm :
  pm_wf pm →
  let pm' := PageManager_open (Some (PageManager_close pm)) in
  pm_wf pm' ∧ page_count_ pm' = page_count_ pm ∧ next_page_id_ pm' = next_page_id_ pm ∧
  ∀ q, 1 ≤ q < page_count_ pm → pm_page pm' q = pm_page pm q.
Proof.
  intros Hwf pm'. pose proof (wf_count pm Hwf).
  destruct (WriteFileHeader_wf pm Hwf) as (E & Hwf1 & Hh1).
  assert (pm' = mkPM (mkFstream (fs_data (file_ (WriteFileHeader pm))) true false false false true)
                  (next_page_id_ pm) (page_count_ pm)) as ->.
  { unfold pm', PageManager_close. rewrite (wf_open pm Hwf).
    by rewrite (PageManager_reopen (WriteFileHeader pm)). }
  split_and!; [|done|done|].
  - destruct Hwf1. by split.
  - intros q ?. transitivity (pm_page (WriteFileHeader pm) q); [done|].
    rewrite E. apply pm_page_write_ne; [done|pm_lia|apply page_wf_EncodeHeaderPage|pm_lia..].
Qed.

(** A page manager with two data pages, the second one written. *)
Definition sample_pm : PageManager :=
  (WritePage 2 (replicate (Z.to_nat kPageSize) Init.Byte.x61)
     (AllocatePage (AllocatePage (PageManager_open None)).2).2).2.

Lemma sample_pm_wf : pm_wf sample_pm.
Proof. by split; vm_compute. Qed.

(** ** Properties *)

(** In an open, healthy page file a page that exists can be written and
    read back, the write leaves every other page alone and keeps the file
    well formed; a page id outside the file is refused by both operations
    and nothing changes. *)
Theorem page_manager_read_write pm pid p out :
  pm_wf pm → page_wf p → page_wf out →
  (pm_has pm pid →
    ∃ pm', WritePage pid p pm = (Status_OK, pm') ∧ pm_wf pm' ∧
      page_count_ pm' = page_count_ pm ∧
      ReadPage pid out pm' = (Status_OK, p, pm') ∧
      (∀ q, pm_has pm q → q ≠ pid →
         ∃ c, ReadPage q out pm = (Status_OK, c, pm) ∧ ReadPage q out pm' = (Status_OK, c, pm'))) ∧
  (¬ pm_has pm pid →
    WritePage pid p pm = (InvalidArgument "WritePage: page_id out of range", pm) ∧
    ReadPage pid out pm = (InvalidArgument "ReadPage: page_id out of range", out, pm)).
Proof.
  intros Hwf Hp Ho. split.
  - intros Hh. pose proof (pm_write_wf pm Hwf pid p Hh Hp) as Hwf'.
    exists (pm_write pm pid p). split_and!; try done.
    + by apply WritePage_ok.
    + rewrite ReadPage_ok by done. by rewrite pm_page_write_eq.
    + intros q Hq ?. exists (pm_page pm q). split; [by apply ReadPage_ok|].
      rewrite ReadPage_ok by done. rewrite pm_page_write_ne by (done || pm_lia). done.
  - intros Hn. split; [|by apply ReadPage_out_of_range].
    unfold WritePage. destruct ((pid <? 0) || (pid >=? page_count_ pm)) eqn:E; [done|].
    zbool. unfold pm_has in Hn. lia.
Qed.

Lemma page_manager_read_write_witness :
  ∃ pm', WritePage 1 blank_page sample_pm = (Status_OK, pm') ∧
         ReadPage 1 blank_page pm' = (Status_OK, blank_page, pm').
Proof.
  destruct (page_manager_read_write sample_pm 1 blank_page blank_page sample_pm_wf
              page_wf_blank page_wf_blank) as [H _].
  destruct H as (pm' & ? & _ & _ & ? & _); [|eauto].
  assert (page_count_ sample_pm = 3) as Hc by (vm_compute; reflexivity).
  unfold pm_has. rewrite Hc. lia.
Defined.

(** Allocation hands out the next page id, which was not a page before,
    as a blank page, keeps every existing data page, and leaves the header on
    disk describing the new state, so that a process that stops right after
    it finds the page when the file is opened again. *)
Theorem page_manager_allocate pm :
  pm_wf pm → page_count_ pm < 2 ^ 31 - 1 →
  ∃ pm', AllocatePage pm = (Ok (page_count_ pm), pm') ∧ pm_wf pm' ∧
    ¬ pm_has pm (page_count_ pm) ∧ pm_has pm' (page_count_ pm) ∧
    pm_page pm' (page_count_ pm) = blank_page ∧
    (∀ q, 1 ≤ q < page_count_ pm → pm_page pm' q = pm_page pm q) ∧
    (let pm2 := PageManager_open (Some (fs_data (file_ pm'))) in
     pm_wf pm2 ∧ page_count_ pm2 = page_count_ pm + 1 ∧
     ∀ q, pm_page pm2 q = pm_page pm' q).
Proof.
  intros Hwf Hc. destruct (pm_grow_spec pm Hwf Hc) as (Hwf' & Hh & Hcnt & Hb & Ho).
  pose proof (wf_count pm Hwf).
  exists (pm_grow pm). split_and!; try assumption.
  - by apply AllocatePage_ok.
  - unfold pm_has. lia.
  - unfold pm_has. lia.
  - cbv zeta. rewrite PageManager_reopen by done.
    split_and!; [|done|done]. destruct Hwf'. by split.
Qed.

Lemma page_manager_allocate_witness :
  ∃ pm', AllocatePage sample_pm = (Ok 3, pm') ∧ pm_page pm' 3 = blank_page.
Proof.
  assert (page_count_ sample_pm = 3) as Hc by (vm_compute; reflexivity).
  pose proof (page_manager_allocate sample_pm sample_pm_wf) as H. rewrite Hc in H.
  destruct (H eq_refl) as (pm' & ? & _ & _ & _ & ? & _). eauto.
Defined.

(** C32: closing a page file and opening it again gives the same pages: the
    same number of them, with the same next page id and the same contents of
    every data page. *)
Theorem page_manager_reopen_roundtrip pm :
  pm_wf pm →
  let pm' := PageManager_open (Some (PageManager_close pm)) in
  pm_wf pm' ∧ page_count_ pm' = page_count_ pm ∧ next_page_id_ pm' = next_page_id_ pm ∧
  ∀ q, 1 ≤ q < page_count_ pm → pm_page pm' q = pm_page pm q.
Proof. exact (PageManager_close_open pm). Qed.

Lemma page_manager_reopen_roundtrip_witness :
  pm_page (PageManager_open (Some (PageManager_close sample_pm))) 2 = pm_page sample_pm 2.
Proof.
  assert (page_count_ sample_pm = 3) as Hc by (vm_compute; reflexivity).
  apply (page_manager_reopen_roundtrip sample_pm sample_pm_wf). rewrite Hc. lia.
Defined.

(** An existing file shorter than one page (as a crash between creating
    the file and writing its header leaves it) is opened with the stream's
    fail bit set and the count 0; every page id is then out of range and no
    page can ever be allocated. *)
Theorem page_manager_short_file_unusable d out pid :
  blen d < kPageSize → page_count_ (PageManager_open (Some d)) = 0 →
  (∃ pm', AllocatePage (PageManager_open (Some d)) =
            (Err (IOError "failed to extend data file for new page"), pm') ∧
          fs_data (file_ pm') = d) ∧
  ReadPage pid out (PageManager_open (Some d)) =
    (InvalidArgument "ReadPage: page_id out of range", out, PageManager_open (Some d)).
Proof.
  intros Hlen Hc.
  assert (fs_fail (file_ (PageManager_open (Some d))) = true ∧
          fs_data (file_ (PageManager_open (Some d))) = d) as [Hf Hd].
  { unfold PageManager_open, ReadFileHeader. cbn [file_].
    rewrite fs_read_at_short by (reflexivity || (cbn [fs_data]; simpl; pm_lia)).
    split; reflexivity. }
  generalize dependent (PageManager_open (Some d)). intros pm Hc Hf Hd. split.
  - unfold AllocatePage. cbn [file_ pm_set_file].
    rewrite fs_write_at_failed, fs_good_failed by done. cbn [negb].
    eexists. split; [reflexivity|]. exact Hd.
  - apply ReadPage_out_of_range. unfold pm_has. lia.
Qed.

Lemma page_manager_short_file_unusable_witness :
  ∃ pm', AllocatePage (PageManager_open (Some [])) =
    (Err (IOError "failed to extend data file for new page"), pm').
Proof.
  destruct (page_manager_short_file_unusable [] blank_page 1) as [(pm' & ? & _) _];
    [done|by vm_compute|eauto].
Defined.
