(* ===== verification/PageStore.v ===== *)
(** * The interface between the buffer pool and its clients

    Heap files and the B+ tree reach pages only through
    [FetchPage]/[NewPage]/[UnpinPage] and the pointers these return, and write
    them out with [FlushPage] and [FlushAll].
    [PageStore] names those operations; [PageStoreSpec] states what they
    promise in terms of an abstract store: how many pages there are, the
    contents of each, how often each is pinned, and how many frames are free to
    pin another.  [BufferPool] provides the instance; the clients' theorems are
    proved against the interface. *)

From stdpp Require Import functions.
From S2P Require Import Prelude Util.

(** A [Page*] is the index of the frame it points into. *)
Class PageStore (S : Type) := {
  ps_fetch : Z → S → option nat * S;
  ps_new : S → option (Z * nat) * S;
  ps_unpin : Z → bool → S → bool * S;
  ps_get : nat → S → Page;
  ps_set : nat → Page → S → S;
  ps_flush_page : Z → S → Status * S;
  ps_flush : S → Status * S
}.

(** The abstract store.  [ps_at s p f]: page [p] is pinned in frame [f].
    [ps_synced s p]: forgetting the frame of [p] loses nothing, because the
    frame is marked dirty or equals the page on disk. *)
Class PageStoreView (S : Type) := {
  ps_wf : S → Prop;
  ps_count : S → Z;
  ps_avail : S → Z;
  ps_view : S → Z → Page;
  ps_pin : S → Z → Z;
  ps_at : S → Z → nat → Prop;
  ps_synced : S → Z → Prop
}.

(** Every page but [p] is as it was. *)
Record ps_frame {S} `{PageStoreView S} (p : Z) (s s' : S) : Prop := {
  psf_count : ps_count s ≤ ps_count s';
  psf_view : ∀ q, 1 ≤ q < ps_count s → q ≠ p → ps_view s' q = ps_view s q;
  psf_pin : ∀ q, q ≠ p → ps_pin s' q = ps_pin s q;
  psf_synced : ∀ q, q ≠ p → ps_synced s q → ps_synced s' q;
  psf_at : ∀ q f, q ≠ p → ps_at s q f → ps_at s' q f
}.

Class PageStoreSpec (S : Type) `{PageStore S, PageStoreView S} : Prop := {
  ps_view_wf : ∀ s p, ps_wf s → 1 ≤ p < ps_count s → page_wf (ps_view s p);
  ps_count_range : ∀ s, ps_wf s → 1 ≤ ps_count s < 2 ^ 31;
  ps_pin_nonneg : ∀ s p, ps_wf s → 0 ≤ ps_pin s p;
  ps_idle_synced : ∀ s p, ps_wf s → ps_pin s p = 0 → ps_synced s p;
  ps_at_get : ∀ s p f, ps_wf s → ps_at s p f →
    1 ≤ p < ps_count s ∧ 0 < ps_pin s p ∧ ps_get f s = ps_view s p;
  ps_fetch_ok : ∀ s p, ps_wf s → 1 ≤ p < ps_count s → ps_pin s p < 2 ^ 31 - 1 →
    0 < ps_pin s p ∨ 0 < ps_avail s →
    ∃ f s', ps_fetch p s = (Some f, s') ∧ ps_wf s' ∧ ps_frame p s s' ∧
      ps_count s' = ps_count s ∧ ps_view s' p = ps_view s p ∧
      ps_pin s' p = ps_pin s p + 1 ∧ ps_at s' p f ∧ (ps_synced s p → ps_synced s' p) ∧
      ps_avail s' = ps_avail s - (if decide (ps_pin s p = 0) then 1 else 0);
  ps_fetch_fails : ∀ s p, ps_wf s →
    p < 0 ∨ ps_count s ≤ p ∨ (ps_pin s p = 0 ∧ ps_avail s = 0) →
    ∃ s', ps_fetch p s = (None, s') ∧ ps_wf s' ∧ ps_frame p s s' ∧
      ps_count s' = ps_count s ∧ ps_pin s' p = ps_pin s p ∧ ps_avail s' = ps_avail s ∧
      (1 ≤ p < ps_count s → ps_view s' p = ps_view s p) ∧ (ps_synced s p → ps_synced s' p);
  ps_new_ok : ∀ s, ps_wf s → ps_count s < 2 ^ 31 - 1 → 0 < ps_avail s →
    ∃ f s', ps_new s = (Some (ps_count s, f), s') ∧ ps_wf s' ∧ ps_frame (ps_count s) s s' ∧
      ps_count s' = ps_count s + 1 ∧ ps_view s' (ps_count s) = blank_page ∧
      ps_pin s' (ps_count s) = 1 ∧ ps_at s' (ps_count s) f ∧ ps_synced s' (ps_count s) ∧
      ps_avail s' = ps_avail s - 1;
  ps_new_full : ∀ s, ps_wf s → ps_count s < 2 ^ 31 - 1 → ps_avail s = 0 →
    ∃ s', ps_new s = (None, s') ∧ ps_wf s' ∧ ps_frame (ps_count s) s s' ∧
      ps_count s' = ps_count s + 1 ∧ ps_view s' (ps_count s) = blank_page ∧
      ps_pin s' (ps_count s) = 0 ∧ ps_avail s' = ps_avail s;
  ps_set_ok : ∀ s p f pg, ps_wf s → ps_at s p f → page_wf pg →
    let s' := ps_set f pg s in
    ps_wf s' ∧ ps_frame p s s' ∧ ps_count s' = ps_count s ∧ ps_view s' p = pg ∧
    ps_pin s' p = ps_pin s p ∧ ps_at s' p f ∧ ps_avail s' = ps_avail s;
  ps_unpin_ok : ∀ s p f d, ps_wf s → ps_at s p f → d = true ∨ ps_synced s p →
    ∃ s', ps_unpin p d s = (true, s') ∧ ps_wf s' ∧ ps_frame p s s' ∧
      ps_count s' = ps_count s ∧ ps_view s' p = ps_view s p ∧
      ps_pin s' p = ps_pin s p - 1 ∧ ps_synced s' p ∧ (1 < ps_pin s p → ps_at s' p f) ∧
      ps_avail s' = ps_avail s + (if decide (ps_pin s p = 1) then 1 else 0);
  ps_flush_page_ok : ∀ s p f, ps_wf s → ps_at s p f →
    ∃ s', ps_flush_page p s = (Status_OK, s') ∧ ps_wf s' ∧ (∀ q, ps_frame q s s') ∧
      ps_count s' = ps_count s ∧ ps_avail s' = ps_avail s ∧ ps_synced s' p;
  ps_flush_ok : ∀ s, ps_wf s →
    ∃ s', ps_flush s = (Status_OK, s') ∧ ps_wf s' ∧ (∀ p, ps_frame p s s') ∧
      ps_count s' = ps_count s ∧ ps_avail s' = ps_avail s;
  ps_avail_nonneg : ∀ s, ps_wf s → 0 ≤ ps_avail s
}.

(** A store between two operations of a client: nothing is pinned. *)
Record ps_idle {S} `{PageStoreView S} (s : S) : Prop := {
  idle_wf : ps_wf s;
  idle_pin : ∀ p, ps_pin s p = 0;
  idle_avail : 0 < ps_avail s
}.

(** The contents of the pages, up to which a client sees the store. *)
Definition ps_upd {S} `{PageStoreView S} (s : S) (p : Z) (pg : Page) (s' : S) : Prop :=
  ps_count s' = ps_count s ∧ ps_view s' p = pg ∧
  ∀ q, 1 ≤ q < ps_count s → q ≠ p → ps_view s' q = ps_view s q.

(** Two stores with the same pages. *)
Definition ps_eqv {S} `{PageStoreView S} (s s' : S) : Prop :=
  ps_count s' = ps_count s ∧ ∀ q, 1 ≤ q < ps_count s → ps_view s' q = ps_view s q.

#[export] Instance ps_eqv_equiv {S} `{PageStoreView S} : Equivalence (ps_eqv (S := S)).
Proof.
  split.
  - by intros s.
  - intros s s' [Hc Hv]. split; [done|]. intros q Hq. symmetry. apply Hv. lia.
  - intros s1 s2 s3 [Hc Hv] [Hc' Hv']. split; [lia|]. intros q Hq.
    rewrite Hv', Hv by lia. done.
Qed.

Lemma ps_upd_same {S} `{PageStoreView S} (s s' : S) p :
  ps_upd s p (ps_view s p) s' → ps_eqv s s'.
Proof.
  intros (Hc & Hp & Hv). split; [done|]. intros q Hq.
  destruct (decide (q = p)) as [->|]; [done|by apply Hv].
Qed.

Lemma ps_eqv_upd {S} `{PageStoreView S} (s1 s2 s3 : S) p pg :
  ps_eqv s1 s2 → ps_upd s2 p pg s3 → ps_upd s1 p pg s3.
Proof.
  intros [Hc Hv] (Hc' & Hp & Hv'). split_and!; [lia|done|]. intros q ??.
  rewrite Hv', Hv by (done || lia). done.
Qed.

Section client.
Context {S : Type} `{PageStoreSpec S}.
Implicit Types s : S.

Lemma ps_frame_pin_idle p s s' :
  (∀ q, ps_pin s q = 0) → ps_frame p s s' → ∀ q, q ≠ p → ps_pin s' q = 0.
Proof. intros Hi Hf q Hq. by rewrite (psf_pin _ _ _ Hf). Qed.

(** Fetch a page of an idle store. *)
Lemma idle_fetch s p :
  ps_idle s → 1 ≤ p < ps_count s →
  ∃ f s', ps_fetch p s = (Some f, s') ∧ ps_wf s' ∧ ps_at s' p f ∧ ps_get f s' = ps_view s p ∧
    ps_synced s' p ∧ ps_pin s' p = 1 ∧ (∀ q, q ≠ p → ps_pin s' q = 0) ∧
    ps_avail s' = ps_avail s - 1 ∧ ps_upd s p (ps_view s p) s'.
Proof.
  intros [Hwf Hpin Hav] Hp.
  destruct (ps_fetch_ok s p Hwf Hp) as (f & s' & E & Hwf' & Hfr & Hc & Hv & Hpp & Hat & Hsy & Ha).
  { rewrite Hpin. lia. }
  { by right. }
  exists f, s'. rewrite Hpin in *. rewrite decide_True in Ha by done.
  destruct (ps_at_get s' p f Hwf' Hat) as (_ & _ & Hg).
  split_and!; try done; try congruence.
  - apply Hsy. by apply ps_idle_synced.
  - by eapply ps_frame_pin_idle.
  - split_and!; [done..|]. apply (psf_view _ _ _ Hfr).
Qed.

(** Give back the only pinned page. *)
Lemma last_unpin s p f d :
  ps_wf s → ps_at s p f → ps_pin s p = 1 → (∀ q, q ≠ p → ps_pin s q = 0) → 0 ≤ ps_avail s →
  d = true ∨ ps_synced s p →
  ∃ s', ps_unpin p d s = (true, s') ∧ ps_idle s' ∧ ps_avail s' = ps_avail s + 1 ∧
    ps_upd s p (ps_view s p) s'.
Proof.
  intros Hwf Hat Hp1 Hq Hav Hd.
  destruct (ps_unpin_ok s p f d Hwf Hat Hd) as (s' & E & Hwf' & Hfr & Hc & Hv & Hpp & _ & _ & Ha).
  rewrite decide_True in Ha by done. exists s'. unfold ps_upd. split_and!; try done; [split; [done| |lia]|].
  - intros q. destruct (decide (q = p)) as [->|Hqp]; [lia|].
    rewrite (psf_pin _ _ _ Hfr) by done. by apply Hq.
  - apply (psf_view _ _ _ Hfr).
Qed.

(** Read a page: fetch it, look at it, unpin it clean. *)
Lemma read_page s p :
  ps_idle s → 1 ≤ p < ps_count s →
  ∃ f s1 s2, ps_fetch p s = (Some f, s1) ∧ ps_get f s1 = ps_view s p ∧
    ps_unpin p false s1 = (true, s2) ∧ ps_idle s2 ∧
    ps_avail s2 = ps_avail s ∧ ps_eqv s s2.
Proof.
  intros Hi Hp.
  destruct (idle_fetch s p Hi Hp) as (f & s1 & E & Hwf & Hat & Hg & Hsy & Hp1 & Hq & Ha & Hu).
  destruct (last_unpin s1 p f false) as (s2 & E2 & Hi2 & Ha2 & Hu2); try done.
  { destruct Hi. lia. }
  { by right. }
  exists f, s1, s2. split_and!; try done; try lia.
  apply ps_upd_same in Hu, Hu2. by transitivity s1.
Qed.

(** Write a page: fetch it, replace its contents, unpin it dirty. *)
Lemma write_page s p pg :
  ps_idle s → 1 ≤ p < ps_count s → page_wf pg →
  ∃ f s1 s2, ps_fetch p s = (Some f, s1) ∧ ps_get f s1 = ps_view s p ∧
    ps_unpin p true (ps_set f pg s1) = (true, s2) ∧ ps_idle s2 ∧
    ps_avail s2 = ps_avail s ∧ ps_upd s p pg s2.
Proof.
  intros Hi Hp Hpg.
  destruct (idle_fetch s p Hi Hp) as (f & s1 & E & Hwf & Hat & Hg & _ & Hp1 & Hq & Ha & Hu).
  destruct (ps_set_ok s1 p f pg Hwf Hat Hpg) as (Hwf' & Hfr & Hc & Hv & Hpp & Hat' & Ha').
  destruct (last_unpin (ps_set f pg s1) p f true) as (s2 & E2 & Hi2 & Ha2 & Hu2); try done.
  { congruence. }
  { intros q Hne. rewrite (psf_pin _ _ _ Hfr) by done. by apply Hq. }
  { destruct Hi. lia. }
  { by left. }
  exists f, s1, s2. unfold ps_upd in *. destruct Hu as (? & Hv1 & Hu1), Hu2 as (? & Hv2 & Hu2).
  split_and!; try done; try congruence; try lia.
  intros q ??. rewrite Hu2, (psf_view _ _ _ Hfr), Hu1; (done || lia).
Qed.

(** Extend the store by a page, fill it and unpin it dirty. *)
Lemma create_page s pg :
  ps_idle s → ps_count s < 2 ^ 31 - 1 → page_wf pg →
  ∃ f s1 s2, ps_new s = (Some (ps_count s, f), s1) ∧ ps_get f s1 = blank_page ∧
    ps_unpin (ps_count s) true (ps_set f pg s1) = (true, s2) ∧ ps_idle s2 ∧
    ps_avail s2 = ps_avail s ∧ ps_count s2 = ps_count s + 1 ∧
    ps_view s2 (ps_count s) = pg ∧
    (∀ q, 1 ≤ q < ps_count s → ps_view s2 q = ps_view s q).
Proof.
  intros [Hwf Hpin Hav] Hc Hpg.
  destruct (ps_new_ok s Hwf Hc Hav) as
    (f & s1 & E & Hwf1 & Hfr & Hc1 & Hv1 & Hp1 & Hat & _ & Ha).
  destruct (ps_at_get s1 _ f Hwf1 Hat) as (_ & _ & Hg).
  destruct (ps_set_ok s1 _ f pg Hwf1 Hat Hpg) as (Hwf' & Hfr' & Hc' & Hv & Hpp & Hat' & Ha').
  destruct (last_unpin (ps_set f pg s1) (ps_count s) f true) as (s2 & E2 & Hi2 & Ha2 & Hu2); try done.
  { congruence. }
  { intros q Hne. rewrite (psf_pin _ _ _ Hfr'), (psf_pin _ _ _ Hfr) by done. by apply Hpin. }
  { lia. }
  { by left. }
  destruct Hu2 as (? & Hv2 & Hu2).
  exists f, s1, s2. split_and!; try done; try congruence; try lia.
  intros q Hq. rewrite Hu2, (psf_view _ _ _ Hfr'), (psf_view _ _ _ Hfr); (done || lia).
Qed.

(** Fetching a page that does not exist. *)
Lemma idle_fetch_missing s p :
  ps_idle s → p < 0 ∨ ps_count s ≤ p →
  ∃ s', ps_fetch p s = (None, s') ∧ ps_idle s' ∧ ps_avail s' = ps_avail s ∧ ps_eqv s s'.
Proof.
  intros [Hwf Hpin Hav] Hp.
  destruct (ps_fetch_fails s p Hwf) as (s' & E & Hwf' & Hfr & Hc & Hpp & Ha & _); [tauto|].
  exists s'. split_and!; try done; try lia.
  - split; [done| |lia]. intros q. destruct (decide (q = p)) as [->|Hqp].
    + by rewrite Hpp.
    + by eapply ps_frame_pin_idle.
  - split; [done|]. intros q Hq. apply (psf_view _ _ _ Hfr); lia.
Qed.
End client.

(** ** Clients as sequences of commands

    A client keeps the pointer each fetch gave it and reads and writes the page
    through that pointer, however many other pages are fetched, evicted or
    flushed in between. *)

Inductive PoolCmd :=
  | CFetch (p : Z)
  | CNew
  | CRead (p : Z)
  | CWrite (p : Z) (pg : Page)
  | CUnpin (p : Z) (is_dirty : bool)
  | CFlushPage (p : Z)
  | CFlushAll.

Inductive PoolOut :=
  | OutPage (contents : option Page)
  | OutNew (id : option Z)
  | OutBool (b : bool)
  | OutStatus (st : Status)
  | OutUnit.

Definition run_cmd {S} `{PageStore S} (c : PoolCmd) (st : S * gmap Z nat) : PoolOut * (S * gmap Z nat) :=
  let '(s, ptrs) := st in
  match c with
  | CFetch p =>
      match ps_fetch p s with
      | (Some f, s') => (OutPage (Some (ps_get f s')), (s', <[p := f]> ptrs))
      | (None, s') => (OutPage None, (s', ptrs))
      end
  | CNew =>
      match ps_new s with
      | (Some (id, f), s') => (OutNew (Some id), (s', <[id := f]> ptrs))
      | (None, s') => (OutNew None, (s', ptrs))
      end
  | CRead p => (OutPage (option_map (λ f, ps_get f s) (ptrs !! p)), (s, ptrs))
  | CWrite p pg =>
      match ptrs !! p with
      | Some f => (OutUnit, (ps_set f pg s, ptrs))
      | None => (OutUnit, (s, ptrs))
      end
  | CUnpin p d => let '(b, s') := ps_unpin p d s in (OutBool b, (s', ptrs))
  | CFlushPage p => let '(status, s') := ps_flush_page p s in (OutStatus status, (s', ptrs))
  | CFlushAll => let '(status, s') := ps_flush s in (OutStatus status, (s', ptrs))
  end.

Fixpoint run_cmds {S} `{PageStore S} (cs : list PoolCmd) (st : S * gmap Z nat) :
    list PoolOut * (S * gmap Z nat) :=
  match cs with
  | [] => ([], st)
  | c :: cs' =>
      let '(o, st) := run_cmd c st in
      let '(os, st) := run_cmds cs' st in
      (o :: os, st)
  end.

(** The specification: an array of pages with pin counts.  [a_touched p]: page
    [p] was written since it was last unpinned as dirty or flushed. *)
Record AStore := mkAStore {
  a_count : Z;
  a_avail : Z;
  a_data : Z → Page;
  a_pin : Z → Z;
  a_touched : Z → bool
}.

(** What a client may do: page 0, the file header, is never fetched; a page is
    pinned at most 2^31 - 1 times at once; it is accessed and flushed only
    while pinned; a page written is flushed or unpinned as dirty. *)
Definition cmd_ok (c : PoolCmd) (a : AStore) : bool :=
  match c with
  | CFetch p => negb (p =? 0) && (a_pin a p <? 2 ^ 31 - 1)
  | CNew => a_count a <? 2 ^ 31 - 1
  | CRead p => 0 <? a_pin a p
  | CWrite p pg => (0 <? a_pin a p) && (blen pg =? kPageSize)
  | CUnpin p d => (0 <? a_pin a p) && (d || negb (a_touched a p))
  | CFlushPage p => 0 <? a_pin a p
  | CFlushAll => true
  end.

Definition a_step (c : PoolCmd) (a : AStore) : PoolOut * AStore :=
  match c with
  | CFetch p =>
      if (1 <=? p) && (p <? a_count a) && ((0 <? a_pin a p) || (0 <? a_avail a)) then
        (OutPage (Some (a_data a p)),
         mkAStore (a_count a) (a_avail a - (if decide (a_pin a p = 0) then 1 else 0)) (a_data a)
           (<[p := a_pin a p + 1]> (a_pin a)) (a_touched a))
      else (OutPage None, a)
  | CNew =>
      let n := a_count a in
      if 0 <? a_avail a then
        (OutNew (Some n), mkAStore (n + 1) (a_avail a - 1) (<[n := blank_page]> (a_data a))
                            (<[n := 1]> (a_pin a)) (<[n := false]> (a_touched a)))
      else
        (OutNew None, mkAStore (n + 1) (a_avail a) (<[n := blank_page]> (a_data a)) (a_pin a)
                        (<[n := false]> (a_touched a)))
  | CRead p => (OutPage (Some (a_data a p)), a)
  | CWrite p pg =>
      (OutUnit, mkAStore (a_count a) (a_avail a) (<[p := pg]> (a_data a)) (a_pin a)
                  (<[p := true]> (a_touched a)))
  | CUnpin p d =>
      (OutBool true, mkAStore (a_count a) (a_avail a + (if decide (a_pin a p = 1) then 1 else 0))
                       (a_data a) (<[p := a_pin a p - 1]> (a_pin a))
                       (<[p := false]> (a_touched a)))
  | CFlushPage p =>
      (OutStatus Status_OK, mkAStore (a_count a) (a_avail a) (a_data a) (a_pin a)
                              (<[p := false]> (a_touched a)))
  | CFlushAll => (OutStatus Status_OK, a)
  end.

Fixpoint a_run (cs : list PoolCmd) (a : AStore) : option (list PoolOut * AStore) :=
  match cs with
  | [] => Some ([], a)
  | c :: cs' =>
      if cmd_ok c a then
        let '(o, a) := a_step c a in
        match a_run cs' a with
        | Some (os, a) => Some (o :: os, a)
        | None => None
        end
      else None
  end.

(** *** The simulation *)

Record ps_sim {S} `{PageStoreView S} (st : S * gmap Z nat) (a : AStore) : Prop := {
  sim_wf : ps_wf st.1;
  sim_count : ps_count st.1 = a_count a;
  sim_avail : ps_avail st.1 = a_avail a;
  sim_view : ∀ p, 1 ≤ p < a_count a → ps_view st.1 p = a_data a p;
  sim_pin : ∀ p, ps_pin st.1 p = a_pin a p;
  sim_ptr : ∀ p, 0 < a_pin a p → ∃ f, st.2 !! p = Some f ∧ ps_at st.1 p f;
  sim_sync : ∀ p, a_touched a p = false → ps_synced st.1 p
}.

Section simulation.
Context {S : Type} `{PageStoreSpec S}.
Implicit Types s : S.

(** A step that concerns page [p] alone. *)
Lemma sim_step s ptrs a s' ptrs' a' p :
  ps_sim (s, ptrs) a → ps_wf s' → ps_frame p s s' →
  ps_count s' = a_count a' → ps_avail s' = a_avail a' → a_count a ≤ a_count a' →
  (∀ q, q ≠ p → a_data a' q = a_data a q ∧ a_pin a' q = a_pin a q ∧
     a_touched a' q = a_touched a q ∧ ptrs' !! q = ptrs !! q) →
  (∀ q, 1 ≤ q < a_count a' → q ≠ p → q < a_count a) →
  (1 ≤ p < a_count a' → ps_view s' p = a_data a' p) → ps_pin s' p = a_pin a' p →
  (0 < a_pin a' p → ∃ f, ptrs' !! p = Some f ∧ ps_at s' p f) →
  (a_touched a' p = false → ps_synced s' p) →
  ps_sim (s', ptrs') a'.
Proof.
  intros [Hwf Hc Ha Hv Hp Hat Hs] Hwf' Hfr Hc' Ha' Hle Hoth Hnew Hvp Hpp Hatp Hsp.
  simpl in *. split; simpl; try done.
  - intros q Hq. destruct (decide (q = p)) as [->|Hne]; [by apply Hvp|].
    destruct (Hoth q Hne) as (-> & _). specialize (Hnew q Hq Hne).
    rewrite (psf_view _ _ _ Hfr) by (done || lia). apply Hv. lia.
  - intros q. destruct (decide (q = p)) as [->|Hne]; [done|].
    destruct (Hoth q Hne) as (_ & -> & _). by rewrite (psf_pin _ _ _ Hfr).
  - intros q. destruct (decide (q = p)) as [->|Hne]; [done|].
    destruct (Hoth q Hne) as (_ & -> & _ & ->). intros (f & ? & ?)%Hat. exists f.
    split; [done|]. by apply (psf_at _ _ _ Hfr).
  - intros q. destruct (decide (q = p)) as [->|Hne]; [done|].
    destruct (Hoth q Hne) as (_ & _ & -> & _). intros ?. apply (psf_synced _ _ _ Hfr); auto.
Qed.

Ltac fn_simpl :=
  repeat first [rewrite fn_lookup_insert | rewrite fn_lookup_insert_ne by done
               | rewrite lookup_insert_ne by done | rewrite lookup_insert_eq].

Lemma sim_fetch p s ptrs a :
  ps_sim (s, ptrs) a → p ≠ 0 → a_pin a p < 2 ^ 31 - 1 →
  (run_cmd (CFetch p) (s, ptrs)).1 = (a_step (CFetch p) a).1 ∧
  ps_sim (run_cmd (CFetch p) (s, ptrs)).2 (a_step (CFetch p) a).2.
Proof.
  intros Hsim Hp0 Hmax. pose proof Hsim as [Hwf Hc Ha Hv Hp Hat Hs]. simpl in *.
  rewrite <- Hp in Hmax. rewrite <- Hc, <- Ha, <- Hp. destruct (_ && _ && _) eqn:E.
  - zbool. destruct (ps_fetch_ok s p Hwf) as
      (f & s' & Ef & Hwf' & Hfr & Hc' & Hv' & Hp' & Hat' & Hs' & Ha'); [lia|done|lia|].
    rewrite Ef. destruct (ps_at_get s' p f Hwf' Hat') as (_ & _ & Hg). simpl.
    split; [by rewrite Hg, Hv', Hv by lia|].
    eapply (sim_step s ptrs a s' _ _ p); simpl; try done; try lia.
    + intros q ?. by fn_simpl.
    + rewrite Hv'. intros ?. apply Hv. lia.
    + fn_simpl. lia.
    + intros _. exists f. by fn_simpl.
    + auto.
  - destruct (ps_fetch_fails s p Hwf) as (s' & Ef & Hwf' & Hfr & Hc' & Hp' & Ha' & Hv' & Hs').
    { pose proof (ps_pin_nonneg s p Hwf). pose proof (ps_avail_nonneg s Hwf). zbool. lia. }
    rewrite Ef. simpl. split; [done|].
    eapply (sim_step s ptrs a s' _ _ p); simpl; try done; try lia.
    + intros ?. rewrite Hv' by lia. apply Hv. lia.
    + by rewrite Hp'.
    + intros (f & ? & Hf)%Hat. exfalso.
      destruct (ps_at_get s p f Hwf Hf) as (? & ? & _). zbool. lia.
    + auto.
Qed.

Lemma sim_new s ptrs a :
  ps_sim (s, ptrs) a → a_count a < 2 ^ 31 - 1 →
  (run_cmd CNew (s, ptrs)).1 = (a_step CNew a).1 ∧
  ps_sim (run_cmd CNew (s, ptrs)).2 (a_step CNew a).2.
Proof.
  intros Hsim Hlt. pose proof Hsim as [Hwf Hc Ha Hv Hp Hat Hs]. simpl in *.
  rewrite <- Hc in Hlt |- *. rewrite <- Ha.
  pose proof (ps_count_range s Hwf). pose proof (ps_avail_nonneg s Hwf).
  destruct (Z.ltb_spec 0 (ps_avail s)) as [Hpos|Hz].
  - destruct (ps_new_ok s Hwf Hlt Hpos) as
      (f & s' & -> & Hwf' & Hfr & Hc' & Hv' & Hp' & Hat' & Hs' & Ha'). simpl. split; [done|].
    eapply (sim_step s ptrs a s' _ _ (ps_count s)); simpl; try done; try lia.
    + intros q ?. by fn_simpl.
    + intros _. by fn_simpl.
    + by fn_simpl.
    + intros _. exists f. by fn_simpl.
  - destruct (ps_new_full s Hwf Hlt ltac:(lia)) as
      (s' & -> & Hwf' & Hfr & Hc' & Hv' & Hp' & Ha'). simpl. split; [done|].
    assert (ps_pin s (ps_count s) = 0) as Hnp.
    { destruct (Z.eq_dec (ps_pin s (ps_count s)) 0); [done|]. exfalso.
      pose proof (ps_pin_nonneg s (ps_count s) Hwf). destruct (Hat (ps_count s)) as (f & _ & Hf).
      { rewrite <- Hp. lia. } destruct (ps_at_get s _ f Hwf Hf). lia. }
    eapply (sim_step s ptrs a s' _ _ (ps_count s)); simpl; try done; try lia.
    + intros q ?. by fn_simpl.
    + intros _. by fn_simpl.
    + rewrite <- Hp. lia.
    + rewrite <- Hp, Hnp. lia.
    + intros _. by apply ps_idle_synced.
Qed.

Lemma sim_write p pg s ptrs a :
  ps_sim (s, ptrs) a → 0 < a_pin a p → blen pg = kPageSize →
  ps_sim (run_cmd (CWrite p pg) (s, ptrs)).2 (a_step (CWrite p pg) a).2.
Proof.
  intros Hsim Hpos Hpg. pose proof Hsim as [Hwf Hc Ha Hv Hp Hat Hs]. simpl in *.
  destruct (Hat p Hpos) as (f & Hptr & Hf). rewrite Hptr.
  destruct (ps_set_ok s p f pg Hwf Hf Hpg) as (Hwf' & Hfr & Hc' & Hv' & Hp' & Hat' & Ha').
  eapply (sim_step s ptrs a _ _ _ p); simpl; try done; try lia.
  - intros q ?. by fn_simpl.
  - intros _. by fn_simpl.
  - by rewrite Hp'.
  - intros _. by exists f.
  - by fn_simpl.
Qed.

Lemma sim_unpin p d s ptrs a :
  ps_sim (s, ptrs) a → 0 < a_pin a p → d = true ∨ a_touched a p = false →
  (run_cmd (CUnpin p d) (s, ptrs)).1 = (a_step (CUnpin p d) a).1 ∧
  ps_sim (run_cmd (CUnpin p d) (s, ptrs)).2 (a_step (CUnpin p d) a).2.
Proof.
  intros Hsim Hpos Hd. pose proof Hsim as [Hwf Hc Ha Hv Hp Hat Hs]. simpl in *.
  destruct (Hat p Hpos) as (f & Hptr & Hf).
  destruct (ps_unpin_ok s p f d Hwf Hf) as (s' & -> & Hwf' & Hfr & Hc' & Hv' & Hp' & Hs' & Hat' & Ha').
  { destruct Hd; auto. }
  simpl. split; [done|]. rewrite Hp in *.
  eapply (sim_step s ptrs a s' _ _ p); simpl; try done; try lia.
  - intros q ?. by fn_simpl.
  - rewrite Hv'. intros ?. apply Hv. lia.
  - fn_simpl. lia.
  - fn_simpl. intros ?. exists f. split; [done|]. apply Hat'. lia.
Qed.

(** A step that leaves every page as it was. *)
Lemma sim_quiet s ptrs a s' :
  ps_sim (s, ptrs) a → ps_wf s' → (∀ q, ps_frame q s s') → ps_count s' = ps_count s →
  ps_avail s' = ps_avail s → ps_sim (s', ptrs) a.
Proof.
  intros [Hwf Hc Ha Hv Hp Hat Hs] Hwf' Hfr Hc' Ha'. simpl in *. split; simpl; try done; try lia.
  - intros q ?. rewrite (psf_view _ _ _ (Hfr (q + 1))) by lia. by apply Hv.
  - intros q. rewrite (psf_pin _ _ _ (Hfr (q + 1))) by lia. by apply Hp.
  - intros q (f & ? & ?)%Hat. exists f. split; [done|].
    apply (psf_at _ _ _ (Hfr (q + 1))); (done || lia).
  - intros q ?. apply (psf_synced _ _ _ (Hfr (q + 1))); [lia|auto].
Qed.

Lemma sim_flush_page p s ptrs a :
  ps_sim (s, ptrs) a → 0 < a_pin a p →
  (run_cmd (CFlushPage p) (s, ptrs)).1 = (a_step (CFlushPage p) a).1 ∧
  ps_sim (run_cmd (CFlushPage p) (s, ptrs)).2 (a_step (CFlushPage p) a).2.
Proof.
  intros Hsim Hpos. destruct (sim_ptr _ _ Hsim p Hpos) as (f & _ & Hf). cbn [fst] in Hf.
  destruct (ps_flush_page_ok s p f (sim_wf _ _ Hsim) Hf) as (s' & E & Hwf' & Hfr & Hc & Ha & Hsy).
  simpl. rewrite E. split; [done|].
  destruct (sim_quiet s ptrs a s' Hsim Hwf' Hfr Hc Ha) as [? ? ? ? ? ? Hs']. simpl in *. split; simpl; try done.
  intros q. destruct (decide (q = p)) as [->|]; [done|]. fn_simpl. apply Hs'.
Qed.

(** One legal command: the same output, and the states stay related. *)
Lemma sim_cmd c st a :
  ps_sim st a → cmd_ok c a = true →
  (run_cmd c st).1 = (a_step c a).1 ∧ ps_sim (run_cmd c st).2 (a_step c a).2.
Proof.
  destruct st as [s ptrs]. intros Hsim Hok. destruct c; unfold cmd_ok in Hok; zbool.
  - by apply sim_fetch; [| |lia].
  - by apply sim_new.
  - pose proof Hsim as [Hwf Hc Ha Hv Hp Hat Hs]. simpl in *.
    destruct (Hat p) as (f & -> & Hf); [lia|]. simpl. split; [|done].
    destruct (ps_at_get s p f Hwf Hf) as (? & _ & ->). rewrite Hv; (done || lia).
  - split; [|apply sim_write; (done || lia)].
    pose proof Hsim as [Hwf Hc Ha Hv Hp Hat Hs]. simpl in *.
    by destruct (Hat p) as (f & -> & Hf); [lia|].
  - apply sim_unpin; [done|lia|]. destruct is_dirty; [by left|right]. by destruct (a_touched a p).
  - by apply sim_flush_page.
  - destruct (ps_flush_ok s (sim_wf _ _ Hsim)) as (s' & E & Hwf' & Hfr & Hc' & Ha'). simpl. rewrite E.
    split; [done|]. by apply (sim_quiet s).
Qed.

Lemma sim_run cs st a os a' :
  ps_sim st a → a_run cs a = Some (os, a') →
  (run_cmds cs st).1 = os ∧ ps_sim (run_cmds cs st).2 a'.
Proof.
  induction cs as [|c cs IH] in st, a, os |- *; simpl; intros Hsim Hrun; [by simplify_eq|].
  destruct (cmd_ok c a) eqn:Hok; [|done].
  destruct (sim_cmd c st a Hsim Hok) as [Ho Hsim1].
  destruct (run_cmd c st) as [o st1], (a_step c a) as [o' a1]. simpl in *. subst o'.
  destruct (a_run cs a1) as [[os1 a2]|] eqn:E; [|done]. simplify_eq.
  destruct (IH st1 a1 os1 Hsim1 E) as [Hos Hsim2].
  destruct (run_cmds cs st1) as [os2 st2]. simpl in *. by subst.
Qed.
End simulation.
