(* ===== verification/BufferPool.v ===== *)
(** * Buffer pool: src/buffer

    [Iru_replacer.hpp] (the LRU list of unpinned frames), [frame.hpp] and
    [buffer_pool.hpp]/[buffer_pool.cpp].  A [Page*] the pool returns is the
    index of the frame it points into; a client reads and writes the page
    through [frame_page] and [set_frame_page].  Each operation runs under the
    pool's mutex, so it is one state transition.

    The abstract pool is [bp_view]: the contents of every page, whether it is
    cached or only on disk. *)

From S2P Require Import Prelude Util PageManager PageStore.

(** ** LRUReplacer *)

(** [position_] maps a frame to its node in [lru_list_]: the set of its keys;
    the node of a frame is the node holding it. *)
Record LRUReplacer := mkLRU {
  capacity_ : nat;
  lru_list_ : list nat;
  position_ : gset nat
}.

Definition lru_Unpin (frame_id : nat) (r : LRUReplacer) : LRUReplacer :=
  if decide (frame_id ∈ position_ r) then r
  else mkLRU (capacity_ r) (frame_id :: lru_list_ r) ({[frame_id]} ∪ position_ r).

Definition lru_Pin (frame_id : nat) (r : LRUReplacer) : LRUReplacer :=
  if decide (frame_id ∈ position_ r) then
    mkLRU (capacity_ r) (filter (λ g, g ≠ frame_id) (lru_list_ r))
      (position_ r ∖ {[frame_id]})
  else r.

Definition lru_Victim (r : LRUReplacer) : option nat * LRUReplacer :=
  match last (lru_list_ r) with
  | None => (None, r)
  | Some f =>
      (Some f, mkLRU (capacity_ r) (removelast (lru_list_ r)) (position_ r ∖ {[f]}))
  end.

Definition lru_Size (r : LRUReplacer) : nat := length (lru_list_ r).

(** ** Frames and the pool *)

(** [pin_count] is an [int]: its increment is written with its width.  (An
    overflow is undefined in C++; the theorems ask for fewer pins.) *)

Record Frame := mkFrame {
  fr_page : Page;
  fr_page_id : Z;
  fr_pin_count : Z;
  fr_is_dirty : bool
}.

Definition Frame_Reset : Frame := mkFrame blank_page kInvalidPageId 0 false.

Record BufferPool := mkBP {
  page_manager_ : PageManager;
  frames_ : list Frame;
  page_table_ : gmap Z nat;
  free_list_ : list nat;
  replacer_ : LRUReplacer;
  hit_count_ : Z;
  miss_count_ : Z
}.

Definition bp_set_pm (bp : BufferPool) (pm : PageManager) : BufferPool :=
  mkBP pm (frames_ bp) (page_table_ bp) (free_list_ bp) (replacer_ bp) (hit_count_ bp) (miss_count_ bp).
Definition bp_set_frame (bp : BufferPool) (f : nat) (fr : Frame) : BufferPool :=
  mkBP (page_manager_ bp) (<[f := fr]> (frames_ bp)) (page_table_ bp) (free_list_ bp)
    (replacer_ bp) (hit_count_ bp) (miss_count_ bp).
Definition bp_set_table (bp : BufferPool) (t : gmap Z nat) : BufferPool :=
  mkBP (page_manager_ bp) (frames_ bp) t (free_list_ bp) (replacer_ bp) (hit_count_ bp) (miss_count_ bp).
Definition bp_set_free (bp : BufferPool) (l : list nat) : BufferPool :=
  mkBP (page_manager_ bp) (frames_ bp) (page_table_ bp) l (replacer_ bp) (hit_count_ bp) (miss_count_ bp).
Definition bp_set_lru (bp : BufferPool) (r : LRUReplacer) : BufferPool :=
  mkBP (page_manager_ bp) (frames_ bp) (page_table_ bp) (free_list_ bp) r (hit_count_ bp) (miss_count_ bp).
Definition bp_set_stats (bp : BufferPool) (hits misses : Z) : BufferPool :=
  mkBP (page_manager_ bp) (frames_ bp) (page_table_ bp) (free_list_ bp) (replacer_ bp) hits misses.

(** [frames_[f]]. *)
Definition frame_at (bp : BufferPool) (f : nat) : Frame := default Frame_Reset (frames_ bp !! f).

(** ** Operations *)

Definition BufferPool_new (pm : PageManager) (pool_size : nat) : BufferPool :=
  mkBP pm (replicate pool_size Frame_Reset) ∅ (seq 0 pool_size)
    (mkLRU pool_size [] ∅) 0 0.

Definition FindVictimFrame (bp : BufferPool) : option nat * BufferPool :=
  match last (free_list_ bp) with
  | Some f => (Some f, bp_set_free bp (removelast (free_list_ bp)))
  | None =>
      let '(v, r) := lru_Victim (replacer_ bp) in
      (v, bp_set_lru bp r)
  end.

(** Write back and forget the page of a victim frame, then [frame.Reset()]. *)
Definition evict (f : nat) (bp : BufferPool) : BufferPool :=
  let frame := frame_at bp f in
  let bp :=
    if negb (fr_page_id frame =? kInvalidPageId) then
      let bp :=
        if fr_is_dirty frame then
          bp_set_pm bp (WritePage (fr_page_id frame) (fr_page frame) (page_manager_ bp)).2
        else bp in
      bp_set_table bp (delete (fr_page_id frame) (page_table_ bp))
    else bp in
  bp_set_frame bp f Frame_Reset.

Definition FetchPage (page_id : Z) (bp : BufferPool) : option nat * BufferPool :=
  match page_table_ bp !! page_id with
  | Some f =>
      let frame := frame_at bp f in
      let bp := if fr_pin_count frame =? 0 then bp_set_lru bp (lru_Pin f (replacer_ bp)) else bp in
      let bp := bp_set_frame bp f
                  (mkFrame (fr_page frame) (fr_page_id frame) (i32 (fr_pin_count frame + 1))
                     (fr_is_dirty frame)) in
      (Some f, bp_set_stats bp (u64 (hit_count_ bp + 1)) (miss_count_ bp))
  | None =>
      let bp := bp_set_stats bp (hit_count_ bp) (u64 (miss_count_ bp + 1)) in
      match FindVictimFrame bp with
      | (None, bp) => (None, bp)
      | (Some f, bp) =>
          let bp := evict f bp in
          let '(status, page, pm) := ReadPage page_id (fr_page (frame_at bp f)) (page_manager_ bp) in
          let bp := bp_set_pm bp pm in
          if negb (status_ok status) then
            let bp := bp_set_frame bp f (mkFrame page kInvalidPageId 0 false) in
            (None, bp_set_free bp (free_list_ bp ++ [f]))
          else
            let bp := bp_set_frame bp f (mkFrame page page_id 1 false) in
            (Some f, bp_set_table bp (<[page_id := f]> (page_table_ bp)))
      end
  end.

(** [NewPage(&page_id)]: the page id and the frame. *)
Definition NewPage (bp : BufferPool) : option (Z * nat) * BufferPool :=
  match AllocatePage (page_manager_ bp) with
  | (Err _, pm) => (None, bp_set_pm bp pm)
  | (Ok page_id, pm) =>
      let bp := bp_set_pm bp pm in
      match FindVictimFrame bp with
      | (None, bp) => (None, bp)
      | (Some f, bp) =>
          let bp := evict f bp in
          let bp := bp_set_frame bp f (mkFrame (fr_page (frame_at bp f)) page_id 1 true) in
          (Some (page_id, f), bp_set_table bp (<[page_id := f]> (page_table_ bp)))
      end
  end.

Definition UnpinPage (page_id : Z) (is_dirty : bool) (bp : BufferPool) : bool * BufferPool :=
  match page_table_ bp !! page_id with
  | None => (false, bp)
  | Some f =>
      let frame := frame_at bp f in
      if fr_pin_count frame <=? 0 then (false, bp)
      else
        let frame := mkFrame (fr_page frame) (fr_page_id frame) (fr_pin_count frame - 1)
                       (fr_is_dirty frame || is_dirty) in
        let bp := bp_set_frame bp f frame in
        (true, if fr_pin_count frame =? 0 then bp_set_lru bp (lru_Unpin f (replacer_ bp)) else bp)
  end.

Definition FlushPage (page_id : Z) (bp : BufferPool) : Status * BufferPool :=
  match page_table_ bp !! page_id with
  | None => (NotFound "FlushPage: page not resident", bp)
  | Some f =>
      let frame := frame_at bp f in
      let '(status, pm) := WritePage page_id (fr_page frame) (page_manager_ bp) in
      let bp := bp_set_pm bp pm in
      (status,
       if status_ok status then
         bp_set_frame bp f (mkFrame (fr_page frame) (fr_page_id frame) (fr_pin_count frame) false)
       else bp)
  end.

(** The loop of [FlushAll] over the entries of the page table, in the order
    [entries] (the hash map's iteration order is unspecified). *)
Fixpoint flush_entries (entries : list (Z * nat)) (bp : BufferPool) : Status * BufferPool :=
  match entries with
  | [] => (Status_OK, bp)
  | (page_id, f) :: entries' =>
      let frame := frame_at bp f in
      if fr_is_dirty frame then
        let '(status, pm) := WritePage page_id (fr_page frame) (page_manager_ bp) in
        let bp := bp_set_pm bp pm in
        if negb (status_ok status) then (status, bp)
        else
          flush_entries entries'
            (bp_set_frame bp f
               (mkFrame (fr_page frame) (fr_page_id frame) (fr_pin_count frame) false))
      else flush_entries entries' bp
  end.

Definition FlushAll (bp : BufferPool) : Status * BufferPool :=
  flush_entries (map_to_list (page_table_ bp)) bp.

Definition PoolSize (bp : BufferPool) : nat := length (frames_ bp).

(** What a client does through the pointer it got. *)
Definition frame_page (f : nat) (bp : BufferPool) : Page := fr_page (frame_at bp f).
Definition set_frame_page (f : nat) (p : Page) (bp : BufferPool) : BufferPool :=
  let frame := frame_at bp f in
  bp_set_frame bp f (mkFrame p (fr_page_id frame) (fr_pin_count frame) (fr_is_dirty frame)).

(** ** The abstract pool *)

Definition bp_has (bp : BufferPool) (p : Z) : Prop := 1 ≤ p < page_count_ (page_manager_ bp).

Definition bp_view (bp : BufferPool) (p : Z) : Page :=
  match page_table_ bp !! p with
  | Some f => frame_page f bp
  | None => pm_page (page_manager_ bp) p
  end.

Definition bp_pin (bp : BufferPool) (p : Z) : Z :=
  match page_table_ bp !! p with
  | Some f => fr_pin_count (frame_at bp f)
  | None => 0
  end.

(** How many more pages can be pinned. *)
Definition bp_avail (bp : BufferPool) : Z :=
  Z.of_nat (length (free_list_ bp) + length (lru_list_ (replacer_ bp))).

Definition bp_at (bp : BufferPool) (p : Z) (f : nat) : Prop :=
  page_table_ bp !! p = Some f ∧ 0 < fr_pin_count (frame_at bp f).

Definition bp_synced (bp : BufferPool) (p : Z) : Prop :=
  match page_table_ bp !! p with
  | Some f => fr_is_dirty (frame_at bp f) = true ∨ frame_page f bp = pm_page (page_manager_ bp) p
  | None => True
  end.

(** ** Invariant *)

Definition lru_wf (r : LRUReplacer) : Prop :=
  NoDup (lru_list_ r) ∧ ∀ f, f ∈ position_ r ↔ f ∈ lru_list_ r.

(** [held] is the frame an operation has taken and not yet filled or given
    back: [None] between operations. *)
Definition frame_ok (held : option nat) (bp : BufferPool) (f : nat) (fr : Frame) : Prop :=
  page_wf (fr_page fr) ∧
  (fr_page_id fr = kInvalidPageId →
     fr_pin_count fr = 0 ∧ (f ∉ lru_list_ (replacer_ bp)) ∧
     ((held = Some f ∧ (f ∉ free_list_ bp)) ∨ (held ≠ Some f ∧ f ∈ free_list_ bp))) ∧
  (fr_page_id fr ≠ kInvalidPageId →
     held ≠ Some f ∧ (f ∉ free_list_ bp) ∧ bp_has bp (fr_page_id fr) ∧ 0 ≤ fr_pin_count fr ∧
     (f ∈ lru_list_ (replacer_ bp) ↔ fr_pin_count fr = 0) ∧
     (fr_pin_count fr = 0 → fr_is_dirty fr = false →
        fr_page fr = pm_page (page_manager_ bp) (fr_page_id fr))).

Record bp_wf_held (held : option nat) (bp : BufferPool) : Prop := {
  bwf_pm : pm_wf (page_manager_ bp);
  bwf_lru : lru_wf (replacer_ bp);
  bwf_free : NoDup (free_list_ bp);
  bwf_frame : ∀ f fr, frames_ bp !! f = Some fr → frame_ok held bp f fr;
  bwf_lists : ∀ f, f ∈ free_list_ bp ∨ f ∈ lru_list_ (replacer_ bp) ∨ held = Some f →
                (f < length (frames_ bp))%nat;
  bwf_table : ∀ p f, page_table_ bp !! p = Some f ↔
                p ≠ kInvalidPageId ∧ ∃ fr, frames_ bp !! f = Some fr ∧ fr_page_id fr = p
}.

Abbreviation bp_wf := (bp_wf_held None).

(** ** The pool as a page store *)

#[export] Instance bp_store : PageStore BufferPool := {
  ps_fetch := FetchPage;
  ps_new := NewPage;
  ps_unpin := UnpinPage;
  ps_get := frame_page;
  ps_set := set_frame_page;
  ps_flush_page := FlushPage;
  ps_flush := FlushAll
}.

#[export] Instance bp_store_view : PageStoreView BufferPool := {
  ps_wf := bp_wf;
  ps_count := λ bp, page_count_ (page_manager_ bp);
  ps_avail := bp_avail;
  ps_view := bp_view;
  ps_pin := bp_pin;
  ps_at := bp_at;
  ps_synced := bp_synced
}.

(** ** Lemmas: the LRU list *)

Lemma removelast_snoc {A} (l : list A) x : removelast (l ++ [x]) = l.
Proof. apply removelast_last. Qed.

Lemma lru_Pin_spec r f :
  lru_wf r →
  lru_wf (lru_Pin f r) ∧ ∀ g, g ∈ lru_list_ (lru_Pin f r) ↔ g ∈ lru_list_ r ∧ g ≠ f.
Proof.
  intros [Hnd Hpos]. unfold lru_Pin. case_decide as Hf; simpl.
  - split; [split; simpl|].
    + by apply NoDup_filter.
    + intros g. rewrite list_elem_of_filter, elem_of_difference, Hpos. set_solver.
    + intros g. rewrite list_elem_of_filter. tauto.
  - split; [done|]. intros g. split; [|tauto]. intros Hg. split; [done|].
    intros ->. apply Hf. by apply Hpos.
Qed.

Lemma lru_Unpin_spec r f :
  lru_wf r →
  lru_wf (lru_Unpin f r) ∧ ∀ g, g ∈ lru_list_ (lru_Unpin f r) ↔ g = f ∨ g ∈ lru_list_ r.
Proof.
  intros [Hnd Hpos]. unfold lru_Unpin. case_decide as Hf; simpl.
  - split; [done|]. intros g. split; [tauto|]. intros [->|?]; [by apply Hpos|done].
  - split; [split; simpl|].
    + apply NoDup_cons. split; [|done]. by rewrite <- Hpos.
    + intros g. rewrite elem_of_union, elem_of_cons, Hpos. set_solver.
    + intros g. by rewrite elem_of_cons.
Qed.

Lemma lru_Victim_spec r :
  lru_wf r →
  match lru_Victim r with
  | (Some f, r') => lru_wf r' ∧ lru_list_ r = lru_list_ r' ++ [f] ∧
      (∀ g, g ∈ lru_list_ r' ↔ g ∈ lru_list_ r ∧ g ≠ f)
  | (None, r') => lru_list_ r = [] ∧ r' = r
  end.
Proof.
  intros [Hnd Hpos]. unfold lru_Victim.
  destruct (last (lru_list_ r)) as [f|] eqn:E; [|by apply last_None in E].
  apply last_Some in E as [l E]. rewrite E in *. rewrite removelast_snoc.
  apply NoDup_app in Hnd as (Hnd & Hdisj & _). simpl.
  assert (∀ g, g ∈ l ↔ g ∈ l ++ [f] ∧ g ≠ f) as Hl.
  { intros g. rewrite elem_of_app, list_elem_of_singleton. split; [|naive_solver].
    intros Hg. split; [by left|]. intros ->. apply (Hdisj f Hg).
    by apply list_elem_of_singleton. }
  split_and!; [split; simpl; [done|]|done|done].
  intros g. rewrite elem_of_difference, Hpos, Hl, elem_of_singleton. done.
Qed.

(** ** Lemmas: frames and the page table *)

Lemma frame_at_Some bp f fr : frames_ bp !! f = Some fr → frame_at bp f = fr.
Proof. intros H. unfold frame_at. by rewrite H. Qed.

Lemma frame_at_set_eq bp f fr :
  (f < length (frames_ bp))%nat → frame_at (bp_set_frame bp f fr) f = fr.
Proof. intros ?. unfold frame_at. simpl. by rewrite list_lookup_insert_eq. Qed.

Lemma frame_at_set_ne bp f g fr : f ≠ g → frame_at (bp_set_frame bp f fr) g = frame_at bp g.
Proof. intros ?. unfold frame_at. simpl. by rewrite list_lookup_insert_ne. Qed.

Section pool.
Context (held : option nat) (bp : BufferPool) (Hwf : bp_wf_held held bp).

Lemma table_frame p f :
  page_table_ bp !! p = Some f →
  ∃ fr, frames_ bp !! f = Some fr ∧ fr_page_id fr = p ∧ p ≠ kInvalidPageId ∧
        frame_ok held bp f fr.
Proof.
  intros (? & fr & Hf & Hp)%(bwf_table _ _ Hwf). exists fr.
  split_and!; [done..|]. by apply (bwf_frame _ _ Hwf).
Qed.

Lemma resident_has p f : page_table_ bp !! p = Some f → bp_has bp p.
Proof.
  intros (fr & _ & <- & Hne & (_ & _ & Hok))%table_frame. by destruct (Hok Hne) as (_ & _ & ? & _).
Qed.

(** A page is in at most one frame. *)
Lemma resident_unique f g fr gr :
  frames_ bp !! f = Some fr → frames_ bp !! g = Some gr →
  fr_page_id fr = fr_page_id gr → fr_page_id fr ≠ kInvalidPageId → f = g.
Proof.
  intros Hf Hg He Hne.
  assert (page_table_ bp !! fr_page_id fr = Some f) by (apply (bwf_table _ _ Hwf); eauto).
  assert (page_table_ bp !! fr_page_id fr = Some g) by (apply (bwf_table _ _ Hwf); eauto).
  congruence.
Qed.

Lemma bp_view_page_wf p : bp_has bp p → page_wf (bp_view bp p).
Proof.
  intros Hp. unfold bp_view. destruct (page_table_ bp !! p) as [f|] eqn:E.
  - apply table_frame in E as (fr & Hf & _ & _ & (? & _)).
    unfold frame_page. by rewrite (frame_at_Some _ _ _ Hf).
  - apply page_wf_pm_page; [apply Hwf|]. unfold bp_has in Hp. unfold pm_has. lia.
Qed.
End pool.

(** Two well-formed states that agree on what [frame_ok] reads of a frame. *)
Lemma frame_ok_ext h h' bp bp' f fr :
  frame_ok h bp f fr →
  (f ∈ free_list_ bp' ↔ f ∈ free_list_ bp) →
  (f ∈ lru_list_ (replacer_ bp') ↔ f ∈ lru_list_ (replacer_ bp)) →
  (h' = Some f ↔ h = Some f) →
  page_count_ (page_manager_ bp') = page_count_ (page_manager_ bp) →
  (fr_page_id fr ≠ kInvalidPageId → bp_has bp (fr_page_id fr) →
     pm_page (page_manager_ bp') (fr_page_id fr) = pm_page (page_manager_ bp) (fr_page_id fr)) →
  frame_ok h' bp' f fr.
Proof.
  intros (Hp & Hi & Hv) Hfree Hlru Hh Hc Hpm. unfold frame_ok, bp_has in *.
  rewrite Hfree, Hlru, Hc. split_and!; [done| |].
  - intros ?. destruct Hi as (? & ? & Hi); [done|]. split_and!; [done..|].
    destruct Hi as [[? ?]|[? ?]]; [left|right]; split; tauto.
  - intros Hne. destruct Hv as (? & ? & ? & ? & ? & ?); [done|].
    split_and!; try tauto; try done; try lia. rewrite Hpm by done. done.
Qed.

(** ** Lemmas: taking a frame *)

Lemma FindVictimFrame_spec bp :
  bp_wf bp →
  match FindVictimFrame bp with
  | (Some f, bp') =>
      page_manager_ bp' = page_manager_ bp ∧ frames_ bp' = frames_ bp ∧
      page_table_ bp' = page_table_ bp ∧
      lru_wf (replacer_ bp') ∧ NoDup (free_list_ bp') ∧
      (f ∉ free_list_ bp') ∧ (f ∉ lru_list_ (replacer_ bp')) ∧
      (∀ g, g ≠ f → (g ∈ free_list_ bp' ↔ g ∈ free_list_ bp) ∧
                    (g ∈ lru_list_ (replacer_ bp') ↔ g ∈ lru_list_ (replacer_ bp))) ∧
      (∃ fr, frames_ bp !! f = Some fr ∧ fr_pin_count fr = 0 ∧
             (fr_page_id fr ≠ kInvalidPageId → f ∈ lru_list_ (replacer_ bp))) ∧
      bp_avail bp' = bp_avail bp - 1
  | (None, bp') => bp' = bp ∧ free_list_ bp = [] ∧ lru_list_ (replacer_ bp) = []
  end.
Proof.
  intros Hwf. unfold FindVictimFrame.
  destruct (last (free_list_ bp)) as [f|] eqn:E.
  - apply last_Some in E as [l E]. rewrite E, removelast_snoc.
    pose proof (bwf_free _ _ Hwf) as Hnd. rewrite E in Hnd.
    apply NoDup_app in Hnd as (Hnd & Hdisj & _).
    assert (f ∈ free_list_ bp) as Hf by (rewrite E; set_solver).
    destruct (lookup_lt_is_Some_2 (frames_ bp) f) as [fr Hfr].
    { apply (bwf_lists _ _ Hwf). by left. }
    destruct (bwf_frame _ _ Hwf f fr Hfr) as (_ & Hi & Hv).
    assert (fr_page_id fr = kInvalidPageId) as Hp.
    { destruct (decide (fr_page_id fr = kInvalidPageId)) as [|Hne]; [done|].
      destruct (Hv Hne) as (_ & ? & _). done. }
    destruct (Hi Hp) as (? & ? & _).
    split_and!; simpl; try done; [apply Hwf| | | |].
    + intros Hl. apply (Hdisj f Hl). by apply list_elem_of_singleton.
    + intros g ?. rewrite elem_of_app, list_elem_of_singleton. tauto.
    + exists fr. done.
    + unfold bp_avail. simpl. rewrite E, length_app. simpl. lia.
  - apply last_None in E. pose proof (lru_Victim_spec _ (bwf_lru _ _ Hwf)) as HV.
    destruct (lru_Victim (replacer_ bp)) as [[f|] r'].
    + destruct HV as (? & Hl & Hm). rewrite E.
      assert (f ∈ lru_list_ (replacer_ bp)) as Hf by (rewrite Hl; set_solver).
      destruct (lookup_lt_is_Some_2 (frames_ bp) f) as [fr Hfr].
      { apply (bwf_lists _ _ Hwf). by right; left. }
      destruct (bwf_frame _ _ Hwf f fr Hfr) as (_ & Hi & Hv).
      split_and!; simpl; rewrite ?E; try done; [apply NoDup_nil_2|set_solver|rewrite Hm; tauto| | |].
      * intros g ?. rewrite Hm. tauto.
      * exists fr. split; [done|]. destruct (decide (fr_page_id fr = kInvalidPageId)) as [Hp|Hne].
        -- destruct (Hi Hp) as (_ & Hnl & _). done.
        -- destruct (Hv Hne) as (_ & _ & _ & _ & Hpin & _). split; [by apply Hpin|done].
      * unfold bp_avail. simpl. rewrite Hl, E, length_app. simpl. lia.
    + destruct HV as [? ->]. split_and!; [by destruct bp|done..].
Qed.

(** The disk after the victim's page, if dirty, was written back. *)
Lemma write_back_spec bp f fr :
  bp_wf bp → frames_ bp !! f = Some fr → fr_pin_count fr = 0 →
  fr_page_id fr ≠ kInvalidPageId →
  let pm := page_manager_ bp in
  let pm' := if fr_is_dirty fr then (WritePage (fr_page_id fr) (fr_page fr) pm).2 else pm in
  pm_wf pm' ∧ page_count_ pm' = page_count_ pm ∧ pm_page pm' (fr_page_id fr) = fr_page fr ∧
  (∀ q, 0 ≤ q → q ≠ fr_page_id fr → pm_page pm' q = pm_page pm q).
Proof.
  intros Hwf Hf Hpin Hne pm pm'.
  destruct (bwf_frame _ _ Hwf f fr Hf) as (Hpw & _ & Hv).
  destruct (Hv Hne) as (_ & _ & Hhas & _ & _ & Hclean). unfold bp_has in Hhas.
  pose proof (bwf_pm _ _ Hwf) as Hpm.
  assert (pm_has pm (fr_page_id fr)) by (unfold pm_has, pm; lia).
  unfold pm'. destruct (fr_is_dirty fr) eqn:Hd.
  - rewrite (WritePage_ok pm Hpm) by done. simpl. split_and!.
    + by apply pm_write_wf.
    + done.
    + by apply pm_page_write_eq.
    + intros q ??. apply pm_page_write_ne; auto.
  - split_and!; try done. symmetry. by apply Hclean.
Qed.

(** The victim [f], the state [bp1] after its selection and its frame. *)
Section evict.
Context (bp bp1 : BufferPool) (f : nat) (fr : Frame).
Context (Hwf : bp_wf bp).
Context (Epm : page_manager_ bp1 = page_manager_ bp) (Efr : frames_ bp1 = frames_ bp)
  (Et : page_table_ bp1 = page_table_ bp).
Context (Hlru : lru_wf (replacer_ bp1)) (Hnd : NoDup (free_list_ bp1))
  (Hnf : f ∉ free_list_ bp1) (Hnl : f ∉ lru_list_ (replacer_ bp1)).
Context (Hother : ∀ g, g ≠ f → (g ∈ free_list_ bp1 ↔ g ∈ free_list_ bp) ∧
                    (g ∈ lru_list_ (replacer_ bp1) ↔ g ∈ lru_list_ (replacer_ bp))).
Context (Hf : frames_ bp !! f = Some fr) (Hpin : fr_pin_count fr = 0).

Lemma evict_fields :
  let bp2 := evict f bp1 in
  frames_ bp2 = <[f := Frame_Reset]> (frames_ bp) ∧
  free_list_ bp2 = free_list_ bp1 ∧ replacer_ bp2 = replacer_ bp1.
Proof using Efr.
  unfold evict. destruct (negb _); [destruct (fr_is_dirty _)|]; simpl; by rewrite Efr.
Qed.

Lemma evict_disk :
  let pm2 := page_manager_ (evict f bp1) in
  pm_wf pm2 ∧ page_count_ pm2 = page_count_ (page_manager_ bp) ∧
  (fr_page_id fr ≠ kInvalidPageId → pm_page pm2 (fr_page_id fr) = fr_page fr) ∧
  (∀ q, 0 ≤ q → q ≠ fr_page_id fr → pm_page pm2 q = pm_page (page_manager_ bp) q).
Proof using Hwf Epm Efr Hf Hpin.
  unfold evict. rewrite (frame_at_Some _ _ fr) by (by rewrite Efr).
  destruct (Z.eqb_spec (fr_page_id fr) kInvalidPageId) as [|Hne]; cbn [negb].
  - simpl. rewrite Epm. split_and!; try done. apply Hwf.
  - pose proof (write_back_spec bp f fr Hwf Hf Hpin Hne) as HW. cbv zeta in HW.
    destruct (fr_is_dirty fr); simpl; rewrite Epm; destruct HW as (? & ? & ? & ?); done.
Qed.

Lemma evict_table p g :
  page_table_ (evict f bp1) !! p = Some g ↔ page_table_ bp !! p = Some g ∧ g ≠ f.
Proof using Hwf Efr Et Hf.
  assert (page_table_ (evict f bp1) = if fr_page_id fr =? kInvalidPageId then page_table_ bp
            else delete (fr_page_id fr) (page_table_ bp)) as ->.
  { unfold evict. rewrite (frame_at_Some _ _ fr) by (by rewrite Efr).
    destruct (fr_page_id fr =? kInvalidPageId); [|destruct (fr_is_dirty fr)]; simpl; by rewrite Et. }
  destruct (Z.eqb_spec (fr_page_id fr) kInvalidPageId) as [Hi|Hne].
  - split; [|tauto]. intros Hp. split; [done|]. intros ->.
    apply (table_frame _ _ Hwf) in Hp as (fr' & Hf' & ? & ? & _). congruence.
  - rewrite lookup_delete_Some. split.
    + intros [Hp1 Hp2]. split; [done|]. intros ->. apply Hp1.
      apply (table_frame _ _ Hwf) in Hp2 as (fr' & Hf' & ? & ? & _). congruence.
    + intros [Hp1 Hp2]. split; [|done]. intros He. apply Hp2.
      apply (table_frame _ _ Hwf) in Hp1 as (fr' & Hf' & ? & ? & _).
      eapply (resident_unique _ _ Hwf); eauto; congruence.
Qed.

Lemma evict_wf : bp_wf_held (Some f) (evict f bp1).
Proof using All.
  destruct evict_disk as (Hpm2 & Hcnt & _ & Hoth).
  destruct evict_fields as (Ef & Efree & Erep).
  pose proof (lookup_lt_Some _ _ _ Hf) as Hlt.
  split; rewrite ?Ef, ?Efree, ?Erep; try done.
  - intros g gr Hg. destruct (decide (g = f)) as [->|Hgf].
    + rewrite list_lookup_insert_eq in Hg by done. injection Hg as <-.
      split_and!; [apply page_wf_blank| |done]. intros _. rewrite Erep, Efree.
      split_and!; try done. by left.
    + rewrite list_lookup_insert_ne in Hg by done.
      destruct (Hother g Hgf).
      eapply (frame_ok_ext None); [by apply (bwf_frame _ _ Hwf)|..]; rewrite ?Efree, ?Erep; try done.
      * split; [|done]. intros [= ->]. done.
      * intros ? [? ?]. apply Hoth; [lia|]. intros He. apply Hgf.
        eapply (resident_unique _ _ Hwf); eauto.
  - intros g Hg. rewrite length_insert. destruct (decide (g = f)) as [->|Hgf]; [done|].
    destruct (Hother g Hgf) as [Hgf1 Hgf2]. rewrite Hgf1, Hgf2 in Hg.
    apply (bwf_lists _ _ Hwf). destruct Hg as [?|[?|?]]; [tauto..|congruence].
  - intros p g. rewrite evict_table, (bwf_table _ _ Hwf p g).
    destruct (decide (g = f)) as [->|Hgf].
    + rewrite list_lookup_insert_eq by done. split; [tauto|].
      intros (? & ? & [= <-] & <-). done.
    + rewrite list_lookup_insert_ne by done. tauto.
Qed.

Lemma evict_frame_at g : g ≠ f → frame_at (evict f bp1) g = frame_at bp g.
Proof using Efr.
  intros ?. unfold frame_at. destruct evict_fields as (-> & _). by rewrite list_lookup_insert_ne.
Qed.

(** A page is in the same frame as before, or it was the victim's. *)
Lemma evict_lookup p :
  (∃ g, g ≠ f ∧ page_table_ (evict f bp1) !! p = Some g ∧ page_table_ bp !! p = Some g) ∨
  (page_table_ (evict f bp1) !! p = None ∧ page_table_ bp !! p = None) ∨
  (page_table_ (evict f bp1) !! p = None ∧ page_table_ bp !! p = Some f ∧
   p = fr_page_id fr ∧ p ≠ kInvalidPageId).
Proof using Hwf Efr Et Hf.
  destruct (page_table_ (evict f bp1) !! p) as [g|] eqn:E.
  - apply evict_table in E as [? ?]. left. by exists g.
  - right. destruct (page_table_ bp !! p) as [g|] eqn:Ep; [right|by left].
    destruct (decide (g = f)) as [->|Hgf].
    + destruct (table_frame _ _ Hwf p f Ep) as (fr' & Hf' & <- & ? & _). simplify_eq. done.
    + rewrite (proj2 (evict_table p g)) in E; done.
Qed.

Lemma evict_view p : 0 ≤ p → bp_view (evict f bp1) p = bp_view bp p.
Proof using All.
  intros Hp. destruct evict_disk as (_ & _ & Hpg & Hoth). unfold bp_view.
  destruct (evict_lookup p) as [(g & ? & -> & ->)|[[-> E]|(-> & -> & He & Hne)]].
  - unfold frame_page. by rewrite evict_frame_at.
  - rewrite E. apply Hoth; [done|]. intros ->.
    assert (fr_page_id fr ≠ kInvalidPageId) by (unfold kInvalidPageId; lia).
    assert (page_table_ bp !! fr_page_id fr = Some f) by (apply (bwf_table _ _ Hwf); eauto).
    congruence.
  - unfold frame_page. rewrite (frame_at_Some _ _ _ Hf), He. apply Hpg. congruence.
Qed.

Lemma evict_pin p : bp_pin (evict f bp1) p = bp_pin bp p.
Proof using Hwf Efr Et Hf Hpin.
  unfold bp_pin.
  destruct (evict_lookup p) as [(g & ? & -> & ->)|[[-> ->]|(-> & -> & _)]]; [|done|].
  - by rewrite evict_frame_at.
  - by rewrite (frame_at_Some _ _ _ Hf).
Qed.

Lemma evict_frame p : ps_frame p bp (evict f bp1).
Proof using All.
  destruct evict_disk as (_ & Hcnt & _ & Hoth).
  split; cbn.
  - apply Z.eq_le_incl. symmetry. exact Hcnt.
  - intros q ??. apply evict_view. lia.
  - intros q ?. apply evict_pin.
  - intros q _. unfold bp_synced.
    destruct (evict_lookup q) as [(g & ? & -> & E)|[[-> ->]|(-> & _)]]; [|done..].
    rewrite E. unfold frame_page. rewrite evict_frame_at by done.
    pose proof (resident_has _ _ Hwf _ _ E) as [? _].
    rewrite Hoth; [done|lia|]. intros ->.
    destruct (table_frame _ _ Hwf _ _ E) as (gr & Hg & He & Hne & _).
    assert (g = f); [|done]. eapply (resident_unique _ _ Hwf); eauto; congruence.
  - intros q g _ [Hq Hpos]. unfold bp_at.
    assert (g ≠ f) by (intros ->; rewrite (frame_at_Some _ _ _ Hf) in Hpos; lia).
    rewrite evict_frame_at by done. split; [|done]. by apply evict_table.
Qed.
End evict.

(** Choosing a victim and evicting it, in one step. *)
Lemma take_frame_spec bp f bp1 :
  bp_wf bp → FindVictimFrame bp = (Some f, bp1) →
  let bp2 := evict f bp1 in
  bp_wf_held (Some f) bp2 ∧ frames_ bp2 !! f = Some Frame_Reset ∧
  page_count_ (page_manager_ bp2) = page_count_ (page_manager_ bp) ∧
  (∀ p, ps_frame p bp bp2) ∧ (∀ p, 0 ≤ p → bp_view bp2 p = bp_view bp p) ∧
  (∀ p, page_table_ bp !! p = None → page_table_ bp2 !! p = None) ∧
  bp_avail bp2 = bp_avail bp - 1.
Proof.
  intros Hwf Hfv bp2. pose proof (FindVictimFrame_spec bp Hwf) as HV. rewrite Hfv in HV.
  destruct HV as (Epm & Efr & Et & Hlru & Hnd & Hnf & Hnl & Hother & (fr & Hf & Hpin & _) & Hav).
  destruct (evict_fields bp bp1 f Efr) as (Ef & Efree & Erep).
  destruct (evict_disk bp bp1 f fr) as (_ & Hcnt & _); try done.
  split_and!.
  - by eapply (evict_wf bp bp1 f fr).
  - unfold bp2. rewrite Ef. apply list_lookup_insert_eq. by eapply lookup_lt_Some.
  - done.
  - intros p. by eapply (evict_frame bp bp1 f fr).
  - intros p ?. by eapply (evict_view bp bp1 f fr).
  - intros p Hp. destruct (page_table_ bp2 !! p) as [g|] eqn:E; [|done].
    apply (evict_table bp bp1 f fr) in E as [? _]; try done. congruence.
  - unfold bp_avail, bp2 in *. rewrite Efree, Erep. lia.
Qed.

(** ** Lemmas: filling a taken frame, or giving it back *)

(** What the pool holds outside frame [f], whose contents, page and place in
    the lists change. *)
Lemma frame_elsewhere held bp bp' f p :
  bp_wf_held held bp →
  (∀ g, g ≠ f → frame_at bp' g = frame_at bp g) →
  (∀ q g, q ≠ p → (page_table_ bp' !! q = Some g ↔ page_table_ bp !! q = Some g)) →
  (∀ q g, page_table_ bp !! q = Some g → q ≠ p → g ≠ f) →
  (∀ q, 0 ≤ q → q ≠ p → pm_page (page_manager_ bp') q = pm_page (page_manager_ bp) q) →
  page_count_ (page_manager_ bp) ≤ page_count_ (page_manager_ bp') →
  ps_frame p bp bp'.
Proof.
  intros Hwf Hat Htab Hne Hpm Hcnt.
  assert (∀ q, q ≠ p → page_table_ bp' !! q = page_table_ bp !! q) as Heq.
  { intros q Hq. apply option_eq. intros g. by apply Htab. }
  split; cbn.
  - done.
  - intros q ? Hq. unfold bp_view, frame_page. rewrite Heq by done.
    destruct (page_table_ bp !! q) as [g|] eqn:E; [|apply Hpm; (done || lia)].
    rewrite Hat; [done|]. by eapply Hne.
  - intros q Hq. unfold bp_pin. rewrite Heq by done.
    destruct (page_table_ bp !! q) as [g|] eqn:E; [|done]. rewrite Hat; [done|]. by eapply Hne.
  - intros q Hq. unfold bp_synced, frame_page. rewrite Heq by done.
    destruct (page_table_ bp !! q) as [g|] eqn:E; [|done].
    pose proof (resident_has _ _ Hwf _ _ E) as [? _].
    rewrite Hat, Hpm by (by eapply Hne || lia). done.
  - intros q g Hq [E ?]. unfold bp_at. rewrite Heq, Hat by (by eapply Hne || done). done.
Qed.

(** An operation that keeps the page of frame [f]: it may change the frame's
    contents, pin count, dirty bit, its place in the LRU list and the copy of
    its page on disk. *)
Lemma frame_update_spec bp f fr fr' pm' r' h m :
  bp_wf bp → frames_ bp !! f = Some fr → fr_page_id fr ≠ kInvalidPageId →
  fr_page_id fr' = fr_page_id fr → page_wf (fr_page fr') →
  pm_wf pm' → page_count_ pm' = page_count_ (page_manager_ bp) →
  (∀ q, 0 ≤ q → q ≠ fr_page_id fr → pm_page pm' q = pm_page (page_manager_ bp) q) →
  lru_wf r' → (∀ g, g ≠ f → (g ∈ lru_list_ r' ↔ g ∈ lru_list_ (replacer_ bp))) →
  0 ≤ fr_pin_count fr' → (f ∈ lru_list_ r' ↔ fr_pin_count fr' = 0) →
  (fr_pin_count fr' = 0 → fr_is_dirty fr' = false → fr_page fr' = pm_page pm' (fr_page_id fr)) →
  let bp' := mkBP pm' (<[f := fr']> (frames_ bp)) (page_table_ bp) (free_list_ bp) r' h m in
  bp_wf bp' ∧ ps_frame (fr_page_id fr) bp bp' ∧ frame_at bp' f = fr' ∧
  page_table_ bp !! fr_page_id fr = Some f.
Proof.
  intros Hwf Hf Hne He Hpw Hpm' Hc Hoth Hlru Hmem Hpin Hin Hsync bp'.
  pose proof (lookup_lt_Some _ _ _ Hf) as Hlt.
  destruct (bwf_frame _ _ Hwf f fr Hf) as (_ & _ & Hv).
  destruct (Hv Hne) as (_ & Hnfree & Hhas & _). unfold bp_has in Hhas.
  assert (page_table_ bp !! fr_page_id fr = Some f) as Hpt by (apply (bwf_table _ _ Hwf); eauto).
  assert (frame_at bp' f = fr') as Hat.
  { apply frame_at_Some. simpl. by rewrite list_lookup_insert_eq. }
  split_and!; [|apply (frame_elsewhere None bp bp' f)|done|done].
  - split; simpl; try done; [apply Hwf| | |].
    + intros g gr Hg. destruct (decide (g = f)) as [->|Hgf].
      * rewrite list_lookup_insert_eq in Hg by done. injection Hg as <-.
        unfold frame_ok, bp_has. simpl. rewrite He, Hc. split_and!; try done.
      * rewrite list_lookup_insert_ne in Hg by done.
        eapply (frame_ok_ext None); [by apply (bwf_frame _ _ Hwf)|..]; simpl; try done; [by apply Hmem|].
        intros ? [? ?]. apply Hoth; [lia|]. intros Hpe. apply Hgf.
        eapply (resident_unique _ _ Hwf); eauto.
    + intros g Hg. rewrite length_insert. destruct (decide (g = f)) as [->|Hgf]; [done|].
      rewrite Hmem in Hg by done. by apply (bwf_lists _ _ Hwf).
    + intros p g. rewrite (bwf_table _ _ Hwf p g). destruct (decide (g = f)) as [->|Hgf].
      * rewrite list_lookup_insert_eq, Hf by done. naive_solver.
      * by rewrite list_lookup_insert_ne.
  - done.
  - intros g ?. unfold frame_at. simpl. by rewrite list_lookup_insert_ne.
  - done.
  - intros q g Hq ? ->. destruct (table_frame _ _ Hwf _ _ Hq) as (? & ? & ? & _). congruence.
  - done.
  - cbn. lia.
Qed.

Lemma install_spec bp f pg p d h m :
  bp_wf_held (Some f) bp → frames_ bp !! f = Some Frame_Reset → page_table_ bp !! p = None →
  bp_has bp p → page_wf pg →
  let bp' := mkBP (page_manager_ bp) (<[f := mkFrame pg p 1 d]> (frames_ bp))
               (<[p := f]> (page_table_ bp)) (free_list_ bp) (replacer_ bp) h m in
  bp_wf bp' ∧ ps_frame p bp bp' ∧ page_table_ bp' !! p = Some f ∧
  frame_at bp' f = mkFrame pg p 1 d.
Proof.
  intros Hwf Hf Hp Hhas Hpw bp'. pose proof (lookup_lt_Some _ _ _ Hf) as Hlt.
  destruct (bwf_frame _ _ Hwf f _ Hf) as (_ & Hi & _).
  destruct (Hi eq_refl) as (_ & Hnl & Hfree).
  assert (p ≠ kInvalidPageId) by (unfold bp_has, kInvalidPageId in *; lia).
  assert (f ∉ free_list_ bp) by (destruct Hfree as [[_ ?]|[? _]]; done).
  assert (∀ q g, page_table_ bp !! q = Some g → g ≠ f) as Hnf.
  { intros q g Hq ->. destruct (table_frame _ _ Hwf _ _ Hq) as (fr & ? & <- & Hnq & _).
    by simplify_eq. }
  split_and!; [|apply (frame_elsewhere (Some f) bp bp' f)| |].
  - split; simpl; try apply Hwf.
    + intros g gr Hg. destruct (decide (g = f)) as [->|Hgf].
      * rewrite list_lookup_insert_eq in Hg by done. injection Hg as <-.
        unfold frame_ok. cbn. split_and!; try done; try lia.
      * rewrite list_lookup_insert_ne in Hg by done.
        eapply (frame_ok_ext (Some f)); [by apply (bwf_frame _ _ Hwf)|..]; simpl; try done.
        split; [done|]. intros [= ->]. done.
    + intros g Hg. rewrite length_insert. apply (bwf_lists _ _ Hwf).
      destruct Hg as [?|[?|?]]; [tauto..|done].
    + intros q g. rewrite lookup_insert_Some, (bwf_table _ _ Hwf q g).
      destruct (decide (g = f)) as [->|Hgf].
      * rewrite list_lookup_insert_eq, Hf by done. naive_solver.
      * rewrite list_lookup_insert_ne by done. split; [naive_solver|].
        intros (? & fr & Hg & <-). right. split; [|eauto]. intros He.
        rewrite (proj2 (bwf_table _ _ Hwf p g)) in Hp; [done|]. eauto.
  - done.
  - intros g ?. unfold frame_at. simpl. by rewrite list_lookup_insert_ne.
  - intros q g ?. simpl. by rewrite lookup_insert_ne.
  - intros q g Hq _. by eapply Hnf.
  - done.
  - done.
  - simpl. apply lookup_insert_eq.
  - apply frame_at_Some. simpl. by rewrite list_lookup_insert_eq.
Qed.

Lemma release_spec bp f fr :
  bp_wf_held (Some f) bp → frames_ bp !! f = Some Frame_Reset →
  page_wf (fr_page fr) → fr_page_id fr = kInvalidPageId → fr_pin_count fr = 0 →
  let bp' := bp_set_free (bp_set_frame bp f fr) (free_list_ bp ++ [f]) in
  bp_wf bp' ∧ (∀ p, ps_frame p bp bp') ∧ bp_avail bp' = bp_avail bp + 1.
Proof.
  intros Hwf Hf Hpw Hinv Hpin bp'. pose proof (lookup_lt_Some _ _ _ Hf) as Hlt.
  destruct (bwf_frame _ _ Hwf f _ Hf) as (_ & Hi & _).
  destruct (Hi eq_refl) as (_ & Hnl & Hfree).
  assert (f ∉ free_list_ bp) by (destruct Hfree as [[_ ?]|[? _]]; done).
  split_and!.
  - split; simpl; try apply Hwf.
    + by apply NoDup_snoc; [|apply Hwf].
    + intros g gr Hg. destruct (decide (g = f)) as [->|Hgf].
      * rewrite list_lookup_insert_eq in Hg by done. injection Hg as <-.
        unfold frame_ok. cbn. split_and!; [done| |done]. intros _. split_and!; try done.
        right. set_solver.
      * rewrite list_lookup_insert_ne in Hg by done.
        eapply (frame_ok_ext (Some f)); [by apply (bwf_frame _ _ Hwf)|..]; simpl; try done.
        -- rewrite elem_of_app, list_elem_of_singleton. tauto.
        -- split; [done|]. intros [= ->]. done.
    + intros g Hg. rewrite length_insert. rewrite elem_of_app, list_elem_of_singleton in Hg.
      destruct Hg as [[?| ->]|[?|?]]; [|done| |done]; apply (bwf_lists _ _ Hwf); tauto.
    + intros q g. rewrite (bwf_table _ _ Hwf q g). destruct (decide (g = f)) as [->|Hgf].
      * rewrite list_lookup_insert_eq, Hf by done. naive_solver.
      * by rewrite list_lookup_insert_ne.
  - intros p. apply (frame_elsewhere (Some f) bp bp' f); try done.
    + intros g ?. unfold frame_at. simpl. by rewrite list_lookup_insert_ne.
    + intros q g Hq _ ->. destruct (table_frame _ _ Hwf _ _ Hq) as (fr' & ? & <- & Hnq & _).
      by simplify_eq.
  - unfold bp_avail. simpl. rewrite length_app. simpl. lia.
Qed.

(** ** Lemmas: the operations *)

Lemma lru_remove_length (l l' : list nat) f :
  NoDup l → NoDup l' → f ∈ l → (∀ g, g ∈ l' ↔ g ∈ l ∧ g ≠ f) → length l = S (length l').
Proof.
  intros Hl Hl' Hf Hmem. apply (Permutation_length (l' := f :: l')).
  apply NoDup_Permutation; [done|apply NoDup_cons; split; [rewrite Hmem; naive_solver|done]|].
  intros g. rewrite elem_of_cons, Hmem. destruct (decide (g = f)) as [->|]; naive_solver.
Qed.

Lemma bp_set_stats_spec bp h m :
  bp_wf bp → bp_wf (bp_set_stats bp h m) ∧ ∀ p, ps_frame p bp (bp_set_stats bp h m).
Proof. intros Hwf. split; [by destruct Hwf|]. intros p. by split. Qed.

Lemma ps_frame_trans p (s1 s2 s3 : BufferPool) :
  ps_frame p s1 s2 → ps_frame p s2 s3 → ps_frame p s1 s3.
Proof.
  intros [C1 V1 P1 S1 A1] [C2 V2 P2 S2 A2]. split; [lia|intros..].
  - rewrite V2, V1 by (done || lia). done.
  - by rewrite P2, P1.
  - eauto.
  - eauto.
Qed.

Lemma fetch_hit bp p f :
  bp_wf bp → page_table_ bp !! p = Some f → bp_pin bp p < 2 ^ 31 - 1 →
  let bp' := (FetchPage p bp).2 in
  (FetchPage p bp).1 = Some f ∧ bp_wf bp' ∧ ps_frame p bp bp' ∧
  page_manager_ bp' = page_manager_ bp ∧ page_table_ bp' = page_table_ bp ∧
  fr_page (frame_at bp' f) = fr_page (frame_at bp f) ∧
  fr_is_dirty (frame_at bp' f) = fr_is_dirty (frame_at bp f) ∧
  fr_pin_count (frame_at bp' f) = fr_pin_count (frame_at bp f) + 1 ∧
  bp_avail bp' = bp_avail bp - (if decide (bp_pin bp p = 0) then 1 else 0).
Proof.
  intros Hwf Hp Hmax. destruct (table_frame _ _ Hwf p f Hp) as (fr & Hf & <- & Hne & (Hpw & _ & Hv)).
  destruct (Hv Hne) as (_ & _ & Hhas & Hpin & Hin & _).
  unfold bp_pin in Hmax. rewrite Hp, (frame_at_Some _ _ _ Hf) in Hmax.
  assert (i32 (fr_pin_count fr + 1) = fr_pin_count fr + 1) as Hi by (apply i32_small; blia).
  set (fr' := mkFrame (fr_page fr) (fr_page_id fr) (i32 (fr_pin_count fr + 1)) (fr_is_dirty fr)).
  set (r' := if fr_pin_count fr =? 0 then lru_Pin f (replacer_ bp) else replacer_ bp).
  assert (FetchPage (fr_page_id fr) bp = (Some f, mkBP (page_manager_ bp) (<[f:=fr']> (frames_ bp))
    (page_table_ bp) (free_list_ bp) r' (u64 (hit_count_ bp + 1)) (miss_count_ bp))) as ->.
  { unfold FetchPage, r'. rewrite Hp, (frame_at_Some _ _ _ Hf). by case_match. }
  unfold bp_pin. rewrite Hp. rewrite (frame_at_Some _ _ _ Hf).
  destruct (lru_Pin_spec _ f (bwf_lru _ _ Hwf)) as [Hlw Hlm].
  destruct (frame_update_spec bp f fr fr' (page_manager_ bp) r' (u64 (hit_count_ bp + 1)) (miss_count_ bp))
    as (Hwf' & Hfr & Hat & _); try done.
  - apply Hwf.
  - unfold r'. case_match; [done|]. apply Hwf.
  - intros g ?. unfold r'. case_match; [|done]. rewrite Hlm. tauto.
  - simpl. rewrite Hi. lia.
  - simpl. rewrite Hi. unfold r'. destruct (Z.eqb_spec (fr_pin_count fr) 0).
    + rewrite Hlm. split; [tauto|lia].
    + rewrite Hin. split; lia.
  - simpl. rewrite Hi. lia.
  - cbn [fst snd]. rewrite Hat. split_and!; try done.
    unfold bp_avail, r'. cbn. destruct (Z.eqb_spec (fr_pin_count fr) 0) as [E|E].
    + rewrite decide_True by done.
      rewrite (lru_remove_length (lru_list_ (replacer_ bp)) (lru_list_ (lru_Pin f (replacer_ bp))) f);
        [lia|apply Hwf|apply Hlw|by apply Hin|done].
    + rewrite decide_False by done. lia.
Qed.

Lemma fetch_none bp p :
  bp_wf bp → page_table_ bp !! p = None → bp_avail bp = 0 →
  FetchPage p bp = (None, bp_set_stats bp (hit_count_ bp) (u64 (miss_count_ bp + 1))).
Proof.
  intros Hwf Hp Hav. unfold FetchPage. rewrite Hp.
  destruct (bp_set_stats_spec bp (hit_count_ bp) (u64 (miss_count_ bp + 1)) Hwf) as [Hwf1 _].
  pose proof (FindVictimFrame_spec _ Hwf1) as HV.
  destruct (FindVictimFrame _) as [[f|] bp1]; [|by destruct HV as (-> & _)].
  destruct HV as (_ & _ & _ & _ & _ & _ & _ & _ & _ & Ha). unfold bp_avail in *. simpl in *. lia.
Qed.

(** A miss with a frame to spare evicts a victim [f]; the page is then read
    from the disk of the resulting state. *)
Lemma fetch_miss bp p :
  bp_wf bp → page_table_ bp !! p = None → 0 < bp_avail bp →
  ∃ f bp2, bp_wf_held (Some f) bp2 ∧ frames_ bp2 !! f = Some Frame_Reset ∧
    page_count_ (page_manager_ bp2) = page_count_ (page_manager_ bp) ∧
    ps_frame p bp bp2 ∧ (0 ≤ p → bp_view bp2 p = bp_view bp p) ∧
    bp_pin bp2 p = 0 ∧
    page_table_ bp2 !! p = None ∧ bp_avail bp2 = bp_avail bp - 1 ∧
    FetchPage p bp =
      let '(status, page, pm) := ReadPage p blank_page (page_manager_ bp2) in
      if status_ok status then
        (Some f, mkBP pm (<[f := mkFrame page p 1 false]> (frames_ bp2))
                   (<[p := f]> (page_table_ bp2)) (free_list_ bp2) (replacer_ bp2)
                   (hit_count_ bp2) (miss_count_ bp2))
      else
        (None, bp_set_free (bp_set_frame (bp_set_pm bp2 pm) f (mkFrame page kInvalidPageId 0 false))
                 (free_list_ bp2 ++ [f])).
Proof.
  intros Hwf Hp Hav. unfold FetchPage. rewrite Hp.
  destruct (bp_set_stats_spec bp (hit_count_ bp) (u64 (miss_count_ bp + 1)) Hwf) as [Hwf0 Hfr0].
  set (bp0 := bp_set_stats _ _ _) in *.
  destruct (FindVictimFrame bp0) as [[f|] bp1] eqn:E.
  2: { pose proof (FindVictimFrame_spec bp0 Hwf0) as HV. rewrite E in HV.
       destruct HV as (_ & E1 & E2). exfalso. change (bp_avail bp) with (bp_avail bp0) in Hav.
       unfold bp_avail in Hav. rewrite E1, E2 in Hav. simpl in Hav. lia. }
  destruct (take_frame_spec bp0 f bp1 Hwf0 E) as (Hwf2 & Hf2 & Hc2 & Hfr2 & Hv2 & Ht2 & Ha2).
  set (bp2 := evict f bp1) in *. clearbody bp2. exists f, bp2.
  specialize (Ht2 p Hp). rewrite (frame_at_Some _ _ _ Hf2). cbn [Frame_Reset fr_page].
  split_and!; try assumption.
  - eapply ps_frame_trans; [apply Hfr0|apply Hfr2].
  - apply Hv2.
  - unfold bp_pin. by rewrite Ht2.
  - destruct (ReadPage _ _ _) as [[st pg] pm]. by destruct (status_ok st).
Qed.

(** A resident page that is not pinned is in a frame that can be taken. *)
Lemma unpinned_avail bp p f :
  bp_wf bp → page_table_ bp !! p = Some f → bp_pin bp p = 0 → 0 < bp_avail bp.
Proof.
  intros Hwf Hp Hz. destruct (table_frame _ _ Hwf p f Hp) as (fr & Hf & <- & Hne & (_ & _ & Hv)).
  destruct (Hv Hne) as (_ & _ & _ & _ & Hin & _). unfold bp_pin in Hz.
  rewrite Hp, (frame_at_Some _ _ _ Hf) in Hz. apply Hin in Hz. unfold bp_avail.
  destruct (lru_list_ (replacer_ bp)); [by apply elem_of_nil in Hz|simpl; lia].
Qed.

Lemma bp_fetch_ok bp p :
  bp_wf bp → bp_has bp p → bp_pin bp p < 2 ^ 31 - 1 → 0 < bp_pin bp p ∨ 0 < bp_avail bp →
  ∃ f bp', FetchPage p bp = (Some f, bp') ∧ bp_wf bp' ∧ ps_frame p bp bp' ∧
    page_count_ (page_manager_ bp') = page_count_ (page_manager_ bp) ∧
    bp_view bp' p = bp_view bp p ∧ bp_pin bp' p = bp_pin bp p + 1 ∧ bp_at bp' p f ∧
    (bp_synced bp p → bp_synced bp' p) ∧
    bp_avail bp' = bp_avail bp - (if decide (bp_pin bp p = 0) then 1 else 0).
Proof.
  intros Hwf Hhas Hmax Hroom. unfold bp_view, bp_pin, bp_synced, bp_at, frame_page in *.
  destruct (page_table_ bp !! p) as [f|] eqn:Hp.
  - destruct (table_frame _ _ Hwf p f Hp) as (fr & Hf & <- & Hne & (_ & _ & Hv)).
    destruct (Hv Hne) as (_ & _ & _ & Hpin & _).
    destruct (fetch_hit bp _ f Hwf Hp ltac:(unfold bp_pin; by rewrite Hp)) as (E & Hwf' & Hfr & Hpm & Ht & Hpg & Hd & Hpc & Hav).
    exists f, (FetchPage (fr_page_id fr) bp).2. unfold bp_pin in Hav.
    rewrite Ht, Hpm, Hp, Hpg, Hd, Hpc, <- E, <- surjective_pairing in *.
    rewrite (frame_at_Some _ _ _ Hf) in *. split_and!; try assumption; try reflexivity; try lia. tauto.
  - destruct Hroom as [?|Hroom]; [lia|].
    destruct (fetch_miss bp p Hwf Hp Hroom)
      as (f & bp2 & Hwf2 & Hf2 & Hc2 & Hfr2 & Hv2 & _ & Ht2 & Ha2 & E).
    unfold bp_has in Hhas. rewrite ReadPage_ok in E by
      (apply Hwf2 || apply page_wf_blank || unfold pm_has; lia). cbn in E.
    assert (page_wf (pm_page (page_manager_ bp2) p)) as Hpw.
    { apply page_wf_pm_page; [apply Hwf2|unfold pm_has; lia]. }
    destruct (install_spec bp2 f (pm_page (page_manager_ bp2) p) p false
      (hit_count_ bp2) (miss_count_ bp2)) as (Hwf3 & Hfr3 & Ht3 & Hat3); try assumption.
    { unfold bp_has. lia. }
    eexists f, _. split; [exact E|]. rewrite Ht3, Hat3. split_and!; try assumption; try reflexivity.
    + by eapply ps_frame_trans.
    + assert (0 ≤ p) as Hp0 by lia. specialize (Hv2 Hp0). unfold bp_view in Hv2.
      rewrite Ht2, Hp in Hv2. exact Hv2.
    + by right.
Qed.

Lemma bp_fetch_fails bp p :
  bp_wf bp → p < 0 ∨ page_count_ (page_manager_ bp) ≤ p ∨ (bp_pin bp p = 0 ∧ bp_avail bp = 0) →
  ∃ bp', FetchPage p bp = (None, bp') ∧ bp_wf bp' ∧ ps_frame p bp bp' ∧
    page_count_ (page_manager_ bp') = page_count_ (page_manager_ bp) ∧
    bp_pin bp' p = bp_pin bp p ∧ bp_avail bp' = bp_avail bp ∧
    (bp_has bp p → bp_view bp' p = bp_view bp p) ∧ (bp_synced bp p → bp_synced bp' p).
Proof.
  intros Hwf Hno.
  assert (page_table_ bp !! p = None) as Hp.
  { destruct (page_table_ bp !! p) as [f|] eqn:E; [|done]. exfalso.
    pose proof (resident_has _ _ Hwf _ _ E) as Hhas. unfold bp_has in Hhas.
    destruct Hno as [?|[?|[Hz Ha]]]; [lia..|]. apply (unpinned_avail bp p f) in E; (done || lia). }
  destruct (Z.eq_dec (bp_avail bp) 0) as [Hz|Hnz].
  - rewrite fetch_none by done. eexists. split; [reflexivity|].
    destruct (bp_set_stats_spec bp (hit_count_ bp) (u64 (miss_count_ bp + 1)) Hwf). done.
  - assert (0 < bp_avail bp) as Hroom by (unfold bp_avail in *; lia).
    destruct (fetch_miss bp p Hwf Hp Hroom)
      as (f & bp2 & Hwf2 & Hf2 & Hc2 & Hfr2 & Hv2 & Hpin2 & Ht2 & Ha2 & E).
    rewrite ReadPage_out_of_range in E by (apply Hwf2 || unfold pm_has; lia). cbn in E.
    destruct (release_spec bp2 f (mkFrame blank_page kInvalidPageId 0 false))
      as (Hwf3 & Hfr3 & Ha3); try (assumption || apply page_wf_blank || reflexivity).
    eexists. split; [exact E|]. split_and!; try assumption.
    + eapply ps_frame_trans; [exact Hfr2|apply Hfr3].
    + unfold bp_pin. cbn. by rewrite Ht2, Hp.
    + rewrite <- (Z.sub_simpl_r (bp_avail bp) 1), <- Ha2. exact Ha3.
    + unfold bp_has. lia.
    + intros _. unfold bp_synced. cbn. by rewrite Ht2.
Qed.

(** The disk has one more page; the pool caches what it did. *)
Lemma bp_grow_spec bp :
  bp_wf bp → page_count_ (page_manager_ bp) < 2 ^ 31 - 1 →
  let bp' := bp_set_pm bp (pm_grow (page_manager_ bp)) in
  let n := page_count_ (page_manager_ bp) in
  bp_wf bp' ∧ ps_frame n bp bp' ∧ page_count_ (page_manager_ bp') = n + 1 ∧
  page_table_ bp' !! n = None ∧ bp_view bp' n = blank_page.
Proof.
  intros Hwf Hlt bp' n.
  destruct (pm_grow_spec (page_manager_ bp) (bwf_pm _ _ Hwf) Hlt) as (Hpm & _ & Hc & Hnew & Hold).
  fold n in Hc, Hnew, Hold.
  assert (page_table_ bp !! n = None) as Hn.
  { destruct (page_table_ bp !! n) as [f|] eqn:E; [|done].
    apply (resident_has _ _ Hwf) in E. unfold bp_has, n in E. lia. }
  split_and!; [split| |exact Hc|exact Hn|]; cbn [bp' bp_set_pm page_manager_ frames_ page_table_
    free_list_ replacer_]; try (by apply Hwf); try assumption.
  - intros f fr Hf. destruct (bwf_frame _ _ Hwf f fr Hf) as (Hpw & Hi & Hv).
    split_and!; [exact Hpw|exact Hi|]. intros Hne.
    destruct (Hv Hne) as (? & ? & [? ?] & ? & ? & Hs).
    unfold bp_has. cbn [bp' bp_set_pm page_manager_ frames_ page_table_ free_list_ replacer_].
    rewrite Hc. fold n in Hs. rewrite Hold by (unfold n; lia). split_and!; try assumption. unfold n; lia.
  - split; cbn [ps_view ps_pin ps_synced ps_at ps_count bp_store_view].
    + cbn. fold n. lia.
    + intros q ? Hq. unfold bp_view. cbn [bp' bp_set_pm page_manager_ frames_ page_table_].
      destruct (page_table_ bp !! q) as [f|] eqn:E; [done|]. by apply Hold.
    + done.
    + intros q _. unfold bp_synced. cbn [bp' bp_set_pm page_manager_ frames_ page_table_].
      destruct (page_table_ bp !! q) as [f|] eqn:E; [|done].
      apply (resident_has _ _ Hwf) in E. rewrite Hold by apply E. done.
    + done.
  - unfold bp_view. cbn [bp' bp_set_pm page_manager_ frames_ page_table_]. by rewrite Hn.
Qed.

Lemma bp_new_ok bp :
  bp_wf bp → page_count_ (page_manager_ bp) < 2 ^ 31 - 1 → 0 < bp_avail bp →
  let n := page_count_ (page_manager_ bp) in
  ∃ f bp', NewPage bp = (Some (n, f), bp') ∧ bp_wf bp' ∧ ps_frame n bp bp' ∧
    page_count_ (page_manager_ bp') = n + 1 ∧ bp_view bp' n = blank_page ∧
    bp_pin bp' n = 1 ∧ bp_at bp' n f ∧ bp_synced bp' n ∧ bp_avail bp' = bp_avail bp - 1.
Proof.
  intros Hwf Hlt Hroom n.
  destruct (bp_grow_spec bp Hwf Hlt) as (Hwf1 & Hfr1 & Hc1 & Ht1 & _). fold n in Hfr1, Hc1, Ht1.
  unfold NewPage. rewrite AllocatePage_ok by (apply Hwf || done). fold n.
  change (0 < bp_avail (bp_set_pm bp (pm_grow (page_manager_ bp)))) in Hroom.
  change (bp_avail bp) with (bp_avail (bp_set_pm bp (pm_grow (page_manager_ bp)))).
  set (bp1 := bp_set_pm bp (pm_grow (page_manager_ bp))) in *. clearbody bp1.
  destruct (FindVictimFrame bp1) as [[f|] bp1'] eqn:E.
  2: { pose proof (FindVictimFrame_spec bp1 Hwf1) as HV. rewrite E in HV.
       destruct HV as (_ & E1 & E2). exfalso. unfold bp_avail in Hroom. rewrite E1, E2 in Hroom.
       simpl in Hroom. lia. }
  destruct (take_frame_spec bp1 f bp1' Hwf1 E) as (Hwf2 & Hf2 & Hc2 & Hfr2 & _ & Ht2 & Ha2).
  set (bp2 := evict f bp1') in *. clearbody bp2. specialize (Ht2 n Ht1). specialize (Hfr2 n).
  rewrite (frame_at_Some _ _ _ Hf2). cbn [Frame_Reset fr_page].
  pose proof (wf_count _ (bwf_pm _ _ Hwf)).
  destruct (install_spec bp2 f blank_page n true (hit_count_ bp2) (miss_count_ bp2))
    as (Hwf3 & Hfr3 & Ht3 & Hat3); try (assumption || apply page_wf_blank).
  { unfold bp_has, n in *. lia. }
  eexists f, _. split; [reflexivity|].
  unfold bp_view, bp_pin, bp_at, bp_synced, frame_page.
  match goal with |- bp_wf_held None ?b ∧ _ =>
    change (bp_wf_held None b) with (bp_wf b); set (bp3 := b) in * end.
  change (page_table_ bp3 !! n = Some f) in Ht3. change (bp_wf bp3) in Hwf3.
  change (frame_at bp3 f = mkFrame blank_page n 1 true) in Hat3.
  rewrite Ht3, Hat3. split_and!; try assumption; try reflexivity.
  - eapply ps_frame_trans; [exact Hfr1|]. eapply ps_frame_trans; [exact Hfr2|exact Hfr3].
  - rewrite <- Hc1, <- Hc2. reflexivity.
  - by left.
Qed.

(** With every frame pinned the page is allocated but not returned. *)
Lemma bp_new_full bp :
  bp_wf bp → page_count_ (page_manager_ bp) < 2 ^ 31 - 1 → bp_avail bp = 0 →
  let n := page_count_ (page_manager_ bp) in
  ∃ bp', NewPage bp = (None, bp') ∧ bp_wf bp' ∧ ps_frame n bp bp' ∧
    page_count_ (page_manager_ bp') = n + 1 ∧ bp_view bp' n = blank_page ∧
    bp_pin bp' n = 0 ∧ bp_avail bp' = bp_avail bp.
Proof.
  intros Hwf Hlt Hfull n.
  destruct (bp_grow_spec bp Hwf Hlt) as (Hwf1 & Hfr1 & Hc1 & Ht1 & Hv1).
  unfold NewPage. rewrite AllocatePage_ok by (apply Hwf || done). fold n.
  change (bp_avail (bp_set_pm bp (pm_grow (page_manager_ bp))) = 0) in Hfull.
  set (bp1 := bp_set_pm bp (pm_grow (page_manager_ bp))) in *.
  assert (bp_avail bp1 = bp_avail bp) as Ha by done. clearbody bp1.
  pose proof (FindVictimFrame_spec bp1 Hwf1) as HV.
  destruct (FindVictimFrame bp1) as [[f|] bp1'].
  - destruct HV as (_ & _ & _ & _ & _ & _ & _ & _ & _ & Ha'). unfold bp_avail in Ha', Hfull. lia.
  - destruct HV as (-> & _). exists bp1. split_and!; try assumption; [reflexivity|].
    unfold bp_pin. unfold n. by rewrite Ht1.
Qed.

Lemma bp_at_frame bp p f :
  bp_wf bp → bp_at bp p f →
  ∃ fr, frames_ bp !! f = Some fr ∧ frame_at bp f = fr ∧ fr_page_id fr = p ∧
    p ≠ kInvalidPageId ∧ 0 < fr_pin_count fr ∧ page_table_ bp !! p = Some f ∧
    (f ∉ lru_list_ (replacer_ bp)) ∧ page_wf (fr_page fr).
Proof.
  intros Hwf [Hp Hpos]. destruct (table_frame _ _ Hwf p f Hp) as (fr & Hf & He & Hne & (Hpw & _ & Hv)).
  exists fr. rewrite (frame_at_Some _ _ _ Hf) in Hpos. rewrite He in Hv.
  destruct (Hv Hne) as (_ & _ & _ & _ & Hin & _).
  split_and!; try assumption; [by apply frame_at_Some|]. rewrite Hin. lia.
Qed.

Lemma bp_set_ok bp p f pg :
  bp_wf bp → bp_at bp p f → page_wf pg →
  let bp' := set_frame_page f pg bp in
  bp_wf bp' ∧ ps_frame p bp bp' ∧
  page_count_ (page_manager_ bp') = page_count_ (page_manager_ bp) ∧ bp_view bp' p = pg ∧
  bp_pin bp' p = bp_pin bp p ∧ bp_at bp' p f ∧ bp_avail bp' = bp_avail bp.
Proof.
  intros Hwf Hat Hpg. destruct (bp_at_frame _ _ _ Hwf Hat) as
    (fr & Hf & Hfa & He & Hne & Hpos & Ht & Hnl & _).
  unfold set_frame_page. rewrite Hfa.
  set (fr' := mkFrame pg _ _ _).
  destruct (frame_update_spec bp f fr fr' (page_manager_ bp) (replacer_ bp) (hit_count_ bp)
    (miss_count_ bp)) as (Hwf' & Hfr & Hfa' & _); try done.
  - congruence.
  - apply Hwf.
  - apply Hwf.
  - simpl. lia.
  - simpl. split; [done|lia].
  - simpl. lia.
  - set (bp' := bp_set_frame bp f fr'). change (bp_wf bp') in Hwf'.
    change (frame_at bp' f = fr') in Hfa'. rewrite He in Hfr.
    unfold bp_view, bp_pin, bp_at, frame_page. cbn [bp' bp_set_frame page_table_ page_manager_].
    rewrite Ht. fold bp'. rewrite Hfa', Hfa. split_and!; try done.
Qed.

Lemma bp_unpin_ok bp p f d :
  bp_wf bp → bp_at bp p f → d = true ∨ bp_synced bp p →
  ∃ bp', UnpinPage p d bp = (true, bp') ∧ bp_wf bp' ∧ ps_frame p bp bp' ∧
    page_count_ (page_manager_ bp') = page_count_ (page_manager_ bp) ∧
    bp_view bp' p = bp_view bp p ∧ bp_pin bp' p = bp_pin bp p - 1 ∧ bp_synced bp' p ∧
    (1 < bp_pin bp p → bp_at bp' p f) ∧
    bp_avail bp' = bp_avail bp + (if decide (bp_pin bp p = 1) then 1 else 0).
Proof.
  intros Hwf Hat Hd. destruct (bp_at_frame _ _ _ Hwf Hat) as
    (fr & Hf & Hfa & He & Hne & Hpos & Ht & Hnl & Hpw).
  set (fr' := mkFrame (fr_page fr) (fr_page_id fr) (fr_pin_count fr - 1) (fr_is_dirty fr || d)).
  set (r' := if fr_pin_count fr - 1 =? 0 then lru_Unpin f (replacer_ bp) else replacer_ bp).
  set (bp' := mkBP (page_manager_ bp) (<[f:=fr']> (frames_ bp)) (page_table_ bp) (free_list_ bp) r'
    (hit_count_ bp) (miss_count_ bp)).
  assert (UnpinPage p d bp = (true, bp')) as ->.
  { unfold UnpinPage. rewrite Ht, Hfa. destruct (Z.leb_spec (fr_pin_count fr) 0); [lia|].
    unfold bp', r'. cbn [fr_pin_count]. by destruct (fr_pin_count fr - 1 =? 0). }
  assert (bp_synced bp p = (fr_is_dirty fr = true ∨ fr_page fr = pm_page (page_manager_ bp) p)) as Hs.
  { unfold bp_synced, frame_page. by rewrite Ht, Hfa. }
  assert (fr_is_dirty fr || d = true ∨ fr_page fr = pm_page (page_manager_ bp) p) as Hsync.
  { rewrite orb_true_iff. rewrite Hs in Hd. tauto. }
  destruct (lru_Unpin_spec _ f (bwf_lru _ _ Hwf)) as [Hlw Hlm].
  destruct (frame_update_spec bp f fr fr' (page_manager_ bp) r' (hit_count_ bp) (miss_count_ bp))
    as (Hwf' & Hfr & Hfa' & _); try done.
  - congruence.
  - apply Hwf.
  - unfold r'. case_match; [done|apply Hwf].
  - intros g ?. unfold r'. case_match; [|done]. rewrite Hlm. tauto.
  - simpl. lia.
  - simpl. unfold r'. destruct (Z.eqb_spec (fr_pin_count fr - 1) 0); [rewrite Hlm; tauto|].
    split; [done|lia].
  - simpl. intros _ Hdirty. rewrite Hdirty in Hsync. rewrite He. destruct Hsync; done.
  - fold bp' in Hwf', Hfr, Hfa'. rewrite He in Hfr. exists bp'.
    unfold bp_view, bp_pin, bp_synced, bp_at, frame_page.
    change (page_table_ bp') with (page_table_ bp). rewrite Ht, Hfa', Hfa.
    split_and!; try done; [intros ?; split; [done|simpl; lia]|].
    unfold bp_avail, bp', r'. cbn. destruct (Z.eqb_spec (fr_pin_count fr - 1) 0).
    + rewrite decide_True by lia. unfold lru_Unpin. rewrite decide_False; [simpl; lia|].
      by rewrite (proj2 (bwf_lru _ _ Hwf) f).
    + rewrite decide_False by lia. lia.
Qed.

(** ** Lemmas: flushing *)

(** Writing a resident frame back and marking it clean changes nothing a
    client sees. *)
Lemma flush_frame_spec bp p f :
  bp_wf bp → page_table_ bp !! p = Some f →
  let fr := frame_at bp f in
  let pm' := pm_write (page_manager_ bp) p (fr_page fr) in
  let bp' := bp_set_frame (bp_set_pm bp pm') f
               (mkFrame (fr_page fr) (fr_page_id fr) (fr_pin_count fr) false) in
  WritePage p (fr_page fr) (page_manager_ bp) = (Status_OK, pm') ∧
  bp_wf bp' ∧ (∀ q, ps_frame q bp bp') ∧
  pm_page (page_manager_ bp') p = bp_view bp p ∧
  (∀ q, 0 ≤ q → q ≠ p → pm_page (page_manager_ bp') q = pm_page (page_manager_ bp) q) ∧
  (∀ g, g ≠ f → frame_at bp' g = frame_at bp g) ∧
  (∀ g, fr_page (frame_at bp' g) = fr_page (frame_at bp g)) ∧ fr_is_dirty (frame_at bp' f) = false.
Proof.
  intros Hwf Hp fr pm'.
  destruct (table_frame _ _ Hwf p f Hp) as (fr0 & Hf & He & Hne & (Hpw & _ & Hv)).
  rewrite He in Hv. destruct (Hv Hne) as (_ & _ & Hhas & Hpin & Hin & _).
  assert (fr = fr0) as Efr by (by apply frame_at_Some). rewrite <- Efr in *. clear Efr fr0.
  pose proof (bwf_pm _ _ Hwf) as Hpm. unfold bp_has in Hhas.
  assert (pm_has (page_manager_ bp) p) as Hph by (unfold pm_has; lia).
  set (fr' := mkFrame (fr_page fr) (fr_page_id fr) (fr_pin_count fr) false). intros bp'.
  assert (∀ q, 0 ≤ q → q ≠ p → pm_page pm' q = pm_page (page_manager_ bp) q) as Hoth.
  { intros q ??. by apply pm_page_write_ne; auto. }
  assert (pm_page pm' p = fr_page fr) as Hpg by (by apply pm_page_write_eq).
  destruct (frame_update_spec bp f fr fr' pm' (replacer_ bp) (hit_count_ bp) (miss_count_ bp))
    as (Hwf' & Hfr & Hat & _); try assumption; try reflexivity.
  { by rewrite He. }
  { by apply pm_write_wf. }
  { by rewrite He. }
  { apply Hwf. }
  { intros _ _. by rewrite He, Hpg. }
  change (bp_wf bp') in Hwf'. rewrite He in Hfr. change (ps_frame p bp bp') in Hfr.
  change (frame_at bp' f = fr') in Hat.
  assert (∀ g, g ≠ f → frame_at bp' g = frame_at bp g) as Hg.
  { intros g ?. unfold frame_at. cbn. by rewrite list_lookup_insert_ne. }
  split_and!; try assumption.
  - by apply WritePage_ok.
  - intros q. destruct (decide (q = p)) as [->|Hqp]; [done|].
    assert (bp_view bp' p = bp_view bp p) as Hvp.
    { unfold bp_view, frame_page. change (page_table_ bp') with (page_table_ bp).
      by rewrite Hp, Hat. }
    destruct Hfr as [C V P Sy A]. split; [done| | | |].
    + intros q' ??. destruct (decide (q' = p)) as [->|]; [done|by apply V].
    + intros q' ?. destruct (decide (q' = p)) as [->|]; [|by apply P].
      cbn. unfold bp_pin. change (page_table_ bp') with (page_table_ bp). by rewrite Hp, Hat.
    + intros q' ?. destruct (decide (q' = p)) as [->|]; [|by apply Sy].
      intros _. cbn. unfold bp_synced, frame_page. change (page_table_ bp') with (page_table_ bp).
      rewrite Hp, Hat. right. symmetry. exact Hpg.
    + intros q' g ?. destruct (decide (q' = p)) as [->|]; [|by apply A].
      cbn. unfold bp_at. change (page_table_ bp') with (page_table_ bp). rewrite Hp.
      intros [[= <-] ?]. split; [done|]. by rewrite Hat.
  - transitivity (fr_page fr); [exact Hpg|]. unfold bp_view, frame_page. by rewrite Hp.
  - intros g. destruct (decide (g = f)) as [->|]; [by rewrite Hat|by rewrite Hg].
  - by rewrite Hat.
Qed.

(** [FlushPage] writes the page a client sees to the disk, if it is cached. *)
Lemma FlushPage_spec bp p :
  bp_wf bp →
  match page_table_ bp !! p with
  | None => FlushPage p bp = (NotFound "FlushPage: page not resident", bp)
  | Some _ => ∃ bp', FlushPage p bp = (Status_OK, bp') ∧ bp_wf bp' ∧ (∀ q, ps_frame q bp bp') ∧
      page_count_ (page_manager_ bp') = page_count_ (page_manager_ bp) ∧ bp_avail bp' = bp_avail bp ∧
      bp_view bp' p = bp_view bp p ∧ pm_page (page_manager_ bp') p = bp_view bp p
  end.
Proof.
  intros Hwf. unfold FlushPage. destruct (page_table_ bp !! p) as [f|] eqn:Hp; [|done].
  destruct (flush_frame_spec bp p f Hwf Hp) as (-> & Hwf' & Hfr & Hd & _ & _ & Hpg & _).
  eexists. split; [reflexivity|]. change (status_ok Status_OK) with true. cbv iota. split_and!; try done.
  unfold bp_view, frame_page. cbn [bp_set_frame bp_set_pm page_table_]. rewrite Hp. apply Hpg.
Qed.

(** The loop of [FlushAll], over any list of entries of the page table: it
    succeeds, no page changes, and the frames of the entries are clean. *)
Lemma flush_entries_spec entries bp :
  bp_wf bp → (∀ p f, (p, f) ∈ entries → page_table_ bp !! p = Some f) →
  ∃ bp', flush_entries entries bp = (Status_OK, bp') ∧ bp_wf bp' ∧ (∀ p, ps_frame p bp bp') ∧
    page_table_ bp' = page_table_ bp ∧
    page_count_ (page_manager_ bp') = page_count_ (page_manager_ bp) ∧
    bp_avail bp' = bp_avail bp ∧
    (∀ f, fr_is_dirty (frame_at bp f) = false → fr_is_dirty (frame_at bp' f) = false) ∧
    (∀ p f, (p, f) ∈ entries → fr_is_dirty (frame_at bp' f) = false).
Proof.
  induction entries as [|[p f] entries IH] in bp |- *; intros Hwf Hsub.
  { exists bp. split_and!; try done. by intros ?? ?%elem_of_nil. }
  assert (page_table_ bp !! p = Some f) as Hp by (apply Hsub; left).
  cbn [flush_entries]. destruct (fr_is_dirty (frame_at bp f)) eqn:Hd.
  - destruct (flush_frame_spec bp p f Hwf Hp) as (-> & Hwf1 & Hfr1 & _ & _ & Hg & Hpg & Hcl).
    change (status_ok Status_OK) with true. cbn [negb].
    set (bp1 := bp_set_frame _ _ _) in *.
    destruct (IH bp1 Hwf1) as (bp' & E & Hwf' & Hfr' & Ht & Hc & Ha & Hcl' & Hall).
    { intros q g Hq. apply Hsub. by right. }
    exists bp'. split_and!; try assumption.
    + intros q. by eapply ps_frame_trans.
    + intros g Hg'. apply Hcl'. destruct (decide (g = f)) as [->|]; [done|]. by rewrite Hg.
    + intros q g [[= -> ->]|Hq]%elem_of_cons; [by apply Hcl'|by eapply Hall].
  - destruct (IH bp Hwf) as (bp' & E & Hwf' & Hfr' & Ht & Hc & Ha & Hcl' & Hall).
    { intros q g Hq. apply Hsub. by right. }
    exists bp'. split_and!; try assumption.
    intros q g [[= -> ->]|Hq]%elem_of_cons; [by apply Hcl'|by eapply Hall].
Qed.

(** A pool whose pages are all synced and whose frames are all clean shows
    exactly the disk. *)
Lemma clean_pool_disk bp :
  bp_wf bp → (∀ p, bp_synced bp p) →
  (∀ p f, page_table_ bp !! p = Some f → fr_is_dirty (frame_at bp f) = false) →
  ∀ p, bp_view bp p = pm_page (page_manager_ bp) p.
Proof.
  intros Hwf Hsync Hclean p. specialize (Hsync p). unfold bp_view, bp_synced in *.
  destruct (page_table_ bp !! p) as [f|] eqn:E; [|done].
  destruct Hsync as [Hd|?]; [|done]. rewrite (Hclean p f E) in Hd. done.
Qed.

(** The buffer pool implements the page store. *)
#[export] Instance bp_store_spec : PageStoreSpec BufferPool.
Proof.
  split.
  - intros bp p Hwf Hp. by apply (bp_view_page_wf None).
  - intros bp Hwf. pose proof (wf_count _ (bwf_pm _ _ Hwf)). cbn. lia.
  - intros bp p Hwf. cbn. unfold bp_pin. destruct (page_table_ bp !! p) as [f|] eqn:E; [|done].
    destruct (table_frame _ _ Hwf p f E) as (fr & Hf & He & Hne & (_ & _ & Hv)).
    rewrite He in Hv. rewrite (frame_at_Some _ _ _ Hf). by destruct (Hv Hne) as (_ & _ & _ & ? & _).
  - intros bp p Hwf. cbn. unfold bp_pin, bp_synced, frame_page.
    destruct (page_table_ bp !! p) as [f|] eqn:E; [|done].
    destruct (table_frame _ _ Hwf p f E) as (fr & Hf & He & Hne & (_ & _ & Hv)).
    rewrite He in Hv. rewrite (frame_at_Some _ _ _ Hf). intros Hz.
    destruct (Hv Hne) as (_ & _ & _ & _ & _ & Hs). destruct (fr_is_dirty fr); auto.
  - intros bp p f Hwf Hat. destruct (bp_at_frame _ _ _ Hwf Hat) as (fr & Hf & Hfa & He & Hne & ? & Ht & _).
    cbn. unfold bp_pin, bp_view. rewrite Ht, Hfa. split_and!; try done.
    all: apply (resident_has _ _ Hwf) in Ht; apply Ht.
  - apply bp_fetch_ok.
  - apply bp_fetch_fails.
  - apply bp_new_ok.
  - apply bp_new_full.
  - intros bp p f pg. apply bp_set_ok.
  - apply bp_unpin_ok.
  - intros bp p f Hwf [Hp _]. pose proof (FlushPage_spec bp p Hwf) as Hs. rewrite Hp in Hs.
    destruct Hs as (bp' & E & Hwf' & Hfr & Hc & Ha & Hv & Hd). exists bp'. split_and!; try done.
    cbn. unfold bp_synced. unfold bp_view in Hv at 1.
    destruct (page_table_ bp' !! p) as [g|]; [right; by rewrite Hv|done].
  - intros bp Hwf. cbn. unfold FlushAll.
    destruct (flush_entries_spec (map_to_list (page_table_ bp)) bp Hwf)
      as (bp' & E & ? & ? & _ & ? & ? & _); [|eauto 10].
    intros p f. by rewrite elem_of_map_to_list.
  - intros bp _. cbn. unfold bp_avail. lia.
Qed.

Lemma BufferPool_new_wf pm n : pm_wf pm → bp_wf (BufferPool_new pm n).
Proof.
  intros Hpm. split; simpl; try done.
  - split; [apply NoDup_nil_2|]. simpl. set_solver.
  - apply NoDup_ListNoDup, seq_NoDup.
  - intros f fr Hf. apply lookup_replicate in Hf as [-> Hlt].
    split_and!; [apply page_wf_blank| |done]. intros _. simpl.
    split_and!; [done|set_solver|]. right. split; [done|]. apply elem_of_seq. lia.
  - intros f Hf. rewrite length_replicate. destruct Hf as [Hf|[Hf|?]]; [|set_solver|done].
    apply elem_of_seq in Hf. lia.
  - intros p f. rewrite lookup_empty. split; [done|]. intros (Hne & fr & Hf & He).
    apply lookup_replicate in Hf as [-> _]. done.
Qed.

Lemma BufferPool_new_idle pm n : pm_wf pm → ps_idle (BufferPool_new pm (S n)).
Proof.
  intros Hpm. split; [by apply BufferPool_new_wf|done|]. cbn. unfold bp_avail. simpl. lia.
Qed.

(** A pool over the file that another one used, closed and opened again. *)
Definition restart (n : nat) (bp : BufferPool) : BufferPool :=
  BufferPool_new (PageManager_open (Some (PageManager_close (page_manager_ bp)))) n.

(** Flushing an idle pool puts all its pages on disk, where a later pool over
    the same file finds them. *)
Lemma flush_restart n bp :
  ps_idle bp →
  ∃ bp', FlushAll bp = (Status_OK, bp') ∧ ps_idle (restart (S n) bp') ∧ ps_eqv bp (restart (S n) bp').
Proof.
  intros [Hwf Hpin Hav]. unfold FlushAll.
  assert (∀ p f, (p, f) ∈ map_to_list (page_table_ bp) ↔ page_table_ bp !! p = Some f) as Hent.
  { intros p f. apply elem_of_map_to_list. }
  destruct (flush_entries_spec (map_to_list (page_table_ bp)) bp Hwf) as
    (bp' & E & Hwf' & Hfr & Ht & Hc' & _ & _ & Hclean).
  { intros p f. apply Hent. }
  destruct (PageManager_close_open _ (bwf_pm _ _ Hwf')) as (Hpm & Hcount & _ & Hpages).
  exists bp'. split; [done|]. split; [by apply BufferPool_new_idle|]. split.
  - etrans; [exact Hcount|exact Hc'].
  - cbn. intros p Hp. unfold bp_view at 1. cbn [restart BufferPool_new page_table_ page_manager_].
    rewrite lookup_empty, Hpages by lia. rewrite <- (clean_pool_disk bp' Hwf').
    + apply (psf_view _ _ _ (Hfr (p + 1))); cbn; lia.
    + intros q. apply (psf_synced _ _ _ (Hfr (q + 1))); [lia|]. apply (ps_idle_synced bp q); [done|apply Hpin].
    + intros q f Hq. apply (Hclean q). apply Hent. by rewrite <- Ht.
Qed.

(** The abstract store a pool of [n] frames over [pm] starts from. *)
Definition initial_store (pm : PageManager) (n : nat) : AStore :=
  mkAStore (page_count_ pm) (Z.of_nat n) (pm_page pm) (λ _, 0) (λ _, false).

Lemma initial_sim pm n :
  pm_wf pm → ps_sim (BufferPool_new pm n, ∅) (initial_store pm n).
Proof.
  intros Hpm. split; simpl; try done.
  - by apply BufferPool_new_wf.
  - unfold bp_avail. simpl. rewrite length_seq. lia.
Qed.

(** ** Properties *)

(** A client that pins two pages in a pool of one frame, writes a page, lets it
    be evicted, reads it back and flushes it. *)
Definition sample_client : list PoolCmd :=
  [CFetch 1; CWrite 1 (replicate (Z.to_nat kPageSize) Init.Byte.x62); CFetch 2; CUnpin 1 true;
   CFetch 2; CUnpin 2 false; CFetch 1; CWrite 1 (replicate (Z.to_nat kPageSize) Init.Byte.x63);
   CFlushPage 1; CUnpin 1 false; CFetch 2; CUnpin 2 false].

Definition sample_client_final : AStore :=
  match a_run sample_client (initial_store sample_pm 1) with
  | Some (_, a) => a
  | None => initial_store sample_pm 1
  end.

Definition sample_client_out : list PoolOut :=
  match a_run sample_client (initial_store sample_pm 1) with
  | Some (os, _) => os
  | None => []
  end.

Lemma sample_client_run :
  a_run sample_client (initial_store sample_pm 1) = Some (sample_client_out, sample_client_final).
Proof.
  assert (is_Some (a_run sample_client (initial_store sample_pm 1))) as [[os a] E].
  { assert (match a_run sample_client (initial_store sample_pm 1) with Some _ => true | None => false end
              = true) as H by (vm_compute; reflexivity).
    destruct (a_run _ _); [eauto|done]. }
  unfold sample_client_out, sample_client_final. by rewrite E.
Qed.

(** C15: the buffer pool, of any size and whatever it evicts, cannot be told
    from an array of pages with pin counts: for every sequence of fetches, new
    pages, reads and writes through the returned pointers, unpins, page flushes
    and whole flushes that never fetches page 0, pins a page fewer than 2^31
    times, accesses and flushes pages only while they are pinned, and flushes
    what it wrote or unpins it as dirty, every result is the one of the array
    (a fetch fails exactly when the page does not exist or all frames are
    pinned by others), and the pool ends well formed.  At the end [FlushPage]
    of any page puts the array's contents on the disk if the page is cached,
    with no page and no pin changed, and answers [NotFound] if it is not. *)
Theorem buffer_pool_refines pm n cs os a :
  pm_wf pm → a_run cs (initial_store pm n) = Some (os, a) →
  let '(os', (bp, _)) := run_cmds cs (BufferPool_new pm n, ∅) in
  os' = os ∧ bp_wf bp ∧ page_count_ (page_manager_ bp) = a_count a ∧
  (∀ p, bp_pin bp p = a_pin a p) ∧
  ∀ p, 1 ≤ p < a_count a →
    match page_table_ bp !! p with
    | None => a_pin a p = 0 ∧ FlushPage p bp = (NotFound "FlushPage: page not resident", bp)
    | Some _ => ∃ bp', FlushPage p bp = (Status_OK, bp') ∧ bp_wf bp' ∧
        pm_page (page_manager_ bp') p = a_data a p ∧ (∀ q, bp_pin bp' q = a_pin a q) ∧
        ∀ q, 1 ≤ q < a_count a → bp_view bp' q = a_data a q
    end.
Proof.
  intros Hpm Hrun.
  destruct (sim_run cs (BufferPool_new pm n, ∅) _ os a (initial_sim pm n Hpm) Hrun)
    as [Hos [Hwf Hc _ Hv Hp _ _]].
  destruct (run_cmds _ _) as [os' [bp ptrs]]. cbn in *. do 4 (split; [done|]). intros p Hrange.
  pose proof (FlushPage_spec bp p Hwf) as Hf. pose proof (Hp p) as Hpp. unfold bp_pin in Hpp.
  destruct (page_table_ bp !! p) as [f|] eqn:E; [|done].
  destruct Hf as (bp' & Ef & Hwf' & Hfr & _ & _ & _ & Hd). exists bp'. split_and!; try done.
  - by rewrite Hd, Hv.
  - intros q. rewrite <- Hp. apply (psf_pin _ _ _ (Hfr (q + 1))). lia.
  - intros q Hq. rewrite <- Hv by done. apply (psf_view _ _ _ (Hfr (q + 1))); cbn; lia.
Qed.

Lemma buffer_pool_refines_witness :
  (run_cmds sample_client (BufferPool_new sample_pm 1, ∅)).1 = sample_client_out.
Proof.
  pose proof (buffer_pool_refines sample_pm 1 sample_client _ _ sample_pm_wf sample_client_run) as H.
  destruct (run_cmds _ _) as [os' [bp ptrs]]. exact (proj1 H).
Defined.

(** C16: after such a sequence in which everything written was unpinned as
    dirty or flushed, [FlushAll] succeeds in whatever order it visits the page table, and
    once the file has been closed and opened again every page has the contents
    the client last gave it. *)
Theorem buffer_pool_durable pm n cs os a entries :
  pm_wf pm → a_run cs (initial_store pm n) = Some (os, a) → (∀ p, a_touched a p = false) →
  let '(_, (bp, _)) := run_cmds cs (BufferPool_new pm n, ∅) in
  entries ≡ₚ map_to_list (page_table_ bp) →
  ∃ bp', flush_entries entries bp = (Status_OK, bp') ∧
    let pm' := PageManager_open (Some (PageManager_close (page_manager_ bp'))) in
    page_count_ pm' = a_count a ∧ ∀ p, 1 ≤ p < a_count a → pm_page pm' p = a_data a p.
Proof.
  intros Hpm Hrun Hdone.
  destruct (sim_run cs (BufferPool_new pm n, ∅) _ os a (initial_sim pm n Hpm) Hrun)
    as [_ [Hwf Hc _ Hv _ _ Hs]].
  destruct (run_cmds _ _) as [os' [bp ptrs]]. cbn [fst snd] in *. intros Hperm.
  assert (∀ p f, (p, f) ∈ entries ↔ page_table_ bp !! p = Some f) as Hent.
  { intros p f. by rewrite Hperm, elem_of_map_to_list. }
  destruct (flush_entries_spec entries bp Hwf) as (bp' & E & Hwf' & Hfr & Ht & Hc' & _ & _ & Hclean).
  { intros p f. apply Hent. }
  destruct (PageManager_close_open _ (bwf_pm _ _ Hwf')) as (_ & Hcount & _ & Hpages).
  exists bp'. split; [done|]. cbv zeta. rewrite Hcount, Hc'. split; [exact Hc|]. intros p Hp.
  change (page_count_ (page_manager_ bp) = a_count a) in Hc.
  rewrite Hpages by lia. rewrite <- (clean_pool_disk bp' Hwf').
  - rewrite <- Hv by done. apply (psf_view _ _ _ (Hfr (p + 1))); cbn; lia.
  - intros q. apply (psf_synced _ _ _ (Hfr (q + 1))); [lia|]. by apply Hs.
  - intros q f Hq. apply (Hclean q). apply Hent. by rewrite <- Ht.
Qed.

Lemma buffer_pool_durable_witness :
  let '(_, (bp, _)) := run_cmds sample_client (BufferPool_new sample_pm 1, ∅) in
  ∃ bp', FlushAll bp = (Status_OK, bp') ∧
    pm_page (PageManager_open (Some (PageManager_close (page_manager_ bp')))) 1 =
    a_data sample_client_final 1.
Proof.
  assert (∀ p, a_touched sample_client_final p = false) as Ht.
  { intros p. unfold sample_client_final. vm_compute. by repeat case_match. }
  pose proof (λ e, buffer_pool_durable sample_pm 1 sample_client _ _ e sample_pm_wf
    sample_client_run Ht) as H.
  destruct (run_cmds _ _) as [os' [bp ptrs]].
  destruct (H _ (reflexivity _)) as (bp' & E & _ & Hd).
  exists bp'. split; [exact E|]. apply Hd.
  assert (a_count sample_client_final = 3) as -> by (vm_compute; reflexivity). lia.
Defined.
