(* ===== verification/HeapFile.v ===== *)
(** * Heap files: src/storage/heap_file.hpp, heap_file.cpp

    A heap file is a chain of slotted pages, reached from [first_page_id_] by
    [NextPageId].  Its operations go through the page store interface; the
    chain may be shared by any store that satisfies it.  A null [Page*] that
    the code dereferences without a test is undefined behaviour ([None] of
    the monad); loops over the chain carry fuel, and the theorems show that
    one unit per page of the chain is enough. *)

From stdpp Require Import sorting.
From S2P Require Import Prelude Util SlottedPage PageManager PageStore BufferPool.

Record HeapFile := mkHeapFile {
  first_page_id_ : Z;
  last_insert_page_id_ : Z
}.

Section heap_file.
Context {Pool : Type} `{PageStore Pool}.

(** The buffer pool and the members of the heap file. *)
Abbreviation Heap := (Pool * HeapFile)%type.

Definition on_pool {A} (f : Pool → A * Pool) : M Heap A :=
  λ '(s, hf), let '(a, s') := f s in Some (a, (s', hf)).

(** [SlottedPage sp(page)] with [page] used by the next statement. *)
Definition deref (page : option nat) : M Heap nat :=
  match page with
  | Some f => ret f
  | None => undefined_behaviour
  end.

Definition page_data (f : nat) : M Heap Page := gets (λ '(s, _), ps_get f s).
Definition set_page_data (f : nat) (d : Page) : M Heap unit := modify (λ '(s, hf), (ps_set f d s, hf)).
Definition set_last_insert (p : Z) : M Heap unit :=
  modify (λ '(s, hf), (s, mkHeapFile (first_page_id_ hf) p)).

(** The constructor. *)
Definition HeapFile_new (first_page_id : Z) (s : Pool) : option Heap :=
  if first_page_id =? kInvalidPageId then
    match ps_new s with
    | (Some (new_page_id, f), s) =>
        let s := ps_set f (Init (ps_get f s) new_page_id kInvalidPageId) s in
        let '(_, s) := ps_unpin new_page_id true s in
        Some (s, mkHeapFile new_page_id new_page_id)
    | (None, _) => None
    end
  else Some (s, mkHeapFile first_page_id first_page_id).

Definition AllocateNewPage (link_from_page_id : Z) : M Heap Z :=
  let! r := on_pool ps_new in
  match r with
  | None => undefined_behaviour
  | Some (new_page_id, new_page) =>
      let! d := page_data new_page in
      do! set_page_data new_page (Init d new_page_id kInvalidPageId) in
      do! on_pool (ps_unpin new_page_id true) in
      let! page := on_pool (ps_fetch link_from_page_id) in
      let! link_page := deref page in
      let! d := page_data link_page in
      do! set_page_data link_page (SetNextPageId d new_page_id) in
      do! on_pool (ps_unpin link_from_page_id true) in
      ret new_page_id
  end.

(** The loop of [InsertRecord]: the value it returns ([inl]) or, when the
    chain ends, the last page seen ([inr]). *)
Fixpoint insert_loop (fuel : nat) (data : bytes) (current prev : Z) :
    M Heap (Result RecordId + Z) :=
  if current =? kInvalidPageId then ret (inr prev)
  else
    match fuel with
    | O => undefined_behaviour
    | S fuel' =>
        let! page := on_pool (ps_fetch current) in
        match page with
        | None => ret (inl (Err (IOError "InsertRecord: failed to fetch page")))
        | Some f =>
            let! d := page_data f in
            match SlottedPage.InsertRecord d data with
            | (Some slot, d') =>
                do! set_page_data f d' in
                do! on_pool (ps_unpin current true) in
                do! set_last_insert current in
                ret (inl (Ok (mkRid current slot)))
            | (None, _) =>
                let next := NextPageId d in
                do! on_pool (ps_unpin current false) in
                insert_loop fuel' data next current
            end
        end
    end.

Definition InsertRecord (fuel : nat) (data : bytes) : M Heap (Result RecordId) :=
  let! last := gets (λ '(_, hf), last_insert_page_id_ hf) in
  let! r := insert_loop fuel data last kInvalidPageId in
  match r with
  | inl result => ret result
  | inr prev =>
      let link_source := if negb (prev =? kInvalidPageId) then prev else last in
      let! new_page_id := AllocateNewPage link_source in
      let! page := on_pool (ps_fetch new_page_id) in
      let! new_page := deref page in
      let! d := page_data new_page in
      let '(slot, d') := SlottedPage.InsertRecord d data in
      do! set_page_data new_page d' in
      do! on_pool (ps_unpin new_page_id true) in
      match slot with
      | None => ret (Err (OutOfSpace "InsertRecord: record too large for an empty page"))
      | Some slot =>
          do! set_last_insert new_page_id in
          ret (Ok (mkRid new_page_id slot))
      end
  end.

Definition GetRecordBytes (rid : RecordId) : M Heap (Result bytes) :=
  let! page := on_pool (ps_fetch (rid_page_id rid)) in
  match page with
  | None => ret (Err (NotFound "GetRecordBytes: page not found"))
  | Some f =>
      let! d := page_data f in
      match GetRecord d (rid_slot_id rid) with
      | None =>
          do! on_pool (ps_unpin (rid_page_id rid) false) in
          ret (Err (NotFound "GetRecordBytes: record deleted or slot invalid"))
      | Some rec =>
          do! on_pool (ps_unpin (rid_page_id rid) false) in
          ret (Ok rec)
      end
  end.

Definition DeleteRecord (rid : RecordId) : M Heap Status :=
  let! page := on_pool (ps_fetch (rid_page_id rid)) in
  match page with
  | None => ret (NotFound "DeleteRecord: page not found")
  | Some f =>
      let! d := page_data f in
      let '(ok, d') := SlottedPage.DeleteRecord d (rid_slot_id rid) in
      do! (if ok then set_page_data f d' else ret tt) in
      do! on_pool (ps_unpin (rid_page_id rid) ok) in
      if negb ok then ret (NotFound "DeleteRecord: record already deleted or invalid slot")
      else ret Status_OK
  end.

Definition UpdateRecord (fuel : nat) (rid : RecordId) (data : bytes) : M Heap (Result RecordId) :=
  let! page := on_pool (ps_fetch (rid_page_id rid)) in
  match page with
  | None => ret (Err (NotFound "UpdateRecord: page not found"))
  | Some f =>
      let! d := page_data f in
      let '(in_place, d') := UpdateRecordInPlace d (rid_slot_id rid) data in
      do! (if in_place then set_page_data f d' else ret tt) in
      do! on_pool (ps_unpin (rid_page_id rid) in_place) in
      if in_place then ret (Ok rid)
      else
        let! del_status := DeleteRecord rid in
        if negb (status_ok del_status) then ret (Err del_status)
        else InsertRecord fuel data
  end.

(** The visits of one page: [for (s = 0; s < slot_count; ++s)]. *)
Definition scan_page {A} (visitor : RecordId → bytes → A → A) (current : Z) (d : Page) (acc : A) : A :=
  fold_left (λ acc i,
      match GetRecord d (Z.of_nat i) with
      | Some rec => visitor (mkRid current (Z.of_nat i)) rec acc
      | None => acc
      end)
    (seq 0 (Z.to_nat (SlotCount d))) acc.

Fixpoint scan_loop {A} (fuel : nat) (visitor : RecordId → bytes → A → A) (current : Z) (acc : A) :
    M Heap A :=
  if current =? kInvalidPageId then ret acc
  else
    match fuel with
    | O => undefined_behaviour
    | S fuel' =>
        let! page := on_pool (ps_fetch current) in
        match page with
        | None => ret acc
        | Some f =>
            let! d := page_data f in
            let acc := scan_page visitor current d acc in
            let next := NextPageId d in
            do! on_pool (ps_unpin current false) in
            scan_loop fuel' visitor next acc
        end
    end.

(** [Scan(visitor)], the visitor as a function on what it accumulates. *)
Definition Scan {A} (fuel : nat) (visitor : RecordId → bytes → A → A) (acc : A) : M Heap A :=
  let! first := gets (λ '(_, hf), first_page_id_ hf) in
  scan_loop fuel visitor first acc.

(** ** The chain and the abstract heap file *)

Context `{!PageStoreView Pool}.

(** [chain] is the list of pages reached from [p]. *)
Fixpoint is_chain (s : Pool) (p : Z) (chain : list Z) : Prop :=
  match chain with
  | [] => p = kInvalidPageId
  | q :: rest =>
      p = q ∧ 1 ≤ q < ps_count s ∧ sp_wf (ps_view s q) ∧
      is_chain s (NextPageId (ps_view s q)) rest
  end.

Record heap_wf (st : Heap) (chain : list Z) : Prop := {
  hwf_idle : ps_idle st.1;
  hwf_chain : is_chain st.1 (first_page_id_ st.2) chain;
  hwf_nodup : NoDup chain;
  hwf_last : last_insert_page_id_ st.2 ∈ chain
}.

(** The record a [RecordId] of the chain denotes. *)
Definition heap_get (st : Heap) (chain : list Z) (rid : RecordId) : option bytes :=
  if decide (rid_page_id rid ∈ chain ∧ 0 ≤ rid_slot_id rid) then
    mjoin (slots_of (ps_view st.1 (rid_page_id rid)) !! Z.to_nat (rid_slot_id rid))
  else None.

(** The records of the chain in scan order. *)
Definition page_records (s : Pool) (p : Z) : list (RecordId * bytes) :=
  omap (λ i, (λ r, (mkRid p (Z.of_nat i), r)) <$> mjoin (slots_of (ps_view s p) !! i))
    (seq 0 (length (slots_of (ps_view s p)))).
Definition heap_records (st : Heap) (chain : list Z) : list (RecordId * bytes) :=
  chain ≫= page_records st.1.
End heap_file.

#[global] Arguments on_pool : simpl never.
#[global] Arguments heap_wf {Pool _} st chain.

(** ** Lemmas: chains *)

Section chains.
Context {Pool : Type} `{PageStoreView Pool}.
Implicit Types (s : Pool) (chain : list Z).

Lemma is_chain_ext s s' p chain :
  ps_count s ≤ ps_count s' → (∀ q, q ∈ chain → ps_view s' q = ps_view s q) →
  is_chain s p chain → is_chain s' p chain.
Proof.
  intros Hc. induction chain as [|q rest IH] in p |- *; simpl; [done|].
  intros Hv (-> & Hq & Hwf & Hrest). rewrite Hv by left.
  split_and!; try done; try lia. apply IH; [|done]. intros ??. apply Hv. by right.
Qed.

Lemma is_chain_in s p chain q :
  is_chain s p chain → q ∈ chain → 1 ≤ q < ps_count s ∧ sp_wf (ps_view s q).
Proof.
  induction chain as [|q' rest IH] in p |- *; simpl; [by intros ? ?%elem_of_nil|].
  intros (-> & ? & ? & Hrest) [->|?]%elem_of_cons; [done|by eapply IH].
Qed.

Lemma is_chain_eqv s s' p chain : ps_eqv s s' → is_chain s p chain → is_chain s' p chain.
Proof.
  intros [Hc Hv] Hch. eapply is_chain_ext; [|intros q Hq; apply Hv|done]; [lia|].
  by eapply is_chain_in.
Qed.

(** The invariant and the records depend on the pages only, not on which of
    them are cached. *)
#[export] Instance is_chain_proper : Proper (ps_eqv ==> eq ==> eq ==> iff) (is_chain (Pool := Pool)).
Proof.
  intros s s' Hs p ? <- chain ? <-. split; by apply is_chain_eqv.
Qed.

(** The links determine the chain. *)
Lemma is_chain_unique s p chain chain' : is_chain s p chain → is_chain s p chain' → chain = chain'.
Proof.
  induction chain as [|q chain IH] in p, chain' |- *; destruct chain' as [|q' chain']; cbn [is_chain]; [done|..].
  - unfold kInvalidPageId. intros ? (? & ? & _). lia.
  - unfold kInvalidPageId. intros (? & ? & _) ?. lia.
  - intros (-> & _ & _ & Hc) (-> & _ & _ & Hc'). f_equal. by eapply IH.
Qed.

Lemma is_chain_suffix s p chain q :
  is_chain s p chain → q ∈ chain →
  ∃ pre post, chain = pre ++ q :: post ∧ is_chain s q (q :: post).
Proof.
  induction chain as [|q' rest IH] in p |- *; simpl; [by intros ? ?%elem_of_nil|].
  intros (-> & ? & ? & Hrest) [->|Hq]%elem_of_cons; [by exists [], rest|].
  destruct (IH _ Hrest Hq) as (pre & post & -> & ?). by exists (q' :: pre), post.
Qed.

(** A page of the chain is replaced by one with the same link. *)
Lemma is_chain_upd s s' p chain q pg :
  is_chain s p chain → q ∈ chain → ps_upd s q pg s' → sp_wf pg →
  NextPageId pg = NextPageId (ps_view s q) → is_chain s' p chain.
Proof.
  intros Hch Hq (Hc & Hvq & Hv) Hpg Hnext.
  induction chain as [|q' rest IH] in p, Hch, Hq |- *; simpl in *; [done|].
  destruct Hch as (-> & Hq' & Hwf & Hrest).
  assert (is_chain s' (NextPageId (ps_view s q')) rest) as Hrest'.
  { destruct (decide (q ∈ rest)); [by apply IH|].
    eapply is_chain_ext; [|intros q2 Hq2; apply Hv|exact Hrest]; [lia| |congruence].
    by eapply is_chain_in. }
  destruct (decide (q' = q)) as [->|Hne].
  - rewrite Hvq, Hnext. split_and!; try done; lia.
  - rewrite Hv by done. split_and!; try done; lia.
Qed.

(** The last page of the chain is linked to a new one. *)
Lemma is_chain_extend s s' p chain l n :
  is_chain s p chain → NoDup chain → last chain = Some l → ps_count s ≤ ps_count s' →
  (∀ q, q ∈ chain → q ≠ l → ps_view s' q = ps_view s q) →
  sp_wf (ps_view s' l) → NextPageId (ps_view s' l) = n →
  1 ≤ n < ps_count s' → sp_wf (ps_view s' n) → NextPageId (ps_view s' n) = kInvalidPageId →
  is_chain s' p (chain ++ [n]).
Proof.
  intros Hch Hnd Hlast Hc Hv Hwfl Hl Hn Hwfn Hnn.
  induction chain as [|q rest IH] in p, Hch, Hnd, Hlast, Hv |- *; [done|].
  simpl in Hch. destruct Hch as (-> & Hq & Hwf & Hrest). apply NoDup_cons in Hnd as [Hqn Hnd].
  destruct rest as [|q2 rest].
  - injection Hlast as ->. simpl. split_and!; try done; lia.
  - assert (q ≠ l) as Hne.
    { intros ->. apply Hqn. apply last_elem_of. rewrite last_cons_cons in Hlast. done. }
    assert (is_chain s' (NextPageId (ps_view s q)) ((q2 :: rest) ++ [n])) as Hrest'.
    { apply IH; try done. intros q' ? ?. apply Hv; [by right|done]. }
    rewrite last_cons_cons in Hlast. generalize dependent (q2 :: rest). intros r **.
    cbn [app is_chain]. rewrite (Hv q) by (left || done). split_and!; (done || lia).
Qed.
End chains.

(** ** Lemmas: running the operations *)

Section heap_ops.
Context {Pool : Type} `{PageStoreSpec Pool}.
Implicit Types (s : Pool) (hf : HeapFile) (chain : list Z).

Ltac run := unfold bind, on_pool, page_data, set_page_data, set_last_insert, gets, modify, deref, ret;
  cbn [fst snd].
Ltac run_with E := unfold bind at 1; unfold on_pool at 1; rewrite E; cbn [fst snd].

Lemma AllocateNewPage_spec s hf l :
  ps_idle s → ps_count s < 2 ^ 31 - 1 → 1 ≤ l < ps_count s → sp_wf (ps_view s l) →
  let n := ps_count s in
  ∃ s', AllocateNewPage l (s, hf) = Some (n, (s', hf)) ∧ ps_idle s' ∧ ps_count s' = n + 1 ∧
    ps_view s' n = Init blank_page n kInvalidPageId ∧
    ps_view s' l = SetNextPageId (ps_view s l) n ∧
    (∀ q, 1 ≤ q < n → q ≠ l → ps_view s' q = ps_view s q).
Proof.
  intros Hi Hlt Hl Hwfl n. pose proof (ps_count_range s (idle_wf _ Hi)) as Hcr.
  destruct (Init_spec blank_page n kInvalidPageId) as (HIwf & _);
    [apply page_wf_blank|unfold n; blia|done|].
  destruct (create_page s (Init blank_page n kInvalidPageId) Hi Hlt) as
    (f & s1 & s2 & E1 & Eg & E2 & Hi2 & _ & Hc2 & Hv2 & Ho2); [apply HIwf|].
  destruct (SetNextPageId_spec (ps_view s2 l) n) as (HSwf & _);
    [rewrite Ho2 by lia; done|unfold n; blia|].
  destruct (write_page s2 l (SetNextPageId (ps_view s2 l) n) Hi2) as
    (g & s3 & s4 & E3 & Eg3 & E4 & Hi4 & _ & Hc4 & Hv4 & Ho4); [lia|apply HSwf|].
  exists s4. split.
  - unfold AllocateNewPage. run. rewrite E1, Eg. fold n. fold n in E2. rewrite E2, E3, Eg3, E4. done.
  - split_and!; [done| | | |]; unfold n in *.
    + lia.
    + rewrite Ho4 by lia. done.
    + rewrite Hv4, Ho2 by lia. done.
    + intros q ??. rewrite Ho4, Ho2 by lia. done.
Qed.

(** The walk along a suffix of the chain: the first page with room takes the
    record, or no page has room and the last one is reported. *)
Lemma insert_loop_spec fuel data cur prev suf s hf :
  ps_idle s → is_chain s cur suf → (length suf ≤ fuel)%nat →
  (∃ q s' d', q ∈ suf ∧ ps_idle s' ∧ ps_upd s q d' s' ∧
     SlottedPage.InsertRecord (ps_view s q) data =
       (Some (Z.of_nat (insert_slot (slots_of (ps_view s q)))), d') ∧
     fits (ps_view s q) (blen data) ∧
     insert_loop fuel data cur prev (s, hf) =
       Some (inl (Ok (mkRid q (Z.of_nat (insert_slot (slots_of (ps_view s q)))))),
             (s', mkHeapFile (first_page_id_ hf) q))) ∨
  (∃ s', ps_idle s' ∧ ps_eqv s s' ∧ (∀ q, q ∈ suf → ¬ (fits (ps_view s q) (blen data))) ∧
     insert_loop fuel data cur prev (s, hf) = Some (inr (default prev (last suf)), (s', hf))).
Proof.
  induction suf as [|q rest IH] in fuel, cur, prev, s |- *; simpl; intros Hi Hch Hfuel.
  { right. exists s. split_and!; try done.
    - by intros ? ?%elem_of_nil.
    - subst cur. by destruct fuel. }
  destruct fuel as [|fuel]; [lia|]. destruct Hch as (-> & Hq & Hwf & Hrest).
  assert ((q =? kInvalidPageId) = false) as Hqi by (apply Z.eqb_neq; unfold kInvalidPageId; lia).
  destruct (InsertRecord_cases (ps_view s q) data Hwf) as [(Hfit & d' & E & Hwf' & _)|[Hnf E]].
  - left. destruct (write_page s q d' Hi Hq (wf_size _ Hwf'))
      as (f & s1 & s2 & E1 & Eg & E2 & Hi2 & _ & Hu).
    exists q, s2, d'. split_and!; try done; [left|].
    simpl. rewrite Hqi. run. rewrite E1, Eg, E, E2. done.
  - destruct (read_page s q Hi Hq) as (f & s1 & s2 & E1 & Eg & E2 & Hi2 & _ & He).
    assert (insert_loop (Datatypes.S fuel) data q prev (s, hf) =
      insert_loop fuel data (NextPageId (ps_view s q)) q (s2, hf)) as Hstep.
    { simpl. rewrite Hqi. run. rewrite E1, Eg, E, E2. done. }
    destruct (IH fuel (NextPageId (ps_view s q)) q s2 Hi2) as
      [(q2 & s' & d' & Hq2 & Hi' & Hu & E' & Hfit & Er)|(s' & Hi' & He' & Hno & Er)].
    + by apply (is_chain_eqv s).
    + lia.
    + left. destruct (is_chain_in _ _ _ _ Hrest Hq2) as [Hr2 _].
      rewrite (proj2 He) in E', Hfit, Er by done.
      exists q2, s', d'. split; [by right|]. split; [done|]. split; [by eapply ps_eqv_upd|].
      by rewrite Hstep.
    + right. exists s'. split_and!; [done|by transitivity s2| |].
      * intros q2 [->|Hq2]%elem_of_cons; [done|].
        destruct (is_chain_in _ _ _ _ Hrest Hq2) as [Hr2 _].
        rewrite <- (proj2 He) by done. by apply Hno.
      * rewrite Hstep, Er, last_cons. by destruct (last rest).
Qed.

(** What replacing one page of the chain does to the heap file. *)
Lemma heap_update s hf chain q pg s' lst :
  heap_wf (s, hf) chain → q ∈ chain → ps_upd s q pg s' → ps_idle s' → sp_wf pg →
  NextPageId pg = NextPageId (ps_view s q) → lst ∈ chain →
  let st' := (s', mkHeapFile (first_page_id_ hf) lst) in
  heap_wf st' chain ∧
  (∀ rid, rid_page_id rid = q → 0 ≤ rid_slot_id rid →
     heap_get st' chain rid = mjoin (slots_of pg !! Z.to_nat (rid_slot_id rid))) ∧
  (∀ rid, rid_page_id rid ≠ q → heap_get st' chain rid = heap_get (s, hf) chain rid).
Proof.
  intros [Hi Hch Hnd Hl] Hq Hu Hi' Hpg Hn Hlst st'. simpl in *. split_and!.
  - split; try done. by apply (is_chain_upd s s' _ chain q pg).
  - intros rid He ?. unfold heap_get. rewrite He, decide_True by done. simpl.
    by destruct Hu as (_ & -> & _).
  - intros rid Hne. unfold heap_get. case_decide as Hin; [|done]. simpl.
    destruct Hu as (_ & _ & Hv). rewrite Hv; [done| |done]. eapply is_chain_in; [done|tauto].
Qed.

(** The same heap file when only the cache changed. *)
Lemma heap_eqv s hf chain s' :
  heap_wf (s, hf) chain → ps_eqv s s' → ps_idle s' →
  heap_wf (s', hf) chain ∧ ∀ rid, heap_get (s', hf) chain rid = heap_get (s, hf) chain rid.
Proof.
  intros [Hi Hch Hnd Hl] He Hi'. simpl in *. split; [split; try done|].
  - by apply (is_chain_eqv s).
  - intros rid. unfold heap_get. case_decide; [|done]. simpl.
    rewrite (proj2 He); [done|]. eapply is_chain_in; [done|tauto].
Qed.

(** A record of at most this many bytes fits an empty page. *)
Definition max_record : Z := kPageSize - kHeaderSize - kSlotSize.

Lemma fits_max d n : sp_wf d → fits d n → n ≤ max_record.
Proof.
  intros Hwf. unfold fits, max_record. rewrite FreeSpace_wf by done.
  pose proof (wf_free d Hwf). pose proof (slot_count_range d).
  destruct (first_free (slots_of d)) as [i|] eqn:E.
  - apply first_free_Some, lookup_lt_Some in E. rewrite length_slots_of in E.
    page_lia.
  - page_lia.
Qed.

(** An insertion that finds no room in the chain appends a page. *)
Lemma insert_append s hf chain l data :
  heap_wf (s, hf) chain → last chain = Some l → ps_count s < 2 ^ 31 - 1 →
  let n := ps_count s in
  ∃ s' d', let st' := (s', hf) in
    (∀ A (k : Z → option Z → M (Pool * HeapFile) A),
     (let! new_page_id := AllocateNewPage l in
      let! page := on_pool (ps_fetch new_page_id) in
      let! new_page := deref page in
      let! d := page_data new_page in
      let '(slot, d') := SlottedPage.InsertRecord d data in
      do! set_page_data new_page d' in
      do! on_pool (ps_unpin new_page_id true) in k new_page_id slot) (s, hf) =
     k n (SlottedPage.InsertRecord (Init blank_page n kInvalidPageId) data).1 (s', hf)) ∧
    heap_wf st' (chain ++ [n]) ∧ ps_view s' n = d' ∧
    d' = (SlottedPage.InsertRecord (Init blank_page n kInvalidPageId) data).2 ∧
    (n ∉ chain) ∧ ps_count s' = n + 1 ∧
    (∀ q, 1 ≤ q < n → q ∉ chain → ps_view s' q = ps_view s q) ∧
    (∀ q, q ∈ chain → slots_of (ps_view s' q) = slots_of (ps_view s q)).
Proof.
  intros [Hi Hch Hnd Hl] Hlast Hlt n. simpl in *.
  assert (l ∈ chain) as Hlin by (by apply last_elem_of).
  destruct (is_chain_in _ _ _ _ Hch Hlin) as [Hlr Hlwf].
  pose proof (ps_count_range s (idle_wf _ Hi)) as Hcr.
  destruct (AllocateNewPage_spec s hf l Hi Hlt Hlr Hlwf) as (s1 & E1 & Hi1 & Hc1 & Hn1 & Hl1 & Ho1).
  fold n in E1, Hc1, Hn1, Hl1, Ho1.
  destruct (Init_spec blank_page n kInvalidPageId) as (HIwf & _ & _ & HIn & _);
    [apply page_wf_blank|unfold n; blia|done|].
  destruct (SetNextPageId_spec (ps_view s l) n) as (HSwf & HSs & _ & HSn & _); [done|unfold n; blia|].
  set (d0 := Init blank_page n kInvalidPageId) in *.
  assert (sp_wf (SlottedPage.InsertRecord d0 data).2 ∧
          NextPageId (SlottedPage.InsertRecord d0 data).2 = kInvalidPageId) as [Hdwf Hdn].
  { destruct (InsertRecord_cases d0 data HIwf) as [(_ & d' & -> & ? & _ & _ & ?)|[_ ->]];
      simpl; [|done]. split; [done|congruence]. }
  destruct (write_page s1 n (SlottedPage.InsertRecord d0 data).2 Hi1) as
    (f & s2 & s3 & E2 & Eg & E3 & Hi3 & _ & Hc3 & Hv3 & Ho3); [unfold n in *; lia|apply Hdwf|].
  assert (∀ q, q ∈ chain → 1 ≤ q < n) as Hlo by (intros q Hq; by eapply is_chain_in).
  exists s3, (SlottedPage.InsertRecord d0 data).2. split.
  - intros A k. unfold bind at 1. rewrite E1. run. rewrite E2, Eg, Hn1. fold d0.
    destruct (SlottedPage.InsertRecord d0 data) as [slot d']. simpl in *. by rewrite E3.
  - assert (∀ q, 1 ≤ q < n → q ≠ l → ps_view s3 q = ps_view s q) as Hoth.
    { intros q ??. rewrite Ho3, Ho1 by lia. done. }
    assert (ps_view s3 l = SetNextPageId (ps_view s l) n) as Hvl.
    { rewrite Ho3 by (unfold n in *; lia). done. }
    assert (n ∉ chain) as Hnin by (intros Hin%Hlo; lia).
    split_and!; try done; try lia; [split; simpl; try done| |].
    + apply (is_chain_extend s s3 _ chain l n); try done; try (unfold n in *; lia).
      * intros q Hq Hne. apply Hoth; auto.
      * by rewrite Hvl.
      * by rewrite Hvl.
      * by rewrite Hv3.
      * by rewrite Hv3.
    + by apply NoDup_snoc.
    + set_solver.
    + intros q ? Hq. apply Hoth; [done|]. by intros ->.
    + intros q Hq. destruct (decide (q = l)) as [->|Hne]; [by rewrite Hvl|].
      rewrite Hoth by auto. done.
Qed.

Lemma rid_eta rid : rid = mkRid (rid_page_id rid) (rid_slot_id rid).
Proof. by destruct rid. Qed.

(** What an insertion does to the abstract heap file. *)
Definition insert_result (st : Pool * HeapFile) (chain : list Z) (data : bytes)
    (r : Result RecordId) (st' : Pool * HeapFile) (chain' : list Z) : Prop :=
  match r with
  | Ok rid =>
      blen data ≤ max_record ∧ 0 ≤ rid_slot_id rid ∧ rid_page_id rid ∈ chain' ∧
      heap_get st chain rid = None ∧ heap_get st' chain' rid = rec_of data ∧
      ∀ rid', rid' ≠ rid → heap_get st' chain' rid' = heap_get st chain rid'
  | Err e =>
      e = OutOfSpace "InsertRecord: record too large for an empty page" ∧
      max_record < blen data ∧ ∀ rid', heap_get st' chain' rid' = heap_get st chain rid'
  end.

(** A record stored in page [q], which was at [q]'s insertion slot. *)
Lemma insert_result_slots st st' chain chain' data q :
  q ∈ chain' → blen data ≤ max_record →
  (∀ rid, rid_page_id rid = q → 0 ≤ rid_slot_id rid →
     heap_get st' chain' rid =
       mjoin (abs_insert (slots_of (ps_view st.1 q)) data !! Z.to_nat (rid_slot_id rid)) ∧
     heap_get st chain rid = mjoin (slots_of (ps_view st.1 q) !! Z.to_nat (rid_slot_id rid))) →
  (∀ rid, rid_page_id rid ≠ q → heap_get st' chain' rid = heap_get st chain rid) →
  insert_result st chain data
    (Ok (mkRid q (Z.of_nat (insert_slot (slots_of (ps_view st.1 q)))))) st' chain'.
Proof.
  intros Hq Hmax Hin Hout. simpl. set (l := slots_of (ps_view st.1 q)) in *.
  destruct (Hin (mkRid q (Z.of_nat (insert_slot l)))) as [E1 E2]; [done|simpl; lia|].
  simpl in E1, E2. rewrite Nat2Z.id in E1, E2. rewrite abs_insert_lookup_eq in E1.
  split_and!; try done; try lia.
  - by rewrite E2, insert_slot_free.
  - intros rid Hne. destruct (decide (rid_page_id rid = q)) as [He|]; [|by apply Hout].
    destruct (decide (0 ≤ rid_slot_id rid)) as [Hs|Hs].
    + destruct (Hin rid He Hs) as [-> ->]. rewrite abs_insert_lookup_ne; [done|].
      intros Hi. apply Hne. rewrite (rid_eta rid), He. f_equal. lia.
    + unfold heap_get. rewrite !decide_False by (intros [_ ?]; done). done.
Qed.

Lemma heap_get_at st chain rid :
  rid_page_id rid ∈ chain → 0 ≤ rid_slot_id rid →
  heap_get st chain rid = mjoin (slots_of (ps_view st.1 (rid_page_id rid)) !! Z.to_nat (rid_slot_id rid)).
Proof. intros ??. unfold heap_get. by rewrite decide_True. Qed.

(** Pages outside the chain that a heap file operation leaves alone. *)
Definition outside_same (st st' : Pool * HeapFile) (chain : list Z) : Prop :=
  ∀ q, 1 ≤ q < ps_count st.1 → q ∉ chain → ps_view st'.1 q = ps_view st.1 q.

(** The chain after an operation: at most one page, the store's next, is added
    at its end. *)
Definition chain_grown (s s' : Pool) (chain chain' : list Z) : Prop :=
  (chain' = chain ∧ ps_count s' = ps_count s) ∨
  (chain' = chain ++ [ps_count s] ∧ ps_count s' = ps_count s + 1).

Lemma chain_grown_prefix s s' chain chain' : chain_grown s s' chain chain' → chain `prefix_of` chain'.
Proof. intros [[-> _]|[-> _]]; [done|by eexists]. Qed.

Lemma heap_get_append (st st' : Pool * HeapFile) chain n :
  n ∉ chain → (∀ q, q ∈ chain → slots_of (ps_view st'.1 q) = slots_of (ps_view st.1 q)) →
  ∀ rid, rid_page_id rid ≠ n → heap_get st' (chain ++ [n]) rid = heap_get st chain rid.
Proof.
  intros Hn Hs rid Hne. unfold heap_get. destruct (decide (rid_page_id rid ∈ chain ∧ 0 ≤ rid_slot_id rid)) as [[??]|Hno].
  - rewrite decide_True by (split; [set_solver|done]). by rewrite Hs.
  - rewrite decide_False; [done|]. rewrite elem_of_app, list_elem_of_singleton. tauto.
Qed.

Lemma fits_empty n d :
  sp_wf d → slots_of d = [] → FreeSpace d = kPageSize - kHeaderSize → fits d n ↔ n ≤ max_record.
Proof. intros ? Hs Hf. unfold fits, max_record. rewrite Hs, Hf. simpl. lia. Qed.

Lemma insert_result_ext st1 st2 chain data r st' chain' :
  (∀ rid, heap_get st1 chain rid = heap_get st2 chain rid) →
  insert_result st1 chain data r st' chain' → insert_result st2 chain data r st' chain'.
Proof.
  intros He. destruct r as [rid|e]; simpl.
  - intros (? & ? & ? & Hn & ? & Ho). rewrite <- He. split_and!; try done.
    intros ? ?. rewrite <- He. auto.
  - intros (? & ? & Ho). split_and!; try done. intros ?. by rewrite <- He.
Qed.

(** The end of [InsertRecord], after the chain was found full. *)
Lemma insert_append_result s hf chain l data :
  heap_wf (s, hf) chain → last chain = Some l → ps_count s < 2 ^ 31 - 1 →
  ∃ r st', (let! new_page_id := AllocateNewPage l in
      let! page := on_pool (ps_fetch new_page_id) in
      let! new_page := deref page in
      let! d := page_data new_page in
      let '(slot, d') := SlottedPage.InsertRecord d data in
      do! set_page_data new_page d' in
      do! on_pool (ps_unpin new_page_id true) in
      match slot with
      | None => ret (Err (OutOfSpace "InsertRecord: record too large for an empty page"))
      | Some slot =>
          do! set_last_insert new_page_id in
          ret (Ok (mkRid new_page_id slot))
      end) (s, hf) = Some (r, st') ∧
    heap_wf st' (chain ++ [ps_count s]) ∧ ps_count st'.1 = ps_count s + 1 ∧ outside_same (s, hf) st' chain ∧
    insert_result (s, hf) chain data r st' (chain ++ [ps_count s]).
Proof.
  intros Hwf Hlast Hlt.
  destruct (insert_append s hf chain l data Hwf Hlast Hlt) as
    (s2 & d2 & E2 & Hwf2 & Hv2 & Hd2 & Hn2 & Hc2 & Ho2 & Hs2).
  rewrite (E2 _ (λ new_page_id slot, match slot with
      | None => ret (Err (OutOfSpace "InsertRecord: record too large for an empty page"))
      | Some slot => do! set_last_insert new_page_id in ret (Ok (mkRid new_page_id slot))
      end)).
  pose proof (ps_count_range s (idle_wf _ (hwf_idle _ _ Hwf))). set (n := ps_count s) in *.
  destruct (Init_spec blank_page n kInvalidPageId) as (HIwf & HIs & _ & _ & HIf);
    [apply page_wf_blank|unfold n in *; blia|done|].
  set (d0 := Init blank_page n kInvalidPageId) in *.
  assert (∀ hf' rid, rid_page_id rid ≠ n →
            heap_get (s2, hf') (chain ++ [n]) rid = heap_get (s, hf) chain rid) as Hget.
  { intros hf' rid Hr. by apply heap_get_append. }
  assert (∀ rid, rid_page_id rid = n → heap_get (s, hf) chain rid = None) as Hnew.
  { intros rid Hr. unfold heap_get. by rewrite decide_False by (rewrite Hr; tauto). }
  destruct (InsertRecord_cases d0 data HIwf) as [(Hfit & d' & E & Hwf' & Hs' & _)|[Hnf E]];
    rewrite E in *; cbn [fst snd] in *; subst d2.
  - eexists _, _. split; [reflexivity|]. split; [|split; [exact Hc2|split; [exact Ho2|]]].
    { destruct Hwf2 as [? ? ? ?]. split; try done. simpl. set_solver. }
    rewrite HIs in *. split_and!; simpl; try done; try lia.
    + by apply (fits_empty _ d0).
    + set_solver.
    + by apply Hnew.
    + rewrite heap_get_at by (simpl; set_solver). simpl. by rewrite Hd2, Hs'.
    + intros rid Hne. destruct (decide (rid_page_id rid = n)) as [Hr|]; [|by apply Hget].
      rewrite (Hnew rid Hr). unfold heap_get. case_decide as Hd; [|done]. rewrite Hr. simpl.
      rewrite Hd2, Hs'. rewrite abs_insert_lookup_ne; [done|]. simpl. intros Hz. apply Hne.
      rewrite (rid_eta rid), Hr. f_equal. lia.
  - eexists _, _. split; [reflexivity|]. split; [exact Hwf2|split; [exact Hc2|split; [exact Ho2|]]].
    rewrite fits_empty in Hnf by done. split_and!; [done|lia|].
    intros rid. destruct (decide (rid_page_id rid = n)) as [Hr|]; [|by apply Hget].
    rewrite (Hnew rid Hr). unfold heap_get. case_decide; [|done]. rewrite Hr. simpl.
    by rewrite Hd2, HIs.
Qed.

Lemma InsertRecord_spec fuel s hf chain data :
  heap_wf (s, hf) chain → (length chain ≤ fuel)%nat → ps_count s < 2 ^ 31 - 1 →
  ∃ r st' chain', InsertRecord fuel data (s, hf) = Some (r, st') ∧ heap_wf st' chain' ∧
    chain_grown s st'.1 chain chain' ∧ outside_same (s, hf) st' chain ∧
    insert_result (s, hf) chain data r st' chain'.
Proof.
  intros Hwf Hfuel Hlt. pose proof Hwf as [Hi Hch Hnd Hl]. simpl in *.
  destruct (is_chain_suffix _ _ _ _ Hch Hl) as (pre & post & Hsplit & Hsuf).
  unfold InsertRecord. unfold bind at 1. unfold gets at 1. cbn [fst snd].
  set (lst := last_insert_page_id_ hf) in *.
  destruct (insert_loop_spec fuel data lst kInvalidPageId (lst :: post) s hf Hi Hsuf) as
    [(q & s' & d' & Hq & Hi' & Hu & E & Hfit & Er)|(s' & Hi' & He & Hno & Er)].
  { rewrite Hsplit, length_app in Hfuel. simpl in *. lia. }
  - assert (q ∈ chain) as Hqc by (rewrite Hsplit; set_solver).
    destruct (is_chain_in _ _ _ _ Hch Hqc) as [Hqr Hqwf].
    destruct (InsertRecord_cases _ data Hqwf) as [(_ & d2 & E2 & Hwf2 & Hs2 & _ & Hn2)|[? _]]; [|done].
    rewrite E in E2. injection E2 as <-.
    destruct (heap_update s hf chain q d' s' q Hwf Hqc Hu Hi' Hwf2 Hn2 Hqc) as (Hwf' & Hin & Hout).
    eexists _, _, chain. split_and!; [unfold bind at 1; rewrite Er; reflexivity|exact Hwf'|left; split; [done|apply Hu]| |].
    + intros q' ? Hq'. destruct Hu as (_ & _ & Hv). apply Hv; [done|]. by intros ->.
    + apply (insert_result_slots (s, hf)); [done|by apply (fits_max (ps_view s q))| |done].
      intros rid Hr ?. rewrite Hin, Hs2 by done. split; [done|]. rewrite heap_get_at by (by rewrite ?Hr).
      by rewrite Hr.
  - destruct (last (lst :: post)) as [l|] eqn:Hlast; [|by apply last_None in Hlast].
    assert (last chain = Some l) as Hlastc by (rewrite Hsplit, last_app; by rewrite Hlast).
    destruct (heap_eqv s hf chain s' Hwf He Hi') as [Hwf1 Hget1].
    destruct He as [Hc Hv].
    destruct (insert_append_result s' hf chain l data Hwf1 Hlastc) as
      (r & st' & E & Hwf' & Hc' & Hout & Hres); [lia|].
    exists r, st', (chain ++ [ps_count s']). split_and!; [|done|right; rewrite <- Hc; split; [done|lia]| |].
    + unfold bind at 1. rewrite Er. cbn [default from_option id].
      destruct (is_chain_in _ _ _ l Hch) as [? _]; [by apply last_elem_of|].
      destruct (Z.eqb_spec l kInvalidPageId); [unfold kInvalidPageId in *; lia|]. exact E.
    + intros q Hq ?. simpl in *. rewrite Hout by (simpl; done || lia). by apply Hv.
    + by apply (insert_result_ext (s', hf)).
Qed.

Lemma chain_page s hf chain rid :
  heap_wf (s, hf) chain → rid_page_id rid ∈ chain →
  1 ≤ rid_page_id rid < ps_count s ∧ sp_wf (ps_view s (rid_page_id rid)).
Proof. intros [_ Hch _ _] Hin. by eapply is_chain_in. Qed.

(** Outside the chain nothing changes when a page of the chain does. *)
Lemma upd_outside s hf s' hf' chain q pg :
  q ∈ chain → ps_upd s q pg s' → outside_same (s, hf) (s', hf') chain.
Proof. intros Hq (_ & _ & Hv) q' ? Hq'. apply Hv; [done|]. by intros ->. Qed.

Lemma GetRecordBytes_spec s hf chain rid :
  heap_wf (s, hf) chain → rid_page_id rid ∈ chain → 0 ≤ rid_slot_id rid →
  ∃ s', GetRecordBytes rid (s, hf) =
      Some (match heap_get (s, hf) chain rid with
            | Some rec => Ok rec
            | None => Err (NotFound "GetRecordBytes: record deleted or slot invalid")
            end, (s', hf)) ∧
    ps_idle s' ∧ ps_eqv s s'.
Proof.
  intros Hwf Hin Hs. destruct (chain_page _ _ _ _ Hwf Hin) as [Hr _].
  destruct (read_page s _ (hwf_idle _ _ Hwf) Hr) as (f & s1 & s2 & E1 & Eg & E2 & Hi2 & _ & He).
  exists s2. split; [|done]. rewrite heap_get_at by done. cbn [fst].
  unfold GetRecordBytes. run. rewrite E1, Eg, GetRecord_slots by done.
  destruct (mjoin _); by rewrite E2.
Qed.

(** Record ids of pages that are not in the file. *)
Lemma missing_page s hf chain rid data fuel :
  heap_wf (s, hf) chain → rid_page_id rid < 0 ∨ ps_count s ≤ rid_page_id rid →
  ∃ s', GetRecordBytes rid (s, hf) = Some (Err (NotFound "GetRecordBytes: page not found"), (s', hf)) ∧
    DeleteRecord rid (s, hf) = Some (NotFound "DeleteRecord: page not found", (s', hf)) ∧
    UpdateRecord fuel rid data (s, hf) = Some (Err (NotFound "UpdateRecord: page not found"), (s', hf)) ∧
    ps_idle s' ∧ ps_eqv s s'.
Proof.
  intros Hwf Hout. destruct (idle_fetch_missing s _ (hwf_idle _ _ Hwf) Hout) as (s' & E & Hi & _ & He).
  exists s'. unfold GetRecordBytes, DeleteRecord, UpdateRecord. run. by rewrite E.
Qed.

(** A page of the chain whose slot [rid] was replaced. *)
Lemma heap_set_slot s hf chain rid d' s' r :
  heap_wf (s, hf) chain → rid_page_id rid ∈ chain → 0 ≤ rid_slot_id rid →
  is_Some (slots_of (ps_view s (rid_page_id rid)) !! Z.to_nat (rid_slot_id rid)) →
  ps_upd s (rid_page_id rid) d' s' → ps_idle s' → sp_wf d' →
  NextPageId d' = NextPageId (ps_view s (rid_page_id rid)) →
  slots_of d' = <[Z.to_nat (rid_slot_id rid) := r]> (slots_of (ps_view s (rid_page_id rid))) →
  heap_wf (s', hf) chain ∧ outside_same (s, hf) (s', hf) chain ∧ heap_get (s', hf) chain rid = r ∧
  (∀ rid', rid' ≠ rid → heap_get (s', hf) chain rid' = heap_get (s, hf) chain rid').
Proof.
  intros Hwf Hin Hs [x Hx] Hu Hi Hwf' Hn Hsl.
  destruct (heap_update s hf chain _ d' s' (last_insert_page_id_ hf) Hwf Hin Hu Hi Hwf' Hn)
    as (Hwf2 & Hget & Hoth); [apply Hwf|].
  replace (mkHeapFile (first_page_id_ hf) (last_insert_page_id_ hf)) with hf in * by (by destruct hf).
  split_and!; [done|by eapply upd_outside| |].
  - rewrite Hget, Hsl by done. rewrite list_lookup_insert_eq; [done|]. by eapply lookup_lt_Some.
  - intros rid' Hne. destruct (decide (rid_page_id rid' = rid_page_id rid)) as [Hp|]; [|by apply Hoth].
    destruct (decide (0 ≤ rid_slot_id rid')) as [Hs'|Hs'].
    + rewrite Hget, Hsl by done. rewrite heap_get_at by (rewrite ?Hp; done). rewrite Hp.
      rewrite list_lookup_insert_ne; [done|]. intros Hz. apply Hne.
      rewrite (rid_eta rid), (rid_eta rid'), Hp. f_equal. lia.
    + unfold heap_get. by rewrite !decide_False by (intros [_ ?]; done).
Qed.

(** A record of the heap file is a live slot of its page. *)
Lemma heap_get_Some s hf chain rid r :
  heap_wf (s, hf) chain → heap_get (s, hf) chain rid = Some r →
  rid_page_id rid ∈ chain ∧ 0 ≤ rid_slot_id rid ∧
  live (ps_view s (rid_page_id rid)) (rid_slot_id rid) ∧
  slots_of (ps_view s (rid_page_id rid)) !! Z.to_nat (rid_slot_id rid) = Some (Some r) ∧
  slot_length (ReadSlot (ps_view s (rid_page_id rid)) (rid_slot_id rid)) = blen r.
Proof.
  intros Hwf. unfold heap_get. case_decide as Hd; [|done]. destruct Hd as [Hin Hs]. cbn [fst].
  destruct (slots_of _ !! _) as [[r'|]|] eqn:E; try done. intros [= ->].
  assert (live (ps_view s (rid_page_id rid)) (rid_slot_id rid)) as Hl by (apply live_slots; eauto).
  split_and!; try done; try apply Hl.
  destruct (chain_page _ _ _ _ Hwf Hin) as [_ Hp]. by apply live_length.
Qed.

Lemma heap_get_None s hf chain rid :
  rid_page_id rid ∈ chain → 0 ≤ rid_slot_id rid → heap_get (s, hf) chain rid = None →
  ¬ live (ps_view s (rid_page_id rid)) (rid_slot_id rid).
Proof.
  intros Hin Hs. rewrite heap_get_at by done. cbn [fst]. intros Hn [r Hr]%live_slots; [|done].
  by rewrite Hr in Hn.
Qed.

Lemma DeleteRecord_spec s hf chain rid :
  heap_wf (s, hf) chain → rid_page_id rid ∈ chain → 0 ≤ rid_slot_id rid →
  ∃ s', DeleteRecord rid (s, hf) =
      Some (match heap_get (s, hf) chain rid with
            | Some _ => Status_OK
            | None => NotFound "DeleteRecord: record already deleted or invalid slot"
            end, (s', hf)) ∧
    heap_wf (s', hf) chain ∧ outside_same (s, hf) (s', hf) chain ∧
    heap_get (s', hf) chain rid = None ∧
    (∀ rid', rid' ≠ rid → heap_get (s', hf) chain rid' = heap_get (s, hf) chain rid') ∧
    ps_count s' = ps_count s.
Proof.
  intros Hwf Hin Hs. destruct (chain_page _ _ _ _ Hwf Hin) as [Hr Hwfp].
  pose proof (hwf_idle _ _ Hwf) as Hi. simpl in Hi.
  destruct (heap_get (s, hf) chain rid) as [r|] eqn:Hg.
  - destruct (heap_get_Some _ _ _ _ _ Hwf Hg) as (_ & _ & Hlive & Hslot & _).
    destruct (DeleteRecord_live _ _ Hwfp Hlive) as (d' & E & Hwf' & Hsl & _ & Hn).
    destruct (write_page s _ d' Hi Hr (wf_size _ Hwf'))
      as (f & s1 & s2 & E1 & Eg & E2 & Hi2 & _ & Hu).
    destruct (heap_set_slot s hf chain rid d' s2 None) as (? & ? & ? & ?); try done.
    exists s2. split_and!; try done; [|apply Hu].
    unfold DeleteRecord. run. rewrite E1, Eg, E. run. by rewrite E2.
  - destruct (read_page s _ Hi Hr) as (f & s1 & s2 & E1 & Eg & E2 & Hi2 & _ & He).
    destruct (heap_eqv s hf chain s2 Hwf He Hi2) as [Hwf2 Hget].
    exists s2. split_and!; [|done| |by rewrite Hget|by intros; apply Hget|apply He].
    + unfold DeleteRecord. run. rewrite E1, Eg, DeleteRecord_dead; [|done|by eapply heap_get_None].
      run. by rewrite E2.
    + intros q ??. by apply He.
Qed.

(** A declined in-place update leaves the file as it was and goes on with the
    deletion. *)
Lemma UpdateRecord_declined fuel s hf chain rid data :
  heap_wf (s, hf) chain → rid_page_id rid ∈ chain → 0 ≤ rid_slot_id rid →
  ¬ (live (ps_view s (rid_page_id rid)) (rid_slot_id rid) ∧
     blen data ≤ slot_length (ReadSlot (ps_view s (rid_page_id rid)) (rid_slot_id rid))) →
  ∃ s2, heap_wf (s2, hf) chain ∧ ps_eqv s s2 ∧
    (∀ rid', heap_get (s2, hf) chain rid' = heap_get (s, hf) chain rid') ∧
    UpdateRecord fuel rid data (s, hf) =
      (let! del_status := DeleteRecord rid in
       if negb (status_ok del_status) then ret (Err del_status)
       else InsertRecord fuel data) (s2, hf).
Proof.
  intros Hwf Hin Hs Hno. destruct (chain_page _ _ _ _ Hwf Hin) as [Hr _].
  destruct (read_page s _ (hwf_idle _ _ Hwf) Hr) as (f & s1 & s2 & E1 & Eg & E2 & Hi2 & _ & He).
  destruct (heap_eqv s hf chain s2 Hwf He Hi2) as [Hwf2 Hget].
  exists s2. split_and!; try done; [apply He..|].
  unfold UpdateRecord. unfold bind at 1, on_pool at 1. rewrite E1.
  unfold bind at 1, page_data at 1, gets at 1. rewrite Eg, UpdateRecordInPlace_declines by done.
  unfold bind at 1, ret at 1. unfold bind at 1, on_pool at 1. by rewrite E2.
Qed.

(** [UpdateRecord] of a live record: in place when the new bytes are no longer
    than the old ones, otherwise a deletion followed by an insertion. *)
Lemma UpdateRecord_spec fuel s hf chain rid data :
  heap_wf (s, hf) chain → rid_page_id rid ∈ chain → 0 ≤ rid_slot_id rid →
  (length chain ≤ fuel)%nat → ps_count s < 2 ^ 31 - 1 →
  ∃ r st' chain', UpdateRecord fuel rid data (s, hf) = Some (r, st') ∧ heap_wf st' chain' ∧
    chain_grown s st'.1 chain chain' ∧ outside_same (s, hf) st' chain ∧
    match heap_get (s, hf) chain rid with
    | None =>
        r = Err (NotFound "DeleteRecord: record already deleted or invalid slot") ∧
        ∀ rid', heap_get st' chain' rid' = heap_get (s, hf) chain rid'
    | Some old =>
        if decide (blen data ≤ blen old) then
          r = Ok rid ∧ chain' = chain ∧ ps_count st'.1 = ps_count s ∧
          heap_get st' chain' rid = rec_of data ∧
          ∀ rid', rid' ≠ rid → heap_get st' chain' rid' = heap_get (s, hf) chain rid'
        else
          ∃ s1, heap_wf (s1, hf) chain ∧ heap_get (s1, hf) chain rid = None ∧
            (∀ rid', rid' ≠ rid → heap_get (s1, hf) chain rid' = heap_get (s, hf) chain rid') ∧
            insert_result (s1, hf) chain data r st' chain'
    end.
Proof.
  intros Hwf Hin Hs Hfuel Hlt. destruct (chain_page _ _ _ _ Hwf Hin) as [Hr Hwfp].
  pose proof (hwf_idle _ _ Hwf) as Hi. simpl in Hi.
  pose proof (UpdateRecord_declined fuel s hf chain rid data Hwf Hin Hs) as Hdecl.
  destruct (heap_get (s, hf) chain rid) as [old|] eqn:Hg.
  - destruct (heap_get_Some _ _ _ _ _ Hwf Hg) as (_ & _ & Hlive & Hslot & Hlen).
    rewrite Hlen in Hdecl. case_decide as Hfit.
    + destruct (UpdateRecordInPlace_fits _ _ data Hwfp Hlive) as (d' & E & Hwf' & Hsl & _ & Hn); [lia|].
      destruct (write_page s _ d' Hi Hr (wf_size _ Hwf'))
        as (f & s1 & s2 & E1 & Eg & E2 & Hi2 & _ & Hu).
      destruct (heap_set_slot s hf chain rid d' s2 (rec_of data)) as (? & ? & ? & ?); try done.
      exists (Ok rid), (s2, hf), chain. split_and!; try done; [|left; split; [done|apply Hu]|apply Hu].
      unfold UpdateRecord. run. rewrite E1, Eg, E. run. by rewrite E2.
    + destruct Hdecl as (s2 & Hwf2 & [Hc2 Hv2] & Hget2 & ->); [tauto|].
      destruct (DeleteRecord_spec s2 hf chain rid Hwf2 Hin Hs) as (s3 & E3 & Hwf3 & Ho3 & Hn3 & Hg3 & Hc3).
      rewrite Hget2, Hg in E3.
      destruct (InsertRecord_spec fuel s3 hf chain data Hwf3 Hfuel) as
        (r & st' & chain' & E4 & Hwf4 & Hpre & Ho4 & Hres); [lia|].
      exists r, st', chain'. split_and!; try done.
      * unfold bind at 1. by rewrite E3.
      * unfold chain_grown in *. by rewrite Hc3, Hc2 in Hpre.
      * intros q Hq ?. simpl in *. rewrite Ho4, Ho3, Hv2 by (simpl; done || lia). done.
      * exists s3. split_and!; try done; [by apply Hwf3..|]. intros. by rewrite Hg3.
  - destruct Hdecl as (s2 & Hwf2 & [Hc2 Hv2] & Hget2 & ->).
    { intros [Hlive _]. by eapply heap_get_None. }
    destruct (DeleteRecord_spec s2 hf chain rid Hwf2 Hin Hs) as (s3 & E3 & Hwf3 & Ho3 & Hn3 & Hg3 & Hc3).
    rewrite Hget2, Hg in E3.
    exists (Err (NotFound "DeleteRecord: record already deleted or invalid slot")), (s3, hf), chain.
    split_and!; try done.
    + unfold bind at 1. by rewrite E3.
    + left. split; [done|]. simpl. lia.
    + intros q Hq ?. simpl in *. rewrite Ho3, Hv2 by (simpl; done || lia). done.
    + intros rid'. destruct (decide (rid' = rid)) as [->|]; [by rewrite Hn3|]. by rewrite Hg3.
Qed.

(** ** Lemmas: scanning *)

Lemma fold_left_omap {A B C} (g : A → option B) (f : C → B → C) (l : list A) (c : C) :
  fold_left (λ c a, match g a with Some b => f c b | None => c end) l c = fold_left f (omap g l) c.
Proof.
  induction l as [|a l IH] in c |- *; [done|]. cbn [fold_left omap list_omap].
  rewrite IH. destruct (g a); done.
Qed.

(** The scan of a page visits its records in slot order. *)
Lemma scan_page_records {A} (visitor : RecordId → bytes → A → A) s q acc :
  scan_page visitor q (ps_view s q) acc =
  fold_left (λ acc '(rid, rec), visitor rid rec acc) (page_records s q) acc.
Proof.
  unfold scan_page, page_records. rewrite <- fold_left_omap, length_slots_of.
  generalize (seq 0 (Z.to_nat (SlotCount (ps_view s q)))). intros l.
  induction l as [|i l IH] in acc |- *; [done|]. cbn [fold_left]. rewrite IH.
  rewrite GetRecord_slots, Nat2Z.id by lia. by destruct (mjoin _).
Qed.

Lemma heap_records_ext s s' hf hf' chain :
  (∀ q, q ∈ chain → ps_view s' q = ps_view s q) →
  heap_records (s', hf') chain = heap_records (s, hf) chain.
Proof.
  intros Hv. unfold heap_records. simpl. induction chain as [|q rest IH]; [done|].
  cbn [mbind list_bind]. rewrite IH by (intros; apply Hv; by right). f_equal.
  unfold page_records. rewrite Hv by left. done.
Qed.

Lemma scan_loop_spec {A} fuel (visitor : RecordId → bytes → A → A) cur chain acc s hf :
  ps_idle s → is_chain s cur chain → (length chain ≤ fuel)%nat →
  ∃ s', scan_loop fuel visitor cur acc (s, hf) =
      Some (fold_left (λ acc '(rid, rec), visitor rid rec acc) (heap_records (s, hf) chain) acc, (s', hf)) ∧
    ps_idle s' ∧ ps_eqv s s'.
Proof.
  induction chain as [|q rest IH] in fuel, cur, acc, s |- *; cbn [is_chain length]; intros Hi Hch Hfuel.
  { exists s. split_and!; try done. subst cur. by destruct fuel. }
  destruct fuel as [|fuel]; [lia|]. destruct Hch as (-> & Hq & Hwf & Hrest).
  assert ((q =? kInvalidPageId) = false) as Hqi by (apply Z.eqb_neq; unfold kInvalidPageId; lia).
  destruct (read_page s q Hi Hq) as (f & s1 & s2 & E1 & Eg & E2 & Hi2 & _ & He).
  destruct (IH fuel (NextPageId (ps_view s q)) (scan_page visitor q (ps_view s q) acc) s2 Hi2)
    as (s' & E & Hi' & He').
  { by apply (is_chain_eqv s). }
  { lia. }
  exists s'. split; [|split; [done|by transitivity s2]].
  assert (heap_records (s, hf) (q :: rest) = page_records s q ++ heap_records (s2, hf) rest) as ->.
  { rewrite (heap_records_ext s s2 hf hf); [done|]. intros q' Hq'. apply He. by eapply is_chain_in. }
  rewrite fold_left_app, <- scan_page_records, <- E.
  simpl. rewrite Hqi. run. by rewrite E1, Eg, E2.
Qed.

Lemma elem_of_page_records s p rid r :
  (rid, r) ∈ page_records s p ↔
  rid_page_id rid = p ∧ 0 ≤ rid_slot_id rid ∧
  mjoin (slots_of (ps_view s p) !! Z.to_nat (rid_slot_id rid)) = Some r.
Proof.
  unfold page_records. rewrite list_elem_of_omap. split.
  - intros (i & Hi & E). destruct (mjoin _) as [r'|] eqn:Em; [|done]. simpl in E. simplify_eq. simpl.
    rewrite Nat2Z.id. split_and!; try done. lia.
  - intros (<- & Hs & Hm). exists (Z.to_nat (rid_slot_id rid)). split.
    + apply elem_of_seq. split; [lia|]. destruct (slots_of _ !! _) eqn:E; [|done].
      apply lookup_lt_Some in E. lia.
    + rewrite Hm. simpl. rewrite Z2Nat.id by done. by rewrite <- rid_eta.
Qed.

Lemma elem_of_heap_records st chain rid r :
  (rid, r) ∈ heap_records st chain ↔ heap_get st chain rid = Some r.
Proof.
  unfold heap_records. rewrite list_elem_of_bind. unfold heap_get. split.
  - intros (p & (<- & ? & ?)%elem_of_page_records & ?). by rewrite decide_True.
  - case_decide as Hd; [|done]. intros Hm. exists (rid_page_id rid). split; [|tauto].
    apply elem_of_page_records. tauto.
Qed.

Lemma NoDup_page_records s p : NoDup (page_records s p).*1.
Proof.
  unfold page_records. generalize (slots_of (ps_view s p)). intros l.
  assert (∀ k, NoDup k → NoDup (omap (λ i, (λ r, (mkRid p (Z.of_nat i), r)) <$> mjoin (l !! i)) k).*1)
    as Hk; [|apply Hk, NoDup_ListNoDup, seq_NoDup].
  induction k as [|i k IH]; intros Hnd; [constructor|]. apply NoDup_cons in Hnd as [Hi Hnd].
  cbn [omap list_omap]. destruct (mjoin (l !! i)) as [r|]; [|by apply IH]. simpl.
  apply NoDup_cons. split; [|by apply IH]. intros (x & Hx & Hin)%list_elem_of_fmap.
  apply list_elem_of_omap in Hin as (j & Hj & E). destruct (mjoin (l !! j)); [|done].
  simpl in E. injection E as <-. simpl in Hx. assert (i = j) as -> by (simplify_eq; lia). done.
Qed.

Lemma NoDup_heap_records st chain : NoDup chain → NoDup (heap_records st chain).*1.
Proof.
  unfold heap_records. induction chain as [|p chain IH]; intros Hnd; [constructor|].
  apply NoDup_cons in Hnd as [Hp Hnd]. cbn [mbind list_bind]. rewrite fmap_app.
  apply NoDup_app. split_and!; [apply NoDup_page_records| |by apply IH].
  intros rid (x & -> & Hx)%list_elem_of_fmap (y & Hy & Hin)%list_elem_of_fmap.
  apply list_elem_of_bind in Hin as (q & Hq & Hqc).
  destruct x as [rid r], y as [rid' r']. simpl in Hy. subst rid'.
  apply elem_of_page_records in Hx as (<- & _), Hq as (<- & _). done.
Qed.

(** [Scan] visits [r1] before [r2]: it is in an earlier slot of the same page,
    or in an earlier page of the chain. *)
Definition scan_before (chain : list Z) (r1 r2 : RecordId) : Prop :=
  (rid_page_id r1 = rid_page_id r2 ∧ rid_slot_id r1 < rid_slot_id r2) ∨
  ∃ l1 l2 l3, chain = l1 ++ rid_page_id r1 :: l2 ++ rid_page_id r2 :: l3.

Lemma scan_before_cons p chain r1 r2 : scan_before chain r1 r2 → scan_before (p :: chain) r1 r2.
Proof. intros [?|(l1 & l2 & l3 & ->)]; [by left|right]. by exists (p :: l1), l2, l3. Qed.

Lemma StronglySorted_impl {A} (R R' : relation A) l :
  (∀ x y, R x y → R' x y) → StronglySorted R l → StronglySorted R' l.
Proof.
  intros Himp. induction 1 as [|x l Hs IH Hl]; constructor; [done|]. eapply Forall_impl; [exact Hl|]. apply Himp.
Qed.

Lemma page_records_sorted s p chain : StronglySorted (scan_before chain) (page_records s p).*1.
Proof.
  unfold page_records. generalize (slots_of (ps_view s p)). intros l.
  generalize (length l), 0%nat. intros n k. induction n as [|n IH] in k |- *; cbn [seq omap list_omap]; [constructor|].
  destruct (mjoin (l !! k)) as [r|]; [|apply IH]. cbn [fmap option_fmap option_map list_fmap fst].
  constructor; [apply IH|]. apply Forall_fmap, Forall_forall. intros [rid r'] Hin.
  apply list_elem_of_omap in Hin as (j & Hj%elem_of_seq & E). destruct (mjoin (l !! j)); [|done].
  simpl in E. simplify_eq. left. simpl. split; [done|]. lia.
Qed.

Lemma heap_records_sorted st chain : StronglySorted (scan_before chain) (heap_records st chain).*1.
Proof.
  unfold heap_records. induction chain as [|p chain IH]; [constructor|]. cbn [mbind list_bind].
  rewrite fmap_app. apply StronglySorted_app_2; [|apply page_records_sorted|].
  - intros r1 r2 ([rid1 x] & -> & Hr1)%list_elem_of_fmap ([rid2 y] & -> & Hr2)%list_elem_of_fmap.
    apply list_elem_of_bind in Hr2 as (q & Hr2 & Hq). apply elem_of_page_records in Hr1 as (<- & _), Hr2 as (<- & _).
    apply list_elem_of_split in Hq as (l2 & l3 & ->). right. by exists [], l2, l3.
  - eapply StronglySorted_impl; [|exact IH]. intros. by apply scan_before_cons.
Qed.

(** ** Lemmas: creating and opening *)

Lemma HeapFile_create s :
  ps_idle s → ps_count s < 2 ^ 31 - 1 →
  let n := ps_count s in
  ∃ s', HeapFile_new kInvalidPageId s = Some (s', mkHeapFile n n) ∧
    heap_wf (s', mkHeapFile n n) [n] ∧ ps_count s' = n + 1 ∧
    heap_records (s', mkHeapFile n n) [n] = [] ∧
    (∀ q, 1 ≤ q < n → ps_view s' q = ps_view s q).
Proof.
  intros Hi Hlt n. pose proof (ps_count_range s (idle_wf _ Hi)).
  destruct (Init_spec blank_page n kInvalidPageId) as (HIwf & HIs & _ & HIn & _);
    [apply page_wf_blank|unfold n; blia|done|].
  destruct (create_page s (Init blank_page n kInvalidPageId) Hi Hlt) as
    (f & s1 & s2 & E1 & Eg & E2 & Hi2 & _ & Hc2 & Hv2 & Ho2); [apply HIwf|].
  exists s2. fold n in E1, E2, Hc2, Hv2, Ho2. split_and!; try done.
  - unfold HeapFile_new. cbn [Z.eqb kInvalidPageId Pos.eqb]. rewrite E1, Eg, E2. done.
  - split; simpl; [done| |apply NoDup_singleton|left].
    rewrite Hv2. split_and!; try done; unfold n in *; lia.
  - unfold heap_records, page_records. simpl. by rewrite Hv2, HIs.
Qed.

(** The constructor on an existing first page only remembers it. *)
Lemma HeapFile_open s first chain :
  ps_idle s → is_chain s first chain → chain ≠ [] → NoDup chain →
  HeapFile_new first s = Some (s, mkHeapFile first first) ∧
  heap_wf (s, mkHeapFile first first) chain.
Proof.
  intros Hi Hch Hne Hnd. destruct chain as [|q rest]; [done|]. pose proof Hch as (-> & ? & _).
  unfold HeapFile_new. destruct (Z.eqb_spec q kInvalidPageId); [unfold kInvalidPageId in *; lia|].
  split; [done|]. split; try done. left.
Qed.

(** ** Properties *)

(** C17: inserting a record of at least one byte into a heap file always
    returns, whatever the store caches.  It succeeds exactly when the record
    fits an empty page; the record id is one that held no record, reading it
    gives the bytes back, and every other record and every page of other
    files is as before.  A larger record is refused with OutOfSpace and no
    record changes.  The chain stays well formed in both cases. *)
Theorem heap_insert_correct fuel (s : Pool) hf chain data :
  heap_wf (s, hf) chain → (length chain ≤ fuel)%nat → ps_count s < 2 ^ 31 - 1 → 0 < blen data →
  ∃ r st' chain', InsertRecord fuel data (s, hf) = Some (r, st') ∧ heap_wf st' chain' ∧
    chain `prefix_of` chain' ∧ outside_same (s, hf) st' chain ∧
    ((blen data ≤ kPageSize - kHeaderSize - kSlotSize ∧
      ∃ rid, r = Ok rid ∧ heap_get (s, hf) chain rid = None ∧
        (∃ st'', GetRecordBytes rid st' = Some (Ok data, st'')) ∧
        ∀ rid', rid' ≠ rid → heap_get st' chain' rid' = heap_get (s, hf) chain rid') ∨
     (kPageSize - kHeaderSize - kSlotSize < blen data ∧
      r = Err (OutOfSpace "InsertRecord: record too large for an empty page") ∧
      ∀ rid', heap_get st' chain' rid' = heap_get (s, hf) chain rid')).
Proof.
  intros Hwf Hfuel Hlt Hlen.
  destruct (InsertRecord_spec fuel s hf chain data Hwf Hfuel Hlt) as
    (r & [s' hf'] & chain' & E & Hwf' & Hpre & Hout & Hres).
  exists r, (s', hf'), chain'. apply chain_grown_prefix in Hpre. split_and!; try done. destruct r as [rid|e]; simpl in Hres.
  - destruct Hres as (? & ? & Hin & ? & Hg & ?). left. split; [done|]. exists rid.
    split_and!; try done.
    destruct (GetRecordBytes_spec s' hf' chain' rid) as (s2 & E2 & _); try done.
    rewrite Hg in E2. unfold rec_of in E2. destruct (Z.eqb_spec (blen data) 0); [lia|]. eauto.
  - destruct Hres as (-> & ? & ?). right. done.
Qed.

(** C18: [UpdateRecord] and [DeleteRecord] on any record id of the file.  On a
    record that is not there both report NotFound and change nothing.  Deleting
    a record removes it and no other.  Updating one with no more bytes than it
    had keeps its id and replaces it alone; with more bytes, up to a page, it
    moves to a fresh or to its own id, and no other record changes. *)
Theorem heap_delete_update_correct fuel (s : Pool) hf chain rid data :
  heap_wf (s, hf) chain → rid_page_id rid ∈ chain → 0 ≤ rid_slot_id rid →
  (length chain ≤ fuel)%nat → ps_count s < 2 ^ 31 - 1 →
  blen data ≤ kPageSize - kHeaderSize - kSlotSize →
  (∃ st1, DeleteRecord rid (s, hf) =
      Some (match heap_get (s, hf) chain rid with
            | Some _ => Status_OK
            | None => NotFound "DeleteRecord: record already deleted or invalid slot"
            end, st1) ∧
    heap_wf st1 chain ∧ outside_same (s, hf) st1 chain ∧ heap_get st1 chain rid = None ∧
    ∀ rid', rid' ≠ rid → heap_get st1 chain rid' = heap_get (s, hf) chain rid') ∧
  (∃ r st2 chain2, UpdateRecord fuel rid data (s, hf) = Some (r, st2) ∧ heap_wf st2 chain2 ∧
    chain `prefix_of` chain2 ∧ outside_same (s, hf) st2 chain ∧
    match heap_get (s, hf) chain rid with
    | None =>
        r = Err (NotFound "DeleteRecord: record already deleted or invalid slot") ∧
        ∀ rid', heap_get st2 chain2 rid' = heap_get (s, hf) chain rid'
    | Some old =>
        ∃ new, r = Ok new ∧ (blen data ≤ blen old → new = rid) ∧
          (new = rid ∨ heap_get (s, hf) chain new = None ∧ heap_get st2 chain2 rid = None) ∧
          heap_get st2 chain2 new = rec_of data ∧
          ∀ rid', rid' ≠ rid → rid' ≠ new → heap_get st2 chain2 rid' = heap_get (s, hf) chain rid'
    end).
Proof.
  intros Hwf Hin Hs Hfuel Hlt Hmax. split.
  - destruct (DeleteRecord_spec s hf chain rid) as (s1 & ? & ? & ? & ? & ? & _); try done. eauto 10.
  - destruct (UpdateRecord_spec fuel s hf chain rid data) as
      (r & st2 & chain2 & E & Hwf2 & Hpre & Hout & Hres); try done.
    exists r, st2, chain2. apply chain_grown_prefix in Hpre. split_and!; try done.
    destruct (heap_get (s, hf) chain rid) as [old|]; [|done]. case_decide.
    + destruct Hres as (-> & _ & _ & ? & ?). exists rid. split_and!; auto.
    + destruct Hres as (s1 & Hwf1 & Hn & Hoth & Hins). destruct r as [new|e]; simpl in Hins.
      2: { destruct Hins as (_ & ? & _). unfold max_record in *. lia. }
      destruct Hins as (_ & _ & _ & Hnew & Hget & Hins). exists new.
      split; [done|]. split; [by intros ?|]. split_and!; [|done|].
      * destruct (decide (new = rid)) as [->|Hne]; [by left|right].
        rewrite <- Hoth, Hins by done. done.
      * intros rid' ??. by rewrite Hins, Hoth.
Qed.

(** C19: [Scan] returns, and calls the visitor on every record of the file
    exactly once, page by page along the chain and by slot number within a
    page, with its id and its bytes; the pages
    are left alone. *)
Theorem heap_scan_complete {A} fuel (visitor : RecordId → bytes → A → A) acc (s : Pool) hf chain :
  heap_wf (s, hf) chain → (length chain ≤ fuel)%nat →
  ∃ records s', Scan fuel visitor acc (s, hf) =
      Some (fold_left (λ acc '(rid, rec), visitor rid rec acc) records acc, (s', hf)) ∧
    NoDup records.*1 ∧ StronglySorted (scan_before chain) records.*1 ∧
    (∀ rid rec, (rid, rec) ∈ records ↔ heap_get (s, hf) chain rid = Some rec) ∧
    heap_wf (s', hf) chain ∧ ps_eqv s s'.
Proof.
  intros Hwf Hfuel. pose proof Hwf as [Hi Hch Hnd _].
  destruct (scan_loop_spec fuel visitor (first_page_id_ hf) chain acc s hf Hi Hch Hfuel)
    as (s' & E & Hi' & He).
  exists (heap_records (s, hf) chain), s'. split_and!; [exact E|by apply NoDup_heap_records|apply heap_records_sorted| | |apply He..].
  - intros rid rec. apply elem_of_heap_records.
  - by apply (heap_eqv s hf chain s').
Qed.

(** Updating a record with more bytes than an empty page can hold destroys
    it: the deletion has been done when the insertion reports OutOfSpace. *)
Theorem heap_update_too_large_loses_record fuel (s : Pool) hf chain rid old data :
  heap_wf (s, hf) chain → heap_get (s, hf) chain rid = Some old →
  (length chain ≤ fuel)%nat → ps_count s < 2 ^ 31 - 1 →
  kPageSize - kHeaderSize - kSlotSize < blen data →
  ∃ st' chain', UpdateRecord fuel rid data (s, hf) =
      Some (Err (OutOfSpace "InsertRecord: record too large for an empty page"), st') ∧
    heap_wf st' chain' ∧ heap_get st' chain' rid = None.
Proof.
  intros Hwf Hold Hfuel Hlt Hbig.
  destruct (heap_get_Some _ _ _ _ _ Hwf Hold) as (Hin & Hs & Hlive & _ & Hlen).
  destruct (UpdateRecord_spec fuel s hf chain rid data) as
    (r & st' & chain' & E & Hwf' & _ & _ & Hres); try done.
  exists st', chain'. rewrite Hold in Hres. rewrite decide_False in Hres.
  2: { destruct (chain_page _ _ _ _ Hwf Hin) as [_ Hp].
       destruct (wf_live _ Hp _ Hlive). pose proof (wf_directory _ Hp). destruct Hlive. page_lia. }
  destruct Hres as (s1 & _ & Hn & _ & Hins). destruct r as [new|e]; simpl in Hins.
  - destruct Hins as (? & _). unfold max_record in *. lia.
  - destruct Hins as (-> & _ & Hg). split_and!; try done. by rewrite Hg.
Qed.
End heap_ops.

(** ** A heap file on a buffer pool *)

(** A heap file created on a pool of two frames, with one record. *)
Definition sample_heap0 : BufferPool * HeapFile :=
  default (BufferPool_new sample_pm 2, mkHeapFile 0 0)
    (HeapFile_new kInvalidPageId (BufferPool_new sample_pm 2)).

Definition sample_record : bytes := [Init.Byte.x61; Init.Byte.x62; Init.Byte.x63].

Definition sample_heap : BufferPool * HeapFile :=
  match InsertRecord 1 sample_record sample_heap0 with
  | Some (_, st) => st
  | None => sample_heap0
  end.

Lemma sample_heap0_wf :
  heap_wf sample_heap0 [3] ∧ ps_count sample_heap0.1 = 4 ∧ ∀ rid, heap_get sample_heap0 [3] rid = None.
Proof.
  assert (page_count_ sample_pm = 3) as Hc by (vm_compute; reflexivity).
  destruct (HeapFile_create (BufferPool_new sample_pm 2)) as (s' & E & Hwf & Hcnt & Hrec & _).
  { apply BufferPool_new_idle, sample_pm_wf. }
  { change (page_count_ sample_pm < 2 ^ 31 - 1). rewrite Hc. lia. }
  change (ps_count (BufferPool_new sample_pm 2)) with (page_count_ sample_pm) in *.
  rewrite Hc in *. unfold sample_heap0. rewrite E.
  cbn [default from_option id fst]. split; [exact Hwf|]. split; [exact Hcnt|].
  intros rid. destruct (heap_get _ _ rid) as [r|] eqn:Hg; [|reflexivity].
  apply elem_of_heap_records in Hg. rewrite Hrec in Hg. apply elem_of_nil in Hg. destruct Hg.
Qed.

(** A well-formed heap file whose first page is 3 and has no successor. *)
Lemma single_page_chain (st : BufferPool * HeapFile) chain :
  heap_wf st chain → first_page_id_ st.2 = 3 → NextPageId (bp_view st.1 3) = kInvalidPageId → chain = [3].
Proof.
  intros Hwf Hf Hn. pose proof (hwf_chain _ _ Hwf) as Hch. rewrite Hf in Hch.
  destruct chain as [|q [|q2 rest]]; [done| |]; destruct Hch as (<- & _ & _ & Hch); [done|].
  exfalso. cbn [ps_view bp_store_view] in Hch. rewrite Hn in Hch.
  destruct Hch as (<- & [? _] & _). unfold kInvalidPageId in *. lia.
Qed.

Lemma sample_heap_wf :
  heap_wf sample_heap [3] ∧ ps_count sample_heap.1 = 4 ∧
  heap_get sample_heap [3] (mkRid 3 0) = Some sample_record.
Proof.
  destruct sample_heap0_wf as (Hwf & Hc & _). destruct sample_heap0 as [s0 hf0] eqn:E0.
  destruct (InsertRecord_spec 1 s0 hf0 [3] sample_record Hwf) as
    (r & st & chain & E & Hwf' & _ & _ & Hres); [done|cbn [fst] in Hc; rewrite Hc; lia|].
  assert (st = sample_heap) as ->.
  { unfold sample_heap. rewrite E0, E. reflexivity. }
  assert (page_count_ (page_manager_ sample_heap.1) = 4) as Hc4 by (vm_compute; reflexivity).
  assert (chain = [3]) as ->.
  { apply (single_page_chain sample_heap); [exact Hwf'|vm_compute; reflexivity..]. }
  assert (match InsertRecord 1 sample_record sample_heap0 with
          | Some (Ok rid, _) => rid = mkRid 3 0 | _ => False end) as Hr by (vm_compute; reflexivity).
  rewrite E0, E in Hr. generalize dependent sample_heap. intros st **.
  destruct r as [rid|]; [|destruct Hr]. change (rid = mkRid 3 0) in Hr. rewrite Hr in *.
  destruct Hres as (_ & _ & _ & _ & Hget & _).
  split; [exact Hwf'|]. split; [exact Hc4|]. rewrite Hget. reflexivity.
Qed.

Lemma heap_insert_correct_witness :
  ∃ r st', InsertRecord 1 sample_record sample_heap = Some (Ok r, st') ∧
    ∃ st'', GetRecordBytes r st' = Some (Ok sample_record, st'').
Proof.
  destruct sample_heap_wf as (Hwf & Hc & _). destruct sample_heap as [s hf].
  destruct (heap_insert_correct 1 s hf [3] sample_record Hwf) as
    (r & st' & chain' & E & _ & _ & _ & [(_ & rid & -> & _ & Hg & _)|(? & _)]).
  - simpl. lia.
  - cbn [fst] in Hc. rewrite Hc. lia.
  - reflexivity.
  - eauto.
  - exfalso. vm_compute in H. done.
Defined.

Lemma heap_delete_update_correct_witness :
  ∃ st', DeleteRecord (mkRid 3 0) sample_heap = Some (Status_OK, st') ∧
    heap_get st' [3] (mkRid 3 0) = None.
Proof.
  destruct sample_heap_wf as (Hwf & Hc & Hg). destruct sample_heap as [s hf].
  destruct (heap_delete_update_correct 1 s hf [3] (mkRid 3 0) [] Hwf) as [(st1 & E & _ & _ & Hn & _) _].
  - simpl. left.
  - simpl. lia.
  - simpl. lia.
  - cbn [fst] in Hc. rewrite Hc. lia.
  - vm_compute. discriminate.
  - rewrite Hg in E. eauto.
Defined.

Lemma heap_scan_complete_witness :
  ∃ records s', Scan 1 (λ rid rec acc, (rid, rec) :: acc) [] sample_heap =
      Some (fold_left (λ acc '(rid, rec), (rid, rec) :: acc) records [], s') ∧
    (mkRid 3 0, sample_record) ∈ records.
Proof.
  destruct sample_heap_wf as (Hwf & Hc & Hg). destruct sample_heap as [s hf].
  destruct (heap_scan_complete 1 (λ rid rec acc, (rid, rec) :: acc) [] s hf [3] Hwf) as
    (records & s' & E & _ & _ & Hrec & _); [simpl; lia|].
  exists records, (s', hf). split; [exact E|]. by apply Hrec.
Defined.

Lemma heap_update_too_large_loses_record_witness :
  ∃ st' chain', UpdateRecord 1 (mkRid 3 0) (replicate 5000 zero_byte) sample_heap =
      Some (Err (OutOfSpace "InsertRecord: record too large for an empty page"), st') ∧
    heap_get st' chain' (mkRid 3 0) = None.
Proof.
  destruct sample_heap_wf as (Hwf & Hc & Hg). destruct sample_heap as [s hf].
  destruct (heap_update_too_large_loses_record 1 s hf [3] (mkRid 3 0) sample_record
    (replicate 5000 zero_byte) Hwf Hg) as (st' & chain' & E & _ & Hn).
  - simpl. lia.
  - cbn [fst] in Hc. rewrite Hc. lia.
  - unfold blen. rewrite length_replicate. vm_compute. reflexivity.
  - eauto.
Defined.
