(* ===== verification/RecordManager.v ===== *)
(** * Rows of a table: src/storage/record_manager.hpp

    [RecordManager] is the codec on top of a heap file: rows in, record ids
    out.  The state is the heap file's. *)

From S2P Require Import Prelude Util Value RecordCodec SlottedPage PageManager PageStore BufferPool HeapFile.

Section record_manager.
Context {Pool : Type} `{PageStore Pool}.
Context (schema_ : Schema).
Abbreviation Heap := (Pool * HeapFile)%type.

Definition InsertRow (fuel : nat) (values : list Value) : M Heap (Result RecordId) :=
  match Encode schema_ values with
  | Err e => ret (Err e)
  | Ok bs =>
      if blen bs >? 65535 then
        ret (Err (InvalidArgument "InsertRow: encoded row exceeds 65535-byte codec limit"))
      else HeapFile.InsertRecord fuel bs
  end.

Definition GetRow (rid : RecordId) : M Heap (Result (list Value)) :=
  let! r := GetRecordBytes rid in
  match r with
  | Err e => ret (Err e)
  | Ok bs => ret (Decode schema_ bs)
  end.

Definition UpdateRow (fuel : nat) (rid : RecordId) (values : list Value) : M Heap (Result RecordId) :=
  match Encode schema_ values with
  | Err e => ret (Err e)
  | Ok bs =>
      if blen bs >? 65535 then
        ret (Err (InvalidArgument "UpdateRow: encoded row exceeds 65535-byte codec limit"))
      else UpdateRecord fuel rid bs
  end.

Definition DeleteRow (rid : RecordId) : M Heap Status := HeapFile.DeleteRecord rid.

(** [Scan]: a record that does not decode is skipped. *)
Definition ScanRows {A} (fuel : nat) (visitor : RecordId → list Value → A → A) (acc : A) : M Heap A :=
  Scan fuel (λ rid bs acc,
    match Decode schema_ bs with
    | Ok values => visitor rid values acc
    | Err _ => acc
    end) acc.
End record_manager.

(** The row a record id denotes. *)
Definition row_at {Pool} `{PageStoreView Pool} (schema : Schema) (st : Pool * HeapFile)
    (chain : list Z) (rid : RecordId) : option (list Value) :=
  match heap_get st chain rid with
  | Some bs => match Decode schema bs with Ok values => Some values | Err _ => None end
  | None => None
  end.

Section rows.
Context {Pool : Type} `{PageStoreSpec Pool}.
Context (schema : Schema) (Hcols : Forall column_wf schema) (Hne : schema ≠ []).
Implicit Types (s : Pool) (hf : HeapFile) (chain : list Z).

(** With at least one column an encoded row has at least one byte. *)
Lemma Encode_nonempty values bs : Encode schema values = Ok bs → 0 < blen bs.
Proof.
  intros E. destruct (Encode_shape schema values) as (bs' & E' & Hlen & _).
  { by eapply Encode_Ok_fits. }
  { done. }
  rewrite E in E'. injection E' as <-. cbv zeta in Hlen.
  assert (0 < NullBitmapBytes (ColumnCount schema)); [|lia].
  unfold NullBitmapBytes, ColumnCount. destruct schema; [done|]. simpl length.
  apply Z.div_str_pos. lia.
Qed.

Lemma row_at_encoded st chain rid values bs :
  Forall value_wf values → Encode schema values = Ok bs → heap_get st chain rid = rec_of bs →
  row_at schema st chain rid = Some values.
Proof.
  intros Hv E Hg. pose proof (Encode_nonempty _ _ E). unfold row_at. rewrite Hg. unfold rec_of.
  destruct (Z.eqb_spec (blen bs) 0); [lia|].
  pose proof (Decode_Encode schema values bs [] Hcols Hv E) as Hd. rewrite app_nil_r in Hd.
  by rewrite Hd.
Qed.

Lemma row_at_ext st chain st' chain' rid :
  heap_get st' chain' rid = heap_get st chain rid → row_at schema st' chain' rid = row_at schema st chain rid.
Proof. intros E. unfold row_at. by rewrite E. Qed.

Lemma GetRow_spec s hf chain rid values :
  heap_wf (s, hf) chain → row_at schema (s, hf) chain rid = Some values →
  ∃ s', GetRow schema rid (s, hf) = Some (Ok values, (s', hf)) ∧ ps_eqv s s'.
Proof.
  intros Hwf. unfold row_at. destruct (heap_get (s, hf) chain rid) as [bs|] eqn:Hg; [|done].
  intros Hd. destruct (heap_get_Some _ _ _ _ _ Hwf Hg) as (? & ? & _).
  destruct (GetRecordBytes_spec s hf chain rid) as (s' & E & _ & He); try done.
  exists s'. split; [|apply He]. unfold GetRow, bind. rewrite E, Hg.
  destruct (Decode schema bs); [|done]. by simplify_eq.
Qed.

(** Inserting a row of wf values.  A row that does not fit the schema is
    refused with the codec's error and nothing changes; one whose encoding
    fits a page gets a record id at which no record was, reading it back gives
    the values, and every other row stays; a larger one is refused and every
    row stays. *)
Theorem record_manager_insert_correct fuel s hf chain values :
  heap_wf (s, hf) chain → (length chain ≤ fuel)%nat → ps_count s < 2 ^ 31 - 1 →
  Forall value_wf values →
  ∃ r st' chain', InsertRow schema fuel values (s, hf) = Some (r, st') ∧ heap_wf st' chain' ∧
    outside_same (s, hf) st' chain ∧
    match r with
    | Ok rid =>
        row_fits schema values ∧ heap_get (s, hf) chain rid = None ∧
        (∃ st'', GetRow schema rid st' = Some (Ok values, st'')) ∧
        ∀ rid', rid' ≠ rid → row_at schema st' chain' rid' = row_at schema (s, hf) chain rid'
    | Err e =>
        ((¬ row_fits schema values ∧ code_ e = kInvalidArgument ∧ st' = (s, hf)) ∨
         (∃ bs, Encode schema values = Ok bs ∧ kPageSize - kHeaderSize - kSlotSize < blen bs)) ∧
        ∀ rid', row_at schema st' chain' rid' = row_at schema (s, hf) chain rid'
    end.
Proof.
  intros Hwf Hfuel Hlt Hv. unfold InsertRow.
  destruct (Encode schema values) as [bs|e] eqn:E.
  2: { exists (Err e), (s, hf), chain. split_and!; try done. left.
       assert (¬ row_fits schema values) as Hn.
       { intros Hfit. destruct (Encode_shape schema values Hfit Hcols) as (? & ? & _). congruence. }
       destruct (Encode_err _ _ Hn) as [msg Hm]. rewrite E in Hm. by injection Hm as ->. }
  pose proof (Encode_Ok_fits _ _ _ E) as Hfit.
  destruct (blen bs >? 65535) eqn:Hbig.
  { exists (Err (InvalidArgument "InsertRow: encoded row exceeds 65535-byte codec limit")), (s, hf), chain.
    split_and!; try done. right. exists bs. split; [done|]. zbool. page_lia. }
  destruct (InsertRecord_spec fuel s hf chain bs Hwf Hfuel Hlt) as
    (r & [s' hf'] & chain' & Er & Hwf' & _ & Hout & Hres).
  exists r, (s', hf'), chain'. split_and!; try done. destruct r as [rid|e]; simpl in Hres.
  - destruct Hres as (_ & _ & _ & Hnone & Hget & Hoth). split_and!; try done.
    + pose proof (row_at_encoded _ _ _ _ _ Hv E Hget) as Hrow.
      destruct (GetRow_spec s' hf' chain' rid values Hwf' Hrow) as (s2 & E2 & _). eauto.
    + intros rid' ?. apply row_at_ext. auto.
  - destruct Hres as (-> & Hlen & Hoth). split; [right; eauto|]. intros. by apply row_at_ext.
Qed.

(** Updating a row with values that fit the schema and encode to at most a
    page.  A row that is there is replaced: reading the returned id gives the
    new values, the old id no longer holds the old row, and every other row
    stays.  If the encoding is no longer than the old one the id stays. *)
Theorem record_manager_update_correct fuel s hf chain rid values bs old :
  heap_wf (s, hf) chain → (length chain ≤ fuel)%nat → ps_count s < 2 ^ 31 - 1 →
  Forall value_wf values → Encode schema values = Ok bs →
  blen bs ≤ kPageSize - kHeaderSize - kSlotSize → heap_get (s, hf) chain rid = Some old →
  ∃ new st' chain', UpdateRow schema fuel rid values (s, hf) = Some (Ok new, st') ∧
    heap_wf st' chain' ∧ (blen bs ≤ blen old → new = rid) ∧
    (∃ st'', GetRow schema new st' = Some (Ok values, st'')) ∧
    (new = rid ∨ row_at schema st' chain' rid = None) ∧
    ∀ rid', rid' ≠ rid → rid' ≠ new → row_at schema st' chain' rid' = row_at schema (s, hf) chain rid'.
Proof.
  intros Hwf Hfuel Hlt Hv E Hlen Hold. unfold UpdateRow. rewrite E.
  destruct (blen bs >? 65535) eqn:Hbig; [zbool; page_lia|].
  destruct (heap_get_Some _ _ _ _ _ Hwf Hold) as (Hin & Hs & _).
  destruct (UpdateRecord_spec fuel s hf chain rid bs Hwf Hin Hs Hfuel Hlt) as
    (r & [s' hf'] & chain' & Er & Hwf' & _ & _ & Hres).
  rewrite Hold in Hres.
  assert (∀ new, heap_get (s', hf') chain' new = rec_of bs →
            ∃ st'', GetRow schema new (s', hf') = Some (Ok values, st'')) as Hread.
  { intros new Hget. pose proof (row_at_encoded _ _ _ _ _ Hv E Hget) as Hrow.
    destruct (GetRow_spec s' hf' chain' new values Hwf' Hrow) as (s2 & E2 & _). eauto. }
  case_decide as Hsmall.
  - destruct Hres as (-> & _ & _ & Hget & Hoth). exists rid, (s', hf'), chain'.
    split_and!; try done; [by apply Hread|by left|]. intros. apply row_at_ext. auto.
  - destruct Hres as (s1 & Hwf1 & Hn1 & Hoth1 & Hins).
    destruct r as [new|e]; simpl in Hins; [|destruct Hins as (_ & ? & _); unfold max_record in *; lia].
    destruct Hins as (_ & _ & _ & _ & Hget & Hoth). exists new, (s', hf'), chain'.
    split; [done|]. split; [done|]. split; [by intros ?|]. split; [by apply Hread|]. split.
    + destruct (decide (new = rid)) as [->|Hnew]; [by left|right]. unfold row_at. by rewrite Hoth, Hn1.
    + intros rid' ??. apply row_at_ext. by rewrite Hoth, Hoth1.
Qed.
End rows.

Lemma record_manager_insert_correct_witness :
  ∃ rid st', InsertRow sample_schema 1 sample_row sample_heap = Some (Ok rid, st') ∧
    ∃ st'', GetRow sample_schema rid st' = Some (Ok sample_row, st'').
Proof.
  destruct sample_heap_wf as (Hwf & Hc & _). destruct sample_heap as [s hf].
  destruct (record_manager_insert_correct sample_schema sample_schema_wf ltac:(done) 1 s hf [3] sample_row Hwf)
    as (r & st' & chain' & E & _ & _ & Hr).
  - simpl. lia.
  - cbn [fst] in Hc. rewrite Hc. lia.
  - apply sample_row_wf.
  - assert (∃ bs, Encode sample_schema sample_row = Ok bs ∧ blen bs ≤ 4080) as (bs & Eb & Hb).
    { eexists. split; [vm_compute; reflexivity|vm_compute; discriminate]. }
    destruct r as [rid|e].
    + destruct Hr as (_ & _ & Hg & _). eauto.
    + exfalso. destruct Hr as [[(Hn & _)|(bs' & Eb' & Hbig)] _].
      * apply Hn. by eapply Encode_Ok_fits.
      * rewrite Eb in Eb'. injection Eb' as <-. unfold kPageSize, kHeaderSize, kSlotSize in *. lia.
Defined.

Lemma record_manager_update_correct_witness :
  ∃ new st', UpdateRow sample_schema 1 (mkRid 3 0) sample_row sample_heap = Some (Ok new, st') ∧
    ∃ st'', GetRow sample_schema new st' = Some (Ok sample_row, st'').
Proof.
  destruct sample_heap_wf as (Hwf & Hc & Hg). destruct sample_heap as [s hf].
  assert (∃ bs, Encode sample_schema sample_row = Ok bs ∧ blen bs ≤ 4080) as (bs & Eb & Hb).
  { eexists. split; [vm_compute; reflexivity|vm_compute; discriminate]. }
  destruct (record_manager_update_correct sample_schema sample_schema_wf ltac:(done) 1 s hf [3]
    (mkRid 3 0) sample_row bs sample_record Hwf) as (new & st' & chain' & E & _ & _ & Hget & _).
  - simpl. lia.
  - cbn [fst] in Hc. rewrite Hc. lia.
  - apply sample_row_wf.
  - exact Eb.
  - unfold kPageSize, kHeaderSize, kSlotSize. lia.
  - exact Hg.
  - eauto.
Defined.
