(* ===== verification/Catalog.v ===== *)
(** * The catalog: src/catalog

    [catalog_manager.hpp/.cpp], [table_metadata.hpp], [index_metadata.hpp]: the
    tables and indexes of a database, held in two maps and, encoded, as the
    records of two heap files of the catalog's pool.

    The iteration order of an [std::unordered_map] is not specified, so that
    the functions that list one take the order as an argument.  A type code
    without enumerator, which [EncodeTableMetadata] never writes, is outside
    the model ([None]). *)

From stdpp Require Import gmap.
From S2P Require Import Prelude Util Value RecordCodec SlottedPage PageManager PageStore BufferPool HeapFile.
From coqutil Require Word.LittleEndianList.

Import LittleEndianList.

(** ** Metadata *)

Record TableMetadata := mkTable {
  table_id : Z;
  table_name : string;
  tbl_schema : Schema;
  tbl_first_page_id : Z;
  tbl_catalog_record_id : RecordId
}.

Record IndexMetadata := mkIndex {
  index_id : Z;
  index_name : string;
  index_table_name : string;
  index_column_name : string;
  index_meta_page_id : Z;
  idx_catalog_record_id : RecordId
}.

(** A default-constructed [RecordId]. *)
Definition no_rid : RecordId := mkRid kInvalidPageId 0.

(** ** Encoding *)

(** The length of a string, as two bytes, and the string. *)
Definition append_string (out : bytes) (s : string) : bytes :=
  let bs := string_bytes s in out ++ le_split 2 (u16 (blen bs)) ++ bs.

Definition append_column (out : bytes) (col : Column) : bytes :=
  let out := append_string out (col_name col) in
  let out := out ++ [byte_of_Z (ColumnType_code (col_type col))] in
  let out := out ++ [byte_of_Z (if col_nullable col then 1 else 0)] in
  out ++ le_split 2 (col_max_length col).

Definition EncodeTableMetadata (meta : TableMetadata) : bytes :=
  let out := le_split 4 (table_id meta) in
  let out := append_string out (table_name meta) in
  let out := out ++ le_split 4 (tbl_first_page_id meta) in
  let out := out ++ le_split 2 (u16 (ColumnCount (tbl_schema meta))) in
  fold_left append_column (tbl_schema meta) out.

Definition EncodeIndexMetadata (meta : IndexMetadata) : bytes :=
  let out := le_split 4 (index_id meta) in
  let out := append_string out (index_name meta) in
  let out := append_string out (index_table_name meta) in
  let out := append_string out (index_column_name meta) in
  out ++ le_split 4 (index_meta_page_id meta).

(** ** Decoding

    The state is [cursor]. *)

Section decode.
Context (data : bytes).

Definition need (n cursor : Z) : bool := cursor + n <=? blen data.

(** [if (!need(n)) return Corruption(msg); v = read(data + cursor); cursor += n;]. *)
Definition read_field {A} (n : Z) (read : Z → A) (msg : string) : M Z (Result A) :=
  λ cursor,
    if need n cursor then Some (Ok (read cursor), cursor + n) else Some (Err (Corruption msg), cursor).

Definition read_u16 (msg : string) : M Z (Result Z) := read_field 2 (ReadFixedU 2 data) msg.
Definition read_chars (n : Z) (msg : string) : M Z (Result string) :=
  read_field n (λ cursor, bytes_string (mem_read data cursor n)) msg.

Definition type_of_byte (code : Z) : option ColumnType :=
  match code with 0 => Some kInt | 1 => Some kBigInt | 2 => Some kDouble | 3 => Some kBool | 4 => Some kVarchar
  | _ => None end.

Definition read_column : M Z (Result Column) :=
  let? cname_len := read_u16 "catalog: truncated column name length" in
  let? cname := read_chars cname_len "catalog: truncated column name" in
  let? code := read_field 1 (ReadFixedU 1 data) "catalog: truncated column type" in
  match type_of_byte code with
  | None => undefined_behaviour
  | Some type =>
      let? nullable := read_field 1 (ReadFixedU 1 data) "catalog: truncated nullable flag" in
      let? max_length := read_u16 "catalog: truncated max_length" in
      rret (mkColumn cname type (negb (nullable =? 0)) max_length)
  end.

(** [for (i = 0; i < col_count; ++i)]. *)
Fixpoint read_columns (n : nat) (columns : list Column) : M Z (Result (list Column)) :=
  match n with
  | O => rret columns
  | S n' => let? col := read_column in read_columns n' (columns ++ [col])
  end.

Definition decode_table : M Z (Result TableMetadata) :=
  let? id := read_field 4 (ReadFixedU 4 data) "catalog: truncated table_id" in
  let? name_len := read_u16 "catalog: truncated name length" in
  let? name := read_chars name_len "catalog: truncated name" in
  let? first := read_field 4 (ReadFixedS 4 data) "catalog: truncated first_page_id" in
  let? col_count := read_u16 "catalog: truncated column count" in
  let? columns := read_columns (Z.to_nat col_count) [] in
  rret (mkTable id name columns first no_rid).

(** [read_string], with the message of its caller. *)
Definition read_string (msg : string) : M Z (Result string) :=
  let? slen := read_u16 msg in read_chars slen msg.

Definition decode_index : M Z (Result IndexMetadata) :=
  let? id := read_field 4 (ReadFixedU 4 data) "index catalog: truncated index_id" in
  let? name := read_string "index catalog: truncated index_name" in
  let? table := read_string "index catalog: truncated table_name" in
  let? column := read_string "index catalog: truncated column_name" in
  let? meta_page := read_field 4 (ReadFixedS 4 data) "index catalog: truncated meta_page_id" in
  rret (mkIndex id name table column meta_page no_rid).
End decode.

Definition DecodeTableMetadata (data : bytes) : option (Result TableMetadata) := fst <$> decode_table data 0.
Definition DecodeIndexMetadata (data : bytes) : option (Result IndexMetadata) := fst <$> decode_index data 0.

(** ** The manager *)

Record CatalogManager := mkCatalog {
  catalog_heap_ : HeapFile;
  index_heap_ : HeapFile;
  tables_ : gmap string TableMetadata;
  indexes_ : gmap string IndexMetadata;
  next_table_id_ : Z;
  next_index_id_ : Z
}.

Definition set_rid_table (m : TableMetadata) (rid : RecordId) : TableMetadata :=
  mkTable (table_id m) (table_name m) (tbl_schema m) (tbl_first_page_id m) rid.
Definition set_rid_index (m : IndexMetadata) (rid : RecordId) : IndexMetadata :=
  mkIndex (index_id m) (index_name m) (index_table_name m) (index_column_name m) (index_meta_page_id m) rid.

(** What the visitor of [LoadTablesFromDisk] accumulates: [max_id] and the map;
    [None] when a record is outside the model. *)
Definition visit_table (rid : RecordId) (data : bytes) (acc : option (Z * gmap string TableMetadata)) :
    option (Z * gmap string TableMetadata) :=
  match acc, DecodeTableMetadata data with
  | Some (max_id, tables), Some (Ok meta) =>
      let meta := set_rid_table meta rid in
      Some (if table_id meta >? max_id then table_id meta else max_id, <[table_name meta := meta]> tables)
  | Some acc, Some (Err _) => Some acc
  | _, _ => None
  end.

Definition visit_index (rid : RecordId) (data : bytes) (acc : option (Z * gmap string IndexMetadata)) :
    option (Z * gmap string IndexMetadata) :=
  match acc, DecodeIndexMetadata data with
  | Some (max_id, indexes), Some (Ok meta) =>
      let meta := set_rid_index meta rid in
      Some (if index_id meta >? max_id then index_id meta else max_id, <[index_name meta := meta]> indexes)
  | Some acc, Some (Err _) => Some acc
  | _, _ => None
  end.

Section manager.
Context {Pool : Type} `{PageStore Pool}.
Abbreviation Cat := (Pool * CatalogManager)%type.

(** A call of a heap file that is a member. *)
Definition on_catalog_heap {A} (m : M (Pool * HeapFile) A) : M Cat A :=
  λ '(s, c),
    match m (s, catalog_heap_ c) with
    | Some (a, (s', h)) =>
        Some (a, (s', mkCatalog h (index_heap_ c) (tables_ c) (indexes_ c) (next_table_id_ c) (next_index_id_ c)))
    | None => None
    end.
Definition on_index_heap {A} (m : M (Pool * HeapFile) A) : M Cat A :=
  λ '(s, c),
    match m (s, index_heap_ c) with
    | Some (a, (s', h)) =>
        Some (a, (s', mkCatalog (catalog_heap_ c) h (tables_ c) (indexes_ c) (next_table_id_ c) (next_index_id_ c)))
    | None => None
    end.

Definition on_members (f : CatalogManager → CatalogManager) : M Cat unit := modify (λ '(s, c), (s, f c)).

Definition set_tables (t : gmap string TableMetadata) (n : Z) : M Cat unit :=
  on_members (λ c, mkCatalog (catalog_heap_ c) (index_heap_ c) t (indexes_ c) n (next_index_id_ c)).
Definition set_indexes (i : gmap string IndexMetadata) (n : Z) : M Cat unit :=
  on_members (λ c, mkCatalog (catalog_heap_ c) (index_heap_ c) (tables_ c) i (next_table_id_ c) n).

Definition LoadTablesFromDisk (fuel : nat) : M Cat unit :=
  let! tables := gets (λ '(_, c), tables_ c) in
  let! r := on_catalog_heap (Scan fuel visit_table (Some (0, tables))) in
  match r with
  | None => undefined_behaviour
  | Some (max_id, tables) => set_tables tables (u32 (max_id + 1))
  end.

Definition LoadIndexesFromDisk (fuel : nat) : M Cat unit :=
  let! indexes := gets (λ '(_, c), indexes_ c) in
  let! r := on_index_heap (Scan fuel visit_index (Some (0, indexes))) in
  match r with
  | None => undefined_behaviour
  | Some (max_id, indexes) => set_indexes indexes (u32 (max_id + 1))
  end.

(** The constructor. *)
Definition CatalogManager_new (fuel : nat) (catalog_first_page_id index_catalog_first_page_id : Z) (s : Pool) :
    option Cat :=
  match HeapFile_new catalog_first_page_id s with
  | None => None
  | Some (s, catalog_heap) =>
      match HeapFile_new index_catalog_first_page_id s with
      | None => None
      | Some (s, index_heap) =>
          snd <$>
            (do! (if negb (catalog_first_page_id =? kInvalidPageId) then LoadTablesFromDisk fuel else ret tt) in
             do! (if negb (index_catalog_first_page_id =? kInvalidPageId) then LoadIndexesFromDisk fuel else ret tt) in
             ret tt) (s, mkCatalog catalog_heap index_heap ∅ ∅ 1 1)
      end
  end.

Definition CatalogFirstPageId (c : CatalogManager) : Z := first_page_id_ (catalog_heap_ c).
Definition IndexCatalogFirstPageId (c : CatalogManager) : Z := first_page_id_ (index_heap_ c).

(** *** Tables *)

Definition GetTable (name : string) : M Cat (option TableMetadata) := gets (λ '(_, c), tables_ c !! name).

Definition CreateTable (fuel : nat) (name : string) (schema : Schema) (data_first_page_id : Z) :
    M Cat (Result TableMetadata) :=
  let! tables := gets (λ '(_, c), tables_ c) in
  let! id := gets (λ '(_, c), next_table_id_ c) in
  if decide (is_Some (tables !! name)) then
    ret (Err (AlreadyExists ("CreateTable: table '" +:+ name +:+ "' already exists")))
  else
    do! set_tables tables (u32 (id + 1)) in
    let meta := mkTable id name schema data_first_page_id no_rid in
    let encoded := EncodeTableMetadata meta in
    if blen encoded >? 65535 then
      ret (Err (InvalidArgument "CreateTable: encoded metadata too large (too many/long columns)"))
    else
      let? rid := on_catalog_heap (HeapFile.InsertRecord fuel encoded) in
      let meta := set_rid_table meta rid in
      do! set_tables (<[name := meta]> tables) (u32 (id + 1)) in
      rret meta.

Definition DropTable (name : string) : M Cat Status :=
  let! tables := gets (λ '(_, c), tables_ c) in
  let! id := gets (λ '(_, c), next_table_id_ c) in
  match tables !! name with
  | None => ret (NotFound ("DropTable: table '" +:+ name +:+ "' does not exist"))
  | Some meta =>
      let! status := on_catalog_heap (HeapFile.DeleteRecord (tbl_catalog_record_id meta)) in
      if negb (status_ok status) then ret status
      else do! set_tables (delete name tables) id in ret Status_OK
  end.

(** *** Indexes *)

Definition GetIndex (name : string) : M Cat (option IndexMetadata) := gets (λ '(_, c), indexes_ c !! name).

Definition CreateIndex (fuel : nat) (name table column : string) (meta_page_id : Z) :
    M Cat (Result IndexMetadata) :=
  let! indexes := gets (λ '(_, c), indexes_ c) in
  let! id := gets (λ '(_, c), next_index_id_ c) in
  if decide (is_Some (indexes !! name)) then
    ret (Err (AlreadyExists ("CreateIndex: index '" +:+ name +:+ "' already exists")))
  else
    do! set_indexes indexes (u32 (id + 1)) in
    let meta := mkIndex id name table column meta_page_id no_rid in
    let encoded := EncodeIndexMetadata meta in
    if blen encoded >? 65535 then ret (Err (InvalidArgument "CreateIndex: encoded metadata too large"))
    else
      let? rid := on_index_heap (HeapFile.InsertRecord fuel encoded) in
      let meta := set_rid_index meta rid in
      do! set_indexes (<[name := meta]> indexes) (u32 (id + 1)) in
      rret meta.

Definition DropIndex (name : string) : M Cat Status :=
  let! indexes := gets (λ '(_, c), indexes_ c) in
  let! id := gets (λ '(_, c), next_index_id_ c) in
  match indexes !! name with
  | None => ret (NotFound ("DropIndex: index '" +:+ name +:+ "' does not exist"))
  | Some meta =>
      let! status := on_index_heap (HeapFile.DeleteRecord (idx_catalog_record_id meta)) in
      if negb (status_ok status) then ret status
      else do! set_indexes (delete name indexes) id in ret Status_OK
  end.
End manager.

(** *** Listings, in the order [order] of the map *)

Definition in_order {A} (order : list string) (m : gmap string A) : list (string * A) :=
  omap (λ name, (λ a, (name, a)) <$> m !! name) order.

Definition ListTables (order : list string) (c : CatalogManager) : list string := (in_order order (tables_ c)).*1.
Definition ListIndexes (order : list string) (c : CatalogManager) : list string := (in_order order (indexes_ c)).*1.
Definition GetIndexesForTable (order : list string) (table_name : string) (c : CatalogManager) : list IndexMetadata :=
  filter (λ meta, index_table_name meta = table_name) (in_order order (indexes_ c)).*2.
