(* ===== verification/CatalogSpec.v ===== *)
(** * The catalog keeps its maps on disk

    Metadata that was encoded decodes to itself.  The two maps of a
    [CatalogManager] always mirror the records of its heap files
    ([catalog_wf]): creating and dropping act as on maps, and a catalog opened
    on the first pages of another has the same maps. *)

From stdpp Require Import gmap.
From S2P Require Import Prelude Util Value RecordCodec SlottedPage PageManager PageStore BufferPool HeapFile Catalog.
From coqutil Require Word.LittleEndianList.

Import LittleEndianList.

(** ** Readers

    [reads data m enc v]: wherever the bytes [enc] stand in [data], the reader
    [m] consumes them and returns [v]. *)

Section readers.
Context (data : bytes).

Definition reads {A} (m : M Z (Result A)) (enc : bytes) (v : A) : Prop :=
  ∀ cursor rest, 0 ≤ cursor → drop (Z.to_nat cursor) data = enc ++ rest → cursor ≤ blen data →
    m cursor = Some (Ok v, cursor + blen enc).

Lemma reads_ret {A} (v : A) : reads (rret v) [] v.
Proof. intros cursor rest ???. unfold rret, ret. rewrite blen_nil. do 2 f_equal. lia. Qed.

Lemma reads_bind {A B} (m : M Z (Result A)) (k : A → M Z (Result B)) enc1 enc2 v w :
  reads m enc1 v → reads (k v) enc2 w → reads (rbind m k) (enc1 ++ enc2) w.
Proof.
  intros Hm Hk cursor rest Hc Hd Hl. rewrite <- app_assoc in Hd. unfold rbind, bind.
  rewrite (Hm _ _ Hc Hd Hl), (Hk (cursor + blen enc1) rest).
  - rewrite blen_app. do 2 f_equal. lia.
  - blia.
  - by apply drop_app_step.
  - rewrite (blen_drop data cursor), Hd, blen_app by lia. pose proof (blen_nonneg (enc2 ++ rest)). lia.
Qed.

(** The last reader of a sequence. *)
Lemma reads_bind_ret {A B} (m : M Z (Result A)) (k : A → M Z (Result B)) enc v w :
  reads m enc v → reads (k v) [] w → reads (rbind m k) enc w.
Proof. intros ??. rewrite <- (app_nil_r enc). by eapply reads_bind. Qed.

Lemma reads_field {A} n (read : Z → A) msg enc v :
  n = blen enc → (∀ cursor rest, drop (Z.to_nat cursor) data = enc ++ rest → read cursor = v) →
  reads (read_field data n read msg) enc v.
Proof.
  intros -> Hread cursor rest Hc Hd Hl. unfold read_field, need.
  rewrite (Hread _ _ Hd).
  destruct (Z.leb_spec (cursor + blen enc) (blen data)) as [|Hlt]; [done|].
  rewrite (blen_drop data cursor), Hd, blen_app in Hlt by lia. pose proof (blen_nonneg rest). lia.
Qed.

Lemma reads_unsigned (n : nat) v msg :
  0 ≤ v < 2 ^ (8 * Z.of_nat n) → reads (read_field data (Z.of_nat n) (ReadFixedU n data) msg) (le_split n v) v.
Proof.
  intros Hv. apply reads_field; [by rewrite blen_le_split|]. intros cursor rest Hd.
  by eapply ReadFixedU_drop.
Qed.

Lemma reads_signed (n : nat) v msg :
  (0 < n)%nat → - 2 ^ (8 * Z.of_nat n - 1) ≤ v < 2 ^ (8 * Z.of_nat n - 1) →
  reads (read_field data (Z.of_nat n) (ReadFixedS n data) msg) (le_split n v) v.
Proof.
  intros Hn Hv. apply reads_field; [by rewrite blen_le_split|]. intros cursor rest Hd.
  by eapply ReadFixedS_drop.
Qed.

Lemma reads_byte v msg :
  0 ≤ v < 256 → reads (read_field data 1 (ReadFixedU 1 data) msg) [byte_of_Z v] v.
Proof.
  intros Hv. apply reads_field; [done|]. intros cursor rest Hd.
  rewrite (ReadFixedU1_drop _ _ _ _ Hd), Z_of_byte_of_Z. by apply Z.mod_small.
Qed.

Lemma reads_chars s msg : reads (read_chars data (blen (string_bytes s)) msg) (string_bytes s) s.
Proof.
  apply reads_field; [done|]. intros cursor rest Hd.
  rewrite (mem_read_drop _ _ _ _ _ Hd) by done. apply bytes_string_bytes.
Qed.

(** A length and a string. *)
Definition enc_string (s : string) : bytes := le_split 2 (u16 (blen (string_bytes s))) ++ string_bytes s.

Lemma reads_string s {A} (k : string → M Z (Result A)) msg1 msg2 enc w :
  blen (string_bytes s) ≤ 65535 → reads (k s) enc w →
  reads (let? n := read_u16 data msg1 in let? cs := read_chars data n msg2 in k cs) (enc_string s ++ enc) w.
Proof.
  intros Hs Hk. pose proof (blen_nonneg (string_bytes s)). unfold enc_string. rewrite <- app_assoc.
  rewrite u16_small by blia.
  eapply reads_bind; [apply (reads_unsigned 2); simpl; lia|].
  eapply reads_bind; [apply reads_chars|done].
Qed.
End readers.

#[global] Opaque read_field.

(** ** Columns *)

Definition enc_column (col : Column) : bytes :=
  enc_string (col_name col) ++ [byte_of_Z (ColumnType_code (col_type col))] ++
  [byte_of_Z (if col_nullable col then 1 else 0)] ++ le_split 2 (col_max_length col).

Lemma append_column_enc out col : append_column out col = out ++ enc_column col.
Proof. unfold append_column, append_string, enc_column, enc_string. by rewrite <- !app_assoc. Qed.

Lemma append_columns_enc cols out : fold_left append_column cols out = out ++ (cols ≫= enc_column).
Proof.
  induction cols as [|c cols IH] in out |- *; simpl; [by rewrite app_nil_r|].
  by rewrite IH, append_column_enc, <- app_assoc.
Qed.

Lemma blen_enc_string s : blen (enc_string s) = 2 + blen (string_bytes s).
Proof. unfold enc_string. rewrite blen_app, blen_le_split. lia. Qed.

Lemma blen_enc_column c : blen (enc_column c) = 6 + blen (string_bytes (col_name c)).
Proof. unfold enc_column. rewrite !blen_app, blen_enc_string, blen_le_split, !blen_cons, blen_nil. lia. Qed.

Lemma reads_column data col :
  column_wf col → blen (enc_column col) ≤ 65535 → reads data (read_column data) (enc_column col) col.
Proof.
  unfold column_wf. rewrite blen_enc_column. intros Hc Hl. unfold read_column, enc_column.
  apply reads_string; [lia|].
  eapply reads_bind; [apply reads_byte; destruct (col_type col); simpl; lia|].
  assert (type_of_byte (ColumnType_code (col_type col)) = Some (col_type col)) as ->
    by (by destruct (col_type col)).
  eapply reads_bind; [apply reads_byte; destruct (col_nullable col); lia|].
  eapply reads_bind_ret; [apply (reads_unsigned data 2); simpl; unfold in_u16 in Hc; lia|].
  assert (negb ((if col_nullable col then 1 else 0) =? 0) = col_nullable col) as ->
    by (by destruct (col_nullable col)).
  destruct col. apply reads_ret.
Qed.

Lemma reads_columns data cols acc :
  Forall column_wf cols → blen (cols ≫= enc_column) ≤ 65535 →
  reads data (read_columns data (length cols) acc) (cols ≫= enc_column) (acc ++ cols).
Proof.
  induction cols as [|c cols IH] in acc |- *; intros Hwf Hl; [rewrite app_nil_r; apply reads_ret|].
  apply Forall_cons in Hwf as [Hc Hwf]. cbn [mbind list_bind] in *. rewrite blen_app in Hl.
  pose proof (blen_nonneg (enc_column c)). pose proof (blen_nonneg (cols ≫= enc_column)).
  cbn [length read_columns]. eapply reads_bind; [apply reads_column; [done|lia]|].
  replace (acc ++ c :: cols) with ((acc ++ [c]) ++ cols) by (by rewrite <- app_assoc).
  apply IH; [done|lia].
Qed.

(** ** Whole records *)

Definition enc_table (m : TableMetadata) : bytes :=
  le_split 4 (table_id m) ++ enc_string (table_name m) ++ le_split 4 (tbl_first_page_id m) ++
  le_split 2 (u16 (ColumnCount (tbl_schema m))) ++ (tbl_schema m ≫= enc_column).

Lemma EncodeTableMetadata_enc m : EncodeTableMetadata m = enc_table m.
Proof.
  unfold EncodeTableMetadata, append_string, enc_table, enc_string.
  by rewrite append_columns_enc, <- !app_assoc.
Qed.

Definition enc_index (m : IndexMetadata) : bytes :=
  le_split 4 (index_id m) ++ enc_string (index_name m) ++ enc_string (index_table_name m) ++
  enc_string (index_column_name m) ++ le_split 4 (index_meta_page_id m).

Lemma EncodeIndexMetadata_enc m : EncodeIndexMetadata m = enc_index m.
Proof. unfold EncodeIndexMetadata, append_string, enc_index, enc_string. by rewrite <- !app_assoc. Qed.

(** The ranges of the C++ types of the fields. *)
Definition table_wf (m : TableMetadata) : Prop :=
  in_u32 (table_id m) ∧ in_i32 (tbl_first_page_id m) ∧ Forall column_wf (tbl_schema m).
Definition index_wf (m : IndexMetadata) : Prop := in_u32 (index_id m) ∧ in_i32 (index_meta_page_id m).

Lemma blen_columns cols : Z.of_nat (length cols) ≤ blen (cols ≫= enc_column).
Proof.
  induction cols as [|c cols IH]; [done|]. cbn [mbind list_bind length]. rewrite blen_app, blen_enc_column.
  pose proof (blen_nonneg (string_bytes (col_name c))). lia.
Qed.

Lemma reads_all {A} (m : bytes → M Z (Result A)) enc v :
  (∀ data, reads data (m data) enc v) → fst <$> m enc 0 = Some (Ok v).
Proof.
  intros Hm. rewrite (Hm enc 0 []); [done|lia|by rewrite drop_0, app_nil_r|apply blen_nonneg].
Qed.

Lemma DecodeTable_Encode m :
  table_wf m → blen (EncodeTableMetadata m) ≤ 65535 →
  DecodeTableMetadata (EncodeTableMetadata m) = Some (Ok (set_rid_table m no_rid)).
Proof.
  intros (Hid & Hp & Hcols). rewrite EncodeTableMetadata_enc. intros Hl.
  apply (reads_all decode_table). intros data. unfold enc_table in Hl.
  rewrite !blen_app, blen_enc_string, !blen_le_split in Hl.
  pose proof (blen_nonneg (string_bytes (table_name m))).
  pose proof (blen_nonneg (tbl_schema m ≫= enc_column)). pose proof (blen_columns (tbl_schema m)).
  unfold decode_table, enc_table.
  eapply reads_bind; [apply (reads_unsigned data 4); simpl; unfold in_u32 in Hid; lia|].
  apply reads_string; [lia|].
  eapply reads_bind; [apply (reads_signed data 4); simpl; unfold in_i32 in Hp; lia|].
  rewrite u16_small by (unfold in_u16, ColumnCount; lia).
  eapply reads_bind; [apply (reads_unsigned data 2); simpl; unfold ColumnCount; lia|].
  unfold ColumnCount. rewrite Nat2Z.id.
  eapply reads_bind_ret; [apply (reads_columns data (tbl_schema m) []); [done|lia]|]. apply reads_ret.
Qed.

Lemma reads_read_string data s msg :
  blen (string_bytes s) ≤ 65535 → reads data (read_string data msg) (enc_string s) s.
Proof.
  intros Hs. pose proof (blen_nonneg (string_bytes s)). unfold read_string, enc_string.
  rewrite u16_small by blia.
  eapply reads_bind; [apply (reads_unsigned data 2); simpl; lia|apply reads_chars].
Qed.

Lemma DecodeIndex_Encode m :
  index_wf m → blen (EncodeIndexMetadata m) ≤ 65535 →
  DecodeIndexMetadata (EncodeIndexMetadata m) = Some (Ok (set_rid_index m no_rid)).
Proof.
  intros (Hid & Hp). rewrite EncodeIndexMetadata_enc. intros Hl.
  apply (reads_all decode_index). intros data. unfold enc_index in Hl.
  rewrite !blen_app, !blen_enc_string, !blen_le_split in Hl.
  pose proof (blen_nonneg (string_bytes (index_name m))).
  pose proof (blen_nonneg (string_bytes (index_table_name m))).
  pose proof (blen_nonneg (string_bytes (index_column_name m))).
  unfold decode_index, enc_index.
  eapply reads_bind; [apply (reads_unsigned data 4); simpl; unfold in_u32 in Hid; lia|].
  do 3 (eapply reads_bind; [apply reads_read_string; lia|]).
  eapply reads_bind_ret; [apply (reads_signed data 4); simpl; unfold in_i32 in Hp; lia|]. apply reads_ret.
Qed.

(** ** Directories

    Tables and indexes are kept the same way: a map, and a heap file with a
    record for each entry.  [CatalogEntry] states what the two kinds share. *)

Class CatalogEntry (E : Type) := {
  ce_key : E → string;
  ce_id : E → Z;
  ce_rid : E → RecordId;
  ce_set_rid : E → RecordId → E;
  ce_encode : E → bytes;
  ce_decode : bytes → option (Result E);
  ce_wf : E → Prop
}.

Class CatalogEntryLaws (E : Type) `{CatalogEntry E} : Prop := {
  ce_key_set : ∀ e r, ce_key (ce_set_rid e r) = ce_key e;
  ce_id_set : ∀ e r, ce_id (ce_set_rid e r) = ce_id e;
  ce_rid_set : ∀ e r, ce_rid (ce_set_rid e r) = r;
  ce_set_set : ∀ e r r', ce_set_rid (ce_set_rid e r) r' = ce_set_rid e r';
  ce_set_same : ∀ e, ce_set_rid e (ce_rid e) = e;
  ce_encode_set : ∀ e r, ce_encode (ce_set_rid e r) = ce_encode e;
  ce_wf_set : ∀ e r, ce_wf e → ce_wf (ce_set_rid e r);
  ce_encode_pos : ∀ e, 0 < blen (ce_encode e);
  ce_wf_id : ∀ e, ce_wf e → in_u32 (ce_id e);
  ce_decode_encode : ∀ e, ce_wf e → blen (ce_encode e) ≤ 65535 →
    ce_decode (ce_encode e) = Some (Ok (ce_set_rid e no_rid))
}.

#[export] Instance table_entry : CatalogEntry TableMetadata := {|
  ce_key := table_name; ce_id := table_id; ce_rid := tbl_catalog_record_id; ce_set_rid := set_rid_table;
  ce_encode := EncodeTableMetadata; ce_decode := DecodeTableMetadata; ce_wf := table_wf |}.
#[export] Instance index_entry : CatalogEntry IndexMetadata := {|
  ce_key := index_name; ce_id := index_id; ce_rid := idx_catalog_record_id; ce_set_rid := set_rid_index;
  ce_encode := EncodeIndexMetadata; ce_decode := DecodeIndexMetadata; ce_wf := index_wf |}.

#[export] Instance table_entry_laws : CatalogEntryLaws TableMetadata.
Proof.
  split; try done; cbn [ce_encode ce_wf ce_id table_entry].
  - by intros [].
  - intros e. rewrite EncodeTableMetadata_enc. unfold enc_table. rewrite blen_app, blen_le_split.
    match goal with |- context [blen ?x] => pose proof (blen_nonneg x) end. lia.
  - by intros e (? & _).
  - apply DecodeTable_Encode.
Qed.

#[export] Instance index_entry_laws : CatalogEntryLaws IndexMetadata.
Proof.
  split; try done; cbn [ce_encode ce_wf ce_id index_entry].
  - by intros [].
  - by intros e (? & _).
  - apply DecodeIndex_Encode.
Qed.

(** The visitor of the two [Load...FromDisk]. *)
Definition visit_entry {E} `{CatalogEntry E} (rid : RecordId) (data : bytes)
    (acc : option (Z * gmap string E)) : option (Z * gmap string E) :=
  match acc, ce_decode data with
  | Some (max_id, m), Some (Ok e) =>
      let e := ce_set_rid e rid in
      Some (if ce_id e >? max_id then ce_id e else max_id, <[ce_key e := e]> m)
  | Some acc, Some (Err _) => Some acc
  | _, _ => None
  end.

Section directory.
Context {Pool : Type} `{PageStoreSpec Pool} {E : Type} `{!CatalogEntry E} `{!CatalogEntryLaws E}.
Implicit Types (s : Pool) (hf : HeapFile) (chain : list Z) (m : gmap string E) (e : E).

(** The records of the file are the entries of the map, encoded; every id is
    below the next one to be used. *)
Record dir_wf (st : Pool * HeapFile) (chain : list Z) m (next : Z) : Prop := {
  dw_heap : heap_wf st chain;
  dw_record : ∀ rid bs, heap_get st chain rid = Some bs ↔
    ∃ e, m !! ce_key e = Some e ∧ ce_rid e = rid ∧ ce_encode e = bs;
  dw_entry : ∀ k e, m !! k = Some e →
    ce_key e = k ∧ ce_wf e ∧ blen (ce_encode e) ≤ 65535 ∧ ce_id e < next;
  dw_next : 1 ≤ next < 2 ^ 32
}.

Lemma dir_next st chain m next next' :
  dir_wf st chain m next → next ≤ next' < 2 ^ 32 → dir_wf st chain m next'.
Proof.
  intros [? ? He ?] ?. split; try done; [|lia]. intros k e Hk. destruct (He k e Hk) as (? & ? & ? & ?).
  split_and!; try done. lia.
Qed.

(** Two entries do not share a record. *)
Lemma dir_rid_inj st chain m next k k' e e' :
  dir_wf st chain m next → m !! k = Some e → m !! k' = Some e' → ce_rid e = ce_rid e' → e = e'.
Proof.
  intros Hwf Hk Hk' Hr.
  destruct (dw_entry _ _ _ _ Hwf _ _ Hk) as (<- & Hw & Hl & _).
  destruct (dw_entry _ _ _ _ Hwf _ _ Hk') as (<- & Hw' & Hl' & _).
  assert (Some (ce_encode e) = Some (ce_encode e')) as [= Henc].
  { trans (heap_get st chain (ce_rid e)); [symmetry|]; apply (dw_record _ _ _ _ Hwf); eauto. }
  pose proof (ce_decode_encode e Hw Hl) as Hd. rewrite Henc, ce_decode_encode in Hd by done.
  injection Hd as Hd. apply (f_equal (λ x, ce_set_rid x (ce_rid e))) in Hd.
  rewrite !ce_set_set, ce_set_same, Hr, ce_set_same in Hd. done.
Qed.

(** Another heap file of the same store changed. *)
Lemma dir_frame s s' hf hf1 hf1' chain chain1 chain1' m next :
  dir_wf (s, hf) chain m next → heap_wf (s', hf1') chain1' →
  chain1 ## chain → outside_same (s, hf1) (s', hf1') chain1 → chain_grown s s' chain1 chain1' →
  dir_wf (s', hf) chain m next ∧ chain1' ## chain.
Proof.
  intros [Hwf Hrec ? ?] Hwf1' Hdis Hout Hgrow.
  assert (∀ q, q ∈ chain → 1 ≤ q < ps_count s) as Hr.
  { intros q Hq. by eapply is_chain_in; [apply Hwf|]. }
  assert (∀ q, q ∈ chain → ps_view s' q = ps_view s q) as Hv.
  { intros q Hq. apply (Hout q); [auto|]. intros Hq1. by eapply Hdis. }
  split; [split; try done|].
  - split; [apply Hwf1'| |apply Hwf..]. eapply is_chain_ext; [|exact Hv|apply Hwf].
    unfold chain_grown in Hgrow. simpl. lia.
  - intros rid bs. rewrite <- Hrec. unfold heap_get. case_decide as Hd; [|done]. simpl.
    by rewrite Hv by tauto.
  - destruct Hgrow as [[-> _]|[-> _]]; [done|]. intros q [?|?%list_elem_of_singleton]%elem_of_app Hq.
    + by eapply Hdis.
    + subst q. apply Hr in Hq. lia.
Qed.

(** [catalog_heap_.InsertRecord(encoded)], then the insertion into the map. *)
Lemma dir_insert fuel s hf chain m next e :
  dir_wf (s, hf) chain m next → (length chain ≤ fuel)%nat → ps_count s < 2 ^ 31 - 1 →
  m !! ce_key e = None → ce_wf e → ce_id e < next → blen (ce_encode e) ≤ 65535 →
  ∃ r st' chain', HeapFile.InsertRecord fuel (ce_encode e) (s, hf) = Some (r, st') ∧
    chain_grown s st'.1 chain chain' ∧ outside_same (s, hf) st' chain ∧
    match r with
    | Ok rid => blen (ce_encode e) ≤ max_record ∧ dir_wf st' chain' (<[ce_key e := ce_set_rid e rid]> m) next
    | Err err => err = OutOfSpace "InsertRecord: record too large for an empty page" ∧
        max_record < blen (ce_encode e) ∧ dir_wf st' chain' m next
    end.
Proof.
  intros [Hwf Hrec Hent Hnext] Hfuel Hcnt Hnew Hw Hid Hl.
  destruct (InsertRecord_spec fuel s hf chain (ce_encode e) Hwf Hfuel Hcnt) as
    (r & st' & chain' & Er & Hwf' & Hgrow & Hout & Hres).
  exists r, st', chain'. split_and!; try done. pose proof (ce_encode_pos e).
  destruct r as [rid|err]; simpl in Hres.
  - destruct Hres as (Hmax & _ & _ & Hnone & Hget & Hoth). split; [done|].
    unfold rec_of in Hget. destruct (Z.eqb_spec (blen (ce_encode e)) 0); [lia|].
    assert (∀ e', m !! ce_key e' = Some e' → ce_rid e' ≠ rid) as Hfresh.
    { intros e' He' <-. assert (heap_get (s, hf) chain (ce_rid e') = Some (ce_encode e')); [|congruence].
      apply Hrec. eauto. }
    split; try done.
    + intros rid' bs. destruct (decide (rid' = rid)) as [->|Hne].
      * rewrite Hget. split.
        -- intros [= <-]. exists (ce_set_rid e rid).
           by rewrite ce_key_set, lookup_insert_eq, ce_rid_set, ce_encode_set.
        -- intros (e' & [[_ <-]|[Hk He']]%lookup_insert_Some & Hr & <-); [by rewrite ce_encode_set|].
           by destruct (Hfresh e').
      * rewrite Hoth, Hrec by done. split; intros (e' & He' & Hr & Hb); exists e'; (split; [|done]).
        -- rewrite lookup_insert_ne; [done|]. intros Hk. rewrite <- Hk, Hnew in He'. done.
        -- apply lookup_insert_Some in He' as [[_ <-]|[_ He']]; [|done]. by rewrite ce_rid_set in Hr.
    + intros k e' [[<- <-]|[_ He']]%lookup_insert_Some; [|by apply Hent].
      rewrite ce_key_set, ce_encode_set, ce_id_set. split_and!; try done. by apply ce_wf_set.
  - destruct Hres as (-> & ? & Hoth). split_and!; try done. split; try done.
    intros rid bs. by rewrite Hoth.
Qed.

(** [catalog_heap_.DeleteRecord(rid)], then the removal from the map. *)
Lemma dir_delete s hf chain m next k e :
  dir_wf (s, hf) chain m next → m !! k = Some e →
  ∃ s', HeapFile.DeleteRecord (ce_rid e) (s, hf) = Some (Status_OK, (s', hf)) ∧
    chain_grown s s' chain chain ∧ outside_same (s, hf) (s', hf) chain ∧
    dir_wf (s', hf) chain (delete k m) next.
Proof.
  intros Hd Hk. pose proof Hd as [Hwf Hrec Hent Hnext].
  destruct (Hent _ _ Hk) as (<- & _).
  assert (heap_get (s, hf) chain (ce_rid e) = Some (ce_encode e)) as Hg by (apply Hrec; eauto).
  destruct (heap_get_Some _ _ _ _ _ Hwf Hg) as (Hin & Hs & _).
  destruct (DeleteRecord_spec s hf chain (ce_rid e) Hwf Hin Hs) as (s' & Ed & Hwf' & Hout & Hn & Hoth & Hc).
  rewrite Hg in Ed. exists s'. split_and!; try done; [by left|]. split; try done.
  - intros rid bs. destruct (decide (rid = ce_rid e)) as [->|Hne].
    + rewrite Hn. split; [done|]. intros (e' & [Hne He']%lookup_delete_Some & Hr & _).
      destruct Hne. by rewrite (dir_rid_inj _ _ _ _ _ _ _ _ Hd He' Hk).
    + rewrite Hoth, Hrec by done. split; intros (e' & He' & Hr & Hb); exists e'; (split; [|done]).
      * rewrite lookup_delete_ne; [done|]. intros Hkk. rewrite Hkk, He' in Hk. congruence.
      * by apply lookup_delete_Some in He' as [_ ?].
  - intros k' e' [_ He']%lookup_delete_Some. by apply Hent.
Qed.

(** The fold of the visitor over the records of entries of [m]. *)
Lemma visit_entries m es max_id acc :
  Forall (λ e, m !! ce_key e = Some e ∧ ce_wf e ∧ blen (ce_encode e) ≤ 65535) es →
  ∃ max_id' acc', fold_left (λ acc '(rid, bs), visit_entry rid bs acc)
      ((λ e, (ce_rid e, ce_encode e)) <$> es) (Some (max_id, acc)) = Some (max_id', acc') ∧
    max_id ≤ max_id' ∧ Forall (λ e, ce_id e ≤ max_id') es ∧ (max_id' = max_id ∨ max_id' ∈ ce_id <$> es) ∧
    ∀ k, acc' !! k = if decide (k ∈ ce_key <$> es) then m !! k else acc !! k.
Proof.
  induction es as [|e es IH] in max_id, acc |- *; intros Hes.
  { exists max_id, acc. split_and!; try done. by left. }
  apply Forall_cons in Hes as [(Hk & Hw & Hl) Hes].
  set (max1 := if ce_id e >? max_id then ce_id e else max_id).
  destruct (IH max1 (<[ce_key e := e]> acc) Hes) as (max_id' & acc' & Ef & Hle & Hall & Hsome & Hacc).
  assert (max_id ≤ max1 ∧ ce_id e ≤ max1 ∧ (max1 = max_id ∨ max1 = ce_id e)) as (Hm1 & Hm2 & Hm3).
  { unfold max1. destruct (Z.gtb_spec (ce_id e) max_id); lia. }
  exists max_id', acc'. split; [|split; [lia|split; [|split]]].
  - cbn [fmap list_fmap fold_left]. rewrite <- Ef. f_equal. unfold visit_entry. rewrite ce_decode_encode by done.
    by rewrite ce_set_set, ce_set_same.
  - constructor; [lia|done].
  - rewrite fmap_cons, elem_of_cons. destruct Hsome as [->|]; [|tauto]. destruct Hm3 as [->| ->]; tauto.
  - intros k. rewrite Hacc, fmap_cons. destruct (decide (k ∈ ce_key <$> es)) as [Hin|Hin].
    + by rewrite decide_True by set_solver.
    + destruct (decide (k = ce_key e)) as [->|Hne].
      * rewrite decide_True by set_solver. by rewrite lookup_insert_eq.
      * rewrite decide_False by set_solver. by rewrite lookup_insert_ne.
Qed.

(** The records of a file are those of a list of entries. *)
Lemma dir_entries st chain m next :
  dir_wf st chain m next →
  ∃ es, heap_records st chain = (λ e, (ce_rid e, ce_encode e)) <$> es ∧
    (∀ e, e ∈ es ↔ m !! ce_key e = Some e).
Proof.
  intros Hd. pose proof Hd as [Hwf Hrec Hent Hnext].
  assert (∀ l, (∀ rid bs, (rid, bs) ∈ l → heap_get st chain rid = Some bs) →
    ∃ es, l = (λ e, (ce_rid e, ce_encode e)) <$> es ∧ Forall (λ e, m !! ce_key e = Some e) es) as Hlist.
  { induction l as [|[rid bs] l IH]; intros Hl; [by exists []|].
    destruct (IH (λ rid bs Hin, Hl rid bs (list_elem_of_further _ _ _ Hin))) as (es & -> & Hes).
    assert (heap_get st chain rid = Some bs) as (e & He & <- & <-)%Hrec by (apply Hl; left).
    exists (e :: es). split; [done|]. by constructor. }
  destruct (Hlist (heap_records st chain)) as (es & Ees & Hes).
  { intros rid bs. by rewrite elem_of_heap_records. }
  exists es. split; [done|]. intros e. split; [intros; by eapply Forall_forall in Hes|]. intros He.
  assert ((ce_rid e, ce_encode e) ∈ heap_records st chain) as Hin.
  { apply elem_of_heap_records, Hrec. eauto. }
  rewrite Ees in Hin. apply list_elem_of_fmap in Hin as (e' & [= Hr _] & Hin).
  rewrite Forall_forall in Hes. by rewrite (dir_rid_inj _ _ _ _ _ _ _ _ Hd He (Hes e' Hin) Hr).
Qed.

(** [Load...FromDisk] on a file rebuilds its map. *)
Lemma dir_load fuel s hf chain m next :
  dir_wf (s, hf) chain m next → (length chain ≤ fuel)%nat →
  ∃ s' max_id, Scan fuel visit_entry (Some (0, ∅)) (s, hf) = Some (Some (max_id, m), (s', hf)) ∧
    ps_eqv s s' ∧ ps_idle s' ∧ 0 ≤ max_id ∧ (max_id = 0 ∨ ∃ k e, m !! k = Some e ∧ ce_id e = max_id) ∧
    (∀ k e, m !! k = Some e → ce_id e ≤ max_id).
Proof.
  intros Hd Hfuel. pose proof Hd as [Hwf Hrec Hent Hnext].
  destruct (dir_entries _ _ _ _ Hd) as (es & Ees & Hes).
  destruct (scan_loop_spec fuel visit_entry (first_page_id_ hf) chain (Some (0, ∅)) s hf) as (s' & Escan & Hi & He);
    [apply Hwf|apply Hwf|done|].
  destruct (visit_entries m es 0 ∅) as (max_id & m' & Ef & Hle & Hall & Hsome & Hm').
  { apply Forall_forall. intros e Hin%Hes. split; [done|]. by destruct (Hent _ _ Hin) as (_ & ? & ? & _). }
  exists s', max_id. split_and!; try done.
  - unfold Scan. cbn [fst snd] in *. etrans; [exact Escan|]. rewrite Ees, Ef. do 4 f_equal. apply map_eq.
    intros k. rewrite Hm'. case_decide as Hin; [done|]. rewrite lookup_empty.
    destruct (m !! k) as [e|] eqn:Hk; [|done]. destruct Hin. apply list_elem_of_fmap. exists e.
    destruct (Hent _ _ Hk) as (<- & _). split; [done|]. by apply Hes.
  - destruct Hsome as [?|(e & -> & Hin)%list_elem_of_fmap]; [by left|right]. apply Hes in Hin. eauto.
  - intros k e Hk. destruct (Hent _ _ Hk) as (<- & _). rewrite Forall_forall in Hall. by apply Hall, Hes.
Qed.
End directory.

(** ** The manager *)

Section manager.
Context {Pool : Type} `{PageStoreSpec Pool}.
Implicit Types (s : Pool) (c : CatalogManager) (chain : list Z).
Abbreviation Cat := (Pool * CatalogManager)%type.

Record catalog_wf (st : Cat) (tchain ichain : list Z) : Prop := {
  cw_tables : dir_wf (st.1, catalog_heap_ st.2) tchain (tables_ st.2) (next_table_id_ st.2);
  cw_indexes : dir_wf (st.1, index_heap_ st.2) ichain (indexes_ st.2) (next_index_id_ st.2);
  cw_disjoint : tchain ## ichain
}.

(** The two files begin where they did. *)
Definition same_first (c c' : CatalogManager) : Prop :=
  CatalogFirstPageId c' = CatalogFirstPageId c ∧ IndexCatalogFirstPageId c' = IndexCatalogFirstPageId c.

(** What an operation on one of the chains leaves of the other, and how far the
    store grows. *)
Definition catalog_step (st st' : Cat) (tchain ichain tchain' ichain' : list Z) : Prop :=
  catalog_wf st' tchain' ichain' ∧
  ps_count st'.1 ≤ ps_count st.1 + 1 ∧ (length tchain' ≤ length tchain + 1)%nat ∧
  (length ichain' ≤ length ichain + 1)%nat ∧
  same_first st.2 st'.2.

(** A chain that grows begins where it did. *)
Lemma heap_first s hf s' hf' chain chain' :
  heap_wf (s, hf) chain → heap_wf (s', hf') chain' → chain_grown s s' chain chain' →
  first_page_id_ hf' = first_page_id_ hf.
Proof.
  intros [_ Hch _ Hl] [_ Hch' _ _] Hg%chain_grown_prefix. simpl in *.
  destruct chain as [|q chain]; [by apply not_elem_of_nil in Hl|]. destruct Hg as [k ->].
  destruct Hch as (-> & _), Hch' as (-> & _). done.
Qed.

Lemma grown_length s s' chain chain' :
  chain_grown s s' chain chain' →
  ps_count s' ≤ ps_count s + 1 ∧ (length chain' ≤ length chain + 1)%nat.
Proof. intros [[-> ?]|[-> ?]]; rewrite ?length_app; simpl; lia. Qed.

Lemma list_disjoint_sym (l k : list Z) : l ## k → k ## l.
Proof. set_solver. Qed.

Lemma step_tables s c tchain ichain s' h' tchain' t n :
  catalog_wf (s, c) tchain ichain → dir_wf (s', h') tchain' t n →
  chain_grown s s' tchain tchain' → outside_same (s, catalog_heap_ c) (s', h') tchain →
  catalog_step (s, c) (s', mkCatalog h' (index_heap_ c) t (indexes_ c) n (next_index_id_ c))
    tchain ichain tchain' ichain.
Proof.
  intros [Ht Hi Hd] Ht' Hg Ho. simpl in *.
  destruct (dir_frame s s' (index_heap_ c) _ h' ichain tchain tchain' _ _ Hi
    (dw_heap _ _ _ _ Ht') Hd Ho Hg) as [Hi' Hd'].
  pose proof (heap_first _ _ _ _ _ _ (dw_heap _ _ _ _ Ht) (dw_heap _ _ _ _ Ht') Hg).
  apply grown_length in Hg as [??]. split; [done|]. simpl. split_and!; (done || lia).
Qed.

Lemma step_indexes s c tchain ichain s' h' ichain' i n :
  catalog_wf (s, c) tchain ichain → dir_wf (s', h') ichain' i n →
  chain_grown s s' ichain ichain' → outside_same (s, index_heap_ c) (s', h') ichain →
  catalog_step (s, c) (s', mkCatalog (catalog_heap_ c) h' (tables_ c) i (next_table_id_ c) n)
    tchain ichain tchain ichain'.
Proof.
  intros [Ht Hi Hd] Hi' Hg Ho. simpl in *.
  destruct (dir_frame s s' (catalog_heap_ c) _ h' tchain ichain ichain' _ _ Ht
    (dw_heap _ _ _ _ Hi') (list_disjoint_sym _ _ Hd) Ho Hg) as [Ht' Hd'].
  pose proof (heap_first _ _ _ _ _ _ (dw_heap _ _ _ _ Hi) (dw_heap _ _ _ _ Hi') Hg).
  apply grown_length in Hg as [??]. split; [split; try done; by apply list_disjoint_sym|]. simpl. split_and!; (done || lia).
Qed.

Lemma step_refl s c tchain ichain : catalog_wf (s, c) tchain ichain → catalog_step (s, c) (s, c) tchain ichain tchain ichain.
Proof. intros. split; [done|]. split_and!; (done || lia). Qed.

Lemma cat_eta c :
  c = mkCatalog (catalog_heap_ c) (index_heap_ c) (tables_ c) (indexes_ c) (next_table_id_ c) (next_index_id_ c).
Proof. by destruct c. Qed.

Ltac run := unfold bind, gets, ret, set_tables, set_indexes, on_members, modify; cbn [fst snd].

(** The three outcomes of [CreateTable] on a name that is free. *)
Definition create_result {E} `{CatalogEntry E} (e : E) (big : string) (r : Result E) : Prop :=
  if decide (65535 < blen (ce_encode e)) then r = Err (InvalidArgument big)
  else if decide (max_record < blen (ce_encode e)) then
    r = Err (OutOfSpace "InsertRecord: record too large for an empty page")
  else ∃ rid, r = Ok (ce_set_rid e rid).

Lemma CreateTable_spec fuel s c tchain ichain name schema page :
  catalog_wf (s, c) tchain ichain → (length tchain ≤ fuel)%nat → ps_count s < 2 ^ 31 - 1 →
  next_table_id_ c < 2 ^ 32 - 1 → in_i32 page → Forall column_wf schema →
  let meta := mkTable (next_table_id_ c) name schema page no_rid in
  ∃ r s' c' tchain', Catalog.CreateTable fuel name schema page (s, c) = Some (r, (s', c')) ∧
    catalog_step (s, c) (s', c') tchain ichain tchain' ichain ∧ indexes_ c' = indexes_ c ∧
    next_index_id_ c' = next_index_id_ c ∧
    match tables_ c !! name with
    | Some _ => r = Err (AlreadyExists ("CreateTable: table '" +:+ name +:+ "' already exists")) ∧ c' = c
    | None =>
        next_table_id_ c' = next_table_id_ c + 1 ∧
        create_result meta "CreateTable: encoded metadata too large (too many/long columns)" r ∧
        tables_ c' = match r with Ok m => <[name := m]> (tables_ c) | Err _ => tables_ c end
    end.
Proof.
  intros Hwf Hfuel Hcnt Hid Hpage Hcols meta. pose proof Hwf as [Ht _ _]. simpl in Ht.
  pose proof (dw_next _ _ _ _ Ht). unfold Catalog.CreateTable. run.
  destruct (decide (is_Some (tables_ c !! name))) as [[m Hm]|Hn].
  { rewrite Hm. eexists _, s, c, tchain. split_and!; try done. by apply step_refl. }
  rewrite <- eq_None_not_Some in Hn. rewrite Hn. fold meta.
  apply (dir_next _ _ _ _ (next_table_id_ c + 1)) in Ht; [|lia].
  rewrite u32_small by (unfold in_u32; lia). unfold create_result. cbn [ce_encode table_entry].
  destruct (Z.gtb_spec (blen (EncodeTableMetadata meta)) 65535) as [Hbig|Hbig].
  { eexists _, s, _, tchain. split; [reflexivity|]. split_and!; simpl; try done.
    - apply (step_tables s c); try done. by left.
    - by rewrite decide_True. }
  destruct (dir_insert fuel s (catalog_heap_ c) tchain _ _ meta Ht Hfuel Hcnt) as
    (r & [s' h'] & tchain' & Er & Hg & Ho & Hres); simpl; try done; try lia.
  { split_and!; try done. unfold in_u32; simpl. lia. }
  cbn [ce_encode table_entry] in Er. cbn [fst] in Hg.
  unfold rbind, bind, on_catalog_heap. cbn [catalog_heap_]. rewrite Er. destruct r as [rid|err]; simpl.
  - destruct Hres as [Hmax Hd]. eexists _, s', _, tchain'. split; [reflexivity|].
    split_and!; simpl; try done.
    + by apply (step_tables s c).
    + rewrite !decide_False by (cbn [ce_encode table_entry] in Hmax; lia). eauto.
  - destruct Hres as (-> & Hmax & Hd). eexists _, s', _, tchain'. split; [reflexivity|].
    split_and!; simpl; try done.
    + by apply (step_tables s c).
    + by rewrite decide_False, decide_True by (done || lia).
Qed.

Lemma CreateIndex_spec fuel s c tchain ichain name table column page :
  catalog_wf (s, c) tchain ichain → (length ichain ≤ fuel)%nat → ps_count s < 2 ^ 31 - 1 →
  next_index_id_ c < 2 ^ 32 - 1 → in_i32 page →
  let meta := mkIndex (next_index_id_ c) name table column page no_rid in
  ∃ r s' c' ichain', Catalog.CreateIndex fuel name table column page (s, c) = Some (r, (s', c')) ∧
    catalog_step (s, c) (s', c') tchain ichain tchain ichain' ∧ tables_ c' = tables_ c ∧
    next_table_id_ c' = next_table_id_ c ∧
    match indexes_ c !! name with
    | Some _ => r = Err (AlreadyExists ("CreateIndex: index '" +:+ name +:+ "' already exists")) ∧ c' = c
    | None =>
        next_index_id_ c' = next_index_id_ c + 1 ∧
        create_result meta "CreateIndex: encoded metadata too large" r ∧
        indexes_ c' = match r with Ok m => <[name := m]> (indexes_ c) | Err _ => indexes_ c end
    end.
Proof.
  intros Hwf Hfuel Hcnt Hid Hpage meta. pose proof Hwf as [_ Hi _]. simpl in Hi.
  pose proof (dw_next _ _ _ _ Hi). unfold Catalog.CreateIndex. run.
  destruct (decide (is_Some (indexes_ c !! name))) as [[m Hm]|Hn].
  { rewrite Hm. eexists _, s, c, ichain. split_and!; try done. by apply step_refl. }
  rewrite <- eq_None_not_Some in Hn. rewrite Hn. fold meta.
  apply (dir_next _ _ _ _ (next_index_id_ c + 1)) in Hi; [|lia].
  rewrite u32_small by (unfold in_u32; lia). unfold create_result. cbn [ce_encode index_entry].
  destruct (Z.gtb_spec (blen (EncodeIndexMetadata meta)) 65535) as [Hbig|Hbig].
  { eexists _, s, _, ichain. split; [reflexivity|]. split_and!; simpl; try done.
    - apply (step_indexes s c); try done. by left.
    - by rewrite decide_True. }
  destruct (dir_insert fuel s (index_heap_ c) ichain _ _ meta Hi Hfuel Hcnt) as
    (r & [s' h'] & ichain' & Er & Hg & Ho & Hres); simpl; try done; try lia.
  { split_and!; try done. unfold in_u32; simpl. lia. }
  cbn [ce_encode index_entry] in Er. cbn [fst] in Hg.
  unfold rbind, bind, on_index_heap. cbn [index_heap_]. rewrite Er. destruct r as [rid|err]; simpl.
  - destruct Hres as [Hmax Hd]. eexists _, s', _, ichain'. split; [reflexivity|].
    split_and!; simpl; try done.
    + by apply (step_indexes s c).
    + rewrite !decide_False by (cbn [ce_encode index_entry] in Hmax; lia). eauto.
  - destruct Hres as (-> & Hmax & Hd). eexists _, s', _, ichain'. split; [reflexivity|].
    split_and!; simpl; try done.
    + by apply (step_indexes s c).
    + by rewrite decide_False, decide_True by (done || lia).
Qed.

Lemma DropTable_spec s c tchain ichain name :
  catalog_wf (s, c) tchain ichain →
  ∃ s' c', Catalog.DropTable name (s, c) =
      Some (match tables_ c !! name with
            | Some _ => Status_OK
            | None => NotFound ("DropTable: table '" +:+ name +:+ "' does not exist")
            end, (s', c')) ∧
    catalog_step (s, c) (s', c') tchain ichain tchain ichain ∧
    tables_ c' = delete name (tables_ c) ∧ indexes_ c' = indexes_ c ∧
    next_table_id_ c' = next_table_id_ c ∧ next_index_id_ c' = next_index_id_ c.
Proof.
  intros Hwf. pose proof Hwf as [Ht _ _]. simpl in Ht. unfold Catalog.DropTable. run.
  destruct (tables_ c !! name) as [m|] eqn:Hm.
  - destruct (dir_delete s (catalog_heap_ c) tchain _ _ name m Ht Hm) as (s' & Ed & Hg & Ho & Hd).
    cbn [ce_rid table_entry] in Ed. unfold on_catalog_heap. rewrite Ed. simpl.
    eexists s', _. split; [reflexivity|]. split_and!; simpl; try done. by apply (step_tables s c).
  - exists s, c. rewrite delete_id by done. split_and!; try done. by apply step_refl.
Qed.

Lemma DropIndex_spec s c tchain ichain name :
  catalog_wf (s, c) tchain ichain →
  ∃ s' c', Catalog.DropIndex name (s, c) =
      Some (match indexes_ c !! name with
            | Some _ => Status_OK
            | None => NotFound ("DropIndex: index '" +:+ name +:+ "' does not exist")
            end, (s', c')) ∧
    catalog_step (s, c) (s', c') tchain ichain tchain ichain ∧
    indexes_ c' = delete name (indexes_ c) ∧ tables_ c' = tables_ c ∧
    next_table_id_ c' = next_table_id_ c ∧ next_index_id_ c' = next_index_id_ c.
Proof.
  intros Hwf. pose proof Hwf as [_ Hi _]. simpl in Hi. unfold Catalog.DropIndex. run.
  destruct (indexes_ c !! name) as [m|] eqn:Hm.
  - destruct (dir_delete s (index_heap_ c) ichain _ _ name m Hi Hm) as (s' & Ed & Hg & Ho & Hd).
    cbn [ce_rid index_entry] in Ed. unfold on_index_heap. rewrite Ed. simpl.
    eexists s', _. split; [reflexivity|]. split_and!; simpl; try done. by apply (step_indexes s c).
  - exists s, c. rewrite delete_id by done. split_and!; try done. by apply step_refl.
Qed.

(** *** Opening *)

(** A directory on a store with the same pages, with the file just opened. *)
Lemma dir_reopen {E} `{!CatalogEntry E} s s' hf chain (m : gmap string E) next :
  dir_wf (s, hf) chain m next → ps_eqv s s' → ps_idle s' →
  dir_wf (s', mkHeapFile (first_page_id_ hf) (first_page_id_ hf)) chain m next ∧
  HeapFile_new (first_page_id_ hf) s' =
    Some (s', mkHeapFile (first_page_id_ hf) (first_page_id_ hf)) ∧
  first_page_id_ hf ≠ kInvalidPageId.
Proof.
  intros [Hwf Hrec Hent Hnext] He Hi. destruct (heap_eqv s hf chain s' Hwf He Hi) as [Hwf' Hget].
  destruct Hwf' as [_ Hch Hnd Hl]. simpl in *.
  assert (chain ≠ []) as Hne by (by intros ->; apply not_elem_of_nil in Hl).
  destruct (HeapFile_open s' (first_page_id_ hf) chain Hi Hch Hne Hnd) as [Eo Hwf'].
  split_and!; try done.
  - split; try done. intros rid bs. rewrite <- Hrec, <- Hget. done.
  - destruct chain; [done|]. destruct Hch as (-> & ? & _). unfold kInvalidPageId. lia.
Qed.

(** The next id after loading. *)
Definition next_after {E} `{CatalogEntry E} (m : gmap string E) (next : Z) : Prop :=
  1 ≤ next ∧ (∀ k e, m !! k = Some e → ce_id e < next) ∧
  (next = 1 ∨ ∃ k e, m !! k = Some e ∧ ce_id e = next - 1).

Lemma dir_next_after {E} `{!CatalogEntry E} `{!CatalogEntryLaws E} st chain (m : gmap string E) next max_id :
  dir_wf st chain m next → 0 ≤ max_id → (max_id = 0 ∨ ∃ k e, m !! k = Some e ∧ ce_id e = max_id) →
  (∀ k e, m !! k = Some e → ce_id e ≤ max_id) →
  u32 (max_id + 1) = max_id + 1 ∧ next_after m (max_id + 1) ∧ dir_wf st chain m (max_id + 1).
Proof.
  intros [Hwf Hrec Hent Hnext] H0' Hmax Hall.
  assert (max_id + 1 ≤ next) as Hle.
  { destruct Hmax as [->|(k & e & Hk & <-)]; [lia|]. destruct (Hent _ _ Hk) as (_ & _ & _ & ?). lia. }
  split; [apply u32_small; unfold in_u32; lia|]. split.
  - split; [lia|]. split; [intros k e Hk%Hall; lia|].
    destruct Hmax as [->|(k & e & Hk & <-)]; [by left|]. right. exists k, e. split; [done|lia].
  - split; try done; [|lia]. intros k e Hk. destruct (Hent _ _ Hk) as (? & ? & ? & ?).
    split_and!; try done. apply Hall in Hk. lia.
Qed.

Lemma dir_eqv {E} `{!CatalogEntry E} s s' hf chain (m : gmap string E) next :
  dir_wf (s, hf) chain m next → ps_eqv s s' → ps_idle s' → dir_wf (s', hf) chain m next.
Proof.
  intros [Hwf Hrec Hent Hnext] He Hi. destruct (heap_eqv s hf chain s' Hwf He Hi) as [Hwf' Hget].
  split; try done. intros rid bs. by rewrite Hget.
Qed.

Lemma CatalogManager_open fuel s c tchain ichain s' :
  catalog_wf (s, c) tchain ichain → (length tchain ≤ fuel)%nat → (length ichain ≤ fuel)%nat →
  ps_eqv s s' → ps_idle s' →
  ∃ s'' c', CatalogManager_new fuel (CatalogFirstPageId c) (IndexCatalogFirstPageId c) s' = Some (s'', c') ∧
    ps_eqv s s'' ∧ catalog_wf (s'', c') tchain ichain ∧ tables_ c' = tables_ c ∧ indexes_ c' = indexes_ c ∧
    next_after (tables_ c) (next_table_id_ c') ∧ next_after (indexes_ c) (next_index_id_ c') ∧
    CatalogFirstPageId c' = CatalogFirstPageId c ∧ IndexCatalogFirstPageId c' = IndexCatalogFirstPageId c.
Proof.
  intros [Ht Hx Hdis] Hft Hfi He Hi. unfold CatalogManager_new, CatalogFirstPageId, IndexCatalogFirstPageId.
  simpl in *.
  destruct (dir_reopen s s' _ _ _ _ Ht He Hi) as (Ht1 & -> & Hnt).
  destruct (dir_reopen s s' _ _ _ _ Hx He Hi) as (Hx1 & -> & Hni).
  rewrite !(proj2 (Z.eqb_neq _ _)) by done. cbn [negb].
  set (th := mkHeapFile (first_page_id_ (catalog_heap_ c)) _) in *.
  set (ih := mkHeapFile (first_page_id_ (index_heap_ c)) _) in *.
  destruct (dir_load fuel s' th tchain _ _ Ht1 Hft) as (s1 & max1 & E1 & He1 & Hi1 & H01 & Hm1 & Hall1).
  destruct (dir_next_after _ _ _ _ max1 Ht1 H01 Hm1 Hall1) as (U1 & N1 & Ht2).
  assert (ps_eqv s s1) as Hes1 by (by trans s').
  apply (dir_eqv _ s1) in Hx1; [|done..].
  destruct (dir_load fuel s1 ih ichain _ _ Hx1 Hfi) as (s2 & max2 & E2 & He2 & Hi2 & H02 & Hm2 & Hall2).
  destruct (dir_next_after _ _ _ _ max2 Hx1 H02 Hm2 Hall2) as (U2 & N2 & Hx2).
  eexists s2, _. split.
  - unfold LoadTablesFromDisk, LoadIndexesFromDisk. run. unfold on_catalog_heap, on_index_heap. cbn [catalog_heap_ tables_].
    change visit_table with (visit_entry (E := TableMetadata)). rewrite E1. cbn [index_heap_ indexes_].
    change visit_index with (visit_entry (E := IndexMetadata)). rewrite E2. reflexivity.
  - assert (ps_eqv s s2) as Hes2 by (by trans s1).
    simpl. rewrite U1, U2. split_and!; simpl; try done; [apply Hes2..|].
    split; simpl; [|by apply (dir_eqv s1 s2)|done]. apply (dir_eqv s1 s2); [|done..]. by apply (dir_eqv s' s1).
Qed.

(** A catalog without first pages creates its two heap files. *)
Lemma dir_create {E} `{!CatalogEntry E} s :
  ps_idle s → ps_count s < 2 ^ 31 - 1 →
  let n := ps_count s in
  ∃ s', HeapFile_new kInvalidPageId s = Some (s', mkHeapFile n n) ∧ ps_count s' = n + 1 ∧
    dir_wf (s', mkHeapFile n n) [n] (∅ : gmap string E) 1 ∧
    outside_same (s, mkHeapFile n n) (s', mkHeapFile n n) [].
Proof.
  intros Hi Hlt n. destruct (HeapFile_create s Hi Hlt) as (s' & Eh & Hwf & Hc & Hrec & Hv).
  fold n in Eh, Hwf, Hc, Hrec, Hv. exists s'. split_and!; try done; [|intros q ? _; by apply Hv].
  split; [done| |by intros k e ?|lia]. intros rid bs. rewrite <- elem_of_heap_records, Hrec.
  split; [by intros ?%elem_of_nil|]. by intros (e & ? & _).
Qed.

Lemma CatalogManager_create fuel s :
  ps_idle s → ps_count s < 2 ^ 31 - 2 →
  let n := ps_count s in
  ∃ s' c, CatalogManager_new fuel kInvalidPageId kInvalidPageId s = Some (s', c) ∧
    catalog_wf (s', c) [n] [n + 1] ∧ ps_count s' = n + 2 ∧ tables_ c = ∅ ∧ indexes_ c = ∅ ∧
    next_table_id_ c = 1 ∧ next_index_id_ c = 1 ∧
    ∀ q, 1 ≤ q < n → ps_view s' q = ps_view s q.
Proof.
  intros Hi Hlt n.
  destruct (dir_create (E := TableMetadata) s Hi) as (s1 & E1 & Hc1 & Ht & Ho1); [lia|]. fold n in E1, Hc1, Ht, Ho1.
  pose proof (hwf_idle _ _ (dw_heap _ _ _ _ Ht)) as Hi1. simpl in Hi1.
  destruct (dir_create (E := IndexMetadata) s1 Hi1) as (s2 & E2 & Hc2 & Hx & Ho2); [lia|].
  rewrite Hc1 in *. unfold CatalogManager_new. rewrite E1, E2. cbn [Z.eqb kInvalidPageId Pos.eqb negb].
  destruct (dir_frame s1 s2 (mkHeapFile n n) (mkHeapFile (n+1) (n+1)) (mkHeapFile (n+1) (n+1)) [n] [] [n + 1]
    (∅ : gmap string TableMetadata) 1) as [Ht' Hd']; try done; [apply Hx|set_solver|right; by rewrite Hc1|].
  eexists s2, _. split; [reflexivity|]. split_and!; simpl; try done; [|lia|].
  - split; simpl; [done..|]. by apply list_disjoint_sym.
  - intros q Hq. trans (ps_view s1 q); [apply (Ho2 q)|apply (Ho1 q)]; simpl; try apply not_elem_of_nil; unfold n in *; lia.
Qed.
End manager.
