(* ===== verification/CatalogTheorems.v ===== *)
(** * The catalog implements two maps

    The operations of the catalog, reopening included, return what they return
    on a pair of maps: this is what the table manager and the executor rely
    on. *)

From stdpp Require Import gmap.
From S2P Require Import Prelude Util Value RecordCodec SlottedPage PageManager PageStore BufferPool HeapFile.
From S2P Require Import Catalog CatalogSpec.

(** ** The abstract catalog *)

Record ACatalog := mkACatalog {
  a_tables : gmap string TableMetadata;
  a_indexes : gmap string IndexMetadata;
  a_next_table : Z;
  a_next_index : Z
}.

Definition a_empty : ACatalog := mkACatalog ∅ ∅ 1 1.

(** An entry, but for where its record is. *)
Definition forget {E} `{CatalogEntry E} (e : E) : E := ce_set_rid e no_rid.

(** The id after the largest one in use. *)
Definition a_next {E} `{CatalogEntry E} (m : gmap string E) : Z :=
  map_fold (λ _ e n, Z.max (ce_id e + 1) n) 1 m.

(** Adding an entry: it has to fit a page. *)
Definition a_add {E} `{CatalogEntry E} (e : E) (big : string) (m : gmap string E) : Result E * gmap string E :=
  if decide (65535 < blen (ce_encode e)) then (Err (InvalidArgument big), m)
  else if decide (max_record < blen (ce_encode e)) then
    (Err (OutOfSpace "InsertRecord: record too large for an empty page"), m)
  else (Ok e, <[ce_key e := e]> m).

Inductive CatalogOp :=
  | OpCreateTable (name : string) (schema : Schema) (page : Z)
  | OpDropTable (name : string)
  | OpGetTable (name : string)
  | OpCreateIndex (name table column : string) (page : Z)
  | OpDropIndex (name : string)
  | OpGetIndex (name : string)
  | OpReopen.

Inductive CatalogOut :=
  | OutTable (r : Result TableMetadata)
  | OutIndex (r : Result IndexMetadata)
  | OutStatus (st : Status)
  | OutGetTable (m : option TableMetadata)
  | OutGetIndex (m : option IndexMetadata)
  | OutOpened.

Definition a_step (op : CatalogOp) (a : ACatalog) : CatalogOut * ACatalog :=
  match op with
  | OpCreateTable name schema page =>
      match a_tables a !! name with
      | Some _ =>
          (OutTable (Err (AlreadyExists ("CreateTable: table '" +:+ name +:+ "' already exists"))), a)
      | None =>
          let '(r, t) := a_add (mkTable (a_next_table a) name schema page no_rid)
            "CreateTable: encoded metadata too large (too many/long columns)" (a_tables a) in
          (OutTable r, mkACatalog t (a_indexes a) (a_next_table a + 1) (a_next_index a))
      end
  | OpDropTable name =>
      (OutStatus match a_tables a !! name with
                 | Some _ => Status_OK
                 | None => NotFound ("DropTable: table '" +:+ name +:+ "' does not exist")
                 end,
       mkACatalog (delete name (a_tables a)) (a_indexes a) (a_next_table a) (a_next_index a))
  | OpGetTable name => (OutGetTable (a_tables a !! name), a)
  | OpCreateIndex name table column page =>
      match a_indexes a !! name with
      | Some _ =>
          (OutIndex (Err (AlreadyExists ("CreateIndex: index '" +:+ name +:+ "' already exists"))), a)
      | None =>
          let '(r, i) := a_add (mkIndex (a_next_index a) name table column page no_rid)
            "CreateIndex: encoded metadata too large" (a_indexes a) in
          (OutIndex r, mkACatalog (a_tables a) i (a_next_table a) (a_next_index a + 1))
      end
  | OpDropIndex name =>
      (OutStatus match a_indexes a !! name with
                 | Some _ => Status_OK
                 | None => NotFound ("DropIndex: index '" +:+ name +:+ "' does not exist")
                 end,
       mkACatalog (a_tables a) (delete name (a_indexes a)) (a_next_table a) (a_next_index a))
  | OpGetIndex name => (OutGetIndex (a_indexes a !! name), a)
  | OpReopen => (OutOpened, mkACatalog (a_tables a) (a_indexes a) (a_next (a_tables a)) (a_next (a_indexes a)))
  end.

Fixpoint a_run (ops : list CatalogOp) (a : ACatalog) : list CatalogOut * ACatalog :=
  match ops with
  | [] => ([], a)
  | op :: ops' => let '(o, a1) := a_step op a in let '(os, a2) := a_run ops' a1 in (o :: os, a2)
  end.

(** The arguments have the ranges of their C++ types. *)
Definition op_ok (op : CatalogOp) : Prop :=
  match op with
  | OpCreateTable _ schema page => in_i32 page ∧ Forall column_wf schema
  | OpCreateIndex _ _ _ page => in_i32 page
  | _ => True
  end.

(** ** Running the code *)

Definition result_map {A B} (f : A → B) (r : Result A) : Result B :=
  match r with Ok a => Ok (f a) | Err e => Err e end.

Section run.
Context {Pool : Type} `{PageStore Pool}.
Abbreviation Cat := (Pool * CatalogManager)%type.

Definition run_op (fuel : nat) (op : CatalogOp) : M Cat CatalogOut :=
  match op with
  | OpCreateTable name schema page =>
      let! r := Catalog.CreateTable fuel name schema page in ret (OutTable (result_map forget r))
  | OpDropTable name => let! st := Catalog.DropTable name in ret (OutStatus st)
  | OpGetTable name => let! m := GetTable name in ret (OutGetTable (forget <$> m))
  | OpCreateIndex name table column page =>
      let! r := Catalog.CreateIndex fuel name table column page in ret (OutIndex (result_map forget r))
  | OpDropIndex name => let! st := Catalog.DropIndex name in ret (OutStatus st)
  | OpGetIndex name => let! m := GetIndex name in ret (OutGetIndex (forget <$> m))
  | OpReopen => λ '(s, c),
      (λ st, (OutOpened, st)) <$> CatalogManager_new fuel (CatalogFirstPageId c) (IndexCatalogFirstPageId c) s
  end.

Fixpoint run_ops (fuel : nat) (ops : list CatalogOp) : M Cat (list CatalogOut) :=
  match ops with
  | [] => ret []
  | op :: ops' => let! o := run_op fuel op in let! os := run_ops fuel ops' in ret (o :: os)
  end.
End run.

(** ** Simulation *)

Section entries.
Context {E : Type} `{CatalogEntryLaws E}.
Implicit Types (m : gmap string E) (e : E).

Lemma forget_set e r : forget (ce_set_rid e r) = forget e.
Proof. apply ce_set_set. Qed.

Lemma a_next_after m : next_after m (a_next m).
Proof.
  unfold a_next, next_after.
  apply (map_fold_weak_ind (λ n m, 1 ≤ n ∧ (∀ k e, m !! k = Some e → ce_id e < n) ∧
    (n = 1 ∨ ∃ k e, m !! k = Some e ∧ ce_id e = n - 1))).
  - split_and!; [lia|by intros k e ?|by left].
  - intros k e m' n Hk (Hn & Hall & Hsome). split_and!; [lia| |].
    + intros k' e' [[_ <-]|[_ ?%Hall]]%lookup_insert_Some; lia.
    + destruct (Z.max_spec (ce_id e + 1) n) as [[_ ->]|[_ ->]].
      * destruct Hsome as [?|(k' & e' & Hk' & ?)]; [by left|right]. exists k', e'.
        split; [|done]. rewrite lookup_insert_ne; [done|]. by intros ->; rewrite Hk in Hk'.
      * right. exists k, e. rewrite lookup_insert_eq. split; [done|lia].
Qed.

Lemma next_after_unique m n n' : next_after m n → next_after m n' → n = n'.
Proof.
  intros (? & Hall & [->|(k & e & Hk & ?)]) (? & Hall' & [->|(k' & e' & Hk' & ?)]);
    repeat match goal with
    | Hk : m !! _ = Some _ |- _ =>
        let X := fresh in let Y := fresh in
        pose proof (Hall _ _ Hk) as X; pose proof (Hall' _ _ Hk) as Y; clear Hk
    end; lia.
Qed.

Lemma next_after_forget m n : next_after m n → next_after (forget <$> m) n.
Proof.
  intros (? & Hall & Hsome). split_and!; [done| |].
  - intros k e. rewrite lookup_fmap, fmap_Some. intros (e' & Hk & ->). unfold forget. rewrite ce_id_set. eauto.
  - destruct Hsome as [?|(k & e & Hk & ?)]; [by left|right]. exists k, (forget e).
    by rewrite lookup_fmap, Hk; unfold forget; rewrite ce_id_set.
Qed.

(** Adding an entry, as the code and as the abstract catalog do it. *)
Lemma create_a_add m m' e big (r : Result E) :
  forget e = e → create_result e big r →
  m' = match r with Ok e' => <[ce_key e := e']> m | Err _ => m end →
  a_add e big (forget <$> m) = (result_map forget r, forget <$> m').
Proof.
  intros He. unfold create_result, a_add. repeat case_decide.
  - by intros -> ->.
  - by intros -> ->.
  - intros [rid ->] ->. simpl. by rewrite fmap_insert, !forget_set, He.
Qed.
End entries.

Section simulation.
Context {Pool : Type} `{PageStoreSpec Pool}.
Implicit Types (s : Pool) (c : CatalogManager).

(** [n] bounds the operations done so far. *)
Record cat_sim (n : nat) (st : Pool * CatalogManager) (a : ACatalog) : Prop := {
  cs_wf : ∃ tchain ichain, catalog_wf st tchain ichain ∧ (length tchain ≤ S n)%nat ∧ (length ichain ≤ S n)%nat;
  cs_tables : a_tables a = forget <$> tables_ st.2;
  cs_indexes : a_indexes a = forget <$> indexes_ st.2;
  cs_next_table : a_next_table a = next_table_id_ st.2 ∧ next_table_id_ st.2 ≤ Z.of_nat (S n);
  cs_next_index : a_next_index a = next_index_id_ st.2 ∧ next_index_id_ st.2 ≤ Z.of_nat (S n)
}.

(** The largest id in use is below the next. *)
Lemma next_after_le {E} `{!CatalogEntry E} st chain (m : gmap string E) next next' :
  dir_wf st chain m next → next_after m next' → next' ≤ next.
Proof.
  intros Hd (? & _ & Hsome). pose proof (dw_next _ _ _ _ Hd). destruct Hsome as [?|(k & e & Hk & ?)]; [lia|].
  destruct (dw_entry _ _ _ _ Hd _ _ Hk) as (_ & _ & _ & ?). lia.
Qed.

(** One step further. *)
Lemma cat_sim_step n s c s' c' tc ic tc' ic' a :
  catalog_step (s, c) (s', c') tc ic tc' ic' → (length tc ≤ S n)%nat → (length ic ≤ S n)%nat →
  a_tables a = forget <$> tables_ c' → a_indexes a = forget <$> indexes_ c' →
  a_next_table a = next_table_id_ c' → next_table_id_ c' ≤ Z.of_nat (S (S n)) →
  a_next_index a = next_index_id_ c' → next_index_id_ c' ≤ Z.of_nat (S (S n)) →
  cat_sim (S n) (s', c') a ∧ ps_count s' ≤ ps_count s + 1.
Proof.
  intros (Hwf & Hc & Htl & Hil & _) ????????. split; [|done]. split; try done.
  exists tc', ic'. split_and!; [done|lia..].
Qed.

Lemma cat_sim_op fuel n op s c a :
  cat_sim n (s, c) a → (n < fuel)%nat → ps_count s < 2 ^ 31 - 1 → Z.of_nat n < 2 ^ 31 → op_ok op →
  ∃ s' c', run_op fuel op (s, c) = Some ((a_step op a).1, (s', c')) ∧
    cat_sim (S n) (s', c') (a_step op a).2 ∧ ps_count s' ≤ ps_count s + 1.
Proof.
  intros Hsim Hfuel Hcnt Hn Hok. pose proof Hsim as [(tc & ic & Hwf & Htl & Hil) Ht Hi [Hnt Hntb] [Hni Hnib]].
  simpl in *.
  destruct op as [name schema page|name|name|name table column page|name|name|]; simpl in Hok |- *.
  - destruct Hok as [Hp Hc].
    destruct (CreateTable_spec fuel s c tc ic name schema page Hwf) as
      (r & s' & c' & tc' & E & Hstep & Hx & Hnx & Hres); try done; try lia.
    exists s', c'. unfold bind. rewrite E. unfold ret. rewrite Ht, lookup_fmap.
    destruct (tables_ c !! name) as [m|] eqn:Em; simpl.
    + destruct Hres as [-> ->]. split; [done|]. eapply cat_sim_step; try done; lia.
    + destruct Hres as (Hn' & Hr & Htab).
      rewrite Hnt, (create_a_add _ (tables_ c') _ _ r) by done.
      split; [done|]. eapply cat_sim_step; simpl; try done; rewrite ?Hx, ?Hnx; try done; lia.
  - destruct (DropTable_spec s c tc ic name Hwf) as (s' & c' & E & Hstep & Htab & Hx & Hn' & Hnx).
    exists s', c'. unfold bind. rewrite E. unfold ret. rewrite Ht, lookup_fmap. split.
    + by destruct (tables_ c !! name).
    + eapply cat_sim_step; simpl; try done; rewrite ?Htab, ?fmap_delete, ?Hx; try done; lia.
  - exists s, c. unfold bind, GetTable, gets, ret. rewrite Ht, lookup_fmap. split; [done|].
    apply (cat_sim_step n s c s c tc ic tc ic); try done; [by apply step_refl|lia..].
  - destruct (CreateIndex_spec fuel s c tc ic name table column page Hwf) as
      (r & s' & c' & ic' & E & Hstep & Hx & Hnx & Hres); try done; try lia.
    exists s', c'. unfold bind. rewrite E. unfold ret. rewrite Hi, lookup_fmap.
    destruct (indexes_ c !! name) as [m|] eqn:Em; simpl.
    + destruct Hres as [-> ->]. split; [done|]. eapply cat_sim_step; try done; lia.
    + destruct Hres as (Hn' & Hr & Htab).
      rewrite Hni, (create_a_add _ (indexes_ c') _ _ r) by done.
      split; [done|]. eapply cat_sim_step; simpl; try done; rewrite ?Hx, ?Hnx; try done; lia.
  - destruct (DropIndex_spec s c tc ic name Hwf) as (s' & c' & E & Hstep & Htab & Hx & Hn' & Hnx).
    exists s', c'. unfold bind. rewrite E. unfold ret. rewrite Hi, lookup_fmap. split.
    + by destruct (indexes_ c !! name).
    + eapply cat_sim_step; simpl; try done; rewrite ?Htab, ?fmap_delete, ?Hx; try done; lia.
  - exists s, c. unfold bind, GetIndex, gets, ret. rewrite Hi, lookup_fmap. split; [done|].
    apply (cat_sim_step n s c s c tc ic tc ic); try done; [by apply step_refl|lia..].
  - destruct (CatalogManager_open fuel s c tc ic s Hwf) as
      (s' & c' & E & He & Hwf' & Htab & Hx & Hnt' & Hni' & Hfirst); try lia; [done|apply Hwf|].
    exists s', c'. rewrite E. split; [done|].
    pose proof (next_after_le _ _ _ _ _ (cw_tables _ _ _ Hwf) Hnt'). pose proof (next_after_le _ _ _ _ _ (cw_indexes _ _ _ Hwf) Hni').
    assert (a_next (a_tables a) = next_table_id_ c') as Hat.
    { rewrite Ht. apply (next_after_unique (forget <$> tables_ c)); [apply a_next_after|by apply next_after_forget]. }
    assert (a_next (a_indexes a) = next_index_id_ c') as Hai.
    { rewrite Hi. apply (next_after_unique (forget <$> indexes_ c)); [apply a_next_after|by apply next_after_forget]. }
    assert (catalog_step (s, c) (s', c') tc ic tc ic) as Hstep.
    { split; [done|]. destruct He. simpl. split_and!; (done || lia || apply Hfirst). }
    simpl in *. eapply cat_sim_step; simpl; try done; rewrite ?Htab, ?Hx; try done; lia.
Qed.

Lemma cat_sim_ops fuel n ops s c a :
  cat_sim n (s, c) a → (n + length ops ≤ fuel)%nat → ps_count s + Z.of_nat (length ops) < 2 ^ 31 →
  Z.of_nat n + Z.of_nat (length ops) < 2 ^ 31 → Forall op_ok ops →
  ∃ s' c', run_ops fuel ops (s, c) = Some ((a_run ops a).1, (s', c')) ∧
    cat_sim (n + length ops) (s', c') (a_run ops a).2.
Proof.
  induction ops as [|op ops IH] in n, s, c, a |- *; intros Hsim Hfuel Hcnt Hn Hok.
  { exists s, c. rewrite Nat.add_0_r. done. }
  apply Forall_cons in Hok as [Hop Hok]. simpl length in *.
  destruct (cat_sim_op fuel n op s c a Hsim) as (s1 & c1 & E1 & Hsim1 & Hc1); try done; try lia.
  destruct (IH (S n) s1 c1 _ Hsim1) as (s2 & c2 & E2 & Hsim2); try done; try lia.
  exists s2, c2. simpl. unfold bind. rewrite E1, E2. unfold ret.
  destruct (a_step op a) as [o a1]. simpl in *. destruct (a_run ops a1) as [os a2]. split; [done|].
  by replace (n + S (length ops))%nat with (S n + length ops)%nat by lia.
Qed.
End simulation.

(** C22: a new catalog, over any page store, behaves as two empty maps: any
    sequence of creations, removals and lookups of tables and indexes, with the
    catalog closed and opened again in between, returns exactly what it returns
    on maps from names to entries with consecutive ids; an entry is refused
    when the name is taken or its encoding does not fit a page.  In the end the
    catalog is well formed and its tables and indexes are those of the maps. *)
Theorem catalog_refines {Pool} `{PageStoreSpec Pool} fuel ops (s : Pool) :
  ps_idle s → ps_count s + Z.of_nat (length ops) < 2 ^ 31 - 2 → (length ops ≤ fuel)%nat → Forall op_ok ops →
  let '(os, a) := a_run ops a_empty in
  ∃ st st' tchain ichain, CatalogManager_new fuel kInvalidPageId kInvalidPageId s = Some st ∧
    run_ops fuel ops st = Some (os, st') ∧ catalog_wf st' tchain ichain ∧
    a_tables a = forget <$> tables_ st'.2 ∧ a_indexes a = forget <$> indexes_ st'.2.
Proof.
  intros Hi Hcnt Hfuel Hok.
  destruct (CatalogManager_create fuel s Hi) as (s0 & c0 & E0 & Hwf & Hc & Ht & Hx & Hnt & Hnx & _); [lia|].
  assert (cat_sim 0 (s0, c0) a_empty) as Hsim.
  { split; simpl; rewrite ?Ht, ?Hx, ?Hnt, ?Hnx; try done. eexists _, _. split; [exact Hwf|]. done. }
  pose proof (ps_count_range s (idle_wf _ Hi)).
  destruct (cat_sim_ops fuel 0 ops s0 c0 a_empty Hsim) as (s' & c' & E & Hsim'); try done; try lia.
  destruct (a_run ops a_empty) as [os a]. destruct Hsim' as [(tc & ic & Hwf' & _) Htab Hidx _ _].
  by eexists _, _, tc, ic.
Qed.

Definition sample_catalog_ops : list CatalogOp :=
  [OpCreateTable "t" sample_schema 1; OpCreateIndex "i" "t" "id" 2; OpCreateTable "t" sample_schema 3;
   OpReopen; OpGetTable "t"; OpDropTable "t"; OpGetTable "t"; OpGetIndex "i"].

Lemma catalog_refines_witness :
  ∃ st st', CatalogManager_new 8 kInvalidPageId kInvalidPageId (BufferPool_new sample_pm 2) = Some st ∧
    run_ops 8 sample_catalog_ops st = Some ((a_run sample_catalog_ops a_empty).1, st').
Proof.
  pose proof (catalog_refines 8 sample_catalog_ops (BufferPool_new sample_pm 2)) as Hr.
  destruct (a_run sample_catalog_ops a_empty) as [os a]. cbn [fst].
  destruct Hr as (st & st' & _ & _ & E & Er & _); [| | | |eauto].
  - apply BufferPool_new_idle, sample_pm_wf.
  - change (page_count_ sample_pm + 8 < 2 ^ 31 - 2). assert (page_count_ sample_pm = 3) as -> by (vm_compute; reflexivity). reflexivity.
  - reflexivity.
  - repeat constructor; try apply sample_schema_wf; done.
Defined.
