(* ===== verification/TableSpec.v ===== *)
(** * Tables as maps from record ids to rows

    What the record manager does to the rows of a heap file ([table_at]), and
    what the table manager does to the database, a map from names to tables
    ([db_at]).  The tables of a database share one store; each operation leaves
    the others alone. *)

From stdpp Require Import gmap.
From S2P Require Import Prelude Util Value RecordCodec SlottedPage PageManager PageStore BufferPool HeapFile.
From S2P Require Import RecordManager Catalog CatalogSpec TableManager.

(** ** The rows of a heap file *)

Abbreviation Row := (list Value).
Abbreviation Rows := (gmap RecordId (list Value)).

Section rows.
Context {Pool : Type} `{PageStoreSpec Pool}.
Context (schema : Schema) (Hcols : Forall column_wf schema) (Hne : schema ≠ []).
Implicit Types (s : Pool) (hf : HeapFile) (chain : list Z).

Definition decode_record (r : RecordId * bytes) : option (RecordId * Row) :=
  match Decode schema r.2 with Ok values => Some (r.1, values) | Err _ => None end.

(** The rows in scan order. *)
Definition row_list s chain : list (RecordId * Row) := omap decode_record (chain ≫= page_records s).
Definition table_rows s chain : Rows := list_to_map (row_list s chain).

(** Every record of the file is an encoded row. *)
Definition rows_ok st chain : Prop :=
  ∀ rid bs, heap_get st chain rid = Some bs → ∃ values, Encode schema values = Ok bs ∧ Forall value_wf values.

Record table_at (st : Pool * HeapFile) chain : Prop := {
  ta_heap : heap_wf st chain;
  ta_rows : rows_ok st chain
}.

Lemma elem_of_row_list s hf chain rid values :
  (rid, values) ∈ row_list s chain ↔ row_at schema (s, hf) chain rid = Some values.
Proof.
  unfold row_list, row_at. rewrite list_elem_of_omap. split.
  - intros ([rid' bs] & Hin & Hd). apply (elem_of_heap_records (s, hf)) in Hin.
    unfold decode_record in Hd. simpl in Hd. destruct (Decode schema bs) eqn:E; simplify_eq. by rewrite Hin, E.
  - destruct (heap_get (s, hf) chain rid) as [bs|] eqn:Hg; [|done].
    destruct (Decode schema bs) eqn:E; [|done]. intros [= ->]. exists (rid, bs). split.
    + by apply (elem_of_heap_records (s, hf)).
    + unfold decode_record. simpl. by rewrite E.
Qed.

Lemma omap_decode_fst (l : list (RecordId * bytes)) : (omap decode_record l).*1 `sublist_of` l.*1.
Proof.
  induction l as [|[rid bs] l IH]; [done|]. simpl. unfold decode_record at 1. simpl.
  destruct (Decode schema bs); simpl; [by apply sublist_skip|by apply sublist_cons].
Qed.

Lemma NoDup_row_list s chain : NoDup chain → NoDup (row_list s chain).*1.
Proof.
  intros Hnd. eapply sublist_NoDup; [|apply omap_decode_fst].
  by apply (NoDup_heap_records (s, mkHeapFile 0 0)).
Qed.

Lemma table_rows_lookup s hf chain rid :
  NoDup chain → table_rows s chain !! rid = row_at schema (s, hf) chain rid.
Proof.
  intros Hnd. apply option_eq. intros values. unfold table_rows.
  rewrite <- elem_of_list_to_map by (by apply NoDup_row_list). apply elem_of_row_list.
Qed.

(** The rows of a well-formed file are the encoded ones. *)
Lemma row_at_record st chain rid bs values :
  heap_get st chain rid = Some bs → Encode schema values = Ok bs → Forall value_wf values →
  row_at schema st chain rid = Some values.
Proof.
  intros Hg E Hv. unfold row_at. rewrite Hg.
  pose proof (Decode_Encode schema values bs [] Hcols Hv E) as Hd. rewrite app_nil_r in Hd. by rewrite Hd.
Qed.

Lemma table_row_wf st chain rid values :
  rows_ok st chain → row_at schema st chain rid = Some values →
  ∃ bs, heap_get st chain rid = Some bs ∧ Encode schema values = Ok bs ∧ Forall value_wf values.
Proof.
  intros Hok. unfold row_at. destruct (heap_get st chain rid) as [bs|] eqn:Hg; [|done].
  destruct (Hok rid bs Hg) as (vs & E & Hv).
  pose proof (row_at_record _ _ _ _ _ Hg E Hv) as Hr. unfold row_at in Hr. rewrite Hg in Hr.
  intros Hd. rewrite Hd in Hr. injection Hr as ->. eauto.
Qed.

Lemma row_at_None st chain rid :
  rows_ok st chain → row_at schema st chain rid = None ↔ heap_get st chain rid = None.
Proof.
  intros Hok. split; [|intros Hg; unfold row_at; by rewrite Hg].
  destruct (heap_get st chain rid) as [bs|] eqn:Hg; [|done]. destruct (Hok rid bs Hg) as (vs & E & Hv).
  by rewrite (row_at_record _ _ _ _ _ Hg E Hv).
Qed.

(** An operation that changed the record [rid] to the row [r]. *)
Lemma table_change st chain st' chain' rid r :
  NoDup chain → NoDup chain' → rows_ok st chain →
  match r with
  | Some values => Forall value_wf values ∧ ∃ bs, Encode schema values = Ok bs ∧ heap_get st' chain' rid = rec_of bs
  | None => heap_get st' chain' rid = None
  end →
  (∀ rid', rid' ≠ rid → heap_get st' chain' rid' = heap_get st chain rid') →
  rows_ok st' chain' ∧
  table_rows st'.1 chain' =
    match r with Some values => <[rid := values]> (table_rows st.1 chain) | None => delete rid (table_rows st.1 chain) end.
Proof.
  intros Hnd Hnd' Hok Hr Hoth.
  assert (match r with
          | Some values => Forall value_wf values ∧ ∃ bs, Encode schema values = Ok bs ∧ heap_get st' chain' rid = Some bs
          | None => heap_get st' chain' rid = None end) as Hr'.
  { destruct r as [values|]; [|done]. destruct Hr as (Hv & bs & E & Hg). split; [done|]. exists bs. split; [done|].
    pose proof (Encode_nonempty schema Hcols Hne _ _ E). unfold rec_of in Hg.
    destruct (Z.eqb_spec (blen bs) 0); [lia|done]. }
  assert (rows_ok st' chain') as Hok'.
  { intros rid' bs Hg. destruct (decide (rid' = rid)) as [->|Hn]; [|rewrite Hoth in Hg by done; by apply (Hok rid')].
    destruct r as [values|]; [|congruence]. destruct Hr' as (Hv & bs' & E & Hg'). simplify_eq. eauto. }
  split; [done|]. apply map_eq. intros rid'. destruct st as [s hf], st' as [s' hf']. simpl.
  rewrite (table_rows_lookup s' hf') by done. destruct (decide (rid' = rid)) as [->|Hn].
  - destruct r as [values|].
    + destruct Hr' as (Hv & bs & E & Hg). by rewrite lookup_insert_eq, (row_at_record _ _ _ _ _ Hg E Hv).
    + rewrite lookup_delete_eq. by apply row_at_None.
  - rewrite (row_at_ext schema _ _ _ _ _ (Hoth rid' Hn)).
    destruct r; rewrite ?lookup_insert_ne, ?lookup_delete_ne by done; by rewrite (table_rows_lookup s hf).
Qed.

(** *** The record manager on rows *)

(** What inserting [values] returns and makes of the rows. *)
Definition insert_effect (values : Row) (rows : Rows) (r : Result RecordId) (rows' : Rows) : Prop :=
  match Encode schema values with
  | Err e => r = Err e ∧ rows' = rows
  | Ok bs =>
      if decide (65535 < blen bs) then
        r = Err (InvalidArgument "InsertRow: encoded row exceeds 65535-byte codec limit") ∧ rows' = rows
      else if decide (max_record < blen bs) then
        r = Err (OutOfSpace "InsertRecord: record too large for an empty page") ∧ rows' = rows
      else ∃ rid, r = Ok rid ∧ rows !! rid = None ∧ rows' = <[rid := values]> rows
  end.

(** Updating the row at [rid], which is there.  A row too large for a page is
    lost. *)
Definition update_effect (rid : RecordId) (values : Row) (rows : Rows) (r : Result RecordId) (rows' : Rows) : Prop :=
  match Encode schema values with
  | Err e => r = Err e ∧ rows' = rows
  | Ok bs =>
      if decide (65535 < blen bs) then
        r = Err (InvalidArgument "UpdateRow: encoded row exceeds 65535-byte codec limit") ∧ rows' = rows
      else if decide (max_record < blen bs) then
        r = Err (OutOfSpace "InsertRecord: record too large for an empty page") ∧ rows' = delete rid rows
      else ∃ new, r = Ok new ∧ delete rid rows !! new = None ∧ rows' = <[new := values]> (delete rid rows)
  end.

(** The other files of the store. *)
Definition table_frame (st st' : Pool * HeapFile) chain chain' : Prop :=
  chain_grown st.1 st'.1 chain chain' ∧ outside_same st st' chain.

Lemma table_frame_same s s' hf chain : ps_eqv s s' → table_frame (s, hf) (s', hf) chain chain.
Proof. intros [Hc Hv]. split; [by left|]. intros q Hq _. by apply Hv. Qed.

Lemma rows_same st st' chain chain' :
  NoDup chain → NoDup chain' → rows_ok st chain →
  (∀ rid, heap_get st' chain' rid = heap_get st chain rid) →
  rows_ok st' chain' ∧ table_rows st'.1 chain' = table_rows st.1 chain.
Proof.
  intros Hnd Hnd' Hok Hg. split; [intros rid bs; rewrite Hg; apply Hok|].
  apply map_eq. intros rid. destruct st as [s hf], st' as [s' hf']. simpl.
  rewrite (table_rows_lookup s' hf'), (table_rows_lookup s hf) by done. by apply row_at_ext.
Qed.

Lemma InsertRow_table fuel s hf chain values :
  table_at (s, hf) chain → (length chain ≤ fuel)%nat → ps_count s < 2 ^ 31 - 1 → Forall value_wf values →
  ∃ r st' chain', RecordManager.InsertRow schema fuel values (s, hf) = Some (r, st') ∧
    table_at st' chain' ∧ table_frame (s, hf) st' chain chain' ∧
    insert_effect values (table_rows s chain) r (table_rows st'.1 chain').
Proof.
  intros [Hwf Hok] Hfuel Hcnt Hv. unfold RecordManager.InsertRow, insert_effect.
  assert (table_at (s, hf) chain ∧ table_frame (s, hf) (s, hf) chain chain) as [Hsame Hframe].
  { split; [done|]. by apply table_frame_same. }
  destruct (Encode schema values) as [bs|e] eqn:E; [|by exists (Err e), (s, hf), chain].
  destruct (Z.gtb_spec (blen bs) 65535) as [Hbig|Hbig].
  { eexists _, (s, hf), chain. split; [reflexivity|]. split_and!; try done. by rewrite decide_True by lia. }
  destruct (InsertRecord_spec fuel s hf chain bs Hwf Hfuel Hcnt) as
    (r & [s' hf'] & chain' & Er & Hwf' & Hgrow & Hout & Hres).
  exists r, (s', hf'), chain'. pose proof (hwf_nodup _ _ Hwf). pose proof (hwf_nodup _ _ Hwf').
  rewrite decide_False by lia. split; [done|]. destruct r as [rid|err]; simpl in Hres.
  - destruct Hres as (Hmax & _ & _ & Hnone & Hget & Hoth).
    destruct (table_change (s, hf) chain (s', hf') chain' rid (Some values)) as [Hok' Hrows]; try done.
    { split; [done|]. eauto. }
    split_and!; try done. rewrite decide_False by lia. exists rid. split_and!; try done.
    rewrite (table_rows_lookup s hf) by done. by apply row_at_None.
  - destruct Hres as (-> & Hmax & Hoth).
    destruct (rows_same (s, hf) (s', hf') chain chain') as [Hok' Hrows]; try done.
    split_and!; try done. by rewrite decide_True.
Qed.

Lemma GetRow_table s hf chain rid values :
  table_at (s, hf) chain → table_rows s chain !! rid = Some values →
  ∃ s', RecordManager.GetRow schema rid (s, hf) = Some (Ok values, (s', hf)) ∧
    table_at (s', hf) chain ∧ table_frame (s, hf) (s', hf) chain chain ∧ table_rows s' chain = table_rows s chain.
Proof.
  intros [Hwf Hok] Hr. pose proof (hwf_nodup _ _ Hwf) as Hnd. rewrite (table_rows_lookup s hf) in Hr by done.
  destruct (table_row_wf _ _ _ _ Hok Hr) as (bs & Hg & E & Hv).
  destruct (heap_get_Some _ _ _ _ _ Hwf Hg) as (Hin & Hs & _).
  destruct (GetRecordBytes_spec s hf chain rid Hwf Hin Hs) as (s' & Eg & Hi & He). rewrite Hg in Eg.
  destruct (heap_eqv s hf chain s' Hwf He Hi) as [Hwf' Hget].
  destruct (rows_same (s, hf) (s', hf) chain chain) as [Hok' Hrows]; try done.
  exists s'. split_and!; try done; [|by apply table_frame_same..].
  unfold RecordManager.GetRow, bind. rewrite Eg. unfold row_at in Hr. rewrite Hg in Hr.
  destruct (Decode schema bs); [|done]. by injection Hr as ->.
Qed.

Lemma DeleteRow_table s hf chain rid values :
  table_at (s, hf) chain → table_rows s chain !! rid = Some values →
  ∃ s', RecordManager.DeleteRow rid (s, hf) = Some (Status_OK, (s', hf)) ∧
    table_at (s', hf) chain ∧ table_frame (s, hf) (s', hf) chain chain ∧
    table_rows s' chain = delete rid (table_rows s chain).
Proof.
  intros [Hwf Hok] Hr. pose proof (hwf_nodup _ _ Hwf) as Hnd. rewrite (table_rows_lookup s hf) in Hr by done.
  destruct (table_row_wf _ _ _ _ Hok Hr) as (bs & Hg & E & Hv).
  destruct (heap_get_Some _ _ _ _ _ Hwf Hg) as (Hin & Hs & _).
  destruct (DeleteRecord_spec s hf chain rid Hwf Hin Hs) as (s' & Ed & Hwf' & Hout & Hn & Hoth & Hc).
  rewrite Hg in Ed. destruct (table_change (s, hf) chain (s', hf) chain rid None) as [Hok' Hrows]; try done.
  exists s'. split_and!; try done. split; [by left|done].
Qed.

Lemma UpdateRow_table fuel s hf chain rid old values :
  table_at (s, hf) chain → (length chain ≤ fuel)%nat → ps_count s < 2 ^ 31 - 1 → Forall value_wf values →
  table_rows s chain !! rid = Some old →
  ∃ r st' chain', RecordManager.UpdateRow schema fuel rid values (s, hf) = Some (r, st') ∧
    table_at st' chain' ∧ table_frame (s, hf) st' chain chain' ∧
    update_effect rid values (table_rows s chain) r (table_rows st'.1 chain').
Proof.
  intros [Hwf Hok] Hfuel Hcnt Hv Hr. unfold RecordManager.UpdateRow, update_effect.
  assert (table_at (s, hf) chain ∧ table_frame (s, hf) (s, hf) chain chain) as [Hsame Hframe].
  { split; [done|]. by apply table_frame_same. }
  destruct (Encode schema values) as [bs|e] eqn:E; [|by exists (Err e), (s, hf), chain].
  destruct (Z.gtb_spec (blen bs) 65535) as [Hbig|Hbig].
  { eexists _, (s, hf), chain. split; [reflexivity|]. split_and!; try done. by rewrite decide_True by lia. }
  pose proof (hwf_nodup _ _ Hwf) as Hnd. rewrite (table_rows_lookup s hf) in Hr by done.
  destruct (table_row_wf _ _ _ _ Hok Hr) as (obs & Hg & Eo & Hvo).
  destruct (heap_get_Some _ _ _ _ _ Hwf Hg) as (Hin & Hs & _).
  destruct (UpdateRecord_spec fuel s hf chain rid bs Hwf Hin Hs Hfuel Hcnt) as
    (r & [s' hf'] & chain' & Er & Hwf' & Hgrow & Hout & Hres).
  exists r, (s', hf'), chain'. pose proof (hwf_nodup _ _ Hwf') as Hnd'.
  rewrite decide_False by lia. split; [done|]. rewrite Hg in Hres. simpl in *.
  case_decide as Hsmall.
  - destruct Hres as (-> & -> & _ & Hget & Hoth).
    destruct (heap_get_Some _ _ _ _ _ Hwf Hg) as (_ & _ & Hlive & _ & Hlen).
    assert (blen obs ≤ max_record) as Hmax.
    { destruct (chain_page _ _ _ _ Hwf Hin) as [_ Hp]. unfold max_record.
      destruct (wf_live _ Hp _ Hlive). pose proof (wf_directory _ Hp). destruct Hlive. page_lia. }
    destruct (table_change (s, hf) chain (s', hf') chain rid (Some values)) as [Hok' Hrows]; try done.
    { split; [done|]. eauto. }
    split_and!; try done. rewrite decide_False by lia. exists rid. rewrite lookup_delete_eq.
    split_and!; try done. rewrite insert_delete_eq. done.
  - destruct Hres as (s1 & Hwf1 & Hn1 & Hoth1 & Hins).
    destruct (table_change (s, hf) chain (s1, hf) chain rid None) as [Hok1 Hrows1]; try done. simpl in Hrows1.
    destruct r as [new|err]; simpl in Hins.
    + destruct Hins as (Hmax & _ & _ & Hnone & Hget & Hoth).
      destruct (table_change (s1, hf) chain (s', hf') chain' new (Some values)) as [Hok' Hrows]; try done.
      { split; [done|]. eauto. }
      split_and!; try done. rewrite decide_False by lia. exists new. simpl in Hrows. rewrite <- Hrows1, Hrows.
      split_and!; try done. rewrite (table_rows_lookup s1 hf) by done. by apply row_at_None.
    + destruct Hins as (-> & Hmax & Hoth).
      destruct (rows_same (s1, hf) (s', hf') chain chain') as [Hok' Hrows]; try done.
      split_and!; try done. rewrite decide_True by done. split; [done|]. by rewrite <- Hrows1.
Qed.

(** Record ids at which the answer is known: those on the table's pages, and
    those of pages that are not in the file. *)
Definition rid_known s chain (rid : RecordId) : Prop :=
  (rid_page_id rid ∈ chain ∧ 0 ≤ rid_slot_id rid) ∨ rid_page_id rid < 0 ∨ ps_count s ≤ rid_page_id rid.

(** What updating a row that is not there returns. *)
Definition update_missing (values : Row) (e : Status) : Prop :=
  match Encode schema values with
  | Err e' => e = e'
  | Ok bs =>
      if decide (65535 < blen bs) then e = InvalidArgument "UpdateRow: encoded row exceeds 65535-byte codec limit"
      else ∃ msg, e = NotFound msg
  end.

Lemma table_same s s' hf chain :
  table_at (s, hf) chain → ps_idle s' → ps_eqv s s' →
  table_at (s', hf) chain ∧ table_frame (s, hf) (s', hf) chain chain ∧ table_rows s' chain = table_rows s chain.
Proof.
  intros [Hwf Hok] Hi He. pose proof (hwf_nodup _ _ Hwf) as Hnd. destruct (heap_eqv s hf chain s' Hwf He Hi) as [Hwf' Hget].
  destruct (rows_same (s, hf) (s', hf) chain chain) as [Hok' Hrows]; try done.
  split_and!; try done. by apply table_frame_same.
Qed.

Lemma missing_row s hf chain rid :
  table_at (s, hf) chain → table_rows s chain !! rid = None → heap_get (s, hf) chain rid = None.
Proof.
  intros [Hwf Hok] Hr. rewrite (table_rows_lookup s hf) in Hr by apply Hwf. by apply row_at_None in Hr.
Qed.

Lemma GetRow_missing s hf chain rid :
  table_at (s, hf) chain → table_rows s chain !! rid = None → rid_known s chain rid →
  ∃ msg s', RecordManager.GetRow schema rid (s, hf) = Some (Err (NotFound msg), (s', hf)) ∧
    table_at (s', hf) chain ∧ table_frame (s, hf) (s', hf) chain chain ∧ table_rows s' chain = table_rows s chain.
Proof.
  intros Hta Hr Hk. pose proof (ta_heap _ _ Hta) as Hwf. unfold RecordManager.GetRow, bind.
  destruct Hk as [[Hin Hs]|Hout].
  - destruct (GetRecordBytes_spec s hf chain rid Hwf Hin Hs) as (s' & E & Hi & He).
    rewrite E, (missing_row _ _ _ _ Hta Hr). eexists _, s'. split; [reflexivity|]. by apply table_same.
  - destruct (missing_page s hf chain rid [] 0 Hwf Hout) as (s' & E & _ & _ & Hi & He).
    rewrite E. eexists _, s'. split; [reflexivity|]. by apply table_same.
Qed.

Lemma DeleteRow_missing s hf chain rid :
  table_at (s, hf) chain → table_rows s chain !! rid = None → rid_known s chain rid →
  ∃ msg s', RecordManager.DeleteRow rid (s, hf) = Some (NotFound msg, (s', hf)) ∧
    table_at (s', hf) chain ∧ table_frame (s, hf) (s', hf) chain chain ∧ table_rows s' chain = table_rows s chain.
Proof.
  intros Hta Hr Hk. pose proof (ta_heap _ _ Hta) as Hwf. unfold RecordManager.DeleteRow. destruct Hk as [[Hin Hs]|Hout].
  - destruct (DeleteRecord_spec s hf chain rid Hwf Hin Hs) as (s' & E & Hwf' & Hout & Hn & Hoth & Hc).
    pose proof (missing_row _ _ _ _ Hta Hr) as Hg. rewrite E, Hg. eexists _, s'. split; [reflexivity|].
    destruct (rows_same (s, hf) (s', hf) chain chain) as [Hok' Hrows]; [apply Hwf|apply Hwf|apply Hta| |].
    { intros rid'. destruct (decide (rid' = rid)) as [->|]; [congruence|by apply Hoth]. }
    split_and!; try done. split; [by left|done].
  - destruct (missing_page s hf chain rid [] 0 Hwf Hout) as (s' & _ & E & _ & Hi & He).
    rewrite E. eexists _, s'. split; [reflexivity|]. by apply table_same.
Qed.

Lemma UpdateRow_missing fuel s hf chain rid values :
  table_at (s, hf) chain → (length chain ≤ fuel)%nat → ps_count s < 2 ^ 31 - 1 →
  table_rows s chain !! rid = None → rid_known s chain rid →
  ∃ e st' chain', RecordManager.UpdateRow schema fuel rid values (s, hf) = Some (Err e, st') ∧ update_missing values e ∧
    table_at st' chain' ∧ table_frame (s, hf) st' chain chain' ∧ table_rows st'.1 chain' = table_rows s chain.
Proof.
  intros Hta Hfuel Hcnt Hr Hk. pose proof (ta_heap _ _ Hta) as Hwf. unfold RecordManager.UpdateRow, update_missing.
  assert (table_frame (s, hf) (s, hf) chain chain) as Hframe by (by apply table_frame_same).
  destruct (Encode schema values) as [bs|e] eqn:E; [|by exists e, (s, hf), chain].
  destruct (Z.gtb_spec (blen bs) 65535) as [Hbig|Hbig].
  { eexists _, (s, hf), chain. split; [reflexivity|]. split_and!; try done. by rewrite decide_True by lia. }
  destruct Hk as [[Hin Hs]|Hout].
  - destruct (UpdateRecord_spec fuel s hf chain rid bs Hwf Hin Hs Hfuel Hcnt) as
      (r & [s' hf'] & chain' & Er & Hwf' & Hgrow & Hout & Hres).
    rewrite (missing_row _ _ _ _ Hta Hr) in Hres. destruct Hres as [-> Hget].
    destruct (rows_same (s, hf) (s', hf') chain chain') as [Hok' Hrows]; [apply Hwf|apply Hwf'|apply Hta|done|].
    eexists _, (s', hf'), chain'. split; [exact Er|]. split_and!; try done. rewrite decide_False by lia. by eexists.
  - destruct (missing_page s hf chain rid bs fuel Hwf Hout) as (s' & _ & _ & Eu & Hi & He).
    destruct (table_same s s' hf chain Hta Hi He) as (? & ? & ?).
    eexists _, (s', hf), chain. split; [exact Eu|]. split_and!; try done. rewrite decide_False by lia. by eexists.
Qed.

Lemma ScanRows_table {A} fuel s hf chain (visitor : RecordId → Row → A → A) acc :
  table_at (s, hf) chain → (length chain ≤ fuel)%nat →
  ∃ s', ScanRows schema fuel visitor acc (s, hf) =
      Some (fold_left (λ acc '(rid, values), visitor rid values acc) (row_list s chain) acc, (s', hf)) ∧
    table_at (s', hf) chain ∧ table_frame (s, hf) (s', hf) chain chain ∧ row_list s' chain = row_list s chain.
Proof.
  intros [Hwf Hok] Hfuel.
  set (v := λ rid bs acc, match Decode schema bs with Ok values => visitor rid values acc | Err _ => acc end).
  destruct (scan_loop_spec fuel v (first_page_id_ hf) chain acc s hf) as (s' & Escan & Hi & He);
    [apply Hwf|apply Hwf|done|].
  destruct (heap_eqv s hf chain s' Hwf He Hi) as [Hwf' Hget].
  exists s'. split; [|split; [|split]].
  - unfold ScanRows, Scan. etrans; [exact Escan|]. do 3 f_equal. unfold row_list. rewrite <- fold_left_omap.
    change (heap_records (s, hf) chain) with (chain ≫= page_records s).
    generalize (chain ≫= page_records s). intros l.
    clear Escan. induction l as [|[rid bs] l IH] in acc |- *; [done|]. cbn [fold_left]. rewrite IH. f_equal.
    unfold v, decode_record. simpl. by destruct (Decode schema bs).
  - split; [done|]. intros rid bs. rewrite Hget. apply Hok.
  - by apply table_frame_same.
  - unfold row_list. f_equal. apply (heap_records_ext s s' hf hf). intros q Hq. apply He.
    eapply is_chain_in; [apply Hwf|done].
Qed.
End rows.

(** ** The database *)

Abbreviation Table := (Schema * Rows)%type.
Abbreviation Db := (gmap string (Schema * Rows)).

Section database.
Context {Pool : Type} `{PageStoreSpec Pool}.
Implicit Types (t : TableManager Pool) (s : Pool) (chains : gmap string (list Z)) (a : Db).

Abbreviation tables t := (tables_ (catalog t).2).

(** The heap file as [HeapFile(pool, first)] leaves it. *)
Definition opened (meta : TableMetadata) : HeapFile := mkHeapFile (tbl_first_page_id meta) (tbl_first_page_id meta).

(** [chains] gives the pages of every table. *)
Record tm_wf t chains : Prop := {
  tw_catalog : ∃ tchain ichain, catalog_wf (catalog t) tchain ichain;
  tw_idle : ps_idle (data_pool t);
  tw_dom : ∀ name, is_Some (chains !! name) ↔ is_Some (tables t !! name);
  tw_table : ∀ name meta chain, tables t !! name = Some meta → chains !! name = Some chain →
    tbl_schema meta ≠ [] ∧ table_at (tbl_schema meta) (data_pool t, opened meta) chain;
  tw_disjoint : ∀ name name' chain chain', chains !! name = Some chain → chains !! name' = Some chain' →
    name ≠ name' → chain ## chain';
  tw_open : ∀ name hf, open_tables_ t !! name = Some hf →
    ∃ meta chain, tables t !! name = Some meta ∧ chains !! name = Some chain ∧
      first_page_id_ hf = tbl_first_page_id meta ∧ last_insert_page_id_ hf ∈ chain
}.

(** The abstract database of the tables. *)
Definition table_of t chains (name : string) : option Table :=
  match tables t !! name, chains !! name with
  | Some meta, Some chain => Some (tbl_schema meta, table_rows (tbl_schema meta) (data_pool t) chain)
  | _, _ => None
  end.

Definition db_at t a : Prop := ∃ chains, tm_wf t chains ∧ ∀ name, a !! name = table_of t chains name.

(** *** Lemmas *)

Lemma table_at_hf schema s hf hf' chain :
  table_at schema (s, hf) chain → first_page_id_ hf' = first_page_id_ hf → last_insert_page_id_ hf' ∈ chain →
  table_at schema (s, hf') chain.
Proof.
  intros [[Hi Hch Hnd Hl] Hok] Hf Hlast. split; [|done]. split; try done. simpl in *. by rewrite Hf.
Qed.

Lemma table_at_ext schema s s' hf chain :
  table_at schema (s, hf) chain → ps_idle s' → ps_count s ≤ ps_count s' →
  (∀ q, q ∈ chain → ps_view s' q = ps_view s q) →
  table_at schema (s', hf) chain ∧ row_list schema s' chain = row_list schema s chain.
Proof.
  intros [[Hi Hch Hnd Hl] Hok] Hi' Hc Hv. split; [split; [split; try done|]|].
  - simpl in *. by eapply is_chain_ext.
  - intros rid bs Hg. apply (Hok rid). revert Hg. unfold heap_get. case_decide; [|done]. simpl. rewrite Hv; tauto.
  - unfold row_list. f_equal. by apply (heap_records_ext s s' hf hf).
Qed.

(** The first page stays the first. *)
Lemma table_first schema schema' s hf s' hf' chain chain' :
  table_at schema (s, hf) chain → table_at schema' (s', hf') chain' → chain_grown s s' chain chain' →
  first_page_id_ hf' = first_page_id_ hf.
Proof.
  intros [Hh _] [Hh' _]. by apply heap_first.
Qed.

Lemma table_pages schema s hf chain :
  table_at schema (s, hf) chain →
  (∀ q, q ∈ chain → 1 ≤ q < ps_count s) ∧ Z.of_nat (length chain) ≤ Z.max 0 (ps_count s - 1).
Proof.
  intros [[_ Hch Hnd _] _]. assert (∀ q, q ∈ chain → 1 ≤ q < ps_count s) as Hr.
  { intros q Hq. by eapply is_chain_in. }
  split; [done|]. by apply NoDup_range_length.
Qed.

(** The pages of another table are outside the chain that changed. *)
Lemma frame_other schema s s' hf hf' chain chain' schema2 hf2 chain2 :
  table_at schema (s', hf') chain' → table_frame (s, hf) (s', hf') chain chain' → chain ## chain2 →
  table_at schema2 (s, hf2) chain2 →
  table_at schema2 (s', hf2) chain2 ∧ row_list schema2 s' chain2 = row_list schema2 s chain2 ∧ chain' ## chain2.
Proof.
  intros Hta [Hg Ho] Hd Hta2. destruct (table_pages _ _ _ _ Hta2) as [Hr _].
  destruct (table_at_ext schema2 s s' hf2 chain2) as [? ?]; try done.
  - apply Hta.
  - unfold chain_grown in Hg. simpl in Hg. lia.
  - intros q Hq. apply (Ho q); [by apply Hr|]. intros Hq'. by eapply Hd.
  - split_and!; try done. destruct Hg as [[-> _]|[-> _]]; [done|].
    intros q [?|?%list_elem_of_singleton]%elem_of_app Hq; [by eapply Hd|]. subst q. apply Hr in Hq. simpl in *. lia.
Qed.

Lemma tm_columns t chains name meta :
  tm_wf t chains → tables t !! name = Some meta → Forall column_wf (tbl_schema meta).
Proof.
  intros Hwf Hm. destruct (tw_catalog _ _ Hwf) as (tc & ic & Hc).
  destruct (dw_entry _ _ _ _ (cw_tables _ _ _ Hc) _ _ Hm) as (_ & (_ & _ & ?) & _). done.
Qed.

Lemma GetOrOpen_spec t chains name meta chain :
  tm_wf t chains → tables t !! name = Some meta → chains !! name = Some chain →
  ∃ hf, let t' := mkTables (data_pool t) (catalog t) (<[name := hf]> (open_tables_ t)) in
    GetOrOpen name t = Some (Some hf, t') ∧ tm_wf t' chains ∧ table_at (tbl_schema meta) (data_pool t, hf) chain.
Proof.
  intros Hwf Hm Hc. destruct (tw_table _ _ Hwf name meta chain Hm Hc) as [Hne Hta].
  assert (∀ hf, first_page_id_ hf = tbl_first_page_id meta → last_insert_page_id_ hf ∈ chain →
    tm_wf (mkTables (data_pool t) (catalog t) (<[name := hf]> (open_tables_ t))) chains) as Hopen.
  { intros hf Hf Hl. destruct Hwf as [????? Ho]. split; try done. simpl.
    intros name' hf' [[<- <-]|[_ ?]]%lookup_insert_Some; [by eexists _, _|by apply Ho]. }
  unfold GetOrOpen. rewrite bind_gets. destruct (open_tables_ t !! name) as [hf|] eqn:Eo.
  - destruct (tw_open _ _ Hwf _ _ Eo) as (meta' & chain' & Hm' & Hc' & Hf & Hl). simplify_eq.
    exists hf. split_and!; [|by apply Hopen|by apply (table_at_hf _ _ (opened meta))].
    rewrite insert_id by done. by destruct t.
  - exists (opened meta).
    assert (last_insert_page_id_ (opened meta) ∈ chain) as Hl by apply Hta.
    split_and!; [|by apply Hopen|done].
    unfold bind, on_catalog, GetTable, gets. rewrite surjective_pairing with (p := catalog t). rewrite Hm.
    unfold OpenAndCache, bind, new_heap, HeapFile_new. simpl.
    pose proof (ta_heap _ _ _ Hta) as [_ Hch _ _]. simpl in Hch.
    assert (tbl_first_page_id meta ≠ kInvalidPageId) as Hne'.
    { destruct chain; [by apply not_elem_of_nil in Hl|]. destruct Hch as (-> & ? & _). unfold kInvalidPageId. lia. }
    apply Z.eqb_neq in Hne'. rewrite Hne'. simpl. by destruct (catalog t).
Qed.

Lemma GetOrOpen_missing t chains name :
  tm_wf t chains → tables t !! name = None → GetOrOpen name t = Some (None, t).
Proof.
  intros Hwf Hm. unfold GetOrOpen. rewrite bind_gets.
  destruct (open_tables_ t !! name) as [hf|] eqn:Eo.
  { destruct (tw_open _ _ Hwf _ _ Eo) as (? & ? & ? & _). congruence. }
  unfold bind, on_catalog, GetTable, gets. destruct t as [d [cs c] o]. simpl in *. by rewrite Hm.
Qed.

(** An operation of the record manager on the table [name]. *)
Lemma on_table_spec {A} name meta chain missing (m : Schema → M (Pool * HeapFile) A) t chains
    (Q : A → Pool → list Z → Prop) :
  tm_wf t chains → tables t !! name = Some meta → chains !! name = Some chain →
  (∀ hf, table_at (tbl_schema meta) (data_pool t, hf) chain →
    ∃ r s' hf' chain', m (tbl_schema meta) (data_pool t, hf) = Some (r, (s', hf')) ∧
      table_at (tbl_schema meta) (s', hf') chain' ∧
      table_frame (data_pool t, hf) (s', hf') chain chain' ∧ Q r s' chain') →
  ∃ r s' chain' open', let t' := mkTables s' (catalog t) open' in
    on_table name missing m t = Some (r, t') ∧ tm_wf t' (<[name := chain']> chains) ∧ Q r s' chain' ∧
    (∀ name', name' ≠ name → table_of t' (<[name := chain']> chains) name' = table_of t chains name') ∧
    ps_count (data_pool t) ≤ ps_count s' ≤ ps_count (data_pool t) + 1 ∧
    (chain' = chain → ps_count s' = ps_count (data_pool t)).
Proof.
  intros Hwf Hm Hc Hop.
  destruct (GetOrOpen_spec t chains name meta chain Hwf Hm Hc) as (hf & Eg & Hwf1 & Hta).
  destruct (Hop hf Hta) as (r & s' & hf' & chain' & Er & Hta' & Hfr & HQ).
  exists r, s', chain', (<[name := hf']> (open_tables_ t)). cbv zeta.
  assert (∀ name2 meta2 chain2, name2 ≠ name → tables t !! name2 = Some meta2 → chains !! name2 = Some chain2 →
    tbl_schema meta2 ≠ [] ∧ table_at (tbl_schema meta2) (s', opened meta2) chain2 ∧
    row_list (tbl_schema meta2) s' chain2 = row_list (tbl_schema meta2) (data_pool t) chain2 ∧ chain' ## chain2) as Hother.
  { intros name2 meta2 chain2 Hn2 Hm2 Hc2. destruct (tw_table _ _ Hwf name2 meta2 chain2 Hm2 Hc2) as [? Hta2].
    split; [done|]. eapply frame_other; [done|done| |done]. eapply (tw_disjoint _ _ Hwf); [done|done|by apply not_eq_sym]. }
  split_and!.
  - unfold on_table, bind. rewrite Eg. cbn [catalog data_pool open_tables_]. rewrite Hm, Er. by rewrite insert_insert_eq.
  - destruct (tw_table _ _ Hwf name meta chain Hm Hc) as [Hne Hta0].
    split; [apply Hwf|apply Hta'| | | |].
    + intros name'. rewrite lookup_insert_is_Some. cbn [catalog]. destruct (decide (name = name')) as [<-|Hn].
      * rewrite Hm. split; [done|by left].
      * rewrite <- (tw_dom _ _ Hwf name'). split; [by intros [?|[_ ?]]|by right].
    + intros name2 meta2 chain2 Hm2 Hc2. cbn [catalog data_pool] in *.
      apply lookup_insert_Some in Hc2 as [[<- <-]|[Hn2 Hc2]].
      * rewrite Hm in Hm2. injection Hm2 as <-. split; [done|].
        apply (table_at_hf _ _ hf'); [done| |].
        -- rewrite (table_first _ _ _ _ _ _ _ _ Hta Hta') by apply Hfr.
           symmetry. apply (table_first _ _ _ _ _ _ _ _ Hta0 Hta). by left.
        -- destruct Hfr as [Hg _]. apply chain_grown_prefix in Hg as [k ->].
           apply elem_of_app. left. apply Hta0.
      * destruct (Hother name2 meta2 chain2) as (? & ? & _); [congruence|done..].
    + intros n1 n2 c1 c2 [[<- <-]|[Hn1 Hc1]]%lookup_insert_Some [[<- <-]|[Hn2 Hc2]]%lookup_insert_Some Hne12; [done| | |].
      * destruct (tw_dom _ _ Hwf n2) as [Hd _]. destruct Hd as [m2 Hm2]; [eauto|].
        by destruct (Hother n2 m2 c2) as (_ & _ & _ & ?).
      * destruct (tw_dom _ _ Hwf n1) as [Hd _]. destruct Hd as [m1 Hm1]; [eauto|].
        apply list_disjoint_sym. by destruct (Hother n1 m1 c1) as (_ & _ & _ & ?).
      * by eapply (tw_disjoint _ _ Hwf).
    + cbn [catalog open_tables_]. intros name2 hf2 [[<- <-]|[Hn2 Ho2]]%lookup_insert_Some.
      * exists meta, chain'. rewrite lookup_insert_eq. split_and!; try done; [|apply Hta'].
        rewrite (table_first _ _ _ _ _ _ _ _ Hta Hta') by apply Hfr.
        apply (table_first _ _ _ _ _ _ _ _ Hta0 Hta). by left.
      * destruct (tw_open _ _ Hwf _ _ Ho2) as (m2 & c2 & ? & ? & ? & ?). exists m2, c2.
        by rewrite lookup_insert_ne.
  - done.
  - intros name' Hn'. unfold table_of. cbn [catalog data_pool]. rewrite lookup_insert_ne by done.
    destruct (tables t !! name') as [m'|] eqn:Hm'; [|done]. destruct (chains !! name') as [c'|] eqn:Hc'; [|done].
    destruct (Hother name' m' c') as (_ & _ & Hrl & _); try done. unfold table_rows. by rewrite Hrl.
  - destruct Hfr as [Hg _]. unfold chain_grown in Hg. simpl in Hg. lia.
  - destruct Hfr as [Hg _]. unfold chain_grown in Hg. simpl in Hg. lia.
  - intros ->. destruct Hfr as [[[_ ?]|[Hg _]] _]; [done|]. simpl in Hg.
    apply (f_equal length) in Hg. rewrite length_app in Hg. simpl in Hg. lia.
Qed.
End database.
