(* ===== verification/TableTheorems.v ===== *)
(** * The table manager implements a database

    A database is a map from names to tables and a table a map from record ids
    to rows.  [table_step] says what each operation returns and makes of the
    database; the theorem shows that the code does that and nothing else. *)

From stdpp Require Import gmap.
From S2P Require Import Prelude Util Value RecordCodec SlottedPage PageManager PageStore BufferPool HeapFile.
From S2P Require Import RecordManager Catalog CatalogSpec TableManager TableSpec.

(** ** The abstract operations *)

Inductive TableOp :=
  | TCreate (name : string) (schema : Schema)
  | TDrop (name : string)
  | TInsert (name : string) (values : Row)
  | TGet (name : string) (rid : RecordId)
  | TUpdate (name : string) (rid : RecordId) (values : Row)
  | TDelete (name : string) (rid : RecordId)
  | TScan (name : string)
  | TSchema (name : string)
  | TList (order : list string).

Inductive TableOut :=
  | OStatus (st : Status)
  | ORid (r : Result RecordId)
  | ORow (r : Result Row)
  | ORows (st : Status) (rows : list (RecordId * Row))
  | OSchema (s : option Schema)
  | ONames (names : list string).

Definition no_table (fn name : string) : Status := NotFound (fn +:+ ": no such table '" +:+ name +:+ "'").

(** The bytes of a catalog record. *)
Definition table_size (name : string) (schema : Schema) : Z :=
  blen (EncodeTableMetadata (mkTable 0 name schema 0 no_rid)).

Definition create_effect (name : string) (schema : Schema) (a : Db) (st : Status) (a' : Db) : Prop :=
  match a !! name with
  | Some _ => st = AlreadyExists ("CreateTable: table '" +:+ name +:+ "' already exists") ∧ a' = a
  | None =>
      if decide (65535 < table_size name schema) then
        st = InvalidArgument "CreateTable: encoded metadata too large (too many/long columns)" ∧ a' = a
      else if decide (max_record < table_size name schema) then
        st = OutOfSpace "InsertRecord: record too large for an empty page" ∧ a' = a
      else st = Status_OK ∧ a' = <[name := (schema, ∅)]> a
  end.

Definition table_step (op : TableOp) (a : Db) (o : TableOut) (a' : Db) : Prop :=
  match op with
  | TCreate name schema => ∃ st, o = OStatus st ∧ create_effect name schema a st a'
  | TDrop name =>
      o = OStatus match a !! name with
                  | Some _ => Status_OK
                  | None => NotFound ("DropTable: table '" +:+ name +:+ "' does not exist")
                  end ∧ a' = delete name a
  | TInsert name values =>
      match a !! name with
      | None => o = ORid (Err (no_table "InsertRow" name)) ∧ a' = a
      | Some (schema, rows) =>
          ∃ r rows', o = ORid r ∧ insert_effect schema values rows r rows' ∧ a' = <[name := (schema, rows')]> a
      end
  | TGet name rid =>
      a' = a ∧
      match a !! name with
      | None => o = ORow (Err (no_table "GetRow" name))
      | Some (_, rows) =>
          match rows !! rid with
          | Some values => o = ORow (Ok values)
          | None => ∃ msg, o = ORow (Err (NotFound msg))
          end
      end
  | TUpdate name rid values =>
      match a !! name with
      | None => o = ORid (Err (no_table "UpdateRow" name)) ∧ a' = a
      | Some (schema, rows) =>
          match rows !! rid with
          | Some _ =>
              ∃ r rows', o = ORid r ∧ update_effect schema rid values rows r rows' ∧ a' = <[name := (schema, rows')]> a
          | None => a' = a ∧ ∃ e, o = ORid (Err e) ∧ update_missing schema values e
          end
      end
  | TDelete name rid =>
      match a !! name with
      | None => o = OStatus (no_table "DeleteRow" name) ∧ a' = a
      | Some (schema, rows) =>
          match rows !! rid with
          | Some _ => o = OStatus Status_OK ∧ a' = <[name := (schema, delete rid rows)]> a
          | None => a' = a ∧ ∃ msg, o = OStatus (NotFound msg)
          end
      end
  | TScan name =>
      a' = a ∧
      match a !! name with
      | None => o = ORows (no_table "Scan" name) []
      | Some (_, rows) => ∃ l, o = ORows Status_OK l ∧ l ≡ₚ map_to_list rows
      end
  | TSchema name => a' = a ∧ o = OSchema (fst <$> a !! name)
  | TList _ => a' = a ∧ ∃ names, o = ONames names ∧ names ≡ₚ (map_to_list a).*1
  end.

Section run.
Context {Pool : Type} `{PageStore Pool}.

Definition run_table_op (fuel : nat) (op : TableOp) : M (TableManager Pool) TableOut :=
  match op with
  | TCreate name schema => let! st := TableManager.CreateTable fuel name schema in ret (OStatus st)
  | TDrop name => let! st := TableManager.DropTable name in ret (OStatus st)
  | TInsert name values => let! r := TableManager.InsertRow fuel name values in ret (ORid r)
  | TGet name rid => let! r := TableManager.GetRow name rid in ret (ORow r)
  | TUpdate name rid values => let! r := TableManager.UpdateRow fuel name rid values in ret (ORid r)
  | TDelete name rid => let! st := TableManager.DeleteRow name rid in ret (OStatus st)
  | TScan name =>
      let! r := TableManager.Scan fuel name (λ rid values acc, acc ++ [(rid, values)]) [] in ret (ORows r.1 r.2)
  | TSchema name => let! s := GetSchema name in ret (OSchema s)
  | TList order => let! names := TableManager.ListTables order in ret (ONames names)
  end.
End run.

Section steps.
Context {Pool : Type} `{PageStoreSpec Pool}.
Implicit Types (t : TableManager Pool) (s : Pool) (a : Db).

(** A record id at which a table answers for itself: that of one of its rows,
    one on a page of its file (a row deleted since, say), or one of a page that
    is not in the data file.  The code does not check that the page of a record
    id belongs to the table. *)
Definition own_rid t a (name : string) (rid : RecordId) : Prop :=
  (∀ schema rows, a !! name = Some (schema, rows) → is_Some (rows !! rid)) ∨
  (0 ≤ rid_slot_id rid ∧ ∃ meta chain, tables_ (catalog t).2 !! name = Some meta ∧
     is_chain (data_pool t) (tbl_first_page_id meta) chain ∧ rid_page_id rid ∈ chain) ∨
  rid_page_id rid < 0 ∨ ps_count (data_pool t) ≤ rid_page_id rid.

(** Values have the ranges of their C++ types, a table has a column, the table
    answers for the record id, and [order] meets every table once. *)
Definition table_op_ok (op : TableOp) t a : Prop :=
  match op with
  | TCreate _ schema => schema ≠ [] ∧ Forall column_wf schema
  | TInsert _ values => Forall value_wf values
  | TUpdate name rid values => Forall value_wf values ∧ own_rid t a name rid
  | TGet name rid | TDelete name rid => own_rid t a name rid
  | TList order => NoDup order ∧ ∀ name, is_Some (a !! name) → name ∈ order
  | _ => True
  end.

(** Room for another page in each store and another id, and fuel for the
    chains. *)
Record tm_room (fuel : nat) t : Prop := {
  tr_data : ps_count (data_pool t) < 2 ^ 31 - 1;
  tr_catalog : ps_count (catalog t).1 < 2 ^ 31 - 1;
  tr_next : next_table_id_ (catalog t).2 < 2 ^ 32 - 1;
  tr_fuel_data : ps_count (data_pool t) ≤ Z.of_nat fuel;
  tr_fuel_catalog : ps_count (catalog t).1 ≤ Z.of_nat fuel
}.

(** What an operation may use up. *)
Definition tm_grows t t' : Prop :=
  ps_count (data_pool t') ≤ ps_count (data_pool t) + 1 ∧
  ps_count (catalog t').1 ≤ ps_count (catalog t).1 + 1 ∧
  next_table_id_ (catalog t').2 ≤ next_table_id_ (catalog t).2 + 1.

(** An operation on the rows of a table; [k] pages may have been added. *)
Definition tm_rows (k : Z) t t' : Prop :=
  catalog t' = catalog t ∧ ps_count (data_pool t) ≤ ps_count (data_pool t') ≤ ps_count (data_pool t) + k.

Lemma tm_rows_grows k t t' : k ≤ 1 → tm_rows k t t' → tm_grows t t'.
Proof. intros Hk [Hc Hd]. unfold tm_grows. rewrite Hc. split_and!; lia. Qed.

Lemma tm_rows_refl k t : 0 ≤ k → tm_rows k t t.
Proof. intros. split; [done|lia]. Qed.

Lemma db_lookup t a chains name :
  tm_wf t chains → (∀ name, a !! name = table_of t chains name) →
  match a !! name with
  | Some (schema, rows) => ∃ meta chain, tables_ (catalog t).2 !! name = Some meta ∧ chains !! name = Some chain ∧
      tbl_schema meta = schema ∧ table_rows schema (data_pool t) chain = rows
  | None => tables_ (catalog t).2 !! name = None
  end.
Proof.
  intros Hwf Ha. rewrite Ha. unfold table_of. pose proof (tw_dom _ _ Hwf name) as Hd.
  destruct (tables_ (catalog t).2 !! name) as [meta|]; [|done].
  destruct (chains !! name) as [chain|]; [by eexists _, _|].
  destruct Hd as [_ [? ?]]; [eauto|done].
Qed.

Lemma on_table_missing {A} t chains name missing (m : Schema → M (Pool * HeapFile) A) :
  tm_wf t chains → tables_ (catalog t).2 !! name = None → on_table name missing m t = Some (missing, t).
Proof. intros Hwf Hm. unfold on_table, bind. by rewrite (GetOrOpen_missing t chains name Hwf Hm). Qed.

(** An operation on the rows of one table, against the abstract database. *)
Lemma on_table_db {A} t a name schema rows missing (m : Schema → M (Pool * HeapFile) A) (Q : A → Rows → Prop) k :
  db_at t a → a !! name = Some (schema, rows) → 0 ≤ k →
  (∀ hf chain, table_at schema (data_pool t, hf) chain → Forall column_wf schema → schema ≠ [] →
    table_rows schema (data_pool t) chain = rows → Z.of_nat (length chain) ≤ Z.max 0 (ps_count (data_pool t) - 1) →
    (∀ rid, rows !! rid = None → own_rid t a name rid → rid_known (data_pool t) chain rid) →
    ∃ r s' hf' chain', m schema (data_pool t, hf) = Some (r, (s', hf')) ∧ table_at schema (s', hf') chain' ∧
      table_frame (data_pool t, hf) (s', hf') chain chain' ∧ Q r (table_rows schema s' chain') ∧ (k = 0 → chain' = chain)) →
  ∃ r rows' t', on_table name missing m t = Some (r, t') ∧ Q r rows' ∧
    db_at t' (<[name := (schema, rows')]> a) ∧ tm_rows k t t'.
Proof.
  intros (chains & Hwf & Ha) Hname Hk Hop. pose proof (db_lookup t a chains name Hwf Ha) as Hl.
  rewrite Hname in Hl. destruct Hl as (meta & chain & Hm & Hc & <- & <-).
  destruct (tw_table _ _ Hwf _ _ _ Hm Hc) as [Hne _].
  destruct (on_table_spec name meta chain missing m t chains 
    (λ r s' chain', Q r (table_rows (tbl_schema meta) s' chain') ∧ (k = 0 → chain' = chain)) Hwf Hm Hc)
    as (r & s' & chain' & open' & E & Hwf' & [HQ Hk0] & Hoth & Hcnt & Hsame).
  { intros hf Hta. apply Hop; try done; [by eapply tm_columns|by eapply table_pages|].
    intros rid Hn [Hlive|[(Hs & meta' & chain2 & Hm' & Hc' & Hin)|Hout]]; [|left|by right].
    - destruct (Hlive _ _ Hname) as [? ?]. congruence.
    - split; [|done]. rewrite Hm in Hm'. injection Hm' as <-.
      destruct (tw_table _ _ Hwf _ _ _ Hm Hc) as [_ [Hh _]]. by rewrite (is_chain_unique _ _ _ _ (hwf_chain _ _ Hh) Hc'). }
  exists r, (table_rows (tbl_schema meta) s' chain'). eexists. split; [exact E|]. split; [done|]. split.
  - exists (<[name := chain']> chains). split; [done|]. intros name'. destruct (decide (name' = name)) as [->|Hn].
    + rewrite lookup_insert_eq. unfold table_of. cbn [catalog data_pool]. by rewrite Hm, lookup_insert_eq.
    + rewrite lookup_insert_ne by done. by rewrite Hoth.
  - split; [done|]. cbn [data_pool]. destruct (decide (k = 0)) as [->|]; [rewrite Hsame by auto|]; lia.
Qed.

Lemma tm_grows_refl t : tm_grows t t.
Proof. split_and!; lia. Qed.

Lemma on_table_none {A} t a name missing (m : Schema → M (Pool * HeapFile) A) :
  db_at t a → a !! name = None → on_table name missing m t = Some (missing, t).
Proof.
  intros (chains & Hwf & Ha) Hname. pose proof (db_lookup t a chains name Hwf Ha) as Hl. rewrite Hname in Hl.
  by eapply on_table_missing.
Qed.

Lemma chain_fuel fuel t (chain : list Z) :
  tm_room fuel t → Z.of_nat (length chain) ≤ Z.max 0 (ps_count (data_pool t) - 1) → (length chain ≤ fuel)%nat.
Proof. intros [????] ?. lia. Qed.

Lemma InsertRow_db fuel t a name values :
  db_at t a → tm_room fuel t → Forall value_wf values →
  ∃ r t' a', TableManager.InsertRow fuel name values t = Some (r, t') ∧
    table_step (TInsert name values) a (ORid r) a' ∧ db_at t' a' ∧ tm_rows 1 t t'.
Proof.
  intros Hdb Hroom Hv. unfold TableManager.InsertRow. simpl.
  destruct (a !! name) as [[schema rows]|] eqn:Hname.
  - destruct (on_table_db t a name schema rows (Err (no_table "InsertRow" name))
      (λ schema, RecordManager.InsertRow schema fuel values) (insert_effect schema values rows) 1 Hdb Hname ltac:(lia))
      as (r & rows' & t' & E & HQ & Hdb' & Hg).
    { intros hf chain Hta Hcw Hne <- Hlen Hown.
      destruct (InsertRow_table schema Hcw Hne fuel (data_pool t) hf chain values Hta) as
        (r & [s' hf'] & chain' & E & Hta' & Hfr & Hi); [by eapply chain_fuel|apply Hroom|done|].
      by eexists _, s', hf', chain'. }
    exists r, t', (<[name := (schema, rows')]> a). split_and!; try done; [|apply Hg..]. by exists r, rows'.
  - eexists _, t, a. rewrite (on_table_none t a) by done. split_and!; try done; by apply tm_rows_refl.
Qed.

Lemma UpdateRow_db fuel t a name rid values :
  db_at t a → tm_room fuel t → table_op_ok (TUpdate name rid values) t a →
  ∃ r t' a', TableManager.UpdateRow fuel name rid values t = Some (r, t') ∧
    table_step (TUpdate name rid values) a (ORid r) a' ∧ db_at t' a' ∧ tm_rows 1 t t'.
Proof.
  intros Hdb Hroom [Hv Hrid]. unfold TableManager.UpdateRow. simpl.
  destruct (a !! name) as [[schema rows]|] eqn:Hname.
  2: { eexists _, t, a. rewrite (on_table_none t a) by done. split_and!; try done; by apply tm_rows_refl. }
  destruct (on_table_db t a name schema rows (Err (no_table "UpdateRow" name))
      (λ schema, RecordManager.UpdateRow schema fuel rid values)
      (λ r rows', match rows !! rid with
                  | Some _ => update_effect schema rid values rows r rows'
                  | None => rows' = rows ∧ ∃ e, r = Err e ∧ update_missing schema values e end) 1 Hdb Hname ltac:(lia))
      as (r & rows' & t' & E & HQ & Hdb' & Hg).
  { intros hf chain Hta Hcw Hne <- Hlen Hown. destruct (table_rows schema (data_pool t) chain !! rid) as [old|] eqn:Hold.
    - destruct (UpdateRow_table schema Hcw Hne fuel (data_pool t) hf chain rid old values Hta) as
        (r & [s' hf'] & chain' & E & Hta' & Hfr & Hi); [by eapply chain_fuel|apply Hroom|done|done|].
      by eexists _, s', hf', chain'.
    - destruct (UpdateRow_missing schema Hcw Hne fuel (data_pool t) hf chain rid values Hta) as
        (e & [s' hf'] & chain' & E & Hm & Hta' & Hfr & Hi); [by eapply chain_fuel|apply Hroom|done|by apply Hown|].
      eexists _, s', hf', chain'. split_and!; try done. by eexists. }
  destruct (rows !! rid).
  - exists r, t', (<[name := (schema, rows')]> a). split_and!; try done; [|apply Hg..]. by exists r, rows'.
  - destruct HQ as (-> & e & -> & Hm). rewrite insert_id in Hdb' by done. exists (Err e), t', a.
    split; [exact E|]. split; [|done]. split; [done|]. by exists e.
Qed.

Lemma DeleteRow_db t a name rid :
  db_at t a → table_op_ok (TDelete name rid) t a →
  ∃ st t' a', TableManager.DeleteRow name rid t = Some (st, t') ∧
    table_step (TDelete name rid) a (OStatus st) a' ∧ db_at t' a' ∧ tm_rows 0 t t'.
Proof.
  intros Hdb Hrid. unfold TableManager.DeleteRow. simpl in *.
  destruct (a !! name) as [[schema rows]|] eqn:Hname.
  2: { eexists _, t, a. rewrite (on_table_none t a) by done. split_and!; try done; by apply tm_rows_refl. }
  destruct (on_table_db t a name schema rows (no_table "DeleteRow" name) (λ _, RecordManager.DeleteRow rid)
      (λ st rows', match rows !! rid with
                   | Some _ => st = Status_OK ∧ rows' = delete rid rows
                   | None => rows' = rows ∧ ∃ msg, st = NotFound msg end) 0 Hdb Hname ltac:(lia))
      as (st & rows' & t' & E & HQ & Hdb' & Hg).
  { intros hf chain Hta Hcw Hne <- Hlen Hown. destruct (table_rows schema (data_pool t) chain !! rid) as [old|] eqn:Hold.
    - destruct (DeleteRow_table schema Hcw Hne (data_pool t) hf chain rid old Hta Hold) as
        (s' & E & Hta' & Hfr & Hi). by eexists _, s', hf, chain.
    - destruct (DeleteRow_missing schema Hcw Hne (data_pool t) hf chain rid Hta Hold (Hown rid Hold Hrid)) as
        (msg & s' & E & Hta' & Hfr & Hi). eexists _, s', hf, chain. split_and!; try done. by eexists. }
  destruct (rows !! rid).
  - destruct HQ as [-> ->]. eexists _, t', _. split_and!; try done; apply Hg.
  - destruct HQ as (-> & msg & ->). rewrite insert_id in Hdb' by done. exists (NotFound msg), t', a.
    split; [exact E|]. split; [|done]. split; [done|]. by exists msg.
Qed.

Lemma GetRow_db t a name rid :
  db_at t a → table_op_ok (TGet name rid) t a →
  ∃ r t', TableManager.GetRow name rid t = Some (r, t') ∧
    table_step (TGet name rid) a (ORow r) a ∧ db_at t' a ∧ tm_rows 0 t t'.
Proof.
  intros Hdb Hrid. unfold TableManager.GetRow. simpl in *.
  destruct (a !! name) as [[schema rows]|] eqn:Hname.
  2: { eexists _, t. rewrite (on_table_none t a) by done. split_and!; try done; by apply tm_rows_refl. }
  destruct (on_table_db t a name schema rows (Err (no_table "GetRow" name)) (λ schema, RecordManager.GetRow schema rid)
      (λ r rows', rows' = rows ∧ match rows !! rid with
                                 | Some values => r = Ok values
                                 | None => ∃ msg, r = Err (NotFound msg) end) 0 Hdb Hname ltac:(lia))
      as (r & rows' & t' & E & [-> HQ] & Hdb' & Hg).
  { intros hf chain Hta Hcw Hne <- Hlen Hown. destruct (table_rows schema (data_pool t) chain !! rid) as [old|] eqn:Hold.
    - destruct (GetRow_table schema Hcw Hne (data_pool t) hf chain rid old Hta Hold) as
        (s' & E & Hta' & Hfr & Hi). by eexists _, s', hf, chain.
    - destruct (GetRow_missing schema Hcw Hne (data_pool t) hf chain rid Hta Hold (Hown rid Hold Hrid)) as
        (msg & s' & E & Hta' & Hfr & Hi). eexists _, s', hf, chain. split_and!; try done. by eexists. }
  rewrite insert_id in Hdb' by done. exists r, t'. split; [exact E|]. split; [|done]. split; [done|].
  destruct (rows !! rid); [by subst|]. destruct HQ as [msg ->]. by exists msg.
Qed.

(** A scan calls the visitor on the rows in some order. *)
Lemma Scan_db {A} fuel t a name (visitor : RecordId → Row → A → A) acc :
  db_at t a → tm_room fuel t →
  ∃ st l t', TableManager.Scan fuel name visitor acc t =
      Some ((st, fold_left (λ acc '(rid, values), visitor rid values acc) l acc), t') ∧
    table_step (TScan name) a (ORows st l) a ∧ db_at t' a ∧ tm_rows 0 t t'.
Proof.
  intros Hdb Hroom. unfold TableManager.Scan. simpl.
  destruct (a !! name) as [[schema rows]|] eqn:Hname.
  - destruct (on_table_db t a name schema rows (no_table "Scan" name, acc)
      (λ schema, let! acc := ScanRows schema fuel visitor acc in ret (Status_OK, acc))
      (λ r rows', rows' = rows ∧ ∃ l, l ≡ₚ map_to_list rows ∧
         r = (Status_OK, fold_left (λ acc '(rid, values), visitor rid values acc) l acc)) 0 Hdb Hname ltac:(lia))
      as (r & rows' & t' & E & (-> & l & Hl & ->) & Hdb' & Hg).
    { intros hf chain Hta Hcw Hne <- Hlen Hown.
      destruct (ScanRows_table schema fuel (data_pool t) hf chain visitor acc Hta) as
        (s' & E & Hta' & Hfr & Hi); [by eapply chain_fuel|].
      eexists _, s', hf, chain. unfold bind. rewrite E. split_and!; try done.
      - unfold table_rows. by rewrite Hi.
      - exists (row_list schema (data_pool t) chain). split; [|done]. unfold table_rows.
        rewrite map_to_list_to_map; [done|]. by apply NoDup_row_list, Hta. }
    rewrite insert_id in Hdb' by done. eexists Status_OK, l, t'. split_and!; try done; [|apply Hg..]. eauto.
  - eexists _, [], t. rewrite (on_table_none t a) by done. split_and!; try done; by apply tm_rows_refl.
Qed.

Lemma GetSchema_db t a name : db_at t a → GetSchema name t = Some (fst <$> a !! name, t).
Proof.
  intros (chains & Hwf & Ha). pose proof (db_lookup t a chains name Hwf Ha) as Hl.
  unfold GetSchema, bind, on_catalog, GetTable, gets, ret. destruct t as [d [cs c] o]. simpl in *.
  destruct (a !! name) as [[schema rows]|]; [destruct Hl as (meta & chain & -> & _ & <- & _)|rewrite Hl]; done.
Qed.

(** A row that is there fits the schema, and its id the widths of a record
    id. *)
Lemma db_row t a name schema rows rid values :
  db_at t a → a !! name = Some (schema, rows) → rows !! rid = Some values →
  row_fits schema values ∧ Forall value_wf values ∧ in_i32 (rid_page_id rid) ∧ in_u16 (rid_slot_id rid).
Proof.
  intros (chains & Hwf & Ha) Hname Hr. pose proof (db_lookup t a chains name Hwf Ha) as Hl.
  rewrite Hname in Hl. destruct Hl as (meta & chain & Hm & Hc & <- & <-).
  destruct (tw_table _ _ Hwf _ _ _ Hm Hc) as [Hne [Hhw Hok]]. pose proof (tm_columns _ _ _ _ Hwf Hm) as Hcols.
  rewrite (table_rows_lookup _ Hne (data_pool t) (opened meta)) in Hr by apply Hhw.
  destruct (table_row_wf _ Hcols _ _ _ _ Hok Hr) as (bs & Hg & E & Hv).
  destruct (heap_get_Some _ _ _ _ _ Hhw Hg) as (Hin & Hs & Hlive & _).
  destruct (chain_page _ _ _ _ Hhw Hin) as [Hp Hsp].
  pose proof (ps_count_range _ (idle_wf _ (tw_idle _ _ Hwf))).
  split; [by eapply Encode_Ok_fits|]. split; [done|]. split; [unfold in_i32; lia|].
  destruct Hlive as [Hi _]. pose proof (wf_directory _ Hsp). pose proof (wf_free _ Hsp). unfold in_u16. page_lia.
Qed.

(** *** Creating and dropping *)

(** The store of the data grew by pages of no table, and the catalog changed
    outside its tables. *)
Lemma tm_extend t chains s' cs' c' :
  tm_wf t chains → ps_idle s' → ps_count (data_pool t) ≤ ps_count s' →
  (∀ q, 1 ≤ q < ps_count (data_pool t) → ps_view s' q = ps_view (data_pool t) q) →
  (∃ tchain ichain, catalog_wf (cs', c') tchain ichain) → tables_ c' = tables_ (catalog t).2 →
  let t' := mkTables s' (cs', c') (open_tables_ t) in
  tm_wf t' chains ∧ ∀ name, table_of t' chains name = table_of t chains name.
Proof.
  intros Hwf Hi Hc Hv Hcat Htab t'.
  assert (∀ name meta chain, tables_ (catalog t).2 !! name = Some meta → chains !! name = Some chain →
    tbl_schema meta ≠ [] ∧ table_at (tbl_schema meta) (s', opened meta) chain ∧
    row_list (tbl_schema meta) s' chain = row_list (tbl_schema meta) (data_pool t) chain) as Hext.
  { intros name meta chain Hm Hch. destruct (tw_table _ _ Hwf _ _ _ Hm Hch) as [? Hta]. split; [done|].
    eapply table_at_ext; try done. intros q Hq. apply Hv. by eapply table_pages. }
  split.
  - split; cbn [catalog data_pool open_tables_ snd t']; rewrite ?Htab; try done; try apply Hwf.
    intros name meta chain Hm Hch. by destruct (Hext name meta chain Hm Hch) as (? & ? & _).
  - intros name. unfold table_of, t'. cbn [catalog data_pool snd]. rewrite Htab.
    destruct (tables_ _ !! name) as [meta|] eqn:Hm; [|done]. destruct (chains !! name) as [chain|] eqn:Hch; [|done].
    destruct (Hext name meta chain Hm Hch) as (_ & _ & Hr). unfold table_rows. by rewrite Hr.
Qed.

Lemma table_size_any id name schema page rid : blen (EncodeTableMetadata (mkTable id name schema page rid)) = table_size name schema.
Proof.
  unfold table_size. rewrite !EncodeTableMetadata_enc. unfold enc_table. simpl. by rewrite !blen_app, !blen_le_split.
Qed.

Lemma tm_chain_fuel fuel t chains tchain ichain :
  tm_wf t chains → catalog_wf (catalog t) tchain ichain → tm_room fuel t → (length tchain ≤ fuel)%nat.
Proof.
  intros Hwf Hc Hroom. destruct (cw_tables _ _ _ Hc) as [[_ Hch Hnd _] _ _ _]. simpl in *.
  assert (Z.of_nat (length tchain) ≤ Z.max 0 (ps_count (catalog t).1 - 1)).
  { apply NoDup_range_length; [done|]. intros q Hq. by eapply is_chain_in. }
  pose proof (tr_fuel_catalog _ _ Hroom). lia.
Qed.

(** A new table on the page [n] that was added to the store. *)
Lemma tm_add t chains s' cs' c' name meta :
  let n := ps_count (data_pool t) in
  tm_wf t chains → ps_idle s' → ps_count s' = n + 1 →
  (∀ q, 1 ≤ q < n → ps_view s' q = ps_view (data_pool t) q) →
  heap_wf (s', mkHeapFile n n) [n] → heap_records (s', mkHeapFile n n) [n] = [] →
  (∃ tchain ichain, catalog_wf (cs', c') tchain ichain) →
  tables_ (catalog t).2 !! name = None → tables_ c' = <[name := meta]> (tables_ (catalog t).2) →
  tbl_first_page_id meta = n → tbl_schema meta ≠ [] →
  let t' := mkTables s' (cs', c') (<[name := mkHeapFile n n]> (open_tables_ t)) in
  tm_wf t' (<[name := [n]]> chains) ∧ table_of t' (<[name := [n]]> chains) name = Some (tbl_schema meta, ∅) ∧
  ∀ name', name' ≠ name → table_of t' (<[name := [n]]> chains) name' = table_of t chains name'.
Proof.
  intros n Hwf Hi Hc Hv Hhwf Hrec Hcat Hnew Htab Hfirst Hne t'.
  assert (chains !! name = None) as Hcn.
  { apply eq_None_not_Some. rewrite (tw_dom _ _ Hwf name), Hnew. by intros []. }
  assert (∀ name' meta' chain', name' ≠ name → tables_ (catalog t).2 !! name' = Some meta' → chains !! name' = Some chain' →
    tbl_schema meta' ≠ [] ∧ table_at (tbl_schema meta') (s', opened meta') chain' ∧
    row_list (tbl_schema meta') s' chain' = row_list (tbl_schema meta') (data_pool t) chain' ∧ n ∉ chain') as Hext.
  { intros name' meta' chain' _ Hm Hch. destruct (tw_table _ _ Hwf _ _ _ Hm Hch) as [? Hta].
    destruct (table_pages _ _ _ _ Hta) as [Hr _].
    destruct (table_at_ext _ _ s' _ _ Hta Hi) as [??]; [unfold n in *; lia|intros q Hq; by apply Hv, Hr|].
    split_and!; try done. intros Hn%Hr. unfold n in *. lia. }
  assert (table_at (tbl_schema meta) (s', opened meta) [n]) as Hta.
  { unfold opened. rewrite Hfirst. split; [done|]. intros rid bs Hg.
    apply elem_of_heap_records in Hg. rewrite Hrec in Hg. by apply elem_of_nil in Hg. }
  split_and!.
  - split; cbn [catalog data_pool open_tables_ snd t']; rewrite ?Htab; try done.
    + intros name'. rewrite !lookup_insert_is_Some. by rewrite (tw_dom _ _ Hwf name').
    + intros name' meta' chain' Hm' Hch'.
      apply lookup_insert_Some in Hm' as [[<- <-]|[Hn' Hm']]; [rewrite lookup_insert_eq in Hch'; by injection Hch' as <-|].
      rewrite lookup_insert_ne in Hch' by done. destruct (Hext name' meta' chain') as (? & ? & _); [congruence|done..].
    + intros n1 n2 c1 c2 [[<- <-]|[Hn1 Hc1]]%lookup_insert_Some [[<- <-]|[Hn2 Hc2]]%lookup_insert_Some Hne12; [done| | |].
      * destruct (tw_dom _ _ Hwf n2) as [[m2 Hm2] _]; [eauto|]. destruct (Hext n2 m2 c2) as (_ & _ & _ & ?); try done.
        set_solver.
      * destruct (tw_dom _ _ Hwf n1) as [[m1 Hm1] _]; [eauto|]. destruct (Hext n1 m1 c1) as (_ & _ & _ & ?); try done.
        set_solver.
      * by eapply (tw_disjoint _ _ Hwf).
    + intros name' hf' [[<- <-]|[Hn' Ho']]%lookup_insert_Some.
      * exists meta, [n]. rewrite !lookup_insert_eq. split_and!; try done. by left.
      * destruct (tw_open _ _ Hwf _ _ Ho') as (m2 & c2 & ? & ? & ? & ?). exists m2, c2.
        by rewrite !lookup_insert_ne.
  - unfold table_of, t'. cbn [catalog data_pool snd]. rewrite Htab, !lookup_insert_eq. do 2 f_equal.
    unfold table_rows, row_list. change ([n] ≫= page_records s') with (heap_records (s', mkHeapFile n n) [n]).
    by rewrite Hrec.
  - intros name' Hn'. unfold table_of, t'. cbn [catalog data_pool snd]. rewrite Htab, !lookup_insert_ne by done.
    destruct (tables_ _ !! name') as [m'|] eqn:Hm'; [|done]. destruct (chains !! name') as [c2|] eqn:Hc2; [|done].
    destruct (Hext name' m' c2) as (_ & _ & Hr & _); try done. unfold table_rows. by rewrite Hr.
Qed.

Lemma CreateTable_db fuel t a name schema :
  db_at t a → tm_room fuel t → table_op_ok (TCreate name schema) t a →
  ∃ st t' a', TableManager.CreateTable fuel name schema t = Some (st, t') ∧
    create_effect name schema a st a' ∧ db_at t' a' ∧ tm_grows t t' ∧
    indexes_ (catalog t').2 = indexes_ (catalog t).2 ∧ next_index_id_ (catalog t').2 = next_index_id_ (catalog t).2 ∧
    same_first (catalog t).2 (catalog t').2.
Proof.
  intros (chains & Hwf & Ha) Hroom [Hne Hcols]. set (n := ps_count (data_pool t)).
  destruct (HeapFile_create (data_pool t) (tw_idle _ _ Hwf) (tr_data _ _ Hroom)) as (s' & Eh & Hhwf & Hc & Hrec & Hv).
  fold n in Eh, Hhwf, Hc, Hrec, Hv. pose proof (hwf_idle _ _ Hhwf) as Hi. simpl in Hi.
  pose proof (ps_count_range _ (idle_wf _ (tw_idle _ _ Hwf))) as Hcr. fold n in Hcr.
  destruct (tw_catalog _ _ Hwf) as (tc & ic & Hcat). pose proof (tm_chain_fuel _ _ _ _ _ Hwf Hcat Hroom) as Hfuel.
  pose proof (db_lookup t a chains name Hwf Ha) as Hl.
  destruct t as [d [cs c] o]. destruct Hroom as [_ Hrc Hrn _ _]. simpl in *.
  destruct (CreateTable_spec fuel cs c tc ic name schema n Hcat Hfuel Hrc Hrn) as
    (r & cs' & c' & tc' & E & (Hcat' & Hcc & _ & _ & Hfirst) & Hidx & Hnidx & Hres); [unfold in_i32, n; lia|done|].
  unfold TableManager.CreateTable, bind, new_heap. simpl. rewrite Eh. simpl. unfold on_catalog at 1. simpl. rewrite E.
  assert (tables_ c' = tables_ c → db_at (mkTables s' (cs', c') o) a) as Hsame.
  { intros Htab. destruct (tm_extend (mkTables d (cs, c) o) chains s' cs' c') as [Hwf' Hof]; try done;
      [simpl; fold n; lia|by eexists _, _|].
    exists chains. split; [done|]. intros name'. by rewrite Hof. }
  assert (∀ o', next_table_id_ c' ≤ next_table_id_ c + 1 →
    tm_grows (mkTables d (cs, c) o) (mkTables s' (cs', c') o')) as Hgrow.
  { intros o' Hn. split_and!; simpl in *; unfold n in *; lia. }
  unfold create_effect. destruct (a !! name) as [[schema0 rows0]|] eqn:Hname.
  - destruct Hl as (meta & chain & Hm & _). rewrite Hm in Hres. destruct Hres as [-> ->].
    eexists _, _, a. split; [reflexivity|]. split; [done|]. split; [by apply Hsame|]. split; [apply Hgrow; lia|done].
  - rewrite Hl in Hres. destruct Hres as (Hn & Hcr' & Htab). unfold create_result in Hcr'.
    cbn [ce_encode table_entry] in Hcr'. rewrite table_size_any in Hcr'.
    case_decide as H65; [|case_decide as Hpg].
    + subst r. eexists _, _, a. split; [reflexivity|]. split; [done|]. split; [by apply Hsame|]. split; [apply Hgrow; lia|done].
    + subst r. eexists _, _, a. split; [reflexivity|]. split; [done|]. split; [by apply Hsame|]. split; [apply Hgrow; lia|done].
    + destruct Hcr' as [rid ->]. unfold OpenAndCache, bind, new_heap, HeapFile_new. cbn [set_rid_table ce_set_rid table_entry tbl_first_page_id].
      destruct (Z.eqb_spec n kInvalidPageId); [unfold kInvalidPageId in *; lia|]. simpl.
      cbn [ce_set_rid table_entry] in Htab. set (meta := set_rid_table _ _) in Htab.
      destruct (tm_add (mkTables d (cs, c) o) chains s' cs' c' name meta) as (Hwf' & Hof & Hoth); try done; [by eexists _, _|].
      eexists _, _, (<[name := (schema, ∅)]> a). split; [reflexivity|]. split; [done|]. split; [|split; [apply Hgrow; lia|done]].
      eexists. split; [exact Hwf'|]. intros name'. destruct (decide (name' = name)) as [->|Hn'].
      * rewrite lookup_insert_eq. symmetry. exact Hof.
      * rewrite lookup_insert_ne, Ha by done. symmetry. by apply Hoth.
Qed.

(** A table is removed from the catalog, and from the open tables. *)
Lemma tm_remove t chains cs' c' name :
  tm_wf t chains → (∃ tchain ichain, catalog_wf (cs', c') tchain ichain) →
  tables_ c' = delete name (tables_ (catalog t).2) →
  let t' := mkTables (data_pool t) (cs', c') (delete name (open_tables_ t)) in
  tm_wf t' (delete name chains) ∧
  ∀ name', table_of t' (delete name chains) name' = if decide (name' = name) then None else table_of t chains name'.
Proof.
  intros Hwf Hcat Htab t'. split.
  - split; cbn [catalog data_pool open_tables_ snd t']; rewrite ?Htab; try done; try apply Hwf.
    + intros name'. rewrite !lookup_delete_is_Some. by rewrite (tw_dom _ _ Hwf name').
    + intros name' meta chain [_ Hm]%lookup_delete_Some [_ Hc]%lookup_delete_Some. by apply (tw_table _ _ Hwf name').
    + intros n1 n2 c1 c2 [_ Hc1]%lookup_delete_Some [_ Hc2]%lookup_delete_Some. by apply (tw_disjoint _ _ Hwf).
    + intros name' hf [Hn Ho]%lookup_delete_Some. destruct (tw_open _ _ Hwf _ _ Ho) as (m & c & ? & ? & ? & ?).
      exists m, c. by rewrite !lookup_delete_ne.
  - intros name'. unfold table_of, t'. cbn [catalog data_pool snd]. rewrite Htab. case_decide as Hn; [subst|].
    + by rewrite lookup_delete_eq.
    + by rewrite !lookup_delete_ne.
Qed.

Lemma DropTable_db t a name :
  db_at t a →
  ∃ st t', TableManager.DropTable name t = Some (st, t') ∧
    table_step (TDrop name) a (OStatus st) (delete name a) ∧ db_at t' (delete name a) ∧ tm_grows t t' ∧
    data_pool t' = data_pool t ∧
    indexes_ (catalog t').2 = indexes_ (catalog t).2 ∧ next_index_id_ (catalog t').2 = next_index_id_ (catalog t).2 ∧
    same_first (catalog t).2 (catalog t').2.
Proof.
  intros (chains & Hwf & Ha). destruct (tw_catalog _ _ Hwf) as (tc & ic & Hcat).
  pose proof (db_lookup t a chains name Hwf Ha) as Hl. destruct t as [d [cs c] o]. simpl in *.
  destruct (DropTable_spec cs c tc ic name Hcat) as (cs' & c' & E & (Hcat' & Hcc & _ & _ & Hfirst) & Htab & Hidx & Hnt & Hnidx).
  unfold TableManager.DropTable, bind, on_catalog. simpl. rewrite E.
  assert (∀ o', tm_grows (mkTables d (cs, c) o) (mkTables d (cs', c') o')) as Hgrow.
  { intros o'. split_and!; simpl in *; lia. }
  destruct (a !! name) as [[schema rows]|] eqn:Hname.
  - destruct Hl as (meta & chain & Hm & _). rewrite Hm. simpl.
    destruct (tm_remove (mkTables d (cs, c) o) chains cs' c' name) as [Hwf' Hof]; try done; [by eexists _, _|].
    eexists _, _. split; [reflexivity|]. split; [done|]. split; [|split; [apply Hgrow|done]].
    eexists. split; [exact Hwf'|]. intros name'. etrans; [|symmetry; apply Hof]. case_decide as Hn; [subst|].
    + apply lookup_delete_eq.
    + by rewrite lookup_delete_ne.
  - rewrite Hl. simpl. rewrite delete_id in Htab by done.
    destruct (tm_extend (mkTables d (cs, c) o) chains d cs' c') as [Hwf' Hof]; try done;
      [apply Hwf|by eexists _, _|].
    eexists _, _. split; [reflexivity|]. split; [done|]. split; [|split; [apply Hgrow|done]].
    rewrite delete_id by done. exists chains. split; [done|]. intros name'. by rewrite Hof.
Qed.

(** Only the index part of the catalog changed. *)
Lemma db_at_catalog t a cs' c' :
  db_at t a → (∃ tchain ichain, catalog_wf (cs', c') tchain ichain) → tables_ c' = tables_ (catalog t).2 →
  db_at (mkTables (data_pool t) (cs', c') (open_tables_ t)) a.
Proof.
  intros (chains & Hwf & Ha) Hcat Htab. destruct (tm_extend t chains (data_pool t) cs' c') as [Hwf' Hof]; try done; [apply Hwf|].
  exists chains. split; [done|]. intros name. by rewrite Hof.
Qed.

(** *** Starting *)

Lemma tm_start d cat :
  ps_idle d → (∃ tchain ichain, catalog_wf cat tchain ichain) → tables_ cat.2 = ∅ →
  db_at (mkTables d cat ∅ : TableManager Pool) ∅.
Proof.
  intros Hi Hcat Ht. exists ∅. split; [|intros name; unfold table_of; simpl; by rewrite Ht].
  split; simpl; rewrite ?Ht; try done. intros name. split; by intros [].
Qed.
End steps.

Lemma fold_snoc {A B} (l : list (A * B)) acc : fold_left (λ acc '(a, b), acc ++ [(a, b)]) l acc = acc ++ l.
Proof.
  induction l as [|[x y] l IH] in acc |- *; simpl; [by rewrite app_nil_r|]. by rewrite IH, <- app_assoc.
Qed.

Lemma ListTables_db {Pool} `{PageStoreSpec Pool} (t : TableManager Pool) a order :
  db_at t a → table_op_ok (TList order) t a →
  ∃ names, TableManager.ListTables order t = Some (names, t) ∧ names ≡ₚ (map_to_list a).*1.
Proof.
  intros (chains & Hwf & Ha) [Hnd Hall]. eexists. split; [reflexivity|].
  assert (∀ name, is_Some (tables_ (catalog t).2 !! name) ↔ is_Some (a !! name)) as Hdom.
  { intros name. pose proof (db_lookup t a chains name Hwf Ha) as Hl.
    destruct (a !! name) as [[schema rows]|]; [destruct Hl as (meta & chain & -> & _)|rewrite Hl]; split; intros [? ?]; eauto; done. }
  unfold Catalog.ListTables, in_order. apply NoDup_Permutation; [|apply NoDup_fst_map_to_list|].
  - clear Hall. induction Hnd as [|n order Hn Hnd IH]; [constructor|]. cbn [omap list_omap].
    destruct (tables_ (catalog t).2 !! n); [|done]. cbn [fmap option_fmap option_map list_fmap fst]. constructor; [|done].
    intros ([n' x] & Hn' & Hx)%list_elem_of_fmap. cbn [fst] in Hn'. subst n'.
    apply list_elem_of_omap in Hx as (m & Hm & E).
    destruct (tables_ (catalog t).2 !! m); [|done]. by simplify_eq/=.
  - intros name. rewrite !list_elem_of_fmap. split.
    + intros ([n x] & -> & (m & Hm & E)%list_elem_of_omap). destruct (tables_ (catalog t).2 !! m) eqn:Et; [|done].
      simplify_eq/=. destruct (proj1 (Hdom n)) as [y Hy]; [eauto|]. exists (n, y). split; [done|]. by apply elem_of_map_to_list.
    + intros ([n x] & -> & Hx%elem_of_map_to_list). destruct (proj2 (Hdom n)) as [y Hy]; [eauto|]. exists (n, y).
      split; [done|]. apply list_elem_of_omap. exists n. cbn [fst]. split; [apply Hall; eauto|]. by rewrite Hy.
Qed.

(** C23: the table manager refines a map from names to tables.  On a state that
    represents the database [a] and has room for a page and an id, every
    operation returns, whatever pages and tables are cached or open, with the
    result and the new database that [table_step] prescribes: the effect is on
    the named table alone, inserted rows get record ids that were free, updates
    move a row only to a free id, a scan visits every row once, the listing has
    every table once, and the errors are those of a missing or existing table,
    a row that does not fit the schema, a row that does not fit a page (which
    an update loses), and [NotFound] for a record id at which there is no row.
    A created table has at least one column, and a record id is one of a row of
    the table, of one of its pages or of a page that is not in the file
    ([table_op_ok]). *)
Theorem table_manager_refines {Pool} `{PageStoreSpec Pool} fuel op (t : TableManager Pool) a :
  db_at t a → tm_room fuel t → table_op_ok op t a →
  ∃ o t' a', run_table_op fuel op t = Some (o, t') ∧ table_step op a o a' ∧ db_at t' a' ∧ tm_grows t t'.
Proof.
  intros Hdb Hroom Hok. destruct op as [name schema|name|name values|name rid|name rid values|name rid|name|name|order];
    unfold run_table_op, bind.
  - destruct (CreateTable_db fuel t a name schema Hdb Hroom Hok) as (st & t' & a' & -> & ? & ? & ? & _).
    eexists _, t', a'. split_and!; try done. by exists st.
  - destruct (DropTable_db t a name Hdb) as (st & t' & -> & ? & ? & ? & _). by eexists _, t', _.
  - destruct (InsertRow_db fuel t a name values Hdb Hroom Hok) as (r & t' & a' & -> & ? & ? & Hg).
    apply tm_rows_grows in Hg; [|lia]. by eexists _, t', a'.
  - destruct (GetRow_db t a name rid Hdb Hok) as (r & t' & -> & ? & ? & Hg).
    apply tm_rows_grows in Hg; [|lia]. by eexists _, t', a.
  - destruct (UpdateRow_db fuel t a name rid values Hdb Hroom Hok) as (r & t' & a' & -> & ? & ? & Hg).
    apply tm_rows_grows in Hg; [|lia]. by eexists _, t', a'.
  - destruct (DeleteRow_db t a name rid Hdb Hok) as (r & t' & a' & -> & ? & ? & Hg).
    apply tm_rows_grows in Hg; [|lia]. by eexists _, t', a'.
  - destruct (Scan_db fuel t a name (λ rid values acc, acc ++ [(rid, values)]) [] Hdb Hroom) as (st & l & t' & -> & ? & ? & Hg).
    rewrite fold_snoc.
    apply tm_rows_grows in Hg; [|lia]. by eexists _, t', a.
  - rewrite (GetSchema_db t a name Hdb). eexists _, t, a. split_and!; try done; apply tm_grows_refl.
  - destruct (ListTables_db t a order Hdb Hok) as (names & -> & Hp). exists (ONames names), t, a.
    split; [done|]. split; [split; [done|by eexists]|]. split; [done|apply tm_grows_refl].
Qed.

(** A table manager over two new files, after a table was created. *)
Definition empty_pm : PageManager := PageManager_open None.

Definition sample_tables : option (TableManager BufferPool) :=
  cat ← CatalogManager_new 10 kInvalidPageId kInvalidPageId (BufferPool_new empty_pm 2);
  snd <$> TableManager.CreateTable 10 "t" sample_schema (mkTables (BufferPool_new empty_pm 2) cat ∅).

Lemma sample_tables_at :
  ∃ t, sample_tables = Some t ∧ db_at t {["t" := (sample_schema, ∅)]} ∧
    ps_count (data_pool t) ≤ 2 ∧ ps_count (catalog t).1 ≤ 4 ∧ next_table_id_ (catalog t).2 ≤ 2.
Proof.
  assert (pm_wf empty_pm) as Hpm by (by split; vm_compute).
  assert (ps_idle (BufferPool_new empty_pm 2)) as Hi by (by apply BufferPool_new_idle).
  assert (ps_count (BufferPool_new empty_pm 2) = 1) as Hc by (vm_compute; reflexivity).
  destruct (CatalogManager_create 10 (BufferPool_new empty_pm 2) Hi) as (cs & c & E & Hwf & Hcc & Ht & _ & Hn & _);
    [rewrite Hc; lia|]. rewrite Hc in *.
  destruct (CreateTable_db 10 (mkTables (BufferPool_new empty_pm 2) (cs, c) ∅) ∅ "t" sample_schema) as
    (st & t' & a' & E' & Heff & Hdb & Hg & _).
  - apply tm_start; [done|by eexists _, _|done].
  - split; cbn [data_pool catalog fst snd]; rewrite ?Hc, ?Hcc, ?Hn; lia.
  - split; [done|apply sample_schema_wf].
  - exists t'. unfold sample_tables. rewrite E. cbn [mbind option_bind]. rewrite E'. split; [done|].
    destruct Hg as (? & ? & ?). cbn [data_pool catalog fst snd] in *. rewrite Hc, Hcc, Hn in *.
    unfold create_effect in Heff. rewrite lookup_empty in Heff.
    assert (table_size "t" sample_schema ≤ 100) by (vm_compute; discriminate).
    rewrite !decide_False in Heff by (unfold max_record, kPageSize, kHeaderSize, kSlotSize; lia).
    destruct Heff as [_ ->]. split_and!; [done|lia..].
Qed.

Lemma table_manager_refines_witness :
  ∃ t r t' a', sample_tables = Some t ∧ run_table_op 10 (TInsert "t" sample_row) t = Some (ORid r, t') ∧
    insert_effect sample_schema sample_row ∅ r a' ∧ db_at t' {["t" := (sample_schema, a')]}.
Proof.
  destruct sample_tables_at as (t & E & Hdb & Hd & Hc & Hn).
  destruct (table_manager_refines 10 (TInsert "t" sample_row) t _ Hdb) as (o & t' & a' & Er & Hs & Hdb' & _).
  - split; lia.
  - apply sample_row_wf.
  - simpl in Hs. rewrite lookup_singleton_eq in Hs. destruct Hs as (r & rows' & -> & Heff & ->).
    rewrite insert_singleton_eq in Hdb'. exists t, r, t', rows'. exact (conj E (conj Er (conj Heff Hdb'))).
Defined.
