(* ===== verification/BPlusNode.v ===== *)
(** * Nodes of the B+ tree: src/index/bplus_node.hpp

    A node is a page: a flag, a key count and a link, then either the entries
    of a leaf or the keys and the children of an internal node.  The lemmas at
    the end read a page as the lists it holds. *)

From S2P Require Import Prelude Util.

(** ** Sizes *)

Definition kNodeHeaderSize : Z := 1 + 2 + 4.
Definition kKeySize : Z := 8.
Definition kRidSize : Z := 4 + 2.
Definition kLeafEntrySize : Z := kKeySize + kRidSize.
Definition kChildSize : Z := 4.
Definition kLeafMaxKeys : Z := (kPageSize - kNodeHeaderSize) / kLeafEntrySize.
Definition kInternalMaxKeys : Z := (kPageSize - kNodeHeaderSize - kChildSize) / (kKeySize + kChildSize).

(** ** The header *)

Definition IsLeaf (d : Page) : bool := negb (ReadFixedU 1 d 0 =? 0).
Definition KeyCount (d : Page) : Z := ReadFixedU 2 d 1.
Definition SetKeyCount (d : Page) (n : Z) : Page := WriteFixed 2 d 1 n.
Definition NextLeafId (d : Page) : Z := ReadFixedS 4 d 3.
Definition SetNextLeafId (d : Page) (id : Z) : Page := WriteFixed 4 d 3 id.

Definition InitLeaf (d : Page) (next_leaf_id : Z) : Page :=
  SetNextLeafId (SetKeyCount (WriteFixed 1 d 0 1) 0) next_leaf_id.
Definition InitInternal (d : Page) : Page :=
  SetNextLeafId (SetKeyCount (WriteFixed 1 d 0 0) 0) kInvalidPageId.

(** ** Addresses *)

Definition LeafEntryPtr (i : nat) : Z := kNodeHeaderSize + Z.of_nat i * kLeafEntrySize.
Definition InternalKeysOffset : Z := kNodeHeaderSize.
Definition InternalChildrenOffset : Z := kNodeHeaderSize + kInternalMaxKeys * kKeySize.
Definition InternalKeyPtr (i : nat) : Z := InternalKeysOffset + Z.of_nat i * kKeySize.
Definition InternalChildPtr (i : nat) : Z := InternalChildrenOffset + Z.of_nat i * kChildSize.

(** ** Loops *)

(** [for (std::size_t j = n; j > i; --j) step(j);]. *)
Fixpoint down_loop (step : nat → Page → Page) (i j : nat) (d : Page) : Page :=
  match j with
  | O => d
  | S j' => if (i <? j)%nat then down_loop step i j' (step j d) else d
  end.

(** [for (std::size_t j = i; j < n; ++j) step(j);]. *)
Definition up_loop (step : nat → Page → Page) (i n : nat) (d : Page) : Page :=
  fold_left (λ d j, step j d) (seq i (n - i)) d.

(** ** Leaves *)

Definition LeafKeyAt (d : Page) (i : nat) : Z := ReadFixedS 8 d (LeafEntryPtr i).
Definition LeafRidAt (d : Page) (i : nat) : RecordId :=
  let p := LeafEntryPtr i + kKeySize in mkRid (ReadFixedS 4 d p) (ReadFixedU 2 d (p + 4)).
Definition SetLeafEntry (d : Page) (i : nat) (key : Z) (rid : RecordId) : Page :=
  let p := LeafEntryPtr i in
  let d := WriteFixed 8 d p key in
  let d := WriteFixed 4 d (p + kKeySize) (rid_page_id rid) in
  WriteFixed 2 d (p + kKeySize + 4) (rid_slot_id rid).

Definition InsertLeafEntryAt (d : Page) (i : nat) (key : Z) (rid : RecordId) : Page :=
  let n := KeyCount d in
  let d := down_loop (λ j d, SetLeafEntry d j (LeafKeyAt d (j - 1)) (LeafRidAt d (j - 1))) i (Z.to_nat n) d in
  let d := SetLeafEntry d i key rid in
  SetKeyCount d (u16 (n + 1)).

Definition RemoveLeafEntryAt (d : Page) (i : nat) : Page :=
  let n := KeyCount d in
  let d := up_loop (λ j d, SetLeafEntry d j (LeafKeyAt d (j + 1)) (LeafRidAt d (j + 1))) i (Z.to_nat n - 1) d in
  SetKeyCount d (u16 (n - 1)).

(** ** Internal nodes *)

Definition InternalKeyAt (d : Page) (i : nat) : Z := ReadFixedS 8 d (InternalKeyPtr i).
Definition SetInternalKeyAt (d : Page) (i : nat) (key : Z) : Page := WriteFixed 8 d (InternalKeyPtr i) key.
Definition InternalChildAt (d : Page) (i : nat) : Z := ReadFixedS 4 d (InternalChildPtr i).
Definition SetInternalChildAt (d : Page) (i : nat) (child : Z) : Page :=
  WriteFixed 4 d (InternalChildPtr i) child.

Definition InsertInternalKeyChildAt (d : Page) (key_i : nat) (key right_child : Z) : Page :=
  let n := KeyCount d in
  let d := down_loop (λ j d, SetInternalKeyAt d j (InternalKeyAt d (j - 1))) key_i (Z.to_nat n) d in
  let d := SetInternalKeyAt d key_i key in
  let d := down_loop (λ j d, SetInternalChildAt d j (InternalChildAt d (j - 1))) (key_i + 1) (Z.to_nat n + 1) d in
  let d := SetInternalChildAt d (key_i + 1) right_child in
  SetKeyCount d (u16 (n + 1)).

(** ** Arrays inside a page

    The three tables of a node share their lemmas: an array of [na_cap] slots
    whose accesses do not interfere with the header. *)

Class NodeArray (A : Type) := {
  na_get : Page → nat → A;
  na_set : Page → nat → A → Page;
  na_cap : nat;
  na_valid : A → Prop
}.
#[global] Arguments na_cap _ {_}.

(** What no access to an array touches: the header. *)
Definition same_header (d d' : Page) : Prop :=
  IsLeaf d' = IsLeaf d ∧ KeyCount d' = KeyCount d ∧ NextLeafId d' = NextLeafId d.

#[export] Instance same_header_preorder : PreOrder same_header.
Proof. split; [by intros d|]. unfold same_header. intros d1 d2 d3 (?&?&?) (?&?&?). by split_and!; etrans. Qed.

Class NodeArrayLaws (A : Type) `{NodeArray A} : Prop := {
  na_get_valid : ∀ d i, na_valid (na_get d i);
  na_set_wf : ∀ d i v, page_wf d → (i < na_cap A)%nat → page_wf (na_set d i v);
  na_set_header : ∀ d i v, page_wf d → (i < na_cap A)%nat → same_header d (na_set d i v);
  na_get_set : ∀ d i v j, page_wf d → (i < na_cap A)%nat → (j < na_cap A)%nat → na_valid v →
    na_get (na_set d i v) j = if decide (j = i) then v else na_get d j
}.

(** The first [n] slots. *)
Definition na_list {A} `{NodeArray A} (d : Page) (n : nat) : list A := na_get d <$> seq 0 n.

(** Inserting into and removing from a list by position. *)
Definition insert_at {A} (i : nat) (x : A) (l : list A) : list A := take i l ++ x :: drop i l.
Definition remove_at {A} (i : nat) (l : list A) : list A := take i l ++ drop (S i) l.

Section arrays.
Context {A : Type} `{NodeArrayLaws A}.
Implicit Types d : Page.

Lemma length_na_list d n : length (na_list d n) = n.
Proof. unfold na_list. by rewrite length_fmap, length_seq. Qed.

Lemma lookup_na_list d n j : (j < n)%nat → na_list d n !! j = Some (na_get d j).
Proof.
  intros ?. unfold na_list. rewrite list_lookup_fmap, lookup_seq_lt by done. done.
Qed.

Lemma na_list_S d n : na_list d (S n) = na_list d n ++ [na_get d n].
Proof. unfold na_list. by rewrite seq_S, fmap_app. Qed.

Lemma na_list_ext d d' n : (∀ j, (j < n)%nat → na_get d' j = na_get d j) → na_list d' n = na_list d n.
Proof.
  intros E. apply list_eq. intros j. destruct (decide (j < n)%nat).
  - rewrite !lookup_na_list by done. by rewrite E.
  - rewrite !lookup_ge_None_2; rewrite ?length_na_list; (done || lia).
Qed.

Lemma na_list_eq d n (l : list A) :
  length l = n → (∀ j x, l !! j = Some x → na_get d j = x) → na_list d n = l.
Proof.
  intros Hl E. apply list_eq. intros j. destruct (decide (j < n)%nat) as [Hj|Hj].
  - rewrite lookup_na_list by done. rewrite <- Hl in Hj. destruct (lookup_lt_is_Some_2 _ _ Hj) as [x Hx].
    rewrite Hx. by rewrite (E _ _ Hx).
  - rewrite !lookup_ge_None_2; rewrite ?length_na_list; (done || lia).
Qed.

Lemma na_list_take d n k : (k ≤ n)%nat → take k (na_list d n) = na_list d k.
Proof.
  intros ?. symmetry. apply na_list_eq; [rewrite length_take, length_na_list; lia|].
  intros j x Hx. assert (j < k)%nat.
  { apply lookup_lt_Some in Hx. rewrite length_take in Hx. lia. }
  rewrite lookup_take_lt, lookup_na_list in Hx by lia. by simplify_eq.
Qed.

Lemma na_list_valid d n : Forall na_valid (na_list d n).
Proof. apply Forall_forall. intros x (j & -> & _)%list_elem_of_fmap. apply na_get_valid. Qed.

(** A store into a slot. *)
Lemma na_list_set d n i v :
  page_wf d → (i < n)%nat → (n ≤ na_cap A)%nat → na_valid v →
  na_list (na_set d i v) n = <[i := v]> (na_list d n).
Proof.
  intros ? ? ? ?. apply na_list_eq; [by rewrite length_insert, length_na_list|].
  intros j x Hx. assert (j < n)%nat.
  { apply lookup_lt_Some in Hx. by rewrite length_insert, length_na_list in Hx. }
  rewrite na_get_set by (done || lia). case_decide as Hj.
  - subst j. rewrite list_lookup_insert_eq in Hx by (by rewrite length_na_list). by simplify_eq.
  - rewrite list_lookup_insert_ne, lookup_na_list in Hx by done. by simplify_eq.
Qed.

(** Shifting [i..n) one to the right. *)
Lemma down_loop_spec i n d :
  page_wf d → (n < na_cap A)%nat →
  let d' := down_loop (λ j d, na_set d j (na_get d (j - 1))) i n d in
  page_wf d' ∧ same_header d d' ∧
  (∀ j, (j ≤ i)%nat → na_get d' j = na_get d j) ∧
  (∀ j, (i ≤ j < n)%nat → na_get d' (S j) = na_get d j) ∧
  (∀ j, (n < j < na_cap A)%nat → na_get d' j = na_get d j).
Proof.
  induction n as [|n IH] in d |- *; intros Hwf Hn; cbn [down_loop].
  { split_and!; try done. lia. }
  destruct (Nat.ltb_spec i (S n)) as [Hi|Hi]; [|split_and!; try done; lia].
  rewrite Nat.sub_1_r, Nat.pred_succ. set (d1 := na_set d (S n) (na_get d n)).
  assert (page_wf d1) as Hwf1 by (by apply na_set_wf).
  assert (∀ j, (j < na_cap A)%nat → j ≠ S n → na_get d1 j = na_get d j) as Hold.
  { intros j ? ?. unfold d1. rewrite na_get_set by (done || lia || apply na_get_valid). by rewrite decide_False. }
  destruct (IH d1 Hwf1) as (Hw & Hh & Hlo & Hmid & Hhi); [lia|]. split_and!.
  - done.
  - etrans; [by apply na_set_header|done].
  - intros j Hj. rewrite Hlo by done. apply Hold; lia.
  - intros j Hj. destruct (decide (j = n)) as [->|Hne].
    + rewrite Hhi by lia. unfold d1. rewrite na_get_set by (done || lia || apply na_get_valid).
      by rewrite decide_True.
    + rewrite Hmid by lia. apply Hold; lia.
  - intros j Hj. rewrite Hhi by lia. apply Hold; lia.
Qed.

(** Shifting, then storing: an insertion. *)
Lemma na_insert i n d v :
  page_wf d → (n < na_cap A)%nat → (i ≤ n)%nat → na_valid v →
  let d' := na_set (down_loop (λ j d, na_set d j (na_get d (j - 1))) i n d) i v in
  page_wf d' ∧ same_header d d' ∧ na_list d' (S n) = insert_at i v (na_list d n).
Proof.
  intros Hwf Hn Hi Hv d'. destruct (down_loop_spec i n d Hwf Hn) as (Hw & Hh & Hlo & Hmid & _).
  split_and!.
  - apply na_set_wf; [done|lia].
  - etrans; [done|]. apply na_set_header; [done|lia].
  - apply na_list_eq.
    { unfold insert_at. rewrite length_app, length_take. simpl. rewrite length_drop, length_na_list. lia. }
    unfold insert_at. intros j x Hx. assert (j < S n)%nat as Hj.
    { apply lookup_lt_Some in Hx. rewrite length_app, length_take in Hx. simpl in Hx.
      rewrite length_drop, length_na_list in Hx. lia. }
    unfold d'. rewrite na_get_set by (done || lia). case_decide as Hji.
    + subst j. rewrite list_lookup_middle in Hx by (rewrite length_take, length_na_list; lia). by simplify_eq.
    + destruct (decide (j < i)%nat).
      * rewrite lookup_app_l in Hx by (rewrite length_take, length_na_list; lia).
        rewrite lookup_take_lt, lookup_na_list in Hx by lia. simplify_eq. apply Hlo. lia.
      * destruct j as [|j]; [lia|]. rewrite Hmid by lia.
        rewrite lookup_app_r, length_take, length_na_list, Nat.min_l in Hx
          by (rewrite ?length_take, ?length_na_list; lia).
        replace (S j - i)%nat with (S (j - i)) in Hx by lia. simpl in Hx.
        rewrite lookup_drop, lookup_na_list in Hx by lia. simplify_eq. f_equal. lia.
Qed.

(** Copying slot [f j] of one page to slot [j] of another, for [j < n]. *)
Lemma up_loop_copy d0 mid n d :
  page_wf d → (n ≤ na_cap A)%nat →
  let d' := up_loop (λ j d, na_set d j (na_get d0 (mid + j))) 0 n d in
  page_wf d' ∧ same_header d d' ∧
  (∀ j, (j < n)%nat → na_get d' j = na_get d0 (mid + j)).
Proof.
  unfold up_loop. rewrite Nat.sub_0_r.
  induction n as [|n IH]; intros Hwf Hn; [split_and!; try done; lia|].
  rewrite seq_S, fold_left_app. cbn [fold_left]. destruct IH as (Hw & Hh & Hg); [done|lia|]. split_and!.
  - by apply na_set_wf.
  - etrans; [done|]. by apply na_set_header.
  - intros j Hj. rewrite na_get_set by (done || lia || apply na_get_valid).
    case_decide as E; [by subst|]. apply Hg. lia.
Qed.

(** Shifting [i+1..n) one to the left: a removal. *)
Lemma up_loop_remove i n d :
  page_wf d → (n ≤ na_cap A)%nat → (i < n)%nat →
  let d' := up_loop (λ j d, na_set d j (na_get d (j + 1))) i (n - 1) d in
  page_wf d' ∧ same_header d d' ∧ na_list d' (n - 1) = remove_at i (na_list d n).
Proof.
  intros Hwf Hn Hi d'.
  assert (∀ k, (i + k ≤ n - 1)%nat →
    let d' := up_loop (λ j d, na_set d j (na_get d (j + 1))) i (i + k) d in
    page_wf d' ∧ same_header d d' ∧
    (∀ j, (j < na_cap A)%nat → na_get d' j = na_get d (if decide (i ≤ j < i + k)%nat then j + 1 else j))) as Hk.
  { unfold up_loop. intros k. replace (i + k - i)%nat with k by lia. induction k as [|k IH]; intros Hk.
    { split_and!; try done. intros j ?. by rewrite decide_False by lia. }
    rewrite seq_S, fold_left_app. cbn [fold_left]. destruct IH as (Hw & Hh & Hg); [lia|]. split_and!.
    - apply na_set_wf; [done|lia].
    - etrans; [done|]. apply na_set_header; [done|lia].
    - intros j Hj. rewrite na_get_set by (done || lia || apply na_get_valid). case_decide as E.
      + subst j. rewrite Hg by lia. rewrite decide_False by lia. by rewrite decide_True by lia.
      + rewrite Hg by done. destruct (decide (i ≤ j < i + k)%nat).
        * by rewrite decide_True by lia.
        * by rewrite decide_False by lia. }
  specialize (Hk (n - 1 - i)%nat ltac:(lia)). replace (i + (n - 1 - i))%nat with (n - 1)%nat in Hk by lia.
  destruct Hk as (Hw & Hh & Hg). split_and!; [done..|]. apply na_list_eq.
  { unfold remove_at. rewrite length_app, length_take, length_drop, length_na_list. lia. }
  unfold remove_at. intros j x Hx. assert (j < n - 1)%nat.
  { apply lookup_lt_Some in Hx. rewrite length_app, length_take, length_drop, length_na_list in Hx. lia. }
  unfold d'. rewrite Hg by lia. destruct (decide (j < i)%nat).
  - rewrite decide_False by lia. rewrite lookup_app_l in Hx by (rewrite length_take, length_na_list; lia).
    rewrite lookup_take_lt, lookup_na_list in Hx by lia. by simplify_eq.
  - rewrite decide_True by lia.
    rewrite lookup_app_r, length_take, length_na_list, Nat.min_l in Hx
      by (rewrite ?length_take, ?length_na_list; lia).
    rewrite lookup_drop, lookup_na_list in Hx by lia. simplify_eq. f_equal. lia.
Qed.
End arrays.

(** ** The three tables *)

Abbreviation Entry := (Z * RecordId)%type.

Definition entry_valid (e : Entry) : Prop :=
  in_i64 e.1 ∧ in_i32 (rid_page_id e.2) ∧ in_u16 (rid_slot_id e.2).

#[export] Instance leaf_array : NodeArray Entry := {|
  na_get d i := (LeafKeyAt d i, LeafRidAt d i);
  na_set d i e := SetLeafEntry d i e.1 e.2;
  na_cap := Z.to_nat kLeafMaxKeys;
  na_valid := entry_valid
|}.

(** Keys and children are both integers, so these are passed explicitly. *)
Definition key_array : NodeArray Z := {|
  na_get := InternalKeyAt; na_set := SetInternalKeyAt; na_cap := Z.to_nat kInternalMaxKeys; na_valid := in_i64
|}.
Definition child_array : NodeArray Z := {|
  na_get := InternalChildAt; na_set := SetInternalChildAt; na_cap := S (Z.to_nat kInternalMaxKeys);
  na_valid := in_i32
|}.

Lemma kLeafMaxKeys_eq : kLeafMaxKeys = 292.
Proof. reflexivity. Qed.
Lemma kInternalMaxKeys_eq : kInternalMaxKeys = 340.
Proof. reflexivity. Qed.

Lemma sword_range w z : 0 < w → - 2 ^ (w - 1) ≤ sword w z < 2 ^ (w - 1).
Proof.
  intros ?. unfold sword. assert (2 ^ w = 2 * 2 ^ (w - 1)).
  { rewrite <- Z.pow_succ_r by lia. f_equal. lia. }
  pose proof (Z.mod_pos_bound (z + 2 ^ (w - 1)) (2 ^ w) ltac:(lia)). lia.
Qed.

Lemma ReadFixedS8_range d off : in_i64 (ReadFixedS 8 d off).
Proof. apply (sword_range 64). lia. Qed.
Lemma ReadFixedS4_range d off : in_i32 (ReadFixedS 4 d off).
Proof. apply (sword_range 32). lia. Qed.

(** Offsets in terms of numbers. *)
Ltac offsets :=
  unfold LeafEntryPtr, InternalKeyPtr, InternalChildPtr, InternalKeysOffset, InternalChildrenOffset,
    kLeafEntrySize, kKeySize, kRidSize, kChildSize, kNodeHeaderSize, page_wf, kPageSize in *;
  rewrite ?kLeafMaxKeys_eq, ?kInternalMaxKeys_eq in *;
  change (Z.to_nat 292) with 292%nat in *; change (Z.to_nat 340) with 340%nat in *.
Ltac in_page := repeat apply page_wf_WriteFixed; try done; offsets; blia.

Lemma same_header_write sz d off v :
  page_wf d → in_bounds kPageSize off (Z.of_nat sz) → 7 ≤ off → same_header d (WriteFixed sz d off v).
Proof.
  intros Hd Hb Ho. unfold same_header, IsLeaf, KeyCount, NextLeafId, page_wf in *.
  rewrite !ReadU_WriteFixed_ne, ReadS_WriteFixed_ne by (rewrite ?Hd; blia). done.
Qed.

#[export] Instance leaf_array_laws : NodeArrayLaws Entry.
Proof.
  assert (∀ d i v, page_wf d → (i < na_cap Entry)%nat →
    page_wf (WriteFixed 8 d (LeafEntryPtr i) v)) as Hw8 by (intros; simpl in *; in_page).
  assert (∀ d i v, page_wf d → (i < na_cap Entry)%nat →
    page_wf (WriteFixed 4 d (LeafEntryPtr i + kKeySize) v)) as Hw4 by (intros; simpl in *; in_page).
  split.
  - intros d i. split_and!; simpl; [apply ReadFixedS8_range|apply ReadFixedS4_range|apply (ReadFixedU_range 2)].
  - intros d i v Hd Hi. simpl in *. unfold SetLeafEntry. in_page.
  - intros d i v Hd Hi. simpl. unfold SetLeafEntry.
    etrans; [etrans|]; apply same_header_write; auto; simpl in *; offsets; blia.
  - intros d i [k r] j Hd Hi Hj (Hk & Hp & Hs). simpl in Hk, Hp, Hs |- *.
    pose proof (Hw8 d i k Hd Hi) as H1. pose proof (Hw4 _ i (rid_page_id r) H1 Hi) as H2.
    simpl in Hi, Hj. unfold LeafKeyAt, LeafRidAt, SetLeafEntry.
    set (d1 := WriteFixed 8 d _ k) in *. set (d2 := WriteFixed 4 d1 _ _) in *.
    destruct (decide (j = i)) as [->|Hne].
    + rewrite ReadS_WriteFixed_ne by (offsets; rewrite ?H2; blia).
      unfold d2 at 1. rewrite ReadS_WriteFixed_ne by (offsets; rewrite ?H1; blia).
      unfold d1 at 1. rewrite ReadS_WriteFixed_eq by (offsets; rewrite ?Hd; blia).
      rewrite ReadS_WriteFixed_ne by (offsets; rewrite ?H2; blia).
      unfold d2 at 1. rewrite ReadS_WriteFixed_eq by (offsets; rewrite ?H1; blia).
      rewrite ReadU_WriteFixed_eq by (offsets; rewrite ?H2; blia).
      rewrite Z.mod_small by blia. by destruct r.
    + rewrite !(ReadS_WriteFixed_ne 2), ReadU_WriteFixed_ne by (offsets; rewrite ?H2; blia).
      unfold d2. rewrite !(ReadS_WriteFixed_ne 4), ReadU_WriteFixed_ne by (offsets; rewrite ?H1; blia).
      unfold d1. rewrite !(ReadS_WriteFixed_ne 8), ReadU_WriteFixed_ne by (offsets; rewrite ?Hd; blia).
      done.
Qed.

Lemma key_array_laws : @NodeArrayLaws Z key_array.
Proof.
  split; simpl.
  - intros d i. apply ReadFixedS8_range.
  - intros d i v Hd Hi. unfold SetInternalKeyAt. in_page.
  - intros d i v Hd Hi. apply same_header_write; [done|offsets; blia..].
  - intros d i v j Hd Hi Hj Hv. unfold InternalKeyAt, SetInternalKeyAt. case_decide as E.
    + subst j. apply ReadS_WriteFixed_eq; [lia| |blia]. offsets. rewrite Hd. blia.
    + apply ReadS_WriteFixed_ne; offsets; rewrite ?Hd; blia.
Qed.

Lemma child_array_laws : @NodeArrayLaws Z child_array.
Proof.
  split; simpl.
  - intros d i. apply ReadFixedS4_range.
  - intros d i v Hd Hi. unfold SetInternalChildAt. in_page.
  - intros d i v Hd Hi. apply same_header_write; [done|offsets; blia..].
  - intros d i v j Hd Hi Hj Hv. unfold InternalChildAt, SetInternalChildAt. case_decide as E.
    + subst j. apply ReadS_WriteFixed_eq; [lia| |blia]. offsets. rewrite Hd. blia.
    + apply ReadS_WriteFixed_ne; offsets; rewrite ?Hd; blia.
Qed.

(** ** Pages as lists *)

Definition leaf_entries (d : Page) : list Entry := na_list d (Z.to_nat (KeyCount d)).
Definition internal_keys (d : Page) : list Z := @na_list Z key_array d (Z.to_nat (KeyCount d)).
Definition internal_children (d : Page) : list Z := @na_list Z child_array d (S (Z.to_nat (KeyCount d))).

(** The page of a leaf with entries [es] and link [next]. *)
Record leaf_page (d : Page) (next : Z) (es : list Entry) : Prop := {
  lp_wf : page_wf d;
  lp_leaf : IsLeaf d = true;
  lp_next : NextLeafId d = next;
  lp_count : KeyCount d = Z.of_nat (length es);
  lp_cap : Z.of_nat (length es) ≤ kLeafMaxKeys;
  lp_entries : leaf_entries d = es
}.

(** The page of an internal node with [keys] and [children]. *)
Record node_page (d : Page) (keys children : list Z) : Prop := {
  np_wf : page_wf d;
  np_internal : IsLeaf d = false;
  np_count : KeyCount d = Z.of_nat (length keys);
  np_cap : Z.of_nat (length keys) ≤ kInternalMaxKeys;
  np_keys : internal_keys d = keys;
  np_children : internal_children d = children
}.

Lemma leaf_page_at d next es i k r :
  leaf_page d next es → es !! i = Some (k, r) → LeafKeyAt d i = k ∧ LeafRidAt d i = r.
Proof.
  intros [_ _ _ Hc _ He] Hi. pose proof (lookup_lt_Some _ _ _ Hi).
  rewrite <- He in Hi. unfold leaf_entries in Hi. rewrite lookup_na_list in Hi by lia. by simplify_eq/=.
Qed.

Lemma node_page_length d keys children : node_page d keys children → length children = S (length keys).
Proof. intros H. rewrite <- (np_children _ _ _ H). unfold internal_children. rewrite length_na_list, (np_count _ _ _ H). lia. Qed.

Lemma node_page_key d keys children i k : node_page d keys children → keys !! i = Some k → InternalKeyAt d i = k.
Proof.
  intros H Hi. pose proof (lookup_lt_Some _ _ _ Hi). rewrite <- (np_keys _ _ _ H) in Hi.
  unfold internal_keys in Hi. rewrite (np_count _ _ _ H), lookup_na_list in Hi by lia. by simplify_eq/=.
Qed.

Lemma node_page_child d keys children i c :
  node_page d keys children → children !! i = Some c → InternalChildAt d i = c.
Proof.
  intros H Hi. pose proof (lookup_lt_Some _ _ _ Hi) as Hl. rewrite (node_page_length _ _ _ H) in Hl.
  rewrite <- (np_children _ _ _ H) in Hi.
  unfold internal_children in Hi. rewrite (np_count _ _ _ H), lookup_na_list in Hi by lia. by simplify_eq/=.
Qed.

Lemma leaf_page_valid d next es : leaf_page d next es → Forall entry_valid es.
Proof. intros H. rewrite <- (lp_entries _ _ _ H). exact (na_list_valid (A := Entry) _ _). Qed.

Lemma node_page_keys_valid d keys children : node_page d keys children → Forall in_i64 keys.
Proof. intros H. rewrite <- (np_keys _ _ _ H). exact (@na_list_valid Z key_array key_array_laws _ _). Qed.

Lemma node_page_children_valid d keys children : node_page d keys children → Forall in_i32 children.
Proof. intros H. rewrite <- (np_children _ _ _ H). exact (@na_list_valid Z child_array child_array_laws _ _). Qed.

(** *** Header fields *)

Lemma header_count d n :
  page_wf d → in_u16 n →
  page_wf (SetKeyCount d n) ∧ IsLeaf (SetKeyCount d n) = IsLeaf d ∧ KeyCount (SetKeyCount d n) = n ∧
  NextLeafId (SetKeyCount d n) = NextLeafId d.
Proof.
  intros Hd Hn. unfold SetKeyCount, IsLeaf, KeyCount, NextLeafId. split_and!.
  - in_page.
  - rewrite ReadU_WriteFixed_ne by (offsets; rewrite ?Hd; blia). done.
  - rewrite ReadU_WriteFixed_eq by (offsets; rewrite ?Hd; blia). apply Z.mod_small. blia.
  - rewrite ReadS_WriteFixed_ne by (offsets; rewrite ?Hd; blia). done.
Qed.

Lemma header_next d x :
  page_wf d → in_i32 x →
  page_wf (SetNextLeafId d x) ∧ IsLeaf (SetNextLeafId d x) = IsLeaf d ∧
  KeyCount (SetNextLeafId d x) = KeyCount d ∧ NextLeafId (SetNextLeafId d x) = x.
Proof.
  intros Hd Hn. unfold SetNextLeafId, IsLeaf, KeyCount, NextLeafId. split_and!.
  - in_page.
  - rewrite ReadU_WriteFixed_ne by (offsets; rewrite ?Hd; blia). done.
  - rewrite ReadU_WriteFixed_ne by (offsets; rewrite ?Hd; blia). done.
  - apply ReadS_WriteFixed_eq; [lia|offsets; rewrite ?Hd; blia|blia].
Qed.

Lemma header_flag d (b : Z) :
  page_wf d → 0 ≤ b < 256 →
  page_wf (WriteFixed 1 d 0 b) ∧ IsLeaf (WriteFixed 1 d 0 b) = negb (b =? 0).
Proof.
  intros Hd Hb. unfold IsLeaf. split; [in_page|].
  rewrite ReadU_WriteFixed_eq by (offsets; rewrite ?Hd; blia). by rewrite Z.mod_small by lia.
Qed.

(** Header fields lie before every table. *)
Lemma header_outside sz d off v j :
  page_wf d → in_bounds 7 off (Z.of_nat sz) →
  (na_get (A := Entry) (WriteFixed sz d off v) j = na_get d j) ∧
  (InternalKeyAt (WriteFixed sz d off v) j = InternalKeyAt d j) ∧
  (InternalChildAt (WriteFixed sz d off v) j = InternalChildAt d j).
Proof.
  intros Hd Hb. simpl. unfold LeafKeyAt, LeafRidAt, InternalKeyAt, InternalChildAt. split_and!.
  - rewrite !ReadS_WriteFixed_ne, ReadU_WriteFixed_ne by (offsets; rewrite ?Hd; blia). done.
  - apply ReadS_WriteFixed_ne; offsets; rewrite ?Hd; blia.
  - apply ReadS_WriteFixed_ne; offsets; rewrite ?Hd; blia.
Qed.

Lemma na_list_header sz d off v n :
  page_wf d → in_bounds 7 off (Z.of_nat sz) →
  na_list (A := Entry) (WriteFixed sz d off v) n = na_list d n ∧
  @na_list Z key_array (WriteFixed sz d off v) n = @na_list Z key_array d n ∧
  @na_list Z child_array (WriteFixed sz d off v) n = @na_list Z child_array d n.
Proof.
  intros Hd Hb. split_and!.
  - apply (na_list_ext (A := Entry)). intros j _. by apply header_outside.
  - apply (@na_list_ext Z key_array). intros j _. by apply header_outside.
  - apply (@na_list_ext Z child_array). intros j _. by apply header_outside.
Qed.

(** *** Leaves *)

(** A page whose header and entries are known is a leaf page. *)
Lemma leaf_page_intro d0 d n next es :
  page_wf d → same_header d0 d → IsLeaf d0 = true → NextLeafId d0 = next → na_list d (length es) = es →
  Z.of_nat (length es) ≤ kLeafMaxKeys → n = Z.of_nat (length es) → leaf_page (SetKeyCount d n) next es.
Proof.
  intros Hd (Hs1 & Hs2 & Hs3) Hl Hn He Hc ->. rewrite kLeafMaxKeys_eq in Hc.
  destruct (header_count d (Z.of_nat (length es))) as (Hw & Hl' & Hk & Hx); [done|blia|].
  split; try done; try congruence.
  unfold leaf_entries. rewrite Hk, Nat2Z.id. unfold SetKeyCount.
  rewrite (proj1 (na_list_header 2 d 1 _ _ Hd ltac:(blia))). done.
Qed.

Lemma InitLeaf_spec d next : page_wf d → in_i32 next → leaf_page (InitLeaf d next) next [].
Proof.
  intros Hd Hn. unfold InitLeaf.
  destruct (header_flag d 1) as [H1 L1]; [done|lia|].
  destruct (header_count _ 0 H1) as (H2 & L2 & K2 & _); [blia|].
  destruct (header_next _ next H2 Hn) as (H3 & L3 & K3 & N3).
  split; try done; unfold leaf_entries; by rewrite ?L3, ?L2, ?L1, ?K3, ?K2.
Qed.

Lemma SetNextLeafId_spec d next es x :
  leaf_page d next es → in_i32 x → leaf_page (SetNextLeafId d x) x es.
Proof.
  intros [Hd Hl Hn Hk Hc He] Hx. destruct (header_next d x Hd Hx) as (H3 & L3 & K3 & N3).
  split; try done; try congruence.
  unfold leaf_entries in *. rewrite K3. unfold SetNextLeafId.
  by rewrite (proj1 (na_list_header 4 d 3 _ _ Hd ltac:(blia))).
Qed.

Lemma leaf_page_list d next es : leaf_page d next es → na_list d (length es) = es.
Proof. intros H. rewrite <- (lp_entries _ _ _ H) at 2. unfold leaf_entries. by rewrite (lp_count _ _ _ H), Nat2Z.id. Qed.

Lemma InsertLeafEntryAt_spec d next es i k r :
  leaf_page d next es → (i ≤ length es)%nat → Z.of_nat (length es) < kLeafMaxKeys → entry_valid (k, r) →
  leaf_page (InsertLeafEntryAt d i k r) next (insert_at i (k, r) es).
Proof.
  intros H Hi Hc Hv. pose proof (leaf_page_list _ _ _ H) as El. destruct H as [Hd Hl Hn Hk _ _].
  assert (length (insert_at i (k, r) es) = S (length es)) as Hlen.
  { unfold insert_at. rewrite length_app, length_take. simpl. rewrite length_drop. lia. }
  unfold InsertLeafEntryAt. rewrite Hk, Nat2Z.id.
  destruct (na_insert (A := Entry) i (length es) d (k, r)) as (Hw & Hh & E); try done.
  { simpl. lia. }
  rewrite El in E. rewrite u16_small by (rewrite kLeafMaxKeys_eq in Hc; blia).
  apply (leaf_page_intro d); rewrite ?Hlen; (done || lia).
Qed.

Lemma RemoveLeafEntryAt_spec d next es i :
  leaf_page d next es → (i < length es)%nat → leaf_page (RemoveLeafEntryAt d i) next (remove_at i es).
Proof.
  intros H Hi. pose proof (leaf_page_list _ _ _ H) as El. destruct H as [Hd Hl Hn Hk Hc _].
  assert (length (remove_at i es) = (length es - 1)%nat) as Hlen.
  { unfold remove_at. rewrite length_app, length_take, length_drop. lia. }
  unfold RemoveLeafEntryAt. rewrite Hk, Nat2Z.id.
  destruct (up_loop_remove (A := Entry) i (length es) d) as (Hw & Hh & E); try done.
  { simpl. lia. }
  rewrite El in E. rewrite u16_small by (rewrite kLeafMaxKeys_eq in Hc; blia).
  apply (leaf_page_intro d); rewrite ?Hlen; (done || lia).
Qed.

Lemma leaf_truncate d next es m :
  leaf_page d next es → (m ≤ length es)%nat → leaf_page (SetKeyCount d (u16 (Z.of_nat m))) next (take m es).
Proof.
  intros H Hm. pose proof (leaf_page_list _ _ _ H) as El. destruct H as [Hd Hl Hn Hk Hc _].
  assert (length (take m es) = m) as Hlen by (rewrite length_take; lia).
  rewrite u16_small by (rewrite kLeafMaxKeys_eq in Hc; blia).
  apply (leaf_page_intro d); rewrite ?Hlen; try done; try lia.
  rewrite <- (na_list_take d (length es)) by done. by rewrite El.
Qed.

Lemma leaf_copy d0 next0 es mid d next :
  leaf_page d0 next0 es → leaf_page d next [] → (mid ≤ length es)%nat →
  let n := (length es - mid)%nat in
  leaf_page
    (SetKeyCount (up_loop (λ j d, SetLeafEntry d j (LeafKeyAt d0 (mid + j)) (LeafRidAt d0 (mid + j))) 0 n d)
       (u16 (Z.of_nat n))) next (drop mid es).
Proof.
  intros H0 [Hd Hl Hn _ _ _] Hm n. pose proof (lp_cap _ _ _ H0) as Hc.
  assert (length (drop mid es) = n) as Hlen by (by rewrite length_drop).
  rewrite u16_small by (rewrite kLeafMaxKeys_eq in Hc; blia).
  destruct (up_loop_copy (A := Entry) d0 mid n d) as (Hw & Hh & E); try done.
  { simpl. lia. }
  apply (leaf_page_intro d); rewrite ?Hlen; try done; try lia.
  apply na_list_eq; [by rewrite Hlen|]. intros j [k r] Hj.
  pose proof (lookup_lt_Some _ _ _ Hj). rewrite E by lia. rewrite lookup_drop in Hj. simpl.
  destruct (leaf_page_at _ _ _ _ _ _ H0 Hj) as [-> ->]. done.
Qed.

(** *** Internal nodes *)

Lemma down_loop_ind (P : Page → Prop) step i n d :
  (∀ j d, (j ≤ n)%nat → P d → P (step j d)) → P d → P (down_loop step i n d).
Proof.
  intros Hs. induction n as [|n IH] in d, Hs |- *; intros Hd; cbn [down_loop]; [done|].
  destruct (i <? S n)%nat; [|done]. apply IH; [intros; apply Hs; (done || lia)|]. by apply Hs.
Qed.

Lemma up_loop_ind (P : Page → Prop) step n d :
  (∀ j d, (j < n)%nat → P d → P (step j d)) → P d → P (up_loop step 0 n d).
Proof.
  unfold up_loop. rewrite Nat.sub_0_r. intros Hs Hd. induction n as [|n IH]; [done|].
  rewrite seq_S, fold_left_app. cbn [fold_left]. apply Hs; [lia|]. apply IH. intros. apply Hs; (done || lia).
Qed.

(** Same keys, same children. *)
Definition same_keys (d d' : Page) : Prop :=
  page_wf d' ∧ ∀ j, (j < Z.to_nat kInternalMaxKeys)%nat → InternalKeyAt d' j = InternalKeyAt d j.
Definition same_children (d d' : Page) : Prop :=
  page_wf d' ∧ ∀ j, (j ≤ Z.to_nat kInternalMaxKeys)%nat → InternalChildAt d' j = InternalChildAt d j.

Lemma same_children_set d d' i v :
  (i < Z.to_nat kInternalMaxKeys)%nat → same_children d d' → same_children d (SetInternalKeyAt d' i v).
Proof.
  intros Hi [Hd He]. split; [by apply (@na_set_wf Z key_array key_array_laws)|]. intros j Hj.
  rewrite <- He by done. unfold InternalChildAt, SetInternalKeyAt.
  apply ReadS_WriteFixed_ne; offsets; rewrite ?Hd; blia.
Qed.

Lemma same_keys_set d d' i v :
  (i ≤ Z.to_nat kInternalMaxKeys)%nat → same_keys d d' → same_keys d (SetInternalChildAt d' i v).
Proof.
  intros Hi [Hd He]. split; [apply (@na_set_wf Z child_array child_array_laws); simpl; [done|lia]|].
  intros j Hj. rewrite <- He by done. unfold InternalKeyAt, SetInternalChildAt.
  apply ReadS_WriteFixed_ne; offsets; rewrite ?Hd; blia.
Qed.

Lemma same_keys_list d d' n :
  same_keys d d' → (n ≤ Z.to_nat kInternalMaxKeys)%nat → @na_list Z key_array d' n = @na_list Z key_array d n.
Proof. intros [_ He] Hn. apply (@na_list_ext Z key_array). intros j ?. apply He. lia. Qed.

Lemma same_children_list d d' n :
  same_children d d' → (n ≤ S (Z.to_nat kInternalMaxKeys))%nat →
  @na_list Z child_array d' n = @na_list Z child_array d n.
Proof. intros [_ He] Hn. apply (@na_list_ext Z child_array). intros j ?. apply He. lia. Qed.

Lemma node_page_intro d0 d n keys children :
  page_wf d → same_header d0 d → IsLeaf d0 = false → @na_list Z key_array d (length keys) = keys →
  @na_list Z child_array d (S (length keys)) = children →
  Z.of_nat (length keys) ≤ kInternalMaxKeys → n = Z.of_nat (length keys) →
  node_page (SetKeyCount d n) keys children.
Proof.
  intros Hd (Hs1 & _ & _) Hl Ek Ec Hc ->. rewrite kInternalMaxKeys_eq in Hc.
  destruct (header_count d (Z.of_nat (length keys))) as (Hw & Hl' & Hk & Hx); [done|blia|].
  destruct (na_list_header 2 d 1 (Z.of_nat (length keys)) (length keys) Hd ltac:(blia)) as (_ & E1 & _).
  destruct (na_list_header 2 d 1 (Z.of_nat (length keys)) (S (length keys)) Hd ltac:(blia)) as (_ & _ & E2).
  split; try done; try congruence.
  - unfold internal_keys. rewrite Hk, Nat2Z.id. unfold SetKeyCount. by rewrite E1.
  - unfold internal_children. rewrite Hk, Nat2Z.id. unfold SetKeyCount. by rewrite E2.
Qed.

Lemma node_page_lists d keys children :
  node_page d keys children →
  @na_list Z key_array d (length keys) = keys ∧ @na_list Z child_array d (S (length keys)) = children.
Proof.
  intros H. rewrite <- (np_keys _ _ _ H) at 2. rewrite <- (np_children _ _ _ H).
  unfold internal_keys, internal_children. by rewrite (np_count _ _ _ H), Nat2Z.id.
Qed.

Lemma length_insert_at {A} i (x : A) l : (i ≤ length l)%nat → length (insert_at i x l) = S (length l).
Proof. intros ?. unfold insert_at. rewrite length_app, length_take. simpl. rewrite length_drop. lia. Qed.

Lemma InsertInternalKeyChildAt_spec d keys children i k c :
  node_page d keys children → (i ≤ length keys)%nat → Z.of_nat (length keys) < kInternalMaxKeys →
  in_i64 k → in_i32 c →
  node_page (InsertInternalKeyChildAt d i k c) (insert_at i k keys) (insert_at (S i) c children).
Proof.
  intros H Hi Hc Hk Hch. destruct (node_page_lists _ _ _ H) as [Ek Ec]. destruct H as [Hd Hl Hn _ _ _].
  unfold InsertInternalKeyChildAt. rewrite Hn, Nat2Z.id. set (n := length keys) in *.
  set (d1 := SetInternalKeyAt _ i k).
  destruct (@na_insert Z key_array key_array_laws i n d k) as (Hw1 & Hh1 & E1); try done; [simpl; lia|].
  change (na_set _ _ _) with d1 in Hw1, Hh1, E1.
  assert (same_children d d1) as Hsc.
  { unfold d1. apply same_children_set; [lia|]. apply down_loop_ind; [|done].
    intros j d' Hj Hd'. apply same_children_set; [lia|done]. }
  set (d2 := SetInternalChildAt _ (i + 1) c).
  destruct (@na_insert Z child_array child_array_laws (i + 1) (n + 1) d1 c) as (Hw2 & Hh2 & E2); try done; [simpl; lia|lia|].
  change (na_set _ _ _) with d2 in Hw2, Hh2, E2.
  assert (same_keys d1 d2) as Hsk.
  { unfold d2. apply same_keys_set; [lia|]. apply down_loop_ind; [|done].
    intros j d' Hj Hd'. apply same_keys_set; [lia|done]. }
  rewrite u16_small by (rewrite kInternalMaxKeys_eq in Hc; blia).
  assert (length (insert_at i k keys) = S n) as Hlen by (by apply length_insert_at).
  apply (node_page_intro d); rewrite ?Hlen; try done.
  - by etrans.
  - rewrite (same_keys_list d1) by (done || lia). by rewrite E1, Ek.
  - replace (S (S n)) with (S (n + 1)) by lia. rewrite E2, (same_children_list d) by (done || lia).
    replace (n + 1)%nat with (S n) by lia. rewrite Ec. f_equal. lia.
  - lia.
  - lia.
Qed.

(** Keeping the first [m] keys. *)
Lemma node_truncate d keys children m :
  node_page d keys children → (m ≤ length keys)%nat →
  node_page (SetKeyCount d (u16 (Z.of_nat m))) (take m keys) (take (S m) children).
Proof.
  intros H Hm. destruct (node_page_lists _ _ _ H) as [Ek Ec]. destruct H as [Hd Hl Hn Hc _ _].
  assert (length (take m keys) = m) as Hlen by (rewrite length_take; lia).
  rewrite u16_small by (rewrite kInternalMaxKeys_eq in Hc; blia).
  apply (node_page_intro d); rewrite ?Hlen; try done; try lia.
  - rewrite <- (@na_list_take Z key_array d (length keys)) by done. by rewrite Ek.
  - rewrite <- (@na_list_take Z child_array d (S (length keys))) by lia. by rewrite Ec.
Qed.

(** Copying the keys after [mid] and the children right of them. *)
Lemma node_copy d0 keys children mid d :
  node_page d0 keys children → page_wf d → IsLeaf d = false → (mid < length keys)%nat →
  let n := (length keys - mid - 1)%nat in
  let d1 := up_loop (λ j d, SetInternalKeyAt d j (InternalKeyAt d0 (mid + 1 + j))) 0 n d in
  let d2 := up_loop (λ j d, SetInternalChildAt d j (InternalChildAt d0 (mid + 1 + j))) 0 (n + 1) d1 in
  node_page (SetKeyCount d2 (u16 (Z.of_nat n))) (drop (S mid) keys) (drop (S mid) children).
Proof.
  intros H Hd Hl Hm n d1 d2. pose proof (np_cap _ _ _ H) as Hc. pose proof (node_page_length _ _ _ H) as Hlc.
  assert (length (drop (S mid) keys) = n) as Hlen by (rewrite length_drop; unfold n; lia).
  destruct (@up_loop_copy Z key_array key_array_laws d0 (mid + 1) n d) as (Hw1 & Hh1 & E1);
    [done|simpl; unfold n; lia|]. change (up_loop _ _ _ _) with d1 in Hw1, Hh1, E1.
  destruct (@up_loop_copy Z child_array child_array_laws d0 (mid + 1) (n + 1) d1) as (Hw2 & Hh2 & E2);
    [done|simpl; unfold n; lia|]. change (up_loop _ _ _ _) with d2 in Hw2, Hh2, E2.
  assert (same_keys d1 d2) as Hsk.
  { unfold d2. apply (up_loop_ind (same_keys d1)); [|by split]. intros j d' Hj Hd'. apply same_keys_set; [unfold n in *; lia|done]. }
  rewrite u16_small by (rewrite kInternalMaxKeys_eq in Hc; unfold n; blia).
  apply (node_page_intro d); rewrite ?Hlen; try done; try (unfold n; lia).
  - by etrans.
  - rewrite (same_keys_list d1) by (done || unfold n; lia).
    apply (@na_list_eq Z key_array); [done|]. intros j x Hx. pose proof (lookup_lt_Some _ _ _ Hx).
    rewrite E1 by lia. rewrite lookup_drop in Hx. rewrite Nat.add_1_r. by apply (node_page_key _ _ _ _ _ H).
  - apply (@na_list_eq Z child_array); [rewrite length_drop; unfold n; lia|].
    intros j x Hx. pose proof (lookup_lt_Some _ _ _ Hx) as Hj. rewrite length_drop in Hj.
    rewrite E2 by (unfold n; lia). rewrite lookup_drop in Hx. rewrite Nat.add_1_r.
    by apply (node_page_child _ _ _ _ _ H).
Qed.

Lemma InitInternal_spec d :
  page_wf d → page_wf (InitInternal d) ∧ IsLeaf (InitInternal d) = false ∧ KeyCount (InitInternal d) = 0.
Proof.
  intros Hd. unfold InitInternal.
  destruct (header_flag d 0) as [H1 L1]; [done|lia|].
  destruct (header_count _ 0 H1) as (H2 & L2 & K2 & _); [blia|].
  destruct (header_next _ kInvalidPageId H2 ltac:(done)) as (H3 & L3 & K3 & N3).
  split_and!; [done|by rewrite L3, L2, L1|congruence].
Qed.

(** The new root of [Insert]: no key, one child. *)
Lemma new_root_spec d root :
  page_wf d → in_i32 root → node_page (SetInternalChildAt (InitInternal d) 0 root) [] [root].
Proof.
  intros Hd Hr. destruct (InitInternal_spec d Hd) as (Hw & Hl & Hk).
  assert (0 < @na_cap Z child_array)%nat as H0 by (simpl; lia).
  destruct (@na_set_header Z child_array child_array_laws _ 0 root Hw H0) as (Hh1 & Hh2 & _).
  cbn in Hh1, Hh2. rewrite Hl in Hh1. rewrite Hk in Hh2.
  split; unfold internal_keys, internal_children; rewrite ?Hh1, ?Hh2; try done.
  - by apply (@na_set_wf Z child_array child_array_laws).
  - unfold na_list. cbn [Z.to_nat seq fmap list_fmap].
    rewrite (@na_get_set Z child_array child_array_laws _ 0 root 0) by done. by rewrite decide_True.
Qed.
