(* ===== verification/BPlusTree.v ===== *)
(** * The B+ tree: src/index/bplus_tree.hpp, bplus_tree.cpp

    The operations of the index over the page store interface.  A [BPlusTree]
    object is its pool and the page id of its meta page, which holds the id of
    the root.  A null [Page*] is undefined behaviour; the loops that descend
    and that walk the leaves carry fuel, for which the number of pages in the
    store is enough ([BPlusTreeSpec]). *)

From S2P Require Import Prelude Util PageStore BPlusNode.

(** [while (i < n && p(i)) ++i;] with [rem = n - i]. *)
Fixpoint index_while (p : nat → bool) (i rem : nat) : nat :=
  match rem with
  | O => i
  | S rem' => if p i then index_while p (S i) rem' else i
  end.

Definition key_count (d : Page) : nat := Z.to_nat (KeyCount d).

Definition FindChildIndex (node : Page) (key : Z) : nat :=
  index_while (λ i, InternalKeyAt node i <=? key) 0 (key_count node).

(** The expression that tests a node for room. *)
Definition node_full (d : Page) : bool :=
  if IsLeaf d then KeyCount d >=? kLeafMaxKeys else KeyCount d >=? kInternalMaxKeys.

(** The search of [SplitChild] for a position near [mid] where the key
    changes; [mid] itself when every key is the same. *)
Fixpoint boundary_loop (fuel : nat) (child : Page) (n left right mid : nat) : option nat :=
  match fuel with
  | O => None
  | S fuel' =>
      if (1 <? left)%nat || (right <? n)%nat then
        if (right <? n)%nat && negb (LeafKeyAt child right =? LeafKeyAt child (right - 1)) then Some right
        else if (1 <? left)%nat && negb (LeafKeyAt child (left - 1) =? LeafKeyAt child (left - 2)) then
          Some (left - 1)%nat
        else
          boundary_loop fuel' child n
            (if (1 <? left)%nat then left - 1 else left)%nat (if (right <? n)%nat then right + 1 else right)%nat mid
      else Some mid
  end.

(** One leaf of [SearchEqual]: the matches from [i] on, and [exceeded]. *)
Fixpoint search_entries (leaf : Page) (key : Z) (i rem : nat) (results : list RecordId) : list RecordId * bool :=
  match rem with
  | O => (results, false)
  | S rem' =>
      let k := LeafKeyAt leaf i in
      if k =? key then search_entries leaf key (S i) rem' (results ++ [LeafRidAt leaf i])
      else if k >? key then (results, true)
      else search_entries leaf key (S i) rem' results
  end.

(** One leaf of [Delete]: the position to remove, or [exceeded]. *)
Fixpoint delete_entries (leaf : Page) (key : Z) (rid : RecordId) (i rem : nat) : nat + bool :=
  match rem with
  | O => inr false
  | S rem' =>
      let k := LeafKeyAt leaf i in
      if k >? key then inr true
      else if (k =? key) && bool_decide (LeafRidAt leaf i = rid) then inl i
      else delete_entries leaf key rid (S i) rem'
  end.

(** The bounds of [RangeScan]. *)
Definition below_low (low : option Z) (low_inclusive : bool) (k : Z) : bool :=
  match low with Some l => (k <? l) || (negb low_inclusive && (k =? l)) | None => false end.
Definition above_high (high : option Z) (high_inclusive : bool) (k : Z) : bool :=
  match high with Some h => (k >? h) || (negb high_inclusive && (k =? h)) | None => false end.

(** One leaf of [RangeScan], and [stop]. *)
Fixpoint range_entries (leaf : Page) (skip stop : Z → bool) (i rem : nat) (results : list Entry) :
    list Entry * bool :=
  match rem with
  | O => (results, false)
  | S rem' =>
      let k := LeafKeyAt leaf i in
      if skip k then range_entries leaf skip stop (S i) rem' results
      else if stop k then (results, true)
      else range_entries leaf skip stop (S i) rem' (results ++ [(k, LeafRidAt leaf i)])
  end.

Section bplus_tree.
Context {Pool : Type} `{PageStore Pool}.

(** ** Pages *)

(** [FetchPage], the pointer being used at once. *)
Definition fetch (p : Z) : M Pool nat :=
  let! page := lift (ps_fetch p) in
  match page with Some f => ret f | None => undefined_behaviour end.
Definition new_page : M Pool (Z * nat) :=
  let! page := lift ps_new in
  match page with Some r => ret r | None => undefined_behaviour end.
Definition unpin (p : Z) (is_dirty : bool) : M Pool bool := lift (ps_unpin p is_dirty).
Definition data_of (f : nat) : M Pool Page := gets (ps_get f).
Definition set_data (f : nat) (d : Page) : M Pool unit := modify (ps_set f d).

(** ** The meta page *)

(** The constructor: the id of the meta page. *)
Definition BPlusTree_new (meta_page_id : Z) : M Pool Z :=
  if meta_page_id =? kInvalidPageId then
    let! meta := new_page in
    let! root := new_page in
    let! d := data_of root.2 in
    do! set_data root.2 (InitLeaf d kInvalidPageId) in
    do! unpin root.1 true in
    let! d := data_of meta.2 in
    do! set_data meta.2 (WriteFixed 4 d 0 root.1) in
    do! unpin meta.1 true in
    ret meta.1
  else ret meta_page_id.

Definition GetRootPageId (meta_page_id : Z) : M Pool Z :=
  let! meta := fetch meta_page_id in
  let! d := data_of meta in
  do! unpin meta_page_id false in
  ret (ReadFixedS 4 d 0).

Definition SetRootPageId (meta_page_id new_root : Z) : M Pool unit :=
  let! meta := fetch meta_page_id in
  let! d := data_of meta in
  do! set_data meta (WriteFixed 4 d 0 new_root) in
  do! unpin meta_page_id true in
  ret tt.

(** ** Descent *)

Fixpoint find_leaf_loop (fuel : nat) (key current : Z) : M Pool Z :=
  match fuel with
  | O => undefined_behaviour
  | S fuel' =>
      let! page := fetch current in
      let! view := data_of page in
      if IsLeaf view then do! unpin current false in ret current
      else
        let child := InternalChildAt view (FindChildIndex view key) in
        do! unpin current false in
        find_leaf_loop fuel' key child
  end.

Definition FindLeafForKey (fuel : nat) (meta_page_id key : Z) : M Pool Z :=
  let! root := GetRootPageId meta_page_id in
  find_leaf_loop fuel key root.

(** The descent of [RangeScan] without a lower bound. *)
Fixpoint leftmost_loop (fuel : nat) (current : Z) : M Pool Z :=
  match fuel with
  | O => undefined_behaviour
  | S fuel' =>
      let! page := fetch current in
      let! view := data_of page in
      if IsLeaf view then do! unpin current false in ret current
      else
        let child := InternalChildAt view 0 in
        do! unpin current false in
        leftmost_loop fuel' child
  end.

(** ** Splitting *)

(** The two branches of [SplitChild]; they give the separator. *)
Definition split_leaf (child new_right : nat) (new_right_id : Z) : M Pool Z :=
  let! c := data_of child in
  let! r := data_of new_right in
  do! set_data new_right (InitLeaf r (NextLeafId c)) in
  do! set_data child (SetNextLeafId c new_right_id) in
  let! c := data_of child in
  let n := key_count c in
  match boundary_loop (S n) c n (n / 2) (n / 2) (n / 2) with
  | None => undefined_behaviour
  | Some mid =>
      let right_count := (n - mid)%nat in
      let! r := data_of new_right in
      let r := up_loop (λ j r, SetLeafEntry r j (LeafKeyAt c (mid + j)) (LeafRidAt c (mid + j))) 0 right_count r in
      do! set_data new_right (SetKeyCount r (u16 (Z.of_nat right_count))) in
      do! set_data child (SetKeyCount c (u16 (Z.of_nat mid))) in
      let! r := data_of new_right in
      ret (LeafKeyAt r 0)
  end.

Definition split_internal (child new_right : nat) : M Pool Z :=
  let! r := data_of new_right in
  do! set_data new_right (InitInternal r) in
  let! c := data_of child in
  let n := key_count c in
  let mid := (n / 2)%nat in
  let separator := InternalKeyAt c mid in
  let right_count := (n - mid - 1)%nat in
  let! r := data_of new_right in
  let r := up_loop (λ j r, SetInternalKeyAt r j (InternalKeyAt c (mid + 1 + j))) 0 right_count r in
  let r := up_loop (λ j r, SetInternalChildAt r j (InternalChildAt c (mid + 1 + j))) 0 (right_count + 1) r in
  do! set_data new_right (SetKeyCount r (u16 (Z.of_nat right_count))) in
  do! set_data child (SetKeyCount c (u16 (Z.of_nat mid))) in
  ret separator.

Definition SplitChild (parent_id : Z) (child_index : nat) : M Pool Z :=
  let! parent := fetch parent_id in
  let! p := data_of parent in
  let child_id := InternalChildAt p child_index in
  let! child := fetch child_id in
  let! new_right := new_page in
  let! c := data_of child in
  let! separator :=
    (if IsLeaf c then split_leaf child new_right.2 new_right.1 else split_internal child new_right.2) in
  let! p := data_of parent in
  do! set_data parent (InsertInternalKeyChildAt p child_index separator new_right.1) in
  do! unpin child_id true in
  do! unpin new_right.1 true in
  do! unpin parent_id true in
  ret new_right.1.

(** ** Insertion *)

Fixpoint InsertNonFull (fuel : nat) (node_id key : Z) (rid : RecordId) : M Pool unit :=
  match fuel with
  | O => undefined_behaviour
  | S fuel' =>
      let! page := fetch node_id in
      let! node := data_of page in
      if IsLeaf node then
        let i := index_while (λ i, LeafKeyAt node i <? key) 0 (key_count node) in
        do! set_data page (InsertLeafEntryAt node i key rid) in
        do! unpin node_id true in
        ret tt
      else
        let idx := FindChildIndex node key in
        let child_id := InternalChildAt node idx in
        do! unpin node_id false in
        let! child_page := fetch child_id in
        let! child := data_of child_page in
        do! unpin child_id false in
        let! child_id :=
          (if node_full child then
             do! SplitChild node_id idx in
             let! parent_page2 := fetch node_id in
             let! parent2 := data_of parent_page2 in
             do! unpin node_id false in
             ret (InternalChildAt parent2 (FindChildIndex parent2 key))
           else ret child_id) in
        InsertNonFull fuel' child_id key rid
  end.

(** A new root over the two halves of the full one. *)
Definition split_root (meta_page_id root_id : Z) : M Pool Z :=
  let! new_root := new_page in
  let! d := data_of new_root.2 in
  do! set_data new_root.2 (SetInternalChildAt (InitInternal d) 0 root_id) in
  do! unpin new_root.1 true in
  do! SplitChild new_root.1 0 in
  do! SetRootPageId meta_page_id new_root.1 in
  ret new_root.1.

Definition Insert (fuel : nat) (meta_page_id key : Z) (rid : RecordId) : M Pool Status :=
  let! root_id := GetRootPageId meta_page_id in
  let! root_page := fetch root_id in
  let! root := data_of root_page in
  do! unpin root_id false in
  let! root_id :=
    (if node_full root then split_root meta_page_id root_id else ret root_id) in
  do! InsertNonFull fuel root_id key rid in
  ret Status_OK.

(** ** Deletion *)

Fixpoint delete_loop (fuel : nat) (key : Z) (rid : RecordId) (leaf_id : Z) : M Pool Status :=
  if leaf_id =? kInvalidPageId then ret (NotFound "index entry not found for given key/RecordId")
  else
    match fuel with
    | O => undefined_behaviour
    | S fuel' =>
        let! page := fetch leaf_id in
        let! leaf := data_of page in
        match delete_entries leaf key rid 0 (key_count leaf) with
        | inl i =>
            do! set_data page (RemoveLeafEntryAt leaf i) in
            do! unpin leaf_id true in
            ret Status_OK
        | inr exceeded =>
            do! unpin leaf_id false in
            if exceeded : bool then ret (NotFound "index entry not found for given key/RecordId")
            else delete_loop fuel' key rid (NextLeafId leaf)
        end
    end.

Definition Delete (fuel : nat) (meta_page_id key : Z) (rid : RecordId) : M Pool Status :=
  let! leaf_id := FindLeafForKey fuel meta_page_id key in
  delete_loop fuel key rid leaf_id.

(** ** Search *)

Fixpoint search_loop (fuel : nat) (key : Z) (first : bool) (leaf_id : Z) (results : list RecordId) :
    M Pool (list RecordId) :=
  if leaf_id =? kInvalidPageId then ret results
  else
    match fuel with
    | O => undefined_behaviour
    | S fuel' =>
        let! page := fetch leaf_id in
        let! leaf := data_of page in
        let n := key_count leaf in
        let i := if first then index_while (λ i, LeafKeyAt leaf i <? key) 0 n else 0%nat in
        let '(results, exceeded) := search_entries leaf key i (n - i) results in
        do! unpin leaf_id false in
        if exceeded : bool then ret results else search_loop fuel' key false (NextLeafId leaf) results
    end.

Definition SearchEqual (fuel : nat) (meta_page_id key : Z) : M Pool (Result (list RecordId)) :=
  let! leaf_id := FindLeafForKey fuel meta_page_id key in
  let! results := search_loop fuel key true leaf_id [] in
  ret (Ok results).

Fixpoint range_loop (fuel : nat) (skip stop : Z → bool) (leaf_id : Z) (results : list Entry) :
    M Pool (list Entry) :=
  if leaf_id =? kInvalidPageId then ret results
  else
    match fuel with
    | O => undefined_behaviour
    | S fuel' =>
        let! page := fetch leaf_id in
        let! leaf := data_of page in
        let '(results, stopped) := range_entries leaf skip stop 0 (key_count leaf) results in
        do! unpin leaf_id false in
        if stopped : bool then ret results else range_loop fuel' skip stop (NextLeafId leaf) results
    end.

Definition RangeScan (fuel : nat) (meta_page_id : Z) (low : option Z) (low_inclusive : bool)
    (high : option Z) (high_inclusive : bool) : M Pool (Result (list Entry)) :=
  let! leaf_id :=
    (match low with
     | Some l => FindLeafForKey fuel meta_page_id l
     | None => let! root := GetRootPageId meta_page_id in leftmost_loop fuel root
     end) in
  let! results := range_loop fuel (below_low low low_inclusive) (above_high high high_inclusive) leaf_id [] in
  ret (Ok results).
End bplus_tree.
