(* ===== verification/BPlusTreeSpec.v ===== *)
(** * The B+ tree's invariant

    [tree_at] relates the pages of a store to the entries they index: a
    balanced tree whose separators bound the keys below them, its leaves linked
    from left to right.  The lemmas take a tree apart along the path of a key
    and put it together again after a page was replaced or a child split. *)

From stdpp Require Import sorting.
From S2P Require Import Prelude Util PageStore BPlusNode BPlusTree.

Lemma fst_unique {A B} (l : list (A * B)) a b b' : NoDup l.*1 → (a, b) ∈ l → (a, b') ∈ l → b = b'.
Proof.
  induction l as [|[x y] l IH]; [by intros _ ?%elem_of_nil|]. cbn. intros [Hx Hl]%NoDup_cons.
  assert (∀ y, (x, y) ∉ l) as Hn by (intros z Hz; apply Hx, list_elem_of_fmap; by exists (x, z)).
  intros [?|H1]%elem_of_cons [?|H2]%elem_of_cons; simplify_eq; (done || by destruct (Hn _ H1) || by destruct (Hn _ H2) || auto).
Qed.

(** ** Several pages pinned at once *)

Section held.
Context {Pool : Type} `{PageStoreSpec Pool}.
Implicit Types (s : Pool) (l : list (Z * nat)).

(** The pages of [l] are pinned once, each in the frame given; no other is. *)
Record ps_held s l : Prop := {
  held_wf : ps_wf s;
  held_nodup : NoDup l.*1;
  held_at : ∀ p f, (p, f) ∈ l → ps_at s p f;
  held_pin : ∀ p, ps_pin s p = if decide (p ∈ l.*1) then 1 else 0
}.

Lemma idle_held s : ps_idle s → ps_held s [].
Proof.
  intros [Hwf Hp _]. split; [done|constructor|by intros ?? ?%elem_of_nil|].
  intros p. rewrite Hp. by rewrite decide_False by set_solver.
Qed.

Lemma held_idle s : ps_held s [] → 0 < ps_avail s → ps_idle s.
Proof.
  intros [Hwf _ _ Hp] Ha. split; [done| |done]. intros p. rewrite Hp. by rewrite decide_False by set_solver.
Qed.

Lemma held_elem (l : list (Z * nat)) p f : (p, f) ∈ l → p ∈ l.*1.
Proof. intros. apply list_elem_of_fmap. by exists (p, f). Qed.

Lemma held_get s l p f :
  ps_held s l → (p, f) ∈ l → ps_get f s = ps_view s p ∧ 1 ≤ p < ps_count s.
Proof.
  intros [Hwf _ Hat _] Hin. destruct (ps_at_get s p f Hwf (Hat _ _ Hin)) as (? & _ & ?). done.
Qed.

Lemma held_fetch s l p :
  ps_held s l → p ∉ l.*1 → 1 ≤ p < ps_count s → 0 < ps_avail s →
  ∃ f s', ps_fetch p s = (Some f, s') ∧ ps_held s' ((p, f) :: l) ∧ ps_avail s' = ps_avail s - 1 ∧ ps_eqv s s'.
Proof.
  intros [Hwf Hnd Hat Hpin] Hp Hr Ha.
  assert (ps_pin s p = 0) as Hp0 by (rewrite Hpin; by rewrite decide_False).
  destruct (ps_fetch_ok s p Hwf Hr) as (f & s' & E & Hwf' & Hfr & Hc & Hv & Hpp & Hat' & _ & Ha'); [lia|by right|].
  exists f, s'. rewrite decide_True in Ha' by done. split_and!; [done| |done|].
  - split; [done|by constructor| |].
    + intros q g [?|Hq]%elem_of_cons; [by simplify_eq|].
      apply (psf_at _ _ _ Hfr); [|by apply Hat]. intros ->. by apply Hp, (held_elem l p g).
    + intros q. cbn [fmap list_fmap fst]. destruct (decide (q = p)) as [->|Hne].
      * rewrite decide_True by set_solver. lia.
      * rewrite (psf_pin _ _ _ Hfr), Hpin by done. by apply decide_ext; set_solver.
  - split; [done|]. intros q Hq. destruct (decide (q = p)) as [->|Hne]; [done|].
    by apply (psf_view _ _ _ Hfr).
Qed.

Lemma held_new s l :
  ps_held s l → ps_count s < 2 ^ 31 - 1 → 0 < ps_avail s →
  ∃ f s', ps_new s = (Some (ps_count s, f), s') ∧ ps_held s' ((ps_count s, f) :: l) ∧
    ps_avail s' = ps_avail s - 1 ∧ ps_count s' = ps_count s + 1 ∧ ps_view s' (ps_count s) = blank_page ∧
    (∀ q, 1 ≤ q < ps_count s → ps_view s' q = ps_view s q).
Proof.
  intros [Hwf Hnd Hat Hpin] Hc Ha.
  destruct (ps_new_ok s Hwf Hc Ha) as (f & s' & E & Hwf' & Hfr & Hc' & Hv & Hp & Hat' & _ & Ha').
  assert (ps_count s ∉ l.*1) as Hni.
  { intros (x & Hx & Hin)%list_elem_of_fmap. destruct x as [q g]. simpl in Hx. subst q.
    destruct (ps_at_get s _ g Hwf (Hat _ _ Hin)). lia. }
  exists f, s'. split_and!; try done.
  - split; [done|by constructor| |].
    + intros q g [?|Hq]%elem_of_cons; [by simplify_eq|].
      apply (psf_at _ _ _ Hfr); [|by apply Hat]. intros ->. by apply Hni, (held_elem l _ g).
    + intros q. cbn [fmap list_fmap fst]. destruct (decide (q = ps_count s)) as [->|Hne].
      * rewrite decide_True by set_solver. done.
      * rewrite (psf_pin _ _ _ Hfr), Hpin by done. by apply decide_ext; set_solver.
  - intros q Hq. apply (psf_view _ _ _ Hfr); lia.
Qed.

Lemma held_set s l p f pg :
  ps_held s l → (p, f) ∈ l → page_wf pg →
  ps_held (ps_set f pg s) l ∧ ps_avail (ps_set f pg s) = ps_avail s ∧ ps_upd s p pg (ps_set f pg s).
Proof.
  intros [Hwf Hnd Hat Hpin] Hin Hpg.
  destruct (ps_set_ok s p f pg Hwf (Hat _ _ Hin) Hpg) as (Hwf' & Hfr & Hc & Hv & Hp & Hat' & Ha).
  split_and!; [|done|].
  - split; [done|done| |].
    + intros q g Hq. destruct (decide (q = p)) as [->|Hne]; [|by apply (psf_at _ _ _ Hfr); [|apply Hat]].
      by assert (g = f) as -> by (by eapply (fst_unique l)).
    + intros q. destruct (decide (q = p)) as [->|Hne]; [by rewrite Hp|].
      by rewrite (psf_pin _ _ _ Hfr).
  - split_and!; [done..|]. apply (psf_view _ _ _ Hfr).
Qed.

Lemma held_unpin s l1 l2 p f :
  ps_held s (l1 ++ (p, f) :: l2) →
  ∃ s', ps_unpin p true s = (true, s') ∧ ps_held s' (l1 ++ l2) ∧ ps_avail s' = ps_avail s + 1 ∧ ps_eqv s s'.
Proof.
  intros [Hwf Hnd Hat Hpin]. rewrite fmap_app, fmap_cons in Hnd. cbn [fst] in Hnd.
  assert ((p ∉ (l1 ++ l2).*1) ∧ NoDup ((l1 ++ l2).*1)) as [Hni Hnd'].
  { rewrite fmap_app. apply NoDup_app in Hnd as (Hl1 & Hd & [Hl2 Hl3]%NoDup_cons). split.
    - rewrite elem_of_app. intros [?|?]; [|done]. eapply Hd; [done|left].
    - apply NoDup_app. split_and!; [done| |done]. intros q Hq ?. eapply Hd; [done|by right]. }
  assert (ps_pin s p = 1) as Hp1.
  { rewrite Hpin, decide_True; [done|]. rewrite fmap_app, fmap_cons. set_solver. }
  destruct (ps_unpin_ok s p f true Hwf) as (s' & E & Hwf' & Hfr & Hc & Hv & Hp & _ & _ & Ha);
    [apply Hat; set_solver|by left|].
  rewrite decide_True in Ha by done. exists s'. split_and!; [done| |done|].
  - split; [done|done| |].
    + intros q g Hq. assert (q ≠ p). { intros ->. by apply Hni, (held_elem _ p g). }
      apply (psf_at _ _ _ Hfr); [done|]. apply Hat. set_solver.
    + intros q. destruct (decide (q = p)) as [->|Hne]; [rewrite decide_False by done; lia|].
      rewrite (psf_pin _ _ _ Hfr), Hpin by done. apply decide_ext. rewrite !fmap_app, fmap_cons. set_solver.
  - split; [done|]. intros q Hq. destruct (decide (q = p)) as [->|Hne]; [done|]. by apply (psf_view _ _ _ Hfr).
Qed.
End held.

(** ** Keys in order *)

Definition key_le (e1 e2 : Entry) : Prop := e1.1 ≤ e2.1.
Abbreviation entries_sorted := (StronglySorted key_le).

Definition in_range (lo hi : option Z) (k : Z) : Prop :=
  match lo with Some l => l ≤ k | None => True end ∧ match hi with Some h => k < h | None => True end.

(** A separator lies strictly between the bounds. *)
Definition between (lo hi : option Z) (k : Z) : Prop :=
  match lo with Some l => l < k | None => True end ∧ match hi with Some h => k < h | None => True end.

Lemma in_range_weaken lo hi sep k :
  between lo hi sep → in_range lo (Some sep) k ∨ in_range (Some sep) hi k → in_range lo hi k.
Proof. unfold in_range, between. destruct lo, hi; intros [??] [[??]|[??]]; split; try done; lia. Qed.

(** The length of the longest prefix that satisfies [p]. *)
Fixpoint prefix_len {A} (p : A → bool) (l : list A) : nat :=
  match l with [] => 0 | x :: l' => if p x then S (prefix_len p l') else 0 end.

(** The child that [FindChildIndex] selects. *)
Abbreviation child_index keys key := (prefix_len (λ k, k <=? key) keys).

Lemma prefix_len_le {A} (p : A → bool) l : (prefix_len p l ≤ length l)%nat.
Proof. induction l as [|x l IH]; simpl; [lia|]. destruct (p x); lia. Qed.

Lemma index_while_prefix {A} (p : nat → bool) (q : A → bool) (l : list A) i :
  (∀ j x, l !! j = Some x → p (i + j)%nat = q x) → index_while p i (length l) = (i + prefix_len q l)%nat.
Proof.
  induction l as [|x l IH] in i |- *; intros Hp; simpl; [lia|].
  pose proof (Hp 0%nat x eq_refl) as H0. rewrite Nat.add_0_r in H0. rewrite H0. destruct (q x); [|lia].
  rewrite IH; [lia|]. intros j y Hj. rewrite <- (Hp (S j) y Hj). f_equal. lia.
Qed.

(** On sorted entries a prefix is a filter. *)
Lemma prefix_filter (es : list Entry) key :
  entries_sorted es → let i := prefix_len (λ e, e.1 <? key) es in
  take i es = filter (λ e, e.1 < key) es ∧ drop i es = filter (λ e, key ≤ e.1) es.
Proof.
  induction 1 as [|e es Hs IH Hf]; [done|]. cbn [prefix_len]. destruct (e.1 <? key) eqn:E; zbool.
  - destruct IH as [IH1 IH2]. rewrite !filter_cons, decide_True, decide_False by lia. cbn [take drop].
    by rewrite IH1, IH2.
  - assert (Forall (λ e', key ≤ e'.1) es) as Hall.
    { eapply Forall_impl; [done|]. intros e' He. unfold key_le in He. simpl in He. lia. }
    rewrite !filter_cons, decide_False, decide_True by lia. cbn [take drop]. split.
    + symmetry. apply filter_none. eapply Forall_impl; [done|]. simpl. lia.
    + f_equal. symmetry. by apply filter_all.
Qed.

Lemma sorted_app (es1 es2 : list Entry) :
  entries_sorted es1 → entries_sorted es2 → (∀ e1 e2, e1 ∈ es1 → e2 ∈ es2 → key_le e1 e2) →
  entries_sorted (es1 ++ es2).
Proof.
  intros Hs1 Hs2 Hle. induction Hs1 as [|e es Hs IH Hf]; [done|]. cbn [app]. constructor.
  - apply IH. intros. apply Hle; [by right|done].
  - apply Forall_app. split; [done|]. apply Forall_forall. intros e2 He. apply Hle; [left|done].
Qed.

Lemma sorted_app_inv (es1 es2 : list Entry) :
  entries_sorted (es1 ++ es2) →
  entries_sorted es1 ∧ entries_sorted es2 ∧ (∀ e1 e2, e1 ∈ es1 → e2 ∈ es2 → key_le e1 e2).
Proof.
  induction es1 as [|e es IH]; cbn [app].
  { intros Hs. split_and!; [constructor|done|]. by intros ?? ?%elem_of_nil. }
  intros [Hs Hf]%StronglySorted_inv. destruct (IH Hs) as (H1 & H2 & H3).
  apply Forall_app in Hf as [Hf1 Hf2]. split_and!; [by constructor|done|].
  intros e1 e2 [->|He]%elem_of_cons He2; [|by apply H3]. rewrite Forall_forall in Hf2. by apply Hf2.
Qed.

Lemma sorted_lookup (es : list Entry) i j e1 e2 :
  entries_sorted es → (i ≤ j)%nat → es !! i = Some e1 → es !! j = Some e2 → e1.1 ≤ e2.1.
Proof.
  intros Hs. induction Hs as [|e es Hs IH Hf] in i, j |- *; [done|]. intros Hij E1 E2.
  destruct i as [|i], j as [|j]; simplify_eq/=; [done| |lia|by apply (IH i j); [lia|..]].
  rewrite Forall_forall in Hf. apply (Hf e2). by eapply list_elem_of_lookup_2.
Qed.

(** A sorted list cut where the key changes. *)
Lemma sorted_cut (es : list Entry) mid sep kp :
  entries_sorted es → (0 < mid)%nat → es !! mid = Some sep → es !! (mid - 1)%nat = Some kp → sep.1 ≠ kp.1 →
  Forall (λ e, e.1 < sep.1) (take mid es) ∧ Forall (λ e, sep.1 ≤ e.1) (drop mid es).
Proof.
  intros Hs Hm Hsep Hkp Hne. pose proof (sorted_lookup es (mid - 1) mid kp sep Hs ltac:(lia) Hkp Hsep).
  split; apply Forall_lookup; intros j e Hj.
  - apply lookup_take_Some in Hj as [Hj ?].
    pose proof (sorted_lookup es j (mid - 1) e kp Hs ltac:(lia) Hj Hkp). lia.
  - rewrite lookup_drop in Hj. by apply (sorted_lookup es mid (mid + j) sep e Hs ltac:(lia)).
Qed.

(** Insertion before the first entry whose key is not smaller. *)
Definition entries_insert (key : Z) (rid : RecordId) (es : list Entry) : list Entry :=
  filter (λ e, e.1 < key) es ++ (key, rid) :: filter (λ e, key ≤ e.1) es.

Lemma entries_insert_app key rid es1 es es2 :
  Forall (λ e, e.1 < key) es1 → Forall (λ e, key < e.1) es2 →
  entries_insert key rid (es1 ++ es ++ es2) = es1 ++ entries_insert key rid es ++ es2.
Proof.
  intros H1 H2. unfold entries_insert. rewrite !filter_app.
  rewrite (filter_all _ es1), (filter_none _ es2), (filter_none _ es1), (filter_all _ es2).
  - rewrite app_nil_r, app_nil_l. by rewrite <- !app_assoc.
  - eapply Forall_impl; [done|]. simpl. lia.
  - eapply Forall_impl; [done|]. simpl. lia.
  - eapply Forall_impl; [done|]. simpl. lia.
  - done.
Qed.

Lemma entries_insert_sorted key rid es : entries_sorted es → entries_sorted (entries_insert key rid es).
Proof.
  intros Hs. destruct (prefix_filter es key Hs) as [E1 E2]. cbn zeta in E1, E2.
  rewrite <- (take_drop (prefix_len (λ e : Entry, e.1 <? key) es) es) in Hs. rewrite E1, E2 in Hs.
  apply sorted_app_inv in Hs as (Hs1 & Hs2 & Hs12). apply sorted_app; [done| |].
  - constructor; [done|]. apply Forall_forall. intros e [He _]%list_elem_of_filter. unfold key_le. simpl. lia.
  - intros e1 e2 He1 [->|He2]%elem_of_cons; [|by apply Hs12].
    apply list_elem_of_filter in He1 as [? _]. unfold key_le. simpl. lia.
Qed.

Lemma elem_of_entries_insert e key rid es : e ∈ entries_insert key rid es → e = (key, rid) ∨ e ∈ es.
Proof.
  unfold entries_insert.
  intros [[_ He]%list_elem_of_filter|[->|[_ He]%list_elem_of_filter]%elem_of_cons]%elem_of_app; auto.
Qed.

(** ** Trees in a store *)

Section trees.
Context {Pool : Type} `{PageStoreView Pool}.
Implicit Types s : Pool.

(** [tree_at s h id lo hi first next es ps]: the page [id] of [s] is the root
    of a tree of height [h], with keys from [lo] (inclusive) to [hi]
    (exclusive), whose leaves, from [first] on, are linked and lead to [next];
    [es] are its entries in order and [ps] its pages.  [forest_at] is the same
    for a sequence of children and the separators between them. *)
Inductive tree_at s : nat → Z → option Z → option Z → Z → Z → list Entry → list Z → Prop :=
  | tree_leaf id lo hi next es :
      1 ≤ id < ps_count s → leaf_page (ps_view s id) next es →
      entries_sorted es → Forall (λ e, in_range lo hi e.1) es →
      tree_at s 0 id lo hi id next es [id]
  | tree_node h id lo hi first next es ps keys children :
      1 ≤ id < ps_count s → node_page (ps_view s id) keys children → keys ≠ [] →
      forest_at s h lo hi keys children first next es ps →
      tree_at s (S h) id lo hi first next es (id :: ps)
with forest_at s : nat → option Z → option Z → list Z → list Z → Z → Z → list Entry → list Z → Prop :=
  | forest_last h lo hi c first next es ps :
      tree_at s h c lo hi first next es ps → forest_at s h lo hi [] [c] first next es ps
  | forest_cons h lo hi k keys c children first mid next es1 es2 ps1 ps2 :
      between lo hi k → tree_at s h c lo (Some k) first mid es1 ps1 →
      forest_at s h (Some k) hi keys children mid next es2 ps2 →
      forest_at s h lo hi (k :: keys) (c :: children) first next (es1 ++ es2) (ps1 ++ ps2).

(** Linked leaves from page [f] to page [n]. *)
Fixpoint leaf_chain s (f n : Z) (chunks : list (Z * list Entry)) : Prop :=
  match chunks with
  | [] => f = n
  | (l, es) :: rest =>
      f = l ∧ 1 ≤ l < ps_count s ∧ ∃ m, leaf_page (ps_view s l) m es ∧ leaf_chain s m n rest
  end.

Lemma leaf_chain_app s f m n c1 c2 : leaf_chain s f m c1 → leaf_chain s m n c2 → leaf_chain s f n (c1 ++ c2).
Proof.
  induction c1 as [|[l es] c1 IH] in f |- *; simpl; [by intros ->|].
  intros (-> & Hl & m' & Hp & Hc) Hc2. do 2 (split; [done|]). exists m'. split; [done|]. by apply IH.
Qed.
End trees.

Scheme tree_mut := Minimality for tree_at Sort Prop
  with forest_mut := Minimality for forest_at Sort Prop.
Combined Scheme tree_forest_ind from tree_mut, forest_mut.

(** ** Trees taken apart and put together *)

Section tree_lemmas.
Context {Pool : Type} `{PageStoreView Pool}.
Implicit Types s : Pool.

Lemma tree_forest_pages s :
  (∀ h id lo hi f n es ps, tree_at s h id lo hi f n es ps →
     id ∈ ps ∧ f ∈ ps ∧ (h < length ps)%nat ∧ ∀ p, p ∈ ps → 1 ≤ p < ps_count s) ∧
  (∀ h lo hi keys cs f n es ps, forest_at s h lo hi keys cs f n es ps →
     f ∈ ps ∧ (h < length ps)%nat ∧ ∀ p, p ∈ ps → 1 ≤ p < ps_count s).
Proof.
  apply tree_forest_ind.
  - intros id lo hi n es Hid Hp Hs Hr. split_and!; [set_solver|set_solver|simpl; lia|].
    intros p ->%list_elem_of_singleton. done.
  - intros h id lo hi f n es ps keys cs Hid Hp _ Hf (Hfp & Hl & Hps).
    split_and!; [set_solver|set_solver|simpl; lia|]. intros p [->|Hin]%elem_of_cons; auto.
  - intros. naive_solver.
  - intros h lo hi k keys c cs f m n es1 es2 ps1 ps2 Hk Ht (_ & Hf & Hl & Hp1) Hf2 (_ & _ & Hp2).
    split_and!; [set_solver|rewrite length_app; lia|]. intros p [?|?]%elem_of_app; auto.
Qed.

Lemma tree_forest_ext s s' :
  ps_count s ≤ ps_count s' →
  (∀ h id lo hi f n es ps, tree_at s h id lo hi f n es ps →
     (∀ p, p ∈ ps → ps_view s' p = ps_view s p) → tree_at s' h id lo hi f n es ps) ∧
  (∀ h lo hi keys cs f n es ps, forest_at s h lo hi keys cs f n es ps →
     (∀ p, p ∈ ps → ps_view s' p = ps_view s p) → forest_at s' h lo hi keys cs f n es ps).
Proof.
  intros Hc. apply tree_forest_ind.
  - intros id lo hi n es Hid Hp Hs Hr Hv. constructor; try done; [lia|]. rewrite Hv by set_solver. done.
  - intros h id lo hi f n es ps keys cs Hid Hp Hk Hf IH Hv. econstructor; [lia| |done|].
    + rewrite Hv by set_solver. done.
    + apply IH. intros p ?. apply Hv. by right.
  - intros. constructor. auto.
  - intros h lo hi k keys c cs f m n es1 es2 ps1 ps2 Hk Ht IH1 Hf2 IH2 Hv. econstructor; [done| |].
    + apply IH1. intros p ?. apply Hv. set_solver.
    + apply IH2. intros p ?. apply Hv. set_solver.
Qed.

Lemma tree_forest_bounds s :
  (∀ h id lo hi f n es ps, tree_at s h id lo hi f n es ps →
     entries_sorted es ∧ Forall (λ e, in_range lo hi e.1) es) ∧
  (∀ h lo hi keys cs f n es ps, forest_at s h lo hi keys cs f n es ps →
     entries_sorted es ∧ Forall (λ e, in_range lo hi e.1) es).
Proof.
  apply tree_forest_ind; try done.
  intros h lo hi k keys c cs f m n es1 es2 ps1 ps2 Hk Ht [Hs1 Hr1] Hf [Hs2 Hr2]. split.
  - apply sorted_app; [done..|]. intros e1 e2 He1 He2. rewrite Forall_forall in Hr1, Hr2.
    destruct (Hr1 _ He1) as [_ ?], (Hr2 _ He2) as [? _]. unfold key_le. simpl in *. lia.
  - apply Forall_app. split; (eapply Forall_impl; [done|]); intros e He; eapply in_range_weaken; eauto.
Qed.

Lemma tree_forest_chain s :
  (∀ h id lo hi f n es ps, tree_at s h id lo hi f n es ps →
     ∃ chunks, leaf_chain s f n chunks ∧ concat chunks.*2 = es ∧ (length chunks ≤ length ps)%nat) ∧
  (∀ h lo hi keys cs f n es ps, forest_at s h lo hi keys cs f n es ps →
     ∃ chunks, leaf_chain s f n chunks ∧ concat chunks.*2 = es ∧ (length chunks ≤ length ps)%nat).
Proof.
  apply tree_forest_ind.
  - intros id lo hi n es Hid Hp Hs Hr. exists [(id, es)]. simpl. rewrite app_nil_r.
    split; [|done]. do 2 (split; [done|]). by exists n.
  - intros h id lo hi f n es ps keys cs Hid Hp _ Hf (chunks & Hc & He & Hl). exists chunks. simpl.
    split_and!; [done..|lia].
  - intros. done.
  - intros h lo hi k keys c cs f m n es1 es2 ps1 ps2 Hk Ht (c1 & Hc1 & He1 & Hl1) Hf (c2 & Hc2 & He2 & Hl2).
    exists (c1 ++ c2). rewrite fmap_app, concat_app, He1, He2, !length_app.
    split_and!; [by eapply leaf_chain_app|done|lia].
Qed.
Lemma tree_leaf_inv s id lo hi first next es ps :
  tree_at s 0 id lo hi first next es ps →
  first = id ∧ ps = [id] ∧ 1 ≤ id < ps_count s ∧ leaf_page (ps_view s id) next es ∧
  entries_sorted es ∧ Forall (λ e, in_range lo hi e.1) es.
Proof. by inversion 1; subst. Qed.

Lemma tree_node_inv s h id lo hi first next es ps :
  tree_at s (S h) id lo hi first next es ps →
  ∃ keys children ps', ps = id :: ps' ∧ 1 ≤ id < ps_count s ∧ node_page (ps_view s id) keys children ∧
    keys ≠ [] ∧ forest_at s h lo hi keys children first next es ps'.
Proof. inversion 1; subst. by do 3 eexists. Qed.

(** Every internal node has two children or more, so the height is at most
    logarithmic in the number of pages. *)
Lemma tree_forest_height s :
  (∀ h id lo hi f n es ps, tree_at s h id lo hi f n es ps → 2 ^ Z.of_nat h ≤ Z.of_nat (length ps)) ∧
  (∀ h lo hi keys cs f n es ps, forest_at s h lo hi keys cs f n es ps →
     (Z.of_nat (length keys) + 1) * 2 ^ Z.of_nat h ≤ Z.of_nat (length ps)).
Proof.
  apply tree_forest_ind.
  - intros. simpl. lia.
  - intros h id lo hi f n es ps keys cs Hid Hp Hk Hf Hl. destruct keys as [|k keys]; [done|].
    rewrite Nat2Z.inj_succ, Z.pow_succ_r by lia. simpl length in *. nia.
  - intros. simpl length in *. lia.
  - intros h lo hi k keys c cs f m n es1 es2 ps1 ps2 Hk Ht Hl1 Hf Hl2. rewrite length_app. simpl length in *. lia.
Qed.

(** What surrounds a child: the entries before and after it with respect to
    [key], the leaves after it, and how it is replaced by a new version of
    itself or by the two halves of a split. *)
Record focus s h lo hi keys children first next key es1 es2 ps1 ps2
    (c : Z) lo' hi' (f' n' : Z) : Prop := {
  fc_child : children !! child_index keys key = Some c;
  fc_range : in_range lo' hi' key;
  fc_before : Forall (λ e, e.1 < key) es1;
  fc_after : Forall (λ e, key < e.1) es2;
  fc_chain : ∃ chunks, leaf_chain s n' next chunks ∧ concat chunks.*2 = es2 ∧ (length chunks ≤ length ps2)%nat;
  fc_replace : ∀ s' esc psc, ps_count s ≤ ps_count s' →
    (∀ p, p ∈ ps1 ++ ps2 → ps_view s' p = ps_view s p) → tree_at s' h c lo' hi' f' n' esc psc →
    forest_at s' h lo hi keys children first next (es1 ++ esc ++ es2) (ps1 ++ psc ++ ps2);
  fc_split : ∀ s' sep c2 m esl esr psl psr, ps_count s ≤ ps_count s' →
    (∀ p, p ∈ ps1 ++ ps2 → ps_view s' p = ps_view s p) → between lo' hi' sep →
    tree_at s' h c lo' (Some sep) f' m esl psl → tree_at s' h c2 (Some sep) hi' m n' esr psr →
    forest_at s' h lo hi (insert_at (child_index keys key) sep keys)
      (insert_at (S (child_index keys key)) c2 children) first next
      (es1 ++ (esl ++ esr) ++ es2) (ps1 ++ (psl ++ psr) ++ ps2)
}.

Lemma forest_focus s h lo hi keys children first next es ps key :
  forest_at s h lo hi keys children first next es ps → in_range lo hi key →
  ∃ es1 esc es2 ps1 psc ps2 c lo' hi' f' n',
    focus s h lo hi keys children first next key es1 es2 ps1 ps2 c lo' hi' f' n' ∧
    tree_at s h c lo' hi' f' n' esc psc ∧ es = es1 ++ esc ++ es2 ∧ ps = ps1 ++ psc ++ ps2.
Proof.
  induction 1 as [h lo hi c f n es ps Ht|h lo hi k keys c cs f m n es1 es2 ps1 ps2 Hk Ht Hf IH]; intros Hr.
  - exists [], es, [], [], ps, [], c, lo, hi, f, n. rewrite !app_nil_r. split_and!; [|done..].
    split; try done.
    + by exists [].
    + intros. rewrite !app_nil_r. by constructor.
    + intros s' sep c2 m esl esr psl psr _ _ Hsep Hl Hrt. cbn. rewrite !app_nil_r.
      econstructor; [done..|]. by constructor.
  - destruct (k <=? key) eqn:E; zbool.
    + destruct IH as (e1 & ec & e2 & p1 & pc & p2 & c' & lo' & hi' & f' & n' & Hfc & Ht' & -> & ->).
      { split; [done|]. by destruct Hr. }
      exists (es1 ++ e1), ec, e2, (ps1 ++ p1), pc, p2, c', lo', hi', f', n'.
      rewrite <- !app_assoc. split_and!; [|done..].
      destruct Hfc as [Hch Hrg Hb Ha Hcn Hrep Hspl].
      assert (Hi : child_index (k :: keys) key = S (child_index keys key)).
      { simpl. by rewrite (proj2 (Z.leb_le _ _) E). }
      assert (Hext : ∀ s', ps_count s ≤ ps_count s' →
        (∀ p, p ∈ (ps1 ++ p1) ++ p2 → ps_view s' p = ps_view s p) → tree_at s' h c lo (Some k) f m es1 ps1).
      { intros s' Hc' Hv. eapply tree_forest_ext; [done..|]. intros p ?. apply Hv. set_solver. }
      split; try done.
      * by rewrite Hi.
      * apply Forall_app. split; [|done]. destruct (proj1 (tree_forest_bounds s) _ _ _ _ _ _ _ _ Ht) as [_ Hb'].
        eapply Forall_impl; [done|]. intros e [_ He]. simpl in He. lia.
      * intros s' esc psc Hc' Hv Hn. rewrite <- !app_assoc. econstructor; [done|by apply Hext|].
        apply Hrep; [done| |done]. intros p ?. apply Hv. set_solver.
      * intros s' sep c2 m' esl esr psl psr Hc' Hv Hsep Hl Hrt. rewrite Hi, <- (app_assoc es1), <- (app_assoc ps1).
        unfold insert_at. cbn [take drop app]. econstructor; [done|by apply Hext|].
        eapply Hspl; try done. intros p ?. apply Hv. set_solver.
    + assert (Hi : child_index (k :: keys) key = 0%nat).
      { simpl. by rewrite (proj2 (Z.leb_gt _ _) E). }
      assert (Hext : ∀ s', ps_count s ≤ ps_count s' →
        (∀ p, p ∈ [] ++ ps2 → ps_view s' p = ps_view s p) → forest_at s' h (Some k) hi keys cs m n es2 ps2).
      { intros s' Hc' Hv. eapply tree_forest_ext; [done..|]. intros p ?. apply Hv. set_solver. }
      exists [], es1, es2, [], ps1, ps2, c, lo, (Some k), f, m. split_and!; [|done..]. split; try done.
      * by rewrite Hi.
      * split; [by destruct Hr|done].
      * destruct (proj2 (tree_forest_bounds s) _ _ _ _ _ _ _ _ _ Hf) as [_ Hb'].
        eapply Forall_impl; [done|]. intros e [He _]. simpl in He. lia.
      * by apply (proj2 (tree_forest_chain s)) in Hf.
      * intros s' esc psc Hc' Hv Hn. cbn [app]. econstructor; [done..|]. by apply Hext.
      * intros s' sep c2 m' esl esr psl psr Hc' Hv Hsep Hl Hrt. rewrite Hi. unfold insert_at. cbn [take drop app].
        rewrite <- !app_assoc. econstructor; [|done|].
        { destruct Hk as [? Hk], Hsep as [? Hs]. split; [done|]. destruct hi; simpl in *; [lia|done]. }
        econstructor; [|done|by apply Hext]. destruct Hk, Hsep. split; simpl in *; [lia|done].
Qed.

(** A forest cut at a separator. *)
Lemma forest_cut s h lo hi keys1 k keys2 children first next es ps :
  forest_at s h lo hi (keys1 ++ k :: keys2) children first next es ps →
  let n := S (length keys1) in
  ∃ mid es1 es2 ps1 ps2, between lo hi k ∧ es = es1 ++ es2 ∧ ps = ps1 ++ ps2 ∧
    forest_at s h lo (Some k) keys1 (take n children) first mid es1 ps1 ∧
    forest_at s h (Some k) hi keys2 (drop n children) mid next es2 ps2.
Proof.
  induction keys1 as [|k1 keys1 IH] in lo, children, first, es, ps |- *; cbn [app length]; intros Hf;
    inversion Hf as [|? ? ? ? ? c cs ? m ? es1 es2 ps1 ps2 Hk Ht Hrest]; subst.
  - exists m, es1, es2, ps1, ps2. cbn. split_and!; try done. by constructor.
  - destruct (IH _ _ _ _ _ Hrest) as (mid & e1 & e2 & p1 & p2 & Hk' & -> & -> & Hf1 & Hf2).
    exists mid, (es1 ++ e1), e2, (ps1 ++ p1), p2. rewrite <- !app_assoc. split_and!; try done.
    + destruct Hk as [Hk _], Hk' as [? ?]. split; [|done]. destruct lo; simpl in *; [lia|done].
    + cbn. econstructor; [|done..]. split; [by destruct Hk|by destruct Hk'].
Qed.
End tree_lemmas.

(** ** Descent to a leaf *)

Ltac run :=
  unfold fetch, new_page, unpin, data_of, set_data; unfold bind, lift, gets, modify, undefined_behaviour, ret;
  cbn [fst snd].

Section descent.
Context {Pool : Type} `{PageStoreSpec Pool}.
Implicit Types s : Pool.

Lemma FindChildIndex_eq d keys children key :
  node_page d keys children → FindChildIndex d key = child_index keys key.
Proof.
  intros Hp. unfold FindChildIndex, key_count. rewrite (np_count _ _ _ Hp), Nat2Z.id.
  rewrite (index_while_prefix _ (λ k, k <=? key)); [done|].
  intros j k Hj. cbn. by rewrite (node_page_key _ _ _ _ _ Hp Hj).
Qed.

(** The store after a page was read. *)
Definition same_store s s' : Prop := ps_idle s' ∧ ps_eqv s s' ∧ ps_avail s' = ps_avail s.

Lemma same_store_refl s : ps_idle s → same_store s s.
Proof. by split. Qed.

Lemma same_store_trans s1 s2 s3 : same_store s1 s2 → same_store s2 s3 → same_store s1 s3.
Proof. intros (_ & He & Ha) (Hi & He' & Ha'). split_and!; [done|by etrans|congruence]. Qed.

Lemma read_step s p :
  ps_idle s → 1 ≤ p < ps_count s →
  ∃ f s1 s2, ps_fetch p s = (Some f, s1) ∧ ps_get f s1 = ps_view s p ∧
    ps_unpin p false s1 = (true, s2) ∧ same_store s s2.
Proof.
  intros Hi Hp. destruct (read_page s p Hi Hp) as (f & s1 & s2 & E1 & Eg & E2 & Hi2 & Ha & He).
  exists f, s1, s2. by split_and!.
Qed.

Lemma find_leaf_leaf fuel key l s m es :
  ps_idle s → 1 ≤ l < ps_count s → leaf_page (ps_view s l) m es → (0 < fuel)%nat →
  ∃ s', find_leaf_loop fuel key l s = Some (l, s') ∧ same_store s s'.
Proof.
  intros Hi Hl Hp Hf. destruct fuel as [|fuel]; [lia|].
  destruct (read_step s l Hi Hl) as (f & s1 & s2 & E1 & Eg & E2 & Hs). exists s2. split; [|done].
  cbn [find_leaf_loop]. run. rewrite E1. cbn. by rewrite Eg, (lp_leaf _ _ _ Hp), E2.
Qed.

Lemma find_leaf_node fuel key id s keys children c :
  ps_idle s → 1 ≤ id < ps_count s → node_page (ps_view s id) keys children →
  children !! child_index keys key = Some c →
  ∃ s', same_store s s' ∧ find_leaf_loop (Datatypes.S fuel) key id s = find_leaf_loop fuel key c s'.
Proof.
  intros Hi Hid Hp Hc. destruct (read_step s id Hi Hid) as (f & s1 & s2 & E1 & Eg & E2 & Hs).
  exists s2. split; [done|]. cbn [find_leaf_loop]. run. rewrite E1. cbn.
  rewrite Eg, (np_internal _ _ _ Hp), E2.
  by rewrite (FindChildIndex_eq _ _ _ _ Hp), (node_page_child _ _ _ _ _ Hp Hc).
Qed.

Lemma leaf_at_eqv s s0 l : ps_eqv s s0 → 1 ≤ l < ps_count s → 1 ≤ l < ps_count s0 ∧ ps_view s0 l = ps_view s l.
Proof. intros [Hc Hv] Hl. split; [lia|by apply Hv]. Qed.

(** The leaf for [key]: what lies left and right of it, how to replace it, and
    that the descent finds it. *)
Lemma tree_find s h id lo hi first next es ps key :
  tree_at s h id lo hi first next es ps → in_range lo hi key → NoDup ps →
  ∃ l m esl lo' hi' es1 es2,
    es = es1 ++ esl ++ es2 ∧ l ∈ ps ∧ leaf_page (ps_view s l) m esl ∧ in_range lo' hi' key ∧
    Forall (λ e, e.1 < key) es1 ∧ Forall (λ e, key < e.1) es2 ∧
    (∃ chunks, leaf_chain s m next chunks ∧ concat chunks.*2 = es2 ∧ (length chunks < length ps)%nat) ∧
    (∀ s' esl', ps_count s ≤ ps_count s' → (∀ p, p ∈ ps → p ≠ l → ps_view s' p = ps_view s p) →
       leaf_page (ps_view s' l) m esl' → entries_sorted esl' → (∀ e, e ∈ esl' → e ∈ esl) →
       tree_at s' h id lo hi first next (es1 ++ esl' ++ es2) ps) ∧
    (∀ fuel s0, (h < fuel)%nat → ps_idle s0 → ps_eqv s s0 →
       ∃ s1, find_leaf_loop fuel key id s0 = Some (l, s1) ∧ same_store s0 s1).
Proof.
  intros Ht. revert id lo hi first next es ps Ht.
  induction h as [|h IH]; intros id lo hi first next es ps Ht Hr Hnd.
  - apply tree_leaf_inv in Ht as (-> & -> & Hidr & Hpage & _ & Hbd).
    exists id, next, es, lo, hi, [], []. cbn [app]. rewrite app_nil_r. split_and!; try done.
    + set_solver.
    + exists []. simpl. split_and!; [done..|lia].
    + intros s' esl' Hc _ Hp Hs Hin. rewrite app_nil_r. constructor; try done; [lia|].
      apply Forall_forall. intros e He. rewrite Forall_forall in Hbd. apply Hbd, Hin, He.
    + intros fuel s0 Hf Hi He. destruct (leaf_at_eqv s s0 id He Hidr) as [? Hv].
      eapply find_leaf_leaf; [done..| |lia]. by rewrite Hv.
  - apply tree_node_inv in Ht as (keys & children & ps' & -> & Hidr & Hpage & Hkn & Hfor).
    destruct (forest_focus _ _ _ _ _ _ _ _ _ _ key Hfor Hr) as
      (es1 & esc & es2 & ps1 & psc & ps2 & c & lo' & hi' & f' & n' & Hfc & Htc & -> & ->).
    apply NoDup_cons in Hnd as [Hni Hnd].
    apply NoDup_app in Hnd as (Hnd1 & Hd1 & [Hndc [Hdc Hnd2]]%NoDup_app).
    destruct (IH c lo' hi' f' n' esc psc Htc (fc_range _ _ _ _ _ _ _ _ _ _ _ _ _ _ _ _ _ _ Hfc) Hndc) as
      (l & m & esl & lo2 & hi2 & e1 & e2 & -> & Hl & Hlp & Hr2 & Hb1 & Hb2 & (ch1 & Hch1 & Hce1 & Hcl1) & Hrep & Hrun).
    destruct Hfc as [Hch _ Hbf Haf (ch2 & Hch2 & Hce2 & Hcl2) Hfrep _].
    exists l, m, esl, lo2, hi2, (es1 ++ e1), (e2 ++ es2). split_and!; try done.
    + by rewrite <- !app_assoc.
    + set_solver.
    + by apply Forall_app.
    + by apply Forall_app.
    + exists (ch1 ++ ch2). rewrite fmap_app, concat_app, Hce1, Hce2. split_and!; [by eapply leaf_chain_app|done|].
      simpl. rewrite !length_app. lia.
    + intros s' esl' Hc' Hv Hp Hs Hin. replace ((es1 ++ e1) ++ esl' ++ e2 ++ es2) with
        (es1 ++ (e1 ++ esl' ++ e2) ++ es2) by (by rewrite <- !app_assoc).
      assert (l ≠ id) by (intros ->; apply Hni; set_solver).
      econstructor; [lia| |done|].
      * rewrite Hv; [done|set_solver|done].
      * apply Hfrep; [done| |].
        -- intros p Hpin. apply Hv; [set_solver|]. intros ->. apply elem_of_app in Hpin as [?|?].
           ++ eapply Hd1; [done|]. set_solver.
           ++ by eapply Hdc.
        -- apply Hrep; try done. intros p ? ?. apply Hv; [set_solver|done].
    + intros fuel s0 Hf Hi He. destruct fuel as [|fuel]; [lia|].
      destruct (leaf_at_eqv s s0 id He Hidr) as [? Hv0].
      destruct (find_leaf_node fuel key id s0 keys children c) as (s1 & Hs1 & E); try done; [by rewrite Hv0|].
      destruct (Hrun fuel s1) as (s2 & E2 & Hs2); [lia|by apply Hs1|etrans; [done|apply Hs1]|].
      exists s2. split; [by rewrite E|by eapply same_store_trans].
Qed.
(** The descent along the first children. *)
Lemma tree_leftmost s h id lo hi first next es ps fuel s0 :
  tree_at s h id lo hi first next es ps → (h < fuel)%nat → ps_idle s0 → ps_eqv s s0 →
  ∃ s1, leftmost_loop fuel id s0 = Some (first, s1) ∧ same_store s0 s1.
Proof.
  induction h as [|h IH] in id, lo, hi, next, es, ps, fuel, s0 |- *; intros Ht Hf Hi He;
    (destruct fuel as [|fuel]; [lia|]).
  - apply tree_leaf_inv in Ht as (-> & -> & Hidr & Hpage & _ & _).
    destruct (leaf_at_eqv s s0 id He Hidr) as [Hr0 Hv].
    destruct (read_step s0 id Hi Hr0) as (f & s1 & s2 & E1 & Eg & E2 & Hs). exists s2. split; [|done].
    cbn [leftmost_loop]. run. rewrite E1. cbn. by rewrite Eg, Hv, (lp_leaf _ _ _ Hpage), E2.
  - apply tree_node_inv in Ht as (keys & children & ps' & -> & Hidr & Hpage & Hkn & Hfor).
    assert (∃ c hi' n' es' psc, children !! 0%nat = Some c ∧ tree_at s h c lo hi' first n' es' psc)
      as (c & hi' & n' & es' & psc & Hc & Htc) by (clear Hkn; inversion Hfor; subst; by do 5 eexists).
    destruct (leaf_at_eqv s s0 id He Hidr) as [Hr0 Hv].
    destruct (read_step s0 id Hi Hr0) as (f & s1 & s2 & E1 & Eg & E2 & Hs).
    destruct (IH c lo hi' n' es' psc fuel s2 Htc) as (s3 & E3 & Hs3); [lia|apply Hs|etrans; [done|apply Hs]|].
    exists s3. split; [|by eapply same_store_trans].
    cbn [leftmost_loop]. run. rewrite E1. cbn. rewrite Eg, Hv, (np_internal _ _ _ Hpage), E2.
    by rewrite (node_page_child _ _ _ _ _ Hpage Hc).
Qed.
End descent.

(** ** Duplicate keys

    A leaf in which all keys are equal cannot be split between two keys; with
    fewer than [kLeafMaxKeys] entries per key no leaf is. *)

Definition dups_below (n : Z) (es : list Entry) : Prop :=
  ∀ k, Z.of_nat (length (filter (λ e, e.1 = k) es)) < n.

Lemma dups_below_part n es1 es es2 : dups_below n (es1 ++ es ++ es2) → dups_below n es.
Proof. intros Hd k. specialize (Hd k). rewrite !filter_app, !length_app in Hd. lia. Qed.

(** The position where the keys of a full leaf change. *)
Lemma boundary_loop_spec fuel d n left right mid :
  (1 ≤ left ≤ right)%nat → (right ≤ n)%nat → ((n - right) + (left - 1) < fuel)%nat →
  (∀ j, (left ≤ j < right)%nat → LeafKeyAt d j = LeafKeyAt d (j - 1)) →
  (∃ j, (1 ≤ j < n)%nat ∧ LeafKeyAt d j ≠ LeafKeyAt d (j - 1)) →
  ∃ m, boundary_loop fuel d n left right mid = Some m ∧ (1 ≤ m < n)%nat ∧
    LeafKeyAt d m ≠ LeafKeyAt d (m - 1).
Proof.
  induction fuel as [|fuel IH] in left, right |- *; intros Hl Hr Hf Heq (j & Hj & Hne); [lia|].
  cbn [boundary_loop]. destruct (Nat.ltb_spec 1 left) as [H1|H1], (Nat.ltb_spec right n) as [H2|H2]; cbn [orb andb].
  4:{ destruct Hne. apply Heq. lia. }
  all: repeat match goal with |- context [negb (?a =? ?b)] => destruct (Z.eqb_spec a b); cbn [negb] end.
  all: try (eexists; split; [done|split; [lia|done]]).
  all: try (eexists; split; [done|split; [lia|by replace (left - 1 - 1)%nat with (left - 2)%nat by lia]]).
  all: apply IH; try lia; try (by exists j).
  all: intros i Hi; destruct (decide (i = right)) as [->|]; [done || lia|].
  all: try (destruct (decide (i = (left - 1)%nat)) as [->|];
            [by replace (left - 1 - 1)%nat with (left - 2)%nat by lia|]).
  all: apply Heq; lia.
Qed.

(** A leaf with too few duplicates to fill it has two different keys. *)
Lemma full_leaf_boundary d next es :
  leaf_page d next es → Z.of_nat (length es) = kLeafMaxKeys → dups_below kLeafMaxKeys es →
  ∃ m, boundary_loop (S (length es)) d (length es) (length es / 2) (length es / 2) (length es / 2) = Some m ∧
    (1 ≤ m < length es)%nat ∧ LeafKeyAt d m ≠ LeafKeyAt d (m - 1).
Proof.
  intros Hp Hl Hd. rewrite kLeafMaxKeys_eq in Hl, Hd.
  assert (length es = 292)%nat as Hlen by lia.
  apply boundary_loop_spec; rewrite ?Hlen; try (cbn; lia).
  destruct (decide (Exists (λ j, LeafKeyAt d j ≠ LeafKeyAt d (j - 1)) (seq 1 291))) as [Hex|Hno].
  { apply Exists_exists in Hex as (j & Hj%elem_of_seq & ?). exists j. split; [lia|done]. }
  exfalso.
  assert (∀ j, (j < 292)%nat → LeafKeyAt d j = LeafKeyAt d 0) as Hall.
  { induction j as [|j IHj]; [done|]. intros Hj. rewrite <- IHj by lia.
    destruct (decide (LeafKeyAt d (S j) = LeafKeyAt d (S j - 1))) as [E|E].
    - rewrite E. f_equal. lia.
    - destruct Hno. apply Exists_exists. exists (S j). split; [apply elem_of_seq; lia|done]. }
  specialize (Hd (LeafKeyAt d 0)). rewrite (filter_all _ es) in Hd; [lia|].
  apply Forall_lookup. intros j [k r] Hj. destruct (leaf_page_at _ _ _ _ _ _ Hp Hj) as [<- _].
  apply Hall. apply lookup_lt_Some in Hj. lia.
Qed.
