(* ===== verification/BPlusTreeOps.v ===== *)
(** * The B+ tree's operations refine a sorted list of entries

    Each operation on a store that holds an index ([index_at]) does on the
    pages what its specification does on the sorted list of entries: insertion,
    deletion, search and range scan.  Pages of other indexes in the same store
    are not touched. *)

From stdpp Require Import sorting.
From S2P Require Import Prelude Util PageStore BPlusNode BPlusTree BPlusTreeSpec.

(** ** Splitting a child *)

Section split.
Context {Pool : Type} `{PageStoreSpec Pool}.
Implicit Types s : Pool.

(** A write through a pinned pointer. *)
Lemma set_step s l p f pg :
  ps_held s l → (p, f) ∈ l → page_wf pg →
  let s' := ps_set f pg s in
  ps_held s' l ∧ ps_avail s' = ps_avail s ∧ ps_count s' = ps_count s ∧ ps_view s' p = pg ∧
  (∀ q, 1 ≤ q < ps_count s → q ≠ p → ps_view s' q = ps_view s q) ∧
  (∀ q g, (q, g) ∈ l → ps_get g s' = ps_view s' q).
Proof.
  intros Hh Hin Hpg s'. destruct (held_set s l p f pg Hh Hin Hpg) as (Hh' & Ha & Hc & Hv & Ho).
  split_and!; try done. intros q g Hq. by destruct (held_get _ _ q g Hh' Hq).
Qed.

Lemma split_leaf_spec s l c fc r fr next es :
  ps_held s l → (c, fc) ∈ l → (r, fr) ∈ l → c ≠ r → in_i32 r →
  leaf_page (ps_view s c) next es → page_wf (ps_view s r) →
  Z.of_nat (length es) = kLeafMaxKeys → entries_sorted es → dups_below kLeafMaxKeys es →
  ∃ s' sep es1 es2, split_leaf fc fr r s = Some (sep, s') ∧ ps_held s' l ∧ ps_avail s' = ps_avail s ∧
    ps_count s' = ps_count s ∧ es = es1 ++ es2 ∧ es1 ≠ [] ∧ es2 ≠ [] ∧
    leaf_page (ps_view s' c) r es1 ∧ leaf_page (ps_view s' r) next es2 ∧
    Forall (λ e, e.1 < sep) es1 ∧ Forall (λ e, sep ≤ e.1) es2 ∧ (∃ e, e ∈ es2 ∧ e.1 = sep) ∧
    (∀ q, 1 ≤ q < ps_count s → q ≠ c → q ≠ r → ps_view s' q = ps_view s q).
Proof.
  intros Hh Hc Hr Hne Hri Hcp Hrp Hlen Hs Hd.
  destruct (held_get _ _ _ _ Hh Hc) as [Egc Hcr]. destruct (held_get _ _ _ _ Hh Hr) as [Egr Hrr].
  assert (in_i32 next) as Hnx by (rewrite <- (lp_next _ _ _ Hcp); apply ReadFixedS4_range).
  pose proof (InitLeaf_spec (ps_view s r) next Hrp Hnx) as Hp1.
  destruct (set_step s l r fr _ Hh Hr (lp_wf _ _ _ Hp1)) as (Hh1 & Ha1 & Hc1 & Hv1 & Ho1 & Hg1).
  set (s1 := ps_set fr _ s) in *.
  pose proof (SetNextLeafId_spec _ _ _ r Hcp Hri) as Hp2.
  destruct (set_step s1 l c fc _ Hh1 Hc (lp_wf _ _ _ Hp2)) as (Hh2 & Ha2 & Hc2 & Hv2 & Ho2 & Hg2).
  set (s2 := ps_set fc _ s1) in *.
  destruct (full_leaf_boundary _ _ _ Hp2 Hlen Hd) as (mid & Em & Hmid & Hb).
  assert (ps_view s2 r = InitLeaf (ps_view s r) next) as Hv2r by (rewrite Ho2; [done|lia|done]).
  rewrite <- Hv2r in Hp1. rewrite <- Hv2 in Hp2, Em, Hb.
  pose proof (leaf_copy _ _ _ mid _ _ Hp2 Hp1 ltac:(lia)) as Hp3. cbn zeta in Hp3.
  destruct (set_step s2 l r fr _ Hh2 Hr (lp_wf _ _ _ Hp3)) as (Hh3 & Ha3 & Hc3 & Hv3 & Ho3 & Hg3).
  set (s3 := ps_set fr _ s2) in *.
  pose proof (leaf_truncate _ _ _ mid Hp2 ltac:(lia)) as Hp4.
  destruct (set_step s3 l c fc _ Hh3 Hc (lp_wf _ _ _ Hp4)) as (Hh4 & Ha4 & Hc4 & Hv4 & Ho4 & Hg4).
  set (s4 := ps_set fc _ s3) in *.
  assert (ps_view s4 r = ps_view s3 r) as Hv4r by (apply Ho4; [lia|done]).
  rewrite <- Hv3, <- Hv4r in Hp3. rewrite <- Hv4 in Hp4.
  destruct (lookup_lt_is_Some_2 es mid ltac:(lia)) as [[sep rsep] Hsep].
  destruct (lookup_lt_is_Some_2 es (mid - 1) ltac:(lia)) as [[kp rp] Hkp].
  assert (LeafKeyAt (ps_view s4 r) 0 = sep) as Hsepr.
  { apply (leaf_page_at _ _ _ 0 sep rsep Hp3). rewrite lookup_drop, Nat.add_0_r. done. }
  destruct (leaf_page_at _ _ _ _ _ _ Hp2 Hsep) as [Hk1 _]. destruct (leaf_page_at _ _ _ _ _ _ Hp2 Hkp) as [Hk2 _].
  rewrite Hk1, Hk2 in Hb.
  exists s4, sep, (take mid es), (drop mid es). split_and!; try done; try lia.
  - unfold split_leaf, key_count. run. rewrite Egc, Egr, (lp_next _ _ _ Hcp). fold s1 s2.
    rewrite (Hg2 _ _ Hc), (lp_count _ _ _ Hp2), Nat2Z.id, Em. cbn.
    rewrite (Hg2 _ _ Hr). fold s3 s4. by rewrite (Hg4 _ _ Hr), Hsepr.
  - by rewrite take_drop.
  - intros E%(f_equal length). rewrite length_take in E. simpl in E. lia.
  - intros E%(f_equal length). rewrite length_drop in E. simpl in E. lia.
  - by apply (sorted_cut es mid (sep, rsep) (kp, rp)); [|lia|..].
  - by apply (sorted_cut es mid (sep, rsep) (kp, rp)); [|lia|..].
  - exists (sep, rsep). split; [|done]. apply (list_elem_of_lookup_2 _ 0). by rewrite lookup_drop, Nat.add_0_r.
  - intros q ? ? ?. rewrite Ho4, Ho3, Ho2, Ho1; (done || lia).
Qed.
Lemma split_internal_spec s l c fc r fr keys children :
  ps_held s l → (c, fc) ∈ l → (r, fr) ∈ l → c ≠ r →
  node_page (ps_view s c) keys children → page_wf (ps_view s r) → Z.of_nat (length keys) = kInternalMaxKeys →
  ∃ s' sep keys1 keys2, split_internal fc fr s = Some (sep, s') ∧ ps_held s' l ∧ ps_avail s' = ps_avail s ∧
    ps_count s' = ps_count s ∧ keys = keys1 ++ sep :: keys2 ∧ keys1 ≠ [] ∧ keys2 ≠ [] ∧
    node_page (ps_view s' c) keys1 (take (S (length keys1)) children) ∧
    node_page (ps_view s' r) keys2 (drop (S (length keys1)) children) ∧
    (∀ q, 1 ≤ q < ps_count s → q ≠ c → q ≠ r → ps_view s' q = ps_view s q).
Proof.
  intros Hh Hc Hr Hne Hcp Hrp Hlen. rewrite kInternalMaxKeys_eq in Hlen.
  assert (length keys = 340)%nat as Hln by lia.
  destruct (held_get _ _ _ _ Hh Hc) as [_ Hcr]. destruct (held_get _ _ _ _ Hh Hr) as [Egr Hrr].
  destruct (InitInternal_spec (ps_view s r) Hrp) as (Hw1 & Hl1 & _).
  destruct (set_step s l r fr _ Hh Hr Hw1) as (Hh1 & Ha1 & Hc1 & Hv1 & Ho1 & Hg1).
  set (s1 := ps_set fr _ s) in *. rewrite <- Hv1 in Hw1, Hl1.
  assert (ps_view s1 c = ps_view s c) as Hv1c by (apply Ho1; [lia|done]). rewrite <- Hv1c in Hcp.
  set (mid := (length keys / 2)%nat). assert (mid = 170)%nat as Hmid by (unfold mid; by rewrite Hln).
  pose proof (node_copy _ _ _ mid _ Hcp Hw1 Hl1 ltac:(lia)) as Hp2. cbn zeta in Hp2.
  destruct (set_step s1 l r fr _ Hh1 Hr (np_wf _ _ _ Hp2)) as (Hh2 & Ha2 & Hc2 & Hv2 & Ho2 & Hg2).
  set (s2 := ps_set fr _ s1) in *.
  pose proof (node_truncate _ _ _ mid Hcp ltac:(lia)) as Hp3.
  destruct (set_step s2 l c fc _ Hh2 Hc (np_wf _ _ _ Hp3)) as (Hh3 & Ha3 & Hc3 & Hv3 & Ho3 & Hg3).
  set (s3 := ps_set fc _ s2) in *.
  assert (ps_view s3 r = ps_view s2 r) as Hv3r by (apply Ho3; [lia|done]).
  rewrite <- Hv2, <- Hv3r in Hp2. rewrite <- Hv3 in Hp3.
  destruct (lookup_lt_is_Some_2 keys mid ltac:(lia)) as [sep Hsep].
  pose proof (node_page_key _ _ _ _ _ Hcp Hsep) as Hk.
  assert (length (take mid keys) = mid) as Hlt by (rewrite length_take; lia).
  exists s3, sep, (take mid keys), (drop (S mid) keys). rewrite Hlt. split_and!; try done; try lia.
  - unfold split_internal, key_count. run. rewrite Egr. fold s1.
    rewrite (Hg1 _ _ Hc), (Hg1 _ _ Hr), (np_count _ _ _ Hcp), Nat2Z.id. fold mid. by rewrite Hk.
  - by rewrite take_drop_middle.
  - intros E%(f_equal length). rewrite Hlt in E. simpl in E. lia.
  - intros E%(f_equal length). rewrite length_drop in E. simpl in E. lia.
  - intros q ? ? ?. rewrite Ho3, Ho2, Ho1; (done || lia).
Qed.

Lemma node_full_leaf d next es :
  leaf_page d next es → node_full d = (Z.of_nat (length es) >=? kLeafMaxKeys).
Proof. intros Hp. unfold node_full. by rewrite (lp_leaf _ _ _ Hp), (lp_count _ _ _ Hp). Qed.

Lemma node_full_node d keys children :
  node_page d keys children → node_full d = (Z.of_nat (length keys) >=? kInternalMaxKeys).
Proof. intros Hp. unfold node_full. by rewrite (np_internal _ _ _ Hp), (np_count _ _ _ Hp). Qed.

(** Either branch of [SplitChild]: child [c] keeps the left half of its tree and
    the new page [r] becomes the root of the right half; neither is full. *)
Lemma split_branch_spec s l c fc r fr h lo hi first next es ps :
  ps_held s l → (c, fc) ∈ l → (r, fr) ∈ l → r ∉ ps → in_i32 r → page_wf (ps_view s r) →
  tree_at s h c lo hi first next es ps → NoDup ps → node_full (ps_view s c) = true →
  dups_below kLeafMaxKeys es →
  ∃ s' sep mid es1 es2 ps1 ps2,
    (if IsLeaf (ps_view s c) then split_leaf fc fr r else split_internal fc fr) s = Some (sep, s') ∧
    ps_held s' l ∧ ps_avail s' = ps_avail s ∧ ps_count s' = ps_count s ∧
    between lo hi sep ∧ in_i64 sep ∧ es = es1 ++ es2 ∧ ps1 ++ ps2 ≡ₚ r :: ps ∧
    tree_at s' h c lo (Some sep) first mid es1 ps1 ∧ tree_at s' h r (Some sep) hi mid next es2 ps2 ∧
    node_full (ps_view s' c) = false ∧ node_full (ps_view s' r) = false ∧
    (∀ q, 1 ≤ q < ps_count s → q ≠ c → q ≠ r → ps_view s' q = ps_view s q).
Proof.
  intros Hh Hc Hr Hrn Hri Hrp Ht Hnd Hfull Hd.
  assert (c ≠ r) as Hne. { intros ->. apply Hrn. by apply (tree_forest_pages s) in Ht as [? _]. }
  destruct (held_get _ _ _ _ Hh Hc) as [_ Hcr]. destruct (held_get _ _ _ _ Hh Hr) as [_ Hrr].
  destruct h as [|h].
  - apply tree_leaf_inv in Ht as (-> & -> & _ & Hp & Hs & Hb).
    rewrite (node_full_leaf _ _ _ Hp) in Hfull. zbool. pose proof (lp_cap _ _ _ Hp).
    destruct (split_leaf_spec s l c fc r fr next es) as
      (s' & sep & es1 & es2 & E & Hh' & Ha & Hcn & -> & Hn1 & Hn2 & Hp1 & Hp2 & Hf1 & Hf2 & (e & He & <-) & Ho);
      try done; [lia|].
    apply sorted_app_inv in Hs as (Hs1 & Hs2 & _). apply Forall_app in Hb as [Hb1 Hb2].
    rewrite length_app in *. assert (0 < length es1 ∧ 0 < length es2)%nat by (destruct es1, es2; simpl; (done || lia)).
    exists s', e.1, r, es1, es2, [c], [r]. rewrite (lp_leaf _ _ _ Hp). split_and!; try done.
    + destruct es1 as [|e1 es1]; [done|]. apply Forall_cons in Hb1 as [[He1 _] _], Hf1 as [He1' _].
      rewrite Forall_forall in Hb2. destruct (Hb2 e He) as [_ Heh]. split; [|done]. destruct lo; [lia|done].
    + apply leaf_page_valid in Hp2. rewrite Forall_forall in Hp2. by apply (Hp2 e He).
    + apply Permutation_swap.
    + constructor; try done; [lia|]. apply Forall_and. split; [|done]. eapply Forall_impl; [apply Hb1|]. by intros ? [??].
    + constructor; try done; [lia|]. apply Forall_and. split; [done|]. eapply Forall_impl; [apply Hb2|]. by intros ? [??].
    + rewrite (node_full_leaf _ _ _ Hp1). rewrite Z.geb_leb. apply Z.leb_gt. lia.
    + rewrite (node_full_leaf _ _ _ Hp2). rewrite Z.geb_leb. apply Z.leb_gt. lia.
  - apply tree_node_inv in Ht as (keys & children & ps' & -> & _ & Hp & _ & Hf).
    rewrite (node_full_node _ _ _ Hp) in Hfull. zbool. pose proof (np_cap _ _ _ Hp).
    destruct (split_internal_spec s l c fc r fr keys children) as
      (s' & sep & keys1 & keys2 & E & Hh' & Ha & Hcn & -> & Hn1 & Hn2 & Hp1 & Hp2 & Ho); try done; [lia|].
    destruct (forest_cut _ _ _ _ _ _ _ _ _ _ _ _ Hf) as (mid & es1 & es2 & ps1 & ps2 & Hb & -> & -> & Hf1 & Hf2).
    apply NoDup_cons in Hnd as [Hcn' _].
    assert (∀ p, p ∈ ps1 ++ ps2 → ps_view s' p = ps_view s p) as Hv.
    { intros p Hpin. apply Ho; [|set_solver..].
      eapply (proj2 (tree_forest_pages s)); [exact Hf|done]. }
    rewrite length_app in *. simpl in *.
    exists s', sep, mid, es1, es2, (c :: ps1), (r :: ps2). rewrite (np_internal _ _ _ Hp). split_and!; try done.
    + apply node_page_keys_valid in Hp. rewrite Forall_forall in Hp. apply Hp. set_solver.
    + simpl. rewrite <- Permutation_middle. by rewrite Permutation_swap.
    + econstructor; [lia|done|done|]. eapply tree_forest_ext; [|done|]; [lia|]. intros p ?. apply Hv. set_solver.
    + econstructor; [lia|done|done|]. eapply tree_forest_ext; [|done|]; [lia|]. intros p ?. apply Hv. set_solver.
    + rewrite (node_full_node _ _ _ Hp1), Z.geb_leb. apply Z.leb_gt. lia.
    + rewrite (node_full_node _ _ _ Hp2), Z.geb_leb. apply Z.leb_gt. lia.
Qed.
(** The outcome of splitting child [c], at position [i] of the node [p]. *)
Record split_done s s' p i keys children h c lo hi first next es ps sep mid es1 es2 ps1 ps2 : Prop := {
  sd_idle : ps_idle s';
  sd_avail : ps_avail s' = ps_avail s;
  sd_count : ps_count s' = ps_count s + 1;
  sd_parent : node_page (ps_view s' p) (insert_at i sep keys) (insert_at (S i) (ps_count s) children);
  sd_sep : between lo hi sep;
  sd_entries : es = es1 ++ es2;
  sd_pages : ps1 ++ ps2 ≡ₚ ps_count s :: ps;
  sd_left : tree_at s' h c lo (Some sep) first mid es1 ps1;
  sd_right : tree_at s' h (ps_count s) (Some sep) hi mid next es2 ps2;
  sd_left_room : node_full (ps_view s' c) = false;
  sd_right_room : node_full (ps_view s' (ps_count s)) = false;
  sd_rest : ∀ q, 1 ≤ q < ps_count s → q ≠ p → q ≠ c → ps_view s' q = ps_view s q
}.

Lemma SplitChild_spec s p i keys children c h lo hi first next es ps :
  ps_idle s → 2 < ps_avail s → ps_count s < 2 ^ 31 - 1 → 1 ≤ p < ps_count s →
  node_page (ps_view s p) keys children → Z.of_nat (length keys) < kInternalMaxKeys → (i ≤ length keys)%nat →
  children !! i = Some c → tree_at s h c lo hi first next es ps → NoDup ps → p ∉ ps →
  node_full (ps_view s c) = true → dups_below kLeafMaxKeys es →
  ∃ s' sep mid es1 es2 ps1 ps2, SplitChild p i s = Some (ps_count s, s') ∧
    split_done s s' p i keys children h c lo hi first next es ps sep mid es1 es2 ps1 ps2.
Proof.
  intros Hi Hav Hcn Hp Hpp Hroom Hik Hci Ht Hnd Hpn Hfull Hd. set (r := ps_count s).
  destruct (proj1 (tree_forest_pages s) _ _ _ _ _ _ _ _ Ht) as (Hcin & _ & _ & Hpr).
  assert (p ≠ c) by (intros ->; done). pose proof (Hpr c Hcin) as Hcr.
  assert (r ∉ ps) as Hrn by (intros Hr; apply Hpr in Hr; unfold r in Hr; lia).
  destruct (held_fetch s [] p) as (fp & s1 & E1 & Hh1 & Ha1 & He1);
    [by apply idle_held|set_solver|done|lia|].
  destruct (held_get s1 _ p fp Hh1) as [Eg1 _]; [left|].
  destruct (held_fetch s1 [(p, fp)] c) as (fc & s2 & E2 & Hh2 & Ha2 & He2);
    [done|simpl; set_solver|destruct He1; lia|lia|].
  assert (ps_eqv s s2) as He12 by (by etrans).
  destruct (held_new s2 [(c, fc); (p, fp)] Hh2) as (fr & s3 & E3 & Hh3 & Ha3 & Hc3 & Hb3 & Hv3);
    [rewrite (proj1 He12); done|lia|].
  rewrite (proj1 He12) in E3, Hh3, Hc3, Hb3, Hv3. fold r in E3, Hh3, Hc3, Hb3, Hv3.
  assert (∀ q, 1 ≤ q < r → ps_view s3 q = ps_view s q) as Hv30.
  { intros q Hq. rewrite Hv3 by done. by apply He12. }
  assert (tree_at s3 h c lo hi first next es ps) as Ht3.
  { eapply tree_forest_ext; [|exact Ht|]; [lia|]. intros q Hq. apply Hv30. by apply Hpr. }
  destruct (split_branch_spec s3 [(r, fr); (c, fc); (p, fp)] c fc r fr h lo hi first next es ps) as
    (s4 & sep & mid & es1 & es2 & ps1 & ps2 & E4 & Hh4 & Ha4 & Hc4 & Hsep & Hsi & Hes & Hps & Htl & Htr & Hfl & Hfr & Ho4);
    [done|right; left|left|done|unfold r; blia|rewrite Hb3; apply page_wf_blank|done|done|by rewrite Hv30|done|].
  assert (ps_view s4 p = ps_view s p) as Hv4p.
  { rewrite Ho4; [by apply Hv30|lia|done|unfold r; lia]. }
  pose proof (InsertInternalKeyChildAt_spec (ps_view s4 p) keys children i sep r) as Hins.
  rewrite Hv4p in Hins at 1. specialize (Hins Hpp Hik Hroom Hsi ltac:(unfold r; blia)).
  destruct (set_step s4 _ p fp _ Hh4 ltac:(set_solver) (np_wf _ _ _ Hins)) as (Hh5 & Ha5 & Hc5 & Hv5 & Ho5 & _).
  set (s5 := ps_set fp _ s4) in *.
  destruct (held_unpin s5 [(r, fr)] [(p, fp)] c fc Hh5) as (s6 & E6 & Hh6 & Ha6 & He6).
  destruct (held_unpin s6 [] [(p, fp)] r fr Hh6) as (s7 & E7 & Hh7 & Ha7 & He7).
  destruct (held_unpin s7 [] [] p fp Hh7) as (s8 & E8 & Hh8 & Ha8 & He8).
  assert (ps_eqv s5 s8) as He58 by (etrans; [done|by etrans]).
  assert (∀ q, 1 ≤ q < ps_count s + 1 → q ≠ p → ps_view s8 q = ps_view s4 q) as Hv8.
  { intros q ? ?. rewrite (proj2 He58) by lia. apply Ho5; [lia|done]. }
  assert (∀ q, q ∈ ps1 ++ ps2 → ps_view s8 q = ps_view s4 q) as Hv8t.
  { intros q Hq. rewrite Hps in Hq. apply elem_of_cons in Hq as [->|Hq].
    - apply Hv8; unfold r; lia.
    - pose proof (Hpr _ Hq). apply Hv8; [lia|]. intros ->. done. }
  exists s8, sep, mid, es1, es2, ps1, ps2. split.
  - unfold SplitChild. run. rewrite E1. cbn. rewrite Eg1, (proj2 (He1 : ps_eqv s s1)) by done.
    rewrite (node_page_child _ _ _ _ _ Hpp Hci), E2. cbn. rewrite E3. cbn.
    destruct (held_get s3 _ c fc Hh3) as [-> _]; [set_solver|]. rewrite E4.
    destruct (held_get s4 _ p fp Hh4) as [-> _]; [set_solver|]. fold s5. by rewrite E6, E7, E8.
  - split; try done.
    + apply held_idle; [done|lia].
    + lia.
    + rewrite (proj1 He58). lia.
    + rewrite (proj2 He58) by lia. by rewrite Hv5.
    + eapply tree_forest_ext; [|exact Htl|]; [rewrite (proj1 He58); lia|]. intros q ?. apply Hv8t. set_solver.
    + eapply tree_forest_ext; [|exact Htr|]; [rewrite (proj1 He58); lia|]. intros q ?. apply Hv8t. set_solver.
    + rewrite Hv8 by (done || lia). done.
    + rewrite Hv8 by (unfold r; lia). done.
    + intros q ? ? ?. rewrite Hv8, Ho4 by (done || unfold r; lia). by apply Hv30.
Qed.
End split.

(** ** Insertion *)

Lemma prefix_len_insert {A} (p : A → bool) l x :
  prefix_len p (insert_at (prefix_len p l) x l) = if p x then S (prefix_len p l) else prefix_len p l.
Proof.
  unfold insert_at. induction l as [|y l IH]; simpl; [by destruct (p x)|].
  destruct (p y) eqn:E; simpl; rewrite E || rewrite ?E; [rewrite IH; by destruct (p x)|].
  destruct (p x); by rewrite ?E.
Qed.

Lemma lookup_insert_at {A} i (x : A) l :
  (i ≤ length l)%nat →
  insert_at i x l !! i = Some x ∧ (∀ j, (j < i)%nat → insert_at i x l !! j = l !! j).
Proof.
  intros Hi. unfold insert_at. split.
  - apply list_lookup_middle. rewrite length_take. lia.
  - intros j Hj. rewrite lookup_app_l by (rewrite length_take; lia). by apply lookup_take_lt.
Qed.

Section insertion.
Context {Pool : Type} `{PageStoreSpec Pool}.
Implicit Types s : Pool.

(** Into a leaf with room. *)
Lemma insert_leaf_spec fuel s id next es key rid :
  ps_idle s → 1 ≤ id < ps_count s → leaf_page (ps_view s id) next es →
  node_full (ps_view s id) = false → entries_sorted es → entry_valid (key, rid) →
  ∃ s', InsertNonFull (S fuel) id key rid s = Some (tt, s') ∧ ps_idle s' ∧ ps_avail s' = ps_avail s ∧
    ps_count s' = ps_count s ∧ leaf_page (ps_view s' id) next (entries_insert key rid es) ∧
    (∀ q, 1 ≤ q < ps_count s → q ≠ id → ps_view s' q = ps_view s q).
Proof.
  intros Hi Hid Hp Hroom Hs Hv. rewrite (node_full_leaf _ _ _ Hp), Z.geb_leb in Hroom. zbool.
  set (i := prefix_len (λ e : Entry, e.1 <? key) es).
  pose proof (prefix_len_le (λ e : Entry, e.1 <? key) es) as Hil.
  pose proof (InsertLeafEntryAt_spec _ _ _ i key rid Hp Hil Hroom Hv) as Hp'.
  assert (insert_at i (key, rid) es = entries_insert key rid es) as Ei.
  { unfold insert_at, entries_insert. unfold i. by destruct (prefix_filter es key Hs) as [-> ->]. }
  rewrite Ei in Hp'.
  destruct (write_page s id _ Hi Hid (lp_wf _ _ _ Hp')) as (f & s1 & s2 & E1 & Eg & E2 & Hi2 & Ha & Hc & Hv2 & Ho).
  exists s2. split_and!; try done; [|by rewrite Hv2].
  cbn [InsertNonFull]. unfold key_count. run. rewrite E1. cbn.
  rewrite Eg, (lp_leaf _ _ _ Hp), (lp_count _ _ _ Hp), Nat2Z.id.
  rewrite (index_while_prefix _ (λ e : Entry, e.1 <? key) es).
  - cbn. fold i. by rewrite E2.
  - intros j [k r] Hj. cbn. by destruct (leaf_page_at _ _ _ _ _ _ Hp Hj) as [-> _].
Qed.

(** One level of the descent, when the child has room. *)
Lemma insert_descend fuel s id keys children c key rid :
  ps_idle s → 1 ≤ id < ps_count s → node_page (ps_view s id) keys children →
  children !! child_index keys key = Some c → 1 ≤ c < ps_count s → node_full (ps_view s c) = false →
  ∃ s', same_store s s' ∧ InsertNonFull (S fuel) id key rid s = InsertNonFull fuel c key rid s'.
Proof.
  intros Hi Hid Hp Hc Hcr Hroom.
  destruct (read_step s id Hi Hid) as (f & s1 & s2 & E1 & Eg & E2 & Hs2).
  destruct (leaf_at_eqv s s2 c) as [Hcr2 Hv2]; [apply Hs2|done|].
  destruct (read_step s2 c) as (g & s3 & s4 & E3 & Eg3 & E4 & Hs4); [apply Hs2|done|].
  exists s4. split; [by eapply same_store_trans|].
  cbn [InsertNonFull]. run. rewrite E1. cbn. rewrite Eg, (np_internal _ _ _ Hp), E2.
  rewrite (FindChildIndex_eq _ _ _ _ Hp), (node_page_child _ _ _ _ _ Hp Hc), E3. cbn.
  by rewrite Eg3, E4, Hv2, Hroom.
Qed.

(** The same when the child is full and is split first. *)
Lemma insert_descend_full fuel s id keys children c key rid :
  ps_idle s → 1 ≤ id < ps_count s → node_page (ps_view s id) keys children →
  children !! child_index keys key = Some c → 1 ≤ c < ps_count s → node_full (ps_view s c) = true →
  ∃ s0, same_store s s0 ∧ ∀ r s1 keys' children' c',
    SplitChild id (child_index keys key) s0 = Some (r, s1) → ps_idle s1 → 1 ≤ id < ps_count s1 →
    node_page (ps_view s1 id) keys' children' → children' !! child_index keys' key = Some c' →
    ∃ s2, same_store s1 s2 ∧ InsertNonFull (S fuel) id key rid s = InsertNonFull fuel c' key rid s2.
Proof.
  intros Hi Hid Hp Hc Hcr Hfull.
  destruct (read_step s id Hi Hid) as (f & s1 & s2 & E1 & Eg & E2 & Hs2).
  destruct (leaf_at_eqv s s2 c) as [Hcr2 Hv2]; [apply Hs2|done|].
  destruct (read_step s2 c) as (g & s3 & s4 & E3 & Eg3 & E4 & Hs4); [apply Hs2|done|].
  exists s4. split; [by eapply same_store_trans|]. intros r s5 keys' children' c' E5 Hi5 Hid5 Hp5 Hc'.
  destruct (read_step s5 id Hi5 Hid5) as (f5 & s6 & s7 & E6 & Eg6 & E7 & Hs7).
  exists s7. split; [done|].
  cbn [InsertNonFull]. run. rewrite E1. cbn. rewrite Eg, (np_internal _ _ _ Hp), E2.
  rewrite (FindChildIndex_eq _ _ _ _ Hp), (node_page_child _ _ _ _ _ Hp Hc), E3. cbn.
  rewrite Eg3, E4, Hv2, Hfull, E5, E6. cbn. rewrite Eg6, E7.
  by rewrite (FindChildIndex_eq _ _ _ _ Hp5), (node_page_child _ _ _ _ _ Hp5 Hc').
Qed.
Lemma tree_eqv s s' h id lo hi first next es ps :
  ps_eqv s s' → tree_at s h id lo hi first next es ps → tree_at s' h id lo hi first next es ps.
Proof.
  intros [Hc Hv] Ht. eapply tree_forest_ext; [|done|]; [lia|]. intros p Hp. apply Hv.
  by apply (tree_forest_pages s) in Ht as (_ & _ & _ & Hr); apply Hr.
Qed.

Lemma forest_pages s h lo hi keys children first next es ps p :
  forest_at s h lo hi keys children first next es ps → p ∈ ps → 1 ≤ p < ps_count s.
Proof. intros Hf Hp. destruct (proj2 (tree_forest_pages s) _ _ _ _ _ _ _ _ _ Hf) as (_ & _ & Hall). by apply Hall. Qed.

Lemma forest_child s h lo hi keys children first next es ps i c :
  forest_at s h lo hi keys children first next es ps → children !! i = Some c → 1 ≤ c < ps_count s.
Proof.
  intros Hf. induction Hf as [h lo hi c' f n es ps Ht|h lo hi k keys c' cs f m n es1 es2 ps1 ps2 Hk Ht Hf IH] in i |- *;
    apply (tree_forest_pages s) in Ht as (Hc & _ & _ & Hall); destruct i as [|i]; intros E; simplify_eq/=; eauto.
Qed.

Lemma forest_ext s s' h lo hi keys children first next es ps :
  ps_count s ≤ ps_count s' → (∀ p, 1 ≤ p < ps_count s → p ∈ ps → ps_view s' p = ps_view s p) →
  forest_at s h lo hi keys children first next es ps → forest_at s' h lo hi keys children first next es ps.
Proof.
  intros Hc Hv Hf. eapply tree_forest_ext; [done..|]. intros p Hp. apply Hv; [|done]. by eapply forest_pages.
Qed.

(** The pages of one child and those around it. *)
Lemma child_disjoint (id : Z) (ps1 psc ps2 : list Z) :
  NoDup (id :: ps1 ++ psc ++ ps2) → NoDup psc ∧ (id ∉ psc) ∧ ∀ q, q ∈ ps1 ++ ps2 → q ≠ id ∧ (q ∉ psc).
Proof.
  intros [Hid Hnd]%NoDup_cons. apply NoDup_app in Hnd as (Hnd1 & Hd1 & Hnd2).
  apply NoDup_app in Hnd2 as (Hndc & Hd2 & Hnd2). split_and!; [done|set_solver|].
  intros q Hq. split; [set_solver|]. intros Hqc. apply elem_of_app in Hq as [Hq|Hq].
  - apply (Hd1 q Hq). set_solver.
  - by apply (Hd2 q).
Qed.

Lemma split_child_pages (id r : Z) (ps1 psc ps2 psl psr : list Z) :
  NoDup (id :: ps1 ++ psc ++ ps2) → psl ++ psr ≡ₚ r :: psc → r ∉ id :: ps1 ++ psc ++ ps2 →
  NoDup (id :: ps1 ++ (psl ++ psr) ++ ps2) ∧
  (∀ p, p ∈ ps1 ++ (psl ++ psr) ++ ps2 → p ∈ ps1 ++ psc ++ ps2 ∨ p = r).
Proof.
  intros Hnd Hps Hr. split.
  - rewrite Hps. cbn [app]. rewrite <- Permutation_middle. rewrite Permutation_swap. by constructor.
  - intros p. rewrite Hps. set_solver.
Qed.

(** After a split the path of [key] continues in one of the halves. *)
Lemma split_path keys children i key (sep c r : Z) :
  i = child_index keys key → length children = S (length keys) → children !! i = Some c →
  insert_at (S i) r children !! child_index (insert_at i sep keys) key = Some (if sep <=? key then r else c).
Proof.
  intros -> Hlc Hc. pose proof (prefix_len_le (λ k, k <=? key) keys) as Hil. rewrite prefix_len_insert.
  destruct (lookup_insert_at (S (child_index keys key)) r children ltac:(lia)) as [Hl1 Hl2].
  destruct (sep <=? key); [done|]. by rewrite Hl2 by lia.
Qed.

(** What the levels above the leaves do before the recursive call on [c]. *)
Record prepared s s1 h id lo hi first next es (ps : list Z) (c : Z) keys children ps1 key : Prop := {
  pr_idle : ps_idle s1;
  pr_avail : ps_avail s1 = ps_avail s;
  pr_count : ps_count s ≤ ps_count s1 ≤ ps_count s + 1;
  pr_page : node_page (ps_view s1 id) keys children;
  pr_keys : keys ≠ [];
  pr_child : children !! child_index keys key = Some c;
  pr_room : node_full (ps_view s1 c) = false;
  pr_forest : forest_at s1 h lo hi keys children first next es ps1;
  pr_nodup : NoDup (id :: ps1);
  pr_pages : ∀ p, p ∈ id :: ps1 → p ∈ ps ∨ ps_count s ≤ p;
  pr_rest : ∀ q, 1 ≤ q < ps_count s → q ∉ ps → ps_view s1 q = ps_view s q
}.

(** The child on the path is full: it is split. *)
Lemma insert_prepare_full fuel s h id lo hi first next keys children es1 esc es2 ps1 psc ps2 c lo' hi' f' n' key rid :
  ps_idle s → 2 < ps_avail s → ps_count s < 2 ^ 31 - 1 → 1 ≤ id < ps_count s →
  node_page (ps_view s id) keys children → node_full (ps_view s id) = false →
  forest_at s h lo hi keys children first next (es1 ++ esc ++ es2) (ps1 ++ psc ++ ps2) →
  focus s h lo hi keys children first next key es1 es2 ps1 ps2 c lo' hi' f' n' →
  tree_at s h c lo' hi' f' n' esc psc → NoDup (id :: ps1 ++ psc ++ ps2) →
  node_full (ps_view s c) = true → dups_below kLeafMaxKeys esc →
  ∃ s1 keys' children' c' ps', InsertNonFull (S fuel) id key rid s = InsertNonFull fuel c' key rid s1 ∧
    prepared s s1 h id lo hi first next (es1 ++ esc ++ es2) (id :: ps1 ++ psc ++ ps2) c' keys' children' ps' key.
Proof.
  intros Hi Hav Hcn Hid Hp Hroom Hf Hfc Htc Hnd Hcf Hd.
  destruct (child_disjoint id ps1 psc ps2 Hnd) as (Hndc & Hidc & Hdisj).
  destruct (proj1 (tree_forest_pages s) _ _ _ _ _ _ _ _ Htc) as (Hcin & _ & _ & Hpr).
  destruct Hfc as [Hch Hrg Hbf Haf _ _ Hspl]. set (r := ps_count s) in *. set (i := child_index keys key) in *.
  rewrite (node_full_node _ _ _ Hp), Z.geb_leb in Hroom. zbool.
  destruct (insert_descend_full fuel s id keys children c key rid) as (s0 & Hs0 & Hrun); auto.
  pose proof Hs0 as (Hi0 & He0 & Ha0). pose proof (proj1 He0) as Hc0.
  destruct (SplitChild_spec s0 id i keys children c h lo' hi' f' n' esc psc) as
    (s1 & sep & mid & esl & esr & psl & psr & E & [Hi1 Ha1 Hc1 Hp1 Hsep Hes Hps Htl Htr Hfl Hfr Hrest]);
    rewrite ?Hc0, ?(proj2 He0) by auto; try done; try lia; [apply prefix_len_le|by eapply tree_eqv|].
  rewrite Hc0 in *. fold r in Hc1, Hp1, Hps, Htr, Hfr, Hrest.
  destruct (split_child_pages id r ps1 psc ps2 psl psr Hnd Hps) as [Hnd' Hin'].
  { intros [Er|Hr]%elem_of_cons; [lia|]. apply (forest_pages _ _ _ _ _ _ _ _ _ _ _ Hf) in Hr. lia. }
  assert (∀ q, q ∈ ps1 ++ ps2 → ps_view s1 q = ps_view s q) as Hvq.
  { intros q Hq. destruct (Hdisj q Hq) as [? ?].
    assert (1 ≤ q < r) by (apply (forest_pages _ _ _ _ _ _ _ _ _ _ _ Hf); set_solver).
    rewrite Hrest; [by apply He0|done..|]. by intros ->. }
  subst esc. pose proof (Hspl s1 sep r mid esl esr psl psr ltac:(lia) Hvq Hsep Htl Htr) as Hf1.
  pose proof (split_path keys children i key sep c r eq_refl (node_page_length _ _ _ Hp) Hch) as Hc'.
  set (c' := if sep <=? key then r else c) in *.
  destruct (Hrun r s1 _ _ c' E Hi1 ltac:(lia) Hp1 Hc') as (s2 & (Hi2 & He2 & Ha2) & Erun).
  pose proof (proj1 He2) as Hc2.
  exists s2, (insert_at i sep keys), (insert_at (S i) r children), c', (ps1 ++ (psl ++ psr) ++ ps2).
  split; [done|]. split; try done; try lia.
  - by rewrite (proj2 He2) by lia.
  - unfold insert_at. by destruct (take i keys).
  - rewrite (proj2 He2) by (by eapply forest_child). unfold c'. by destruct (sep <=? key).
  - eapply forest_ext; [|intros; by apply He2|done]. lia.
  - intros p [->|Hpi]%elem_of_cons; [left; left|].
    destruct (Hin' p Hpi) as [? | Er]; [left; by right|right; unfold r in Er; lia].
  - intros q Hq Hqn. rewrite (proj2 He2) by lia. rewrite Hrest; [by apply He0|done| |].
    + intros ->. apply Hqn. left.
    + intros ->. apply Hqn. right. apply elem_of_app. right. by apply elem_of_app; left.
Qed.

Lemma insert_prepare fuel s h id lo hi first next es ps key rid :
  tree_at s (S h) id lo hi first next es ps → in_range lo hi key → NoDup ps →
  node_full (ps_view s id) = false → dups_below kLeafMaxKeys es → ps_idle s → 2 < ps_avail s →
  ps_count s < 2 ^ 31 - 1 →
  ∃ s1 keys children c ps1, InsertNonFull (S fuel) id key rid s = InsertNonFull fuel c key rid s1 ∧
    prepared s s1 h id lo hi first next es ps c keys children ps1 key.
Proof.
  intros Ht Hr Hnd Hroom Hd Hi Hav Hcn.
  apply tree_node_inv in Ht as (keys & children & ps0 & -> & Hid & Hp & Hkn & Hf).
  destruct (forest_focus _ _ _ _ _ _ _ _ _ _ key Hf Hr) as
    (es1 & esc & es2 & ps1 & psc & ps2 & c & lo' & hi' & f' & n' & Hfc & Htc & -> & ->).
  pose proof (fc_child _ _ _ _ _ _ _ _ _ _ _ _ _ _ _ _ _ _ Hfc) as Hch.
  pose proof (forest_child _ _ _ _ _ _ _ _ _ _ _ _ Hf Hch) as Hcr.
  destruct (node_full (ps_view s c)) eqn:Hcf.
  - eapply insert_prepare_full; try done. by eapply dups_below_part.
  - destruct (insert_descend fuel s id keys children c key rid) as (s1 & (Hi1 & He1 & Ha1) & E); auto.
    pose proof (proj1 He1) as Hc1. exists s1, keys, children, c, (ps1 ++ psc ++ ps2).
    split; [done|]. split; try done; try lia.
    + by rewrite (proj2 He1).
    + by rewrite (proj2 He1).
    + eapply forest_ext; [|intros; by apply He1|done]. lia.
    + tauto.
    + intros q ? _. by apply He1.
Qed.
(** The outcome of inserting into a tree whose pages were [ps]. *)
Record grown s s' (ps ps' : list Z) (n : Z) : Prop := {
  gr_idle : ps_idle s';
  gr_avail : ps_avail s' = ps_avail s;
  gr_count : ps_count s ≤ ps_count s' ≤ ps_count s + n;
  gr_nodup : NoDup ps';
  gr_pages : ∀ p, p ∈ ps' → p ∈ ps ∨ ps_count s ≤ p;
  gr_rest : ∀ q, 1 ≤ q < ps_count s → q ∉ ps → ps_view s' q = ps_view s q
}.

(** One child of a prepared node has grown. *)
Lemma grown_child s s1 s2 h id lo hi first next es ps c keys children psa psc psb psc' key n :
  prepared s s1 h id lo hi first next es ps c keys children (psa ++ psc ++ psb) key →
  (∀ p, p ∈ psa ++ psc ++ psb → p < ps_count s1) → 1 ≤ id < ps_count s → grown s1 s2 psc psc' n →
  grown s s2 ps (id :: psa ++ psc' ++ psb) (n + 1).
Proof.
  intros Hpr Hlt Hid [Hi2 Ha2 Hc2 Hnd2 Hp2 Hr2]. destruct (pr_count _ _ _ _ _ _ _ _ _ _ _ _ _ _ _ Hpr) as [Hc1 Hc1'].
  pose proof (pr_nodup _ _ _ _ _ _ _ _ _ _ _ _ _ _ _ Hpr) as Hnd.
  pose proof (pr_pages _ _ _ _ _ _ _ _ _ _ _ _ _ _ _ Hpr) as Hps.
  destruct (child_disjoint _ _ _ _ Hnd) as (Hndc & Hidc & Hdisj).
  apply NoDup_cons in Hnd as [Hid' Hnd]. apply NoDup_app in Hnd as (Hnda & Hda & (_ & Hdb & Hndb)%NoDup_app).
  split; [done| |lia| | |].
  - rewrite Ha2. apply (pr_avail _ _ _ _ _ _ _ _ _ _ _ _ _ _ _ Hpr).
  - apply NoDup_cons. split.
    + rewrite !elem_of_app. intros [?|[Hin|?]]; [set_solver| |set_solver].
      apply Hp2 in Hin as [?|?]; [done|lia].
    + apply NoDup_app. split_and!; [done| |apply NoDup_app; split_and!; [done| |done]].
      * intros q Hq Hin. apply elem_of_app in Hin as [Hin|Hin]; [|apply (Hda q Hq); set_solver].
        apply Hp2 in Hin as [Hin|Hin]; [apply (Hda q Hq); set_solver|].
        assert (q < ps_count s1) by (apply Hlt; set_solver). lia.
      * intros q Hin Hq. apply Hp2 in Hin as [Hin|Hin]; [by apply (Hdb q)|].
        assert (q < ps_count s1) by (apply Hlt; set_solver). lia.
  - intros p Hin. apply elem_of_cons in Hin as [->|Hin]; [apply Hps; left|].
    rewrite !elem_of_app in Hin. destruct Hin as [Hin|[Hin|Hin]]; [apply Hps; set_solver| |apply Hps; set_solver].
    apply Hp2 in Hin as [Hin|Hin]; [apply Hps; set_solver|right; lia].
  - intros q Hq Hqn. rewrite Hr2; [by apply (pr_rest _ _ _ _ _ _ _ _ _ _ _ _ _ _ _ Hpr)|lia|].
    intros Hin. destruct (Hps q) as [?|?]; [set_solver|done|lia].
Qed.

Lemma InsertNonFull_spec fuel s h id lo hi first next es ps key rid :
  tree_at s h id lo hi first next es ps → in_range lo hi key → NoDup ps →
  node_full (ps_view s id) = false → dups_below kLeafMaxKeys es → entry_valid (key, rid) →
  ps_idle s → 2 < ps_avail s → ps_count s + Z.of_nat h < 2 ^ 31 → (h < fuel)%nat →
  ∃ s' ps', InsertNonFull fuel id key rid s = Some (tt, s') ∧ grown s s' ps ps' (Z.of_nat h) ∧
    tree_at s' h id lo hi first next (entries_insert key rid es) ps'.
Proof.
  induction h as [|h IH] in fuel, s, id, lo, hi, first, next, es, ps |- *;
    intros Ht Hr Hnd Hroom Hd Hv Hi Hav Hcn Hf; (destruct fuel as [|fuel]; [lia|]).
  - apply tree_leaf_inv in Ht as (-> & -> & Hid & Hp & Hs & Hb).
    destruct (insert_leaf_spec fuel s id next es key rid) as (s' & E & Hi' & Ha & Hc & Hp' & Ho); try done.
    exists s', [id]. split_and!; [done| |].
    + split; try done; [lia|tauto|]. intros q ? Hq. apply Ho; [done|set_solver].
    + constructor; [lia|done|by apply entries_insert_sorted|]. rewrite Forall_forall in Hb.
      apply Forall_forall. intros e [->|He]%elem_of_entries_insert; auto.
  - destruct (insert_prepare fuel s h id lo hi first next es ps key rid) as (s1 & keys & children & c & ps1 & Erun & Hpr);
      try done; [lia|].
    apply tree_node_inv in Ht as (_ & _ & ps0 & -> & Hid & _ & _ & _).
    pose proof Hpr as [Hi1 Ha1 Hc1 Hp1 Hkn1 Hch1 Hroom1 Hf1 Hnd1 Hpg1 Hrest1].
    destruct (forest_focus _ _ _ _ _ _ _ _ _ _ key Hf1 Hr) as
      (es1 & esc & es2 & psa & psc & psb & c' & lo' & hi' & f' & n' & Hfc & Htc & -> & ->).
    destruct (child_disjoint _ _ _ _ Hnd1) as (Hndc & Hidc & Hdisj).
    destruct Hfc as [Hch Hrg Hbf Haf _ Hrep _]. rewrite Hch1 in Hch. injection Hch as <-.
    destruct (IH fuel s1 c lo' hi' f' n' esc psc) as (s2 & psc' & E2 & Hg & Ht2); try done; try lia.
    { by eapply dups_below_part. }
    exists s2, (id :: psa ++ psc' ++ psb). rewrite Erun. split_and!; [done| |].
    + replace (Z.of_nat (S h)) with (Z.of_nat h + 1) by lia. eapply grown_child; try done.
      intros p Hp. by apply (forest_pages _ _ _ _ _ _ _ _ _ _ _ Hf1).
    + destruct Hg as [Hi2 Ha2 Hc2 Hnd2 Hp2 Hr2]. rewrite entries_insert_app by done.
      econstructor; [lia| |done|].
      * rewrite Hr2; [done|lia|done].
      * apply Hrep; [lia| |done]. intros p Hp. destruct (Hdisj p Hp) as [? ?]. apply Hr2; [|done].
        apply (forest_pages _ _ _ _ _ _ _ _ _ _ _ Hf1). set_solver.
Qed.
End insertion.

(** ** Indexes *)

Section index.
Context {Pool : Type} `{PageStoreSpec Pool}.
Implicit Types s : Pool.

Definition root_of s (meta : Z) : Z := ReadFixedS 4 (ps_view s meta) 0.

(** The store holds, under the meta page [meta], an index with entries [es] on
    the pages [ps]. *)
Definition index_at s (meta : Z) (es : list Entry) (ps : list Z) : Prop :=
  1 ≤ meta < ps_count s ∧ NoDup (meta :: ps) ∧
  ∃ h first, tree_at s h (root_of s meta) None None first kInvalidPageId es ps.

(** Fuel: a tree is lower than it has pages, and has fewer than the store. *)
Lemma index_height s meta h first es ps :
  1 ≤ meta < ps_count s → NoDup (meta :: ps) →
  tree_at s h (root_of s meta) None None first kInvalidPageId es ps →
  Z.of_nat h < Z.of_nat (length ps) ≤ ps_count s - 2 ∧ 2 ^ Z.of_nat h ≤ Z.of_nat (length ps).
Proof.
  intros Hm Hnd Ht. destruct (proj1 (tree_forest_pages s) _ _ _ _ _ _ _ _ Ht) as (_ & _ & Hl & Hall).
  pose proof (NoDup_range_length (meta :: ps) (ps_count s) Hnd) as Hlen. simpl in Hlen.
  assert (∀ p, p ∈ meta :: ps → 1 ≤ p < ps_count s) as Hr by (intros p [->|?]%elem_of_cons; auto).
  specialize (Hlen Hr). pose proof (proj1 (tree_forest_height s) _ _ _ _ _ _ _ _ Ht). lia.
Qed.

Lemma index_eqv s s' meta es ps : ps_eqv s s' → index_at s meta es ps → index_at s' meta es ps.
Proof.
  intros He (Hm & Hnd & h & first & Ht). pose proof (proj1 He) as Hc. split_and!; [lia|lia|done|].
  exists h, first. unfold root_of. rewrite (proj2 He) by done. by eapply tree_eqv.
Qed.

Lemma GetRootPageId_spec s meta :
  ps_idle s → 1 ≤ meta < ps_count s →
  ∃ s', GetRootPageId meta s = Some (root_of s meta, s') ∧ same_store s s'.
Proof.
  intros Hi Hm. destruct (read_step s meta Hi Hm) as (f & s1 & s2 & E1 & Eg & E2 & Hs).
  exists s2. split; [|done]. unfold GetRootPageId. run. rewrite E1. cbn. by rewrite Eg, E2.
Qed.

Lemma SetRootPageId_spec s meta root :
  ps_idle s → 1 ≤ meta < ps_count s → in_i32 root →
  ∃ s', SetRootPageId meta root s = Some (tt, s') ∧ ps_idle s' ∧ ps_avail s' = ps_avail s ∧
    ps_count s' = ps_count s ∧ root_of s' meta = root ∧
    (∀ q, 1 ≤ q < ps_count s → q ≠ meta → ps_view s' q = ps_view s q).
Proof.
  intros Hi Hm Hr. assert (page_wf (ps_view s meta)) as Hw by (apply ps_view_wf; [by destruct Hi|done]).
  destruct (write_page s meta (WriteFixed 4 (ps_view s meta) 0 root) Hi Hm) as
    (f & s1 & s2 & E1 & Eg & E2 & Hi2 & Ha & Hc & Hv & Ho); [in_page|].
  exists s2. split_and!; try done.
  - unfold SetRootPageId. run. rewrite E1. cbn. by rewrite Eg, E2.
  - unfold root_of. rewrite Hv. apply ReadS_WriteFixed_eq; [lia|offsets; rewrite Hw; blia|blia].
Qed.

(** A full root: a new root over the two halves of the old one. *)
Lemma split_root_spec s meta h first es ps :
  1 ≤ meta < ps_count s → NoDup (meta :: ps) →
  tree_at s h (root_of s meta) None None first kInvalidPageId es ps →
  node_full (ps_view s (root_of s meta)) = true → dups_below kLeafMaxKeys es →
  ps_idle s → 2 < ps_avail s → ps_count s < 2 ^ 31 - 2 →
  let p := ps_count s in
  ∃ s' ps', split_root meta (root_of s meta) s = Some (p, s') ∧
    root_of s' meta = p ∧ node_full (ps_view s' p) = false ∧
    tree_at s' (S h) p None None first kInvalidPageId es ps' ∧ grown s s' (meta :: ps) (meta :: ps') 2.
Proof.
  intros Hm Hnd Ht Hfull Hd Hi Hav Hcn p. set (root := root_of s meta) in *.
  destruct (proj1 (tree_forest_pages s) _ _ _ _ _ _ _ _ Ht) as (Hrin & _ & _ & Hall).
  apply NoDup_cons in Hnd as [Hmn Hnd].
  pose proof (new_root_spec blank_page root page_wf_blank ltac:(apply ReadFixedS4_range)) as Hnr.
  destruct (create_page s _ Hi ltac:(lia) (np_wf _ _ _ Hnr)) as
    (f & s1 & s2 & E1 & Eg & E2 & Hi2 & Ha2 & Hc2 & Hv2 & Ho2). fold p in E1, E2, Hc2, Hv2, Ho2.
  assert (p ∉ ps) as Hpn by (intros Hp; apply Hall in Hp; unfold p in Hp; lia).
  destruct (SplitChild_spec s2 p 0 [] [root] root h None None first kInvalidPageId es ps) as
    (s3 & sep & mid & es1 & es2 & ps1 & ps2 & E3 & [Hi3 Ha3 Hc3 Hp3 Hsep Hes Hps Htl Htr Hfl Hfr Hrest]);
    try done; try lia; try (by rewrite Hv2).
  { eapply tree_forest_ext; [|exact Ht|]; [lia|]. intros q Hq. apply Ho2. by apply Hall. }
  { rewrite Ho2; [done|by apply Hall]. }
  rewrite Hc2 in Hc3, Hp3, Hps, Htr, Hfr, Hrest.
  destruct (SetRootPageId_spec s3 meta p Hi3 ltac:(unfold p; lia) ltac:(unfold p; blia)) as
    (s4 & E4 & Hi4 & Ha4 & Hc4 & Hr4 & Ho4).
  assert (∀ q, q ∈ ps1 ++ ps2 → q ∈ ps ∨ q = p + 1) as Hin by (intros q; rewrite Hps; set_solver).
  assert (∀ q, q ∈ ps1 ++ ps2 → ps_view s4 q = ps_view s3 q) as Hv4.
  { intros q Hq. assert (q ∈ ps ∨ q = p + 1) as [Hq'|Hq'] by auto.
    - pose proof (Hall _ Hq'). apply Ho4; [lia|]. by intros ->.
    - apply Ho4; unfold p in *; lia. }
  exists s4, (p :: ps1 ++ ps2). split_and!; try done.
  - unfold split_root. run. rewrite E1. cbn [fst snd]. by rewrite Eg, E2, E3, E4.
  - rewrite Ho4 by (unfold p in *; lia). by rewrite (node_full_node _ _ _ Hp3).
  - econstructor; [unfold p in *; lia| |by apply (not_eq_sym (nil_cons (x := sep) (l := [])))|].
    + rewrite Ho4 by (unfold p in *; lia). exact Hp3.
    + rewrite Hes. eapply forest_cons; [done| |constructor].
      * eapply tree_forest_ext; [|exact Htl|]; [lia|]. intros q ?. apply Hv4. set_solver.
      * eapply tree_forest_ext; [|exact Htr|]; [lia|]. intros q ?. apply Hv4. set_solver.
  - split; [done|lia|unfold p in *; lia| | |].
    + apply NoDup_cons. split.
      * intros [Hq|[Hq|Hq]%Hin]%elem_of_cons; [unfold p in *; lia|done|unfold p in *; lia].
      * rewrite Hps. rewrite Permutation_swap. apply NoDup_cons. split; [|by apply NoDup_cons].
        intros [Hq|Hq]%elem_of_cons; [unfold p in *; lia|]. apply Hall in Hq. unfold p in *; lia.
    + intros q [->|[->|[Hq| ->]%Hin]%elem_of_cons]%elem_of_cons; [left; left|right; unfold p; lia|left; by right|right; unfold p; lia].
    + intros q Hq Hqn. rewrite Ho4; [|lia|set_solver]. rewrite Hrest; [by apply Ho2|lia|unfold p; lia|].
      intros ->. apply Hqn. by right.
Qed.
Lemma grown_trans s s1 s2 ps ps1 ps2 n m : grown s s1 ps ps1 n → grown s1 s2 ps1 ps2 m → grown s s2 ps ps2 (n + m).
Proof.
  intros [Hi1 Ha1 Hc1 Hnd1 Hp1 Hr1] [Hi2 Ha2 Hc2 Hnd2 Hp2 Hr2]. split; [done|lia|lia|done| |].
  - intros p [Hp|Hp]%Hp2; [by apply Hp1|right; lia].
  - intros q Hq Hqn. rewrite Hr2; [by apply Hr1|lia|]. intros [?|?]%Hp1; [done|lia].
Qed.

Lemma grown_weaken s s' ps ps' n m : n ≤ m → grown s s' ps ps' n → grown s s' ps ps' m.
Proof. intros Hn [Hi Ha Hc Hnd Hps Hr]. split; (done || lia). Qed.

Lemma grown_frame s s' ps ps' n p :
  grown s s' ps ps' n → p ∉ ps → 1 ≤ p < ps_count s → grown s s' (p :: ps) (p :: ps') n.
Proof.
  intros [Hi Ha Hc Hnd Hps Hr] Hp Hpr. split; try done.
  - apply NoDup_cons. split; [|done]. intros [?|?]%Hps; [done|lia].
  - intros q [->|Hq]%elem_of_cons; [left; left|]. apply Hps in Hq as [?|?]; [left; by right|by right].
  - intros q Hq Hqn. apply Hr; [done|]. intros ?. apply Hqn. by right.
Qed.

Lemma grown_same s s' ps : same_store s s' → NoDup ps → grown s s' ps ps 0.
Proof.
  intros (Hi & He & Ha) Hnd. pose proof (proj1 He). split; [done|done|lia|done|tauto|].
  intros q Hq _. by apply He.
Qed.

(** The root, split if it is full. *)
Lemma root_with_room s meta h first es ps :
  1 ≤ meta < ps_count s → NoDup (meta :: ps) →
  tree_at s h (root_of s meta) None None first kInvalidPageId es ps → dups_below kLeafMaxKeys es →
  ps_idle s → 2 < ps_avail s → ps_count s < 2 ^ 31 - 2 →
  ∃ s' root' h' ps',
    (if node_full (ps_view s (root_of s meta)) then split_root meta (root_of s meta) else ret (root_of s meta)) s =
      Some (root', s') ∧
    (h' ≤ S h)%nat ∧ root_of s' meta = root' ∧ node_full (ps_view s' root') = false ∧
    tree_at s' h' root' None None first kInvalidPageId es ps' ∧ grown s s' (meta :: ps) (meta :: ps') 2.
Proof.
  intros Hm Hnd Ht Hd Hi Hav Hcn. destruct (node_full _) eqn:Hfull.
  - destruct (split_root_spec s meta h first es ps) as (s' & ps' & E & Hr & Hroom & Ht' & Hg); try done.
    by exists s', (ps_count s), (S h), ps'.
  - exists s, (root_of s meta), h, ps. split_and!; try done; [lia|].
    destruct (grown_same s s (meta :: ps)) as [??????]; [by apply same_store_refl|done|]. split; (done || lia).
Qed.

(** The pages one insertion can add: two for a new root and one per level, of
    which a store of fewer than [2 ^ 31] pages has at most 31. *)
Definition kMaxGrowth : Z := 34.

(** Inserting an entry into an index. *)
Lemma Insert_spec fuel s meta key rid es ps :
  index_at s meta es ps → dups_below kLeafMaxKeys es → entry_valid (key, rid) → ps_idle s → 2 < ps_avail s →
  ps_count s + kMaxGrowth < 2 ^ 31 → ps_count s ≤ Z.of_nat fuel →
  ∃ s' ps', Insert fuel meta key rid s = Some (Status_OK, s') ∧
    index_at s' meta (entries_insert key rid es) ps' ∧ grown s s' (meta :: ps) (meta :: ps') kMaxGrowth.
Proof.
  unfold kMaxGrowth. intros (Hm & Hnd & h & first & Ht) Hd Hv Hi Hav Hcn Hf.
  destruct (index_height s meta h first es ps Hm Hnd Ht) as [Hh1 Hh2].
  assert (Z.of_nat h < 31) by (apply (Z.pow_lt_mono_r_iff 2); lia).
  assert (1 ≤ root_of s meta < ps_count s) as Hrr by (apply (tree_forest_pages s) in Ht as (? & _ & _ & Hall); auto).
  destruct (GetRootPageId_spec s meta Hi Hm) as (s1 & E1 & Hs1). pose proof Hs1 as (Hi1 & He1 & _).
  destruct (leaf_at_eqv s s1 _ He1 Hrr) as [Hrr1 Hv1].
  destruct (read_step s1 (root_of s meta) Hi1 Hrr1) as (f & s2 & s3 & E2 & Eg & E3 & Hs3).
  pose proof (same_store_trans _ _ _ Hs1 Hs3) as Hs03. destruct Hs03 as (Hi3 & He3 & Ha3).
  pose proof (proj1 He3) as Hc3. pose proof (grown_same s s3 (meta :: ps) ltac:(done) Hnd) as Hg3.
  assert (root_of s3 meta = root_of s meta) as Hr3 by (unfold root_of; by rewrite (proj2 He3)).
  destruct (root_with_room s3 meta h first es ps) as (s4 & root4 & h4 & ps4 & E4 & Hh4 & Hr4 & Hroom4 & Ht4 & Hg4);
    rewrite ?Hr3; try done; try lia; [by eapply tree_eqv|].
  rewrite Hr3, (proj2 He3) in E4 by done.
  pose proof (grown_trans _ _ _ _ _ _ _ _ Hg3 Hg4) as Hg04. pose proof Hg04 as [Hi4 Ha4 Hc4 Hnd4 Hp4 Hrest4].
  apply NoDup_cons in Hnd4 as [Hmn4 Hnd4].
  destruct (InsertNonFull_spec fuel s4 h4 root4 None None first kInvalidPageId es ps4 key rid) as
    (s5 & ps5 & E5 & Hg5 & Ht5); try done; try lia.
  pose proof (grown_frame _ _ _ _ _ meta Hg5 Hmn4 ltac:(lia)) as Hg5'.
  exists s5, ps5. split_and!; [| |by eapply grown_weaken, grown_trans; [|done..]; lia].
  - unfold Insert. erewrite bind_Some by exact E1. unfold fetch. rewrite bind_assoc.
    erewrite bind_Some by (unfold lift; by rewrite E2). cbn beta iota. rewrite bind_ret. unfold data_of.
    rewrite bind_gets, Eg.
    erewrite bind_Some by (unfold unpin, lift; by rewrite E3). rewrite Hv1.
    erewrite bind_Some by exact E4. by erewrite bind_Some by exact E5.
  - split; [destruct Hg5'; lia|]. split; [by destruct Hg5'|]. exists h4, first.
    assert (root_of s5 meta = root4) as ->; [|done].
    rewrite <- Hr4. unfold root_of. by rewrite (gr_rest _ _ _ _ _ Hg5) by (done || lia).
Qed.
End index.
