(* ===== verification/BPlusTreeSearch.v ===== *)
(** * Searching and deleting in the B+ tree

    The walks along the leaves compute filters of the sorted list of entries;
    deletion removes one entry.  With [BPlusTreeOps.Insert_spec] this gives the
    refinement theorem: any sequence of operations on an index behaves as on a
    sorted list. *)

From stdpp Require Import sorting.
From S2P Require Import Prelude Util PageManager PageStore BufferPool BPlusNode BPlusTree BPlusTreeSpec BPlusTreeOps.

(** ** One leaf *)

Lemma leaf_tail d next es i k r :
  leaf_page d next es → es !! i = Some (k, r) →
  LeafKeyAt d i = k ∧ LeafRidAt d i = r ∧ drop i es = (k, r) :: drop (S i) es.
Proof.
  intros Hp Hi. destruct (leaf_page_at _ _ _ _ _ _ Hp Hi) as [-> ->]. split_and!; [done..|]. by apply drop_S.
Qed.

(** Below, [rem] is the number of entries from [i] on. *)
Lemma leaf_case (es : list Entry) i rem :
  rem = length (drop i es) →
  match rem with
  | O => drop i es = []
  | S rem' => ∃ k r, es !! i = Some (k, r) ∧ rem' = length (drop (S i) es)
  end.
Proof.
  intros ->. destruct (drop i es) as [|[k r] l] eqn:E; [done|]. exists k, r.
  assert (es !! i = Some (k, r)) as Hi by (rewrite <- (Nat.add_0_r i), <- lookup_drop, E; done).
  split; [done|]. rewrite (drop_S _ _ _ Hi) in E. by simplify_eq/=.
Qed.

Definition has_key (key : Z) (es : list Entry) : list Entry := filter (λ e, e.1 = key) es.

Lemma has_key_app key es1 es2 : has_key key (es1 ++ es2) = has_key key es1 ++ has_key key es2.
Proof. apply filter_app. Qed.

Lemma has_key_above key es : Forall (λ e, key < e.1) es → has_key key es = [].
Proof. intros Hf. apply filter_none. eapply Forall_impl; [done|]. simpl. lia. Qed.

Lemma has_key_below key es : Forall (λ e, e.1 < key) es → has_key key es = [].
Proof. intros Hf. apply filter_none. eapply Forall_impl; [done|]. simpl. lia. Qed.

Lemma sorted_above (es : list Entry) i k r key :
  entries_sorted es → es !! i = Some (k, r) → key < k → Forall (λ e, key < e.1) (drop i es).
Proof.
  intros Hs Hi Hk. apply Forall_lookup. intros j e Hj. rewrite lookup_drop in Hj.
  pose proof (sorted_lookup es i (i + j) _ _ Hs ltac:(lia) Hi Hj). simpl in *. lia.
Qed.

Lemma search_entries_spec d next es key i rem results :
  leaf_page d next es → entries_sorted es → rem = length (drop i es) →
  ∃ b, search_entries d key i rem results = (results ++ (has_key key (drop i es)).*2, b) ∧
    (b = true → ∃ e, e ∈ drop i es ∧ key < e.1).
Proof.
  intros Hp Hs. induction rem as [|rem IH] in i, results |- *; intros Hr; apply leaf_case in Hr.
  { rewrite Hr. exists false. cbn. by rewrite app_nil_r. }
  destruct Hr as (k & r & Hi & Hr). destruct (leaf_tail _ _ _ _ _ _ Hp Hi) as (Hk & Hrid & Hd).
  cbn [search_entries]. rewrite Hk, Hrid. destruct (k =? key) eqn:E1; [|destruct (k >? key) eqn:E2]; zbool.
  - destruct (IH (S i) (results ++ [r]) Hr) as (b & E & Hb). exists b. rewrite E, Hd. split.
    + unfold has_key. rewrite filter_cons, decide_True by done. cbn. by rewrite <- app_assoc.
    + intros (e & He & ?)%Hb. exists e. split; [by right|done].
  - exists true. split; [|intros _; exists (k, r); rewrite Hd; split; [left|simpl; lia]].
    rewrite has_key_above; [cbn; by rewrite app_nil_r|]. apply (sorted_above es i k r); [done..|lia].
  - destruct (IH (S i) results Hr) as (b & E & Hb). exists b. rewrite E, Hd. split.
    + unfold has_key. by rewrite filter_cons, decide_False.
    + intros (e & He & ?)%Hb. exists e. split; [by right|done].
Qed.

(** Entries between the bounds of a range scan. *)
Definition within (skip stop : Z → bool) (es : list Entry) : list Entry :=
  filter (λ e, skip e.1 = false ∧ stop e.1 = false) es.

Lemma within_app skip stop es1 es2 : within skip stop (es1 ++ es2) = within skip stop es1 ++ within skip stop es2.
Proof. apply filter_app. Qed.

Definition upward (stop : Z → bool) : Prop := ∀ k k', k ≤ k' → stop k = true → stop k' = true.

Lemma within_stopped skip stop (es : list Entry) :
  Forall (λ e, stop e.1 = true) es → within skip stop es = [].
Proof. intros Hf. apply filter_none. eapply Forall_impl; [done|]. intros e He [_ ?]. simpl in He. congruence. Qed.

Lemma range_entries_spec d next es skip stop i rem results :
  leaf_page d next es → entries_sorted es → upward stop → rem = length (drop i es) →
  ∃ b, range_entries d skip stop i rem results = (results ++ within skip stop (drop i es), b) ∧
    (b = true → ∃ e, e ∈ drop i es ∧ stop e.1 = true).
Proof.
  intros Hp Hs Hup. induction rem as [|rem IH] in i, results |- *; intros Hr; apply leaf_case in Hr.
  { rewrite Hr. exists false. cbn. by rewrite app_nil_r. }
  destruct Hr as (k & r & Hi & Hr). destruct (leaf_tail _ _ _ _ _ _ Hp Hi) as (Hk & Hrid & Hd).
  cbn [range_entries]. rewrite Hk, Hrid. destruct (skip k) eqn:E1; [|destruct (stop k) eqn:E2].
  - destruct (IH (S i) results Hr) as (b & E & Hb). exists b. rewrite E, Hd. split.
    + unfold within. rewrite filter_cons, decide_False; [done|]. intros [? _]. simpl in *. congruence.
    + intros (e & He & ?)%Hb. exists e. split; [by right|done].
  - exists true. split; [|intros _; exists (k, r); rewrite Hd; split; [left|done]].
    rewrite within_stopped; [by rewrite app_nil_r|]. apply Forall_lookup. intros j e Hj. rewrite lookup_drop in Hj.
    apply (Hup k); [|done]. exact (sorted_lookup es i (i + j) _ _ Hs ltac:(lia) Hi Hj).
  - destruct (IH (S i) (results ++ [(k, r)]) Hr) as (b & E & Hb). exists b. rewrite E, Hd. split.
    + unfold within. rewrite filter_cons, decide_True by done. by rewrite <- app_assoc.
    + intros (e & He & ?)%Hb. exists e. split; [by right|done].
Qed.

(** Removal of the first occurrence of an entry. *)
Fixpoint entries_delete (key : Z) (rid : RecordId) (es : list Entry) : list Entry :=
  match es with
  | [] => []
  | e :: es' => if decide (e = (key, rid)) then es' else e :: entries_delete key rid es'
  end.

Lemma delete_entries_spec d next es key rid i rem :
  leaf_page d next es → entries_sorted es → rem = length (drop i es) →
  if decide ((key, rid) ∈ drop i es) then
    ∃ j, delete_entries d key rid i rem = inl j ∧ (j < length es)%nat ∧
      remove_at j es = take i es ++ entries_delete key rid (drop i es)
  else ∃ b, delete_entries d key rid i rem = inr b.
Proof.
  intros Hp Hs. induction rem as [|rem IH] in i |- *; intros Hr; apply leaf_case in Hr.
  { rewrite Hr, decide_False by set_solver. by exists false. }
  destruct Hr as (k & r & Hi & Hr). destruct (leaf_tail _ _ _ _ _ _ Hp Hi) as (Hk & Hrid & Hd).
  cbn [delete_entries]. rewrite Hk, Hrid. specialize (IH (S i) Hr).
  destruct (k >? key) eqn:E1; [|destruct ((k =? key) && bool_decide (r = rid)) eqn:E2]; zbool.
  - pose proof (sorted_above es i k r key Hs Hi E1) as Ha. rewrite decide_False; [by exists true|].
    intros Hin. rewrite Forall_forall in Ha. apply Ha in Hin. simpl in Hin. lia.
  - clear Hk. subst k. match goal with Hb : bool_decide _ = true |- _ => apply bool_decide_eq_true in Hb as -> end.
    rewrite decide_True by (rewrite Hd; left). exists i. split_and!; [done|by apply lookup_lt_Some in Hi|].
    unfold remove_at. rewrite Hd. cbn. by rewrite decide_True.
  - assert ((k, r) ≠ (key, rid)) as Hne.
    { intros [= -> ->]. by rewrite Z.eqb_refl, bool_decide_true in E2. }
    rewrite Hd. cbn [entries_delete]. rewrite (decide_False (P := _ = _)) by done. case_decide as Hin.
    + rewrite decide_True by set_solver. destruct IH as (j & -> & Hj & E). exists j. split_and!; [done..|].
      rewrite E, (take_S_r _ _ _ Hi), <- app_assoc. done.
    + rewrite decide_False by set_solver. done.
Qed.

(** ** Walking the leaves *)

Section walks.
Context {Pool : Type} `{PageStoreSpec Pool}.
Implicit Types s : Pool.

(** The first leaf of a chain, seen in a store with the same pages. *)
Lemma chain_step s s0 l n es chunks :
  leaf_chain s l n ((l, es) :: chunks) → ps_idle s0 → ps_eqv s s0 →
  ∃ f s1 s2 m, (l =? kInvalidPageId) = false ∧ ps_fetch l s0 = (Some f, s1) ∧ ps_get f s1 = ps_view s l ∧
    ps_unpin l false s1 = (true, s2) ∧ same_store s0 s2 ∧ ps_eqv s s2 ∧
    leaf_page (ps_view s l) m es ∧ leaf_chain s m n chunks.
Proof.
  intros (_ & Hl & m & Hp & Hc) Hi He. destruct (leaf_at_eqv s s0 l He Hl) as [Hl0 Hv0].
  destruct (read_step s0 l Hi Hl0) as (f & s1 & s2 & E1 & Eg & E2 & Hs). exists f, s1, s2, m.
  split_and!; try done; try apply Hs.
  - apply Z.eqb_neq. unfold kInvalidPageId. lia.
  - congruence.
  - etrans; [done|apply Hs].
Qed.

Lemma chain_first s l n es chunks : leaf_chain s l n ((l, es) :: chunks) → 1 ≤ l < ps_count s.
Proof. by intros (_ & ? & _). Qed.

Lemma invalid_refl : (kInvalidPageId =? kInvalidPageId) = true.
Proof. done. Qed.

Lemma search_loop_spec s chunks fuel key first l results s0 :
  leaf_chain s l kInvalidPageId chunks → entries_sorted (concat chunks.*2) →
  (length chunks ≤ fuel)%nat → ps_idle s0 → ps_eqv s s0 →
  ∃ s1, search_loop fuel key first l results s0 =
      Some (results ++ (has_key key (concat chunks.*2)).*2, s1) ∧ same_store s0 s1.
Proof.
  induction chunks as [|[l' es] chunks IH] in fuel, first, l, results, s0 |- *; intros Hc Hs Hf Hi He.
  { cbn in Hc. subst l. exists s0. split; [|by apply same_store_refl].
    destruct fuel; cbn [search_loop]; rewrite invalid_refl; cbn; by rewrite app_nil_r. }
  pose proof Hc as (-> & _). destruct fuel as [|fuel]; [simpl in Hf; lia|]. cbn in Hf.
  destruct (chain_step s s0 l' _ es chunks Hc Hi He) as (f & s1 & s2 & m & Hne & E1 & Eg & E2 & Hs2 & He2 & Hp & Hc').
  cbn [fmap list_fmap concat snd] in Hs |- *. apply sorted_app_inv in Hs as (Hs1 & Hsr & Hcross).
  set (i := if first then index_while (λ i, LeafKeyAt (ps_view s l') i <? key) 0 (length es) else 0%nat).
  assert (has_key key (drop i es) = has_key key es) as Hdrop.
  { unfold i. destruct first; [|by rewrite drop_0].
    rewrite (index_while_prefix _ (λ e : Entry, e.1 <? key) es).
    - cbn [Nat.add]. set (j := prefix_len _ es). rewrite <- (take_drop j es) at 2. rewrite has_key_app.
      rewrite (has_key_below key (take j es)); [done|]. unfold j. destruct (prefix_filter es key Hs1) as [-> _].
      apply Forall_forall. by intros e [? _]%list_elem_of_filter.
    - intros j [k r] Hj. cbn. by destruct (leaf_page_at _ _ _ _ _ _ Hp Hj) as [-> _]. }
  destruct (search_entries_spec (ps_view s l') m es key i (length es - i) results Hp Hs1) as (b & Es & Hb);
    [by rewrite length_drop|]. rewrite Hdrop in Es.
  assert (search_loop (S fuel) key first l' results s0 =
    (if b then ret (results ++ (has_key key es).*2) else search_loop fuel key false m (results ++ (has_key key es).*2)) s2) as Estep.
  { cbn [search_loop]. rewrite Hne. unfold key_count. run. rewrite E1. cbn.
    rewrite Eg, (lp_count _ _ _ Hp), Nat2Z.id. fold i. rewrite Es, E2, (lp_next _ _ _ Hp). by destruct b. }
  rewrite Estep, has_key_app, fmap_app, app_assoc. destruct b.
  - destruct (Hb eq_refl) as (e & He' & Hlt). exists s2. split; [|done].
    rewrite (has_key_above key (concat _)); [by rewrite app_nil_r|]. apply Forall_forall. intros e2 He2'.
    assert (e ∈ es) as Hee by (rewrite <- (take_drop i es); set_solver).
    specialize (Hcross _ _ Hee He2'). unfold key_le in Hcross. lia.
  - destruct (IH fuel false m (results ++ (has_key key es).*2) s2) as (s3 & E3 & Hs3); try done; [lia|apply Hs2|].
    exists s3. split; [by rewrite E3|by eapply same_store_trans].
Qed.

Lemma range_loop_spec s chunks fuel skip stop l results s0 :
  leaf_chain s l kInvalidPageId chunks → entries_sorted (concat chunks.*2) → upward stop →
  (length chunks ≤ fuel)%nat → ps_idle s0 → ps_eqv s s0 →
  ∃ s1, range_loop fuel skip stop l results s0 =
      Some (results ++ within skip stop (concat chunks.*2), s1) ∧ same_store s0 s1.
Proof.
  intros Hc Hs Hup. induction chunks as [|[l' es] chunks IH] in fuel, l, results, s0, Hc, Hs |- *; intros Hf Hi He.
  { cbn in Hc. subst l. exists s0. split; [|by apply same_store_refl].
    destruct fuel; cbn [range_loop]; rewrite invalid_refl; cbn; by rewrite app_nil_r. }
  pose proof Hc as (-> & _). destruct fuel as [|fuel]; [simpl in Hf; lia|]. cbn in Hf.
  destruct (chain_step s s0 l' _ es chunks Hc Hi He) as (f & s1 & s2 & m & Hne & E1 & Eg & E2 & Hs2 & He2 & Hp & Hc').
  cbn [fmap list_fmap concat snd] in Hs |- *. apply sorted_app_inv in Hs as (Hs1 & Hsr & Hcross).
  destruct (range_entries_spec (ps_view s l') m es skip stop 0 (length es) results Hp Hs1 Hup) as (b & Es & Hb);
    [by rewrite drop_0|]. rewrite drop_0 in Es, Hb.
  assert (range_loop (S fuel) skip stop l' results s0 =
    (if b then ret (results ++ within skip stop es) else range_loop fuel skip stop m (results ++ within skip stop es)) s2) as Estep.
  { cbn [range_loop]. rewrite Hne. unfold key_count. run. rewrite E1. cbn.
    rewrite Eg, (lp_count _ _ _ Hp), Nat2Z.id, Es, E2, (lp_next _ _ _ Hp). by destruct b. }
  rewrite Estep, within_app, app_assoc. destruct b.
  - destruct (Hb eq_refl) as (e & He' & Hst). exists s2. split; [|done].
    rewrite (within_stopped skip stop (concat _)); [by rewrite app_nil_r|]. apply Forall_forall. intros e2 He2'.
    apply (Hup e.1); [|done]. by apply Hcross.
  - destruct (IH fuel m (results ++ within skip stop es) s2) as (s3 & E3 & Hs3); try done; [lia|apply Hs2|].
    exists s3. split; [by rewrite E3|by eapply same_store_trans].
Qed.

(** An entry that is in none of the leaves. *)
Lemma delete_loop_missing s chunks fuel key rid l s0 :
  leaf_chain s l kInvalidPageId chunks → entries_sorted (concat chunks.*2) → (key, rid) ∉ concat chunks.*2 →
  (length chunks ≤ fuel)%nat → ps_idle s0 → ps_eqv s s0 →
  ∃ s1, delete_loop fuel key rid l s0 = Some (NotFound "index entry not found for given key/RecordId", s1) ∧
    same_store s0 s1.
Proof.
  induction chunks as [|[l' es] chunks IH] in fuel, l, s0 |- *; intros Hc Hs Hn Hf Hi He.
  { cbn in Hc. subst l. exists s0. split; [|by apply same_store_refl].
    by destruct fuel; cbn [delete_loop]; rewrite invalid_refl. }
  pose proof Hc as (-> & _). destruct fuel as [|fuel]; [simpl in Hf; lia|]. cbn in Hf.
  destruct (chain_step s s0 l' _ es chunks Hc Hi He) as (f & s1 & s2 & m & Hne & E1 & Eg & E2 & Hs2 & He2 & Hp & Hc').
  cbn [fmap list_fmap concat snd] in Hs, Hn. apply sorted_app_inv in Hs as (Hs1 & Hsr & _).
  pose proof (delete_entries_spec (ps_view s l') m es key rid 0 (length es) Hp Hs1) as Hde.
  rewrite drop_0, decide_False in Hde by set_solver. destruct Hde as [b Ed]; [done|].
  destruct (IH fuel m s2) as (s3 & E3 & Hs3); try done; [set_solver|lia|apply Hs2|].
  assert (delete_loop (S fuel) key rid l' s0 =
    (if b then ret (NotFound "index entry not found for given key/RecordId") else delete_loop fuel key rid m) s2) as Estep.
  { cbn [delete_loop]. rewrite Hne. unfold key_count. run. rewrite E1. cbn.
    rewrite Eg, (lp_count _ _ _ Hp), Nat2Z.id, Ed, E2, (lp_next _ _ _ Hp). by destruct b. }
  rewrite Estep. destruct b; [by exists s2|]. exists s3. split; [done|by eapply same_store_trans].
Qed.
End walks.

(** ** Operations *)

Section operations.
Context {Pool : Type} `{PageStoreSpec Pool}.
Implicit Types s : Pool.

Lemma index_sorted s meta es ps : index_at s meta es ps → entries_sorted es.
Proof. intros (_ & _ & h & first & Ht). by apply (tree_forest_bounds s) in Ht as [? _]. Qed.

Lemma in_range_all key : in_range None None key.
Proof. done. Qed.

(** The leaf for [key], and what [FindLeafForKey] does. *)
Lemma index_find fuel s meta es ps key :
  index_at s meta es ps → ps_idle s → ps_count s ≤ Z.of_nat fuel →
  ∃ l m esl es1 es2 chunks s1,
    FindLeafForKey fuel meta key s = Some (l, s1) ∧ same_store s s1 ∧
    es = es1 ++ esl ++ es2 ∧ Forall (λ e, e.1 < key) es1 ∧ Forall (λ e, key < e.1) es2 ∧
    leaf_page (ps_view s l) m esl ∧ l ∈ ps ∧ leaf_chain s l kInvalidPageId ((l, esl) :: chunks) ∧
    concat chunks.*2 = es2 ∧ (length ((l, esl) :: chunks) ≤ fuel)%nat ∧
    (∀ s' esl', ps_count s' = ps_count s → (∀ p, 1 ≤ p < ps_count s → p ≠ l → ps_view s' p = ps_view s p) →
       leaf_page (ps_view s' l) m esl' → entries_sorted esl' → (∀ e, e ∈ esl' → e ∈ esl) →
       index_at s' meta (es1 ++ esl' ++ es2) ps).
Proof.
  intros (Hm & Hnd & h & first & Ht) Hi Hf.
  destruct (index_height s meta h first es ps Hm Hnd Ht) as [Hh1 Hh2].
  pose proof Hnd as [Hmn Hndp]%NoDup_cons.
  destruct (proj1 (tree_forest_pages s) _ _ _ _ _ _ _ _ Ht) as (_ & _ & _ & Hall).
  destruct (tree_find _ _ _ _ _ _ _ _ _ key Ht (in_range_all key) Hndp) as
    (l & m & esl & lo' & hi' & es1 & es2 & -> & Hl & Hp & _ & Hb & Ha & (chunks & Hc & Hce & Hcl) & Hrep & Hrun).
  destruct (GetRootPageId_spec s meta Hi Hm) as (s0 & E0 & Hs0). pose proof Hs0 as (Hi0 & He0 & _).
  destruct (Hrun fuel s0) as (s1 & E1 & Hs1); [lia|done|done|].
  exists l, m, esl, es1, es2, chunks, s1. split_and!; try done.
  - unfold FindLeafForKey. by erewrite bind_Some by exact E0.
  - apply (same_store_trans _ _ _ Hs0 Hs1).
  - split; [done|]. split; [by apply Hall|]. by exists m.
  - simpl. lia.
  - intros s' esl' Hc' Hv Hp' Hs' Hin. assert (l ≠ meta) by (by intros ->).
    split; [lia|]. split; [done|]. exists h, first. unfold root_of. rewrite Hv by done.
    apply Hrep; try done; [lia|]. intros p Hpp ?. apply Hv; [|done]. by apply Hall.
Qed.

Lemma SearchEqual_spec fuel s meta es ps key :
  index_at s meta es ps → ps_idle s → ps_count s ≤ Z.of_nat fuel →
  ∃ s', SearchEqual fuel meta key s = Some (Ok (has_key key es).*2, s') ∧ same_store s s'.
Proof.
  intros Hix Hi Hf. pose proof (index_sorted _ _ _ _ Hix) as Hs.
  destruct (index_find fuel s meta es ps key Hix Hi Hf) as
    (l & m & esl & es1 & es2 & chunks & s1 & E1 & Hs1 & -> & Hb & Ha & Hp & Hl & Hc & Hce & Hcl & _).
  apply sorted_app_inv in Hs as (_ & Hs & _).
  destruct (search_loop_spec s ((l, esl) :: chunks) fuel key true l [] s1) as (s2 & E2 & Hs2); try done.
  { cbn. by rewrite Hce. }
  { apply Hs1. }
  { apply Hs1. }
  exists s2. split; [|by eapply same_store_trans].
  unfold SearchEqual. erewrite bind_Some by exact E1. erewrite bind_Some by exact E2.
  rewrite has_key_app, (has_key_below key es1) by done. cbn. by rewrite Hce.
Qed.

Lemma above_high_upward high hi : upward (above_high high hi).
Proof.
  intros k k' Hk. unfold above_high. destruct high as [h|]; [|done]. destruct hi; cbn;
    rewrite ?orb_false_r, !Z.gtb_ltb, ?orb_true_iff, ?Z.ltb_lt, ?Z.eqb_eq; lia.
Qed.

Lemma below_low_lt l li stop (es : list Entry) :
  Forall (λ e, e.1 < l) es → within (below_low (Some l) li) stop es = [].
Proof.
  intros Hf. apply filter_none. eapply Forall_impl; [done|]. intros e He [Hb _]. unfold below_low in Hb.
  apply orb_false_iff in Hb as [Hb _]. zbool. simpl in He. lia.
Qed.

Lemma RangeScan_spec fuel s meta es ps low li high hi :
  index_at s meta es ps → ps_idle s → ps_count s ≤ Z.of_nat fuel →
  ∃ s', RangeScan fuel meta low li high hi s = Some (Ok (within (below_low low li) (above_high high hi) es), s') ∧
    same_store s s'.
Proof.
  intros Hix Hi Hf. pose proof (index_sorted _ _ _ _ Hix) as Hs. pose proof (above_high_upward high hi) as Hup.
  set (skip := below_low low li). set (stop := above_high high hi).
  assert (∃ l s1 chunks, (match low with
     | Some l => FindLeafForKey fuel meta l
     | None => let! root := GetRootPageId meta in leftmost_loop fuel root
     end) s = Some (l, s1) ∧ same_store s s1 ∧ leaf_chain s l kInvalidPageId chunks ∧
     entries_sorted (concat chunks.*2) ∧ (length chunks ≤ fuel)%nat ∧
     within skip stop (concat chunks.*2) = within skip stop es) as (l & s1 & chunks & E1 & Hs1 & Hc & Hsc & Hcl & Hw).
  { destruct low as [lo|].
    - destruct (index_find fuel s meta es ps lo Hix Hi Hf) as
        (l & m & esl & es1 & es2 & chunks & s1 & E1 & Hs1 & -> & Hb & Ha & Hp & Hl & Hc & <- & Hcl & _).
      apply sorted_app_inv in Hs as (_ & Hs & _).
      exists l, s1, ((l, esl) :: chunks). split; [done|]. split; [done|]. split; [done|]. split; [done|]. split; [done|].
      rewrite (within_app skip stop es1). unfold skip. by rewrite (below_low_lt lo li stop es1).
    - destruct Hix as (Hm & Hnd & h & first & Ht).
      destruct (index_height s meta h first es ps Hm Hnd Ht) as [Hh1 Hh2].
      destruct (proj1 (tree_forest_chain s) _ _ _ _ _ _ _ _ Ht) as (chunks & Hc & <- & Hcl).
      destruct (GetRootPageId_spec s meta Hi Hm) as (s0 & E0 & Hs0). pose proof Hs0 as (Hi0 & He0 & _).
      destruct (tree_leftmost s h _ _ _ _ _ _ _ fuel s0 Ht) as (s1 & E1 & Hs1); [lia|done..|].
      exists first, s1, chunks. split; [by erewrite bind_Some by exact E0|].
      split; [by eapply same_store_trans|]. do 2 (split; [done|]). split; [lia|done]. }
  destruct (range_loop_spec s chunks fuel skip stop l [] s1) as (s2 & E2 & Hs2); try done; [apply Hs1|apply Hs1|].
  exists s2. split; [|by eapply same_store_trans].
  unfold RangeScan. erewrite bind_Some by exact E1. fold skip stop. erewrite bind_Some by exact E2. by rewrite Hw.
Qed.
Lemma entries_delete_app key rid es1 es es2 :
  (key, rid) ∉ es1 → (key, rid) ∉ es2 →
  entries_delete key rid (es1 ++ es ++ es2) = es1 ++ entries_delete key rid es ++ es2.
Proof.
  intros H1' H2'. induction es1 as [|e es1 IH]; cbn.
  - induction es as [|e es IH]; cbn.
    + induction es2 as [|e es2 IH]; cbn; [done|]. rewrite decide_False by set_solver. f_equal. set_solver.
    + case_decide; [done|]. by rewrite IH.
  - rewrite decide_False by set_solver. f_equal. apply IH. set_solver.
Qed.

Lemma entries_delete_sublist key rid es : sublist (entries_delete key rid es) es.
Proof. induction es as [|e es IH]; cbn; [constructor|]. case_decide; by constructor. Qed.

Lemma sorted_sublist (es es' : list Entry) : sublist es' es → entries_sorted es → entries_sorted es'.
Proof.
  induction 1 as [|e l1 l2 Hl IH|e l1 l2 Hl IH]; [done|..]; intros [Hs Hf]%StronglySorted_inv; [|by apply IH].
  constructor; [by apply IH|]. rewrite Forall_forall in Hf |- *. intros e' He'. apply Hf.
  by eapply sublist_elem_of || (eapply elem_of_submseteq; [done|by apply sublist_submseteq]).
Qed.

Lemma entries_delete_missing key rid es : (key, rid) ∉ es → entries_delete key rid es = es.
Proof.
  intros Hn. pose proof (entries_delete_app key rid es [] [] Hn ltac:(set_solver)) as E.
  cbn in E. by rewrite !app_nil_r in E.
Qed.

Lemma not_in_bounds key rid (es : list Entry) (P : Z → Prop) :
  Forall (λ e, P e.1) es → ¬ P key → (key, rid) ∉ es.
Proof. intros Hf Hn Hin. rewrite Forall_forall in Hf. by apply Hn, (Hf (key, rid)). Qed.

(** Deleting an entry from an index. *)
Lemma Delete_spec fuel s meta es ps key rid :
  index_at s meta es ps → ps_idle s → ps_count s ≤ Z.of_nat fuel →
  ∃ s', Delete fuel meta key rid s =
      Some (if decide ((key, rid) ∈ es) then Status_OK else NotFound "index entry not found for given key/RecordId", s') ∧
    index_at s' meta (entries_delete key rid es) ps ∧ grown s s' (meta :: ps) (meta :: ps) 0.
Proof.
  intros Hix Hi Hf. pose proof (index_sorted _ _ _ _ Hix) as Hs. pose proof Hix as (Hm & Hnd & _).
  destruct (index_find fuel s meta es ps key Hix Hi Hf) as
    (l & m & esl & es1 & es2 & chunks & s1 & E1 & Hs1 & -> & Hb & Ha & Hp & Hl & Hc & Hce & Hcl & Hrep).
  assert ((key, rid) ∉ es1) as Hn1 by (eapply (not_in_bounds _ _ _ (λ k, k < key)); [done|lia]).
  assert ((key, rid) ∉ es2) as Hn2 by (eapply (not_in_bounds _ _ _ (λ k, key < k)); [done|lia]).
  apply sorted_app_inv in Hs as (_ & Hs & _). pose proof Hs as (Hsl & _ & _)%sorted_app_inv.
  pose proof Hs1 as (Hi1 & He1 & Ha1). pose proof (proj1 He1) as Hc1.
  unfold Delete. destruct (decide ((key, rid) ∈ esl)) as [Hin|Hn].
  - pose proof (chain_first _ _ _ _ _ Hc) as Hlr. destruct (leaf_at_eqv s s1 l He1 Hlr) as [Hl1 Hv1].
    pose proof (delete_entries_spec (ps_view s l) m esl key rid 0 (length esl) Hp Hsl) as Hde.
    rewrite drop_0, decide_True in Hde by done. destruct Hde as (j & Ed & Hj & Er); [done|]. cbn [take app] in Er.
    pose proof (RemoveLeafEntryAt_spec _ _ _ j Hp Hj) as Hp'. rewrite Er in Hp'.
    destruct (write_page s1 l _ Hi1 Hl1 (lp_wf _ _ _ Hp')) as (f & s2 & s3 & E2 & Eg & E3 & Hi3 & Ha3 & Hc3 & Hv3 & Ho3).
    exists s3. rewrite decide_True by set_solver. split_and!.
    + erewrite bind_Some by exact E1. destruct fuel as [|fuel]; [simpl in Hcl; lia|]. cbn [delete_loop].
      rewrite (proj2 (Z.eqb_neq l kInvalidPageId)) by (unfold kInvalidPageId; lia). unfold key_count. run.
      rewrite E2. cbn. rewrite Eg, Hv1, (lp_count _ _ _ Hp), Nat2Z.id, Ed, E3. done.
    + rewrite entries_delete_app by done. apply Hrep.
      * lia.
      * intros p ? ?. rewrite Ho3 by (done || lia). by apply He1.
      * by rewrite Hv3.
      * eapply sorted_sublist; [apply entries_delete_sublist|done].
      * intros e He. eapply elem_of_submseteq; [done|]. apply sublist_submseteq, entries_delete_sublist.
    + split; [done|lia|lia|done|tauto|]. intros q Hq Hqn. rewrite Ho3; [by apply He1|lia|]. intros ->. set_solver.
  - destruct (delete_loop_missing s ((l, esl) :: chunks) fuel key rid l s1) as (s2 & E2 & Hs2); try done.
    { cbn. by rewrite Hce. }
    { cbn. rewrite Hce. set_solver. }
    pose proof (same_store_trans _ _ _ Hs1 Hs2) as Hs02.
    exists s2. assert ((key, rid) ∉ es1 ++ esl ++ es2) as Hna by set_solver.
    rewrite decide_False, (entries_delete_missing _ _ _ Hna) by done. split_and!.
    + by erewrite bind_Some by exact E1.
    + eapply index_eqv; [apply Hs02|done].
    + by apply grown_same.
Qed.

(** A new index. *)
Lemma BPlusTree_new_spec s :
  ps_idle s → 1 < ps_avail s → ps_count s + 2 < 2 ^ 31 →
  ∃ s', BPlusTree_new kInvalidPageId s = Some (ps_count s, s') ∧
    index_at s' (ps_count s) [] [ps_count s + 1] ∧ ps_idle s' ∧ ps_avail s' = ps_avail s ∧
    ps_count s' = ps_count s + 2 ∧ (∀ q, 1 ≤ q < ps_count s → ps_view s' q = ps_view s q).
Proof.
  intros Hi Hav Hcn. set (p := ps_count s).
  destruct (held_new s [] (idle_held s Hi)) as (fm & s1 & E1 & Hh1 & Ha1 & Hc1 & Hb1 & Hv1); [lia..|].
  destruct (held_new s1 _ Hh1) as (fr & s2 & E2 & Hh2 & Ha2 & Hc2 & Hb2 & Hv2); [lia..|].
  pose proof (ps_count_range s (idle_wf _ Hi)) as Hcr.
  rewrite Hc1 in E2, Hh2, Hc2, Hb2, Hv2. fold p in E1, Hh1, Hc1, Hb1, Hv1, E2, Hh2, Hc2, Hb2, Hv2.
  pose proof (InitLeaf_spec blank_page kInvalidPageId page_wf_blank ltac:(unfold kInvalidPageId; blia)) as Hp.
  destruct (set_step s2 _ (p + 1) fr _ Hh2 ltac:(left) (lp_wf _ _ _ Hp)) as (Hh3 & Ha3 & Hc3 & Hv3 & Ho3 & _).
  set (s3 := ps_set fr _ s2) in *.
  destruct (held_unpin s3 [] _ (p + 1) fr Hh3) as (s4 & E4 & Hh4 & Ha4 & He4). pose proof (proj1 He4) as Hc4.
  assert (ps_view s4 p = blank_page) as Hv4p.
  { rewrite (proj2 He4), Ho3, Hv2 by (unfold p; lia). done. }
  assert (page_wf (WriteFixed 4 (ps_view s4 p) 0 (p + 1))) as Hw.
  { rewrite Hv4p. pose proof page_wf_blank. in_page. }
  destruct (set_step s4 _ p fm _ Hh4 ltac:(left) Hw) as (Hh5 & Ha5 & Hc5 & Hv5 & Ho5 & _).
  set (s5 := ps_set fm _ s4) in *.
  destruct (held_unpin s5 [] [] p fm Hh5) as (s6 & E6 & Hh6 & Ha6 & He6). pose proof (proj1 He6) as Hc6.
  exists s6. split; [|split].
  - unfold BPlusTree_new. rewrite invalid_refl. run. rewrite E1. cbn [fst snd]. rewrite E2. cbn [fst snd].
    destruct (held_get s2 _ (p + 1) fr Hh2) as [-> _]; [left|]. rewrite Hb2. fold s3. rewrite E4.
    destruct (held_get s4 _ p fm Hh4) as [-> _]; [left|]. fold s5. by rewrite E6.
  - split; [unfold p in *; lia|]. split.
    { apply NoDup_cons. split; [|apply NoDup_singleton]. intros Hx%list_elem_of_singleton. lia. }
    exists 0%nat, (p + 1). unfold root_of. rewrite (proj2 He6), Hv5 by (unfold p in *; lia).
    rewrite ReadS_WriteFixed_eq; [|lia| |unfold p; blia].
    2:{ rewrite Hv4p, (page_wf_blank : blen blank_page = kPageSize). unfold kPageSize. blia. }
    constructor; [unfold p in *; lia| |constructor|constructor].
    rewrite (proj2 He6), Ho5, (proj2 He4), Hv3 by (unfold p in *; lia). done.
  - split_and!; [apply held_idle; [done|lia]|lia|unfold p in *; lia|].
    intros q Hq. rewrite (proj2 He6), Ho5, (proj2 He4), Ho3, Hv2, Hv1 by (unfold p in *; lia). done.
Qed.
End operations.
