(* ===== verification/BPlusTreeTheorems.v ===== *)
(** * The theorems of the B+ tree

    Sequences of operations against the sorted list of entries, indexes side by
    side in one store, and what goes wrong with many duplicates of a key. *)

From stdpp Require Import sorting.
From S2P Require Import Prelude Util PageManager PageStore BufferPool BPlusNode BPlusTree BPlusTreeSpec BPlusTreeOps BPlusTreeSearch.

(** ** Sequences of operations *)

Inductive IndexOp :=
  | IInsert (key : Z) (rid : RecordId)
  | IDelete (key : Z) (rid : RecordId)
  | ISearch (key : Z)
  | IRange (low : option Z) (low_inclusive : bool) (high : option Z) (high_inclusive : bool).

Inductive IndexOut :=
  | IStatus (st : Status)
  | IRids (r : Result (list RecordId))
  | IEntries (r : Result (list Entry)).

Definition run_op {Pool} `{PageStore Pool} (fuel : nat) (meta : Z) (op : IndexOp) : M Pool IndexOut :=
  match op with
  | IInsert key rid => let! st := Insert fuel meta key rid in ret (IStatus st)
  | IDelete key rid => let! st := Delete fuel meta key rid in ret (IStatus st)
  | ISearch key => let! r := SearchEqual fuel meta key in ret (IRids r)
  | IRange low li high hi => let! r := RangeScan fuel meta low li high hi in ret (IEntries r)
  end.

Fixpoint run_ops {Pool} `{PageStore Pool} (fuel : nat) (meta : Z) (ops : list IndexOp) : M Pool (list IndexOut) :=
  match ops with
  | [] => ret []
  | op :: ops' => let! o := run_op fuel meta op in let! os := run_ops fuel meta ops' in ret (o :: os)
  end.

(** The specification: a list of entries sorted by key. *)
Definition spec_op (op : IndexOp) (es : list Entry) : IndexOut * list Entry :=
  match op with
  | IInsert key rid => (IStatus Status_OK, entries_insert key rid es)
  | IDelete key rid =>
      (IStatus (if decide ((key, rid) ∈ es) then Status_OK
                else NotFound "index entry not found for given key/RecordId"), entries_delete key rid es)
  | ISearch key => (IRids (Ok (filter (λ e : Entry, e.1 = key) es).*2), es)
  | IRange low li high hi =>
      (IEntries (Ok (filter (λ e : Entry, below_low low li e.1 = false ∧ above_high high hi e.1 = false) es)), es)
  end.

Fixpoint spec_ops (ops : list IndexOp) (es : list Entry) : list IndexOut * list Entry :=
  match ops with
  | [] => ([], es)
  | op :: ops' => let '(o, es) := spec_op op es in let '(os, es) := spec_ops ops' es in (o :: os, es)
  end.

(** What the caller has to respect: entries of the machine's widths, and fewer
    than [kLeafMaxKeys] entries under one key. *)
Definition op_ok (op : IndexOp) (es : list Entry) : Prop :=
  match op with
  | IInsert key rid => entry_valid (key, rid) ∧ dups_below kLeafMaxKeys es
  | _ => True
  end.

Fixpoint ops_ok (ops : list IndexOp) (es : list Entry) : Prop :=
  match ops with [] => True | op :: ops' => op_ok op es ∧ ops_ok ops' (spec_op op es).2 end.

Lemma entries_insert_perm key rid es : entries_insert key rid es ≡ₚ (key, rid) :: es.
Proof.
  unfold entries_insert. rewrite <- Permutation_middle. constructor.
  induction es as [|e es IH]; [done|]. rewrite !filter_cons. repeat case_decide; try lia.
  - cbn. by constructor.
  - rewrite <- Permutation_middle. by constructor.
Qed.

Section theorems.
Context {Pool : Type} `{PageStoreSpec Pool}.
Implicit Types s : Pool.

Lemma run_op_spec fuel s meta es ps op :
  index_at s meta es ps → op_ok op es → ps_idle s → 2 < ps_avail s →
  ps_count s + kMaxGrowth < 2 ^ 31 → ps_count s ≤ Z.of_nat fuel →
  ∃ s' ps', run_op fuel meta op s = Some ((spec_op op es).1, s') ∧ index_at s' meta (spec_op op es).2 ps' ∧
    grown s s' (meta :: ps) (meta :: ps') kMaxGrowth.
Proof.
  intros Hix Hok Hi Hav Hcn Hf. pose proof Hix as (_ & Hnd & _). destruct op as [key rid|key rid|key|low li high hi]; cbn.
  - destruct Hok as [Hv Hd]. destruct (Insert_spec fuel s meta key rid es ps) as (s' & ps' & E & Hix' & Hg); try done.
    exists s', ps'. split_and!; [by erewrite bind_Some by exact E|done..].
  - destruct (Delete_spec fuel s meta es ps key rid Hix Hi Hf) as (s' & E & Hix' & Hg).
    exists s', ps. split_and!; [by erewrite bind_Some by exact E|done|]. by eapply grown_weaken; [|done].
  - destruct (SearchEqual_spec fuel s meta es ps key Hix Hi Hf) as (s' & E & Hs).
    exists s', ps. split_and!; [by erewrite bind_Some by exact E|by eapply index_eqv; [apply Hs|]|].
    by eapply grown_weaken; [|apply grown_same].
  - destruct (RangeScan_spec fuel s meta es ps low li high hi Hix Hi Hf) as (s' & E & Hs).
    exists s', ps. split_and!; [by erewrite bind_Some by exact E|by eapply index_eqv; [apply Hs|]|].
    by eapply grown_weaken; [|apply grown_same].
Qed.

Lemma run_ops_spec fuel ops s meta es ps :
  index_at s meta es ps → ops_ok ops es → ps_idle s → 2 < ps_avail s →
  ps_count s + kMaxGrowth * Z.of_nat (length ops) < 2 ^ 31 →
  ps_count s + kMaxGrowth * Z.of_nat (length ops) ≤ Z.of_nat fuel →
  ∃ s' ps', run_ops fuel meta ops s = Some ((spec_ops ops es).1, s') ∧ index_at s' meta (spec_ops ops es).2 ps' ∧
    grown s s' (meta :: ps) (meta :: ps') (kMaxGrowth * Z.of_nat (length ops)).
Proof.
  induction ops as [|op ops IH] in s, es, ps |- *; intros Hix Hok Hi Hav Hcn Hf.
  { exists s, ps. split_and!; [done..|]. pose proof Hix as (_ & ? & _). by apply grown_same; [apply same_store_refl|]. }
  destruct Hok as [Hok Hoks]. cbn [length] in *. rewrite Nat2Z.inj_succ in *. unfold kMaxGrowth in *.
  destruct (run_op_spec fuel s meta es ps op) as (s1 & ps1 & E1 & Hix1 & Hg1); try done; unfold kMaxGrowth; try lia.
  pose proof Hg1 as [Hi1 Ha1 Hc1 _ _ _]. unfold kMaxGrowth in Hc1.
  destruct (IH s1 (spec_op op es).2 ps1) as (s2 & ps2 & E2 & Hix2 & Hg2); try done; try lia.
  exists s2, ps2. cbn [spec_ops run_ops]. destruct (spec_op op es) as [o es1]. cbn [fst snd] in *.
  destruct (spec_ops ops es1) as [os es2]. cbn [fst snd] in *. split_and!; [|done|].
  - erewrite bind_Some by exact E1. by erewrite bind_Some by exact E2.
  - replace (34 * Z.succ (Z.of_nat (length ops))) with (34 + 34 * Z.of_nat (length ops)) by lia.
    by eapply grown_trans.
Qed.

(** The pages of an index are all that it depends on. *)
Lemma index_frame s s' meta es ps :
  index_at s meta es ps → ps_count s ≤ ps_count s' →
  (∀ p, p ∈ meta :: ps → ps_view s' p = ps_view s p) → index_at s' meta es ps.
Proof.
  intros (Hm & Hnd & h & first & Ht) Hc Hv. split; [lia|]. split; [done|]. exists h, first.
  unfold root_of. rewrite Hv by left. eapply tree_forest_ext; [done..|]. intros p ?. apply Hv. by right.
Qed.

Lemma index_pages s meta es ps p : index_at s meta es ps → p ∈ meta :: ps → 1 ≤ p < ps_count s.
Proof.
  intros (Hm & _ & h & first & Ht) [->|Hp]%elem_of_cons; [done|].
  apply (tree_forest_pages s) in Ht as (_ & _ & _ & Hall). auto.
Qed.

(** C20: a B+ tree behaves as a sorted list of entries.  After the constructor
    made a new tree, any sequence of insertions, deletions, searches and range
    scans returns (no null page is dereferenced and every loop ends), with
    exactly the results of the same operations on a list kept sorted by key;
    pages that existed before are not changed.  The caller keeps fewer than
    [kLeafMaxKeys] entries under one key, the pool has three frames to pin, and
    the store has room for 34 pages per operation. *)
Theorem bplus_tree_refines (fuel : nat) (ops : list IndexOp) (s : Pool) :
  ps_idle s → 2 < ps_avail s → ops_ok ops [] →
  ps_count s + 2 + kMaxGrowth * Z.of_nat (length ops) < 2 ^ 31 →
  ps_count s + 2 + kMaxGrowth * Z.of_nat (length ops) ≤ Z.of_nat fuel →
  ∃ s' meta ps,
    (let! meta := BPlusTree_new kInvalidPageId in
     let! outs := run_ops fuel meta ops in
     ret (meta, outs)) s = Some ((meta, (spec_ops ops []).1), s') ∧
    index_at s' meta (spec_ops ops []).2 ps ∧ entries_sorted (spec_ops ops []).2 ∧
    (∀ q, 1 ≤ q < ps_count s → ps_view s' q = ps_view s q).
Proof.
  intros Hi Hav Hok Hcn Hf. unfold kMaxGrowth in Hcn, Hf.
  destruct (BPlusTree_new_spec s) as (s1 & E1 & Hix1 & Hi1 & Ha1 & Hc1 & Hv1); [done|lia..|].
  destruct (run_ops_spec fuel ops s1 (ps_count s) [] [ps_count s + 1]) as (s2 & ps2 & E2 & Hix2 & Hg2);
    try done; unfold kMaxGrowth; try lia.
  exists s2, (ps_count s), ps2. split_and!; [|done|by eapply index_sorted|].
  - erewrite bind_Some by exact E1. by erewrite bind_Some by exact E2.
  - intros q Hq. rewrite (gr_rest _ _ _ _ _ Hg2); [by apply Hv1|lia|].
    intros [?|?%list_elem_of_singleton]%elem_of_cons; lia.
Qed.

(** C21: indexes that share a store do not disturb each other.  Operations on one
    index leave the entries of every other as they were, and the two keep
    disjoint pages, so that the same holds for further operations. *)
Theorem bplus_trees_independent (fuel : nat) (ops : list IndexOp) (s : Pool) meta es ps meta2 es2 ps2 :
  index_at s meta es ps → index_at s meta2 es2 ps2 → (∀ p, p ∈ meta :: ps → p ∉ meta2 :: ps2) →
  ops_ok ops es → ps_idle s → 2 < ps_avail s →
  ps_count s + kMaxGrowth * Z.of_nat (length ops) < 2 ^ 31 →
  ps_count s + kMaxGrowth * Z.of_nat (length ops) ≤ Z.of_nat fuel →
  ∃ s' ps', run_ops fuel meta ops s = Some ((spec_ops ops es).1, s') ∧ ps_idle s' ∧ ps_avail s' = ps_avail s ∧
    index_at s' meta (spec_ops ops es).2 ps' ∧ index_at s' meta2 es2 ps2 ∧
    (∀ p, p ∈ meta :: ps' → p ∉ meta2 :: ps2).
Proof.
  intros Hix Hix2 Hd Hok Hi Hav Hcn Hf.
  destruct (run_ops_spec fuel ops s meta es ps) as (s' & ps' & E & Hix' & Hg); try done.
  pose proof Hg as [Hi' Ha' Hc' _ Hp' Hr']. exists s', ps'. split_and!; try done.
  - eapply index_frame; [done|lia|]. intros p Hp. apply Hr'; [by eapply index_pages|].
    intros Hp1. by apply (Hd p).
  - intros p Hp Hp2. apply Hp' in Hp as [Hp|Hp]; [by apply (Hd p)|].
    pose proof (index_pages _ _ _ _ _ Hix2 Hp2). lia.
Qed.
End theorems.

(** ** Many duplicates of one key *)

(** A pool of four frames with an index: its meta page is 3, its root 4. *)
Definition index_pool : BufferPool :=
  match BPlusTree_new kInvalidPageId (BufferPool_new sample_pm 4) with
  | Some (_, s) => s
  | None => BufferPool_new sample_pm 4
  end.

(** A leaf full of entries with the key 7. *)
Definition dup_entries : list Entry := (λ j, (7, mkRid 1 (Z.of_nat j))) <$> seq 0 292.
Definition dup_leaf : Page :=
  SetKeyCount (up_loop (λ j d, SetLeafEntry d j 7 (mkRid 1 (Z.of_nat j))) 0 292 (InitLeaf blank_page kInvalidPageId)) 292.
Definition dup_pool : BufferPool :=
  match (let! f := fetch 4 in do! set_data f dup_leaf in unpin 4 true) index_pool with
  | Some (_, s) => s
  | None => index_pool
  end.

Lemma dup_entries_sorted : entries_sorted dup_entries.
Proof.
  unfold dup_entries. induction (seq 0 292) as [|j js IH]; cbn; constructor; [done|].
  apply Forall_forall. intros e (j' & -> & _)%list_elem_of_fmap. done.
Qed.

(** A key with [kLeafMaxKeys] entries.  The full leaf is split in the middle
    of the equal keys, with their key as the separator, and a search for it
    descends to the right half only: after the 293rd insertion, which succeeds,
    the search finds 147 entries. *)
Theorem bplus_duplicates_lost :
  index_at dup_pool 3 dup_entries [4] ∧
  ∃ s1 s2 rids, Insert 5 3 7 (mkRid 2 0) dup_pool = Some (Status_OK, s1) ∧
    SearchEqual 5 3 7 s1 = Some (Ok rids, s2) ∧ length rids = 147%nat ∧ length dup_entries = 292%nat.
Proof.
  split.
  - split; [vm_compute; split; done|]. split; [apply NoDup_cons; split; [set_solver|apply NoDup_singleton]|].
    exists 0%nat, 4. assert (root_of dup_pool 3 = 4) as -> by (vm_compute; reflexivity).
    constructor; [vm_compute; split; done| |apply dup_entries_sorted|].
    + split; vm_compute; done.
    + apply Forall_forall. done.
  - assert (match Insert 5 3 7 (mkRid 2 0) dup_pool with
            | Some (st, s1) =>
                match SearchEqual 5 3 7 s1 with
                | Some (Ok rids, _) => st = Status_OK ∧ length rids = 147%nat
                | _ => False
                end
            | None => False
            end) as Hrun by (vm_compute; split; reflexivity).
    destruct (Insert 5 3 7 (mkRid 2 0) dup_pool) as [[st s1]|]; [|done].
    destruct (SearchEqual 5 3 7 s1) as [[[rids|] s2]|] eqn:E; [|done..].
    destruct Hrun as [-> Hlen]. exists s1, s2, rids. split_and!; [done..|]. vm_compute. reflexivity.
Qed.

(** ** Witnesses *)

Lemma dups_below_short n es : Z.of_nat (length es) < n → dups_below n es.
Proof. intros Hl k. pose proof (length_filter (λ e : Entry, e.1 = k) es). lia. Qed.

Lemma pool4_idle : ps_idle (BufferPool_new sample_pm 4) ∧ 2 < ps_avail (BufferPool_new sample_pm 4) ∧
  ps_count (BufferPool_new sample_pm 4) = 3.
Proof.
  split; [|vm_compute; done]. split; [by apply BufferPool_new_wf, sample_pm_wf|done|]. vm_compute. done.
Qed.

Definition sample_ops : list IndexOp := [IInsert 5 (mkRid 1 0); IInsert 3 (mkRid 1 1); ISearch 5].

Lemma sample_ops_ok : ops_ok sample_ops [].
Proof.
  split; [split; [by vm_compute|by apply dups_below_short]|].
  split; [split; [by vm_compute|by apply dups_below_short]|]. done.
Qed.

Lemma bplus_tree_refines_witness :
  ∃ s' meta ps,
    (let! meta := BPlusTree_new kInvalidPageId in
     let! outs := run_ops 107 meta sample_ops in
     ret (meta, outs)) (BufferPool_new sample_pm 4) =
      Some ((meta, [IStatus Status_OK; IStatus Status_OK; IRids (Ok [mkRid 1 0])]), s') ∧
    index_at s' meta [(3, mkRid 1 1); (5, mkRid 1 0)] ps.
Proof.
  destruct pool4_idle as (Hi & Ha & Hc).
  destruct (bplus_tree_refines 107 sample_ops (BufferPool_new sample_pm 4) Hi Ha sample_ops_ok) as
    (s' & meta & ps & E & Hix & _).
  - rewrite Hc. vm_compute. reflexivity.
  - rewrite Hc. vm_compute. discriminate.
  - exists s', meta, ps. split; [exact E|exact Hix].
Defined.

Lemma bplus_trees_independent_witness :
  ∃ (s s' : BufferPool) ps', run_ops 109 3 sample_ops s = Some ((spec_ops sample_ops []).1, s') ∧
    index_at s' 3 (spec_ops sample_ops []).2 ps' ∧ index_at s' 5 [] [6].
Proof.
  destruct pool4_idle as (Hi & Ha & Hc).
  destruct (BPlusTree_new_spec _ Hi) as (s1 & _ & Hix1 & Hi1 & Ha1 & Hc1 & _); [lia|rewrite Hc; lia|].
  rewrite Hc in Hix1, Hc1.
  destruct (BPlusTree_new_spec s1 Hi1) as (s2 & _ & Hix2 & Hi2 & Ha2 & Hc2 & Hv2); [lia|rewrite Hc1; lia|].
  rewrite Hc1 in Hix2, Hc2, Hv2.
  destruct (bplus_trees_independent 109 sample_ops s2 3 [] [4] 5 [] [6]) as (s' & ps' & E & _ & _ & Hr1 & Hr2 & _).
  - eapply index_frame; [exact Hix1|lia|]. intros p Hp. apply Hv2. pose proof (index_pages _ _ _ _ _ Hix1 Hp). lia.
  - exact Hix2.
  - set_solver.
  - exact sample_ops_ok.
  - exact Hi2.
  - lia.
  - rewrite Hc2. vm_compute. reflexivity.
  - rewrite Hc2. vm_compute. discriminate.
  - exists s2, s', ps'. split; [exact E|]. split; [exact Hr1|exact Hr2].
Defined.
