(* ===== verification/Transaction.v ===== *)
(** * Transactions and visibility: src/transaction

    [transaction.hpp], [transaction_manager.hpp]/[.cpp] and the visibility test
    of [mvcc.cpp].  A [Transaction*] is the id of the transaction it points to
    (the manager never removes one); every manager operation runs under the
    manager's mutex and is one step. *)

From S2P Require Import Prelude Util.

Definition kInvalidTxnId : Z := 0.

Inductive TxnState := kActive | kCommitted | kAborted.
Inductive IsolationLevel := kReadCommitted | kSnapshotIsolation.

#[export] Instance TxnState_eq_dec : EqDecision TxnState.
Proof. solve_decision. Defined.
#[export] Instance IsolationLevel_eq_dec : EqDecision IsolationLevel.
Proof. solve_decision. Defined.

Record Transaction := mkTxn {
  txn_id : Z;
  txn_state : TxnState;
  isolation_level : IsolationLevel;
  active_at_start : gset Z
}.

Record TransactionManager := mkTM {
  next_txn_id_ : Z;
  transactions_ : gmap Z Transaction;
  active_txn_ids_ : gset Z
}.

Definition TransactionManager_new : TransactionManager := mkTM 1 ∅ ∅.

(** ** Operations *)

Definition Begin (level : IsolationLevel) (tm : TransactionManager) : Z * TransactionManager :=
  let txn := mkTxn (next_txn_id_ tm) kActive level (active_txn_ids_ tm) in
  (txn_id txn,
   mkTM (u64 (next_txn_id_ tm + 1)) (<[txn_id txn := txn]> (transactions_ tm))
     ({[txn_id txn]} ∪ active_txn_ids_ tm)).

(** [Commit] and [Abort]: [None] is the null pointer. *)
Definition finish (what : string) (st : TxnState) (txn : option Z) (tm : TransactionManager) :
    Status * TransactionManager :=
  match txn ≫= (λ t, transactions_ tm !! t) with
  | None => (InvalidArgument what, tm)
  | Some t =>
      if negb (bool_decide (txn_state t = kActive)) then (InvalidArgument what, tm)
      else
        (Status_OK,
         mkTM (next_txn_id_ tm)
           (<[txn_id t := mkTxn (txn_id t) st (isolation_level t) (active_at_start t)]> (transactions_ tm))
           (active_txn_ids_ tm ∖ {[txn_id t]}))
  end.

Definition Commit := finish "Commit: transaction is not active" kCommitted.
Definition Abort := finish "Abort: transaction is not active" kAborted.

Definition GetTransaction (id : Z) (tm : TransactionManager) : option Transaction :=
  transactions_ tm !! id.

Definition state_is (st : TxnState) (id : Z) (tm : TransactionManager) : bool :=
  match GetTransaction id tm with
  | Some t => bool_decide (txn_state t = st)
  | None => false
  end.
Definition IsCommitted := state_is kCommitted.
Definition IsActive := state_is kActive.

(** ** Visibility *)

Record VersionMeta := mkMeta { xmin : Z; xmax : Z }.

Definition CommittedAndVisibleTo (id : Z) (reader : Transaction) (tm : TransactionManager) : bool :=
  if id =? kInvalidTxnId then false
  else
    match GetTransaction id tm with
    | None => false
    | Some actor =>
        if negb (bool_decide (txn_state actor = kCommitted)) then false
        else if bool_decide (isolation_level reader = kReadCommitted) then true
        else (id <? txn_id reader) && bool_decide (id ∉ active_at_start reader)
    end.

Definition IsVisible (meta : VersionMeta) (reader : Transaction) (tm : TransactionManager) : bool :=
  let created_by_self := xmin meta =? txn_id reader in
  let deleted_by_self := xmax meta =? txn_id reader in
  if deleted_by_self then false
  else
    let creator_visible := created_by_self || CommittedAndVisibleTo (xmin meta) reader tm in
    if negb creator_visible then false
    else if xmax meta =? kInvalidTxnId then true
    else
      let deleter_visible := CommittedAndVisibleTo (xmax meta) reader tm in
      negb deleter_visible.

(** ** Steps and the invariant *)

(** One operation of some client thread. *)
Inductive tm_step : TransactionManager → TransactionManager → Prop :=
  | step_begin level tm :
      next_txn_id_ tm < 2 ^ 64 - 1 → tm_step tm (Begin level tm).2
  | step_commit t tm : tm_step tm (Commit t tm).2
  | step_abort t tm : tm_step tm (Abort t tm).2.

Abbreviation tm_steps := (rtc tm_step).
Definition tm_reachable (tm : TransactionManager) : Prop := tm_steps TransactionManager_new tm.

Record tm_inv (tm : TransactionManager) : Prop := {
  inv_next : 1 ≤ next_txn_id_ tm < 2 ^ 64;
  inv_ids : ∀ id t, transactions_ tm !! id = Some t →
              txn_id t = id ∧ 1 ≤ id < next_txn_id_ tm;
  inv_all : ∀ id, 1 ≤ id < next_txn_id_ tm → is_Some (transactions_ tm !! id);
  inv_active : ∀ id, id ∈ active_txn_ids_ tm ↔ IsActive id tm = true;
  inv_start : ∀ id t, transactions_ tm !! id = Some t → ∀ a, a ∈ active_at_start t → 1 ≤ a < id
}.

Lemma state_is_Some st id tm :
  state_is st id tm = true ↔ ∃ t, transactions_ tm !! id = Some t ∧ txn_state t = st.
Proof.
  unfold state_is, GetTransaction. destruct (transactions_ tm !! id) as [t|].
  - rewrite bool_decide_eq_true. naive_solver.
  - naive_solver.
Qed.

Lemma tm_inv_new : tm_inv TransactionManager_new.
Proof.
  split; simpl; try (by intros ?? ?%lookup_empty_Some); [lia|intros; lia|].
  intros id. unfold IsActive. rewrite state_is_Some. simpl. set_solver.
Qed.

(** [finish] on a live pointer. *)
Lemma finish_cases what st tr tm :
  tm_inv tm → st ≠ kActive →
  (∃ id t, tr = Some id ∧ transactions_ tm !! id = Some t ∧ txn_state t = kActive ∧
     finish what st tr tm =
       (Status_OK, mkTM (next_txn_id_ tm)
          (<[id := mkTxn id st (isolation_level t) (active_at_start t)]> (transactions_ tm))
          (active_txn_ids_ tm ∖ {[id]}))) ∨
  finish what st tr tm = (InvalidArgument what, tm).
Proof.
  intros Hinv Hst. unfold finish. destruct tr as [id|]; simpl; [|by right].
  destruct (transactions_ tm !! id) as [t|] eqn:E; [|by right].
  destruct (bool_decide_reflect (txn_state t = kActive)) as [Ha|]; simpl; [|by right].
  left. destruct (inv_ids _ Hinv _ _ E) as [<- _]. eauto 10.
Qed.

Lemma Begin_inv level tm : tm_inv tm → next_txn_id_ tm < 2 ^ 64 - 1 → tm_inv (Begin level tm).2.
Proof.
  intros [Hn Hids Hall Hact Hst] Hlt. unfold Begin. simpl.
  rewrite u64_small by blia. set (n := next_txn_id_ tm) in *.
  assert (transactions_ tm !! n = None) as Hnew.
  { destruct (transactions_ tm !! n) eqn:E; [|done]. apply Hids in E. lia. }
  split; simpl.
  - lia.
  - intros id t [[<- <-]|[Hne Hl]]%lookup_insert_Some; simpl; [lia|]. destruct (Hids _ _ Hl). lia.
  - intros id Hid. destruct (decide (id = n)) as [->|]; [by rewrite lookup_insert_eq|].
    rewrite lookup_insert_ne by done. apply Hall. lia.
  - intros id. rewrite elem_of_union, elem_of_singleton, Hact. unfold IsActive.
    rewrite !state_is_Some. simpl. destruct (decide (id = n)) as [->|].
    + rewrite lookup_insert_eq. naive_solver.
    + rewrite lookup_insert_ne by done. naive_solver.
  - intros id t [[<- <-]|[Hne Hl]]%lookup_insert_Some a Ha; simpl in *; [|by eapply Hst].
    apply Hact, state_is_Some in Ha as (t & Ht & _). destruct (Hids _ _ Ht). lia.
Qed.

Lemma finish_inv what st tr tm : tm_inv tm → st ≠ kActive → tm_inv (finish what st tr tm).2.
Proof.
  intros Hinv Hst. destruct (finish_cases what st tr tm Hinv Hst) as
    [(id & t & -> & Ht & Ha & ->)| ->]; [|done].
  pose proof Hinv as [Hn Hids Hall Hact Hstart]. split; simpl; try done.
  - intros i t' [[<- <-]|[? Hl]]%lookup_insert_Some; [|by apply Hids]. split; [done|]. by eapply Hids.
  - intros i Hi. destruct (decide (i = id)) as [->|]; [by rewrite lookup_insert_eq|].
    rewrite lookup_insert_ne by done. by apply Hall.
  - intros i. rewrite elem_of_difference, elem_of_singleton, Hact. unfold IsActive.
    rewrite !state_is_Some. simpl. destruct (decide (i = id)) as [->|].
    + rewrite lookup_insert_eq. naive_solver.
    + rewrite lookup_insert_ne by done. naive_solver.
  - intros i t' [[<- <-]|[? Hl]]%lookup_insert_Some a; simpl; [by apply (Hstart id)|by eapply Hstart].
Qed.

Lemma tm_step_inv tm tm' : tm_step tm tm' → tm_inv tm → tm_inv tm'.
Proof.
  intros [level tm0 ?|t tm0|t tm0] ?; [by apply Begin_inv|by apply finish_inv..].
Qed.

Lemma tm_steps_inv tm tm' : tm_steps tm tm' → tm_inv tm → tm_inv tm'.
Proof. induction 1; eauto using tm_step_inv. Qed.

Lemma tm_reachable_inv tm : tm_reachable tm → tm_inv tm.
Proof. intros H. eapply tm_steps_inv; [done|apply tm_inv_new]. Qed.

(** ** What a step keeps of a transaction *)

(** A transaction keeps its id, level and snapshot; once finished it keeps
    its state. *)
Definition txn_le (t t' : Transaction) : Prop :=
  txn_id t' = txn_id t ∧ isolation_level t' = isolation_level t ∧
  active_at_start t' = active_at_start t ∧
  (txn_state t ≠ kActive → txn_state t' = txn_state t).

#[export] Instance txn_le_preorder : PreOrder txn_le.
Proof.
  split.
  - by intros t.
  - intros t1 t2 t3 (? & ? & ? & Ha) (? & ? & ? & Hb). split_and!; try congruence.
    intros Hn. rewrite Hb, Ha; [done|done|]. by rewrite Ha.
Qed.

Lemma finish_keeps what st tr tm id t :
  tm_inv tm → st ≠ kActive → transactions_ tm !! id = Some t →
  ∃ t', transactions_ (finish what st tr tm).2 !! id = Some t' ∧ txn_le t t'.
Proof.
  intros Hinv Hst Ht. destruct (finish_cases what st tr tm Hinv Hst) as
    [(i & t0 & -> & Ht0 & Ha & ->)| ->]; simpl; [|by exists t].
  destruct (decide (id = i)) as [->|]; [|rewrite lookup_insert_ne by done; by exists t].
  rewrite lookup_insert_eq. simplify_eq. eexists. split; [done|]. split_and!; try done.
  simpl. by apply (inv_ids _ Hinv) in Ht as [? _].
Qed.

Lemma tm_step_keeps tm tm' id t :
  tm_step tm tm' → tm_inv tm → transactions_ tm !! id = Some t →
  ∃ t', transactions_ tm' !! id = Some t' ∧ txn_le t t'.
Proof.
  intros Hstep Hinv Ht. destruct Hstep as [level tm0 ?|tr tm0|tr tm0]; [|by apply finish_keeps..].
  exists t. split; [|done]. simpl. rewrite lookup_insert_ne; [done|].
  apply (inv_ids _ Hinv) in Ht. lia.
Qed.

Lemma tm_steps_keep tm tm' id t :
  tm_steps tm tm' → tm_inv tm → transactions_ tm !! id = Some t →
  ∃ t', transactions_ tm' !! id = Some t' ∧ txn_le t t'.
Proof.
  induction 1 as [|tm1 tm2 tm3 Hstep Hsteps IH] in t |- *; intros Hinv Ht; [by exists t|].
  destruct (tm_step_keeps _ _ _ _ Hstep Hinv Ht) as (t1 & Ht1 & ?).
  destruct (IH t1 (tm_step_inv _ _ Hstep Hinv) Ht1) as (t2 & ? & ?).
  exists t2. split; [done|]. by transitivity t1.
Qed.

(** ** Lemmas: snapshots *)

(** The transactions a snapshot reader counts as committed are, at any later
    time, exactly those that were committed when it began. *)
Lemma snapshot_committed tm0 tm2 id reader :
  tm_inv tm0 → next_txn_id_ tm0 < 2 ^ 64 - 1 →
  let '(r, tm1) := Begin kSnapshotIsolation tm0 in
  tm_steps tm1 tm2 → transactions_ tm2 !! r = Some reader →
  CommittedAndVisibleTo id reader tm2 = IsCommitted id tm0.
Proof.
  intros Hinv Hlt. pose proof (Begin_inv kSnapshotIsolation tm0 Hinv Hlt) as Hinv1.
  destruct (Begin kSnapshotIsolation tm0) as [r tm1] eqn:EB. simpl in Hinv1. intros Hsteps Hr.
  unfold Begin in EB. injection EB as <- <-.
  set (t0 := mkTxn (next_txn_id_ tm0) kActive kSnapshotIsolation (active_txn_ids_ tm0)) in *.
  simpl in *. set (n := next_txn_id_ tm0) in *.
  destruct (tm_steps_keep _ _ n t0 Hsteps Hinv1) as (r' & Hr' & Hid & Hlev & Hsnap & _);
    [apply lookup_insert_eq|].
  rewrite Hr in Hr'. injection Hr' as <-. simpl in Hid, Hlev, Hsnap.
  pose proof (tm_steps_inv _ _ Hsteps Hinv1) as Hinv2.
  unfold CommittedAndVisibleTo. rewrite Hid, Hlev, Hsnap. cbn [txn_id t0 isolation_level active_at_start].
  rewrite (bool_decide_false (kSnapshotIsolation = kReadCommitted)) by done.
  unfold IsCommitted. apply eq_true_iff_eq. rewrite state_is_Some.
  destruct (Z.eqb_spec id kInvalidTxnId) as [->|Hid0].
  { split; [done|]. intros (t & Ht & _). apply (inv_ids _ Hinv) in Ht. unfold kInvalidTxnId in *. lia. }
  split.
  - unfold GetTransaction. destruct (transactions_ tm2 !! id) as [t2|] eqn:E2; [|done].
    destruct (bool_decide_reflect (txn_state t2 = kCommitted)) as [Hc|]; simpl; [|done].
    intros [Hl Hna]%andb_true_iff. apply Z.ltb_lt in Hl. apply bool_decide_eq_true in Hna.
    destruct (inv_ids _ Hinv2 _ _ E2) as [_ ?].
    destruct (inv_all _ Hinv id) as [t Ht]; [fold n; lia|]. exists t. split; [done|].
    assert (txn_state t ≠ kActive) as Hfin.
    { intros Hact. apply Hna. apply (inv_active _ Hinv). apply state_is_Some. eauto. }
    destruct (tm_steps_keep _ _ id t Hsteps Hinv1) as (t2' & Ht2 & _ & _ & _ & Hst).
    { simpl. rewrite lookup_insert_ne by lia. done. }
    rewrite E2 in Ht2. injection Ht2 as <-. rewrite <- Hst; done.
  - intros (t & Ht & Hc). destruct (inv_ids _ Hinv _ _ Ht) as [_ ?].
    destruct (tm_steps_keep _ _ id t Hsteps Hinv1) as (t2 & Ht2 & _ & _ & _ & Hst).
    { simpl. rewrite lookup_insert_ne by lia. done. }
    unfold GetTransaction. rewrite Ht2, Hst, Hc by congruence. simpl.
    apply andb_true_iff. split; [apply Z.ltb_lt; lia|].
    apply bool_decide_eq_true. intros Ha%(inv_active _ Hinv). apply state_is_Some in Ha as (t' & ? & ?).
    congruence.
Qed.

(** ** Properties *)

(** C34: at every reachable state of the transaction manager the active set is
    exactly the set of active transactions; [Begin] gives an id no transaction
    had, whose snapshot is the set of transactions active at that moment;
    [Commit] and [Abort] succeed exactly on active transactions and otherwise
    change nothing; and no later sequence of operations changes the outcome of
    a finished transaction. *)
Theorem txn_lifecycle tm level t tm' :
  tm_reachable tm → next_txn_id_ tm < 2 ^ 64 - 1 → tm_steps tm tm' →
  (∀ id, id ∈ active_txn_ids_ tm ↔ IsActive id tm = true) ∧
  (let '(r, tm1) := Begin level tm in
   GetTransaction r tm = None ∧ IsActive r tm1 = true ∧
   ∃ txn, GetTransaction r tm1 = Some txn ∧
     ∀ a, a ∈ active_at_start txn ↔ IsActive a tm = true) ∧
  (IsActive t tm = true →
     (Commit (Some t) tm).1 = Status_OK ∧ IsCommitted t (Commit (Some t) tm).2 = true ∧
     (Abort (Some t) tm).1 = Status_OK ∧ state_is kAborted t (Abort (Some t) tm).2 = true) ∧
  (IsActive t tm = false →
     Commit (Some t) tm = (InvalidArgument "Commit: transaction is not active", tm) ∧
     Abort (Some t) tm = (InvalidArgument "Abort: transaction is not active", tm)) ∧
  (∀ id st, st ≠ kActive → state_is st id tm = true → state_is st id tm' = true).
Proof.
  intros Hreach Hlt Hsteps. pose proof (tm_reachable_inv _ Hreach) as Hinv. split_and!.
  - apply Hinv.
  - simpl. split_and!.
    + destruct (GetTransaction _ tm) eqn:E; [|done]. apply (inv_ids _ Hinv) in E. lia.
    + apply state_is_Some. simpl. rewrite lookup_insert_eq. eauto.
    + unfold GetTransaction. simpl. rewrite lookup_insert_eq. eexists. split; [done|]. apply Hinv.
  - intros (x & Ht & Ha)%state_is_Some. unfold Commit, Abort, finish, IsCommitted. simpl.
    rewrite Ht, bool_decide_true by done. simpl. destruct (inv_ids _ Hinv _ _ Ht) as [-> _].
    split_and!; try done; apply state_is_Some; simpl; rewrite lookup_insert_eq; eauto.
  - intros Hn. unfold Commit, Abort, finish. simpl.
    destruct (transactions_ tm !! t) as [x|] eqn:E; [|done].
    assert (txn_state x ≠ kActive).
    { intros ?. assert (IsActive t tm = true) by (apply state_is_Some; eauto). congruence. }
    by rewrite bool_decide_false.
  - intros id st Hst (x & Hx & <-)%state_is_Some.
    destruct (tm_steps_keep _ _ _ _ Hsteps Hinv Hx) as (x' & Hx' & _ & _ & _ & Hs).
    apply state_is_Some. eauto.
Qed.

(** Transaction 1 active, transaction 2 committed. *)
Definition sample_tm : TransactionManager :=
  (Commit (Some 2) (Begin kSnapshotIsolation (Begin kSnapshotIsolation TransactionManager_new).2).2).2.

Lemma sample_tm_reachable : tm_reachable sample_tm.
Proof.
  unfold sample_tm, tm_reachable.
  eapply rtc_l; [by apply (step_begin kSnapshotIsolation)|].
  eapply rtc_l; [by apply (step_begin kSnapshotIsolation)|].
  apply rtc_once. apply step_commit.
Qed.

Lemma txn_lifecycle_witness :
  (Commit (Some 1) sample_tm).1 = Status_OK ∧
  Commit (Some 2) sample_tm = (InvalidArgument "Commit: transaction is not active", sample_tm).
Proof.
  destruct (txn_lifecycle sample_tm kSnapshotIsolation 1 sample_tm sample_tm_reachable eq_refl (rtc_refl _ _))
    as (_ & _ & Hc & _).
  destruct (txn_lifecycle sample_tm kSnapshotIsolation 2 sample_tm sample_tm_reachable eq_refl (rtc_refl _ _))
    as (_ & _ & _ & Hn & _).
  split; [by apply Hc|by apply Hn].
Defined.

(** C25: a snapshot reader sees a fixed snapshot.  Whatever transactions begin,
    commit or abort after it began, a version is visible to it exactly when
    its creator is the reader or was committed when the reader began, and it
    was deleted neither by the reader nor by a transaction committed when the
    reader began. *)
Theorem mvcc_snapshot_stable tm0 tm2 meta reader :
  tm_reachable tm0 → next_txn_id_ tm0 < 2 ^ 64 - 1 →
  let '(r, tm1) := Begin kSnapshotIsolation tm0 in
  tm_steps tm1 tm2 → GetTransaction r tm2 = Some reader →
  IsVisible meta reader tm2 =
    (((xmin meta =? r) || IsCommitted (xmin meta) tm0) &&
     negb ((xmax meta =? r) || IsCommitted (xmax meta) tm0)).
Proof.
  intros Hreach Hlt. pose proof (tm_reachable_inv _ Hreach) as Hinv.
  pose proof (λ i, snapshot_committed tm0 tm2 i reader Hinv Hlt) as Hsnap.
  pose proof (Begin_inv kSnapshotIsolation tm0 Hinv Hlt) as Hinv1.
  destruct (Begin kSnapshotIsolation tm0) as [r tm1] eqn:EB. intros Hsteps Hr.
  assert (txn_id reader = r) as Hid.
  { pose proof (tm_steps_inv _ _ Hsteps Hinv1) as Hinv2. by apply (inv_ids _ Hinv2) in Hr as [? _]. }
  unfold IsVisible. rewrite !(Hsnap _ Hsteps Hr), Hid.
  destruct (xmax meta =? r); simpl; [by rewrite andb_false_r|].
  destruct ((xmin meta =? r) || _); simpl; [|done].
  destruct (Z.eqb_spec (xmax meta) kInvalidTxnId) as [->|]; [|done].
  assert (IsCommitted kInvalidTxnId tm0 = false) as ->; [|done].
  apply not_true_is_false. intros (t & Ht & _)%state_is_Some.
  apply (inv_ids _ Hinv) in Ht. unfold kInvalidTxnId in *. lia.
Qed.

Lemma mvcc_snapshot_stable_witness :
  let tm1 := (Begin kSnapshotIsolation sample_tm).2 in
  let tm2 := (Commit (Some 1) tm1).2 in
  ∃ reader, GetTransaction 3 tm2 = Some reader ∧
    IsVisible (mkMeta 2 0) reader tm2 = true ∧ IsVisible (mkMeta 1 0) reader tm2 = false ∧
    IsVisible (mkMeta 2 1) reader tm2 = true.
Proof.
  eexists. split; [vm_compute; reflexivity|].
  split_and!; rewrite (mvcc_snapshot_stable sample_tm _ _ _ sample_tm_reachable eq_refl
    (rtc_once _ _ (step_commit (Some 1) _)) eq_refl); vm_compute; reflexivity.
Defined.

(** A transaction that is active can mark a version deleted without any
    snapshot reader noticing, provided the version was not already deleted in
    that reader's snapshot. *)
Theorem mvcc_concurrent_delete_invisible tm0 tm2 c d old reader w :
  tm_reachable tm0 → next_txn_id_ tm0 < 2 ^ 64 - 1 →
  let '(r, tm1) := Begin kSnapshotIsolation tm0 in
  tm_steps tm1 tm2 → GetTransaction r tm2 = Some reader →
  IsActive w tm2 = true → w ≠ r → old ≠ r → IsCommitted old tm0 = false → d = mkMeta c w →
  IsVisible d reader tm2 = IsVisible (mkMeta c old) reader tm2.
Proof.
  intros Hreach Hlt. pose proof (tm_reachable_inv _ Hreach) as Hinv.
  pose proof (λ i, snapshot_committed tm0 tm2 i reader Hinv Hlt) as Hsnap.
  pose proof (Begin_inv kSnapshotIsolation tm0 Hinv Hlt) as Hinv1.
  destruct (Begin kSnapshotIsolation tm0) as [r tm1] eqn:EB.
  intros Hsteps Hr Hact Hwr Hor Hold ->.
  assert (txn_id reader = r) as Hid.
  { pose proof (tm_steps_inv _ _ Hsteps Hinv1) as Hinv2. by apply (inv_ids _ Hinv2) in Hr as [? _]. }
  assert (CommittedAndVisibleTo w reader tm2 = false) as Hw.
  { apply state_is_Some in Hact as (t & Ht & Ha). unfold CommittedAndVisibleTo, GetTransaction.
    rewrite Ht, Ha. by case_match. }
  unfold IsVisible. simpl. rewrite Hw, (Hsnap old Hsteps Hr), Hold, Hid.
  rewrite (proj2 (Z.eqb_neq w r)), (proj2 (Z.eqb_neq old r)) by done.
  repeat case_match; done.
Qed.

Lemma mvcc_concurrent_delete_invisible_witness :
  let tm1 := (Begin kSnapshotIsolation sample_tm).2 in
  ∃ reader, GetTransaction 3 tm1 = Some reader ∧
    IsVisible (mkMeta 2 1) reader tm1 = IsVisible (mkMeta 2 0) reader tm1.
Proof.
  eexists. split; [vm_compute; reflexivity|].
  apply (mvcc_concurrent_delete_invisible sample_tm _ 2 _ 0 _ 1 sample_tm_reachable eq_refl
    (rtc_refl _ _) eq_refl); (done || vm_compute; reflexivity).
Defined.
