(* ===== verification/Mvcc.v ===== *)
(** * Versioned rows: src/transaction/mvcc.hpp, mvcc.cpp

    [VersionedRecordStore] keeps each row version as a heap record: the ids of
    the creating and the deleting transaction, then the encoded row. *)

From S2P Require Import Prelude Util Value RecordCodec SlottedPage PageManager PageStore.
From S2P Require Import BufferPool HeapFile Transaction.
From coqutil Require Word.LittleEndianList.

Import LittleEndianList.

Definition kVersionHeaderSize : Z := 8 * 2.

Definition EncodeVersioned (meta : VersionMeta) (encoded_row : bytes) : bytes :=
  let out := replicate (Z.to_nat kVersionHeaderSize) zero_byte in
  let out := WriteFixed 8 out 0 (xmin meta) in
  let out := WriteFixed 8 out 8 (xmax meta) in
  out ++ encoded_row.

(** Reading the header of a shorter string is undefined. *)
Definition DecodeVersionMeta (bs : bytes) : option VersionMeta :=
  if blen bs <? kVersionHeaderSize then None
  else Some (mkMeta (ReadFixedU 8 bs 0) (ReadFixedU 8 bs 8)).

Definition RowPayload (bs : bytes) : bytes := drop (Z.to_nat kVersionHeaderSize) bs.

Section store.
Context {Pool : Type} `{PageStore Pool}.
Context (schema_ : Schema).
Abbreviation Heap := (Pool * HeapFile)%type.

Definition InsertVersion (fuel : nat) (txn : Z) (values : list Value) : M Heap (Result RecordId) :=
  match Encode schema_ values with
  | Err e => ret (Err e)
  | Ok encoded =>
      let versioned := EncodeVersioned (mkMeta txn kInvalidTxnId) encoded in
      if blen versioned >? 65535 then
        ret (Err (InvalidArgument "InsertVersion: encoded row exceeds codec limit"))
      else HeapFile.InsertRecord fuel versioned
  end.

Definition DeleteVersion (fuel : nat) (txn : Z) (rid : RecordId) : M Heap Status :=
  let! r := GetRecordBytes rid in
  match r with
  | Err e => ret e
  | Ok bs =>
      match DecodeVersionMeta bs with
      | None => undefined_behaviour
      | Some meta =>
          let versioned := EncodeVersioned (mkMeta (xmin meta) txn) (RowPayload bs) in
          let! r := UpdateRecord fuel rid versioned in
          ret (result_status r)
      end
  end.

Definition UpdateVersion (fuel : nat) (txn : Z) (old_rid : RecordId) (new_values : list Value) :
    M Heap (Result RecordId) :=
  let! del_status := DeleteVersion fuel txn old_rid in
  if negb (status_ok del_status) then ret (Err del_status)
  else InsertVersion fuel txn new_values.

(** The callback of [ScanVisible]; [None] once a record too short to hold a
    header was read. *)
Definition visit_version {A} (reader : Transaction) (tm : TransactionManager)
    (visitor : RecordId → list Value → A → A) (rid : RecordId) (bs : bytes) (acc : option A) : option A :=
  match acc with
  | None => None
  | Some a =>
      match DecodeVersionMeta bs with
      | None => None
      | Some meta =>
          if negb (IsVisible meta reader tm) then Some a
          else
            match Decode schema_ (RowPayload bs) with
            | Ok values => Some (visitor rid values a)
            | Err _ => Some a
            end
      end
  end.

Definition ScanVisible {A} (fuel : nat) (reader : Transaction) (tm : TransactionManager)
    (visitor : RecordId → list Value → A → A) (acc : A) : M Heap A :=
  let! r := Scan fuel (visit_version reader tm visitor) (Some acc) in
  match r with
  | Some a => ret a
  | None => undefined_behaviour
  end.
End store.

(** ** The abstract store: version and row of each record id *)

Definition version_of (bs : bytes) : option (VersionMeta * bytes) :=
  option_map (λ meta, (meta, RowPayload bs)) (DecodeVersionMeta bs).

Definition version_at {Pool} `{PageStoreView Pool} (st : Pool * HeapFile) (chain : list Z) (rid : RecordId) :
    option (VersionMeta * bytes) :=
  heap_get st chain rid ≫= version_of.

(** Every record of the file is a version. *)
Definition versions_wf {Pool} `{PageStoreView Pool} (st : Pool * HeapFile) (chain : list Z) : Prop :=
  ∀ rid bs, heap_get st chain rid = Some bs → kVersionHeaderSize ≤ blen bs.

(** What a reader sees at a record id. *)
Definition visible_row {Pool} `{PageStoreView Pool} (schema : Schema) (reader : Transaction)
    (tm : TransactionManager) (st : Pool * HeapFile) (chain : list Z) (rid : RecordId) : option (list Value) :=
  match version_at st chain rid with
  | Some (meta, row) =>
      if IsVisible meta reader tm then
        match Decode schema row with Ok values => Some values | Err _ => None end
      else None
  | None => None
  end.

(** ** Lemmas: the version header *)

Lemma EncodeVersioned_split meta row :
  EncodeVersioned meta row = le_split 8 (xmin meta) ++ le_split 8 (xmax meta) ++ row.
Proof.
  unfold EncodeVersioned, kVersionHeaderSize.
  change (replicate (Z.to_nat (8 * 2)) zero_byte) with ([] ++ replicate 16 zero_byte).
  rewrite (WriteFixed_append 8 [] 16 (xmin meta) 0) by (done || lia).
  rewrite (WriteFixed_append 8 _ 8 (xmax meta) 8) by (rewrite ?blen_le_split; done || lia).
  simpl. rewrite app_nil_r, <- app_assoc. done.
Qed.

Lemma blen_EncodeVersioned meta row : blen (EncodeVersioned meta row) = kVersionHeaderSize + blen row.
Proof. rewrite EncodeVersioned_split, !blen_app, !blen_le_split. unfold kVersionHeaderSize. lia. Qed.

Definition meta_wf (meta : VersionMeta) : Prop := in_u64 (xmin meta) ∧ in_u64 (xmax meta).

(** A version read back from its bytes. *)
Lemma version_of_Encode meta row :
  meta_wf meta → version_of (EncodeVersioned meta row) = Some (meta, row).
Proof.
  intros [H1 H2]. unfold version_of, DecodeVersionMeta. rewrite blen_EncodeVersioned.
  destruct (Z.ltb_spec (kVersionHeaderSize + blen row) kVersionHeaderSize); [blia|].
  assert (RowPayload (EncodeVersioned meta row) = row) as ->.
  { unfold RowPayload. rewrite EncodeVersioned_split, app_assoc. apply drop_app_length'.
    rewrite length_app, !length_le_split. done. }
  rewrite EncodeVersioned_split. destruct meta as [x1 x2]. simpl in *.
  pose proof (ReadFixedU_app 8 x1 [] (le_split 8 x2 ++ row) H1) as E1.
  pose proof (ReadFixedU_app 8 x2 (le_split 8 x1) row H2) as E2. rewrite blen_le_split in E2.
  change (Z.of_nat 8) with 8 in E2. change (blen []) with 0 in E1. cbn [app] in E1.
  by rewrite E1, E2.
Qed.

Lemma version_of_Some bs meta row :
  version_of bs = Some (meta, row) →
  DecodeVersionMeta bs = Some meta ∧ row = RowPayload bs ∧ meta_wf meta ∧
  blen bs = kVersionHeaderSize + blen row.
Proof.
  unfold version_of, DecodeVersionMeta. destruct (Z.ltb_spec (blen bs) kVersionHeaderSize); [done|].
  intros [= <- <-]. split_and!; try done.
  - split; simpl; apply (ReadFixedU_range 8).
  - unfold RowPayload, blen in *. rewrite length_drop. unfold kVersionHeaderSize in *. lia.
Qed.

(** ** Lemmas: the operations *)

Section ops.
Context {Pool : Type} `{PageStoreSpec Pool}.
Context (schema : Schema).
Implicit Types (s : Pool) (hf : HeapFile) (chain : list Z).

Lemma rec_of_nonempty bs : 0 < blen bs → rec_of bs = Some bs.
Proof. intros ?. unfold rec_of. destruct (Z.eqb_spec (blen bs) 0); [lia|done]. Qed.

Lemma rec_of_version meta row : rec_of (EncodeVersioned meta row) = Some (EncodeVersioned meta row).
Proof. apply rec_of_nonempty. rewrite blen_EncodeVersioned. unfold kVersionHeaderSize, blen. lia. Qed.

Lemma version_at_ext st chain st' chain' rid :
  heap_get st' chain' rid = heap_get st chain rid → version_at st' chain' rid = version_at st chain rid.
Proof. intros E. unfold version_at. by rewrite E. Qed.

(** A deletion rewrites the header of the version in place. *)
Lemma DeleteVersion_spec fuel s hf chain w rid meta row :
  heap_wf (s, hf) chain → (length chain ≤ fuel)%nat → ps_count s < 2 ^ 31 - 1 →
  version_at (s, hf) chain rid = Some (meta, row) → in_u64 w →
  ∃ st', DeleteVersion fuel w rid (s, hf) = Some (Status_OK, st') ∧ heap_wf st' chain ∧
    ps_count st'.1 = ps_count s ∧
    version_at st' chain rid = Some (mkMeta (xmin meta) w, row) ∧
    ∀ rid', rid' ≠ rid → heap_get st' chain rid' = heap_get (s, hf) chain rid'.
Proof.
  intros Hwf Hfuel Hlt Hv Hw. unfold version_at in Hv.
  destruct (heap_get (s, hf) chain rid) as [bs|] eqn:Hg; [|done]. simpl in Hv.
  destruct (version_of_Some _ _ _ Hv) as (Hd & Hrow & [Hm _] & Hlen).
  destruct (heap_get_Some _ _ _ _ _ Hwf Hg) as (Hin & Hs & _).
  destruct (GetRecordBytes_spec s hf chain rid Hwf Hin Hs) as (s1 & E1 & Hi1 & He1).
  destruct (heap_eqv s hf chain s1 Hwf He1 Hi1) as [Hwf1 Hget1].
  set (v := EncodeVersioned (mkMeta (xmin meta) w) row).
  destruct (UpdateRecord_spec fuel s1 hf chain rid v Hwf1 Hin Hs Hfuel) as
    (r & st2 & chain2 & E2 & Hwf2 & _ & _ & Hres); [destruct He1; lia|].
  rewrite Hget1, Hg in Hres. rewrite decide_True in Hres.
  2: { unfold v. rewrite blen_EncodeVersioned, Hlen. lia. }
  destruct Hres as (-> & -> & Hc & Hnew & Hoth). exists st2. split_and!; try done.
  - unfold DeleteVersion, bind. rewrite E1, Hg, Hd, <- Hrow. fold v. by rewrite E2.
  - rewrite Hc. apply He1.
  - unfold version_at. rewrite Hnew. unfold v. rewrite rec_of_version. simpl.
    by apply version_of_Encode.
  - intros rid' ?. by rewrite Hoth, Hget1.
Qed.

Lemma InsertVersion_spec fuel s hf chain w values bs :
  heap_wf (s, hf) chain → (length chain ≤ fuel)%nat → ps_count s < 2 ^ 31 - 1 → in_u64 w →
  Encode schema values = Ok bs → kVersionHeaderSize + blen bs ≤ max_record →
  ∃ rid st' chain', InsertVersion schema fuel w values (s, hf) = Some (Ok rid, st') ∧
    heap_wf st' chain' ∧ heap_get (s, hf) chain rid = None ∧
    version_at st' chain' rid = Some (mkMeta w kInvalidTxnId, bs) ∧
    ∀ rid', rid' ≠ rid → heap_get st' chain' rid' = heap_get (s, hf) chain rid'.
Proof.
  intros Hwf Hfuel Hlt Hw E Hmax. unfold InsertVersion. rewrite E, blen_EncodeVersioned.
  destruct (Z.gtb_spec (kVersionHeaderSize + blen bs) 65535); [unfold max_record in *; page_lia|].
  set (v := EncodeVersioned _ _).
  destruct (InsertRecord_spec fuel s hf chain v Hwf Hfuel Hlt) as
    (r & st' & chain' & Er & Hwf' & _ & _ & Hres).
  destruct r as [rid|e]; simpl in Hres.
  2: { destruct Hres as (_ & Hbig & _). unfold v in Hbig. rewrite blen_EncodeVersioned in Hbig. lia. }
  destruct Hres as (_ & _ & _ & Hnone & Hnew & Hoth). exists rid, st', chain'. split_and!; try done.
  unfold version_at. rewrite Hnew. unfold v. rewrite rec_of_version. simpl.
  by apply version_of_Encode.
Qed.
End ops.

Section properties.
Context {Pool : Type} `{PageStoreSpec Pool}.
Context (schema : Schema) (Hcols : Forall column_wf schema).
Implicit Types (s : Pool) (hf : HeapFile) (chain : list Z).

(** ** Lemmas: scanning versions *)

(** What the callback of [ScanVisible] does with one record. *)
Definition row_seen (reader : Transaction) (tm : TransactionManager) (bs : bytes) : option (list Value) :=
  match version_of bs with
  | Some (meta, row) =>
      if IsVisible meta reader tm then
        match Decode schema row with Ok values => Some values | Err _ => None end
      else None
  | None => None
  end.

Lemma visible_row_seen reader tm (st : Pool * HeapFile) chain rid :
  visible_row schema reader tm st chain rid = heap_get st chain rid ≫= row_seen reader tm.
Proof. unfold visible_row, version_at, row_seen. by destruct (heap_get st chain rid). Qed.

Lemma visit_versions {A} reader tm (visitor : RecordId → list Value → A → A) records acc :
  Forall (λ '(_, bs), kVersionHeaderSize ≤ blen bs) records →
  fold_left (λ acc '(rid, bs), visit_version schema reader tm visitor rid bs acc) records (Some acc) =
  Some (fold_left (λ acc '(rid, values), visitor rid values acc)
          (omap (λ '(rid, bs), pair rid <$> row_seen reader tm bs) records) acc).
Proof.
  induction records as [|[rid bs] records IH] in acc |- *; [done|].
  intros [Hlen Hrest]%Forall_cons. cbn [fold_left omap list_omap].
  assert (visit_version schema reader tm visitor rid bs (Some acc) =
    Some (match row_seen reader tm bs with Some values => visitor rid values acc | None => acc end)) as ->.
  { unfold visit_version, row_seen, version_of, DecodeVersionMeta.
    destruct (Z.ltb_spec (blen bs) kVersionHeaderSize); [lia|]. simpl.
    destruct (IsVisible _ _ _); simpl; [|done]. by destruct (Decode schema _). }
  rewrite IH by done. by destruct (row_seen reader tm bs).
Qed.

Lemma elem_of_rows_seen reader tm (records : list (RecordId * bytes)) rid values :
  (rid, values) ∈ omap (λ '(rid, bs), pair rid <$> row_seen reader tm bs) records ↔
  ∃ bs, (rid, bs) ∈ records ∧ row_seen reader tm bs = Some values.
Proof.
  rewrite list_elem_of_omap. split.
  - intros ([rid' bs] & Hin & E). destruct (row_seen reader tm bs) eqn:Er; [|done].
    simpl in E. simplify_eq. eauto.
  - intros (bs & Hin & E). exists (rid, bs). split; [done|]. by rewrite E.
Qed.

Lemma NoDup_rows_seen reader tm (records : list (RecordId * bytes)) :
  NoDup records.*1 → NoDup (omap (λ '(rid, bs), pair rid <$> row_seen reader tm bs) records).*1.
Proof.
  induction records as [|[rid bs] records IH]; [done|].
  cbn [fmap list_fmap]. intros [Hn Hnd]%NoDup_cons. cbn [omap list_omap].
  destruct (row_seen reader tm bs) as [values|]; [|by apply IH]. simpl.
  apply NoDup_cons. split; [|by apply IH].
  intros ([rid' v] & E & (bs' & Hin & _)%elem_of_rows_seen)%list_elem_of_fmap.
  simpl in E. subst rid'. apply Hn. apply list_elem_of_fmap. by exists (rid, bs').
Qed.

(** ** Properties *)

(** C26: a scan of a versioned table returns, visits each row visible to the
    reader exactly once with its id and its values, and no other; the table is
    left alone. *)
Theorem mvcc_scan_visible {A} fuel reader tm (visitor : RecordId → list Value → A → A) acc s hf chain :
  heap_wf (s, hf) chain → versions_wf (s, hf) chain → (length chain ≤ fuel)%nat →
  ∃ rows s', ScanVisible schema fuel reader tm visitor acc (s, hf) =
      Some (fold_left (λ acc '(rid, values), visitor rid values acc) rows acc, (s', hf)) ∧
    NoDup rows.*1 ∧
    (∀ rid values, (rid, values) ∈ rows ↔
       visible_row schema reader tm (s, hf) chain rid = Some values) ∧
    heap_wf (s', hf) chain ∧ ps_eqv s s'.
Proof.
  intros Hwf Hvs Hfuel. pose proof Hwf as [Hi Hch Hnd _].
  destruct (scan_loop_spec fuel (visit_version schema reader tm visitor) (first_page_id_ hf) chain
    (Some acc) s hf Hi Hch Hfuel) as (s' & E & Hi' & He).
  rewrite visit_versions in E.
  2: { apply Forall_forall. intros [rid bs] Hin%elem_of_heap_records. by eapply Hvs. }
  eexists _, s'. split_and!; [| | | |apply He..].
  - unfold ScanVisible, Scan, bind, gets. rewrite E. reflexivity.
  - apply NoDup_rows_seen. by apply NoDup_heap_records.
  - intros rid values. rewrite elem_of_rows_seen, visible_row_seen. split.
    + intros (bs & Hin%elem_of_heap_records & ?). by rewrite Hin.
    + destruct (heap_get (s, hf) chain rid) as [bs|] eqn:Hg; [|done]. intros ?. exists bs.
      split; [|done]. by apply elem_of_heap_records.
  - by apply (heap_eqv s hf chain s').
Qed.

(** C35: [UpdateVersion] by an active transaction [w] of a version that is not
    marked deleted, with values that fit.  Every other reader, at either
    isolation level, keeps seeing exactly the rows it saw, and [w] sees the new
    values under the returned id and the old row no longer. *)
Theorem mvcc_update_version fuel s hf chain w rid c row values bs tm reader me :
  heap_wf (s, hf) chain → (length chain ≤ fuel)%nat → ps_count s < 2 ^ 31 - 1 →
  version_at (s, hf) chain rid = Some (mkMeta c kInvalidTxnId, row) →
  Forall value_wf values → Encode schema values = Ok bs → kVersionHeaderSize + blen bs ≤ max_record →
  tm_reachable tm → GetTransaction w tm = Some me → txn_state me = kActive → w ≠ txn_id reader →
  txn_id reader ≠ kInvalidTxnId →
  ∃ new st' chain', UpdateVersion schema fuel w rid values (s, hf) = Some (Ok new, st') ∧
    heap_wf st' chain' ∧
    (∀ rid', visible_row schema reader tm st' chain' rid' =
             visible_row schema reader tm (s, hf) chain rid') ∧
    visible_row schema me tm st' chain' rid = None ∧
    visible_row schema me tm st' chain' new = Some values.
Proof.
  intros Hwf Hfuel Hlt Hv Hvals E Hmax Hreach Hme Hact Hwr Hr0.
  pose proof (tm_reachable_inv _ Hreach) as Hinv.
  destruct (inv_ids _ Hinv _ _ Hme) as [Hid Hwrange]. pose proof (inv_next _ Hinv).
  assert (in_u64 w) as Hw by blia.
  destruct (DeleteVersion_spec fuel s hf chain w rid _ _ Hwf Hfuel Hlt Hv Hw)
    as ([s1 hf1] & E1 & Hwf1 & Hc1 & Hv1 & Hoth1). simpl in Hc1. cbn [xmin] in Hv1.
  destruct (InsertVersion_spec schema fuel s1 hf1 chain w values bs Hwf1 Hfuel) as
    (new & st' & chain' & E2 & Hwf2 & Hnone & Hv2 & Hoth2); [lia|done..|].
  assert (new ≠ rid) as Hne.
  { intros ->. unfold version_at in Hv1. by rewrite Hnone in Hv1. }
  assert (CommittedAndVisibleTo w reader tm = false) as Hcv.
  { unfold CommittedAndVisibleTo. rewrite Hme, Hact. by case_match. }
  assert (version_at st' chain' rid = Some (mkMeta c w, row)) as Hvr.
  { rewrite <- Hv1. apply version_at_ext. by apply Hoth2. }
  exists new, st', chain'. split_and!; try done.
  - unfold UpdateVersion, bind. by rewrite E1.
  - intros rid'. unfold visible_row. destruct (decide (rid' = rid)) as [->|Hr1].
    { rewrite Hvr, Hv. unfold IsVisible. cbn [xmin xmax]. rewrite Hcv.
      rewrite (proj2 (Z.eqb_neq w (txn_id reader))), (proj2 (Z.eqb_neq kInvalidTxnId (txn_id reader)))
        by congruence.
      destruct (negb _); [done|]. by destruct (w =? kInvalidTxnId). }
    destruct (decide (rid' = new)) as [->|Hr2].
    { rewrite Hv2. unfold IsVisible. cbn [xmin xmax]. rewrite Hcv, (proj2 (Z.eqb_neq w (txn_id reader))) by done.
      rewrite (proj2 (Z.eqb_neq kInvalidTxnId (txn_id reader))) by congruence. cbn [orb negb].
      unfold version_at. rewrite Hoth1 in Hnone by done. by rewrite Hnone. }
    by rewrite (version_at_ext (s, hf) chain) by (by rewrite Hoth2, Hoth1).
  - unfold visible_row. rewrite Hvr. unfold IsVisible. cbn [xmin xmax]. by rewrite Hid, Z.eqb_refl.
  - unfold visible_row. rewrite Hv2. unfold IsVisible. cbn [xmin xmax]. rewrite Hid, Z.eqb_refl.
    rewrite (proj2 (Z.eqb_neq kInvalidTxnId w)) by (unfold kInvalidTxnId; lia). cbn [orb negb].
    rewrite Z.eqb_refl. pose proof (Decode_Encode schema values bs [] Hcols Hvals E) as Hd. rewrite app_nil_r in Hd.
    by rewrite Hd.
Qed.

(** The store does not check whether a version is already deleted.  A row
    deleted by a transaction that committed before the snapshot reader began is
    not visible to it; once another active transaction deletes it again the
    operation succeeds and the row is back in the reader's snapshot. *)
Theorem mvcc_redelete_resurrects fuel s hf chain w d rid c row values tm0 tm2 reader :
  heap_wf (s, hf) chain → (length chain ≤ fuel)%nat → ps_count s < 2 ^ 31 - 1 →
  version_at (s, hf) chain rid = Some (mkMeta c d, row) → Decode schema row = Ok values →
  tm_reachable tm0 → next_txn_id_ tm0 < 2 ^ 64 - 1 → IsCommitted c tm0 = true → IsCommitted d tm0 = true →
  tm_steps (Begin kSnapshotIsolation tm0).2 tm2 →
  GetTransaction (Begin kSnapshotIsolation tm0).1 tm2 = Some reader →
  IsActive w tm2 = true → w ≠ (Begin kSnapshotIsolation tm0).1 →
  visible_row schema reader tm2 (s, hf) chain rid = None ∧
  ∃ st', DeleteVersion fuel w rid (s, hf) = Some (Status_OK, st') ∧
    visible_row schema reader tm2 st' chain rid = Some values.
Proof.
  intros Hwf Hfuel Hlt Hv Hdec Hreach Hn Hc Hd Hsteps Hr Hact Hwr.
  pose proof (tm_reachable_inv _ Hreach) as Hinv.
  pose proof (λ i, snapshot_committed tm0 tm2 i reader Hinv Hn) as Hsnap.
  pose proof (Begin_inv kSnapshotIsolation tm0 Hinv Hn) as Hinv1.
  destruct (Begin kSnapshotIsolation tm0) as [r tm1] eqn:EB. simpl in *.
  pose proof (tm_steps_inv _ _ Hsteps Hinv1) as Hinv2.
  destruct (inv_ids _ Hinv2 _ _ Hr) as [Hid _].
  apply state_is_Some in Hact as (me & Hme & Ha).
  destruct (inv_ids _ Hinv2 _ _ Hme) as [_ Hwrange]. pose proof (inv_next _ Hinv2).
  destruct (DeleteVersion_spec fuel s hf chain w rid _ _ Hwf Hfuel Hlt Hv) as (st' & E1 & _ & _ & Hv1 & _);
    [blia|].
  assert (CommittedAndVisibleTo w reader tm2 = false) as Hcv.
  { unfold CommittedAndVisibleTo, GetTransaction. rewrite Hme, Ha. by case_match. }
  split.
  - unfold visible_row. rewrite Hv. unfold IsVisible. cbn [xmin xmax]. rewrite !(Hsnap _ Hsteps Hr), Hc, Hd.
    assert ((d =? kInvalidTxnId) = false) as ->; [|by repeat case_match].
    apply state_is_Some in Hd as (t & Ht & _). apply (inv_ids _ Hinv) in Ht.
    apply Z.eqb_neq. unfold kInvalidTxnId. lia.
  - exists st'. split; [done|]. unfold visible_row. rewrite Hv1. unfold IsVisible. cbn [xmin xmax].
    rewrite (Hsnap c Hsteps Hr), Hc, Hcv, Hid. rewrite (proj2 (Z.eqb_neq w r)) by done.
    rewrite orb_true_r. cbn [negb]. rewrite (proj2 (Z.eqb_neq w kInvalidTxnId)) by (unfold kInvalidTxnId; lia).
    by rewrite Hdec.
Qed.

(** [UpdateVersion] with values the codec refuses reports the error but has
    already marked the old version as deleted by the transaction. *)
Theorem mvcc_failed_update_deletes fuel s hf chain w rid c row values e :
  heap_wf (s, hf) chain → (length chain ≤ fuel)%nat → ps_count s < 2 ^ 31 - 1 → in_u64 w →
  version_at (s, hf) chain rid = Some (mkMeta c kInvalidTxnId, row) → Encode schema values = Err e →
  ∃ st', UpdateVersion schema fuel w rid values (s, hf) = Some (Err e, st') ∧
    version_at st' chain rid = Some (mkMeta c w, row).
Proof.
  intros Hwf Hfuel Hlt Hw Hv E.
  destruct (DeleteVersion_spec fuel s hf chain w rid _ _ Hwf Hfuel Hlt Hv Hw) as (st' & E1 & _ & _ & Hv1 & _).
  exists st'. split; [|done]. unfold UpdateVersion, bind. rewrite E1. simpl. unfold InsertVersion.
  by rewrite E.
Qed.
End properties.

(** ** A table with one version, created by the committed transaction 2 *)

Definition sample_row_bytes : bytes :=
  match Encode sample_schema sample_row with Ok bs => bs | Err _ => [] end.

Definition sample_versions : BufferPool * HeapFile :=
  match InsertVersion sample_schema 1 2 sample_row sample_heap0 with
  | Some (_, st) => st
  | None => sample_heap0
  end.

Lemma sample_row_encodes : Encode sample_schema sample_row = Ok sample_row_bytes.
Proof. vm_compute. reflexivity. Qed.

Lemma sample_versions_wf :
  heap_wf sample_versions [3] ∧ ps_count sample_versions.1 = 4 ∧
  version_at sample_versions [3] (mkRid 3 0) = Some (mkMeta 2 0, sample_row_bytes) ∧
  versions_wf sample_versions [3].
Proof.
  destruct sample_heap0_wf as (Hwf & Hc & Hempty). destruct sample_heap0 as [s0 hf0] eqn:E0.
  destruct (InsertVersion_spec sample_schema 1 s0 hf0 [3] 2 sample_row sample_row_bytes Hwf) as
    (rid & st & chain & E & Hwf' & _ & Hv & Hoth).
  { done. } { cbn [fst] in Hc. rewrite Hc. lia. } { split; lia. } { apply sample_row_encodes. }
  { vm_compute. discriminate. }
  assert (st = sample_versions) as ->.
  { unfold sample_versions. rewrite E0, E. reflexivity. }
  assert (page_count_ (page_manager_ sample_versions.1) = 4) as Hc4 by (vm_compute; reflexivity).
  assert (chain = [3]) as ->.
  { apply (single_page_chain sample_versions); [exact Hwf'|vm_compute; reflexivity..]. }
  assert (match InsertVersion sample_schema 1 2 sample_row sample_heap0 with
          | Some (Ok rid, _) => rid = mkRid 3 0 | _ => False end) as Hr by (vm_compute; reflexivity).
  rewrite E0, E in Hr. generalize dependent sample_versions. intros st **.
  change (rid = mkRid 3 0) in Hr. rewrite Hr in *.
  split; [exact Hwf'|]. split; [exact Hc4|]. split; [exact Hv|].
  intros rid' bs Hg. destruct (decide (rid' = mkRid 3 0)) as [->|Hne].
  - unfold version_at in Hv. rewrite Hg in Hv. cbn [mbind option_bind] in Hv.
    apply version_of_Some in Hv as (_ & _ & _ & Hlen). blia.
  - rewrite Hoth, Hempty in Hg by done. done.
Qed.

Lemma sample_txn1 : ∃ me, GetTransaction 1 sample_tm = Some me ∧ txn_state me = kActive.
Proof. eexists. split; [vm_compute; reflexivity|reflexivity]. Qed.

Lemma mvcc_scan_visible_witness :
  let reader := mkTxn 3 kActive kSnapshotIsolation {[1]} in
  ∃ rows st', ScanVisible sample_schema 1 reader sample_tm (λ rid v acc, (rid, v) :: acc) []
      sample_versions = Some (fold_left (λ acc '(rid, v), (rid, v) :: acc) rows [], st') ∧
    (mkRid 3 0, sample_row) ∈ rows.
Proof.
  intros reader. destruct sample_versions_wf as (Hwf & Hc & Hv & Hvs).
  destruct sample_versions as [s hf].
  destruct (mvcc_scan_visible sample_schema 1 reader sample_tm (λ rid v acc, (rid, v) :: acc) []
    s hf [3] Hwf Hvs) as (rows & s' & E & _ & Hrows & _); [simpl; lia|].
  exists rows, (s', hf). split; [exact E|]. apply Hrows. unfold visible_row. rewrite Hv.
  vm_compute. reflexivity.
Defined.

Lemma mvcc_update_version_witness :
  let reader := mkTxn 3 kActive kSnapshotIsolation {[1]} in
  ∃ new st' chain', UpdateVersion sample_schema 1 1 (mkRid 3 0) sample_row sample_versions =
      Some (Ok new, st') ∧
    visible_row sample_schema reader sample_tm st' chain' (mkRid 3 0) =
    visible_row sample_schema reader sample_tm sample_versions [3] (mkRid 3 0).
Proof.
  intros reader. destruct sample_versions_wf as (Hwf & Hc & Hv & _). destruct sample_txn1 as (me & Hme & Ha).
  destruct sample_versions as [s hf].
  destruct (mvcc_update_version sample_schema sample_schema_wf 1 s hf [3] 1 (mkRid 3 0) 2 sample_row_bytes
    sample_row sample_row_bytes sample_tm reader me Hwf) as (new & st' & chain' & E & _ & Hvis & _);
    [simpl; lia|cbn [fst] in Hc; rewrite Hc; lia|exact Hv|apply sample_row_wf|apply sample_row_encodes
    |vm_compute; discriminate|apply sample_tm_reachable|exact Hme|exact Ha|discriminate|discriminate|].
  exists new, st', chain'. split; [exact E|apply Hvis].
Defined.

Lemma mvcc_failed_update_deletes_witness :
  ∃ e st', UpdateVersion sample_schema 1 1 (mkRid 3 0) [] sample_versions = Some (Err e, st') ∧
    version_at st' [3] (mkRid 3 0) = Some (mkMeta 2 1, sample_row_bytes).
Proof.
  destruct sample_versions_wf as (Hwf & Hc & Hv & _). destruct sample_versions as [s hf].
  destruct (mvcc_failed_update_deletes sample_schema 1 s hf [3] 1 (mkRid 3 0) 2 sample_row_bytes []
    (InvalidArgument "RecordCodec::Encode: value count does not match schema") Hwf) as (st' & E & Hv');
    [simpl; lia|cbn [fst] in Hc; rewrite Hc; lia|split; lia|exact Hv|vm_compute; reflexivity|].
  eauto.
Defined.

(** The same table after transaction 2 deleted its row. *)
Lemma mvcc_redelete_resurrects_witness :
  let tm1 := (Begin kSnapshotIsolation sample_tm).2 in
  ∃ reader st1, GetTransaction 3 tm1 = Some reader ∧
    DeleteVersion 1 2 (mkRid 3 0) sample_versions = Some (Status_OK, st1) ∧
    visible_row sample_schema reader tm1 st1 [3] (mkRid 3 0) = None ∧
    ∃ st2, DeleteVersion 1 1 (mkRid 3 0) st1 = Some (Status_OK, st2) ∧
      visible_row sample_schema reader tm1 st2 [3] (mkRid 3 0) = Some sample_row.
Proof.
  intros tm1. destruct sample_versions_wf as (Hwf & Hc & Hv & _). destruct sample_versions as [s hf].
  destruct (DeleteVersion_spec 1 s hf [3] 2 (mkRid 3 0) (mkMeta 2 0) sample_row_bytes Hwf) as ([s1 hf1] & E1 & Hwf1 & Hc1 & Hv1 & _);
    [simpl; lia|cbn [fst] in Hc; rewrite Hc; lia|exact Hv|split; lia|].
  eexists _, (s1, hf1). split; [vm_compute; reflexivity|]. split; [exact E1|].
  eapply (mvcc_redelete_resurrects sample_schema 1 s1 hf1 [3] 1 2 (mkRid 3 0) 2 sample_row_bytes sample_row
    sample_tm tm1);
    [exact Hwf1|simpl; lia|cbn [fst] in Hc, Hc1; rewrite Hc1, Hc; lia|exact Hv1| |apply sample_tm_reachable
    |reflexivity|vm_compute; reflexivity|vm_compute; reflexivity|apply rtc_refl|vm_compute; reflexivity
    |vm_compute; reflexivity|discriminate].
  pose proof (Decode_Encode sample_schema sample_row sample_row_bytes [] sample_schema_wf sample_row_wf
    sample_row_encodes) as Hd. rewrite app_nil_r in Hd. exact Hd.
Defined.
