(* ===== verification/LockManager.v ===== *)
(** * Row locks and deadlock detection: src/transaction/lock_manager.hpp, lock_manager.cpp

    Each lock operation runs under the manager's mutex and is one step;
    [ReleaseAll] is a sequence of such steps over the ids it copied, in the
    unspecified order of the hash set.  [DetectDeadlock] is the depth-first
    search of the wait-for graph, with the graph given as the list of its
    entries in iteration order, so that the theorems hold for every order. *)

From S2P Require Import Prelude Util Transaction.

Record LockEntry := mkEntry {
  shared_holders : gset Z;
  exclusive_holder : Z
}.

Definition empty_entry : LockEntry := mkEntry ∅ kInvalidTxnId.

Record LockManager := mkLM {
  lock_table_ : gmap RecordId LockEntry;
  txn_locks_ : gmap Z (gset RecordId)
}.

Definition LockManager_new : LockManager := mkLM ∅ ∅.

(** [lock_table_[rid]]: the entry, inserted if absent. *)
Definition entry_at (rid : RecordId) (lm : LockManager) : LockEntry :=
  default empty_entry (lock_table_ lm !! rid).
Definition set_entry (rid : RecordId) (e : LockEntry) (lm : LockManager) : LockManager :=
  mkLM (<[rid := e]> (lock_table_ lm)) (txn_locks_ lm).
(** [txn_locks_[txn_id].insert(rid)]. *)
Definition note_lock (t : Z) (rid : RecordId) (lm : LockManager) : LockManager :=
  mkLM (lock_table_ lm) (<[t := {[rid]} ∪ default ∅ (txn_locks_ lm !! t)]> (txn_locks_ lm)).

Definition LockShared (t : Z) (rid : RecordId) (lm : LockManager) : Status * LockManager :=
  let entry := entry_at rid lm in
  let lm := set_entry rid entry lm in
  if negb (exclusive_holder entry =? kInvalidTxnId) && negb (exclusive_holder entry =? t) then
    (Conflict "LockShared: row is exclusively locked by another transaction", lm)
  else
    let lm := set_entry rid (mkEntry ({[t]} ∪ shared_holders entry) (exclusive_holder entry)) lm in
    (Status_OK, note_lock t rid lm).

Definition LockExclusive (t : Z) (rid : RecordId) (lm : LockManager) : Status * LockManager :=
  let entry := entry_at rid lm in
  let lm := set_entry rid entry lm in
  if negb (exclusive_holder entry =? kInvalidTxnId) && negb (exclusive_holder entry =? t) then
    (Conflict "LockExclusive: row is exclusively locked by another transaction", lm)
  else if negb (bool_decide (set_Forall (λ holder, holder = t) (shared_holders entry))) then
    (Conflict "LockExclusive: row is share-locked by another transaction", lm)
  else
    let lm := set_entry rid (mkEntry ∅ t) lm in
    (Status_OK, note_lock t rid lm).

Definition Unlock (t : Z) (rid : RecordId) (lm : LockManager) : Status * LockManager :=
  match lock_table_ lm !! rid with
  | None => (NotFound "Unlock: no lock held on this row", lm)
  | Some entry =>
      let held := bool_decide (t ∈ shared_holders entry) in
      let shared := shared_holders entry ∖ {[t]} in
      let '(excl, held) :=
        if exclusive_holder entry =? t then (kInvalidTxnId, true) else (exclusive_holder entry, held) in
      let table :=
        if bool_decide (shared = ∅) && (excl =? kInvalidTxnId) then delete rid (lock_table_ lm)
        else <[rid := mkEntry shared excl]> (lock_table_ lm) in
      let locks :=
        match txn_locks_ lm !! t with
        | Some s => <[t := s ∖ {[rid]}]> (txn_locks_ lm)
        | None => txn_locks_ lm
        end in
      let lm := mkLM table locks in
      if negb held then (NotFound "Unlock: this transaction does not hold a lock on this row", lm)
      else (Status_OK, lm)
  end.

(** The loop of [ReleaseAll] over the ids it copied. *)
Fixpoint unlock_each (t : Z) (held : list RecordId) (lm : LockManager) : LockManager :=
  match held with
  | [] => lm
  | rid :: held' => unlock_each t held' (Unlock t rid lm).2
  end.

(** [ReleaseAll] with the copied ids in the order [held]. *)
Definition ReleaseAll_in (held : list RecordId) (t : Z) (lm : LockManager) : LockManager :=
  match txn_locks_ lm !! t with
  | None => lm
  | Some _ =>
      let lm := unlock_each t held lm in
      mkLM (lock_table_ lm) (delete t (txn_locks_ lm))
  end.
Definition ReleaseAll (t : Z) (lm : LockManager) : LockManager :=
  ReleaseAll_in (elements (default ∅ (txn_locks_ lm !! t))) t lm.

(** ** The abstract lock table and the invariant *)

Definition holds_shared (lm : LockManager) (t : Z) (rid : RecordId) : Prop :=
  t ∈ shared_holders (entry_at rid lm).
Definition holds_exclusive (lm : LockManager) (t : Z) (rid : RecordId) : Prop :=
  exclusive_holder (entry_at rid lm) = t ∧ t ≠ kInvalidTxnId.
Definition holds (lm : LockManager) (t : Z) (rid : RecordId) : Prop :=
  holds_shared lm t rid ∨ holds_exclusive lm t rid.

Record lm_inv (lm : LockManager) : Prop := {
  linv_compat : ∀ rid t, holds_exclusive lm t rid → ∀ t', holds lm t' rid → t' = t;
  linv_locks : ∀ t rid, rid ∈ default ∅ (txn_locks_ lm !! t) ↔ holds lm t rid;
  linv_entry : ∀ rid e, lock_table_ lm !! rid = Some e →
                 shared_holders e ≠ ∅ ∨ exclusive_holder e ≠ kInvalidTxnId;
  linv_valid : ∀ rid, kInvalidTxnId ∉ shared_holders (entry_at rid lm)
}.

(** The steps of the threads, one critical section each.  [ReleaseAll] copies
    the transaction's list, unlocks its rows one by one and then forgets the
    list, taking the mutex anew each time: [releasing] has the rows that are
    still to be unlocked, and other transactions may step in between.  A
    transaction is run by one thread, so it does nothing else while it
    releases its locks. *)
Definition forget_locks (t : Z) (lm : LockManager) : LockManager := mkLM (lock_table_ lm) (delete t (txn_locks_ lm)).

Inductive lm_step : LockManager * gmap Z (list RecordId) → LockManager * gmap Z (list RecordId) → Prop :=
  | step_shared t rid lm releasing :
      t ≠ kInvalidTxnId → releasing !! t = None → lm_step (lm, releasing) ((LockShared t rid lm).2, releasing)
  | step_exclusive t rid lm releasing :
      t ≠ kInvalidTxnId → releasing !! t = None → lm_step (lm, releasing) ((LockExclusive t rid lm).2, releasing)
  | step_unlock t rid lm releasing :
      t ≠ kInvalidTxnId → releasing !! t = None → lm_step (lm, releasing) ((Unlock t rid lm).2, releasing)
  | step_release t locks held lm releasing :
      t ≠ kInvalidTxnId → releasing !! t = None → txn_locks_ lm !! t = Some locks → held ≡ₚ elements locks →
      lm_step (lm, releasing) (lm, <[t := held]> releasing)
  | step_release_row t rid held lm releasing :
      releasing !! t = Some (rid :: held) → lm_step (lm, releasing) ((Unlock t rid lm).2, <[t := held]> releasing)
  | step_release_end t lm releasing :
      releasing !! t = Some [] → lm_step (lm, releasing) (forget_locks t lm, delete t releasing).

Definition lm_reaches (st : LockManager * gmap Z (list RecordId)) : Prop := rtc lm_step (LockManager_new, ∅) st.
Definition lm_reachable (lm : LockManager) : Prop := ∃ releasing, lm_reaches (lm, releasing).

(** ** Lemmas *)

Lemma entry_at_set rid rid' e lm :
  entry_at rid' (set_entry rid e lm) = if decide (rid' = rid) then e else entry_at rid' lm.
Proof.
  unfold entry_at. simpl. case_decide as E; [by subst; rewrite lookup_insert_eq|].
  by rewrite lookup_insert_ne.
Qed.

Lemma lm_inv_new : lm_inv LockManager_new.
Proof.
  split; unfold holds, holds_shared, holds_exclusive, entry_at; simpl.
  - intros rid t. rewrite lookup_empty. simpl. naive_solver.
  - intros t rid. rewrite !lookup_empty. simpl. set_solver.
  - intros rid e. by rewrite lookup_empty.
  - intros rid. rewrite lookup_empty. simpl. set_solver.
Qed.

(** A new entry for [rid], and [rid] noted for the transactions [t] that hold
    it: the invariant in terms of the entry alone. *)
Lemma lm_inv_update lm lm' rid e :
  lm_inv lm →
  (∀ rid', entry_at rid' lm' = if decide (rid' = rid) then e else entry_at rid' lm) →
  (∀ t rid', rid' ≠ rid → (rid' ∈ default ∅ (txn_locks_ lm' !! t) ↔ rid' ∈ default ∅ (txn_locks_ lm !! t))) →
  (∀ t, rid ∈ default ∅ (txn_locks_ lm' !! t) ↔
        t ∈ shared_holders e ∨ (exclusive_holder e = t ∧ t ≠ kInvalidTxnId)) →
  (exclusive_holder e ≠ kInvalidTxnId → ∀ t, t ∈ shared_holders e → t = exclusive_holder e) →
  (∀ rid' e', lock_table_ lm' !! rid' = Some e' → rid' ≠ rid → lock_table_ lm !! rid' = Some e') →
  (∀ e', lock_table_ lm' !! rid = Some e' → shared_holders e' ≠ ∅ ∨ exclusive_holder e' ≠ kInvalidTxnId) →
  kInvalidTxnId ∉ shared_holders e →
  lm_inv lm'.
Proof.
  intros [Hc Hl He Hv] Hat Hother Hrid Hcompat Htab Hne Hval.
  split; unfold holds, holds_shared, holds_exclusive in *.
  - intros r t. rewrite Hat. case_decide; [|apply Hc]. intros [<- Hx] t' [Hs|[<- _]]; [|done].
    by apply Hcompat.
  - intros t r. destruct (decide (r = rid)) as [->|Hr].
    + rewrite Hrid, Hat, decide_True by done. done.
    + rewrite Hother by done. rewrite Hat, decide_False by done. apply Hl.
  - intros r e' Hr. destruct (decide (r = rid)) as [->|Hne']; [by apply Hne|]. by eapply He, Htab.
  - intros r. rewrite Hat. by case_decide.
Qed.

Lemma entry_at_present rid lm :
  exclusive_holder (entry_at rid lm) ≠ kInvalidTxnId ∨ shared_holders (entry_at rid lm) ≠ ∅ →
  lock_table_ lm !! rid = Some (entry_at rid lm).
Proof. unfold entry_at. destruct (lock_table_ lm !! rid); [done|]. simpl. intros [?|?]; done. Qed.

Lemma set_entry_same rid lm :
  lock_table_ lm !! rid = Some (entry_at rid lm) → set_entry rid (entry_at rid lm) lm = lm.
Proof. intros E. unfold set_entry. rewrite insert_id by done. by destruct lm. Qed.

Lemma note_lock_other t rid lm t' rid' :
  rid' ≠ rid →
  rid' ∈ default ∅ (txn_locks_ (note_lock t rid lm) !! t') ↔ rid' ∈ default ∅ (txn_locks_ lm !! t').
Proof.
  intros Hne. simpl. destruct (decide (t' = t)) as [->|]; [|by rewrite lookup_insert_ne].
  rewrite lookup_insert_eq. simpl. set_solver.
Qed.

Lemma note_lock_this t rid lm t' :
  rid ∈ default ∅ (txn_locks_ (note_lock t rid lm) !! t') ↔
  t' = t ∨ rid ∈ default ∅ (txn_locks_ lm !! t').
Proof.
  simpl. destruct (decide (t' = t)) as [->|].
  - rewrite lookup_insert_eq. simpl. set_solver.
  - rewrite lookup_insert_ne by done. naive_solver.
Qed.

(** Who holds what after the entry of [rid] became [e]. *)
Lemma holds_update lm lm' rid e :
  (∀ rid', entry_at rid' lm' = if decide (rid' = rid) then e else entry_at rid' lm) →
  ∀ t rid', rid' ≠ rid → (holds lm' t rid' ↔ holds lm t rid') ∧
                         (holds_exclusive lm' t rid' ↔ holds_exclusive lm t rid').
Proof.
  intros Hat t rid' Hne. unfold holds, holds_shared, holds_exclusive.
  rewrite Hat, decide_False by done. done.
Qed.

(** The test both lock operations start with. *)
Lemma excl_conflict e t :
  (negb (exclusive_holder e =? kInvalidTxnId) && negb (exclusive_holder e =? t) = true ∧
   exclusive_holder e ≠ kInvalidTxnId ∧ exclusive_holder e ≠ t) ∨
  (negb (exclusive_holder e =? kInvalidTxnId) && negb (exclusive_holder e =? t) = false ∧
   (exclusive_holder e = kInvalidTxnId ∨ exclusive_holder e = t)).
Proof.
  destruct (Z.eqb_spec (exclusive_holder e) kInvalidTxnId), (Z.eqb_spec (exclusive_holder e) t); simpl; tauto.
Qed.

Lemma entry_at_set2 t rid e e' lm rid' :
  entry_at rid' (note_lock t rid (set_entry rid e' (set_entry rid e lm))) =
  if decide (rid' = rid) then e' else entry_at rid' lm.
Proof.
  change (entry_at rid' (set_entry rid e' (set_entry rid e lm)) = if decide (rid' = rid) then e' else entry_at rid' lm).
  rewrite !entry_at_set. by case_decide.
Qed.

Lemma LockShared_spec t rid lm :
  lm_inv lm → t ≠ kInvalidTxnId →
  (∃ t', t' ≠ t ∧ holds_exclusive lm t' rid ∧
     LockShared t rid lm = (Conflict "LockShared: row is exclusively locked by another transaction", lm)) ∨
  ((∀ t', holds_exclusive lm t' rid → t' = t) ∧
   ∃ lm', LockShared t rid lm = (Status_OK, lm') ∧ lm_inv lm' ∧ holds_shared lm' t rid ∧
     (∀ t' rid', holds lm' t' rid' ↔ holds lm t' rid' ∨ (t' = t ∧ rid' = rid)) ∧
     (∀ t' rid', holds_exclusive lm' t' rid' ↔ holds_exclusive lm t' rid')).
Proof.
  intros Hinv Ht. unfold LockShared. destruct (excl_conflict (entry_at rid lm) t) as [[-> Hx]|[-> Hx]].
  - left. exists (exclusive_holder (entry_at rid lm)). destruct Hx as [Hx Hxt]. split_and!; try done.
    rewrite set_entry_same by (apply entry_at_present; by left). done.
  - right. set (e := entry_at rid lm) in *.
    set (e' := mkEntry ({[t]} ∪ shared_holders e) (exclusive_holder e)).
    set (lm' := note_lock t rid (set_entry rid e' (set_entry rid e lm))).
    assert (∀ rid', entry_at rid' lm' = if decide (rid' = rid) then e' else entry_at rid' lm) as Hat.
    { apply entry_at_set2. }
    pose proof (holds_update lm lm' rid e' Hat) as Hupd.
    split; [intros t' [<- ?]; unfold e in *; naive_solver|]. exists lm'. split_and!; [done| | | |].
    + apply (lm_inv_update lm lm' rid e' Hinv Hat).
      * intros t' rid' Hne. exact (note_lock_other t rid (set_entry rid e' (set_entry rid e lm)) t' rid' Hne).
      * intros t'. unfold lm'. rewrite note_lock_this.
        change (txn_locks_ (set_entry rid e' (set_entry rid e lm))) with (txn_locks_ lm).
        rewrite (linv_locks _ Hinv t' rid). unfold holds, holds_shared, holds_exclusive. fold e. simpl. set_solver.
      * simpl. intros Hn t' [->%elem_of_singleton|Hs]%elem_of_union; [naive_solver|].
        apply (linv_compat _ Hinv rid (exclusive_holder e)); [done|by left].
      * intros rid' e2. simpl. intros Hl ?. by rewrite !lookup_insert_ne in Hl.
      * intros e2. simpl. rewrite lookup_insert_eq. intros [= <-]. left. simpl. set_solver.
      * simpl. pose proof (linv_valid _ Hinv rid). set_solver.
    + unfold holds_shared. rewrite Hat, decide_True by done. set_solver.
    + intros t' rid'. destruct (decide (rid' = rid)) as [->|Hne].
      * unfold holds, holds_shared, holds_exclusive. rewrite Hat, decide_True by done. simpl. set_solver.
      * rewrite (proj1 (Hupd t' rid' Hne)). naive_solver.
    + intros t' rid'. destruct (decide (rid' = rid)) as [->|Hne]; [|by apply Hupd].
      unfold holds_exclusive. by rewrite Hat, decide_True.
Qed.

Lemma LockExclusive_spec t rid lm :
  lm_inv lm → t ≠ kInvalidTxnId →
  (∃ t' msg, t' ≠ t ∧ holds lm t' rid ∧ LockExclusive t rid lm = (Conflict msg, lm)) ∨
  ((∀ t', holds lm t' rid → t' = t) ∧
   ∃ lm', LockExclusive t rid lm = (Status_OK, lm') ∧ lm_inv lm' ∧ holds_exclusive lm' t rid ∧
     (∀ t' rid', holds lm' t' rid' ↔ holds lm t' rid' ∨ (t' = t ∧ rid' = rid))).
Proof.
  intros Hinv Ht. unfold LockExclusive. destruct (excl_conflict (entry_at rid lm) t) as [[-> Hx]|[-> Hx]].
  { left. exists (exclusive_holder (entry_at rid lm)). destruct Hx as [Hx Hxt]. eexists.
    split_and!; [done|by right|]. rewrite set_entry_same by (apply entry_at_present; by left). done. }
  case_bool_decide as Hall; cbn [negb].
  - right. set (e := entry_at rid lm) in *. set (e' := mkEntry ∅ t).
    set (lm' := note_lock t rid (set_entry rid e' (set_entry rid e lm))).
    assert (∀ rid', entry_at rid' lm' = if decide (rid' = rid) then e' else entry_at rid' lm) as Hat.
    { apply entry_at_set2. }
    pose proof (holds_update lm lm' rid e' Hat) as Hupd.
    assert (∀ t', holds lm t' rid → t' = t) as Honly.
    { intros t' [Hs|[Hs ?]]; [by apply Hall|]. unfold e in *. naive_solver. }
    split; [done|]. exists lm'. split_and!; [done| | |].
    + apply (lm_inv_update lm lm' rid e' Hinv Hat).
      * intros t' rid' Hne. exact (note_lock_other t rid (set_entry rid e' (set_entry rid e lm)) t' rid' Hne).
      * intros t'. unfold lm'. rewrite note_lock_this.
        change (txn_locks_ (set_entry rid e' (set_entry rid e lm))) with (txn_locks_ lm).
        rewrite (linv_locks _ Hinv t' rid). unfold holds, holds_shared, holds_exclusive. fold e. simpl.
        split; [|set_solver]. intros [->|Hh%Honly]; [by right|]. subst. by right.
      * simpl. set_solver.
      * intros rid' e2. simpl. intros Hl ?. by rewrite !lookup_insert_ne in Hl.
      * intros e2. simpl. rewrite lookup_insert_eq. intros [= <-]. by right.
      * simpl. set_solver.
    + unfold holds_exclusive. by rewrite Hat, decide_True.
    + intros t' rid'. destruct (decide (rid' = rid)) as [->|Hne].
      * split; [|intros [Hh%Honly|[-> _]]; [subst|]; right; unfold holds_exclusive; by rewrite Hat, decide_True].
        unfold holds, holds_shared, holds_exclusive. rewrite Hat, decide_True by done. simpl. set_solver.
      * rewrite (proj1 (Hupd t' rid' Hne)). naive_solver.
  - left. apply not_set_Forall_Exists in Hall as (t' & Hs & Hne); [|solve_decision].
    exists t'. eexists. split_and!; [done|by left|].
    rewrite set_entry_same; [done|]. apply entry_at_present. right. set_solver.
Qed.

(** The entry, the table and the locks of [t] after [Unlock] of an entry [e]. *)
Definition released (t : Z) (e : LockEntry) : LockEntry :=
  mkEntry (shared_holders e ∖ {[t]}) (if exclusive_holder e =? t then kInvalidTxnId else exclusive_holder e).

Definition unlocked (t : Z) (rid : RecordId) (e : LockEntry) (lm : LockManager) : LockManager :=
  mkLM
    (if bool_decide (shared_holders (released t e) = ∅) && (exclusive_holder (released t e) =? kInvalidTxnId)
     then delete rid (lock_table_ lm) else <[rid := released t e]> (lock_table_ lm))
    match txn_locks_ lm !! t with Some s => <[t := s ∖ {[rid]}]> (txn_locks_ lm) | None => txn_locks_ lm end.

Lemma Unlock_present t rid e lm :
  lock_table_ lm !! rid = Some e →
  Unlock t rid lm =
    (if (exclusive_holder e =? t) || bool_decide (t ∈ shared_holders e) then Status_OK
     else NotFound "Unlock: this transaction does not hold a lock on this row", unlocked t rid e lm).
Proof.
  intros El. unfold Unlock, unlocked, released. rewrite El. destruct (exclusive_holder e =? t); cbn [orb exclusive_holder shared_holders]; [done|].
  by destruct (bool_decide (t ∈ shared_holders e)).
Qed.

Section unlock.
Context (t : Z) (rid : RecordId) (e : LockEntry) (lm : LockManager).
Context (Ht : t ≠ kInvalidTxnId) (El : lock_table_ lm !! rid = Some e).

Lemma entry_unlocked rid' : entry_at rid' (unlocked t rid e lm) = if decide (rid' = rid) then released t e else entry_at rid' lm.
Proof.
  unfold entry_at, unlocked. cbn [lock_table_]. case_decide as Hr; [subst rid'|].
  - destruct (bool_decide_reflect (shared_holders (released t e) = ∅)) as [Hs|],
      (Z.eqb_spec (exclusive_holder (released t e)) kInvalidTxnId) as [Hx|]; cbn [andb];
      rewrite ?lookup_insert_eq, ?lookup_delete_eq; try done.
    destruct (released t e) as [sh ex]. cbn in *. by subst.
  - case_match; by rewrite ?lookup_insert_ne, ?lookup_delete_ne.
Qed.

Lemma released_holders t' :
  t' ∈ shared_holders (released t e) ∨ (exclusive_holder (released t e) = t' ∧ t' ≠ kInvalidTxnId) ↔ holds lm t' rid ∧ t' ≠ t.
Proof.
  unfold holds, holds_shared, holds_exclusive, entry_at. rewrite El. cbn [default released shared_holders exclusive_holder from_option id].
  destruct (Z.eqb_spec (exclusive_holder e) t); set_solver.
Qed.

Lemma unlocked_locks t' rid' :
  rid' ∈ default ∅ (txn_locks_ (unlocked t rid e lm) !! t') ↔
    rid' ∈ default ∅ (txn_locks_ lm !! t') ∧ ¬ (t' = t ∧ rid' = rid).
Proof.
  unfold unlocked. cbn [txn_locks_]. destruct (txn_locks_ lm !! t) as [s|] eqn:Es.
  - destruct (decide (t' = t)) as [->|]; [rewrite lookup_insert_eq, Es; simpl; set_solver|].
    rewrite lookup_insert_ne by done. naive_solver.
  - destruct (decide (t' = t)) as [->|]; [rewrite Es; simpl; set_solver|]. naive_solver.
Qed.

Lemma unlocked_inv : lm_inv lm → lm_inv (unlocked t rid e lm).
Proof.
  intros Hinv. assert (entry_at rid lm = e) as Ee by (unfold entry_at; by rewrite El).
  apply (lm_inv_update lm _ rid (released t e) Hinv entry_unlocked).
  - intros t' rid' ?. rewrite unlocked_locks. tauto.
  - intros t'. rewrite unlocked_locks, released_holders, (linv_locks _ Hinv). naive_solver.
  - cbn [released exclusive_holder shared_holders]. intros Hx t' Hs. destruct (Z.eqb_spec (exclusive_holder e) t); [done|].
    apply (linv_compat _ Hinv rid); [by split; rewrite ?Ee|left]. unfold holds_shared. rewrite Ee. set_solver.
  - intros rid' e2. cbn [unlocked lock_table_]. case_match; intros Hl ?; [by rewrite lookup_delete_ne in Hl|by rewrite lookup_insert_ne in Hl].
  - intros e2. cbn [unlocked lock_table_].
    destruct (bool_decide_reflect (shared_holders (released t e) = ∅)), (Z.eqb_spec (exclusive_holder (released t e)) kInvalidTxnId);
      cbn [andb]; rewrite ?lookup_insert_eq, ?lookup_delete_eq; intros [= <-]; auto.
  - cbn [released shared_holders]. pose proof (linv_valid _ Hinv rid) as Hval. rewrite Ee in Hval. set_solver.
Qed.

Lemma unlocked_holds t' rid' : holds (unlocked t rid e lm) t' rid' ↔ holds lm t' rid' ∧ ¬ (t' = t ∧ rid' = rid).
Proof.
  destruct (decide (rid' = rid)) as [->|Hne].
  - transitivity (holds lm t' rid ∧ t' ≠ t); [|naive_solver]. rewrite <- released_holders.
    unfold holds, holds_shared, holds_exclusive. by rewrite entry_unlocked, decide_True.
  - rewrite (proj1 (holds_update lm _ rid (released t e) entry_unlocked t' rid' Hne)). naive_solver.
Qed.
End unlock.

(** [Unlock] removes the locks of [t] on [rid] and nothing else. *)
Lemma Unlock_spec t rid lm :
  lm_inv lm → t ≠ kInvalidTxnId →
  lm_inv (Unlock t rid lm).2 ∧
  ((Unlock t rid lm).1 = Status_OK ↔ holds lm t rid) ∧
  (∀ t' rid', holds (Unlock t rid lm).2 t' rid' ↔ holds lm t' rid' ∧ ¬ (t' = t ∧ rid' = rid)).
Proof.
  intros Hinv Ht. destruct (lock_table_ lm !! rid) as [e|] eqn:El.
  - rewrite (Unlock_present t rid e lm El). cbn [fst snd]. split; [by apply unlocked_inv|]. split; [|intros; by apply unlocked_holds].
    unfold holds, holds_shared, holds_exclusive, entry_at. rewrite El. cbn [default from_option id].
    destruct (Z.eqb_spec (exclusive_holder e) t) as [Hx|Hx]; cbn [orb]; [naive_solver|].
    case_bool_decide; naive_solver.
  - assert (¬ holds lm t rid) as Hno.
    { unfold holds, holds_shared, holds_exclusive, entry_at. rewrite El. simpl. set_solver. }
    unfold Unlock. rewrite El. cbn [fst snd]. split; [done|]. split; [done|]. intros t' rid'. split; [|tauto]. intros Hh.
    split; [done|]. by intros [-> ->].
Qed.

Lemma unlock_each_spec t held lm :
  lm_inv lm → t ≠ kInvalidTxnId →
  lm_inv (unlock_each t held lm) ∧
  (∀ t' rid', holds (unlock_each t held lm) t' rid' ↔ holds lm t' rid' ∧ ¬ (t' = t ∧ rid' ∈ held)).
Proof.
  induction held as [|rid held IH] in lm |- *; intros Hinv Ht; simpl.
  - split; [done|]. intros. set_solver.
  - destruct (Unlock_spec t rid lm Hinv Ht) as (Hinv1 & _ & Hh1).
    destruct (IH _ Hinv1 Ht) as [Hinv2 Hh2]. split; [done|].
    intros t' rid'. rewrite Hh2, Hh1, elem_of_cons. naive_solver.
Qed.

Lemma ReleaseAll_spec t lm held :
  lm_inv lm → t ≠ kInvalidTxnId → held ≡ₚ elements (default ∅ (txn_locks_ lm !! t)) →
  lm_inv (ReleaseAll_in held t lm) ∧
  (∀ t' rid, holds (ReleaseAll_in held t lm) t' rid ↔ holds lm t' rid ∧ t' ≠ t).
Proof.
  intros Hinv Ht Hperm. unfold ReleaseAll_in.
  destruct (txn_locks_ lm !! t) as [s|] eqn:Es.
  2: { split; [done|]. intros t' rid. split; [|tauto]. intros Hh. split; [done|]. intros ->.
       apply (linv_locks _ Hinv) in Hh. rewrite Es in Hh. simpl in Hh. set_solver. }
  destruct (unlock_each_spec t held lm Hinv Ht) as [[Hc Hl He Hv] Hh].
  set (lm1 := unlock_each t held lm) in *.
  assert (∀ t' rid, holds lm1 t' rid ↔ holds lm t' rid ∧ t' ≠ t) as Hh'.
  { intros t' rid. rewrite Hh, Hperm, elem_of_elements. simpl.
    pose proof (linv_locks _ Hinv t rid) as Hs. rewrite Es in Hs. simpl in Hs. naive_solver. }
  set (lm2 := mkLM (lock_table_ lm1) (delete t (txn_locks_ lm1))).
  change (∀ t' rid, holds lm2 t' rid ↔ holds lm t' rid ∧ t' ≠ t) in Hh'.
  split; [|done]. split; try done. intros t' rid. rewrite Hh'. simpl.
  destruct (decide (t' = t)) as [->|].
  - rewrite lookup_delete_eq. simpl. set_solver.
  - rewrite lookup_delete_ne by done. rewrite (Hl t' rid). change (holds lm1 t' rid) with (holds lm2 t' rid).
    by rewrite Hh'.
Qed.

Lemma forget_locks_inv t lm : lm_inv lm → (∀ rid, ¬ holds lm t rid) → lm_inv (forget_locks t lm).
Proof.
  intros [Hc Hl He Hv] Hno. split; try done. intros t' rid. cbn [forget_locks txn_locks_].
  change (holds (forget_locks t lm) t' rid) with (holds lm t' rid). destruct (decide (t' = t)) as [->|Hne].
  - rewrite lookup_delete_eq. split; [simpl; set_solver|]. by intros ?%Hno.
  - by rewrite lookup_delete_ne.
Qed.

(** A transaction that is releasing its locks holds only those still to be
    unlocked. *)
Definition release_inv (st : LockManager * gmap Z (list RecordId)) : Prop :=
  lm_inv st.1 ∧ ∀ t held, st.2 !! t = Some held → t ≠ kInvalidTxnId ∧ ∀ rid, holds st.1 t rid → rid ∈ held.

Lemma release_inv_other lm lm' releasing t :
  lm_inv lm' → releasing !! t = None → (∀ t' rid, t' ≠ t → holds lm' t' rid → holds lm t' rid) →
  release_inv (lm, releasing) → release_inv (lm', releasing).
Proof.
  intros Hinv Ht Hh [_ Hr]. split; [done|]. intros t' held E. destruct (Hr t' held E) as [? Hr']. split; [done|].
  intros rid Hheld. apply Hr', Hh; [|done]. cbn [snd] in E. congruence.
Qed.

Lemma lm_step_inv st st' : lm_step st st' → release_inv st → release_inv st'.
Proof.
  intros Hstep Hinv. pose proof Hinv as [Hlm Hr]. cbn [fst snd] in *.
  destruct Hstep as [t rid lm rel Ht Hn|t rid lm rel Ht Hn|t rid lm rel Ht Hn|t locks held lm rel Ht Hn Hl Hp|t rid held lm rel Hh|t lm rel Hh];
    cbn [fst snd] in *.
  - destruct (LockShared_spec t rid lm Hlm Ht) as [(? & _ & _ & ->)|(_ & lm' & -> & ? & _ & Hh & _)]; [done|].
    eapply release_inv_other; [done|done| |done]. intros t' rid' Hne. cbn [snd]. rewrite Hh. naive_solver.
  - destruct (LockExclusive_spec t rid lm Hlm Ht) as [(? & ? & _ & _ & ->)|(_ & lm' & -> & ? & _ & Hh)]; [done|].
    eapply release_inv_other; [done|done| |done]. intros t' rid' Hne. cbn [snd]. rewrite Hh. naive_solver.
  - destruct (Unlock_spec t rid lm Hlm Ht) as (? & _ & Hh).
    eapply release_inv_other; [done|done| |done]. intros t' rid' Hne. rewrite Hh. naive_solver.
  - split; [done|]. cbn [fst snd]. intros t' held'. destruct (decide (t' = t)) as [->|Hne].
    + rewrite lookup_insert_eq. intros [= <-]. split; [done|]. intros rid Hh. apply (linv_locks _ Hlm) in Hh.
      rewrite Hl in Hh. rewrite Hp. by apply elem_of_elements.
    + rewrite lookup_insert_ne by done. apply Hr.
  - destruct (Hr t _ Hh) as [Ht Hheld]. destruct (Unlock_spec t rid lm Hlm Ht) as (Hinv' & _ & Hu).
    split; [done|]. cbn [fst snd]. intros t' held'. destruct (decide (t' = t)) as [->|Hne].
    + rewrite lookup_insert_eq. intros [= <-]. split; [done|]. intros rid' [Hh' Hno]%Hu.
      apply Hheld, elem_of_cons in Hh' as [->|?]; naive_solver.
    + rewrite lookup_insert_ne by done. intros E. destruct (Hr t' held' E) as [? Hr']. split; [done|].
      intros rid' [? _]%Hu. by apply Hr'.
  - destruct (Hr t _ Hh) as [Ht Hheld]. split; cbn [fst snd].
    + apply forget_locks_inv; [done|]. intros rid ?%Hheld. set_solver.
    + intros t' held' E. rewrite lookup_delete_Some in E. destruct E as [_ E]. apply (Hr t' held' E).
Qed.

Lemma lm_reachable_inv lm : lm_reachable lm → lm_inv lm.
Proof.
  intros [releasing Hreach].
  assert (release_inv (LockManager_new, ∅) → release_inv (lm, releasing)) as Hc.
  { unfold lm_reaches in Hreach. induction Hreach; eauto using lm_step_inv. }
  apply Hc. split; [apply lm_inv_new|done].
Qed.

(** [ReleaseAll] without interruption is one of these runs. *)
Lemma release_all_steps t held lm releasing :
  t ≠ kInvalidTxnId → releasing !! t = None → held ≡ₚ elements (default ∅ (txn_locks_ lm !! t)) →
  rtc lm_step (lm, releasing) (ReleaseAll_in held t lm, releasing).
Proof.
  intros Ht Hn Hp. unfold ReleaseAll_in. destruct (txn_locks_ lm !! t) as [locks|] eqn:El; [|done].
  eapply rtc_l; [by eapply step_release|]. clear El Hp locks.
  induction held as [|rid held IH] in lm |- *; cbn [unlock_each].
  - apply rtc_once. change (mkLM _ _) with (forget_locks t lm).
    replace (forget_locks t lm, releasing) with (forget_locks t lm, delete t (<[t := []]> releasing))
      by (by rewrite delete_insert_id).
    apply step_release_end. by rewrite lookup_insert_eq.
  - eapply rtc_l; [eapply step_release_row; by rewrite lookup_insert_eq|]. rewrite insert_insert_eq. apply IH.
Qed.

(** ** Deadlock detection *)

Inductive Color := kWhite | kGray | kBlack.

#[export] Instance Color_eq_dec : EqDecision Color.
Proof. solve_decision. Defined.

(** The wait-for graph: its entries in iteration order, each with its
    neighbours in iteration order. *)
Abbreviation WaitForGraph := (list (Z * list Z)).

Record DFS := mkDFS {
  color : gmap Z Color;
  stack : list Z;        (* bottom of the stack first *)
  cycle_out : list Z
}.

Definition color_of (st : DFS) (n : Z) : Color := default kWhite (color st !! n).
Definition set_color (n : Z) (c : Color) (st : DFS) : DFS := mkDFS (<[n := c]> (color st)) (stack st) (cycle_out st).

(** [wait_for_graph.find(node)]. *)
Fixpoint neighbors (g : WaitForGraph) (n : Z) : list Z :=
  match g with
  | [] => []
  | (m, ns) :: g' => if m =? n then ns else neighbors g' n
  end.

(** The elements from the first occurrence of [n] on: [assign(find(...), end())]. *)
Fixpoint suffix_from (n : Z) (l : list Z) : list Z :=
  match l with
  | [] => []
  | m :: l' => if m =? n then l else suffix_from n l'
  end.

(** The loop over the neighbours, with [visit] for the recursive calls. *)
Fixpoint visit_loop (visit : Z → DFS → option (bool * DFS)) (ns : list Z) (st : DFS) : option (bool * DFS) :=
  match ns with
  | [] => Some (false, st)
  | n :: ns' =>
      match color_of st n with
      | kGray => Some (true, mkDFS (color st) (stack st) (suffix_from n (stack st)))
      | kWhite =>
          match visit n st with
          | None => None
          | Some (true, st) => Some (true, st)
          | Some (false, st) => visit_loop visit ns' st
          end
      | kBlack => visit_loop visit ns' st
      end
  end.

Fixpoint visit (fuel : nat) (g : WaitForGraph) (node : Z) (st : DFS) : option (bool * DFS) :=
  match fuel with
  | O => None
  | S fuel' =>
      let st := set_color node kGray st in
      let st := mkDFS (color st) (stack st ++ [node]) (cycle_out st) in
      match visit_loop (visit fuel' g) (neighbors g node) st with
      | None => None
      | Some (true, st) => Some (true, st)
      | Some (false, st) =>
          let st := mkDFS (color st) (removelast (stack st)) (cycle_out st) in
          Some (false, set_color node kBlack st)
      end
  end.

(** The outer loop over the entries of the graph. *)
Fixpoint detect_loop (fuel : nat) (g : WaitForGraph) (nodes : list Z) (st : DFS) : option (bool * DFS) :=
  match nodes with
  | [] => Some (false, st)
  | n :: nodes' =>
      match color_of st n with
      | kWhite =>
          match visit fuel g n st with
          | None => None
          | Some (true, st) => Some (true, st)
          | Some (false, st) => detect_loop fuel g nodes' st
          end
      | _ => detect_loop fuel g nodes' st
      end
  end.

Definition DetectDeadlock (fuel : nat) (g : WaitForGraph) : option (bool * list Z) :=
  match detect_loop fuel g g.*1 (mkDFS ∅ [] []) with
  | None => None
  | Some (b, st) => Some (b, cycle_out st)
  end.

(** *** Specification: edges, paths and cycles *)

Definition edge (g : WaitForGraph) (a b : Z) : Prop := b ∈ neighbors g a.

(** [l] is a path along edges. *)
Fixpoint is_path (g : WaitForGraph) (l : list Z) : Prop :=
  match l with
  | a :: ((b :: _) as l') => edge g a b ∧ is_path g l'
  | _ => True
  end.

(** A nonempty path whose last node waits for its first. *)
Definition is_cycle (g : WaitForGraph) (l : list Z) : Prop :=
  ∃ a z, head l = Some a ∧ last l = Some z ∧ is_path g l ∧ edge g z a.

(** Every node the search can reach. *)
Definition graph_nodes (g : WaitForGraph) : list Z := remove_dups (g.*1 ++ concat g.*2).

(** *** Lemmas *)

Lemma is_path_snoc g l z n :
  is_path g l → last l = Some z → edge g z n → is_path g (l ++ [n]).
Proof.
  induction l as [|a [|b l] IH]; [done|simpl; intros _ [= ->] ?; done|].
  intros [Hab Hp] Hl Hz. split; [done|]. by apply IH.
Qed.

Lemma is_path_suffix g n l :
  is_path g l → is_path g (suffix_from n l).
Proof.
  induction l as [|a l IH]; [done|]. intros Hp. cbn [suffix_from]. case_match; [done|].
  apply IH. destruct l; [done|]. by destruct Hp.
Qed.

Lemma suffix_from_in n l :
  n ∈ l → ∃ pre, l = pre ++ suffix_from n l ∧ head (suffix_from n l) = Some n ∧
                 last (suffix_from n l) = last l.
Proof.
  induction l as [|a l IH]; [by intros ?%elem_of_nil|]. intros Hn. cbn [suffix_from].
  destruct (Z.eqb_spec a n) as [->|Hne]; [by exists []|].
  apply elem_of_cons in Hn as [?|Hn]; [congruence|]. destruct (IH Hn) as (pre & E & Hh & Hl).
  exists (a :: pre). split_and!; [simpl; by rewrite <- E|done|]. rewrite Hl.
  destruct l; [by apply elem_of_nil in Hn|]. by rewrite last_cons_cons.
Qed.

Lemma edge_node g a b : edge g a b → b ∈ graph_nodes g.
Proof.
  unfold edge, graph_nodes. rewrite elem_of_remove_dups, elem_of_app. intros H. right.
  induction g as [|[m ns] g IH]; [by apply elem_of_nil in H|]. simpl in *. apply elem_of_app.
  destruct (m =? a); [by left|right]. by apply IH.
Qed.

Lemma edge_key g a b : edge g a b → a ∈ g.*1.
Proof.
  unfold edge. induction g as [|[m ns] g IH]; simpl; [by intros ?%elem_of_nil|].
  destruct (Z.eqb_spec m a) as [->|]; [intros; left|]. intros ?. right. auto.
Qed.

(** The nodes not yet visited. *)
Definition white (g : WaitForGraph) (st : DFS) : list Z :=
  filter (λ n, color_of st n = kWhite) (graph_nodes g).

(** The invariant of the search: the gray nodes are the stack, which is a path,
    and the finished nodes are listed in an order in which every node waits
    only for earlier ones. *)
Record dfs_inv (g : WaitForGraph) (st : DFS) : Prop := {
  dfs_gray : ∀ n, color_of st n = kGray ↔ n ∈ stack st;
  dfs_path : is_path g (stack st);
  dfs_black : ∃ order, (∀ n, n ∈ order ↔ color_of st n = kBlack) ∧
     ∀ pre n post, order = pre ++ n :: post → ∀ m, edge g n m → m ∈ pre
}.

Lemma filter_length_mono {A} (P Q : A → Prop) `{!∀ x, Decision (P x), !∀ x, Decision (Q x)} (l : list A) :
  (∀ x, P x → Q x) → (length (filter P l) ≤ length (filter Q l))%nat.
Proof.
  intros HPQ. induction l as [|x l IH]; [done|]. rewrite !filter_cons.
  destruct (decide (P x)), (decide (Q x)); simpl; [lia|naive_solver|lia|lia].
Qed.

Lemma filter_length_lt {A} (P Q : A → Prop) `{!∀ x, Decision (P x), !∀ x, Decision (Q x)} (l : list A) a :
  (∀ x, P x → Q x) → a ∈ l → Q a → ¬ P a → (length (filter P l) < length (filter Q l))%nat.
Proof.
  intros HPQ Ha HQ HP. induction l as [|x l IH]; [by apply elem_of_nil in Ha|].
  pose proof (filter_length_mono P Q l HPQ). rewrite !filter_cons.
  apply elem_of_cons in Ha as [->|Ha].
  - rewrite decide_False, decide_True by done. simpl. lia.
  - specialize (IH Ha).
    destruct (decide (P x)), (decide (Q x)); simpl; [lia|naive_solver|lia|lia].
Qed.

(** What one call of [visit], or the loop over neighbours, may do to the
    search when it finds no cycle. *)
Record dfs_le (g : WaitForGraph) (st st' : DFS) : Prop := {
  dle_inv : dfs_inv g st';
  dle_stack : stack st' = stack st;
  dle_black : ∀ n, color_of st n = kBlack → color_of st' n = kBlack;
  dle_white : ∀ n, color_of st' n = kWhite → color_of st n = kWhite
}.

Lemma dfs_le_trans g st1 st2 st3 : dfs_le g st1 st2 → dfs_le g st2 st3 → dfs_le g st1 st3.
Proof. intros [? ? ? ?] [? ? ? ?]. split; [done|congruence|auto|auto]. Qed.

Definition visit_ok (g : WaitForGraph) (fuel : nat) (v : Z → DFS → option (bool * DFS)) : Prop :=
  ∀ node st, dfs_inv g st → color_of st node = kWhite →
    (∀ z, last (stack st) = Some z → edge g z node) → node ∈ graph_nodes g →
    (length (white g st) ≤ fuel)%nat →
    ∃ b st', v node st = Some (b, st') ∧
      if (b : bool) then is_cycle g (cycle_out st') else dfs_le g st st' ∧ color_of st' node = kBlack.

Lemma visit_loop_spec g fuel v node ns st :
  visit_ok g fuel v → dfs_inv g st → last (stack st) = Some node → (∀ n, n ∈ ns → edge g node n) →
  (length (white g st) ≤ fuel)%nat →
  ∃ b st', visit_loop v ns st = Some (b, st') ∧
    if (b : bool) then is_cycle g (cycle_out st')
    else dfs_le g st st' ∧ ∀ n, n ∈ ns → color_of st' n = kBlack.
Proof.
  intros Hv. induction ns as [|n ns IH] in st |- *; intros Hinv Hlast Hns Hfuel; simpl.
  { exists false, st. split; [done|]. split; [by split|]. by intros ? ?%elem_of_nil. }
  assert (edge g node n) as Hedge by (apply Hns; left).
  (* the rest of the loop, from a state that extends [st] and has [n] finished *)
  assert (∀ st1, dfs_le g st st1 → color_of st1 n = kBlack →
    ∃ b st', visit_loop v ns st1 = Some (b, st') ∧
      if (b : bool) then is_cycle g (cycle_out st')
      else dfs_le g st st' ∧ ∀ m, m ∈ n :: ns → color_of st' m = kBlack) as Hrest.
  { intros st1 Hle Hn. pose proof Hle as [Hinv1 Hst1 Hb1 Hw1].
    destruct (IH st1) as (b & st' & E & Hr); [done|by rewrite Hst1| | |].
    - intros m ?. apply Hns. by right.
    - etransitivity; [|exact Hfuel]. apply filter_length_mono. auto.
    - exists b, st'. split; [done|]. destruct b; [done|]. destruct Hr as [Hle' Hall].
      split; [by eapply dfs_le_trans|]. intros m [->|?]%elem_of_cons; [|auto].
      by apply (dle_black _ _ _ Hle'). }
  destruct (color_of st n) eqn:Hc.
  - destruct (Hv n st Hinv Hc) as (b & st1 & E & Hr); [|by eapply edge_node|done|].
    { intros z Hz. rewrite Hlast in Hz. by simplify_eq. }
    rewrite E. destruct b; [by exists true, st1|]. destruct Hr as [Hle Hn]. by apply Hrest.
  - exists true. eexists. split; [done|]. simpl.
    apply (dfs_gray _ _ Hinv) in Hc. destruct (suffix_from_in n _ Hc) as (pre & _ & Hh & Hl).
    exists n, node. split_and!; [done|by rewrite Hl|apply is_path_suffix, Hinv|done].
  - apply Hrest; [by split|done].
Qed.

(** Pushing a node keeps the invariant. *)
Lemma dfs_push g node st :
  dfs_inv g st → color_of st node = kWhite → (∀ z, last (stack st) = Some z → edge g z node) →
  let st1 := mkDFS (<[node := kGray]> (color st)) (stack st ++ [node]) (cycle_out st) in
  dfs_inv g st1 ∧ (∀ n, color_of st1 n = if decide (n = node) then kGray else color_of st n).
Proof.
  intros [Hg Hp (order & Ho & Hord)] Hw Hz st1.
  assert (∀ n, color_of st1 n = if decide (n = node) then kGray else color_of st n) as Hcol.
  { intros n. unfold color_of. simpl. case_decide as E; [by subst; rewrite lookup_insert_eq|].
    by rewrite lookup_insert_ne. }
  split; [|done]. split.
  - intros n. rewrite Hcol. cbn [stack st1]. rewrite elem_of_app, list_elem_of_singleton.
    case_decide; [naive_solver|]. rewrite Hg. naive_solver.
  - simpl. destruct (last (stack st)) as [z|] eqn:El.
    + eapply is_path_snoc; eauto.
    + apply last_None in El. by rewrite El.
  - exists order. split; [|done]. intros n. rewrite Hcol, Ho. case_decide as E; [|done].
    subst. rewrite Hw. done.
Qed.

(** Finishing the node on top of the stack, whose neighbours are finished. *)
Lemma dfs_pop g node s st :
  dfs_inv g st → stack st = s ++ [node] → is_path g s → node ∉ s →
  (∀ m, edge g node m → color_of st m = kBlack) →
  let st' := mkDFS (<[node := kBlack]> (color st)) s (cycle_out st) in
  dfs_inv g st' ∧ (∀ n, color_of st' n = if decide (n = node) then kBlack else color_of st n).
Proof.
  intros [Hg Hp (order & Ho & Hord)] Hs Hps Hns Hnb st'.
  assert (∀ n, color_of st' n = if decide (n = node) then kBlack else color_of st n) as Hcol.
  { intros n. unfold color_of. simpl. case_decide as E; [by subst; rewrite lookup_insert_eq|].
    by rewrite lookup_insert_ne. }
  split; [|done]. split; [|done|].
  - intros n. rewrite Hcol. simpl. case_decide as E; [subst; naive_solver|].
    rewrite Hg, Hs, elem_of_app, list_elem_of_singleton. naive_solver.
  - exists (order ++ [node]). split.
    + intros n. rewrite Hcol, elem_of_app, list_elem_of_singleton, Ho. case_decide; naive_solver.
    + intros pre n post E m Hm. destruct (decide (post = [])) as [->|Hpost].
      * apply app_inj_tail in E as [<- <-]. apply Ho, Hnb, Hm.
      * destruct (exists_last Hpost) as (post' & x & ->).
        rewrite app_comm_cons, app_assoc in E. apply app_inj_tail in E as [E _].
        by eapply Hord.
Qed.

Lemma visit_spec fuel g : visit_ok g fuel (visit fuel g).
Proof.
  induction fuel as [|fuel IH]; intros node st Hinv Hw Hz Hn Hfuel.
  { exfalso. assert (node ∈ white g st) as Hin by (by apply list_elem_of_filter).
    destruct (white g st); [by apply elem_of_nil in Hin|simpl in Hfuel; lia]. }
  destruct (dfs_push g node st Hinv Hw Hz) as [Hinv1 Hcol1].
  cbn [visit]. unfold set_color. cbn [color stack cycle_out].
  set (st1 := mkDFS _ (stack st ++ [node]) _) in *.
  destruct (visit_loop_spec g fuel (visit fuel g) node (neighbors g node) st1 IH Hinv1) as
    (b & st2 & -> & Hr).
  { simpl. by rewrite last_snoc. }
  { done. }
  { assert (length (white g st1) < length (white g st))%nat; [|lia].
    apply (filter_length_lt _ _ _ node); [|done|done|].
    - intros x. rewrite Hcol1. by case_decide.
    - by rewrite Hcol1, decide_True. }
  destruct b; [by exists true, st2|]. destruct Hr as [[Hinv2 Hst2 Hb2 Hw2] Hall].
  assert (node ∉ stack st) as Hns.
  { intros Hin%(dfs_gray _ _ Hinv). congruence. }
  rewrite Hst2. simpl. rewrite removelast_last.
  destruct (dfs_pop g node (stack st) st2 Hinv2 Hst2 (dfs_path _ _ Hinv) Hns Hall) as [Hinv3 Hcol3].
  eexists false, _. split; [reflexivity|]. split; [|by rewrite Hcol3, decide_True].
  split; [done|done| |].
  - intros n Hbl. rewrite Hcol3. case_decide; [done|]. apply Hb2. by rewrite Hcol1, decide_False.
  - intros n. rewrite Hcol3. case_decide; [done|]. intros Hwn%Hw2. rewrite Hcol1 in Hwn.
    by case_decide.
Qed.

Lemma detect_loop_spec g fuel nodes st :
  dfs_inv g st → stack st = [] → (∀ n, n ∈ nodes → n ∈ graph_nodes g) →
  (length (graph_nodes g) ≤ fuel)%nat →
  ∃ b st', detect_loop fuel g nodes st = Some (b, st') ∧
    if (b : bool) then is_cycle g (cycle_out st')
    else dfs_le g st st' ∧ ∀ n, n ∈ nodes → color_of st' n = kBlack.
Proof.
  induction nodes as [|n nodes IH] in st |- *; intros Hinv Hst Hn Hfuel; simpl.
  { exists false, st. split; [done|]. split; [by split|]. by intros ? ?%elem_of_nil. }
  assert (∀ st1, dfs_le g st st1 → color_of st1 n = kBlack →
    ∃ b st', detect_loop fuel g nodes st1 = Some (b, st') ∧
      if (b : bool) then is_cycle g (cycle_out st')
      else dfs_le g st st' ∧ ∀ m, m ∈ n :: nodes → color_of st' m = kBlack) as Hrest.
  { intros st1 Hle Hbl. destruct (IH st1) as (b & st' & E & Hr);
      [apply Hle|by rewrite (dle_stack _ _ _ Hle)|intros; apply Hn; by right|done|].
    exists b, st'. split; [done|]. destruct b; [done|]. destruct Hr as [Hle' Hall].
    split; [by eapply dfs_le_trans|]. intros m [->|?]%elem_of_cons; [|auto].
    by apply (dle_black _ _ _ Hle'). }
  destruct (color_of st n) eqn:Hc.
  - destruct (visit_spec fuel g n st Hinv Hc) as (b & st1 & E & Hr).
    { rewrite Hst. done. } { apply Hn. left. }
    { etransitivity; [apply length_filter|done]. }
    rewrite E. destruct b; [by exists true, st1|]. destruct Hr as [Hle Hbl]. by apply Hrest.
  - exfalso. apply (dfs_gray _ _ Hinv) in Hc. rewrite Hst in Hc. by apply elem_of_nil in Hc.
  - apply Hrest; [by split|done].
Qed.

(** Every node of a cycle waits for a node of the cycle. *)
Lemma cycle_successor g l n : is_cycle g l → n ∈ l → ∃ m, m ∈ l ∧ edge g n m.
Proof.
  intros (a & z & Hh & Hl & Hp & Hz).
  assert (a ∈ l) as Ha by (by destruct l; simplify_eq/=; left).
  assert (∀ l', is_path g l' → last l' = Some z → n ∈ l' → n = z ∨ ∃ m, m ∈ l' ∧ edge g n m) as Hpath.
  { induction l' as [|b [|c l'] IH]; [by intros _ _ ?%elem_of_nil| |].
    - intros _ [= ->] ->%list_elem_of_singleton. by left.
    - intros [Hbc Hp'] Hl' [->|Hn]%elem_of_cons; [right; exists c; split; [right; left|done]|].
      destruct (IH Hp' Hl' Hn) as [?|(m & ? & ?)]; [by left|right]. exists m. split; [by right|done]. }
  intros Hn. destruct (Hpath l Hp Hl Hn) as [->|?]; [|done]. eauto.
Qed.

(** An order in which every node waits only for earlier ones rules cycles out. *)
Lemma ordered_no_cycle g order l :
  (∀ pre n post, order = pre ++ n :: post → ∀ m, edge g n m → m ∈ pre) →
  is_cycle g l → (∀ n, n ∈ l → n ∈ order) → False.
Proof.
  intros Hord Hcyc Hall.
  assert (∀ pre post, order = pre ++ post → ∀ n, n ∈ pre → n ∉ l) as Hpre.
  { induction pre as [|x pre IH] using rev_ind; intros post E n Hn; [by apply elem_of_nil in Hn|].
    rewrite <- app_assoc in E. apply elem_of_app in Hn as [Hn| ->%list_elem_of_singleton].
    - by eapply (IH (x :: post)).
    - intros Hx. destruct (cycle_successor g l x Hcyc Hx) as (m & Hm & He).
      apply (IH (x :: post) E m); [|done]. by eapply Hord. }
  pose proof Hcyc as (a & z & Hh & _). assert (a ∈ l) as Ha by (by destruct l; simplify_eq/=; left).
  apply (Hpre order [] ltac:(by rewrite app_nil_r) a); auto.
Qed.

Lemma dfs_start g : dfs_inv g (mkDFS ∅ [] []).
Proof.
  assert (∀ n, color_of (mkDFS ∅ [] []) n = kWhite) as Hw.
  { intros n. unfold color_of. simpl. by rewrite lookup_empty. }
  split; simpl; [intros n; rewrite Hw; set_solver|done|]. exists []. split.
  - intros n. rewrite Hw. set_solver.
  - intros pre n post E. by destruct pre.
Qed.

(** ** Properties *)

(** C28: in every state the lock manager reaches, whatever order the critical
    sections of the transactions come in (those of [ReleaseAll], which gives up
    the mutex between unlocks, included), an exclusive lock on a row
    excludes every lock of another transaction on it, and the list kept per
    transaction is exactly what it holds.  A shared lock is granted exactly
    when no other transaction holds the row exclusively, an exclusive one
    exactly when no other transaction holds it at all; a refused request
    changes nothing, a granted one adds that lock and no other; [Unlock]
    succeeds exactly on a held row and takes away that row's locks only. *)
Theorem lock_manager_safe lm t rid :
  lm_reachable lm → t ≠ kInvalidTxnId →
  (∀ r t1 t2, holds_exclusive lm t1 r → holds lm t2 r → t2 = t1) ∧
  (∀ t' r, r ∈ default ∅ (txn_locks_ lm !! t') ↔ holds lm t' r) ∧
  (let '(st, lm') := LockShared t rid lm in
   (st = Status_OK ↔ ∀ t', holds_exclusive lm t' rid → t' = t) ∧
   (st ≠ Status_OK → lm' = lm) ∧
   (st = Status_OK → ∀ t' r, holds lm' t' r ↔ holds lm t' r ∨ (t' = t ∧ r = rid))) ∧
  (let '(st, lm') := LockExclusive t rid lm in
   (st = Status_OK ↔ ∀ t', holds lm t' rid → t' = t) ∧
   (st ≠ Status_OK → lm' = lm) ∧
   (st = Status_OK → holds_exclusive lm' t rid ∧
      ∀ t' r, holds lm' t' r ↔ holds lm t' r ∨ (t' = t ∧ r = rid))) ∧
  (let '(st, lm') := Unlock t rid lm in
   (st = Status_OK ↔ holds lm t rid) ∧
   ∀ t' r, holds lm' t' r ↔ holds lm t' r ∧ ¬ (t' = t ∧ r = rid)).
Proof.
  intros Hreach Ht. pose proof (lm_reachable_inv _ Hreach) as Hinv. split; [|split; [|split; [|split]]].
  - intros r t1 t2 H1 H2. by eapply (linv_compat _ Hinv).
  - apply Hinv.
  - destruct (LockShared_spec t rid lm Hinv Ht) as [(t' & Hne & Hx & ->)|(Ho & lm' & -> & _ & _ & Hh & _)].
    + split_and!; try done. split; [done|]. intros Hall. by destruct (Hne (Hall t' Hx)).
    + split_and!; done.
  - destruct (LockExclusive_spec t rid lm Hinv Ht) as
      [(t' & msg & Hne & Hx & ->)|(Ho & lm' & -> & _ & Hx & Hh)].
    + split_and!; try done. split; [done|]. intros Hall. by destruct (Hne (Hall t' Hx)).
    + split_and!; done.
  - pose proof (Unlock_spec t rid lm Hinv Ht) as (_ & Hok & Hh). by destruct (Unlock t rid lm).
Qed.

(** Transactions 1 and 2 share row (1,0); 3 holds row (1,1) exclusively. *)
Definition sample_locks : LockManager :=
  (LockExclusive 3 (mkRid 1 1) (LockShared 2 (mkRid 1 0) (LockShared 1 (mkRid 1 0) LockManager_new).2).2).2.

Lemma sample_locks_reaches : lm_reaches (sample_locks, ∅).
Proof.
  unfold sample_locks, lm_reaches.
  eapply rtc_l; [by apply (step_shared 1 (mkRid 1 0))|].
  eapply rtc_l; [by apply (step_shared 2 (mkRid 1 0))|].
  apply rtc_once. by apply step_exclusive.
Qed.

Lemma sample_locks_reachable : lm_reachable sample_locks.
Proof. exists ∅. apply sample_locks_reaches. Qed.

Lemma lock_manager_safe_witness :
  (LockExclusive 1 (mkRid 1 0) sample_locks).1 ≠ Status_OK.
Proof.
  pose proof (lock_manager_safe sample_locks 1 (mkRid 1 0) sample_locks_reachable) as (_ & _ & _ & H & _);
    [done|].
  destruct (LockExclusive 1 (mkRid 1 0) sample_locks) as [st lm']. destruct H as [H _]. simpl.
  intros E. assert (2 = 1) as Hc; [|done]. apply H; [done|]. left. unfold holds_shared.
  refine (proj1 (bool_decide_eq_true _) _). vm_compute. reflexivity.
Defined.

(** [ReleaseAll], in whatever order it unlocks the rows, leaves the
    transaction with no lock and every other transaction with all of its own. *)
Theorem lock_release_all lm releasing t held :
  lm_reaches (lm, releasing) → t ≠ kInvalidTxnId → releasing !! t = None →
  held ≡ₚ elements (default ∅ (txn_locks_ lm !! t)) →
  (∀ t' rid, holds (ReleaseAll_in held t lm) t' rid ↔ holds lm t' rid ∧ t' ≠ t) ∧
  lm_reaches (ReleaseAll_in held t lm, releasing).
Proof.
  intros Hreach Ht Hn Hp. split.
  - apply ReleaseAll_spec; [|done..]. apply lm_reachable_inv. by exists releasing.
  - unfold lm_reaches in *. etrans; [exact Hreach|]. by apply release_all_steps.
Qed.

Lemma lock_release_all_witness :
  ¬ holds (ReleaseAll 1 sample_locks) 1 (mkRid 1 0).
Proof.
  intros Hh. unfold ReleaseAll in Hh.
  apply (lock_release_all sample_locks ∅ 1 _ sample_locks_reaches) in Hh as [_ ?]; done.
Defined.

(** C27: deadlock detection always returns, for every order in which the graph
    is traversed; it answers true exactly when the wait-for graph has a cycle,
    and the list it then reports is such a cycle.  Fuel equal to the number of
    nodes is enough. *)
Theorem deadlock_detection_correct g extra :
  ∃ b cycle, DetectDeadlock (length (graph_nodes g) + extra) g = Some (b, cycle) ∧
    (b = true ↔ ∃ l, is_cycle g l) ∧ (b = true → is_cycle g cycle).
Proof.
  destruct (detect_loop_spec g (length (graph_nodes g) + extra) g.*1 (mkDFS ∅ [] []) (dfs_start g))
    as (b & st & E & Hr); [done| |lia|].
  { intros n ?. unfold graph_nodes. apply elem_of_remove_dups, elem_of_app. by left. }
  exists b, (cycle_out st). unfold DetectDeadlock. rewrite E. split; [done|]. destruct b.
  - split; [|done]. split; [|done]. eauto.
  - split; [|done]. split; [done|]. intros [l Hc]. exfalso. destruct Hr as [[Hinv _ _ _] Hall].
    destruct (dfs_black _ _ Hinv) as (order & Ho & Hord). eapply ordered_no_cycle; eauto.
    intros n Hn. apply Ho, Hall. destruct (cycle_successor g l n Hc Hn) as (m & _ & He).
    by eapply edge_key.
Qed.
