(* ===== verification/Wal.v ===== *)
(** * The write-ahead log: src/recovery/wal_record.hpp, wal_manager.hpp, wal_manager.cpp

    The log file is a byte string to which records are appended; the stream
    is flushed after each one.  A record is a length, 21 bytes of fixed fields
    and, for an update, the two page images. *)

From S2P Require Import Prelude Util Transaction.
From coqutil Require Word.LittleEndianList.

Import LittleEndianList.

Definition kInvalidLsn : Z := 0.

(** [WALRecordType], a byte: the values the enumeration names, or another. *)
Inductive WALRecordType := kUpdate | kCommit | kAbort | kCheckpoint | kOtherType (code : Z).

#[export] Instance WALRecordType_eq_dec : EqDecision WALRecordType.
Proof. solve_decision. Defined.

Definition type_code (t : WALRecordType) : Z :=
  match t with kUpdate => 1 | kCommit => 2 | kAbort => 3 | kCheckpoint => 4 | kOtherType c => c end.
Definition type_of_code (c : Z) : WALRecordType :=
  if c =? 1 then kUpdate else if c =? 2 then kCommit else if c =? 3 then kAbort
  else if c =? 4 then kCheckpoint else kOtherType c.

Record WALRecord := mkWAL {
  lsn : Z;
  wal_type : WALRecordType;
  wal_txn_id : Z;
  wal_page_id : Z;
  before_image : bytes;
  after_image : bytes
}.

Record WALManager := mkWM {
  wal_file : bytes;
  next_lsn_ : Z
}.

(** ** Operations *)

Definition kFixedSize : Z := 8 + 1 + 8 + 4.

(** The bytes of a record after its length field. *)
Definition record_body (r : WALRecord) : bytes :=
  let fixed := replicate (Z.to_nat kFixedSize) zero_byte in
  let fixed := WriteFixed 8 fixed 0 (lsn r) in
  let fixed := mem_write fixed 8 [byte_of_Z (type_code (wal_type r))] in
  let fixed := WriteFixed 8 fixed 9 (wal_txn_id r) in
  let fixed := WriteFixed 4 fixed 17 (wal_page_id r) in
  if bool_decide (wal_type r = kUpdate) then fixed ++ before_image r ++ after_image r else fixed.

Definition AppendRecord (record : WALRecord) (w : WALManager) : Z * WALManager :=
  let r := mkWAL (next_lsn_ w) (wal_type record) (wal_txn_id record) (wal_page_id record)
             (before_image record) (after_image record) in
  let buf := record_body r in
  let len_buf := WriteFixed 4 (replicate 4 zero_byte) 0 (u32 (blen buf)) in
  (lsn r, mkWM (wal_file w ++ len_buf ++ buf) (u64 (next_lsn_ w + 1))).

Definition update_record (t p : Z) (before after : Page) : WALRecord := mkWAL 0 kUpdate t p before after.
Definition mark_record (k : WALRecordType) (t : Z) : WALRecord := mkWAL 0 k t kInvalidPageId [] [].

Definition AppendUpdate (t p : Z) (before after : Page) := AppendRecord (update_record t p before after).
Definition AppendCommit (t : Z) := AppendRecord (mark_record kCommit t).
Definition AppendAbort (t : Z) := AppendRecord (mark_record kAbort t).
Definition AppendCheckpoint := AppendRecord (mark_record kCheckpoint kInvalidTxnId).

(** The fields of a complete record; a buffer shorter than the fixed fields is
    read past its end, which is undefined ([None]). *)
Definition parse_body (buf : bytes) : option (Result WALRecord) :=
  if blen buf <? kFixedSize then None
  else
    let l := ReadFixedU 8 buf 0 in
    let ty := type_of_code (Z_of_byte (default zero_byte (buf !! 8%nat))) in
    let t := ReadFixedU 8 buf 9 in
    let p := ReadFixedS 4 buf 17 in
    if bool_decide (ty = kUpdate) then
      if blen buf <? kFixedSize + 2 * kPageSize then
        Some (Err (Corruption "WAL: truncated update record images"))
      else
        Some (Ok (mkWAL l ty t p (mem_read buf kFixedSize kPageSize)
                    (mem_read buf (kFixedSize + kPageSize) kPageSize)))
    else Some (Ok (mkWAL l ty t p [] [])).

(** The loop of [ReadAll] on the unread bytes [rest]. *)
Fixpoint read_records (fuel : nat) (rest : bytes) (records : list WALRecord) :
    option (Result (list WALRecord)) :=
  match fuel with
  | O => None
  | S fuel' =>
      if blen rest <? 4 then Some (Ok records)
      else
        let len := ReadFixedU 4 rest 0 in
        let rest := drop 4 rest in
        if blen rest <? len then
          Some (Err (Corruption "WAL: truncated record (possible mid-write crash)"))
        else
          match parse_body (mem_read rest 0 len) with
          | None => None
          | Some (Err e) => Some (Err e)
          | Some (Ok r) => read_records fuel' (drop (Z.to_nat len) rest) (records ++ [r])
          end
  end.

(** Every iteration takes at least the four bytes of a length. *)
Definition ReadAll (w : WALManager) : option (Result (list WALRecord)) :=
  read_records (S (length (wal_file w))) (wal_file w) [].

(** The constructor, on the bytes found in the file (none for a new one). *)
Definition WALManager_open (file : bytes) : option WALManager :=
  match ReadAll (mkWM file 1) with
  | None => None
  | Some (Err _) => Some (mkWM file 1)
  | Some (Ok existing) =>
      Some (mkWM file (match last existing with Some r => u64 (lsn r + 1) | None => 1 end))
  end.

(** ** The log as a list of records *)

Definition encode_record (r : WALRecord) : bytes :=
  le_split 4 (blen (record_body r)) ++ record_body r.

Definition type_wf (t : WALRecordType) : Prop :=
  match t with kOtherType _ => False | _ => True end.

Record rec_wf (r : WALRecord) : Prop := {
  rwf_lsn : in_u64 (lsn r);
  rwf_type : type_wf (wal_type r);
  rwf_txn : in_u64 (wal_txn_id r);
  rwf_page : in_i32 (wal_page_id r);
  rwf_images : if bool_decide (wal_type r = kUpdate) then page_wf (before_image r) ∧ page_wf (after_image r)
               else before_image r = [] ∧ after_image r = []
}.

(** The file holds the records [rs], numbered from 1. *)
Record wal_rep (w : WALManager) (rs : list WALRecord) : Prop := {
  rep_file : wal_file w = concat (encode_record <$> rs);
  rep_next : next_lsn_ w = Z.of_nat (length rs) + 1;
  rep_lsn : ∀ i r, rs !! i = Some r → lsn r = Z.of_nat i + 1;
  rep_wf : Forall rec_wf rs
}.

(** ** Lemmas: one record *)

Lemma record_body_split r :
  record_body r =
  le_split 8 (lsn r) ++ [byte_of_Z (type_code (wal_type r))] ++ le_split 8 (wal_txn_id r) ++
  le_split 4 (wal_page_id r) ++
  (if bool_decide (wal_type r = kUpdate) then before_image r ++ after_image r else []).
Proof.
  unfold record_body, kFixedSize.
  change (replicate (Z.to_nat (8 + 1 + 8 + 4)) zero_byte) with ([] ++ replicate 21 zero_byte).
  rewrite (WriteFixed_append 8 [] 21 (lsn r) 0) by (done || lia). cbn [app Nat.sub].
  assert (mem_write (le_split 8 (lsn r) ++ replicate 13 zero_byte) 8
            [byte_of_Z (type_code (wal_type r))] =
          (le_split 8 (lsn r) ++ [byte_of_Z (type_code (wal_type r))]) ++ replicate 12 zero_byte) as ->.
  { unfold mem_write. change (Z.to_nat 8) with 8%nat.
    rewrite take_app_length' by (by rewrite length_le_split). rewrite <- app_assoc. by do 2 f_equal. }
  rewrite (WriteFixed_append 8 _ 12 (wal_txn_id r) 9)
    by (rewrite ?blen_app, ?blen_le_split; done || lia).
  rewrite (WriteFixed_append 4 _ 4 (wal_page_id r) 17)
    by (rewrite ?blen_app, ?blen_le_split; done || lia).
  cbn [Nat.sub replicate]. rewrite app_nil_r, <- !app_assoc.
  by case_bool_decide; rewrite ?app_nil_r, <- ?app_assoc.
Qed.

Lemma type_of_code_code t : type_wf t → type_of_code (Z_of_byte (byte_of_Z (type_code t))) = t.
Proof. destruct t; [by vm_compute..|done]. Qed.

(** The length of a record, and its fields at their offsets. *)
Lemma blen_record_body r :
  rec_wf r → blen (record_body r) = if bool_decide (wal_type r = kUpdate) then kFixedSize + 2 * kPageSize
                                   else kFixedSize.
Proof.
  intros Hwf. rewrite record_body_split, !blen_app, !blen_le_split. pose proof (rwf_images _ Hwf) as Hi.
  case_bool_decide; [|done]. destruct Hi as [Hb Ha]. rewrite blen_app, Hb, Ha.
  change (blen [_]) with 1. unfold kFixedSize. lia.
Qed.

Lemma parse_record_body r : rec_wf r → parse_body (record_body r) = Some (Ok r).
Proof.
  intros Hwf. unfold parse_body. rewrite blen_record_body by done.
  assert (0 < kPageSize) as Hps by done.
  destruct (Z.ltb_spec (if bool_decide (wal_type r = kUpdate) then kFixedSize + 2 * kPageSize
              else kFixedSize) kFixedSize) as [Hlt|_].
  { exfalso. case_bool_decide; lia. }
  set (L := le_split 8 (lsn r)). set (T := [byte_of_Z (type_code (wal_type r))]).
  set (X := le_split 8 (wal_txn_id r)). set (P := le_split 4 (wal_page_id r)).
  set (I := if bool_decide (wal_type r = kUpdate) then before_image r ++ after_image r else []).
  assert (record_body r = L ++ T ++ X ++ P ++ I) as E by apply record_body_split.
  assert (ReadFixedU 8 (record_body r) 0 = lsn r) as ->.
  { rewrite E. apply (ReadFixedU_app 8 (lsn r) []). apply Hwf. }
  assert (record_body r !! 8%nat = Some (byte_of_Z (type_code (wal_type r)))) as ->.
  { rewrite E, lookup_app_r by (unfold L; rewrite length_le_split; lia).
    unfold L. rewrite length_le_split. done. }
  cbn [default from_option id]. rewrite type_of_code_code by apply Hwf.
  assert (ReadFixedU 8 (record_body r) 9 = wal_txn_id r) as ->.
  { rewrite E, app_assoc.
    assert (blen (L ++ T) = 9) as <- by (unfold L; rewrite blen_app, blen_le_split; done).
    apply ReadFixedU_app. apply Hwf. }
  assert (ReadFixedS 4 (record_body r) 17 = wal_page_id r) as ->.
  { rewrite E, !app_assoc, <- (app_assoc _ P).
    assert (blen ((L ++ T) ++ X) = 17) as <- by (unfold L, X; rewrite !blen_app, !blen_le_split; done).
    apply ReadFixedS_app; [lia|]. apply Hwf. }
  pose proof (rwf_images _ Hwf) as Hi. case_bool_decide as Hu.
  - rewrite Z.ltb_irrefl. destruct Hi as [Hb Ha].
    assert (blen (L ++ T ++ X ++ P) = kFixedSize) as Hl
      by (unfold L, X, P; rewrite !blen_app, !blen_le_split; done).
    assert (record_body r = (L ++ T ++ X ++ P) ++ before_image r ++ after_image r) as E'.
    { rewrite E, <- !app_assoc. done. }
    assert (mem_read (record_body r) kFixedSize kPageSize = before_image r) as ->.
    { rewrite E', mem_read_app_r, Hl, Z.sub_diag by lia.
      rewrite mem_read_app_l by (unfold page_wf in Hb; blia). by apply mem_read_full. }
    assert (mem_read (record_body r) (kFixedSize + kPageSize) kPageSize = after_image r) as ->.
    { rewrite E', mem_read_app_r, Hl by lia.
      rewrite mem_read_app_r by (unfold page_wf in Hb; lia).
      replace (kFixedSize + kPageSize - kFixedSize - blen (before_image r)) with 0
        by (unfold page_wf in Hb; lia). by apply mem_read_full. }
    by destruct r.
  - destruct r. simpl in Hi. destruct Hi as [-> ->]. done.
Qed.

Lemma body_range r : rec_wf r → kFixedSize ≤ blen (record_body r) < 2 ^ 32.
Proof.
  intros Hwf. rewrite blen_record_body by done. unfold kFixedSize, kPageSize. case_bool_decide; lia.
Qed.

Lemma blen_encode_record r : blen (encode_record r) = 4 + blen (record_body r).
Proof. unfold encode_record. by rewrite blen_app, blen_le_split. Qed.

Lemma AppendRecord_file record w :
  let r := mkWAL (next_lsn_ w) (wal_type record) (wal_txn_id record) (wal_page_id record)
             (before_image record) (after_image record) in
  rec_wf r →
  AppendRecord record w = (lsn r, mkWM (wal_file w ++ encode_record r) (u64 (next_lsn_ w + 1))).
Proof.
  intros r Hwf. unfold AppendRecord. fold r. unfold encode_record. do 3 f_equal.
  rewrite u32_small by (pose proof (body_range r Hwf); unfold kFixedSize in *; blia).
  pose proof (WriteFixed_append 4 [] 4 (blen (record_body r)) 0 eq_refl (le_n 4)) as E.
  cbn [app Nat.sub] in E. rewrite E. by rewrite app_nil_r.
Qed.

(** ** Lemmas: the whole file *)

(** One complete record at the front of the unread bytes. *)
Lemma read_records_step fuel r rest acc :
  rec_wf r →
  read_records (S fuel) (encode_record r ++ rest) acc = read_records fuel rest (acc ++ [r]).
Proof.
  intros Hwf. pose proof (body_range r Hwf) as Hr. cbn [read_records].
  rewrite blen_app, blen_encode_record. unfold kFixedSize in Hr.
  destruct (Z.ltb_spec (4 + blen (record_body r) + blen rest) 4); [blia|].
  assert (ReadFixedU 4 (encode_record r ++ rest) 0 = blen (record_body r)) as ->.
  { unfold encode_record. rewrite <- app_assoc. apply (ReadFixedU_app 4 _ []). split; [lia|].
    change (2 ^ (8 * Z.of_nat 4)) with (2 ^ 32). lia. }
  assert (drop 4 (encode_record r ++ rest) = record_body r ++ rest) as ->.
  { unfold encode_record. rewrite <- app_assoc. apply drop_app_length'. by rewrite length_le_split. }
  rewrite blen_app. destruct (Z.ltb_spec (blen (record_body r) + blen rest) (blen (record_body r))); [blia|].
  rewrite mem_read_app_l by blia. rewrite mem_read_full by done.
  rewrite parse_record_body by done. f_equal.
  apply drop_app_length'. blia.
Qed.

Lemma read_records_all fuel rs rest acc :
  Forall rec_wf rs →
  read_records (length rs + fuel) (concat (encode_record <$> rs) ++ rest) acc =
  read_records fuel rest (acc ++ rs).
Proof.
  induction rs as [|r rs IH] in acc |- *; intros Hwf; [by rewrite app_nil_r|].
  apply Forall_cons in Hwf as [Hr Hwf]. rewrite fmap_cons. cbn [length concat Nat.add].
  rewrite <- app_assoc, read_records_step by done.
  rewrite IH by done. by rewrite <- app_assoc.
Qed.

(** Fewer than four bytes left: the file ends. *)
Lemma read_records_end fuel rest acc : blen rest < 4 → read_records (S fuel) rest acc = Some (Ok acc).
Proof. intros ?. cbn [read_records]. destruct (Z.ltb_spec (blen rest) 4); [done|lia]. Qed.

Lemma length_records rs : Forall rec_wf rs → (length rs ≤ length (concat (encode_record <$> rs)))%nat.
Proof.
  induction rs as [|r rs IH]; [done|]. intros [Hr Hwf]%Forall_cons. rewrite fmap_cons. cbn [concat length].
  rewrite length_app. specialize (IH Hwf). pose proof (blen_encode_record r).
  pose proof (body_range r Hr). unfold kFixedSize, blen in *. lia.
Qed.

(** A log with an incomplete tail shorter than a length field. *)
Lemma ReadAll_tail rs tail n :
  Forall rec_wf rs → blen tail < 4 →
  ReadAll (mkWM (concat (encode_record <$> rs) ++ tail) n) = Some (Ok rs).
Proof.
  intros Hwf Ht. unfold ReadAll. cbn [wal_file]. set (f := concat _).
  pose proof (length_records rs Hwf) as Hl. fold f in Hl.
  replace (S (length (f ++ tail))) with (length rs + S (length (f ++ tail) - length rs))%nat
    by (rewrite length_app; lia).
  unfold f at 2. rewrite read_records_all by done. by apply read_records_end.
Qed.

Lemma wal_rep_ReadAll w rs : wal_rep w rs → ReadAll w = Some (Ok rs).
Proof.
  intros [Hf _ _ Hwf]. pose proof (ReadAll_tail rs [] (next_lsn_ w) Hwf ltac:(done)) as H.
  rewrite app_nil_r, <- Hf in H. by destruct w.
Qed.

(** A cut inside a record, after its length field. *)
Lemma ReadAll_torn rs r k n :
  Forall rec_wf rs → rec_wf r → (4 ≤ k < length (encode_record r))%nat →
  ReadAll (mkWM (concat (encode_record <$> rs) ++ take k (encode_record r)) n) =
  Some (Err (Corruption "WAL: truncated record (possible mid-write crash)")).
Proof.
  intros Hwf Hr Hk. unfold ReadAll. cbn [wal_file]. set (f := concat _).
  pose proof (length_records rs Hwf) as Hl. fold f in Hl. set (tail := take k _).
  replace (S (length (f ++ tail))) with (length rs + S (length (f ++ tail) - length rs))%nat
    by (rewrite length_app; lia).
  unfold f at 2. rewrite read_records_all by done. cbn [read_records].
  pose proof (body_range r Hr) as Hb. unfold kFixedSize in Hb.
  assert (blen tail = Z.of_nat k) as Ht by (unfold tail, blen; rewrite length_take; lia).
  rewrite Ht. destruct (Z.ltb_spec (Z.of_nat k) 4); [lia|].
  assert (ReadFixedU 4 tail 0 = blen (record_body r)) as ->.
  { assert (tail = [] ++ le_split 4 (blen (record_body r)) ++ take (k - 4) (record_body r)) as ->.
    { unfold tail, encode_record. rewrite take_app, length_le_split, take_ge; [done|].
      rewrite length_le_split. lia. }
    apply (ReadFixedU_app 4 _ []). change (2 ^ (8 * Z.of_nat 4)) with (2 ^ 32). lia. }
  assert (blen (drop 4 tail) = Z.of_nat k - 4) as -> by (unfold blen in *; rewrite length_drop; lia).
  pose proof (blen_encode_record r) as He. unfold blen in He at 1.
  destruct (Z.ltb_spec (Z.of_nat k - 4) (blen (record_body r))); [done|lia].
Qed.

Lemma wal_rep_append w rs record :
  wal_rep w rs → Z.of_nat (length rs) < 2 ^ 64 - 2 →
  let r := mkWAL (next_lsn_ w) (wal_type record) (wal_txn_id record) (wal_page_id record)
             (before_image record) (after_image record) in
  (in_u64 (lsn r) → rec_wf r) →
  (AppendRecord record w).1 = Z.of_nat (length rs) + 1 ∧ wal_rep (AppendRecord record w).2 (rs ++ [r]).
Proof.
  intros [Hf Hn Hl Hwf] Hlen r Hr.
  assert (rec_wf r) as Hrw by (apply Hr; simpl; rewrite Hn; blia).
  rewrite (AppendRecord_file record w Hrw). fold r. split; [simpl; lia|]. split; simpl.
  - rewrite fmap_app, concat_app, Hf. simpl. by rewrite app_nil_r.
  - rewrite length_app, u64_small by (rewrite Hn; blia). simpl. lia.
  - intros i r' [Hi|[? Hi]]%lookup_app_Some; [by apply Hl|].
    apply list_lookup_singleton_Some in Hi as [? <-]. simpl. rewrite Hn. lia.
  - apply Forall_app. split; [done|]. by apply Forall_singleton.
Qed.

(** ** Properties *)

(** The record an operation asks to append. *)
Inductive LogOp :=
  | OpUpdate (t p : Z) (before after : Page)
  | OpCommit (t : Z)
  | OpAbort (t : Z)
  | OpCheckpoint.

Definition op_record (op : LogOp) : WALRecord :=
  match op with
  | OpUpdate t p b a => update_record t p b a
  | OpCommit t => mark_record kCommit t
  | OpAbort t => mark_record kAbort t
  | OpCheckpoint => mark_record kCheckpoint kInvalidTxnId
  end.

Definition run_op (op : LogOp) (w : WALManager) : Z * WALManager :=
  match op with
  | OpUpdate t p b a => AppendUpdate t p b a w
  | OpCommit t => AppendCommit t w
  | OpAbort t => AppendAbort t w
  | OpCheckpoint => AppendCheckpoint w
  end.

Definition op_wf (op : LogOp) : Prop :=
  match op with
  | OpUpdate t p b a => in_u64 t ∧ in_i32 p ∧ page_wf b ∧ page_wf a
  | OpCommit t | OpAbort t => in_u64 t
  | OpCheckpoint => True
  end.

Fixpoint run_ops (ops : list LogOp) (w : WALManager) : list Z * WALManager :=
  match ops with
  | [] => ([], w)
  | op :: ops' =>
      let '(l, w) := run_op op w in
      let '(ls, w) := run_ops ops' w in
      (l :: ls, w)
  end.

(** The records of [ops], numbered from [n]. *)
Fixpoint logged (n : Z) (ops : list LogOp) : list WALRecord :=
  match ops with
  | [] => []
  | op :: ops' =>
      let r := op_record op in
      mkWAL n (wal_type r) (wal_txn_id r) (wal_page_id r) (before_image r) (after_image r)
      :: logged (n + 1) ops'
  end.

Lemma op_record_wf op n :
  op_wf op → in_u64 n →
  let r := op_record op in
  rec_wf (mkWAL n (wal_type r) (wal_txn_id r) (wal_page_id r) (before_image r) (after_image r)).
Proof.
  intros Hop Hn. destruct op; simpl in *; split; simpl; try done;
    try (by destruct Hop as (? & ? & ? & ?)); unfold kInvalidPageId, kInvalidTxnId; blia.
Qed.

Lemma run_ops_rep ops w rs :
  wal_rep w rs → Forall op_wf ops → Z.of_nat (length rs + length ops) < 2 ^ 64 - 1 →
  wal_rep (run_ops ops w).2 (rs ++ logged (Z.of_nat (length rs) + 1) ops) ∧
  (run_ops ops w).1 = lsn <$> logged (Z.of_nat (length rs) + 1) ops.
Proof.
  induction ops as [|op ops IH] in w, rs |- *; intros Hrep Hops Hlen; simpl in *.
  { rewrite app_nil_r. done. }
  apply Forall_cons in Hops as [Hop Hops].
  destruct (wal_rep_append w rs (op_record op) Hrep) as [Hl Hrep1]; [lia|by apply op_record_wf|].
  assert (run_op op w = AppendRecord (op_record op) w) as -> by (by destruct op).
  rewrite (rep_next _ _ Hrep) in Hrep1.
  destruct (AppendRecord (op_record op) w) as [l w1]. simpl in *.
  destruct (IH w1 _ Hrep1 Hops) as [Hrep2 Hls]; [rewrite length_app; simpl; lia|].
  rewrite length_app in Hrep2, Hls. simpl in Hrep2, Hls.
  replace (Z.of_nat (length rs + 1) + 1) with (Z.of_nat (length rs) + 1 + 1) in Hrep2, Hls by lia.
  rewrite <- app_assoc in Hrep2. simpl in Hrep2.
  destruct (run_ops ops w1) as [ls w2]. simpl in *. by rewrite Hl, Hls.
Qed.

Lemma wal_rep_empty : wal_rep (mkWM [] 1) [].
Proof. split; try done. Qed.

(** C29: the log is a faithful list of records.  Whatever operations are
    logged on a new file, [ReadAll] gives back exactly their records in order,
    numbered 1, 2, ...; the numbers returned are those; and opening the file
    again continues the numbering. *)
Theorem wal_roundtrip ops :
  Forall op_wf ops → Z.of_nat (length ops) < 2 ^ 64 - 1 →
  let '(lsns, w) := run_ops ops (mkWM [] 1) in
  ReadAll w = Some (Ok (logged 1 ops)) ∧ lsns = lsn <$> logged 1 ops ∧
  (∀ i r, logged 1 ops !! i = Some r → lsn r = Z.of_nat i + 1) ∧
  WALManager_open (wal_file w) = Some w.
Proof.
  intros Hops Hlen. destruct (run_ops_rep ops _ _ wal_rep_empty Hops) as [Hrep Hls]; [simpl; lia|].
  change (Z.of_nat (@length WALRecord []) + 1) with 1 in *. cbn [app] in Hrep.
  destruct (run_ops ops (mkWM [] 1)) as [lsns w]. cbn [fst snd] in *.
  pose proof (wal_rep_ReadAll _ _ Hrep) as Hread. split_and!; [done|done|apply Hrep|].
  unfold WALManager_open.
  assert (ReadAll (mkWM (wal_file w) 1) = ReadAll w) as -> by done. rewrite Hread.
  destruct w as [f n]. do 2 f_equal. pose proof (rep_next _ _ Hrep) as Hn. simpl in Hn. subst n.
  destruct (last (logged 1 ops)) as [r|] eqn:El.
  - rewrite last_lookup in El. rewrite (rep_lsn _ _ Hrep _ _ El).
    apply lookup_lt_Some in El.
    assert (length (logged 1 ops) = length ops) as Hlo.
    { clear. generalize 1. induction ops as [|op ops IH]; intros z; [done|]. simpl. by rewrite IH. }
    rewrite u64_small by (rewrite Hlo in *; blia). lia.
  - apply last_None in El. by rewrite El.
Qed.

Lemma wal_roundtrip_witness :
  ∃ w, (run_ops [OpUpdate 7 1 blank_page blank_page; OpCommit 7; OpCheckpoint] (mkWM [] 1)).2 = w ∧
    ReadAll w = Some (Ok (logged 1 [OpUpdate 7 1 blank_page blank_page; OpCommit 7; OpCheckpoint])).
Proof.
  pose proof (wal_roundtrip [OpUpdate 7 1 blank_page blank_page; OpCommit 7; OpCheckpoint]) as H.
  destruct (run_ops _ _) as [lsns w]. exists w. split; [done|]. apply H; [|simpl; lia].
  repeat constructor; try apply page_wf_blank; lia.
Defined.

(** C37: a crash in the middle of appending a record.  If it leaves less than
    the length field, [ReadAll] returns the complete records and ignores the
    rest.  If it leaves more, [ReadAll] reports corruption for the whole log,
    the complete records included, and a log manager opened on the file
    numbers its records from 1 again. *)
Theorem wal_torn_tail rs r k n :
  Forall rec_wf rs → rec_wf r → (k < length (encode_record r))%nat →
  let file := concat (encode_record <$> rs) ++ take k (encode_record r) in
  ((k < 4)%nat → ReadAll (mkWM file n) = Some (Ok rs)) ∧
  ((4 ≤ k)%nat →
     ReadAll (mkWM file n) = Some (Err (Corruption "WAL: truncated record (possible mid-write crash)")) ∧
     WALManager_open file = Some (mkWM file 1)).
Proof.
  intros Hrs Hr Hk file. split; intros Hk4.
  - apply ReadAll_tail; [done|]. unfold blen. rewrite length_take. lia.
  - pose proof (ReadAll_torn rs r k) as Ht. fold file in Ht. split; [by apply Ht|].
    unfold WALManager_open. by rewrite Ht.
Qed.

Lemma wal_torn_tail_witness :
  let r := mkWAL 1 kCommit 7 kInvalidPageId [] [] in
  ReadAll (mkWM (take 10 (encode_record r)) 1) =
    Some (Err (Corruption "WAL: truncated record (possible mid-write crash)")).
Proof.
  intros r. destruct (wal_torn_tail [] r 10 1) as [_ H].
  - constructor.
  - split; simpl; try done; unfold kInvalidPageId; blia.
  - vm_compute. lia.
  - apply H. lia.
Defined.
