(* ===== verification/Recovery.v ===== *)
(** * Crash recovery: src/recovery/recovery_manager.hpp, recovery_manager.cpp

    [Recover] reads the whole log, repeats the updates logged after the last
    checkpoint and then undoes, from the end of the log to its start, every
    update of a transaction without a commit record. *)

From S2P Require Import Prelude Util Transaction PageManager Wal.

Record RecoveryStats := mkStats {
  redo_count : Z;
  undo_count : Z;
  checkpoint_lsn_used : Z
}.

(** The first loop: committed transactions, the last checkpoint's lsn and the
    index after it.  (The set [aborted] it also collects is never read.) *)
Fixpoint scan_log (i : nat) (records : list WALRecord) (committed : gset Z) (ckpt : Z) (start : nat) :
    gset Z * Z * nat :=
  match records with
  | [] => (committed, ckpt, start)
  | r :: records' =>
      match wal_type r with
      | kCommit => scan_log (S i) records' ({[wal_txn_id r]} ∪ committed) ckpt start
      | kCheckpoint => scan_log (S i) records' committed (lsn r) (S i)
      | _ => scan_log (S i) records' committed ckpt start
      end
  end.

(** The redo loop from [redo_start_index]. *)
Fixpoint redo_loop (records : list WALRecord) (count : Z) (pm : PageManager) : Result Z * PageManager :=
  match records with
  | [] => (Ok count, pm)
  | r :: records' =>
      if negb (bool_decide (wal_type r = kUpdate)) then redo_loop records' count pm
      else
        let '(status, pm) := WritePage (wal_page_id r) (after_image r) pm in
        if negb (status_ok status) then (Err status, pm)
        else redo_loop records' (count + 1) pm
  end.

(** The undo loop, on the records in reverse order. *)
Fixpoint undo_loop (committed : gset Z) (records : list WALRecord) (count : Z) (pm : PageManager) :
    Result Z * PageManager :=
  match records with
  | [] => (Ok count, pm)
  | r :: records' =>
      if negb (bool_decide (wal_type r = kUpdate)) then undo_loop committed records' count pm
      else if negb (bool_decide (wal_txn_id r ∉ committed)) then undo_loop committed records' count pm
      else
        let '(status, pm) := WritePage (wal_page_id r) (before_image r) pm in
        if negb (status_ok status) then (Err status, pm)
        else undo_loop committed records' (count + 1) pm
  end.

(** [Recover] on the records of the log. *)
Definition recover_records (records : list WALRecord) (pm : PageManager) : Result RecoveryStats * PageManager :=
  let '(committed, ckpt, start) := scan_log 0 records ∅ kInvalidLsn 0 in
  match redo_loop (drop start records) 0 pm with
  | (Err e, pm) => (Err e, pm)
  | (Ok redo, pm) =>
      match undo_loop committed (rev records) 0 pm with
      | (Err e, pm) => (Err e, pm)
      | (Ok undo, pm) => (Ok (mkStats redo undo ckpt), pm)
      end
  end.

Definition Recover (w : WALManager) (pm : PageManager) : option (Result RecoveryStats * PageManager) :=
  match ReadAll w with
  | None => None
  | Some (Err e) => Some (Err e, pm)
  | Some (Ok records) => Some (recover_records records pm)
  end.

(** ** What recovery writes *)

Definition is_update (r : WALRecord) : Prop := wal_type r = kUpdate.
Definition committed_in (records : list WALRecord) (t : Z) : Prop :=
  ∃ r, r ∈ records ∧ wal_type r = kCommit ∧ wal_txn_id r = t.

(** The records after the last checkpoint. *)
Fixpoint after_checkpoint (records : list WALRecord) : list WALRecord :=
  match records with
  | [] => []
  | r :: records' =>
      if bool_decide (Exists (λ r', wal_type r' = kCheckpoint) records') then after_checkpoint records'
      else if bool_decide (wal_type r = kCheckpoint) then records'
      else r :: records'
  end.

Definition committed_set (records : list WALRecord) : gset Z :=
  list_to_set (wal_txn_id <$> filter (λ r, wal_type r = kCommit) records).

(** Page and contents of each write, in order. *)
Definition redo_writes (records : list WALRecord) : list (Z * Page) :=
  (λ r, (wal_page_id r, after_image r)) <$> filter is_update (after_checkpoint records).
Definition undo_writes (records : list WALRecord) : list (Z * Page) :=
  (λ r, (wal_page_id r, before_image r)) <$>
    filter (λ r, is_update r ∧ wal_txn_id r ∉ committed_set records) (rev records).
Definition recovery_writes (records : list WALRecord) : list (Z * Page) :=
  redo_writes records ++ undo_writes records.

Fixpoint apply_writes (ws : list (Z * Page)) (pm : PageManager) : PageManager :=
  match ws with
  | [] => pm
  | (p, d) :: ws' => apply_writes ws' (pm_write pm p d)
  end.

(** The contents the writes leave in page [p] whose contents were [d]. *)
Definition written (ws : list (Z * Page)) (p : Z) (d : Page) : Page :=
  default d (snd <$> last (filter (λ w, w.1 = p) ws)).

(** Every update of the log is of an existing page, with whole images. *)
Definition log_ok (pm : PageManager) (records : list WALRecord) : Prop :=
  Forall (λ r, is_update r →
    pm_has pm (wal_page_id r) ∧ page_wf (before_image r) ∧ page_wf (after_image r)) records.

(** ** Lemmas: the log *)

#[export] Instance is_update_dec r : Decision (is_update r).
Proof. unfold is_update. apply _. Defined.

Lemma elem_of_committed_set records t : t ∈ committed_set records ↔ committed_in records t.
Proof.
  unfold committed_set, committed_in. rewrite elem_of_list_to_set, list_elem_of_fmap. split.
  - intros (r & -> & [? ?]%list_elem_of_filter). eauto.
  - intros (r & ? & ? & <-). exists r. split; [done|]. by apply list_elem_of_filter.
Qed.

Lemma elem_of_rev {A} (x : A) l : x ∈ rev l ↔ x ∈ l.
Proof. by rewrite !list_elem_of_In, <- in_rev. Qed.

Lemma scan_log_spec i records c k s :
  let '(c', _, s') := scan_log i records c k s in
  c' = committed_set records ∪ c ∧
  (if bool_decide (Exists (λ r, wal_type r = kCheckpoint) records)
   then (i ≤ s')%nat ∧ drop (s' - i) records = after_checkpoint records
   else s' = s ∧ after_checkpoint records = records).
Proof.
  induction records as [|r rs IH] in i, c, k, s |- *.
  { simpl. split; [set_solver|done]. }
  assert (∀ c1 k1 s1, (wal_type r ≠ kCheckpoint → s1 = s) → (wal_type r = kCheckpoint → s1 = S i) →
    c1 = (if bool_decide (wal_type r = kCommit) then {[wal_txn_id r]} ∪ c else c) →
    let '(c', _, s') := scan_log (S i) rs c1 k1 s1 in
    c' = committed_set (r :: rs) ∪ c ∧
    (if bool_decide (Exists (λ r, wal_type r = kCheckpoint) (r :: rs))
     then (i ≤ s')%nat ∧ drop (s' - i) (r :: rs) = after_checkpoint (r :: rs)
     else s' = s ∧ after_checkpoint (r :: rs) = r :: rs)) as Hstep.
  { intros c1 k1 s1 Hs Hsi Hc1. specialize (IH (S i) c1 k1 s1).
    destruct (scan_log (S i) rs c1 k1 s1) as [[c' k'] s']. destruct IH as [-> Hd]. split.
    - rewrite Hc1. unfold committed_set. rewrite filter_cons.
      case_bool_decide; [rewrite decide_True by done|rewrite decide_False by done]; simpl; set_solver.
    - cbn [after_checkpoint]. destruct (bool_decide_reflect (Exists (λ r, wal_type r = kCheckpoint) rs)) as [He|He].
      + rewrite bool_decide_true by (by right). destruct Hd as [Hle Hd]. split; [lia|].
        replace (s' - i)%nat with (S (s' - S i)) by lia. done.
      + destruct Hd as [-> Hd]. destruct (decide (wal_type r = kCheckpoint)) as [Hck|Hck].
        * rewrite bool_decide_true by (by left). rewrite (bool_decide_true (wal_type r = _)) by done.
          rewrite Hsi by done. split; [lia|]. by replace (S i - i)%nat with 1%nat by lia.
        * rewrite bool_decide_false; [|by intros [?|?]%Exists_cons].
          rewrite (bool_decide_false (wal_type r = _)) by done. split; [auto|done]. }
  cbn [scan_log]. destruct (wal_type r) eqn:Ht; apply Hstep; done.
Qed.

(** The part of the log that is redone is a suffix of it. *)
Lemma after_checkpoint_suffix records : ∃ pre, records = pre ++ after_checkpoint records.
Proof.
  induction records as [|r rs [pre IH]]; [by exists []|]. cbn [after_checkpoint]. case_bool_decide.
  - exists (r :: pre). simpl. by rewrite <- IH.
  - case_bool_decide; [by exists [r]|by exists []].
Qed.

(** ** Lemmas: the writes *)

Definition writes_ok (pm : PageManager) (ws : list (Z * Page)) : Prop :=
  Forall (λ w, pm_has pm w.1 ∧ page_wf w.2) ws.

Lemma written_cons p d q e ws :
  written ((q, e) :: ws) p d = written ws p (if decide (q = p) then e else d).
Proof.
  unfold written. rewrite filter_cons. simpl. case_decide; [|done].
  rewrite last_cons. by destruct (last _).
Qed.

Lemma apply_writes_spec ws pm :
  pm_wf pm → writes_ok pm ws →
  pm_wf (apply_writes ws pm) ∧ page_count_ (apply_writes ws pm) = page_count_ pm ∧
  ∀ p, pm_has pm p → pm_page (apply_writes ws pm) p = written ws p (pm_page pm p).
Proof.
  induction ws as [|[q e] ws IH] in pm |- *; intros Hwf Hok; [done|].
  apply Forall_cons in Hok as [[Hq He] Hok]. simpl in Hq, He. cbn [apply_writes].
  pose proof (pm_write_wf pm Hwf q e Hq He) as Hwf'.
  destruct (IH (pm_write pm q e) Hwf') as (Hwf2 & Hc & Hpage).
  { exact Hok. }
  split_and!; [done|done|]. intros p Hp. rewrite Hpage by done. rewrite written_cons.
  f_equal. case_decide as Hqp; [subst; by apply pm_page_write_eq|].
  apply pm_page_write_ne; (done || unfold pm_has in *; lia).
Qed.

Lemma writes_ok_write pm q e ws : writes_ok pm ws → writes_ok (pm_write pm q e) ws.
Proof. done. Qed.

Lemma redo_loop_spec records count pm :
  pm_wf pm → log_ok pm records →
  redo_loop records count pm =
    (Ok (count + Z.of_nat (length (filter is_update records))),
     apply_writes ((λ r, (wal_page_id r, after_image r)) <$> filter is_update records) pm).
Proof.
  induction records as [|r rs IH] in count, pm |- *; intros Hwf Hok; [simpl; by rewrite Z.add_0_r|].
  apply Forall_cons in Hok as [Hr Hok]. cbn [redo_loop]. rewrite filter_cons.
  case_bool_decide as Hu; cbn [negb].
  - rewrite decide_True by done. destruct (Hr Hu) as (Hp & _ & Ha).
    rewrite (WritePage_ok pm Hwf) by done. change (status_ok Status_OK) with true. cbn [negb].
    rewrite IH; [|by apply pm_write_wf|done]. cbn [fmap list_fmap apply_writes length].
    apply (f_equal (λ c, (Ok c, _))). lia.
  - rewrite decide_False by done. by apply IH.
Qed.

Lemma undo_loop_spec C records count pm :
  pm_wf pm → log_ok pm records →
  undo_loop C records count pm =
    (Ok (count + Z.of_nat (length (filter (λ r, is_update r ∧ wal_txn_id r ∉ C) records))),
     apply_writes ((λ r, (wal_page_id r, before_image r)) <$>
       filter (λ r, is_update r ∧ wal_txn_id r ∉ C) records) pm).
Proof.
  induction records as [|r rs IH] in count, pm |- *; intros Hwf Hok; [simpl; by rewrite Z.add_0_r|].
  apply Forall_cons in Hok as [Hr Hok]. cbn [undo_loop]. rewrite filter_cons.
  case_bool_decide as Hu; cbn [negb].
  2: { rewrite decide_False by tauto. by apply IH. }
  case_bool_decide as Hc; cbn [negb].
  2: { rewrite decide_False by tauto. by apply IH. }
  rewrite decide_True by done. destruct (Hr Hu) as (Hp & Hb & _).
  rewrite (WritePage_ok pm Hwf) by done. change (status_ok Status_OK) with true. cbn [negb].
  rewrite IH; [|by apply pm_write_wf|done]. cbn [fmap list_fmap apply_writes length].
  apply (f_equal (λ c, (Ok c, _))). lia.
Qed.

Lemma apply_writes_app ws1 ws2 pm : apply_writes (ws1 ++ ws2) pm = apply_writes ws2 (apply_writes ws1 pm).
Proof. induction ws1 as [|[q e] ws1 IH] in pm |- *; [done|]. simpl. apply IH. Qed.

Lemma log_ok_writes pm records : log_ok pm records → writes_ok pm (redo_writes records) ∧ writes_ok pm (undo_writes records).
Proof.
  intros Hok. unfold writes_ok, redo_writes, undo_writes.
  rewrite !Forall_forall in *. unfold log_ok in Hok. rewrite Forall_forall in Hok. split.
  - intros w (r & -> & [Hu Hin]%list_elem_of_filter)%list_elem_of_fmap.
    destruct (after_checkpoint_suffix records) as [pre E].
    destruct (Hok r) as (? & ? & ?); [rewrite E; set_solver|done|done].
  - intros w (r & -> & [[Hu _] Hin]%list_elem_of_filter)%list_elem_of_fmap.
    destruct (Hok r) as (? & ? & ?); [|done|done]. by apply elem_of_rev.
Qed.

(** The statistics it returns. *)
Definition recovery_stats (records : list WALRecord) : RecoveryStats :=
  let '(_, ckpt, _) := scan_log 0 records ∅ kInvalidLsn 0 in
  mkStats (Z.of_nat (length (redo_writes records))) (Z.of_nat (length (undo_writes records))) ckpt.

(** [Recover] is its list of writes. *)
Lemma recover_records_spec records pm :
  pm_wf pm → log_ok pm records →
  recover_records records pm =
    (Ok (recovery_stats records), apply_writes (recovery_writes records) pm).
Proof.
  intros Hwf Hok. unfold recover_records, recovery_stats.
  pose proof (scan_log_spec 0 records ∅ kInvalidLsn 0) as Hs.
  destruct (scan_log 0 records ∅ kInvalidLsn 0) as [[c k] s]. destruct Hs as [-> Hs].
  rewrite union_empty_r_L.
  assert (drop s records = after_checkpoint records) as ->.
  { case_bool_decide; [destruct Hs as [_ <-]; by rewrite Nat.sub_0_r|by destruct Hs as [-> ->]]. }
  assert (log_ok pm (after_checkpoint records)) as Hok1.
  { destruct (after_checkpoint_suffix records) as [pre E]. unfold log_ok in *. rewrite E in Hok.
    by apply Forall_app in Hok as [_ ?]. }
  rewrite redo_loop_spec by done. fold (redo_writes records).
  destruct (log_ok_writes pm records Hok) as [Hrw Huw].
  destruct (apply_writes_spec (redo_writes records) pm Hwf Hrw) as (Hwf1 & Hc1 & _).
  rewrite undo_loop_spec; [|done|].
  2: { unfold log_ok in *. rewrite Forall_forall in Hok |- *. intros r Hin Hu. rewrite elem_of_rev in Hin.
       destruct (Hok r Hin Hu) as ([? ?] & ? & ?). split; [|done].
       change (0 ≤ wal_page_id r < page_count_ (apply_writes (redo_writes records) pm)). rewrite Hc1. done. }
  unfold recovery_writes. rewrite apply_writes_app. unfold redo_writes, undo_writes.
  by rewrite !length_fmap.
Qed.

Lemma recovery_writes_ok pm records : log_ok pm records → writes_ok pm (recovery_writes records).
Proof. intros [? ?]%log_ok_writes. by apply Forall_app. Qed.

(** The page contents after a recovery. *)
Lemma recovered_page records pm p :
  pm_wf pm → log_ok pm records → pm_has pm p →
  pm_page (recover_records records pm).2 p = written (recovery_writes records) p (pm_page pm p).
Proof.
  intros Hwf Hok Hp. rewrite recover_records_spec by done.
  by apply apply_writes_spec; [|apply recovery_writes_ok|].
Qed.

(** ** Lemmas: one page *)

Definition updates_of (p : Z) (records : list WALRecord) : list WALRecord :=
  filter (λ r, is_update r ∧ wal_page_id r = p) records.

(** The contents after the updates [us], starting from [d]. *)
Definition contents_after (d : Page) (us : list WALRecord) : Page := default d (after_image <$> last us).

(** Each update's before image is what the previous one left. *)
Fixpoint history_ok (d : Page) (us : list WALRecord) : Prop :=
  match us with
  | [] => True
  | u :: us' => before_image u = d ∧ history_ok (after_image u) us'
  end.

Lemma history_before d us1 u us2 :
  history_ok d (us1 ++ u :: us2) → before_image u = contents_after d us1.
Proof.
  induction us1 as [|u1 us1 IH] in d |- *; [by intros [? _]|]. intros [_ H]. rewrite (IH _ H).
  unfold contents_after. rewrite last_cons. by destruct (last us1).
Qed.

Lemma written_app ws1 ws2 p d : written (ws1 ++ ws2) p d = written ws2 p (written ws1 p d).
Proof.
  unfold written. rewrite filter_app, last_app. by destruct (last (filter _ ws2)).
Qed.

(** The writes of a pass to one page, as the images of its updates. *)
Lemma written_images (img : WALRecord → Page) us p d :
  written ((λ r, (wal_page_id r, img r)) <$> us) p d =
  default d (img <$> last (filter (λ r, wal_page_id r = p) us)).
Proof.
  unfold written. f_equal. induction us as [|u us IH] using rev_ind; [done|].
  rewrite fmap_app, !filter_app, !last_app. simpl. rewrite filter_cons. simpl.
  rewrite (filter_cons (λ r, wal_page_id r = p)). simpl. case_decide; [done|]. simpl. exact IH.
Qed.

Lemma filter_page_updates (P : WALRecord → Prop) `{!∀ r, Decision (P r)} p (us : list WALRecord) :
  filter (λ r, wal_page_id r = p) (filter P us) = filter (λ r, P r ∧ wal_page_id r = p) us.
Proof. rewrite list_filter_filter. apply list_filter_iff. intros r. tauto. Qed.

Lemma last_filter_rev (P : WALRecord → Prop) `{!∀ r, Decision (P r)} (us : list WALRecord) :
  last (filter P (rev us)) = head (filter P us).
Proof.
  induction us as [|u us IH]; [done|]. cbn [rev].
  rewrite filter_app, last_app, (filter_cons P u us), (filter_cons P u []). by case_decide.
Qed.

(** Redo leaves the last update after the checkpoint; undo leaves the before
    image of the first update that is not committed. *)
Lemma recovered_contents records p d :
  written (recovery_writes records) p d =
  match head (filter (λ r, wal_txn_id r ∉ committed_set records) (updates_of p records)) with
  | Some u => before_image u
  | None => contents_after d (updates_of p (after_checkpoint records))
  end.
Proof.
  unfold recovery_writes. rewrite written_app. unfold redo_writes, undo_writes.
  rewrite !written_images, !filter_page_updates. rewrite last_filter_rev.
  unfold updates_of, contents_after. rewrite list_filter_filter.
  rewrite (list_filter_iff (λ r, (is_update r ∧ wal_txn_id r ∉ committed_set records) ∧ wal_page_id r = p)
             (λ r, (wal_txn_id r ∉ committed_set records) ∧ is_update r ∧ wal_page_id r = p))
    by (intros r; tauto).
  by destruct (head _).
Qed.

Lemma updates_after_checkpoint p records :
  ∃ pre, updates_of p records = pre ++ updates_of p (after_checkpoint records).
Proof.
  destruct (after_checkpoint_suffix records) as [pre E]. exists (updates_of p pre).
  unfold updates_of. rewrite <- filter_app. by rewrite <- E.
Qed.

(** ** Properties *)

(** C24: recovery restores exactly the committed state of a page.  Suppose the
    log records the page's true history from its initial contents [d0], every
    update of it by a transaction without a commit record comes after all its
    committed updates (as page locks held to the end of the transaction
    ensure), and the page on disk is up to date if it was not updated since the
    last checkpoint.  Then, whatever else the crash left of it on disk, after
    [Recover] the page holds the result of the committed updates alone. *)
Theorem recovery_restores_committed w records pm p d0 cs ls :
  ReadAll w = Some (Ok records) → pm_wf pm → log_ok pm records → pm_has pm p →
  history_ok d0 (updates_of p records) → updates_of p records = cs ++ ls →
  Forall (λ r, committed_in records (wal_txn_id r)) cs →
  Forall (λ r, ¬ committed_in records (wal_txn_id r)) ls →
  (updates_of p (after_checkpoint records) = [] →
     pm_page pm p = contents_after d0 (updates_of p records)) →
  ∃ stats pm', Recover w pm = Some (Ok stats, pm') ∧ pm_wf pm' ∧ page_count_ pm' = page_count_ pm ∧
    pm_page pm' p = contents_after d0 cs.
Proof.
  intros Hread Hwf Hok Hp Hhist Hsplit Hcs Hls Hdisk. unfold Recover. rewrite Hread.
  rewrite (recover_records_spec records pm Hwf Hok). eexists _, _. split; [reflexivity|].
  destruct (apply_writes_spec _ pm Hwf (recovery_writes_ok pm records Hok)) as (Hwf' & Hc & Hpage).
  split; [done|]. split; [done|]. rewrite Hpage by done. rewrite recovered_contents.
  assert (filter (λ r, wal_txn_id r ∉ committed_set records) (updates_of p records) = ls) as ->.
  { rewrite Hsplit, filter_app. rewrite (filter_none _ cs), (filter_all _ ls); [done| |].
    - eapply Forall_impl; [exact Hls|]. intros r Hr. by rewrite elem_of_committed_set.
    - eapply Forall_impl; [exact Hcs|]. intros r Hr Hn. by rewrite elem_of_committed_set in Hn. }
  destruct ls as [|u ls]; simpl.
  - rewrite app_nil_r in Hsplit. rewrite Hsplit in *.
    destruct (updates_after_checkpoint p records) as [pre Hpre]. rewrite Hsplit in Hpre.
    unfold contents_after in *. rewrite Hpre, last_app.
    destruct (last (updates_of p (after_checkpoint records))) as [u|] eqn:El; [done|].
    apply last_None in El. rewrite (Hdisk El), Hpre, El, app_nil_r. done.
  - rewrite Hsplit in Hhist. by eapply history_before.
Qed.

(** Writing part of a list of writes first does not change its outcome. *)
Lemma written_twice ws k p d : written ws p (written (take k ws) p d) = written ws p d.
Proof.
  unfold written. destruct (last (filter (λ w, w.1 = p) ws)) as [x|] eqn:E; [done|]. simpl.
  apply last_None in E. rewrite <- (take_drop k ws), filter_app in E.
  apply app_nil in E as [-> _]. done.
Qed.

(** C36: recovery may itself crash.  If it stops after any number of its page
    writes and is run again, on the same log, every page ends as one complete
    run leaves it; in particular running it twice is running it once. *)
Theorem recovery_restartable records pm k p :
  pm_wf pm → log_ok pm records → pm_has pm p →
  let pm1 := apply_writes (take k (recovery_writes records)) pm in
  ∃ stats pm' pm1', recover_records records pm = (Ok stats, pm') ∧
    recover_records records pm1 = (Ok stats, pm1') ∧ pm_page pm1' p = pm_page pm' p.
Proof.
  intros Hwf Hok Hp pm1.
  assert (writes_ok pm (take k (recovery_writes records))) as Hk.
  { apply Forall_take. by apply recovery_writes_ok. }
  destruct (apply_writes_spec _ pm Hwf Hk) as (Hwf1 & Hc1 & Hpage1). fold pm1 in Hwf1, Hc1, Hpage1.
  assert (log_ok pm1 records) as Hok1 by (unfold log_ok, pm_has in *; by rewrite Hc1).
  assert (pm_has pm1 p) as Hp1 by (unfold pm_has in *; by rewrite Hc1).
  pose proof (recovered_page records pm p Hwf Hok Hp) as E.
  pose proof (recovered_page records pm1 p Hwf1 Hok1 Hp1) as E1.
  rewrite recover_records_spec in E, E1 by done. rewrite !recover_records_spec by done.
  eexists _, _, _. split; [reflexivity|]. split; [reflexivity|]. cbn [snd] in E, E1.
  rewrite E, E1, Hpage1 by done. apply written_twice.
Qed.

(** Undo goes by before images and takes no account of what happened to
    the page since.  If the first update of a page by a transaction without a
    commit record, one that aborted included, is followed by a committed update
    of the same page, recovery puts the older before image back and the
    committed update is lost. *)
Theorem recovery_undo_loses_committed records pm p pre u post c :
  pm_wf pm → log_ok pm records → pm_has pm p →
  updates_of p records = pre ++ u :: post →
  Forall (λ r, committed_in records (wal_txn_id r)) pre →
  ¬ committed_in records (wal_txn_id u) →
  c ∈ post → committed_in records (wal_txn_id c) → after_image c ≠ before_image u →
  ∃ stats pm', recover_records records pm = (Ok stats, pm') ∧
    pm_page pm' p = before_image u ∧ pm_page pm' p ≠ after_image c.
Proof.
  intros Hwf Hok Hp Hsplit Hpre Hu Hc Hcc Hne.
  pose proof (recovered_page records pm p Hwf Hok Hp) as E.
  rewrite recover_records_spec in E |- * by done. eexists _, _. split; [reflexivity|].
  cbn [snd] in E. rewrite E, recovered_contents, Hsplit, filter_app.
  rewrite (filter_none _ pre).
  2: { eapply Forall_impl; [exact Hpre|]. intros r Hr Hn. by rewrite elem_of_committed_set in Hn. }
  cbn [app]. rewrite filter_cons, decide_True by (by rewrite elem_of_committed_set). simpl.
  split; [done|]. congruence.
Qed.

(** ** Witnesses *)

(** A log in which transaction 1 committed an update of page 1 and
    transaction 2, still running, changed it again. *)
Definition page_a : Page := replicate (Z.to_nat kPageSize) Init.Byte.x61.
Definition page_b : Page := replicate (Z.to_nat kPageSize) Init.Byte.x62.
Definition sample_ops : list LogOp :=
  [OpUpdate 1 1 blank_page page_a; OpCommit 1; OpUpdate 2 1 page_a page_b].
(** Transaction 2 aborts, then transaction 1 updates the page and commits. *)
Definition aborted_ops : list LogOp :=
  [OpUpdate 2 1 blank_page page_b; OpAbort 2; OpUpdate 1 1 blank_page page_a; OpCommit 1].

Lemma page_wf_a : page_wf page_a.
Proof. by vm_compute. Qed.
Lemma page_wf_b : page_wf page_b.
Proof. by vm_compute. Qed.

Lemma sample_has : pm_has sample_pm 1.
Proof. split; by vm_compute. Qed.

Lemma sample_log_ok ops : ops = sample_ops ∨ ops = aborted_ops → log_ok sample_pm (logged 1 ops).
Proof.
  pose proof page_wf_a. pose proof page_wf_b. pose proof page_wf_blank. pose proof sample_has.
  intros [-> | ->]; repeat apply Forall_cons_2; try apply Forall_nil_2;
    cbn [op_record update_record mark_record wal_type wal_page_id before_image after_image is_update];
    intros Hu; try (discriminate Hu); split_and!; assumption.
Qed.

#[local] Opaque page_a page_b.

Lemma recovery_restores_committed_witness :
  ∃ stats pm', Recover (run_ops sample_ops (mkWM [] 1)).2 sample_pm = Some (Ok stats, pm') ∧
    pm_page pm' 1 = page_a.
Proof.
  assert (wal_rep (run_ops sample_ops (mkWM [] 1)).2 (logged 1 sample_ops)) as Hrep.
  { apply (run_ops_rep sample_ops _ [] wal_rep_empty); [|simpl; lia].
    pose proof page_wf_a. pose proof page_wf_b. pose proof page_wf_blank.
    repeat apply Forall_cons_2; try apply Forall_nil_2; cbn [op_wf]; split_and!; (assumption || blia). }
  destruct (recovery_restores_committed _ _ sample_pm 1 blank_page
    (take 1 (updates_of 1 (logged 1 sample_ops))) (drop 1 (updates_of 1 (logged 1 sample_ops)))
    (wal_rep_ReadAll _ _ Hrep) sample_pm_wf (sample_log_ok _ (or_introl eq_refl)) sample_has)
    as (stats & pm' & E & _ & _ & Hp).
  - cbv -[page_a page_b blank_page]. split_and!; reflexivity.
  - reflexivity.
  - repeat apply Forall_cons_2; try apply Forall_nil_2.
    exists (mkWAL 2 kCommit 1 kInvalidPageId [] []). split; [right; left|done].
  - repeat apply Forall_cons_2; try apply Forall_nil_2.
    intros (r & Hin & Ht & Hx). repeat (apply elem_of_cons in Hin as [->|Hin]; [done|]).
    by apply elem_of_nil in Hin.
  - done.
  - exists stats, pm'. split; [exact E|]. rewrite Hp. reflexivity.
Defined.

Lemma recovery_restartable_witness :
  ∃ stats pm' pm1', recover_records (logged 1 sample_ops) sample_pm = (Ok stats, pm') ∧
    recover_records (logged 1 sample_ops)
      (apply_writes (take 1 (recovery_writes (logged 1 sample_ops))) sample_pm) = (Ok stats, pm1') ∧
    pm_page pm1' 1 = pm_page pm' 1.
Proof.
  apply (recovery_restartable (logged 1 sample_ops) sample_pm 1 1 sample_pm_wf
    (sample_log_ok _ (or_introl eq_refl)) sample_has).
Defined.

Lemma recovery_undo_loses_committed_witness :
  ∃ stats pm', recover_records (logged 1 aborted_ops) sample_pm = (Ok stats, pm') ∧
    pm_page pm' 1 = blank_page ∧ pm_page pm' 1 ≠ page_a.
Proof.
  apply (recovery_undo_loses_committed (logged 1 aborted_ops) sample_pm 1 []
    (mkWAL 1 kUpdate 2 1 blank_page page_b) [mkWAL 3 kUpdate 1 1 blank_page page_a]
    (mkWAL 3 kUpdate 1 1 blank_page page_a) sample_pm_wf (sample_log_ok _ (or_intror eq_refl)) sample_has).
  - reflexivity.
  - apply Forall_nil_2.
  - intros (r & Hin & Ht & Hx). repeat (apply elem_of_cons in Hin as [->|Hin]; [done|]).
    by apply elem_of_nil in Hin.
  - left.
  - exists (mkWAL 4 kCommit 1 kInvalidPageId [] []). split; [do 3 right; left|done].
  - cbn [before_image after_image]. intros E.
    assert (head page_a = head blank_page) as Hh by (rewrite E; reflexivity).
    vm_compute in Hh. discriminate Hh.
Defined.
