(* ===== verification/Tokenizer.v ===== *)
(** * The tokenizer: src/parser/token.hpp, lexer.hpp, tokenizer.hpp, tokenizer.cpp

    The lexer is a cursor in the source text; the scanning functions run in
    the state monad over it.  Loops have as fuel the length of the text, which
    each iteration consumes. *)

From stdpp Require Import pretty.
From Stdlib Require Import Strings.Ascii.
From S2P Require Import Prelude Util.

Local Open Scope char_scope.
Abbreviation chars := (list ascii).

(** ** token.hpp *)

Module TokenType.

Inductive t :=
  | kIdentifier | kIntLiteral | kFloatLiteral | kStringLiteral
  | kSelect | kFrom | kWhere | kInsert | kInto | kValues | kUpdate | kSet | kDelete
  | kCreate | kTable | kDrop | kOrder | kBy | kAsc | kDesc | kLimit | kAnd | kOr
  | kNot | kNull | kTrue | kFalse | kAs | kIndex | kOn
  | kInt | kBigInt | kDouble | kBoolean | kVarchar
  | kCount | kSum | kAvg | kMin | kMax
  | kStar | kComma | kLParen | kRParen | kSemicolon | kDot
  | kEq | kNeq | kLt | kLte | kGt | kGte
  | kEndOfInput | kInvalid.

#[export] Instance eq_dec : EqDecision t.
Proof. solve_decision. Defined.

End TokenType.

Export (hints) TokenType.
Abbreviation TokenType := TokenType.t.

Record Token := mkToken { tok_type : TokenType; tok_lexeme : chars; tok_position : nat }.

#[export] Instance Token_eq_dec : EqDecision Token.
Proof. solve_decision. Defined.

Definition TokenTypeName (ty : TokenType) : string :=
  match ty with
  | TokenType.kIdentifier => "identifier"
  | TokenType.kIntLiteral => "integer literal"
  | TokenType.kFloatLiteral => "float literal"
  | TokenType.kStringLiteral => "string literal"
  | TokenType.kSelect => "SELECT" | TokenType.kFrom => "FROM" | TokenType.kWhere => "WHERE"
  | TokenType.kInsert => "INSERT" | TokenType.kInto => "INTO" | TokenType.kValues => "VALUES"
  | TokenType.kUpdate => "UPDATE" | TokenType.kSet => "SET" | TokenType.kDelete => "DELETE"
  | TokenType.kCreate => "CREATE" | TokenType.kTable => "TABLE" | TokenType.kDrop => "DROP"
  | TokenType.kOrder => "ORDER" | TokenType.kBy => "BY" | TokenType.kAsc => "ASC"
  | TokenType.kDesc => "DESC" | TokenType.kLimit => "LIMIT" | TokenType.kAnd => "AND"
  | TokenType.kOr => "OR" | TokenType.kNot => "NOT" | TokenType.kNull => "NULL"
  | TokenType.kTrue => "TRUE" | TokenType.kFalse => "FALSE" | TokenType.kAs => "AS"
  | TokenType.kIndex => "INDEX" | TokenType.kOn => "ON" | TokenType.kInt => "INT"
  | TokenType.kBigInt => "BIGINT" | TokenType.kDouble => "DOUBLE"
  | TokenType.kBoolean => "BOOLEAN" | TokenType.kVarchar => "VARCHAR"
  | TokenType.kCount => "COUNT" | TokenType.kSum => "SUM" | TokenType.kAvg => "AVG"
  | TokenType.kMin => "MIN" | TokenType.kMax => "MAX"
  | TokenType.kStar => "*" | TokenType.kComma => "," | TokenType.kLParen => "("
  | TokenType.kRParen => ")" | TokenType.kSemicolon => ";" | TokenType.kDot => "."
  | TokenType.kEq => "=" | TokenType.kNeq => "!=" | TokenType.kLt => "<"
  | TokenType.kLte => "<=" | TokenType.kGt => ">" | TokenType.kGte => ">="
  | TokenType.kEndOfInput => "<end of input>"
  | TokenType.kInvalid => "<invalid>"
  end%string.

(** ** lexer.hpp *)

Record Lexer := mkLexer { source_ : chars; pos_ : nat }.

Definition nul : ascii := "000".
Definition newline : ascii := "010".
Definition quote : ascii := "'".

Definition AtEnd (l : Lexer) : bool := (length (source_ l) <=? pos_ l)%nat.
Definition Peek (l : Lexer) : ascii := if AtEnd l then nul else default nul (source_ l !! pos_ l).
Definition PeekNext (l : Lexer) : ascii :=
  if (S (pos_ l) <? length (source_ l))%nat then default nul (source_ l !! S (pos_ l)) else nul.
(** [source_[source_.size()]] is the terminating NUL. *)
Definition Advance : M Lexer ascii :=
  λ l, Some (default nul (source_ l !! pos_ l), mkLexer (source_ l) (S (pos_ l))).
Definition Position (l : Lexer) : nat := pos_ l.

Definition char_in (lo hi c : ascii) : bool :=
  (N_of_ascii lo <=? N_of_ascii c)%N && (N_of_ascii c <=? N_of_ascii hi)%N.
Definition IsDigit (c : ascii) : bool := char_in "0" "9" c.
Definition IsAlpha (c : ascii) : bool := char_in "a" "z" c || char_in "A" "Z" c || Ascii.eqb c "_".
Definition IsAlphaNumeric (c : ascii) : bool := IsAlpha c || IsDigit c.
Definition IsWhitespace (c : ascii) : bool :=
  Ascii.eqb c " " || Ascii.eqb c "009" || Ascii.eqb c "013" || Ascii.eqb c newline.

(** ** tokenizer.cpp *)

Definition KeywordTable : list (string * TokenType) :=
  [ ("SELECT", TokenType.kSelect); ("FROM", TokenType.kFrom); ("WHERE", TokenType.kWhere);
    ("INSERT", TokenType.kInsert); ("INTO", TokenType.kInto); ("VALUES", TokenType.kValues);
    ("UPDATE", TokenType.kUpdate); ("SET", TokenType.kSet); ("DELETE", TokenType.kDelete);
    ("CREATE", TokenType.kCreate); ("TABLE", TokenType.kTable); ("DROP", TokenType.kDrop);
    ("ORDER", TokenType.kOrder); ("BY", TokenType.kBy); ("ASC", TokenType.kAsc);
    ("DESC", TokenType.kDesc); ("LIMIT", TokenType.kLimit); ("AND", TokenType.kAnd);
    ("OR", TokenType.kOr); ("NOT", TokenType.kNot); ("NULL", TokenType.kNull);
    ("TRUE", TokenType.kTrue); ("FALSE", TokenType.kFalse); ("AS", TokenType.kAs);
    ("INDEX", TokenType.kIndex); ("ON", TokenType.kOn);
    ("INT", TokenType.kInt); ("INTEGER", TokenType.kInt); ("BIGINT", TokenType.kBigInt);
    ("DOUBLE", TokenType.kDouble); ("BOOLEAN", TokenType.kBoolean); ("BOOL", TokenType.kBoolean);
    ("VARCHAR", TokenType.kVarchar); ("TEXT", TokenType.kVarchar);
    ("COUNT", TokenType.kCount); ("SUM", TokenType.kSum); ("AVG", TokenType.kAvg);
    ("MIN", TokenType.kMin); ("MAX", TokenType.kMax) ]%string.

(** [std::toupper] in the C locale. *)
Definition toupper (c : ascii) : ascii :=
  if char_in "a" "z" c then ascii_of_N (N_of_ascii c - 32) else c.
Definition ToUpper (s : chars) : chars := toupper <$> s.

(** [keywords.find(...)]. *)
Definition keyword_find (s : chars) : option TokenType :=
  (λ e : nat * (string * TokenType), e.2.2) <$>
    list_find (λ e : string * TokenType, e.1 = String.string_of_list_ascii s) KeywordTable.

(** [while (!AtEnd() && p(Peek())) acc.push_back(Advance())]. *)
Fixpoint advance_while (fuel : nat) (p : ascii → bool) (acc : chars) : M Lexer chars :=
  match fuel with
  | O => undefined_behaviour
  | S fuel' => λ l,
      if negb (AtEnd l) && p (Peek l) then
        (let! c := Advance in advance_while fuel' p (acc ++ [c])) l
      else ret acc l
  end.

Definition text_fuel (l : Lexer) : nat := S (length (source_ l)).

Fixpoint skip_loop (fuel : nat) : M Lexer unit :=
  match fuel with
  | O => undefined_behaviour
  | S fuel' => λ l,
      if AtEnd l then ret tt l
      else
        let c := Peek l in
        if IsWhitespace c then (do! Advance in skip_loop fuel') l
        else if Ascii.eqb c "-" && Ascii.eqb (PeekNext l) "-" then
          (do! advance_while (text_fuel l) (λ c, negb (Ascii.eqb c newline)) [] in skip_loop fuel') l
        else ret tt l
  end.

Definition SkipWhitespaceAndComments : M Lexer unit :=
  λ l, skip_loop (text_fuel l) l.

Definition ScanNumber : M Lexer Token := λ l,
  let start := Position l in
  let fuel := text_fuel l in
  (let! lexeme := advance_while fuel IsDigit [] in
   let! is_float := gets (λ l, negb (AtEnd l) && Ascii.eqb (Peek l) "." && IsDigit (PeekNext l)) in
   if is_float : bool then
     let! c := Advance in
     let! lexeme := advance_while fuel IsDigit (lexeme ++ [c]) in
     ret (mkToken TokenType.kFloatLiteral lexeme start)
   else ret (mkToken TokenType.kIntLiteral lexeme start)) l.

Fixpoint string_loop (fuel start : nat) (value : chars) : M Lexer (Result Token) :=
  match fuel with
  | O => undefined_behaviour
  | S fuel' => λ l,
      if AtEnd l then
        ret (Err (InvalidArgument ("unterminated string literal starting at position " +:+ pretty start))) l
      else
        (let! c := Advance in
         if Ascii.eqb c quote then
           let! doubled := gets (λ l, negb (AtEnd l) && Ascii.eqb (Peek l) quote) in
           if doubled : bool then
             do! Advance in string_loop fuel' start (value ++ [quote])
           else ret (Ok (mkToken TokenType.kStringLiteral value start))
         else string_loop fuel' start (value ++ [c])) l
  end.

Definition ScanString : M Lexer (Result Token) := λ l,
  let start := Position l in
  (do! Advance in string_loop (text_fuel l) start []) l.

Definition ScanIdentifierOrKeyword : M Lexer Token := λ l,
  let start := Position l in
  (let! lexeme := advance_while (text_fuel l) IsAlphaNumeric [] in
   ret match keyword_find (ToUpper lexeme) with
       | Some ty => mkToken ty lexeme start
       | None => mkToken TokenType.kIdentifier lexeme start
       end) l.

(** [if (!lexer_.AtEnd() && lexer_.Peek() == c) { lexer_.Advance(); return yes; }]. *)
Definition if_next (c : ascii) (yes : Token) (no : M Lexer Token) : M Lexer Token := λ l,
  if negb (AtEnd l) && Ascii.eqb (Peek l) c then (do! Advance in ret yes) l else no l.

Definition ScanOperatorOrPunctuation : M Lexer Token := λ l,
  let start := Position l in
  (let! c := Advance in
   match c with
   | "*" => ret (mkToken TokenType.kStar ["*"] start)
   | "," => ret (mkToken TokenType.kComma [","] start)
   | "(" => ret (mkToken TokenType.kLParen ["("] start)
   | ")" => ret (mkToken TokenType.kRParen [")"] start)
   | ";" => ret (mkToken TokenType.kSemicolon [";"] start)
   | "." => ret (mkToken TokenType.kDot ["."] start)
   | "=" => ret (mkToken TokenType.kEq ["="] start)
   | "!" => if_next "=" (mkToken TokenType.kNeq ["!"; "="] start)
              (ret (mkToken TokenType.kInvalid ["!"] start))
   | "<" => if_next "=" (mkToken TokenType.kLte ["<"; "="] start)
              (if_next ">" (mkToken TokenType.kNeq ["<"; ">"] start)
                 (ret (mkToken TokenType.kLt ["<"] start)))
   | ">" => if_next "=" (mkToken TokenType.kGte [">"; "="] start)
              (ret (mkToken TokenType.kGt [">"] start))
   | _ => ret (mkToken TokenType.kInvalid [c] start)
   end) l.

Definition NextToken : M Lexer (Result Token) :=
  do! SkipWhitespaceAndComments in
  λ l,
    if AtEnd l then ret (Ok (mkToken TokenType.kEndOfInput [] (Position l))) l
    else
      let c := Peek l in
      if IsDigit c then (let! t := ScanNumber in ret (Ok t)) l
      else if IsAlpha c then (let! t := ScanIdentifierOrKeyword in ret (Ok t)) l
      else if Ascii.eqb c quote then ScanString l
      else
        (let! tok := ScanOperatorOrPunctuation in
         if decide (tok_type tok = TokenType.kInvalid) then
           ret (Err (InvalidArgument ("unexpected character '" +:+ String.string_of_list_ascii (tok_lexeme tok)
                       +:+ "' at position " +:+ pretty (tok_position tok))))
         else ret (Ok tok)) l.

Fixpoint tokenize_loop (fuel : nat) (tokens : list Token) : M Lexer (Result (list Token)) :=
  match fuel with
  | O => undefined_behaviour
  | S fuel' =>
      let! tok := NextToken in
      match tok with
      | Err s => ret (Err s)
      | Ok t =>
          if decide (tok_type t = TokenType.kEndOfInput) then ret (Ok (tokens ++ [t]))
          else tokenize_loop fuel' (tokens ++ [t])
      end
  end.

(** [Tokenizer(source).TokenizeAll()]. *)
Definition TokenizeAll (source : chars) : option (Result (list Token)) :=
  fst <$> tokenize_loop (S (length source)) [] (mkLexer source 0).

Example tokenize_example :
  TokenizeAll (String.list_ascii_of_string "SELECT a1, 'it''s' FROM t -- x
 WHERE b<=1.5;") =
  Some (Ok
    [ mkToken TokenType.kSelect (String.list_ascii_of_string "SELECT") 0;
      mkToken TokenType.kIdentifier (String.list_ascii_of_string "a1") 7;
      mkToken TokenType.kComma [","] 9;
      mkToken TokenType.kStringLiteral (String.list_ascii_of_string "it's") 11;
      mkToken TokenType.kFrom (String.list_ascii_of_string "FROM") 19;
      mkToken TokenType.kIdentifier ["t"] 24;
      mkToken TokenType.kWhere (String.list_ascii_of_string "WHERE") 32;
      mkToken TokenType.kIdentifier ["b"] 38;
      mkToken TokenType.kLte ["<"; "="] 39;
      mkToken TokenType.kFloatLiteral (String.list_ascii_of_string "1.5") 41;
      mkToken TokenType.kSemicolon [";"] 44;
      mkToken TokenType.kEndOfInput [] 45]).
Proof. vm_compute. reflexivity. Qed.

(** ** The lexical grammar

    What the tokenizer is meant to accept, without a cursor: blanks, the
    spelling of each token, and a text as a sequence of them.  A spelling is
    relative to the text [t] that follows it, since a token extends as far as
    it can. *)

(** [t] goes on with a character of [p]; it does not. *)
Definition goes (p : ascii → bool) (t : chars) : bool :=
  match t with [] => false | c :: _ => p c end.
Definition stops (p : ascii → bool) (t : chars) : Prop := goes p t = false.

Definition in_comment (c : ascii) : bool := negb (Ascii.eqb c newline).

Inductive blanks : chars → chars → Prop :=
  | blanks_nil t : blanks [] t
  | blanks_space c b t : IsWhitespace c = true → blanks b t → blanks (c :: b) t
  | blanks_comment body b t :
      forallb in_comment body = true → stops in_comment (b ++ t) → blanks b t →
      blanks ("-" :: "-" :: body ++ b) t.

(** [t] starts with neither a space nor a comment. *)
Definition not_blank (t : chars) : Prop :=
  match t with
  | [] => True
  | c :: t' => IsWhitespace c = false ∧ (c = "-" → stops (λ d, Ascii.eqb d "-") t')
  end.

(** [t] starts with a fraction. *)
Definition fraction (t : chars) : bool :=
  match t with c :: d :: _ => Ascii.eqb c "." && IsDigit d | _ => false end.

(** A string with its quotes doubled. *)
Definition escape (v : chars) : chars :=
  v ≫= λ c, if Ascii.eqb c quote then [quote; quote] else [c].

Definition word_type (w : chars) : TokenType := default TokenType.kIdentifier (keyword_find (ToUpper w)).

(** Operators, with the characters that would extend them. *)
Definition operators : list (chars * TokenType * (ascii → bool)) :=
  [ (["*"], TokenType.kStar, λ _, false); ([","], TokenType.kComma, λ _, false);
    (["("], TokenType.kLParen, λ _, false); ([")"], TokenType.kRParen, λ _, false);
    ([";"], TokenType.kSemicolon, λ _, false); (["."], TokenType.kDot, λ _, false);
    (["="], TokenType.kEq, λ _, false);
    (["!"; "="], TokenType.kNeq, λ _, false);
    (["<"; "="], TokenType.kLte, λ _, false); (["<"; ">"], TokenType.kNeq, λ _, false);
    ([">"; "="], TokenType.kGte, λ _, false);
    (["<"], TokenType.kLt, λ c, Ascii.eqb c "=" || Ascii.eqb c ">");
    ([">"], TokenType.kGt, λ c, Ascii.eqb c "=") ].

(** [spells ty lexeme text t]: [text], before [t], is a token. *)
Inductive spells : TokenType → chars → chars → chars → Prop :=
  | spells_int a t :
      a ≠ [] → forallb IsDigit a = true → stops IsDigit t → fraction t = false →
      spells TokenType.kIntLiteral a a t
  | spells_float a f t :
      a ≠ [] → forallb IsDigit a = true → f ≠ [] → forallb IsDigit f = true → stops IsDigit t →
      spells TokenType.kFloatLiteral (a ++ "." :: f) (a ++ "." :: f) t
  | spells_string v t :
      stops (λ c, Ascii.eqb c quote) t →
      spells TokenType.kStringLiteral v (quote :: escape v ++ [quote]) t
  | spells_word c w t :
      IsAlpha c = true → forallb IsAlphaNumeric w = true → stops IsAlphaNumeric t →
      spells (word_type (c :: w)) (c :: w) (c :: w) t
  | spells_operator op ty ext t :
      (op, ty, ext) ∈ operators → stops ext t → spells ty op op t.

Definition starts_operator (c : ascii) (t : chars) : bool :=
  bool_decide (c ∈ ["*"; ","; "("; ")"; ";"; "."; "="; "<"; ">"]) ||
  (Ascii.eqb c "!" && goes (λ d, Ascii.eqb d "=") t).

(** What cannot start a token: a string without its end, or a character that
    begins none. *)
Inductive misspelt : chars → Prop :=
  | misspelt_string v : misspelt (quote :: escape v)
  | misspelt_char c t :
      IsDigit c = false → IsAlpha c = false → c ≠ quote → starts_operator c t = false →
      misspelt (c :: t).

(** [lexes pos text toks]: a text at position [pos] is blanks and tokens. *)
Inductive lexes : nat → chars → list Token → Prop :=
  | lexes_end pos b : blanks b [] → lexes pos b [mkToken TokenType.kEndOfInput [] (pos + length b)]
  | lexes_token pos b ty lexeme text t toks :
      blanks b (text ++ t) → spells ty lexeme text t →
      lexes (pos + length b + length text) t toks →
      lexes pos (b ++ text ++ t) (mkToken ty lexeme (pos + length b) :: toks).

(** Blanks and tokens up to something that is neither. *)
Inductive fails : chars → Prop :=
  | fails_here b t : blanks b t → not_blank t → misspelt t → fails (b ++ t)
  | fails_later b ty lexeme text t :
      blanks b (text ++ t) → spells ty lexeme text t → fails t → fails (b ++ text ++ t).

(** ** Lemmas: the cursor *)

(** The cursor between [pre] and [rest]. *)
Definition at_ (pre rest : chars) : Lexer := mkLexer (pre ++ rest) (length pre).

Lemma AtEnd_at pre rest : AtEnd (at_ pre rest) = negb (goes (λ _, true) rest).
Proof.
  unfold AtEnd, at_. cbn [source_ pos_]. rewrite length_app.
  destruct rest; cbn [goes length negb].
  - apply Nat.leb_le. lia.
  - apply Nat.leb_gt. lia.
Qed.

Lemma Peek_at pre rest : Peek (at_ pre rest) = match rest with [] => nul | c :: _ => c end.
Proof.
  unfold Peek. rewrite AtEnd_at. destruct rest; cbn [goes negb]; [done|].
  unfold at_. cbn [source_ pos_]. by rewrite list_lookup_middle.
Qed.

Lemma PeekNext_at pre rest : PeekNext (at_ pre rest) = match rest with _ :: d :: _ => d | _ => nul end.
Proof.
  unfold PeekNext, at_. cbn [source_ pos_]. rewrite length_app.
  destruct rest as [|c [|d rest]]; cbn [length]; match goal with |- context [(?x <? ?y)%nat] => destruct (Nat.ltb_spec x y) end; try lia; try done.
  rewrite lookup_app_r by lia. by replace (S (length pre) - length pre)%nat with 1%nat by lia.
Qed.

Lemma Advance_at pre c rest : Advance (at_ pre (c :: rest)) = Some (c, at_ (pre ++ [c]) rest).
Proof.
  unfold Advance, at_. cbn [source_ pos_]. rewrite list_lookup_middle by done. cbn.
  rewrite <- app_assoc, length_app. cbn. by rewrite Nat.add_1_r.
Qed.

Lemma text_fuel_at pre rest : text_fuel (at_ pre rest) = S (length pre + length rest).
Proof. unfold text_fuel, at_. cbn. by rewrite length_app. Qed.

(** [!AtEnd() && p(Peek())]. *)
Lemma next_at p pre rest : negb (AtEnd (at_ pre rest)) && p (Peek (at_ pre rest)) = goes p rest.
Proof. rewrite AtEnd_at, Peek_at. by destruct rest. Qed.

(** ** Lemmas: the scanning functions on the texts of the grammar *)

Lemma advance_while_run p a fuel pre acc t :
  forallb p a = true → stops p t → (length a < fuel)%nat →
  advance_while fuel p acc (at_ pre (a ++ t)) = Some (acc ++ a, at_ (pre ++ a) t).
Proof.
  revert fuel pre acc. induction a as [|c a IH]; intros [|fuel] pre acc Ha Ht Hf; simpl in Hf; try lia;
    cbn [advance_while]; rewrite next_at.
  - cbn [app]. rewrite Ht, !app_nil_r. done.
  - cbn [forallb app goes] in *. apply andb_true_iff in Ha as [Hc Ha]. rewrite Hc.
    erewrite bind_Some by apply Advance_at. rewrite IH by (done || lia).
    by rewrite <- !app_assoc.
Qed.

Lemma skip_run b t :
  blanks b t → not_blank t → ∀ fuel pre, (length b < fuel)%nat →
  skip_loop fuel (at_ pre (b ++ t)) = Some (tt, at_ (pre ++ b) t).
Proof.
  intros Hb Hn. induction Hb as [t|c b t Hc Hb IH|body b t Hbody Hstop Hb IH];
    intros [|fuel] pre Hf; simpl in Hf; try lia; cbn [skip_loop]; rewrite AtEnd_at, Peek_at.
  - rewrite app_nil_l, app_nil_r. destruct t as [|c t]; [done|]. cbn [goes negb].
    destruct Hn as [-> Hd]. destruct (Ascii.eqb_spec c "-") as [->|]; [|done].
    rewrite PeekNext_at. cbn [andb]. specialize (Hd eq_refl). unfold stops in Hd.
    destruct t as [|d t]; [done|]. cbn in Hd. by rewrite Hd.
  - cbn [app goes negb]. rewrite Hc. erewrite bind_Some by apply Advance_at.
    rewrite IH by (done || lia). by rewrite <- app_assoc.
  - rewrite PeekNext_at. cbn [app goes negb].
    change (IsWhitespace "-") with false. change (Ascii.eqb "-" "-") with true. cbn [andb].
    erewrite bind_Some.
    2:{ rewrite text_fuel_at. rewrite <- app_assoc.
        change ("-" :: "-" :: body ++ b ++ t) with (("-" :: "-" :: body) ++ b ++ t).
        apply advance_while_run; [done|done|]. rewrite !length_app. simpl. lia. }
    rewrite length_app in Hf. rewrite IH by (done || lia). by rewrite <- app_assoc.
Qed.

Lemma number_run_int a t pre :
  forallb IsDigit a = true → stops IsDigit t → fraction t = false →
  ScanNumber (at_ pre (a ++ t)) = Some (mkToken TokenType.kIntLiteral a (length pre), at_ (pre ++ a) t).
Proof.
  intros Ha Ht Hf. unfold ScanNumber. rewrite text_fuel_at.
  erewrite bind_Some by (apply advance_while_run; [done..|rewrite length_app; lia]).
  rewrite bind_gets, AtEnd_at, Peek_at, PeekNext_at.
  destruct t as [|c [|d t]]; [done| |].
  - cbn. by rewrite andb_false_r.
  - cbn in Hf |- *. by rewrite Hf.
Qed.

Lemma number_run_float a f t pre :
  forallb IsDigit a = true → f ≠ [] → forallb IsDigit f = true → stops IsDigit t →
  ScanNumber (at_ pre ((a ++ "." :: f) ++ t)) =
  Some (mkToken TokenType.kFloatLiteral (a ++ "." :: f) (length pre), at_ (pre ++ a ++ "." :: f) t).
Proof.
  intros Ha Hne Hf Ht. unfold ScanNumber. rewrite text_fuel_at, <- app_assoc. cbn [app].
  erewrite bind_Some by (apply advance_while_run; [done..|rewrite length_app; lia]).
  rewrite bind_gets, AtEnd_at, Peek_at, PeekNext_at.
  assert (IsDigit (match f ++ t with d :: _ => d | [] => nul end) = true) as Hd.
  { destruct f as [|d f]; [done|]. cbn in Hf |- *. by apply andb_true_iff in Hf as [-> _]. }
  cbn [goes negb andb Ascii.eqb Bool.eqb]. rewrite Hd. erewrite bind_Some by apply Advance_at.
  erewrite bind_Some by (apply advance_while_run; [done..|rewrite !length_app; simpl; rewrite length_app; lia]).
  cbn [app]. by rewrite <- !app_assoc.
Qed.

Lemma escape_cons c v :
  escape (c :: v) = (if Ascii.eqb c quote then [quote; quote] else [c]) ++ escape v.
Proof. done. Qed.

Lemma length_escape_cons c v : (length (escape v) < length (escape (c :: v)))%nat.
Proof. rewrite escape_cons, length_app. destruct (Ascii.eqb c quote); simpl; lia. Qed.

(** One character of a string, doubled if it is a quote. *)
Lemma string_step c v u fuel start pre acc :
  string_loop (S fuel) start acc (at_ pre (escape (c :: v) ++ u)) =
  string_loop fuel start (acc ++ [c])
    (at_ (pre ++ (if Ascii.eqb c quote then [quote; quote] else [c])) (escape v ++ u)).
Proof.
  cbn [string_loop]. rewrite AtEnd_at, escape_cons, <- app_assoc.
  destruct (Ascii.eqb_spec c quote) as [->|Hc]; cbn [app goes negb]; erewrite bind_Some by apply Advance_at.
  - rewrite Ascii.eqb_refl. rewrite bind_gets, (next_at (λ d, Ascii.eqb d quote)). cbn [goes]. rewrite Ascii.eqb_refl.
    erewrite bind_Some by apply Advance_at. by rewrite <- app_assoc.
  - by apply Ascii.eqb_neq in Hc as ->.
Qed.

Lemma string_run v t start :
  stops (λ c, Ascii.eqb c quote) t → ∀ fuel pre acc, (length (escape v) < fuel)%nat →
  string_loop fuel start acc (at_ pre (escape v ++ quote :: t)) =
  Some (Ok (mkToken TokenType.kStringLiteral (acc ++ v) start), at_ (pre ++ escape v ++ [quote]) t).
Proof.
  intros Ht. induction v as [|c v IH]; intros [|fuel] pre acc Hf; try lia.
  - cbn [string_loop]. rewrite AtEnd_at. cbn [escape mbind list_bind app goes negb].
    erewrite bind_Some by apply Advance_at. rewrite Ascii.eqb_refl. rewrite bind_gets, (next_at (λ d, Ascii.eqb d quote)), Ht.
    by rewrite app_nil_r.
  - pose proof (length_escape_cons c v). rewrite string_step, IH by lia.
    rewrite escape_cons, <- !app_assoc. done.
Qed.

Lemma string_run_unterminated v start :
  ∀ fuel pre acc, (length (escape v) < fuel)%nat →
  ∃ e l, string_loop fuel start acc (at_ pre (escape v)) = Some (Err e, l) ∧ code_ e = kInvalidArgument.
Proof.
  induction v as [|c v IH]; intros [|fuel] pre acc Hf; try lia.
  - cbn [string_loop]. rewrite AtEnd_at. by eexists _, _.
  - pose proof (length_escape_cons c v). pose proof (string_step c v [] fuel start pre acc) as E.
    rewrite !app_nil_r in E. rewrite E. apply IH. lia.
Qed.

Lemma word_run w t pre :
  forallb IsAlphaNumeric w = true → stops IsAlphaNumeric t →
  ScanIdentifierOrKeyword (at_ pre (w ++ t)) = Some (mkToken (word_type w) w (length pre), at_ (pre ++ w) t).
Proof.
  intros Hw Ht. unfold ScanIdentifierOrKeyword. rewrite text_fuel_at.
  erewrite bind_Some by (apply advance_while_run; [done..|rewrite length_app; lia]).
  cbn [app]. unfold word_type. by destruct (keyword_find (ToUpper w)).
Qed.

Lemma if_next_at c yes no pre t :
  if_next c yes no (at_ pre t) =
  if goes (λ d, Ascii.eqb d c) t then Some (yes, at_ (pre ++ [c]) (tail t)) else no (at_ pre t).
Proof.
  unfold if_next. rewrite (next_at (λ d, Ascii.eqb d c)). destruct t as [|d t]; cbn [goes tail]; [done|].
  destruct (Ascii.eqb_spec d c) as [->|]; [|done]. by erewrite bind_Some by apply Advance_at.
Qed.

Lemma operator_run op ty ext t pre :
  (op, ty, ext) ∈ operators → stops ext t →
  ScanOperatorOrPunctuation (at_ pre (op ++ t)) = Some (mkToken ty op (length pre), at_ (pre ++ op) t).
Proof.
  intros Hin Ht. unfold operators in Hin.
  repeat (apply elem_of_cons in Hin as [[= -> -> ->]|Hin]);
    try (unfold ScanOperatorOrPunctuation; cbn [app]; erewrite bind_Some by apply Advance_at;
         cbv beta iota; rewrite ?if_next_at; cbn [goes tail]; rewrite <- ?app_assoc; reflexivity).
  - unfold ScanOperatorOrPunctuation; cbn [app]; erewrite bind_Some by apply Advance_at.
    cbv beta iota. rewrite !if_next_at. unfold stops in Ht. destruct t as [|c t]; [done|]. cbn [goes] in *.
    by apply orb_false_iff in Ht as [-> ->].
  - unfold ScanOperatorOrPunctuation; cbn [app]; erewrite bind_Some by apply Advance_at.
    cbv beta iota. rewrite !if_next_at. unfold stops in Ht. by rewrite Ht.
  - by apply elem_of_nil in Hin.
Qed.

Lemma no_operator_run c t pre :
  starts_operator c t = false →
  ∃ tok l, ScanOperatorOrPunctuation (at_ pre (c :: t)) = Some (tok, l) ∧ tok_type tok = TokenType.kInvalid.
Proof.
  intros Hs. unfold starts_operator in Hs. apply orb_false_iff in Hs as [Hc He].
  apply bool_decide_eq_false in Hc. unfold ScanOperatorOrPunctuation. erewrite bind_Some by apply Advance_at.
  destruct (Ascii.eqb_spec c "!") as [->|Hne].
  { cbv beta iota. rewrite if_next_at. cbn [Ascii.eqb Bool.eqb andb] in He. rewrite He. eexists _, _. split; reflexivity. }
  destruct c as [[] [] [] [] [] [] [] []]; try (eexists _, _; split; reflexivity); exfalso;
    first [by apply Hne|by apply Hc; set_solver].
Qed.

(** ** Lemmas: the classes of characters are disjoint *)

Lemma digit_class c : IsDigit c = true → IsWhitespace c = false ∧ c ≠ "-".
Proof. destruct c as [[] [] [] [] [] [] [] []]; vm_compute; intros [=]; by split. Qed.

Lemma alpha_class c : IsAlpha c = true → IsDigit c = false ∧ IsWhitespace c = false ∧ c ≠ "-".
Proof. destruct c as [[] [] [] [] [] [] [] []]; vm_compute; intros [=]; by split_and!. Qed.

(** The first character of an operator. *)
Lemma operator_head op ty ext :
  (op, ty, ext) ∈ operators →
  ty ≠ TokenType.kInvalid ∧ ty ≠ TokenType.kEndOfInput ∧
  ∃ c op', op = c :: op' ∧ IsDigit c = false ∧ IsAlpha c = false ∧ IsWhitespace c = false ∧
           c ≠ "-" ∧ c ≠ quote.
Proof.
  intros Hin. unfold operators in Hin.
  repeat (apply elem_of_cons in Hin as [[= -> -> ->]|Hin]);
    try by (split_and!; [done|done|]; eexists _, _; split_and!).
  by apply elem_of_nil in Hin.
Qed.

Lemma spells_not_blank ty lexeme text t : spells ty lexeme text t → not_blank (text ++ t).
Proof.
  destruct 1 as [a t Ha Hd|a f t Ha Hd|v t|c w t Hc|op ty ext t Hop].
  - destruct a as [|c a]; [done|]. cbn in Hd |- *. apply andb_true_iff in Hd as [[??]%digit_class _]. done.
  - destruct a as [|c a]; [done|]. cbn in Hd |- *. apply andb_true_iff in Hd as [[??]%digit_class _]. done.
  - done.
  - apply alpha_class in Hc as (? & ? & ?). done.
  - apply operator_head in Hop as (_ & _ & c & op' & -> & ? & ? & ? & ? & ?). done.
Qed.

Lemma keyword_find_in s ty : keyword_find s = Some ty → ty ∈ KeywordTable.*2.
Proof.
  unfold keyword_find. destruct (list_find _ _) as [[i e]|] eqn:E; [|done]. intros [= <-].
  apply list_find_Some in E as (Hi & _ & _). apply list_elem_of_fmap. exists e. split; [done|].
  by eapply list_elem_of_lookup_2.
Qed.

Lemma word_type_proper w : word_type w ≠ TokenType.kEndOfInput.
Proof.
  unfold word_type. destruct (keyword_find (ToUpper w)) as [ty|] eqn:E; [|done]. cbn. intros ->.
  apply keyword_find_in in E.
  assert (bool_decide (TokenType.kEndOfInput ∈ KeywordTable.*2) = false) as Hb by (vm_compute; reflexivity).
  by apply bool_decide_eq_false in Hb.
Qed.

Lemma spells_type ty lexeme text t :
  spells ty lexeme text t → ty ≠ TokenType.kEndOfInput ∧ (0 < length text)%nat.
Proof.
  destruct 1 as [a t Ha Hd|a f t Ha Hd|v t|c w t Hc|op ty ext t Hop].
  - split; [done|]. destruct a; [done|simpl; lia].
  - split; [done|]. rewrite length_app. simpl. lia.
  - split; [done|simpl; lia].
  - split; [apply word_type_proper|simpl; lia].
  - apply operator_head in Hop as (_ & ? & c & op' & -> & _). split; [done|simpl; lia].
Qed.

(** ** Lemmas: one token, all tokens *)

Lemma skip_at b t pre :
  blanks b t → not_blank t →
  SkipWhitespaceAndComments (at_ pre (b ++ t)) = Some (tt, at_ (pre ++ b) t).
Proof.
  intros. unfold SkipWhitespaceAndComments. apply skip_run; [done..|].
  rewrite text_fuel_at, length_app. lia.
Qed.

Lemma NextToken_end b pre :
  blanks b [] →
  ∃ l, NextToken (at_ pre b) = Some (Ok (mkToken TokenType.kEndOfInput [] (length pre + length b)), l).
Proof.
  intros Hb. eexists. unfold NextToken. rewrite <- (app_nil_r b) at 1.
  erewrite bind_Some by (by apply skip_at). rewrite AtEnd_at. cbn [goes negb]. unfold ret, Position, at_.
  cbn [pos_]. by rewrite length_app.
Qed.

Lemma NextToken_run b ty lexeme text t pre :
  blanks b (text ++ t) → spells ty lexeme text t →
  NextToken (at_ pre (b ++ text ++ t)) =
  Some (Ok (mkToken ty lexeme (length pre + length b)), at_ (pre ++ b ++ text) t).
Proof.
  intros Hb Hs. unfold NextToken. pose proof (spells_not_blank _ _ _ _ Hs) as Hn.
  erewrite bind_Some by (by apply skip_at). rewrite AtEnd_at, Peek_at, <- length_app, app_assoc.
  destruct Hs as [a t Ha Hd|a f t Ha Hd|v t Ht|c w t Hc Hw|op ty ext t Hop].
  - destruct a as [|c a]; [done|]. cbn [app goes negb].
    assert (IsDigit c = true) as -> by (by apply andb_true_iff in Hd as [-> _]).
    by erewrite bind_Some by (by apply (number_run_int (c :: a))).
  - destruct a as [|c a]; [done|]. cbn [app goes negb].
    assert (IsDigit c = true) as -> by (by apply andb_true_iff in Hd as [-> _]).
    by erewrite bind_Some by (by apply (number_run_float (c :: a))).
  - cbn [app goes negb]. change (IsDigit quote) with false. change (IsAlpha quote) with false.
    rewrite Ascii.eqb_refl. cbv beta iota. unfold ScanString. erewrite bind_Some by apply Advance_at.
    rewrite <- app_assoc, text_fuel_at. cbn [app]. rewrite string_run; [|done|].
    + cbn [app Position at_ pos_]. by rewrite <- !app_assoc.
    + cbn [length]. rewrite !length_app. lia.
  - cbn [app goes negb]. destruct (alpha_class c Hc) as (-> & _). rewrite Hc.
    erewrite bind_Some; [done|]. apply (word_run (c :: w)); [|done]. cbn. unfold IsAlphaNumeric at 1. by rewrite Hc.
  - destruct (operator_head _ _ _ Hop) as (Hi & _ & c & op' & -> & Hd & Ha & _ & _ & Hq).
    cbn [app goes negb]. rewrite Hd, Ha. apply Ascii.eqb_neq in Hq as ->.
    erewrite bind_Some by (by eapply (operator_run (c :: op'))). cbn [tok_type]. by rewrite decide_False.
Qed.

Lemma NextToken_misspelt b t pre :
  blanks b t → not_blank t → misspelt t →
  ∃ e l, NextToken (at_ pre (b ++ t)) = Some (Err e, l) ∧ code_ e = kInvalidArgument.
Proof.
  intros Hb Hn Hm. unfold NextToken. erewrite bind_Some by (by apply skip_at). rewrite AtEnd_at, Peek_at.
  destruct Hm as [v|c t Hd Ha Hq Hs]; cbn [goes negb].
  - change (IsDigit quote) with false. change (IsAlpha quote) with false.
    rewrite Ascii.eqb_refl. cbv beta iota. unfold ScanString. erewrite bind_Some by apply Advance_at.
    apply string_run_unterminated. rewrite text_fuel_at. simpl. lia.
  - rewrite Hd, Ha. apply Ascii.eqb_neq in Hq as ->.
    destruct (no_operator_run c t (pre ++ b) Hs) as (tok & l & E & Ht). erewrite bind_Some by done.
    rewrite decide_True by done. by eexists _, _.
Qed.

Lemma tokenize_run pos text toks :
  lexes pos text toks → ∀ fuel pre acc, length pre = pos → (length text < fuel)%nat →
  ∃ l, tokenize_loop fuel acc (at_ pre text) = Some (Ok (acc ++ toks), l).
Proof.
  induction 1 as [pos b Hb|pos b ty lexeme text t toks Hb Hs _ IH]; intros [|fuel] pre acc <- Hf; try lia;
    cbn [tokenize_loop].
  - destruct (NextToken_end b pre Hb) as [l E]. erewrite bind_Some by exact E. cbn [tok_type].
    rewrite decide_True by done. by eexists.
  - erewrite bind_Some by (by apply NextToken_run). cbn [tok_type].
    destruct (spells_type _ _ _ _ Hs) as [Hty Hlen]. rewrite decide_False by done.
    rewrite !length_app in Hf. destruct (IH fuel (pre ++ b ++ text) (acc ++ [mkToken ty lexeme (length pre + length b)]))
      as [l E]; [rewrite !length_app; lia|lia|]. exists l. by rewrite E, <- app_assoc.
Qed.

Lemma tokenize_fails text :
  fails text → ∀ fuel pre acc, (length text < fuel)%nat →
  ∃ e l, tokenize_loop fuel acc (at_ pre text) = Some (Err e, l) ∧ code_ e = kInvalidArgument.
Proof.
  induction 1 as [b t Hb Hn Hm|b ty lexeme text t Hb Hs _ IH]; intros [|fuel] pre acc Hf; try lia;
    cbn [tokenize_loop].
  - destruct (NextToken_misspelt b t pre Hb Hn Hm) as (e & l & E & ?). erewrite bind_Some by exact E.
    by eexists _, _.
  - erewrite bind_Some by (by apply NextToken_run). cbn [tok_type].
    destruct (spells_type _ _ _ _ Hs) as [Hty Hlen]. rewrite decide_False by done.
    rewrite !length_app in Hf. apply IH. lia.
Qed.

(** ** Lemmas: every text lexes or fails *)

Lemma span_exists p (s : chars) : ∃ a t, s = a ++ t ∧ forallb p a = true ∧ stops p t.
Proof.
  induction s as [|c s (a & t & -> & Ha & Ht)]; [by exists [], []|].
  destruct (p c) eqn:Hc.
  - exists (c :: a), t. cbn. by rewrite Hc.
  - by exists [], (c :: a ++ t).
Qed.

Lemma blanks_exist s : ∃ b t, s = b ++ t ∧ blanks b t ∧ not_blank t.
Proof.
  induction s as [s IH] using (induction_ltof1 _ length). unfold ltof in IH.
  destruct s as [|c s]; [exists [], []; split_and!; [done|constructor|done]|].
  destruct (IsWhitespace c) eqn:Hc.
  { destruct (IH s) as (b & t & -> & ? & ?); [simpl; lia|].
    exists (c :: b), t. split_and!; [done|by constructor|done]. }
  destruct (Ascii.eqb_spec c "-") as [->|Hd].
  2:{ exists [], (c :: s). split_and!; [done|apply blanks_nil|by split]. }
  destruct s as [|d s]; [exists [], ["-"]; split_and!; [done|apply blanks_nil|done]|].
  destruct (Ascii.eqb_spec d "-") as [->|Hd].
  2:{ exists [], ("-" :: d :: s). split_and!; [done|apply blanks_nil|]. split; [done|].
      intros _. by apply Ascii.eqb_neq. }
  destruct (span_exists in_comment s) as (body & u & -> & Hbody & Hu).
  destruct (IH u) as (b & t & -> & ? & ?); [simpl; rewrite length_app; lia|].
  exists ("-" :: "-" :: body ++ b), t. split_and!; [by rewrite <- !app_comm_cons, <- app_assoc| |done].
  by constructor.
Qed.

Lemma string_exists s :
  (∃ v t, s = escape v ++ quote :: t ∧ stops (λ c, Ascii.eqb c quote) t) ∨ (∃ v, s = escape v).
Proof.
  induction s as [s IH] using (induction_ltof1 _ length). unfold ltof in IH.
  destruct s as [|c s]; [by right; exists []|].
  destruct (Ascii.eqb_spec c quote) as [->|Hc].
  - destruct s as [|d s]; [by left; exists [], []|].
    destruct (Ascii.eqb_spec d quote) as [->|Hd].
    + destruct (IH s) as [(v & t & -> & ?)|(v & ->)]; [simpl; lia| |].
      * left. by exists (quote :: v), t.
      * right. by exists (quote :: v).
    + left. exists [], (d :: s). split; [done|]. by apply Ascii.eqb_neq.
  - assert (∀ v, c :: escape v = escape (c :: v)) as He.
    { intros v. rewrite escape_cons. by apply Ascii.eqb_neq in Hc as ->. }
    destruct (IH s) as [(v & t & -> & ?)|(v & ->)]; [simpl; lia| |].
    + left. exists (c :: v), t. by rewrite <- He.
    + right. by exists (c :: v).
Qed.

Lemma stops_never t : stops (λ _, false) t.
Proof. by destruct t. Qed.

(** The entry of [operators] for an operator. *)
Ltac find_operator := unfold operators; solve [repeat first [apply list_elem_of_here|apply list_elem_of_further]].

Lemma operator_exists c t :
  starts_operator c t = true → ∃ ty op t', c :: t = op ++ t' ∧ spells ty op op t'.
Proof.
  intros Hs. unfold starts_operator in Hs. apply orb_true_iff in Hs as [Hs|Hs].
  - apply bool_decide_eq_true in Hs.
    repeat (apply elem_of_cons in Hs as [->|Hs]);
      try (eexists _, [_], t; split; [reflexivity|]; eapply spells_operator;
           [find_operator|apply stops_never]).
    + destruct (goes (λ d, Ascii.eqb d "=") t) eqn:He; [|destruct (goes (λ d, Ascii.eqb d ">") t) eqn:Hg].
      * destruct t as [|d t]; [done|]. cbn in He. apply Ascii.eqb_eq in He as ->.
        eexists _, ["<"; "="], t. split; [done|]. eapply spells_operator; [find_operator|apply stops_never].
      * destruct t as [|d t]; [done|]. cbn in Hg. apply Ascii.eqb_eq in Hg as ->.
        eexists _, ["<"; ">"], t. split; [done|]. eapply spells_operator; [find_operator|apply stops_never].
      * exists TokenType.kLt, ["<"], t. split; [done|].
        eapply (spells_operator _ _ (λ c, Ascii.eqb c "=" || Ascii.eqb c ">")); [find_operator|].
        destruct t as [|d t]; [done|]. unfold stops. cbn in *. by rewrite He, Hg.
    + destruct (goes (λ d, Ascii.eqb d "=") t) eqn:He.
      * destruct t as [|d t]; [done|]. cbn in He. apply Ascii.eqb_eq in He as ->.
        eexists _, [">"; "="], t. split; [done|]. eapply spells_operator; [find_operator|apply stops_never].
      * exists TokenType.kGt, [">"], t. split; [done|].
        eapply (spells_operator _ _ (λ c, Ascii.eqb c "=")); [find_operator|done].
    + by apply elem_of_nil in Hs.
  - apply andb_true_iff in Hs as [->%Ascii.eqb_eq He]. destruct t as [|d t]; [done|]. cbn in He.
    apply Ascii.eqb_eq in He as ->.
    eexists _, ["!"; "="], t. split; [done|]. eapply spells_operator; [find_operator|apply stops_never].
Qed.

Lemma token_exists s :
  s ≠ [] →
  (∃ ty lexeme text t, s = text ++ t ∧ spells ty lexeme text t) ∨ misspelt s.
Proof.
  intros Hne. destruct s as [|c s]; [done|].
  destruct (IsDigit c) eqn:Hd; [|destruct (IsAlpha c) eqn:Ha; [|destruct (Ascii.eqb_spec c quote) as [->|Hq]]].
  - left. destruct (span_exists IsDigit (c :: s)) as (a & t & E & Ha & Ht). rewrite E.
    assert (a ≠ []) as Hn.
    { intros ->. cbn in E. subst t. unfold stops in Ht. cbn in Ht. congruence. }
    destruct (fraction t) eqn:Hf; [|by repeat eexists; apply spells_int].
    destruct t as [|d [|e t]]; [done..|]. cbn in Hf. apply andb_true_iff in Hf as [->%Ascii.eqb_eq He].
    destruct (span_exists IsDigit (e :: t)) as (f & u & E' & Hf & Hu). rewrite E'.
    exists TokenType.kFloatLiteral, (a ++ "." :: f), (a ++ "." :: f), u. rewrite <- app_assoc. split; [done|].
    apply spells_float; [done..| |done|done].
    intros ->. cbn in E'. subst u. unfold stops in Hu. cbn in Hu. congruence.
  - left. destruct (span_exists IsAlphaNumeric s) as (w & t & -> & ? & ?).
    exists (word_type (c :: w)), (c :: w), (c :: w), t. split; [done|by apply spells_word].
  - destruct (string_exists s) as [(v & t & -> & ?)|(v & ->)]; [left|right; constructor].
    exists TokenType.kStringLiteral, v, (quote :: escape v ++ [quote]), t.
    split; [by rewrite <- app_comm_cons, <- app_assoc|by constructor].
  - destruct (starts_operator c s) eqn:Hs; [left|right; by constructor].
    destruct (operator_exists c s Hs) as (ty & op & t & -> & ?). by exists ty, op, op, t.
Qed.

Lemma lexes_or_fails s : ∀ pos, (∃ toks, lexes pos s toks) ∨ fails s.
Proof.
  induction s as [s IH] using (induction_ltof1 _ length). unfold ltof in IH. intros pos.
  destruct (blanks_exist s) as (b & t & -> & Hb & Hn).
  destruct (decide (t = [])) as [->|Hne].
  { left. rewrite app_nil_r. eexists. by apply lexes_end. }
  destruct (token_exists t Hne) as [(ty & lexeme & text & u & -> & Hs)|Hm].
  2:{ right. by apply fails_here. }
  destruct (spells_type _ _ _ _ Hs) as [_ Hl].
  destruct (IH u) with (pos := (pos + length b + length text)%nat) as [[toks ?]|?].
  - rewrite !length_app. lia.
  - left. eexists. by eapply lexes_token.
  - right. by eapply fails_later.
Qed.

Lemma TokenizeAll_lexes src toks : lexes 0 src toks → TokenizeAll src = Some (Ok toks).
Proof.
  intros H. destruct (tokenize_run _ _ _ H (S (length src)) [] []) as [l E]; [done|lia|].
  unfold TokenizeAll. change (mkLexer src 0) with (at_ [] src). by rewrite E.
Qed.

Lemma TokenizeAll_fails src :
  fails src → ∃ e, TokenizeAll src = Some (Err e) ∧ code_ e = kInvalidArgument.
Proof.
  intros H. destruct (tokenize_fails _ H (S (length src)) [] []) as (e & l & E & ?); [lia|].
  exists e. unfold TokenizeAll. change (mkLexer src 0) with (at_ [] src). by rewrite E.
Qed.

Lemma TokenizeAll_sound src toks : TokenizeAll src = Some (Ok toks) → lexes 0 src toks.
Proof.
  intros E. destruct (lexes_or_fails src 0) as [[toks' H]|H].
  - pose proof (TokenizeAll_lexes _ _ H). by simplify_eq.
  - destruct (TokenizeAll_fails _ H) as (e & ? & _). by simplify_eq.
Qed.

(** ** Printing tokens *)

Definition token_text (ty : TokenType) (lexeme : chars) : chars :=
  if decide (ty = TokenType.kStringLiteral) then quote :: escape lexeme ++ [quote] else lexeme.

(** The tokens with one space after each. *)
Fixpoint print_tokens (toks : list Token) : chars :=
  match toks with
  | [] => []
  | tok :: toks' =>
      if decide (tok_type tok = TokenType.kEndOfInput) then []
      else token_text (tok_type tok) (tok_lexeme tok) ++ " " :: print_tokens toks'
  end.

(** The same tokens at the positions they are printed at. *)
Fixpoint relocate (pos : nat) (toks : list Token) : list Token :=
  match toks with
  | [] => []
  | tok :: toks' =>
      mkToken (tok_type tok) (tok_lexeme tok) pos ::
      relocate (pos + length (token_text (tok_type tok) (tok_lexeme tok)) + 1) toks'
  end.

Lemma word_type_not_string w : word_type w ≠ TokenType.kStringLiteral.
Proof.
  unfold word_type. destruct (keyword_find (ToUpper w)) as [ty|] eqn:E; [|done]. cbn. intros ->.
  apply keyword_find_in in E.
  assert (bool_decide (TokenType.kStringLiteral ∈ KeywordTable.*2) = false) as Hb by (vm_compute; reflexivity).
  by apply bool_decide_eq_false in Hb.
Qed.

(** A token is spelt the same before a space. *)
Lemma spells_before_space ty lexeme text t u :
  spells ty lexeme text t → text = token_text ty lexeme ∧ spells ty lexeme text (" " :: u).
Proof.
  unfold token_text. destruct 1 as [a t Ha Hd|a f t Ha Hd|v t Ht|c w t Hc Hw|op ty ext t Hop].
  - split; [done|by apply spells_int; [..|destruct u]].
  - split; [done|by apply spells_float].
  - split; [done|by apply spells_string].
  - split; [by rewrite decide_False by apply word_type_not_string|by apply spells_word].
  - assert (ty ≠ TokenType.kStringLiteral ∧ ext " " = false) as [? ?].
    { unfold operators in Hop. repeat (apply elem_of_cons in Hop as [[= -> -> ->]|Hop]); [by split..|].
      by apply elem_of_nil in Hop. }
    split; [by rewrite decide_False|by eapply spells_operator].
Qed.

Lemma lexes_print pos src toks :
  lexes pos src toks → ∀ pos' b, b = [] ∨ b = [" "] →
  lexes pos' (b ++ print_tokens toks) (relocate (pos' + length b) toks).
Proof.
  induction 1 as [pos b0 Hb|pos b0 ty lexeme text t toks Hb Hs Hl IH]; intros pos' b Hsp.
  - cbn [print_tokens tok_type]. rewrite decide_True, app_nil_r by done. cbn [relocate tok_type tok_lexeme].
    apply lexes_end. destruct Hsp as [->| ->]; repeat constructor.
  - destruct (spells_before_space _ _ _ _ (print_tokens toks) Hs) as [-> Hs'].
    destruct (spells_type _ _ _ _ Hs) as [Hty _].
    cbn [print_tokens relocate tok_type tok_lexeme]. rewrite decide_False by done.
    apply lexes_token with (text := token_text ty lexeme); [|done|].
    + destruct Hsp as [->| ->]; repeat constructor.
    + specialize (IH (pos' + length b + length (token_text ty lexeme))%nat [" "] (or_intror eq_refl)).
      exact IH.
Qed.

(** ** The theorems *)

(** C30: the tokenizer decides the lexical grammar.  It returns on every text;
    it returns tokens exactly for the texts that are blanks and tokens (each
    as long as it can be), and then the tokens of that reading with their
    positions; for every other text, one with an unterminated string or a
    character that starts no token after a readable prefix, it returns an
    invalid-argument error. *)
Theorem tokenizer_correct src :
  (∃ r, TokenizeAll src = Some r) ∧
  (∀ toks, TokenizeAll src = Some (Ok toks) ↔ lexes 0 src toks) ∧
  ((∃ e, TokenizeAll src = Some (Err e)) ↔ fails src) ∧
  (∀ e, TokenizeAll src = Some (Err e) → code_ e = kInvalidArgument).
Proof.
  split_and!.
  - destruct (lexes_or_fails src 0) as [[toks H]|H].
    + eexists. by apply TokenizeAll_lexes.
    + destruct (TokenizeAll_fails _ H) as (e & ? & _). by eexists.
  - intros toks. split; [apply TokenizeAll_sound|apply TokenizeAll_lexes].
  - split.
    + intros [e E]. destruct (lexes_or_fails src 0) as [[toks H]|H]; [|done].
      apply TokenizeAll_lexes in H. by simplify_eq.
    + intros (e & ? & _)%TokenizeAll_fails. by eexists.
  - intros e E. destruct (lexes_or_fails src 0) as [[toks H]|H].
    + apply TokenizeAll_lexes in H. by simplify_eq.
    + destruct (TokenizeAll_fails _ H) as (e' & ? & ?). by simplify_eq.
Qed.

(** Printing is undone by tokenizing.  The tokens of a text, printed with
    single spaces (strings quoted, their quotes doubled), are read back as the
    same tokens at their new positions; so string contents, whatever they
    hold, never leak into the surrounding statement. *)
Theorem tokenizer_roundtrip src toks :
  TokenizeAll src = Some (Ok toks) →
  TokenizeAll (print_tokens toks) = Some (Ok (relocate 0 toks)).
Proof.
  intros H%TokenizeAll_sound. apply TokenizeAll_lexes.
  exact (lexes_print _ _ _ H 0 [] (or_introl eq_refl)).
Qed.

Lemma tokenizer_roundtrip_witness :
  ∃ toks, TokenizeAll (String.list_ascii_of_string "WHERE(a>='o''k')") = Some (Ok toks) ∧
    print_tokens toks = String.list_ascii_of_string "WHERE ( a >= 'o''k' ) " ∧
    TokenizeAll (print_tokens toks) = Some (Ok (relocate 0 toks)).
Proof.
  eexists. split; [vm_compute; reflexivity|]. split; [vm_compute; reflexivity|].
  apply (tokenizer_roundtrip (String.list_ascii_of_string "WHERE(a>='o''k')")). vm_compute. reflexivity.
Defined.
