(* ===== verification/Ast.v ===== *)
(** * The syntax tree: src/parser/ast.hpp *)

From S2P Require Import Prelude Util Value.

Inductive BinaryOp := kEq | kNeq | kLt | kLte | kGt | kGte | kAnd | kOr.

#[export] Instance BinaryOp_eq_dec : EqDecision BinaryOp.
Proof. solve_decision. Defined.

(** [Expr] and the alternatives of its variant. *)
Inductive Expr :=
  | ColumnRefExpr (column : string)
  | LiteralExpr (value : Value)
  | BinaryExpr (lhs : Expr) (op : BinaryOp) (rhs : Expr).

#[export] Instance Expr_eq_dec : EqDecision Expr.
Proof. solve_decision. Defined.

Inductive AggregateFunc := kCount | kSum | kAvg | kMin | kMax.

#[export] Instance AggregateFunc_eq_dec : EqDecision AggregateFunc.
Proof. solve_decision. Defined.

Record SelectItem := mkItem {
  is_star : bool;
  item_column : option string;
  item_aggregate : option AggregateFunc;
  aggregate_star : bool;
  item_alias : option string
}.

(** A default-constructed item. *)
Definition empty_item : SelectItem := mkItem false None None false None.

Record OrderByClause := mkOrderBy { order_column : string; order_descending : bool }.

(** [Statement] and the alternatives of its variant; a null [where] is [None]. *)
Inductive Statement :=
  | CreateTableStmt (table_name : string) (columns : list Column)
  | DropTableStmt (table_name : string)
  | CreateIndexStmt (index_name table_name column_name : string)
  | DropIndexStmt (index_name : string)
  | InsertStmt (table_name : string) (columns : list string) (rows : list (list Value))
  | UpdateStmt (table_name : string) (assignments : list (string * Value)) (where_ : option Expr)
  | DeleteStmt (table_name : string) (where_ : option Expr)
  | SelectStmt (items : list SelectItem) (table_name : string) (where_ : option Expr)
      (order_by : option OrderByClause) (limit : option Z).
