(* ===== verification/ExprEval.v ===== *)
(** * Evaluating expressions: src/executor/expr_eval.cpp, src/executor/value_compare.hpp

    Numbers are compared as IEEE 754 doubles, whatever their type.  A double
    is its 64-bit representation in [Value]; [double_of_bits] decodes it and
    [SpecFloat] gives conversion from integers (to nearest, ties to even) and
    comparison. *)

From Stdlib Require Import SpecFloat.
From S2P Require Import Prelude Util Value RecordCodec Ast.

(** ** Doubles *)

Definition double := spec_float.

Definition double_of_bits (bits : Z) : double :=
  let s := Z.testbit bits 63 in
  let e := Z.shiftr bits 52 `mod` 2 ^ 11 in
  let m := bits `mod` 2 ^ 52 in
  if e =? 2047 then if m =? 0 then S754_infinity s else S754_nan
  else if e =? 0 then if m =? 0 then S754_zero s else S754_finite s (Z.to_pos m) (-1074)
  else S754_finite s (Z.to_pos (m + 2 ^ 52)) (e - 1075).

(** The representation of a double. *)
Definition bits_of_double (d : double) : Z :=
  match d with
  | S754_zero s => if s then 2 ^ 63 else 0
  | S754_infinity s => (if s then 2 ^ 63 else 0) + 2047 * 2 ^ 52
  | S754_nan => 4095 * 2 ^ 51
  | S754_finite s m e =>
      (if s then 2 ^ 63 else 0) +
      (if Zpos m <? 2 ^ 52 then Zpos m else (e + 1075) * 2 ^ 52 + (Zpos m - 2 ^ 52))
  end.

(** [static_cast<double>(z)]. *)
Definition double_of_Z (z : Z) : double := binary_normalize 53 1024 z 0 false.

Definition double_eq (a b : double) : bool := SFeqb a b.
Definition double_lt (a b : double) : bool := SFltb a b.

(** ** value_compare.hpp *)

Definition ValueToDoubleOrNull (v : Value) : option double :=
  match v with
  | VInt32 z => Some (double_of_Z z)
  | VInt64 z => Some (double_of_Z z)
  | VDouble b => Some (double_of_bits b)
  | _ => None
  end.

(** [std::string::compare] as a three-way result. *)
Definition string_three_way (a b : string) : Z :=
  match String.compare a b with Lt => -1 | Gt => 1 | Eq => 0 end.
Definition double_three_way (a b : double) : Z :=
  if double_lt a b then -1 else if double_lt b a then 1 else 0.
Definition bool_three_way (a b : bool) : Z :=
  if Bool.eqb a b then 0 else if a then 1 else -1.

Definition CompareForSort (a b : Value) : Z :=
  match ValueToDoubleOrNull a, ValueToDoubleOrNull b with
  | Some da, Some db => double_three_way da db
  | _, _ =>
      match a, b with
      | VString sa, VString sb => string_three_way sa sb
      | VBool ba, VBool bb => bool_three_way ba bb
      | _, _ => 0
      end
  end.

(** ** expr_eval.cpp *)

Definition ToDouble (v : Value) : option double := ValueToDoubleOrNull v.

Definition ValuesEqual (a b : Value) : Result bool :=
  if IsNull a || IsNull b then Ok false
  else
    match ToDouble a, ToDouble b with
    | Some da, Some db => Ok (double_eq da db)
    | _, _ =>
        match a, b with
        | VString sa, VString sb => Ok (String.eqb sa sb)
        | VBool ba, VBool bb => Ok (Bool.eqb ba bb)
        | _, _ => Err (InvalidArgument "cannot compare values of incompatible types")
        end
    end.

Definition CompareOrdered (a b : Value) : Result Z :=
  match ToDouble a, ToDouble b with
  | Some da, Some db => Ok (double_three_way da db)
  | _, _ =>
      match a, b with
      | VString sa, VString sb => Ok (string_three_way sa sb)
      | VBool ba, VBool bb => Ok (bool_three_way ba bb)
      | _, _ => Err (InvalidArgument "cannot order-compare values of incompatible types")
      end
  end.

(** The comparison operators; [None] is the [default] of the switch. *)
Definition compare_result (op : BinaryOp) (c : Z) : option bool :=
  match op with
  | kLt => Some (c <? 0)
  | kLte => Some (c <=? 0)
  | kGt => Some (c >? 0)
  | kGte => Some (c >=? 0)
  | _ => None
  end.

Definition is_logical (op : BinaryOp) : bool := bool_decide (op = kAnd) || bool_decide (op = kOr).

(** [None] is undefined behaviour: a row shorter than the schema. *)
Fixpoint Evaluate (expr : Expr) (schema : Schema) (row : list Value) : option (Result Value) :=
  match expr with
  | ColumnRefExpr column =>
      match IndexOf schema column with
      | None => Some (Err (InvalidArgument ("unknown column '" +:+ column +:+ "' in expression")))
      | Some idx => Ok <$> row !! idx
      end
  | LiteralExpr value => Some (Ok value)
  | BinaryExpr lhs op rhs =>
      if is_logical op then
        match Evaluate lhs schema row with
        | None => None
        | Some (Err e) => Some (Err e)
        | Some (Ok (VBool lb)) =>
            if bool_decide (op = kOr) && lb then Some (Ok (VBool true))
            else if bool_decide (op = kAnd) && negb lb then Some (Ok (VBool false))
            else
              match Evaluate rhs schema row with
              | None => None
              | Some (Err e) => Some (Err e)
              | Some (Ok (VBool rb)) =>
                  Some (Ok (VBool (if bool_decide (op = kAnd) then lb && rb else lb || rb)))
              | Some (Ok _) =>
                  Some (Err (InvalidArgument "right side of AND/OR did not evaluate to a boolean"))
              end
        | Some (Ok _) => Some (Err (InvalidArgument "left side of AND/OR did not evaluate to a boolean"))
        end
      else
        match Evaluate lhs schema row with
        | None => None
        | Some (Err e) => Some (Err e)
        | Some (Ok l) =>
            match Evaluate rhs schema row with
            | None => None
            | Some (Err e) => Some (Err e)
            | Some (Ok r) =>
                if bool_decide (op = kEq) || bool_decide (op = kNeq) then
                  match ValuesEqual l r with
                  | Err e => Some (Err e)
                  | Ok eq => Some (Ok (VBool (if bool_decide (op = kEq) then eq else negb eq)))
                  end
                else if IsNull l || IsNull r then Some (Ok (VBool false))
                else
                  match CompareOrdered l r with
                  | Err e => Some (Err e)
                  | Ok c =>
                      match compare_result op c with
                      | Some b => Some (Ok (VBool b))
                      | None => Some (Err (InvalidArgument "unsupported comparison operator"))
                      end
                  end
            end
        end
  end.

(** A null [expr] is no condition. *)
Definition EvaluatePredicate (expr : option Expr) (schema : Schema) (row : list Value) :
    option (Result bool) :=
  match expr with
  | None => Some (Ok true)
  | Some e =>
      match Evaluate e schema row with
      | None => None
      | Some (Err s) => Some (Err s)
      | Some (Ok (VBool b)) => Some (Ok b)
      | Some (Ok _) => Some (Err (InvalidArgument "WHERE clause did not evaluate to a boolean"))
      end
  end.

Example eval_example :
  EvaluatePredicate
    (Some (BinaryExpr (BinaryExpr (ColumnRefExpr "a") kGte (LiteralExpr (VInt32 3))) kAnd
                      (BinaryExpr (ColumnRefExpr "b") kLt (LiteralExpr (VDouble 4609434218613702656)))))
    [mkColumn "a" Value.kInt true 0; mkColumn "b" Value.kBigInt true 0] [VInt32 3; VInt64 1] = Some (Ok true).
Proof. vm_compute. reflexivity. Qed.

(** ** A type system for expressions *)

Inductive Kind := KNumber | KString | KBoolean.

#[export] Instance Kind_eq_dec : EqDecision Kind.
Proof. solve_decision. Defined.

Definition column_kind (t : ColumnType) : Kind :=
  match t with kInt | kBigInt | kDouble => KNumber | kBool => KBoolean | kVarchar => KString end.
Definition value_kind (v : Value) : option Kind :=
  match v with
  | VNull => None
  | VInt32 _ | VInt64 _ | VDouble _ => Some KNumber
  | VBool _ => Some KBoolean
  | VString _ => Some KString
  end.

(** NULL, or a value of a kind that may or may not be NULL. *)
Inductive ExprType := TNull | TValue (k : Kind) (nullable : bool).

Definition has_type (v : Value) (ty : ExprType) : Prop :=
  match ty with
  | TNull => v = VNull
  | TValue k nullable => value_kind v = Some k ∨ (v = VNull ∧ nullable = true)
  end.

Definition comparable (l r : ExprType) : bool :=
  match l, r with
  | TValue k _, TValue k' _ => bool_decide (k = k')
  | _, _ => true
  end.

Definition predicate_type : ExprType := TValue KBoolean false.

#[export] Instance ExprType_eq_dec : EqDecision ExprType.
Proof. solve_decision. Defined.

Fixpoint expr_type (schema : Schema) (e : Expr) : option ExprType :=
  match e with
  | ColumnRefExpr column =>
      idx ← IndexOf schema column;
      col ← schema !! idx;
      Some (TValue (column_kind (col_type col)) (col_nullable col))
  | LiteralExpr v => Some (match value_kind v with Some k => TValue k false | None => TNull end)
  | BinaryExpr l op r =>
      tl ← expr_type schema l;
      tr ← expr_type schema r;
      if is_logical op
      then if decide (tl = predicate_type ∧ tr = predicate_type) then Some predicate_type else None
      else if comparable tl tr then Some predicate_type else None
  end.

(** ** Lemmas: typing *)

Lemma value_kind_column v t : ValueMatchesType v t = true → v ≠ VNull → value_kind v = Some (column_kind t).
Proof. by destruct v, t. Qed.

Lemma value_fits_type col v :
  value_fits col v = true → has_type v (TValue (column_kind (col_type col)) (col_nullable col)).
Proof.
  unfold value_fits. intros [Hm Hn]%andb_true_iff. destruct (decide (v = VNull)) as [->|Hv].
  - by right.
  - left. by apply value_kind_column.
Qed.

Lemma predicate_value v : has_type v predicate_type → ∃ b, v = VBool b.
Proof. intros [H|[_ ?]]; [|done]. destruct v; try done. eauto. Qed.

Lemma equal_typed l r tl tr :
  has_type l tl → has_type r tr → comparable tl tr = true → ∃ b, ValuesEqual l r = Ok b.
Proof.
  intros Hl Hr Hc. unfold ValuesEqual. destruct (IsNull l || IsNull r) eqn:Hn; [eauto|].
  apply orb_false_iff in Hn as [Hnl Hnr].
  destruct tl as [|k n], tr as [|k' n']; simpl in *; try (by subst).
  apply bool_decide_eq_true in Hc as <-.
  destruct Hl as [Hl|[-> _]], Hr as [Hr|[-> _]]; try done.
  destruct l, r; simplify_eq/=; eauto.
Qed.

Lemma ordered_typed l r tl tr :
  has_type l tl → has_type r tr → comparable tl tr = true → IsNull l = false → IsNull r = false →
  ∃ c, CompareOrdered l r = Ok c.
Proof.
  intros Hl Hr Hc Hnl Hnr. unfold CompareOrdered.
  destruct tl as [|k n], tr as [|k' n']; simpl in *; try (by subst).
  apply bool_decide_eq_true in Hc as <-.
  destruct Hl as [Hl|[-> _]], Hr as [Hr|[-> _]]; try done.
  destruct l, r; simplify_eq/=; eauto.
Qed.

Lemma compare_result_total op c :
  is_logical op = false → bool_decide (op = kEq) || bool_decide (op = kNeq) = false →
  ∃ b, compare_result op c = Some b.
Proof. destruct op; cbn; intros [=] [=]; eauto. Qed.

Lemma Evaluate_typed schema row e ty :
  row_fits schema row → expr_type schema e = Some ty →
  ∃ v, Evaluate e schema row = Some (Ok v) ∧ has_type v ty.
Proof.
  intros Hrow. revert ty. induction e as [column|v|l IHl op r IHr]; intros ty; cbn [expr_type Evaluate].
  - intros Ht. pose proof (IndexOf_spec schema column) as Hs. destruct (IndexOf schema column) as [idx|]; [|done].
    cbn in Ht. destruct Hs as (col & Hcol & _). rewrite Hcol in Ht. cbn in Ht. injection Ht as <-.
    destruct (Forall2_lookup_l _ _ _ _ _ Hrow Hcol) as (v & -> & Hv). exists v. split; [done|].
    by apply value_fits_type.
  - intros [= <-]. exists v. split; [done|]. destruct v; cbn; auto.
  - destruct (expr_type schema l) as [tl|]; [|done]. destruct (expr_type schema r) as [tr|]; [|done].
    destruct (IHl _ eq_refl) as (lv & El & Hl). destruct (IHr _ eq_refl) as (rv & Er & Hr). cbn.
    rewrite El, Er. destruct (is_logical op) eqn:Hop; [case_decide as Ht; [|done]|].
    + intros [= <-]. destruct Ht as [-> ->].
      apply predicate_value in Hl as [lb ->]. apply predicate_value in Hr as [rb ->].
      repeat case_match; by eexists; split; [|left].
    + destruct (comparable tl tr) eqn:Hc; [|done]. intros [= <-].
      destruct (bool_decide (op = kEq) || bool_decide (op = kNeq)) eqn:He.
      { destruct (equal_typed _ _ _ _ Hl Hr Hc) as [b ->]. by eexists; split; [|left]. }
      destruct (IsNull lv || IsNull rv) eqn:Hn; [by eexists; split; [|left]|].
      apply orb_false_iff in Hn as [? ?].
      destruct (ordered_typed _ _ _ _ Hl Hr Hc) as [c ->]; [done..|].
      destruct (compare_result_total op c Hop He) as [b ->]. by eexists; split; [|left].
Qed.

Lemma Evaluate_defined schema row e :
  length row = length schema → ∃ r, Evaluate e schema row = Some r.
Proof.
  intros Hlen. induction e as [column|v|l [rl El] op r [rr Er]]; cbn [Evaluate]; [|by eexists|].
  - pose proof (IndexOf_spec schema column) as Hs. destruct (IndexOf schema column) as [idx|]; [|by eexists].
    destruct Hs as (col & Hcol & _). apply lookup_lt_Some in Hcol. rewrite <- Hlen in Hcol.
    apply lookup_lt_is_Some in Hcol as [v ->]. by eexists.
  - rewrite El, Er. repeat case_match; eauto.
Qed.

(** ** Lemmas: integers as doubles *)

Lemma digits2_log2 p : Zpos (digits2_pos p) = Z.log2 (Zpos p) + 1.
Proof.
  induction p as [p IH|p IH|]; cbn [digits2_pos]; [| |done].
  - rewrite Pos2Z.inj_succ, IH, Pos2Z.inj_xI, Z.log2_succ_double by lia. lia.
  - rewrite Pos2Z.inj_succ, IH, Pos2Z.inj_xO, Z.log2_double by lia. lia.
Qed.

Lemma shift_iter p n : Zpos (Pos.iter xO p n) = Zpos p * 2 ^ Zpos n.
Proof.
  induction n as [|n IH] using Pos.peano_ind; [cbn; lia|].
  rewrite Pos.iter_succ, Pos2Z.inj_xO, IH, Pos2Z.inj_succ, Z.pow_succ_r by lia. lia.
Qed.

(** Rounding a 53-bit mantissa at an exponent in range changes nothing. *)
Lemma round_exact s m e :
  Z.log2 (Zpos m) = 52 → -52 ≤ e ≤ 0 → binary_round_aux 53 1024 s (Zpos m) e loc_Exact = S754_finite s m e.
Proof.
  intros Hm He.
  assert (∀ l, shr_fexp 53 1024 (Zpos m) e l = (shr_record_of_loc (Zpos m) l, e)) as Hshr.
  { intros l. unfold shr_fexp. cbn [Zdigits2]. rewrite digits2_log2, Hm. unfold fexp, emin.
    replace (Z.max (52 + 1 + e - 53) (3 - 1024 - 53) - e) with 0 by lia. done. }
  unfold binary_round_aux. rewrite Hshr. cbn [shr_record_of_loc loc_of_shr_record round_nearest_even shr_m].
  rewrite Hshr. cbn [shr_record_of_loc shr_m]. by destruct (Z.leb_spec e (1024 - 53)); [|lia].
Qed.

(** An integer of at most 53 bits is represented exactly, with a mantissa of
    53 bits. *)
Lemma double_of_small s p :
  Zpos p < 2 ^ 53 →
  ∃ m, binary_round 53 1024 s p 0 = S754_finite s m (Z.log2 (Zpos p) - 52) ∧
       Zpos m = Zpos p * 2 ^ (52 - Z.log2 (Zpos p)).
Proof.
  intros Hp. assert (0 ≤ Z.log2 (Zpos p) < 53) as Hl.
  { split; [apply Z.log2_nonneg|]. by apply Z.log2_lt_pow2. }
  unfold binary_round, shl_align. rewrite digits2_log2. unfold fexp, emin.
  replace (Z.max (Z.log2 (Zpos p) + 1 + 0 - 53) (3 - 1024 - 53)) with (Z.log2 (Zpos p) - 52) by lia.
  rewrite Z.sub_0_r. destruct (Z.log2 (Zpos p) - 52) as [|q|q] eqn:E; [|lia|].
  - exists p. replace (Z.log2 (Zpos p)) with 52 by lia. split; [|lia]. apply round_exact; lia.
  - exists (Pos.iter xO p q). replace (52 - Z.log2 (Zpos p)) with (Zpos q) by lia.
    split; [|apply shift_iter]. apply round_exact; [|lia].
    rewrite shift_iter, Z.log2_mul_pow2 by lia. lia.
Qed.

Lemma scaled_compare a b k : 0 ≤ k → (a * 2 ^ k ?= b * 2 ^ k) = (a ?= b).
Proof.
  intros ?. assert (0 < 2 ^ k) by (by apply Z.pow_pos_nonneg).
  destruct (Z.compare_spec a b); [subst; apply Z.compare_refl|apply Z.compare_lt_iff; nia|apply Z.compare_gt_iff; nia].
Qed.

(** The order of positive integers, from the exponents and the mantissas. *)
Lemma compare_small p q m n :
  Zpos m = Zpos p * 2 ^ (52 - Z.log2 (Zpos p)) → Zpos n = Zpos q * 2 ^ (52 - Z.log2 (Zpos q)) →
  Zpos p < 2 ^ 53 → Zpos q < 2 ^ 53 →
  match Z.compare (Z.log2 (Zpos p) - 52) (Z.log2 (Zpos q) - 52) with
  | Lt => Lt | Gt => Gt | Eq => Pos.compare_cont Eq m n
  end = (Zpos p ?= Zpos q).
Proof.
  intros Hm Hn Hp Hq. destruct (Z.compare_spec (Z.log2 (Zpos p) - 52) (Z.log2 (Zpos q) - 52)) as [E|E|E].
  - replace (Z.log2 (Zpos q)) with (Z.log2 (Zpos p)) in Hn by lia.
    change (Pos.compare_cont Eq m n) with (Zpos m ?= Zpos n). rewrite Hm, Hn. apply scaled_compare.
    apply Z.log2_lt_pow2 in Hp; lia.
  - symmetry. apply Z.compare_lt_iff. apply Z.log2_lt_cancel. lia.
  - symmetry. apply Z.compare_gt_iff. apply Z.log2_lt_cancel. lia.
Qed.

Definition exact_int (z : Z) : Prop := - 2 ^ 53 < z < 2 ^ 53.

Lemma double_compare_exact a b :
  exact_int a → exact_int b → SFcompare (double_of_Z a) (double_of_Z b) = Some (a ?= b).
Proof.
  unfold exact_int, double_of_Z, binary_normalize. intros Ha Hb.
  destruct a as [|p|p], b as [|q|q]; try done;
    repeat match goal with
    | |- context [binary_round 53 1024 ?s ?r 0] =>
        destruct (double_of_small s r ltac:(lia)) as (? & -> & ?)
    end; try done; cbn [SFcompare]; f_equal.
  - by apply compare_small; [..|lia|lia].
  - change (Zneg p ?= Zneg q) with (CompOpp (Zpos p ?= Zpos q)).
    rewrite <- (compare_small p q _ _ H H0) by lia. by destruct (Z.compare _ _).
Qed.

(** The integer a value holds. *)
Definition int_value (v : Value) : option Z :=
  match v with VInt32 z | VInt64 z => Some z | _ => None end.

Definition three_way (c : comparison) : Z := match c with Lt => -1 | Eq => 0 | Gt => 1 end.

Lemma double_three_way_exact a b :
  exact_int a → exact_int b → double_three_way (double_of_Z a) (double_of_Z b) = three_way (a ?= b).
Proof.
  intros Ha Hb. unfold double_three_way, double_lt, SFltb. rewrite !double_compare_exact by done.
  rewrite (Z.compare_antisym a b). by destruct (a ?= b).
Qed.

Lemma int_value_double v z : int_value v = Some z → ToDouble v = Some (double_of_Z z) ∧ IsNull v = false.
Proof. destruct v; cbn; by intros [= ->]. Qed.

Lemma int_compare_exact v w a b :
  int_value v = Some a → int_value w = Some b → exact_int a → exact_int b →
  ValuesEqual v w = Ok (bool_decide (a = b)) ∧ CompareOrdered v w = Ok (three_way (a ?= b)) ∧
  CompareForSort v w = three_way (a ?= b).
Proof.
  intros Hv Hw Ha Hb. destruct (int_value_double v a Hv) as [Ev Nv]. destruct (int_value_double w b Hw) as [Ew Nw].
  unfold ValuesEqual, CompareOrdered, CompareForSort. rewrite Nv, Nw, Ev, Ew. cbn [orb].
  unfold ToDouble in Ev, Ew. rewrite Ev, Ew, double_three_way_exact by done. split_and!; try done.
  unfold double_eq, SFeqb. rewrite double_compare_exact by done.
  destruct (Z.compare_spec a b); [by rewrite bool_decide_true|by rewrite bool_decide_false by lia..].
Qed.

(** ** Observations *)

(** [<>] with NULL on one side holds, although [=] and the orders do not. *)
Lemma null_not_equal_holds schema row v :
  Evaluate (BinaryExpr (LiteralExpr VNull) kNeq (LiteralExpr v)) schema row = Some (Ok (VBool true)).
Proof. done. Qed.

(** ** The theorems *)

(** C40: well-typed conditions do not fail.  On a row of the schema's width
    evaluation is always defined; on a row that fits the schema (the rows the
    codec stores) an expression of the type system evaluates to a value of its
    type, and a well-typed WHERE clause to true or false, never to an error:
    comparisons of comparable operands absorb NULLs, and AND/OR get
    booleans. *)
Theorem expression_type_safe schema row e :
  (length row = length schema → ∃ r, Evaluate e schema row = Some r) ∧
  (row_fits schema row → ∀ ty, expr_type schema e = Some ty →
     ∃ v, Evaluate e schema row = Some (Ok v) ∧ has_type v ty) ∧
  (row_fits schema row → expr_type schema e = Some predicate_type →
     ∃ b, EvaluatePredicate (Some e) schema row = Some (Ok b)).
Proof.
  split_and!.
  - apply Evaluate_defined.
  - intros Hr ty. by apply Evaluate_typed.
  - intros Hr Ht. destruct (Evaluate_typed schema row e _ Hr Ht) as (v & E & Hv).
    apply predicate_value in Hv as [b ->]. exists b. cbn. by rewrite E.
Qed.

Lemma expression_type_safe_witness :
  ∃ b, EvaluatePredicate
         (Some (BinaryExpr (BinaryExpr (ColumnRefExpr "name") kEq (LiteralExpr (VString "alice"))) kOr
                           (BinaryExpr (ColumnRefExpr "id") kLt (LiteralExpr VNull))))
         sample_schema sample_row = Some (Ok b).
Proof.
  apply (expression_type_safe sample_schema sample_row).
  - repeat constructor.
  - vm_compute. reflexivity.
Defined.

(** Comparing integers is exact within 53 bits.  For INT and BIGINT values
    strictly between -2^53 and 2^53 the conversion to doubles loses nothing:
    equality, the order of WHERE and the order of ORDER BY are those of the
    integers.  The bound is sharp: 2^53 and 2^53 + 1 compare equal. *)
Theorem integer_comparison_exact v w a b :
  int_value v = Some a → int_value w = Some b → exact_int a → exact_int b →
  ValuesEqual v w = Ok (bool_decide (a = b)) ∧
  CompareOrdered v w = Ok (three_way (a ?= b)) ∧
  CompareForSort v w = three_way (a ?= b) ∧
  ValuesEqual (VInt64 (2 ^ 53)) (VInt64 (2 ^ 53 + 1)) = Ok true.
Proof.
  intros Hv Hw Ha Hb. destruct (int_compare_exact v w a b Hv Hw Ha Hb) as (? & ? & ?). by split_and!.
Qed.

Lemma integer_comparison_exact_witness :
  ValuesEqual (VInt32 (-7)) (VInt64 (2 ^ 53 - 1)) = Ok false ∧
  CompareOrdered (VInt32 (-7)) (VInt64 (2 ^ 53 - 1)) = Ok (-1).
Proof.
  destruct (integer_comparison_exact (VInt32 (-7)) (VInt64 (2 ^ 53 - 1)) (-7) (2 ^ 53 - 1)) as (E1 & E2 & _).
  - reflexivity.
  - reflexivity.
  - unfold exact_int. lia.
  - unfold exact_int. lia.
  - split; [exact E1|exact E2].
Defined.
