(* ===== verification/Doubles.v ===== *)
(** * Integers as doubles

    The conversion [double_of_Z] of 64-bit integers: it gives no NaN, and a
    double whose representation is a 64-bit word that decodes to it. *)

From Stdlib Require Import SpecFloat.
From S2P Require Import Prelude Util Value Ast ExprEval.

Definition is_nan (d : double) : bool := match d with S754_nan => true | _ => false end.

(** The conversion from integers never gives a NaN. *)
Lemma shr_1_nonneg mrs : 0 ≤ shr_m mrs → 0 ≤ shr_m (shr_1 mrs).
Proof. destruct mrs as [[|[p|p|]|p] r s]; simpl; lia. Qed.

Lemma iter_shr_nonneg p mrs : 0 ≤ shr_m mrs → 0 ≤ shr_m (SpecFloat.iter_pos shr_1 p mrs).
Proof. revert mrs. induction p; simpl; auto using shr_1_nonneg. Qed.

Lemma shr_fexp_nonneg m e l : 0 ≤ m → 0 ≤ shr_m (shr_fexp 53 1024 m e l).1.
Proof.
  intros Hm. unfold shr_fexp, shr. assert (0 ≤ shr_m (shr_record_of_loc m l)) by (by destruct l as [|[]]).
  destruct (_ - e); simpl; auto using iter_shr_nonneg.
Qed.

Lemma binary_round_aux_not_nan s m e l : 0 ≤ m → is_nan (binary_round_aux 53 1024 s m e l) = false.
Proof.
  intros Hm. unfold binary_round_aux. pose proof (shr_fexp_nonneg m e l Hm) as H1.
  destruct (shr_fexp 53 1024 m e l) as [mrs e1]. cbn [fst] in H1.
  assert (0 ≤ round_nearest_even (shr_m mrs) (loc_of_shr_record mrs)) as H2.
  { unfold round_nearest_even. destruct (loc_of_shr_record mrs) as [|[]]; try case_match; lia. }
  pose proof (shr_fexp_nonneg _ e1 loc_Exact H2) as H3.
  destruct (shr_fexp 53 1024 _ e1 loc_Exact) as [mrs2 e2]. cbn [fst] in H3.
  destruct (shr_m mrs2); [done| |lia]. by destruct (_ <=? _).
Qed.

Lemma is_nan_of_Z z : is_nan (double_of_Z z) = false.
Proof.
  destruct z as [|p|p]; [done| |]; unfold double_of_Z, binary_normalize, binary_round;
    destruct (shl_align _ _ _); by apply binary_round_aux_not_nan.
Qed.

(** ** The rounded double *)

Lemma shr_1_half mrs : 0 ≤ shr_m mrs → shr_m (shr_1 mrs) = shr_m mrs / 2.
Proof.
  destruct mrs as [[|[p|p|]|p] r s]; cbn [shr_1 shr_m]; intros; try lia; try done.
  - rewrite Pos2Z.inj_xI. apply Z.div_unique with 1; lia.
  - rewrite Pos2Z.inj_xO. apply Z.div_unique with 0; lia.
Qed.

Lemma iter_shr_div p mrs : 0 ≤ shr_m mrs → shr_m (SpecFloat.iter_pos shr_1 p mrs) = shr_m mrs / 2 ^ Zpos p.
Proof.
  revert mrs. induction p as [p IH|p IH|]; intros mrs Hm; cbn [SpecFloat.iter_pos].
  - pose proof (shr_1_nonneg _ Hm). rewrite IH by (by apply iter_shr_nonneg). rewrite IH, shr_1_half by done.
    rewrite !Z.div_div by lia. f_equal. rewrite Pos2Z.inj_xI, !Z.pow_add_r, <- Z.pow_twice_r by lia. lia.
  - rewrite IH by (by apply iter_shr_nonneg). rewrite IH by done. rewrite Z.div_div by lia. f_equal.
    rewrite <- Z.pow_add_r by lia. f_equal. lia.
  - by apply shr_1_half.
Qed.

(** Shifting a mantissa of [k] bits more than 53. *)
Lemma shr_fexp_div m e l :
  2 ^ 52 ≤ m → -52 ≤ e →
  let k := Z.log2 m - 52 in
  shr_m (shr_fexp 53 1024 m e l).1 = m / 2 ^ k ∧ (shr_fexp 53 1024 m e l).2 = e + k ∧ 0 ≤ k ∧ 2 ^ 52 ≤ m / 2 ^ k < 2 ^ 53.
Proof.
  intros Hm He k. assert (52 ≤ Z.log2 m) as Hl by (by apply Z.log2_le_pow2; lia).
  assert (2 ^ 52 ≤ m / 2 ^ k < 2 ^ 53) as Hr.
  { pose proof (Z.log2_spec m ltac:(lia)) as [H1 H2]. unfold k. split.
    - apply Z.div_le_lower_bound; [lia|]. rewrite <- Z.pow_add_r by lia. replace (Z.log2 m - 52 + 52) with (Z.log2 m) by lia. done.
    - apply Z.div_lt_upper_bound; [lia|]. rewrite <- Z.pow_add_r by lia. by replace (Z.log2 m - 52 + 53) with (Z.succ (Z.log2 m)) by lia. }
  assert (Zdigits2 m = Z.log2 m + 1) as Hd by (destruct m; [lia|apply digits2_log2|lia]).
  unfold shr_fexp, shr. rewrite Hd. unfold fexp, emin.
  replace (Z.max (Z.log2 m + 1 + e - 53) (3 - 1024 - 53) - e) with k by lia.
  assert (shr_m (shr_record_of_loc m l) = m) as Hrec by (by destruct l as [|[]]).
  assert (0 ≤ k) as Hk0 by (unfold k; lia). clearbody k.
  destruct k as [|p|p]; cbn [fst snd]; [|rewrite iter_shr_div by (rewrite Hrec; lia)|lia]; rewrite Hrec.
  - rewrite Z.pow_0_r, Z.div_1_r in *. split_and!; lia.
  - split_and!; lia.
Qed.

Lemma binary_round_aux_bounds s m e :
  2 ^ 52 ≤ m < 2 ^ 64 → -52 ≤ e ≤ 0 →
  ∃ m' e', binary_round_aux 53 1024 s m e loc_Exact = S754_finite s m' e' ∧ 2 ^ 52 ≤ Zpos m' < 2 ^ 53 ∧ -52 ≤ e' ≤ 12.
Proof.
  intros Hm He. assert (Z.log2 m < 64) by (by apply Z.log2_lt_pow2; lia).
  destruct (shr_fexp_div m e loc_Exact) as (E1 & E2 & Hk & Hr); [lia..|]. unfold binary_round_aux.
  destruct (shr_fexp 53 1024 m e loc_Exact) as [mrs e1]. cbn [fst snd] in *.
  set (r := round_nearest_even (shr_m mrs) (loc_of_shr_record mrs)).
  assert (2 ^ 52 ≤ r ≤ 2 ^ 53) as Hrr.
  { unfold r, round_nearest_even. destruct (loc_of_shr_record mrs) as [|[]]; try case_match; lia. }
  destruct (shr_fexp_div r e1 loc_Exact) as (F1 & F2 & Hk2 & Hr2); [lia..|].
  destruct (shr_fexp 53 1024 r e1 loc_Exact) as [mrs2 e2]. cbn [fst snd] in *.
  assert (Z.log2 r ≤ 53). { rewrite <- (Z.log2_pow2 53) by lia. apply Z.log2_le_mono. lia. }
  destruct (shr_m mrs2) as [|p|p]; [lia| |lia]. exists p, e2. destruct (Z.leb_spec e2 (1024 - 53)); [|lia].
  split; [done|lia].
Qed.

(** A double with a mantissa of 53 bits, in the exponents of integers. *)
Definition integral (d : double) : Prop :=
  match d with
  | S754_zero s => s = false
  | S754_finite _ m e => 2 ^ 52 ≤ Zpos m < 2 ^ 53 ∧ -52 ≤ e ≤ 12
  | _ => False
  end.

Lemma double_of_Z_integral z : in_i64 z → integral (double_of_Z z).
Proof.
  unfold in_i64. intros Hz.
  assert (∀ s p, Zpos p < 2 ^ 64 → integral (binary_round 53 1024 s p 0)) as Hp.
  { intros s p Hp. destruct (decide (Zpos p < 2 ^ 53)) as [Hs|Hs].
    - destruct (double_of_small s p Hs) as (m & -> & Hm). assert (0 ≤ Z.log2 (Zpos p) < 53) as Hl.
      { split; [apply Z.log2_nonneg|]. by apply Z.log2_lt_pow2. }
      pose proof (Z.log2_spec (Zpos p) ltac:(lia)) as [H1 H2]. cbn [integral]. split; [|lia]. rewrite Hm. split.
      + apply (Z.mul_le_mono_nonneg_r _ _ (2 ^ (52 - Z.log2 (Zpos p)))) in H1; [|by apply Z.pow_nonneg].
        rewrite <- Z.pow_add_r in H1 by lia. by replace (Z.log2 (Zpos p) + (52 - Z.log2 (Zpos p))) with 52 in H1 by lia.
      + apply (Z.mul_lt_mono_pos_r (2 ^ (52 - Z.log2 (Zpos p)))) in H2; [|apply Z.pow_pos_nonneg; lia].
        rewrite <- Z.pow_add_r in H2 by lia.
        by replace (Z.succ (Z.log2 (Zpos p)) + (52 - Z.log2 (Zpos p))) with 53 in H2 by lia.
    - assert (53 ≤ Z.log2 (Zpos p)) by (apply Z.log2_le_pow2; lia).
      unfold binary_round, shl_align. rewrite digits2_log2. unfold fexp, emin.
      destruct (Z.max _ _ - 0) eqn:E; [| |lia].
      all: destruct (binary_round_aux_bounds s (Zpos p) 0) as (m & e & -> & ? & ?); [lia..|done]. }
  destruct z as [|p|p]; [done|apply Hp; lia|apply Hp; lia].
Qed.

Lemma integral_bits d : integral d → in_u64 (bits_of_double d).
Proof.
  unfold in_u64. destruct d as [s|s| |s m e]; simpl; [intros ->; lia|done..|]. intros [Hm He].
  destruct (Z.ltb_spec (Zpos m) (2 ^ 52)); destruct s; lia.
Qed.

(** ** Exact sums *)

Lemma iter_shr_exact p n :
  SpecFloat.iter_pos shr_1 p (Build_shr_record (Zpos n * 2 ^ Zpos p) false false) = Build_shr_record (Zpos n) false false.
Proof.
  revert n. assert (∀ n, shr_1 (Build_shr_record (Zpos n * 2) false false) = Build_shr_record (Zpos n) false false) as H1.
  { intros n. by replace (Zpos n * 2) with (Zpos n~0) by lia. }
  assert (∀ n q, ∃ m, Zpos m = Zpos n * 2 ^ Zpos q) as Hpos.
  { intros n q. exists (Pos.iter xO n q). apply shift_iter. }
  induction p as [p IH|p IH|]; intros n; cbn [SpecFloat.iter_pos].
  - destruct (Hpos n p) as [m Em]. destruct (Hpos m p) as [m' Em'].
    replace (Zpos n * 2 ^ Zpos p~1) with (Zpos m' * 2).
    + by rewrite H1, Em', IH, Em, IH.
    + rewrite Em', Em, Pos2Z.inj_xI, Z.pow_add_r, Z.pow_twice_r by lia. lia.
  - destruct (Hpos n p) as [m Em]. replace (Zpos n * 2 ^ Zpos p~0) with (Zpos m * 2 ^ Zpos p).
    + by rewrite IH, Em, IH.
    + rewrite Em, (Pos2Z.inj_xO p), Z.pow_twice_r. lia.
  - apply H1.
Qed.

(** An integer of at most 53 bits that was scaled by a power of two rounds as
    itself. *)
Lemma round_scaled s p q k :
  Zpos p < 2 ^ 53 → 0 ≤ k ≤ 52 → Zpos q = Zpos p * 2 ^ k → binary_round 53 1024 s q (- k) = binary_round 53 1024 s p 0.
Proof.
  intros Hp Hk Hq. assert (0 ≤ Z.log2 (Zpos p) < 53) as Hl.
  { split; [apply Z.log2_nonneg|]. by apply Z.log2_lt_pow2. }
  destruct (double_of_small s p Hp) as (m & -> & Hm).
  assert (Z.log2 (Zpos m) = 52) as Hlm by (rewrite Hm, Z.log2_mul_pow2 by lia; lia).
  assert (Z.log2 (Zpos q) = Z.log2 (Zpos p) + k) as Hlq by (rewrite Hq, Z.log2_mul_pow2 by lia; lia).
  unfold binary_round, shl_align. rewrite digits2_log2, Hlq.
  assert (fexp 53 1024 (Z.log2 (Zpos p) + k + 1 + - k) = Z.log2 (Zpos p) - 52) as -> by (unfold fexp, emin; lia).
  assert (0 ≤ Z.log2 (Zpos p) - 52 - - k → binary_round_aux 53 1024 s (Zpos q) (- k) loc_Exact = S754_finite s m (Z.log2 (Zpos p) - 52)) as Hshr.
  { intros Hd. rewrite <- (round_exact s m (Z.log2 (Zpos p) - 52)) by lia.
    assert (shr_fexp 53 1024 (Zpos q) (- k) loc_Exact = shr_fexp 53 1024 (Zpos m) (Z.log2 (Zpos p) - 52) loc_Exact) as Hs.
    { unfold shr_fexp. cbn [Zdigits2]. rewrite !digits2_log2, Hlq, Hlm. unfold fexp, emin, shr. cbn [shr_record_of_loc].
      replace (Z.max (52 + 1 + (Z.log2 (Zpos p) - 52) - 53) (3 - 1024 - 53) - (Z.log2 (Zpos p) - 52)) with 0 by lia.
      replace (Z.max (Z.log2 (Zpos p) + k + 1 + - k - 53) (3 - 1024 - 53) - - k) with (Z.log2 (Zpos p) - 52 + k) by lia.
      assert (Zpos q = Zpos m * 2 ^ (Z.log2 (Zpos p) - 52 + k)) as ->.
      { rewrite Hq, Hm, <- Z.mul_assoc, <- Z.pow_add_r by lia. do 2 f_equal. lia. }
      destruct (Z.log2 (Zpos p) - 52 + k) as [|d|d] eqn:Ed; [|rewrite iter_shr_exact|lia].
      - rewrite Z.mul_1_r. f_equal. lia.
      - f_equal. lia. }
    unfold binary_round_aux. by rewrite Hs. }
  destruct (Z.log2 (Zpos p) - 52 - - k) as [|d|d] eqn:Ed; [apply Hshr; lia..|].
  assert (Pos.iter xO q d = m) as ->.
  { apply Pos2Z.inj. rewrite shift_iter, Hq, Hm, <- Z.mul_assoc, <- Z.pow_add_r by lia. do 2 f_equal. lia. }
  apply round_exact; lia.
Qed.

Lemma normalize_scaled z k :
  exact_int z → 0 ≤ k ≤ 52 → binary_normalize 53 1024 (z * 2 ^ k) (- k) false = double_of_Z z.
Proof.
  unfold exact_int, double_of_Z, binary_normalize. intros Hz Hk. assert (0 < 2 ^ k) by (apply Z.pow_pos_nonneg; lia).
  destruct z as [|p|p]; [done| |].
  - destruct (Zpos p * 2 ^ k) as [|q|q] eqn:Eq; [lia| |lia]. apply round_scaled; lia.
  - destruct (Zneg p * 2 ^ k) as [|q|q] eqn:Eq; [lia|lia|]. apply round_scaled; lia.
Qed.

(** The double of a nonzero integer of at most 53 bits: its sign, mantissa and
    exponent give the integer back, scaled. *)
Lemma double_of_Z_parts z :
  exact_int z → z ≠ 0 →
  ∃ s m k, double_of_Z z = S754_finite s m (- k) ∧ cond_Zopp s (Zpos m) = z * 2 ^ k ∧ 0 ≤ k ≤ 52.
Proof.
  unfold exact_int, double_of_Z, binary_normalize. intros Hz H0.
  assert (∀ s p, Zpos p < 2 ^ 53 → ∃ m k, binary_round 53 1024 s p 0 = S754_finite s m (- k) ∧
    Zpos m = Zpos p * 2 ^ k ∧ 0 ≤ k ≤ 52) as Hp.
  { intros s p Hp. destruct (double_of_small s p Hp) as (m & -> & Hm). exists m, (52 - Z.log2 (Zpos p)).
    assert (0 ≤ Z.log2 (Zpos p) < 53) by (split; [apply Z.log2_nonneg|by apply Z.log2_lt_pow2]).
    split; [f_equal; lia|]. split; [done|lia]. }
  destruct z as [|p|p]; [done| |].
  - destruct (Hp false p ltac:(lia)) as (m & k & -> & Hm & Hk). by exists false, m, k.
  - destruct (Hp true p ltac:(lia)) as (m & k & -> & Hm & Hk). exists true, m, k. split; [done|]. split; [|done].
    cbn [cond_Zopp]. change (Zneg p) with (- Zpos p). lia.
Qed.

Lemma align_scaled m k k' : k ≤ k' → Zpos (shl_align m (- k) (- k')).1 = Zpos m * 2 ^ (k' - k).
Proof.
  intros Hk. unfold shl_align. destruct (- k' - - k) as [|d|d] eqn:E; [|lia|]; cbn [fst].
  - replace (k' - k) with 0 by lia. lia.
  - rewrite shift_iter. do 2 f_equal. lia.
Qed.

(** Sums of integers of at most 53 bits are exact. *)
Lemma double_add_exact a b :
  exact_int a → exact_int b → exact_int (a + b) → SFadd 53 1024 (double_of_Z a) (double_of_Z b) = double_of_Z (a + b).
Proof.
  intros Ha Hb Hab. destruct (decide (a = 0)) as [->|Ha0].
  { change (double_of_Z 0) with (S754_zero false). rewrite Z.add_0_l.
    destruct (decide (b = 0)) as [->|Hb0]; [done|].
    by destruct (double_of_Z_parts b Hb Hb0) as (? & ? & ? & -> & _). }
  destruct (decide (b = 0)) as [->|Hb0].
  { rewrite Z.add_0_r. change (double_of_Z 0) with (S754_zero false).
    by destruct (double_of_Z_parts a Ha Ha0) as (? & ? & ? & -> & _). }
  destruct (double_of_Z_parts a Ha Ha0) as (s & m & k & -> & Hm & Hk).
  destruct (double_of_Z_parts b Hb Hb0) as (s' & m' & k' & -> & Hm' & Hk'). cbn [SFadd].
  set (K := Z.max k k'). replace (Z.min (- k) (- k')) with (- K) by lia. rewrite !align_scaled by lia.
  assert (∀ t x y, cond_Zopp t (x * y) = cond_Zopp t x * y) as Hc by (intros [] ??; cbn; lia).
  rewrite !Hc, Hm, Hm'. rewrite <- !Z.mul_assoc, <- !Z.pow_add_r by lia.
  replace (k + (K - k)) with K by lia. replace (k' + (K - k')) with K by lia. rewrite <- Z.mul_add_distr_r.
  apply normalize_scaled; [done|lia].
Qed.
