(* ===== verification/Parser.v ===== *)
(** * The parser: src/parser/parser.hpp, parser.cpp

    A recursive-descent parser.  Its state is the tokens from [pos_] on; the
    source reads past the end of [tokens_] where the model is undefined
    ([None]).  Fuel for the recursion on parentheses and for the loops is the
    number of tokens left, of which each step takes at least one. *)

From Stdlib Require Import SpecFloat Strings.Ascii.
From S2P Require Import Prelude Util Value Tokenizer Ast ExprEval.

(** ** Numeric literals

    [std::stoul], [std::stoll] and [std::stod] on the digits of a literal
    token; [None] is the exception they throw. *)

Definition digit_value (c : ascii) : Z := Z.of_N (N_of_ascii c) - 48.
Definition digits_value (s : chars) : Z := fold_left (λ v c, 10 * v + digit_value c) s 0.
Definition all_digits (s : chars) : bool := match s with [] => false | _ => forallb IsDigit s end.

Definition stoul (s : chars) : option Z :=
  if all_digits s && (digits_value s <? 2 ^ 64) then Some (digits_value s) else None.
Definition stoll (s : chars) : option Z :=
  if all_digits s && (digits_value s <? 2 ^ 63) then Some (digits_value s) else None.


(** The digits before and after the point. *)
Fixpoint split_point (s : chars) : chars * chars :=
  match s with
  | [] => ([], [])
  | c :: s' => if Ascii.eqb c "."%char then ([], s') else let '(a, b) := split_point s' in (c :: a, b)
  end.

(** [a.b] is the quotient of the digits by a power of ten, rounded to nearest.
    Results out of range throw: overflow, and, with the C library's [ERANGE],
    underflow to zero or to an inexact subnormal. *)
Definition stod (s : chars) : option Z :=
  let '(a, b) := split_point s in
  if all_digits a && all_digits b then
    match digits_value (a ++ b), 10 ^ Z.of_nat (length b) with
    | Zpos m, Zpos q =>
        let '(mz, ez, lz) := SFdiv_core_binary 53 1024 (Zpos m) 0 (Zpos q) 0 in
        match binary_round_aux 53 1024 false mz ez lz with
        | S754_finite sg mr er =>
            if (Zpos mr <? 2 ^ 52) && negb (Zpos mr * Zpos q =? Zpos m * 2 ^ 1074) then None
            else Some (bits_of_double (S754_finite sg mr er))
        | _ => None
        end
    | _, _ => Some 0
    end
  else None.

(** ** The parser's state *)

(** [tokens_] from [pos_] on. *)
Abbreviation Parser := (list Token).
Abbreviation PM A := (M Parser (Result A)).

Definition text (s : chars) : string := String.string_of_list_ascii s.

Definition PeekType : M Parser TokenType :=
  λ ts, match ts with [] => None | t :: _ => Some (tok_type t, ts) end.
Definition PeekLexeme : M Parser chars :=
  λ ts, match ts with [] => None | t :: _ => Some (tok_lexeme t, ts) end.
(** [Advance().lexeme]. *)
Definition Advance : M Parser chars :=
  λ ts, match ts with [] => None | t :: ts' => Some (tok_lexeme t, ts') end.
Definition Check (ty : TokenType) : M Parser bool :=
  let! ty' := PeekType in ret (bool_decide (ty' = ty)).
Definition Match_ (ty : TokenType) : M Parser bool :=
  let! b := Check ty in
  if b : bool then do! Advance in ret true else ret false.

Definition fail {A} (msg : string) : PM A := ret (Err (InvalidArgument msg)).

Definition Expect (ty : TokenType) (context : string) : PM unit :=
  let! b := Check ty in
  if b : bool then do! Advance in rret tt
  else
    let! got := PeekType in
    let! lexeme := PeekLexeme in
    fail ("expected " +:+ TokenTypeName ty +:+ " in " +:+ context +:+ ", got " +:+ TokenTypeName got +:+
          (match lexeme with [] => "" | _ => " ('" +:+ text lexeme +:+ "')" end)).

(** [if (!Check(kIdentifier)) return InvalidArgument(msg); ... Advance().lexeme]. *)
Definition expect_identifier (msg : string) : PM string :=
  let! b := Check TokenType.kIdentifier in
  if b : bool then let! lexeme := Advance in rret (text lexeme) else fail msg.

(** [do { x = item(); acc.push_back(x); } while (Match(kComma))]. *)
Fixpoint comma_loop {A} (fuel : nat) (item : PM A) (acc : list A) : PM (list A) :=
  match fuel with
  | O => undefined_behaviour
  | S fuel' =>
      let? x := item in
      let! more := Match_ TokenType.kComma in
      if more : bool then comma_loop fuel' item (acc ++ [x]) else rret (acc ++ [x])
  end.
Definition comma_list {A} (item : PM A) : PM (list A) := λ ts, comma_loop (length ts) item [] ts.

(** ** Data definition *)

Definition ParseVarcharLength : PM Z :=
  let! paren := Match_ TokenType.kLParen in
  if negb paren then rret 255
  else
    let! b := Check TokenType.kIntLiteral in
    if negb b then fail "expected integer length in VARCHAR(n)"
    else
      let! lexeme := Advance in
      match stoul lexeme with
      | None => fail "invalid VARCHAR length"
      | Some n => do? Expect TokenType.kRParen "VARCHAR length" in rret (u16 n)
      end.

(** The type, with its length or 255. *)
Definition ParseColumnType : PM (ColumnType * Z) :=
  let! ty := PeekType in
  match ty with
  | TokenType.kInt => do! Advance in rret (Value.kInt, 255)
  | TokenType.kBigInt => do! Advance in rret (kBigInt, 255)
  | TokenType.kDouble => do! Advance in rret (kDouble, 255)
  | TokenType.kBoolean => do! Advance in rret (kBool, 255)
  | TokenType.kVarchar =>
      do! Advance in let? n := ParseVarcharLength in rret (kVarchar, n)
  | _ => fail ("expected a column type (INT/BIGINT/DOUBLE/BOOLEAN/VARCHAR), got " +:+ TokenTypeName ty)
  end.

Definition ParseColumnDef : PM Column :=
  let! b := Check TokenType.kIdentifier in
  if negb b then
    let! got := PeekType in fail ("expected column name, got " +:+ TokenTypeName got)
  else
    let! name := Advance in
    let? tl := ParseColumnType in
    let! not_ := Match_ TokenType.kNot in
    if not_ : bool then
      do? Expect TokenType.kNull "NOT" in rret (mkColumn (text name) tl.1 false tl.2)
    else rret (mkColumn (text name) tl.1 true tl.2).

(** The check for an empty column list in the source is never true. *)
Definition ParseCreateTable : PM Statement :=
  do? Expect TokenType.kTable "CREATE TABLE" in
  let? table_name := expect_identifier "expected table name after CREATE TABLE" in
  do? Expect TokenType.kLParen "CREATE TABLE" in
  let? columns := comma_list ParseColumnDef in
  do? Expect TokenType.kRParen "CREATE TABLE column list" in
  match columns with
  | [] => fail "CREATE TABLE requires at least one column"
  | _ => rret (CreateTableStmt table_name columns)
  end.

Definition ParseDropTable : PM Statement :=
  do? Expect TokenType.kTable "DROP TABLE" in
  let? table_name := expect_identifier "expected table name after DROP TABLE" in
  rret (DropTableStmt table_name).

Definition ParseCreateIndex : PM Statement :=
  do? Expect TokenType.kIndex "CREATE INDEX" in
  let? index_name := expect_identifier "expected index name after CREATE INDEX" in
  do? Expect TokenType.kOn "CREATE INDEX" in
  let? table_name := expect_identifier "expected table name after ON" in
  do? Expect TokenType.kLParen "CREATE INDEX" in
  let? column_name := expect_identifier "expected column name in CREATE INDEX" in
  do? Expect TokenType.kRParen "CREATE INDEX" in
  rret (CreateIndexStmt index_name table_name column_name).

Definition ParseDropIndex : PM Statement :=
  do? Expect TokenType.kIndex "DROP INDEX" in
  let? index_name := expect_identifier "expected index name after DROP INDEX" in
  rret (DropIndexStmt index_name).

(** ** Literals and expressions *)

Definition ParseLiteral : PM Value :=
  let! ty := PeekType in
  match ty with
  | TokenType.kNull => do! Advance in rret VNull
  | TokenType.kTrue => do! Advance in rret (VBool true)
  | TokenType.kFalse => do! Advance in rret (VBool false)
  | TokenType.kIntLiteral =>
      let! lexeme := Advance in
      match stoll lexeme with
      | Some n => rret (VInt64 n)
      | None => fail ("invalid integer literal '" +:+ text lexeme +:+ "'")
      end
  | TokenType.kFloatLiteral =>
      let! lexeme := Advance in
      match stod lexeme with
      | Some bits => rret (VDouble bits)
      | None => fail ("invalid float literal '" +:+ text lexeme +:+ "'")
      end
  | TokenType.kStringLiteral => let! lexeme := Advance in rret (VString (text lexeme))
  | _ => fail ("expected a literal value, got " +:+ TokenTypeName ty)
  end.

(** The functions below call [ParseOrExpr] back through [or_expr]. *)
Definition ParsePrimary (or_expr : PM Expr) : PM Expr :=
  let! paren := Match_ TokenType.kLParen in
  if paren : bool then
    let? inner := or_expr in
    do? Expect TokenType.kRParen "parenthesized expression" in
    rret inner
  else
    let! b := Check TokenType.kIdentifier in
    if b : bool then let! lexeme := Advance in rret (ColumnRefExpr (text lexeme))
    else let? lit := ParseLiteral in rret (LiteralExpr lit).

Definition comparison_op (ty : TokenType) : option BinaryOp :=
  match ty with
  | TokenType.kEq => Some kEq
  | TokenType.kNeq => Some kNeq
  | TokenType.kLt => Some kLt
  | TokenType.kLte => Some kLte
  | TokenType.kGt => Some kGt
  | TokenType.kGte => Some kGte
  | _ => None
  end.

Definition ParseComparison (or_expr : PM Expr) : PM Expr :=
  let? lhs := ParsePrimary or_expr in
  let! ty := PeekType in
  match comparison_op ty with
  | Some op =>
      do! Advance in
      let? rhs := ParsePrimary or_expr in
      rret (BinaryExpr lhs op rhs)
  | None => rret lhs
  end.

(** [while (Match(ty)) { right = operand(); expr = MakeBinary(expr, op, right); }]. *)
Fixpoint binary_loop (fuel : nat) (ty : TokenType) (op : BinaryOp) (operand : PM Expr) (expr : Expr) : PM Expr :=
  match fuel with
  | O => undefined_behaviour
  | S fuel' =>
      let! more := Match_ ty in
      if more : bool then
        let? rhs := operand in
        binary_loop fuel' ty op operand (BinaryExpr expr op rhs)
      else rret expr
  end.

Definition ParseAndExpr (fuel : nat) (or_expr : PM Expr) : PM Expr :=
  let? lhs := ParseComparison or_expr in
  binary_loop fuel TokenType.kAnd kAnd (ParseComparison or_expr) lhs.

Fixpoint ParseOrExpr (fuel : nat) : PM Expr :=
  match fuel with
  | O => undefined_behaviour
  | S fuel' =>
      let? lhs := ParseAndExpr fuel (ParseOrExpr fuel') in
      binary_loop fuel TokenType.kOr kOr (ParseAndExpr fuel (ParseOrExpr fuel')) lhs
  end.

Definition ParseWhereClause : PM Expr :=
  do? Expect TokenType.kWhere "WHERE" in
  λ ts, ParseOrExpr (S (length ts)) ts.

(** [ExprPtr where = nullptr; if (Check(kWhere)) { ... }]. *)
Definition optional_where : PM (option Expr) :=
  let! b := Check TokenType.kWhere in
  if b : bool then let? w := ParseWhereClause in rret (Some w) else rret None.

(** ** Data manipulation *)

Definition ParseRow : PM (list Value) :=
  do? Expect TokenType.kLParen "INSERT VALUES" in
  let? row := comma_list ParseLiteral in
  do? Expect TokenType.kRParen "INSERT VALUES tuple" in
  rret row.

(** [if (Match(kLParen)) { do { ... } while (Match(kComma)); ... }]. *)
Definition optional_columns : PM (list string) :=
  let! paren := Match_ TokenType.kLParen in
  if paren : bool then
    let? columns := comma_list (expect_identifier "expected column name in INSERT column list") in
    do? Expect TokenType.kRParen "INSERT column list" in
    rret columns
  else rret [].

Definition ParseInsert : PM Statement :=
  do? Expect TokenType.kInto "INSERT" in
  let? table_name := expect_identifier "expected table name after INSERT INTO" in
  let? columns := optional_columns in
  do? Expect TokenType.kValues "INSERT" in
  let? rows := comma_list ParseRow in
  rret (InsertStmt table_name columns rows).

Definition ParseAssignment : PM (string * Value) :=
  let? col := expect_identifier "expected column name in UPDATE SET clause" in
  do? Expect TokenType.kEq "UPDATE SET" in
  let? lit := ParseLiteral in
  rret (col, lit).

Definition ParseUpdate : PM Statement :=
  let? table_name := expect_identifier "expected table name after UPDATE" in
  do? Expect TokenType.kSet "UPDATE" in
  let? assignments := comma_list ParseAssignment in
  let? where_ := optional_where in
  rret (UpdateStmt table_name assignments where_).

Definition ParseDelete : PM Statement :=
  do? Expect TokenType.kFrom "DELETE" in
  let? table_name := expect_identifier "expected table name after DELETE FROM" in
  let? where_ := optional_where in
  rret (DeleteStmt table_name where_).

(** ** Queries *)

Definition AggregateForToken (ty : TokenType) : option AggregateFunc :=
  match ty with
  | TokenType.kCount => Some kCount
  | TokenType.kSum => Some kSum
  | TokenType.kAvg => Some kAvg
  | TokenType.kMin => Some kMin
  | TokenType.kMax => Some kMax
  | _ => None
  end.

(** [if (Match(kAs)) { ... alias = Advance().lexeme; }]. *)
Definition optional_alias : PM (option string) :=
  let! b := Match_ TokenType.kAs in
  if b : bool then let? alias := expect_identifier "expected alias name after AS" in rret (Some alias)
  else rret None.

Definition ParseSelectItem : PM SelectItem :=
  let! ty := PeekType in
  match AggregateForToken ty with
  | Some agg =>
      do! Advance in
      do? Expect TokenType.kLParen "aggregate function" in
      let! star := Match_ TokenType.kStar in
      let? column :=
        (if star : bool then
           if decide (agg = kCount) then rret None else fail "'*' is only valid inside COUNT(...)"
         else
           let? column := expect_identifier "expected column name or '*' inside aggregate function" in
           rret (Some column)) in
      do? Expect TokenType.kRParen "aggregate function" in
      let? alias := optional_alias in
      rret (mkItem false column (Some agg) star alias)
  | None =>
      let! b := Check TokenType.kIdentifier in
      if negb b then
        fail ("expected a column name or aggregate function in SELECT list, got " +:+ TokenTypeName ty)
      else
        let! lexeme := Advance in
        let? alias := optional_alias in
        rret (mkItem false (Some (text lexeme)) None false alias)
  end.

Definition ParseSelectList : PM (list SelectItem) :=
  let! star := Match_ TokenType.kStar in
  if star : bool then rret [mkItem true None None false None] else comma_list ParseSelectItem.

Definition optional_order_by : PM (option OrderByClause) :=
  let! b := Match_ TokenType.kOrder in
  if b : bool then
    do? Expect TokenType.kBy "ORDER" in
    let? col := expect_identifier "expected column name after ORDER BY" in
    let! desc := Match_ TokenType.kDesc in
    if desc : bool then rret (Some (mkOrderBy col true))
    else do! Match_ TokenType.kAsc in rret (Some (mkOrderBy col false))
  else rret None.

Definition optional_limit : PM (option Z) :=
  let! b := Match_ TokenType.kLimit in
  if b : bool then
    let! lit := Check TokenType.kIntLiteral in
    if negb lit then fail "expected integer after LIMIT"
    else
      let! lexeme := Advance in
      match stoll lexeme with
      | Some n => rret (Some n)
      | None => fail "invalid LIMIT value"
      end
  else rret None.

Definition ParseSelect : PM Statement :=
  let? items := ParseSelectList in
  do? Expect TokenType.kFrom "SELECT" in
  let? table_name := expect_identifier "expected table name after FROM" in
  let? where_ := optional_where in
  let? order_by := optional_order_by in
  let? limit := optional_limit in
  rret (SelectStmt items table_name where_ order_by limit).

(** ** Statements *)

Definition ParseTableOrIndex (what : string) (table index : PM Statement) : PM Statement :=
  let! t := Check TokenType.kTable in
  if t : bool then table
  else
    let! i := Check TokenType.kIndex in
    if i : bool then index
    else let! got := PeekType in fail ("expected TABLE or INDEX after " +:+ what +:+ ", got " +:+ TokenTypeName got).

Definition ParseBody : PM Statement :=
  let! ty := PeekType in
  match ty with
  | TokenType.kSelect => do! Advance in ParseSelect
  | TokenType.kInsert => do! Advance in ParseInsert
  | TokenType.kUpdate => do! Advance in ParseUpdate
  | TokenType.kDelete => do! Advance in ParseDelete
  | TokenType.kCreate => do! Advance in ParseTableOrIndex "CREATE" ParseCreateTable ParseCreateIndex
  | TokenType.kDrop => do! Advance in ParseTableOrIndex "DROP" ParseDropTable ParseDropIndex
  | _ => fail ("expected a statement (SELECT/INSERT/UPDATE/DELETE/CREATE/DROP), got " +:+ TokenTypeName ty)
  end.

Definition ParseStatement : PM Statement :=
  let! e := Check TokenType.kEndOfInput in
  if e : bool then fail "empty statement"
  else
    let? result := ParseBody in
    do! Match_ TokenType.kSemicolon in
    let! e := Check TokenType.kEndOfInput in
    if negb e then
      let! lexeme := PeekLexeme in
      fail ("unexpected trailing tokens starting at '" +:+ text lexeme +:+ "'")
    else rret result.

Definition ParseSQL (sql : chars) : option (Result Statement) :=
  match TokenizeAll sql with
  | None => None
  | Some (Err e) => Some (Err e)
  | Some (Ok tokens) => fst <$> ParseStatement tokens
  end.

Example parse_example :
  ParseSQL (String.list_ascii_of_string "SELECT a, COUNT(*) AS n FROM t WHERE a < 2.5 OR b = 1 AND c != 'x' LIMIT 3;") =
  Some (Ok (SelectStmt
    [mkItem false (Some "a") None false None; mkItem false None (Some kCount) true (Some "n")] "t"
    (Some (BinaryExpr (BinaryExpr (ColumnRefExpr "a") kLt (LiteralExpr (VDouble 4612811918334230528))) kOr
             (BinaryExpr (BinaryExpr (ColumnRefExpr "b") kEq (LiteralExpr (VInt64 1))) kAnd
                (BinaryExpr (ColumnRefExpr "c") kNeq (LiteralExpr (VString "x"))))))
    None (Some 3))).
Proof. vm_compute. reflexivity. Qed.
