(* ===== verification/ParserSpec.v ===== *)
(** * The parser's specification and proofs

    The grammar of statements as relations between token lists and syntax
    trees; the parser returns on every text, and what it accepts is derived by
    the grammar.  The converse is in [ParserComplete]. *)

From Stdlib Require Import SpecFloat Strings.Ascii.
From S2P Require Import Prelude Util Value Tokenizer Ast ExprEval Parser.

(** ** The grammar

    The grammar that the parser implements, as relations: a token list derives a
    value.  It has no cursor and no lookahead.  It departs from
    [docs/modules/parser.md] where the code does (CREATE and DROP INDEX, an
    optional semicolon, the star inside COUNT alone), and it takes the tables of
    operators and aggregate names ([comparison_op], [AggregateForToken]) and the
    readings of literals ([stoll], [stod], [stoul]) from the model of the code. *)

Definition Gram (A : Type) : Type := list Token → A → Prop.

Definition is_tok (ty : TokenType) (t : Token) : Prop := tok_type t = ty.

Inductive g_ident : Gram string :=
  | g_ident_tok t : is_tok TokenType.kIdentifier t → g_ident [t] (text (tok_lexeme t)).

Inductive g_comma {A} (G : Gram A) : Gram (list A) :=
  | g_comma_one ts x : G ts x → g_comma G ts [x]
  | g_comma_more us xs t ts x :
      g_comma G us xs → is_tok TokenType.kComma t → G ts x → g_comma G (us ++ t :: ts) (xs ++ [x]).

Inductive g_literal : Gram Value :=
  | g_null t : is_tok TokenType.kNull t → g_literal [t] VNull
  | g_true t : is_tok TokenType.kTrue t → g_literal [t] (VBool true)
  | g_false t : is_tok TokenType.kFalse t → g_literal [t] (VBool false)
  | g_int t n : is_tok TokenType.kIntLiteral t → stoll (tok_lexeme t) = Some n → g_literal [t] (VInt64 n)
  | g_float t d : is_tok TokenType.kFloatLiteral t → stod (tok_lexeme t) = Some d → g_literal [t] (VDouble d)
  | g_string t : is_tok TokenType.kStringLiteral t → g_literal [t] (VString (text (tok_lexeme t))).

Inductive g_or : Gram Expr :=
  | g_or_and ts e : g_and ts e → g_or ts e
  | g_or_or us l t ts r :
      g_or us l → is_tok TokenType.kOr t → g_and ts r → g_or (us ++ t :: ts) (BinaryExpr l kOr r)
with g_and : Gram Expr :=
  | g_and_cmp ts e : g_cmp ts e → g_and ts e
  | g_and_and us l t ts r :
      g_and us l → is_tok TokenType.kAnd t → g_cmp ts r → g_and (us ++ t :: ts) (BinaryExpr l kAnd r)
with g_cmp : Gram Expr :=
  | g_cmp_primary ts e : g_primary ts e → g_cmp ts e
  | g_cmp_op us l t op ts r :
      g_primary us l → comparison_op (tok_type t) = Some op → g_primary ts r →
      g_cmp (us ++ t :: ts) (BinaryExpr l op r)
with g_primary : Gram Expr :=
  | g_primary_paren t1 ts t2 e :
      is_tok TokenType.kLParen t1 → g_or ts e → is_tok TokenType.kRParen t2 → g_primary (t1 :: ts ++ [t2]) e
  | g_primary_column ts c : g_ident ts c → g_primary ts (ColumnRefExpr c)
  | g_primary_literal ts v : g_literal ts v → g_primary ts (LiteralExpr v).

Inductive g_where : Gram (option Expr) :=
  | g_where_none : g_where [] None
  | g_where_some t ts e : is_tok TokenType.kWhere t → g_or ts e → g_where (t :: ts) (Some e).

(** A type name, with the length given or 255. *)
Inductive g_type : Gram (ColumnType * Z) :=
  | g_type_int t : is_tok TokenType.kInt t → g_type [t] (Value.kInt, 255)
  | g_type_bigint t : is_tok TokenType.kBigInt t → g_type [t] (kBigInt, 255)
  | g_type_double t : is_tok TokenType.kDouble t → g_type [t] (kDouble, 255)
  | g_type_boolean t : is_tok TokenType.kBoolean t → g_type [t] (kBool, 255)
  | g_type_varchar t : is_tok TokenType.kVarchar t → g_type [t] (kVarchar, 255)
  | g_type_varchar_n t p n q z :
      is_tok TokenType.kVarchar t → is_tok TokenType.kLParen p → is_tok TokenType.kIntLiteral n →
      is_tok TokenType.kRParen q → stoul (tok_lexeme n) = Some z → g_type [t; p; n; q] (kVarchar, u16 z).

Inductive g_column : Gram Column :=
  | g_column_null us name ts tl :
      g_ident us name → g_type ts tl → g_column (us ++ ts) (mkColumn name tl.1 true tl.2)
  | g_column_not_null us name ts tl t1 t2 :
      g_ident us name → g_type ts tl → is_tok TokenType.kNot t1 → is_tok TokenType.kNull t2 →
      g_column (us ++ ts ++ [t1; t2]) (mkColumn name tl.1 false tl.2).

Inductive g_row : Gram (list Value) :=
  | g_row_values t1 ts vs t2 :
      is_tok TokenType.kLParen t1 → g_comma g_literal ts vs → is_tok TokenType.kRParen t2 →
      g_row (t1 :: ts ++ [t2]) vs.

Inductive g_columns : Gram (list string) :=
  | g_columns_none : g_columns [] []
  | g_columns_some t1 ts cs t2 :
      is_tok TokenType.kLParen t1 → g_comma g_ident ts cs → is_tok TokenType.kRParen t2 →
      g_columns (t1 :: ts ++ [t2]) cs.

Inductive g_assignment : Gram (string * Value) :=
  | g_assign us c t ts v :
      g_ident us c → is_tok TokenType.kEq t → g_literal ts v → g_assignment (us ++ t :: ts) (c, v).

Inductive g_alias : Gram (option string) :=
  | g_alias_none : g_alias [] None
  | g_alias_some t ts a : is_tok TokenType.kAs t → g_ident ts a → g_alias (t :: ts) (Some a).

Inductive g_item : Gram SelectItem :=
  | g_item_column us c ts a :
      g_ident us c → g_alias ts a → g_item (us ++ ts) (mkItem false (Some c) None false a)
  | g_item_aggregate t f p us c q ts a :
      AggregateForToken (tok_type t) = Some f → is_tok TokenType.kLParen p → g_ident us c →
      is_tok TokenType.kRParen q → g_alias ts a →
      g_item (t :: p :: us ++ q :: ts) (mkItem false (Some c) (Some f) false a)
  | g_item_count t p s q ts a :
      is_tok TokenType.kCount t → is_tok TokenType.kLParen p → is_tok TokenType.kStar s →
      is_tok TokenType.kRParen q → g_alias ts a →
      g_item (t :: p :: s :: q :: ts) (mkItem false None (Some kCount) true a).

Inductive g_items : Gram (list SelectItem) :=
  | g_items_star t : is_tok TokenType.kStar t → g_items [t] [mkItem true None None false None]
  | g_items_list ts items : g_comma g_item ts items → g_items ts items.

Inductive g_order : Gram (option OrderByClause) :=
  | g_order_none : g_order [] None
  | g_order_default t1 t2 ts c :
      is_tok TokenType.kOrder t1 → is_tok TokenType.kBy t2 → g_ident ts c →
      g_order (t1 :: t2 :: ts) (Some (mkOrderBy c false))
  | g_order_asc t1 t2 ts c t3 :
      is_tok TokenType.kOrder t1 → is_tok TokenType.kBy t2 → g_ident ts c → is_tok TokenType.kAsc t3 →
      g_order (t1 :: t2 :: ts ++ [t3]) (Some (mkOrderBy c false))
  | g_order_desc t1 t2 ts c t3 :
      is_tok TokenType.kOrder t1 → is_tok TokenType.kBy t2 → g_ident ts c → is_tok TokenType.kDesc t3 →
      g_order (t1 :: t2 :: ts ++ [t3]) (Some (mkOrderBy c true)).

Inductive g_limit : Gram (option Z) :=
  | g_limit_none : g_limit [] None
  | g_limit_some t n z :
      is_tok TokenType.kLimit t → is_tok TokenType.kIntLiteral n → stoll (tok_lexeme n) = Some z →
      g_limit [t; n] (Some z).

Inductive g_statement : Gram Statement :=
  | g_create_table t1 t2 us name p ts cols q :
      is_tok TokenType.kCreate t1 → is_tok TokenType.kTable t2 → g_ident us name →
      is_tok TokenType.kLParen p → g_comma g_column ts cols → is_tok TokenType.kRParen q →
      g_statement (t1 :: t2 :: us ++ p :: ts ++ [q]) (CreateTableStmt name cols)
  | g_drop_table t1 t2 us name :
      is_tok TokenType.kDrop t1 → is_tok TokenType.kTable t2 → g_ident us name →
      g_statement (t1 :: t2 :: us) (DropTableStmt name)
  | g_create_index t1 t2 us index t3 vs table p ws column q :
      is_tok TokenType.kCreate t1 → is_tok TokenType.kIndex t2 → g_ident us index →
      is_tok TokenType.kOn t3 → g_ident vs table → is_tok TokenType.kLParen p → g_ident ws column →
      is_tok TokenType.kRParen q →
      g_statement (t1 :: t2 :: us ++ t3 :: vs ++ p :: ws ++ [q]) (CreateIndexStmt index table column)
  | g_drop_index t1 t2 us name :
      is_tok TokenType.kDrop t1 → is_tok TokenType.kIndex t2 → g_ident us name →
      g_statement (t1 :: t2 :: us) (DropIndexStmt name)
  | g_insert t1 t2 us name cs cols t3 rs rows :
      is_tok TokenType.kInsert t1 → is_tok TokenType.kInto t2 → g_ident us name → g_columns cs cols →
      is_tok TokenType.kValues t3 → g_comma g_row rs rows →
      g_statement (t1 :: t2 :: us ++ cs ++ t3 :: rs) (InsertStmt name cols rows)
  | g_update t1 us name t2 sets asg ws w :
      is_tok TokenType.kUpdate t1 → g_ident us name → is_tok TokenType.kSet t2 →
      g_comma g_assignment sets asg → g_where ws w →
      g_statement (t1 :: us ++ t2 :: sets ++ ws) (UpdateStmt name asg w)
  | g_delete t1 t2 us name ws w :
      is_tok TokenType.kDelete t1 → is_tok TokenType.kFrom t2 → g_ident us name → g_where ws w →
      g_statement (t1 :: t2 :: us ++ ws) (DeleteStmt name w)
  | g_select t1 its items t2 us name ws w os o ls l :
      is_tok TokenType.kSelect t1 → g_items its items → is_tok TokenType.kFrom t2 → g_ident us name →
      g_where ws w → g_order os o → g_limit ls l →
      g_statement (t1 :: its ++ t2 :: us ++ ws ++ os ++ ls) (SelectStmt items name w o l).

(** A statement, an optional semicolon and the end. *)
Inductive g_sql : Gram Statement :=
  | g_sql_plain ts s e : g_statement ts s → is_tok TokenType.kEndOfInput e → g_sql (ts ++ [e]) s
  | g_sql_semicolon ts s t e :
      g_statement ts s → is_tok TokenType.kSemicolon t → is_tok TokenType.kEndOfInput e →
      g_sql (ts ++ [t; e]) s.

(** ** Running the parser

    The tokens still to be read end with the end of input and hold it only
    there; [runs] says that a parser returns on such tokens, with a result and
    rest in [Q] or an invalid-argument error. *)

Definition ends (ts : list Token) : Prop :=
  ∃ pre e, ts = pre ++ [e] ∧ is_tok TokenType.kEndOfInput e ∧
           Forall (λ t, tok_type t ≠ TokenType.kEndOfInput) pre.

Definition head_is (ts : list Token) (ty : TokenType) : Prop :=
  match ts with [] => False | t :: _ => is_tok ty t end.

Definition run {A} (m : M Parser A) (ts : list Token) (Q : A → list Token → Prop) : Prop :=
  ∃ a ts', m ts = Some (a, ts') ∧ Q a ts'.

Definition runs {A} (m : PM A) (ts : list Token) (Q : A → list Token → Prop) : Prop :=
  run m ts (λ r ts', match r with Ok a => Q a ts' | Err e => code_ e = kInvalidArgument end).

(** [m] reads a prefix in the grammar [G], given fewer than [f] tokens. *)
Definition parses_upto {A} (f : nat) (m : PM A) (G : Gram A) : Prop :=
  ∀ ts, ends ts → (length ts < f)%nat →
    runs m ts (λ a ts', ends ts' ∧ ∃ us, ts = us ++ ts' ∧ G us a).
Definition parses {A} (m : PM A) (G : Gram A) : Prop := ∀ f, parses_upto f m G.

Lemma ends_cons t ts : ends (t :: ts) → tok_type t ≠ TokenType.kEndOfInput → ends ts.
Proof.
  intros ([|p pre] & e & [= -> ->] & He & Hpre) Ht; [done|].
  inversion Hpre; subst. by exists pre, e.
Qed.

Lemma ends_cons_end t ts : ends (t :: ts) → tok_type t = TokenType.kEndOfInput → ts = [].
Proof.
  intros ([|p pre] & e & [= -> ->] & He & Hpre) Ht; [done|]. by inversion Hpre.
Qed.

Lemma ends_nonempty ts : ends ts → ∃ t ts', ts = t :: ts'.
Proof. intros ([|p pre] & e & -> & _); simpl; eauto. Qed.

Lemma run_bind {A B} (m : M Parser A) (k : A → M Parser B) ts Q :
  run m ts (λ a ts', run (k a) ts' Q) → run (bind m k) ts Q.
Proof. intros (a & ts' & E & b & ts'' & E' & HQ). exists b, ts''. by rewrite (bind_Some _ _ _ _ _ E). Qed.

Lemma runs_bind {A B} (m : M Parser A) (k : A → PM B) ts Q :
  run m ts (λ a ts', runs (k a) ts' Q) → runs (bind m k) ts Q.
Proof. apply run_bind. Qed.

Lemma runs_rbind {A B} (m : PM A) (k : A → PM B) ts Q :
  runs m ts (λ a ts', runs (k a) ts' Q) → runs (rbind m k) ts Q.
Proof.
  intros ([a|e] & ts' & E & H); unfold rbind; apply run_bind; eexists _, ts'; (split; [exact E|]).
  - exact H.
  - by eexists _, _.
Qed.

Lemma runs_ret {A} (a : A) ts (Q : A → list Token → Prop) : Q a ts → runs (rret a) ts Q.
Proof. intros ?. by eexists _, _. Qed.

Lemma runs_fail {A} msg ts (Q : A → list Token → Prop) : runs (fail msg) ts Q.
Proof. by eexists _, _. Qed.

Lemma runs_mono {A} (m : PM A) ts (P Q : A → list Token → Prop) :
  runs m ts P → (∀ a ts', P a ts' → Q a ts') → runs m ts Q.
Proof. intros ([a|e] & ts' & E & H) HPQ; eexists _, ts'; split; [exact E|by apply HPQ|exact E|done]. Qed.

Lemma runs_state {A} (F : list Token → PM A) ts Q : runs (F ts) ts Q → runs (λ ts, F ts ts) ts Q.
Proof. done. Qed.

Lemma run_PeekType t ts (Q : TokenType → list Token → Prop) :
  Q (tok_type t) (t :: ts) → run PeekType (t :: ts) Q.
Proof. intros ?. by eexists _, _. Qed.

Lemma run_PeekLexeme t ts (Q : chars → list Token → Prop) :
  Q (tok_lexeme t) (t :: ts) → run PeekLexeme (t :: ts) Q.
Proof. intros ?. by eexists _, _. Qed.

Lemma run_Advance t ts (Q : chars → list Token → Prop) : Q (tok_lexeme t) ts → run Advance (t :: ts) Q.
Proof. intros ?. by eexists _, _. Qed.

Lemma run_Check ty t ts (Q : bool → list Token → Prop) :
  (tok_type t = ty → Q true (t :: ts)) → (tok_type t ≠ ty → Q false (t :: ts)) → run (Check ty) (t :: ts) Q.
Proof.
  intros H1 H2. unfold Check. apply run_bind, run_PeekType. eexists _, _. split; [done|].
  case_bool_decide; auto.
Qed.

Lemma run_Match ty t ts (Q : bool → list Token → Prop) :
  (tok_type t = ty → Q true ts) → (tok_type t ≠ ty → Q false (t :: ts)) → run (Match_ ty) (t :: ts) Q.
Proof.
  intros H1 H2. unfold Match_. apply run_bind, run_Check; intros Ht.
  - apply run_bind, run_Advance. eexists _, _. split; [done|auto].
  - eexists _, _. split; [done|auto].
Qed.

Lemma runs_Expect ty ctx t ts (Q : unit → list Token → Prop) :
  (tok_type t = ty → Q tt ts) → runs (Expect ty ctx) (t :: ts) Q.
Proof.
  intros H. unfold Expect. apply runs_bind, run_Check; intros Ht.
  - apply runs_bind, run_Advance, runs_ret. auto.
  - apply runs_bind, run_PeekType, runs_bind, run_PeekLexeme, runs_fail.
Qed.

Lemma runs_ident msg t ts (Q : string → list Token → Prop) :
  (tok_type t = TokenType.kIdentifier → Q (text (tok_lexeme t)) ts) → runs (expect_identifier msg) (t :: ts) Q.
Proof.
  intros H. unfold expect_identifier. apply runs_bind, run_Check; intros Ht; [|apply runs_fail].
  apply runs_bind, run_Advance, runs_ret. auto.
Qed.

Lemma runs_parses {A} f (m : PM A) G ts (Q : A → list Token → Prop) :
  parses_upto f m G → ends ts → (length ts < f)%nat →
  (∀ a us ts', ts = us ++ ts' → ends ts' → G us a → Q a ts') → runs m ts Q.
Proof.
  intros Hp Ht Hl HQ. eapply runs_mono; [by apply Hp|]. intros a ts' (He & us & E & HG). by eapply HQ.
Qed.

(** Look at the first token. *)
Ltac open_tokens :=
  match goal with
  | H : ends ?ts |- run _ ?ts _ => is_var ts; destruct (ends_nonempty _ H) as (? & ? & ->)
  | H : ends ?ts |- runs _ ?ts _ => is_var ts; destruct (ends_nonempty _ H) as (? & ? & ->)
  end.

(** The tokens after one that is not the end. *)
Ltac pass_token :=
  match goal with
  | H : ends (?t :: ?ts), Ht : tok_type ?t = _ |- _ =>
      lazymatch goal with
      | _ : ends ts |- _ => fail
      | |- _ => pose proof (ends_cons _ _ H ltac:(rewrite Ht; done))
      end
  end.

(** One step of a parser. *)
Ltac pstep :=
  repeat pass_token;
  lazymatch goal with
  | |- runs (rbind _ _) _ _ => apply runs_rbind
  | |- runs (bind _ _) _ _ => apply runs_bind
  | |- runs (rret _) _ _ => apply runs_ret
  | |- runs (fail _) _ _ => apply runs_fail
  | |- run PeekType _ _ => try open_tokens; apply run_PeekType
  | |- run PeekLexeme _ _ => try open_tokens; apply run_PeekLexeme
  | |- run Advance _ _ => try open_tokens; apply run_Advance
  | |- run (Check _) _ _ => try open_tokens; apply run_Check; intros ?; cbn [negb]
  | |- run (Match_ _) _ _ => try open_tokens; apply run_Match; intros ?; cbn [negb]
  | |- runs (Expect _ _) _ _ => try open_tokens; apply runs_Expect; intros ?
  | |- runs (expect_identifier _) _ _ => try open_tokens; apply runs_ident; intros ?
  end.

(** The end of a rule: the tokens read and the rule for them. *)
Ltac derive rule :=
  repeat pass_token; split; [assumption|]; eexists; split; cycle 1;
  [eapply rule; eauto; try (by constructor)|by rewrite <- ?app_comm_cons, <- ?app_assoc].

Lemma parses_upto_le {A} f f' (m : PM A) G : (f' ≤ f)%nat → parses_upto f m G → parses_upto f' m G.
Proof. intros Hf Hp ts Hts Hl. apply Hp; [done|lia]. Qed.

Lemma ident_parses msg : parses (expect_identifier msg) g_ident.
Proof.
  intros f ts Hts _. pstep. repeat pass_token. split; [done|]. eexists [_]. split; [done|]. by constructor.
Qed.

Lemma literal_parses : parses ParseLiteral g_literal.
Proof.
  intros f ts Hts _. unfold ParseLiteral. do 2 pstep. destruct (tok_type x) eqn:Ht; try apply runs_fail; do 2 pstep.
  - destruct (stoll (tok_lexeme x)) eqn:E; pstep. repeat pass_token. split; [done|]. exists [x]. split; [done|].
    by constructor.
  - destruct (stod (tok_lexeme x)) eqn:E; pstep. repeat pass_token. split; [done|]. exists [x]. split; [done|].
    by constructor.
  - pstep. repeat pass_token. split; [done|]. exists [x]. split; [done|]. by constructor.
  - pstep. repeat pass_token. split; [done|]. exists [x]. split; [done|]. by constructor.
  - pstep. repeat pass_token. split; [done|]. exists [x]. split; [done|]. by constructor.
  - pstep. repeat pass_token. split; [done|]. exists [x]. split; [done|]. by constructor.
Qed.

(** Lists: each item takes at least one token. *)
Definition nonempty {A} (G : Gram A) : Prop := ∀ a, ¬ G [] a.

Lemma comma_loop_parses {A} (m : PM A) G ts0 :
  nonempty G → ∀ fuel f ts us acc,
  parses_upto f m G → ends ts → (length ts < f)%nat → (length ts ≤ fuel)%nat →
  ts0 = us ++ ts → (∀ vs x, G vs x → g_comma G (us ++ vs) (acc ++ [x])) →
  runs (comma_loop fuel m acc) ts (λ xs ts', ends ts' ∧ ∃ us, ts0 = us ++ ts' ∧ g_comma G us xs).
Proof.
  intros Hne. induction fuel as [|fuel IH]; intros f ts us acc Hm Hts Hf Hl E Hacc.
  { destruct (ends_nonempty _ Hts) as (? & ? & ->). simpl in Hl. lia. }
  cbn [comma_loop]. pstep. eapply runs_parses; [done..|]. intros x vs ts' -> Hts' HG.
  assert (vs ≠ []) by (intros ->; by eapply Hne). rewrite length_app in *.
  pstep. destruct (ends_nonempty _ Hts') as (t & ts'' & ->). apply run_Match; intros Ht.
  - repeat pass_token. destruct vs; [done|]. simpl in *. eapply (IH f ts'' (us ++ (t0 :: vs) ++ [t])); [done|done|lia|lia| |].
    + subst. by rewrite <- !app_assoc.
    + intros ws y Hy.
      replace ((us ++ (t0 :: vs) ++ [t]) ++ ws) with ((us ++ t0 :: vs) ++ t :: ws) by (by rewrite <- !app_assoc).
      apply g_comma_more; [by apply Hacc|done|done].
  - pstep. split; [done|]. exists (us ++ vs). subst. rewrite <- app_assoc. split; [done|]. by apply Hacc.
Qed.

Lemma comma_parses {A} f (m : PM A) G : nonempty G → parses_upto f m G → parses_upto f (comma_list m) (g_comma G).
Proof.
  intros Hne Hm ts Hts Hl. unfold comma_list.
  apply (comma_loop_parses m G ts Hne (length ts) f ts [] []); try done.
  intros vs x HG. by apply g_comma_one.
Qed.

Lemma g_ident_nonempty : nonempty g_ident.
Proof. intros a H. inversion H. Qed.
Lemma g_literal_nonempty : nonempty g_literal.
Proof. intros a H. inversion H. Qed.

(** ** Expressions *)

Scheme g_or_mut := Induction for g_or Sort Prop
  with g_and_mut := Induction for g_and Sort Prop
  with g_cmp_mut := Induction for g_cmp Sort Prop
  with g_primary_mut := Induction for g_primary Sort Prop.

(** [ParseOrExpr] with one token less to read than the rest of the rules. *)
Lemma primary_parses f or_expr : parses_upto f or_expr g_or → parses_upto (S f) (ParsePrimary or_expr) g_primary.
Proof.
  intros Hor ts Hts Hl. unfold ParsePrimary. pstep. pstep.
  - repeat pass_token. simpl in Hl. pstep. eapply runs_parses; [done|done|lia|]. intros e us ts' -> Hts' HG.
    do 2 pstep. pstep. derive g_primary_paren.
  - do 2 pstep.
    + do 3 pstep. repeat pass_token. split; [done|]. exists [x]. split; [done|].
      by apply g_primary_column, g_ident_tok.
    + pstep. eapply (runs_parses (S f)); [apply literal_parses|done|done|]. intros v us ts' -> Hts' HG.
      pstep. split; [done|]. exists us. split; [done|]. by apply g_primary_literal.
Qed.

Lemma comparison_parses f or_expr : parses_upto f or_expr g_or → parses_upto (S f) (ParseComparison or_expr) g_cmp.
Proof.
  intros Hor ts Hts Hl. unfold ParseComparison. pstep.
  eapply runs_parses; [by apply primary_parses|done|done|]. intros l us ts' -> Hts' HG. rewrite length_app in Hl.
  do 2 pstep. destruct (comparison_op (tok_type x)) as [op|] eqn:Hop.
  - assert (tok_type x ≠ TokenType.kEndOfInput) as Hne by (intros E; by rewrite E in Hop).
    do 2 pstep. pose proof (ends_cons _ _ Hts' Hne). simpl in Hl. pstep.
    eapply runs_parses; [by apply primary_parses|done|lia|]. intros r vs ts'' -> Hts'' HG'. pstep.
    split; [done|]. exists (us ++ x :: vs). split; [by rewrite <- app_assoc|]. by apply g_cmp_op.
  - pstep. split; [done|]. exists us. split; [done|]. by apply g_cmp_primary.
Qed.

Lemma binary_loop_parses (G H : Gram Expr) ty op f operand ts0 :
  ty ≠ TokenType.kEndOfInput →
  (∀ us l t ts r, H us l → is_tok ty t → G ts r → H (us ++ t :: ts) (BinaryExpr l op r)) →
  parses_upto f operand G →
  ∀ fuel ts us e, ends ts → (length ts < f)%nat → (length ts ≤ fuel)%nat → ts0 = us ++ ts → H us e →
  runs (binary_loop fuel ty op operand e) ts (λ e ts', ends ts' ∧ ∃ us, ts0 = us ++ ts' ∧ H us e).
Proof.
  intros Hty Hrule Hop. induction fuel as [|fuel IH]; intros ts us e Hts Hf Hl E He.
  { destruct (ends_nonempty _ Hts) as (? & ? & ->). simpl in Hl. lia. }
  cbn [binary_loop]. pstep. destruct (ends_nonempty _ Hts) as (t & ts' & ->). simpl in *.
  apply run_Match; intros Ht.
  - pose proof (ends_cons _ _ Hts ltac:(congruence)). pstep.
    eapply runs_parses; [done|done|lia|]. intros r vs ts'' -> Hts'' HG. rewrite length_app in *.
    apply (IH ts'' (us ++ t :: vs)); [done|lia|lia| |by apply Hrule].
    subst. by rewrite <- app_assoc.
  - pstep. split; [done|]. by exists us.
Qed.

Lemma and_parses f or_expr :
  parses_upto f or_expr g_or → parses_upto (S f) (ParseAndExpr (S f) or_expr) g_and.
Proof.
  intros Hor ts Hts Hl. unfold ParseAndExpr. pstep.
  eapply runs_parses; [by apply comparison_parses|done|done|]. intros l us ts' -> Hts' HG. rewrite length_app in Hl.
  eapply (binary_loop_parses g_cmp g_and); [done|by apply g_and_and|by apply comparison_parses|done|lia|lia|done|].
  by apply g_and_cmp.
Qed.

Lemma or_parses f : parses_upto f (ParseOrExpr f) g_or.
Proof.
  induction f as [|f IH]; intros ts Hts Hl; [lia|]. cbn [ParseOrExpr]. pstep.
  eapply runs_parses; [by apply and_parses|done|done|]. intros l us ts' -> Hts' HG. rewrite length_app in Hl.
  eapply (binary_loop_parses g_and g_or); [done|by apply g_or_or|by apply and_parses|done|lia|lia|done|].
  by apply g_or_and.
Qed.

Lemma where_parses : parses optional_where g_where.
Proof.
  intros f ts Hts _. unfold optional_where, ParseWhereClause. do 2 pstep.
  - do 3 pstep. repeat pass_token. apply (runs_state (λ ts, ParseOrExpr (S (length ts)))).
    eapply runs_parses; [apply or_parses|done|lia|]. intros e us ts' -> Hts' HG. pstep.
    split; [done|]. exists (x :: us). split; [done|]. by apply g_where_some.
  - pstep. split; [done|]. exists []. split; [done|constructor].
Qed.

(** ** Statements *)

Ltac destruct_ident := match goal with HI : g_ident _ _ |- _ => inversion HI; by subst end.

Lemma row_parses : parses ParseRow g_row.
Proof.
  intros f ts Hts Hl. unfold ParseRow. do 2 pstep. repeat pass_token. simpl in Hl. pstep.
  eapply (runs_parses f); [apply comma_parses; [apply g_literal_nonempty|apply literal_parses]|done|lia|].
  intros vs us ts' -> Hts' HG. do 3 pstep. derive g_row_values.
Qed.

Lemma g_row_nonempty : nonempty g_row.
Proof. intros a H. inversion H. Qed.

Lemma assignment_parses : parses ParseAssignment g_assignment.
Proof.
  intros f ts Hts Hl. unfold ParseAssignment. do 4 pstep. repeat pass_token. pstep.
  eapply (runs_parses f); [apply literal_parses|done|simpl in Hl; lia|]. intros v us ts' -> Hts' HG. pstep.
  split; [done|]. eexists. split; cycle 1; [eapply g_assign; [by apply g_ident_tok|done|done]|done].
Qed.

Lemma g_assignment_nonempty : nonempty g_assignment.
Proof. intros a H. inversion H; destruct_ident. Qed.

Lemma type_parses : parses ParseColumnType g_type.
Proof.
  intros f ts Hts _. unfold ParseColumnType. do 2 pstep. destruct (tok_type x) eqn:Ht; try apply runs_fail; do 2 pstep;
    try (pstep; repeat pass_token; split; [done|]; exists [x]; split; [done|by constructor]).
  repeat pass_token. pstep. unfold ParseVarcharLength. pstep. pstep.
  - do 2 pstep; [|apply runs_fail]. do 2 pstep.
    match goal with |- context [stoul ?s] => destruct (stoul s) eqn:E; [|apply runs_fail] end.
    do 4 pstep. repeat pass_token. split; [done|]. eexists [x; _; _; _]. split; [done|]. by apply g_type_varchar_n.
  - do 2 pstep. split; [done|]. exists [x]. split; [done|by constructor].
Qed.

Lemma column_parses : parses ParseColumnDef g_column.
Proof.
  intros f ts Hts Hl. unfold ParseColumnDef. do 2 pstep; [|do 2 pstep; apply runs_fail]. do 2 pstep.
  repeat pass_token. pstep. eapply (runs_parses f); [apply type_parses|done|simpl in Hl; lia|].
  intros tl us ts' -> Hts' HG. do 2 pstep.
  - do 3 pstep. repeat pass_token. split; [done|]. eexists. split; cycle 1.
    + eapply g_column_not_null; [by apply g_ident_tok|done|done|done].
    + cbn [app]. by rewrite <- app_assoc.
  - pstep. split; [done|]. eexists. split; cycle 1; [eapply g_column_null; [by apply g_ident_tok|done]|done].
Qed.

Lemma g_column_nonempty : nonempty g_column.
Proof. intros a H. inversion H; destruct_ident. Qed.

Lemma alias_parses : parses optional_alias g_alias.
Proof.
  intros f ts Hts Hl. unfold optional_alias. do 2 pstep.
  - do 3 pstep. repeat pass_token. split; [done|]. eexists. split; cycle 1;
      [eapply g_alias_some; [done|by apply g_ident_tok]|done].
  - pstep. split; [done|]. exists []. split; [done|constructor].
Qed.

Lemma item_parses : parses ParseSelectItem g_item.
Proof.
  intros f ts Hts Hl. unfold ParseSelectItem. do 2 pstep.
  destruct (AggregateForToken (tok_type x)) as [agg|] eqn:Hagg.
  - pose proof (ends_cons _ _ Hts ltac:(intros E; by rewrite E in Hagg)).
    do 4 pstep. repeat pass_token. do 2 pstep.
    + repeat pass_token. pstep. case_decide as Hc; [|apply runs_fail]. do 3 pstep. repeat pass_token. pstep.
      eapply (runs_parses f); [apply alias_parses|done|simpl in Hl; lia|]. intros a us ts' -> Hts' HG. pstep.
      split; [done|]. eexists. split; cycle 1.
      * subst agg. eapply g_item_count; [|done|done|done|done]. by destruct (tok_type x) eqn:E.
      * done.
    + do 3 pstep. do 3 pstep. repeat pass_token. pstep.
      eapply (runs_parses f); [apply alias_parses|done|simpl in Hl; lia|]. intros a us ts' -> Hts' HG. pstep.
      split; [done|]. eexists. split; cycle 1;
        [eapply g_item_aggregate; [done|done|by apply g_ident_tok|done|done]|done].
  - do 2 pstep; [|apply runs_fail]. do 2 pstep. repeat pass_token. pstep.
    eapply (runs_parses f); [apply alias_parses|done|simpl in Hl; lia|]. intros a us ts' -> Hts' HG. pstep.
    split; [done|]. eexists. split; cycle 1; [eapply g_item_column; [by apply g_ident_tok|done]|done].
Qed.

Lemma g_item_nonempty : nonempty g_item.
Proof. intros a H. inversion H; destruct_ident. Qed.

Lemma items_parses : parses ParseSelectList g_items.
Proof.
  intros f ts Hts Hl. unfold ParseSelectList. do 2 pstep.
  - pstep. repeat pass_token. split; [done|]. exists [x]. split; [done|by constructor].
  - eapply (runs_parses f); [apply comma_parses; [apply g_item_nonempty|apply item_parses]|done|done|].
    intros its us ts' E Hts' HG. split; [done|]. exists us. split; [done|by apply g_items_list].
Qed.

Lemma order_parses : parses optional_order_by g_order.
Proof.
  intros f ts Hts Hl. unfold optional_order_by. do 2 pstep.
  - do 4 pstep. repeat pass_token. do 2 pstep.
    + pstep. repeat pass_token. split; [done|]. eexists. split; cycle 1;
        [eapply g_order_desc; [done|done|by apply g_ident_tok|done]|done].
    + do 2 pstep.
      * pstep. repeat pass_token. split; [done|]. eexists. split; cycle 1;
          [eapply g_order_asc; [done|done|by apply g_ident_tok|done]|done].
      * pstep. repeat pass_token. split; [done|]. eexists. split; cycle 1;
          [eapply g_order_default; [done|done|by apply g_ident_tok]|done].
  - pstep. split; [done|]. exists []. split; [done|constructor].
Qed.

Lemma limit_parses : parses optional_limit g_limit.
Proof.
  intros f ts Hts Hl. unfold optional_limit. do 2 pstep.
  - do 2 pstep; [|apply runs_fail]. do 2 pstep.
    match goal with |- context [stoll ?s] => destruct (stoll s) eqn:E; [|apply runs_fail] end.
    pstep. repeat pass_token. split; [done|]. eexists [_; _]. split; [done|]. by constructor.
  - pstep. split; [done|]. exists []. split; [done|constructor].
Qed.

Lemma create_table_parses t1 :
  is_tok TokenType.kCreate t1 → parses ParseCreateTable (λ us s, g_statement (t1 :: us) s).
Proof.
  intros H1 f ts Hts Hl. unfold ParseCreateTable. do 6 pstep. repeat pass_token. simpl in Hl. pstep.
  eapply (runs_parses f); [apply comma_parses; [apply g_column_nonempty|apply column_parses]|done|lia|].
  intros cols us ts' -> Hts' HG. do 2 pstep. destruct cols as [|c cols]; [apply runs_fail|]. pstep.
  repeat pass_token. split; [done|]. eexists. split; cycle 1.
  - eapply g_create_table; [done|done|by apply g_ident_tok|done|done|done].
  - cbn [app]. by rewrite <- app_assoc.
Qed.

Lemma drop_table_parses t1 :
  is_tok TokenType.kDrop t1 → parses ParseDropTable (λ us s, g_statement (t1 :: us) s).
Proof.
  intros H1 f ts Hts Hl. unfold ParseDropTable. do 5 pstep. repeat pass_token. split; [done|].
  eexists. split; cycle 1; [eapply g_drop_table; [done|done|by apply g_ident_tok]|done].
Qed.

Lemma create_index_parses t1 :
  is_tok TokenType.kCreate t1 → parses ParseCreateIndex (λ us s, g_statement (t1 :: us) s).
Proof.
  intros H1 f ts Hts Hl. unfold ParseCreateIndex. do 15 pstep. repeat pass_token. split; [done|].
  eexists. split; cycle 1.
  - eapply g_create_index; [done|done|by apply g_ident_tok|done|by apply g_ident_tok|done|by apply g_ident_tok|done].
  - done.
Qed.

Lemma drop_index_parses t1 :
  is_tok TokenType.kDrop t1 → parses ParseDropIndex (λ us s, g_statement (t1 :: us) s).
Proof.
  intros H1 f ts Hts Hl. unfold ParseDropIndex. do 5 pstep. repeat pass_token. split; [done|].
  eexists. split; cycle 1; [eapply g_drop_index; [done|done|by apply g_ident_tok]|done].
Qed.

Lemma insert_columns_parses : parses optional_columns g_columns.
Proof.
  intros f ts Hts Hl. unfold optional_columns. do 2 pstep.
  - repeat pass_token. pstep. simpl in Hl.
    eapply (runs_parses f); [apply comma_parses; [apply g_ident_nonempty|apply ident_parses]|done|lia|].
    intros cs us ts' -> Hts' HG. do 3 pstep. derive g_columns_some.
  - pstep. split; [done|]. exists []. split; [done|constructor].
Qed.

Lemma insert_parses t1 :
  is_tok TokenType.kInsert t1 → parses ParseInsert (λ us s, g_statement (t1 :: us) s).
Proof.
  intros H1 f ts Hts Hl. unfold ParseInsert. do 4 pstep. repeat pass_token. simpl in Hl. pstep.
  eapply (runs_parses f); [apply insert_columns_parses|done|lia|]. intros cols cs ts' -> Hts' HG.
  rewrite length_app in Hl. do 2 pstep. repeat pass_token. simpl in Hl. pstep.
  eapply (runs_parses f); [apply comma_parses; [apply g_row_nonempty|apply row_parses]|done|lia|].
  intros rows rs ts'' -> Hts'' HG'. pstep. split; [done|]. eexists. split; cycle 1.
  - eapply g_insert; [done|done|by apply g_ident_tok|done|done|done].
  - cbn [app]. by rewrite <- app_assoc.
Qed.

Lemma update_parses t1 :
  is_tok TokenType.kUpdate t1 → parses ParseUpdate (λ us s, g_statement (t1 :: us) s).
Proof.
  intros H1 f ts Hts Hl. unfold ParseUpdate. do 4 pstep. repeat pass_token. simpl in Hl. pstep.
  eapply (runs_parses f); [apply comma_parses; [apply g_assignment_nonempty|apply assignment_parses]|done|lia|].
  intros asg us ts' -> Hts' HG. rewrite length_app in Hl. pstep.
  eapply (runs_parses f); [apply where_parses|done|lia|]. intros w ws ts'' -> Hts'' HG'. pstep.
  split; [done|]. eexists. split; cycle 1.
  - eapply g_update; [done|by apply g_ident_tok|done|done|done].
  - cbn [app]. by rewrite <- app_assoc.
Qed.

Lemma delete_parses t1 :
  is_tok TokenType.kDelete t1 → parses ParseDelete (λ us s, g_statement (t1 :: us) s).
Proof.
  intros H1 f ts Hts Hl. unfold ParseDelete. do 4 pstep. repeat pass_token. simpl in Hl. pstep.
  eapply (runs_parses f); [apply where_parses|done|lia|]. intros w ws ts' -> Hts' HG. pstep.
  split; [done|]. eexists. split; cycle 1; [eapply g_delete; [done|done|by apply g_ident_tok|done]|done].
Qed.

Lemma select_parses t1 :
  is_tok TokenType.kSelect t1 → parses ParseSelect (λ us s, g_statement (t1 :: us) s).
Proof.
  intros H1 f ts Hts Hl. unfold ParseSelect. pstep.
  eapply (runs_parses f); [apply items_parses|done|lia|]. intros its us ts' -> Hts' HG. rewrite length_app in Hl.
  do 4 pstep. repeat pass_token. simpl in Hl. pstep.
  eapply (runs_parses f); [apply where_parses|done|lia|]. intros w ws ts2 -> Hts2 HG2. rewrite length_app in Hl. pstep.
  eapply (runs_parses f); [apply order_parses|done|lia|]. intros o os ts3 -> Hts3 HG3. rewrite length_app in Hl. pstep.
  eapply (runs_parses f); [apply limit_parses|done|lia|]. intros l ls ts4 -> Hts4 HG4. pstep.
  split; [done|]. eexists. split; cycle 1.
  - eapply g_select; [done|done|done|by apply g_ident_tok|done|done|done].
  - repeat (cbn [app]; rewrite <- ?app_assoc). done.
Qed.

Lemma body_parses : parses ParseBody g_statement.
Proof.
  intros f ts Hts Hl. unfold ParseBody, ParseTableOrIndex. do 2 pstep.
  destruct (tok_type x) eqn:Ht; try apply runs_fail; do 2 pstep; repeat pass_token; simpl in Hl.
  all: first
    [eapply (runs_parses f);
       [first [by apply (select_parses x)|by apply (insert_parses x)|by apply (update_parses x)|by apply (delete_parses x)]
       |done|lia|]; intros s us ts' -> Hts' HG; split; [done|]; by exists (x :: us)
    |idtac].
  all: do 2 pstep;
    [eapply (runs_parses f);
       [first [by apply (create_table_parses x)|by apply (drop_table_parses x)]|done|lia|];
     intros s us ts' E Hts' HG; split; [done|]; exists (x :: us); by rewrite E
    |do 2 pstep; [|do 2 pstep; apply runs_fail]].
  all: eapply (runs_parses f);
    [first [by apply (create_index_parses x)|by apply (drop_index_parses x)]|done|lia|];
    intros s us ts' E Hts' HG; split; [done|]; exists (x :: us); by rewrite E.
Qed.

Lemma statement_parses ts :
  ends ts → runs ParseStatement ts (λ s ts', g_sql ts s).
Proof.
  intros Hts. unfold ParseStatement. do 2 pstep; [apply runs_fail|]. pstep.
  eapply (runs_parses (S (length (x :: x0)))); [apply body_parses|done|lia|]. intros s us ts' -> Hts' HG.
  pstep. destruct (ends_nonempty _ Hts') as (t & ts2 & ->). apply run_Match; intros Ht.
  - assert (ends ts2) as Hts2 by (eapply ends_cons; [done|congruence]). pstep.
    destruct (ends_nonempty _ Hts2) as (e & ts3 & ->). apply run_Check; intros He; cbn [negb].
    + pstep. pose proof (ends_cons_end _ _ Hts2 He) as ->. by apply g_sql_semicolon.
    + do 2 pstep. apply runs_fail.
  - pstep. apply run_Check; intros He; cbn [negb].
    + pstep. pose proof (ends_cons_end _ _ Hts' He) as ->. by apply g_sql_plain.
    + do 2 pstep. apply runs_fail.
Qed.

(** The tokenizer ends its list with the end of input. *)
Lemma lexes_ends pos src toks : lexes pos src toks → ends toks.
Proof.
  induction 1 as [pos b Hb|pos b ty lexeme text t toks Hb Hs _ (pre & e & -> & He & Hpre)].
  - by eexists [], _.
  - exists (mkToken ty lexeme (pos + length b) :: pre), e. split_and!; [done|done|].
    constructor; [|done]. by apply spells_type in Hs as [? _].
Qed.

Lemma ParseSQL_total src :
  ∃ r, ParseSQL src = Some r ∧
    match r with
    | Ok s => ∃ toks, lexes 0 src toks ∧ g_sql toks s
    | Err e => code_ e = kInvalidArgument
    end.
Proof.
  unfold ParseSQL. destruct (lexes_or_fails src 0) as [[toks H]|H].
  - rewrite (TokenizeAll_lexes _ _ H). destruct (statement_parses toks (lexes_ends _ _ _ H)) as (r & ts' & -> & Hr).
    exists r. split; [done|]. destruct r; [by exists toks|done].
  - destruct (TokenizeAll_fails _ H) as (e & -> & He). by exists (Err e).
Qed.
