(* ===== verification/ParserComplete.v ===== *)
(** * Completeness of the parser

    What the grammar derives is parsed, to the tree it derives: the parser's
    choices by one token of lookahead are the right ones.  And the outcome,
    error messages included, depends on the types and lexemes of the tokens
    alone: not on blanks, comments or positions. *)

From Stdlib Require Import SpecFloat Strings.Ascii.
From S2P Require Import Prelude Util Value Tokenizer Ast ExprEval Parser ParserSpec.

(** ** Lookahead *)

(** The next token's type is in [p]. *)
Definition next_in (p : TokenType → bool) (ts : list Token) : Prop :=
  match ts with [] => False | t :: _ => p (tok_type t) = true end.

Definition complete {A} (p : TokenType → bool) (m : PM A) (G : Gram A) : Prop :=
  ∀ us a rest, G us a → next_in p rest → m (us ++ rest) = Some (Ok a, rest).

Definition not_in (tys : list TokenType) (ty : TokenType) : bool := bool_decide (ty ∉ tys).

Lemma next_in_mono (p q : TokenType → bool) ts :
  next_in p ts → (∀ ty, p ty = true → q ty = true) → next_in q ts.
Proof. destruct ts; simpl; auto. Qed.

Lemma not_in_mono tys tys' ts :
  next_in (not_in tys) ts → (∀ ty, ty ∈ tys' → ty ∈ tys) → next_in (not_in tys') ts.
Proof.
  intros H Hsub. eapply next_in_mono; [done|]. intros ty. unfold not_in. rewrite !bool_decide_eq_true. auto.
Qed.

(** One follow set within another, on concrete sets. *)
Ltac follow H := apply (not_in_mono _ _ _ H); intros ? ?; set_solver.

Lemma next_tok ty tys t ts : is_tok ty t → ty ∉ tys → next_in (not_in tys) (t :: ts).
Proof. intros H ?. simpl. rewrite H. unfold not_in. by apply bool_decide_eq_true. Qed.

(** ** Steps *)

Lemma rbind_Ok {A B} (m : PM A) (k : A → PM B) ts a ts' :
  m ts = Some (Ok a, ts') → rbind m k ts = k a ts'.
Proof. intros E. unfold rbind. by erewrite bind_Some by exact E. Qed.

Lemma Check_hit ty t ts : is_tok ty t → Check ty (t :: ts) = Some (true, t :: ts).
Proof. intros H. unfold Check, bind, PeekType, ret. by rewrite bool_decide_true. Qed.

Lemma Match_hit ty t ts : is_tok ty t → Match_ ty (t :: ts) = Some (true, ts).
Proof. intros H. unfold Match_. by erewrite bind_Some by (by apply Check_hit). Qed.

Lemma Check_miss ty tys ts : next_in (not_in tys) ts → ty ∈ tys → Check ty ts = Some (false, ts).
Proof.
  destruct ts as [|t ts]; [done|]. simpl. unfold not_in. intros H%bool_decide_eq_true Hty.
  unfold Check, bind, PeekType, ret. rewrite bool_decide_false; [done|]. intros E. by rewrite E in H.
Qed.

Lemma Match_miss ty tys ts : next_in (not_in tys) ts → ty ∈ tys → Match_ ty ts = Some (false, ts).
Proof. intros H Hty. unfold Match_. by erewrite bind_Some by (by eapply Check_miss). Qed.

Lemma Expect_hit ty ctx t ts : is_tok ty t → Expect ty ctx (t :: ts) = Some (Ok tt, ts).
Proof. intros H. unfold Expect. by erewrite bind_Some by (by apply Check_hit). Qed.

Lemma ident_complete p msg : complete p (expect_identifier msg) g_ident.
Proof.
  intros us a rest [t Ht] _. unfold expect_identifier. by erewrite bind_Some by (by apply Check_hit).
Qed.

Lemma literal_complete p : complete p ParseLiteral g_literal.
Proof.
  intros us a rest H _. destruct H as [t Ht|t Ht|t Ht|t n Ht E|t d Ht E|t Ht]; unfold ParseLiteral; cbn [app];
    (erewrite bind_Some by reflexivity); rewrite Ht; try done;
    unfold bind, Advance; cbn; by rewrite E.
Qed.

(** ** Lists *)

Definition comma_next {A} (fuel : nat) (item : PM A) (acc : list A) : PM (list A) :=
  let! more := Match_ TokenType.kComma in
  if more : bool then comma_loop fuel item acc else rret acc.

Lemma comma_loop_complete {A} p (m : PM A) G us xs :
  nonempty G → complete p m G → p TokenType.kComma = true → g_comma G us xs →
  ∀ fuel rest, next_in p rest → (length us ≤ fuel)%nat →
  ∃ f', (fuel ≤ f' + length us)%nat ∧ comma_loop fuel m [] (us ++ rest) = comma_next f' m xs rest.
Proof.
  intros Hne Hm Hp. induction 1 as [ts x Hx|us xs t ts x _ IH Ht Hx]; intros fuel rest Hrest Hf.
  - assert (ts ≠ []) as Hts by (intros ->; by eapply Hne). destruct ts as [|t ts]; [done|].
    destruct fuel as [|fuel]; [simpl in Hf; lia|]. exists fuel. split; [simpl; lia|].
    cbn [comma_loop]. by rewrite (rbind_Ok _ _ _ _ _ (Hm _ _ _ Hx Hrest)).
  - rewrite length_app in Hf. simpl in Hf. rewrite <- app_assoc, <- app_comm_cons.
    destruct (IH fuel (t :: ts ++ rest)) as (f' & Hf' & ->); [simpl; by rewrite Ht|lia|].
    destruct f' as [|f']; [lia|]. exists f'. split; [rewrite length_app; simpl; lia|].
    unfold comma_next at 1. erewrite bind_Some by (by apply Match_hit). cbn [comma_loop].
    by rewrite (rbind_Ok _ _ _ _ _ (Hm _ _ _ Hx Hrest)).
Qed.

Lemma comma_complete {A} tys (m : PM A) G :
  nonempty G → complete (not_in tys) m G → TokenType.kComma ∉ tys →
  complete (not_in (TokenType.kComma :: tys)) (comma_list m) (g_comma G).
Proof.
  intros Hne Hm Hc us xs rest HG Hrest. unfold comma_list.
  destruct (comma_loop_complete (not_in tys) m G us xs Hne Hm) with (fuel := length (us ++ rest)) (rest := rest)
    as (f' & _ & ->).
  - by apply bool_decide_eq_true.
  - done.
  - follow Hrest.
  - rewrite length_app. lia.
  - unfold comma_next. erewrite bind_Some by (eapply Match_miss; [done|set_solver]). done.
Qed.

(** ** Expressions *)

Definition comparisons : list TokenType :=
  [TokenType.kEq; TokenType.kNeq; TokenType.kLt; TokenType.kLte; TokenType.kGt; TokenType.kGte].
Definition after_and : list TokenType := TokenType.kAnd :: comparisons.
Definition after_or : list TokenType := TokenType.kOr :: after_and.

Definition complete_upto (n : nat) (m : PM Expr) : Prop :=
  ∀ us e rest, g_or us e → next_in (not_in after_or) rest → (length (us ++ rest) < n)%nat →
    m (us ++ rest) = Some (Ok e, rest).

Lemma comparison_op_None tys ts t :
  next_in (not_in tys) (t :: ts) → comparisons ⊆ tys → comparison_op (tok_type t) = None.
Proof.
  simpl. unfold not_in. intros H%bool_decide_eq_true Hsub.
  destruct (tok_type t) eqn:E; try done; exfalso; apply H, Hsub; unfold comparisons; set_solver.
Qed.

Lemma primary_complete n or_expr us e rest :
  complete_upto n or_expr → g_primary us e → rest ≠ [] → (length (us ++ rest) ≤ n)%nat →
  ParsePrimary or_expr (us ++ rest) = Some (Ok e, rest).
Proof.
  intros Hor H Hne Hl. unfold ParsePrimary. destruct H as [t1 ts t2 e H1 HG H2|ts c Hc|ts v Hv].
  - cbn [app]. erewrite bind_Some by (by apply Match_hit). cbn iota. rewrite <- app_assoc.
    erewrite rbind_Ok.
    2:{ apply Hor; [done| |].
        - by apply (next_tok TokenType.kRParen); [|unfold after_or, after_and, comparisons; set_solver].
        - cbn [app length] in Hl. rewrite <- app_assoc in Hl. lia. }
    cbn [app]. by erewrite rbind_Ok by (by apply Expect_hit).
  - destruct Hc as [t Ht]. cbn [app]. erewrite bind_Some.
    2:{ apply (Match_miss _ [TokenType.kLParen]); [by apply (next_tok TokenType.kIdentifier); [|set_solver]|set_solver]. }
    cbn iota. by erewrite bind_Some by (by apply Check_hit).
  - assert (next_in (not_in [TokenType.kLParen; TokenType.kIdentifier]) (ts ++ rest)) as Hn.
    { destruct Hv as [t Ht|t Ht|t Ht|t n' Ht E|t d Ht E|t Ht]; cbn [app];
        (eapply next_tok; [exact Ht|set_solver]). }
    erewrite bind_Some by (eapply Match_miss; [exact Hn|set_solver]). cbn iota.
    erewrite bind_Some by (eapply Check_miss; [exact Hn|set_solver]). cbn iota.
    by erewrite rbind_Ok by (destruct rest; [done|by apply (literal_complete (λ _, true))]).
Qed.

Lemma comparison_complete n or_expr us e rest :
  complete_upto n or_expr → g_cmp us e → next_in (not_in comparisons) rest → (length (us ++ rest) ≤ n)%nat →
  ParseComparison or_expr (us ++ rest) = Some (Ok e, rest).
Proof.
  intros Hor H Hn Hl. assert (rest ≠ []) by (by intros ->). unfold ParseComparison.
  destruct H as [ts e He|us l t op ts r Hus Hop Hts].
  - erewrite rbind_Ok by (by eapply primary_complete). destruct rest as [|t rest]; [done|].
    erewrite bind_Some by reflexivity. by rewrite (comparison_op_None comparisons rest t).
  - rewrite <- app_assoc, <- app_comm_cons in *.
    erewrite rbind_Ok by (by eapply primary_complete). erewrite bind_Some by reflexivity. rewrite Hop.
    erewrite bind_Some by reflexivity.
    erewrite rbind_Ok; [done|]. eapply primary_complete; [done..|].
    rewrite length_app in Hl. simpl in Hl. lia.
Qed.

(** Having read the operands so far, the loop goes on with what follows. *)
Lemma and_loop_complete n or_expr us e :
  complete_upto n or_expr → g_and us e →
  ∀ fuel rest, next_in (not_in comparisons) rest → (length (us ++ rest) ≤ n)%nat → (length us ≤ fuel)%nat →
  ∃ f', (fuel ≤ f' + length us)%nat ∧
    ParseAndExpr fuel or_expr (us ++ rest) =
    binary_loop f' TokenType.kAnd kAnd (ParseComparison or_expr) e rest.
Proof.
  intros Hor. induction 1 as [ts e He|us l t ts r _ IH Ht Hr]; intros fuel rest Hn Hl Hf.
  - exists fuel. split; [lia|]. unfold ParseAndExpr. by erewrite rbind_Ok by (by eapply comparison_complete).
  - rewrite <- app_assoc, <- app_comm_cons in *. rewrite length_app in Hf |- *. simpl in Hf |- *.
    destruct (IH fuel (t :: ts ++ rest)) as (f' & Hf' & ->).
    + apply (next_tok TokenType.kAnd); [done|]. unfold comparisons. set_solver.
    + done.
    + lia.
    + destruct f' as [|f']; [lia|]. exists f'. split; [lia|]. cbn [binary_loop].
      erewrite bind_Some by (by apply Match_hit). cbn iota.
      erewrite rbind_Ok; [done|]. eapply comparison_complete; [done..|].
      rewrite !length_app in Hl |- *. simpl in Hl. rewrite length_app in Hl. lia.
Qed.

Lemma binary_loop_end fuel ty op operand e tys rest :
  next_in (not_in tys) rest → ty ∈ tys → (0 < fuel)%nat →
  binary_loop fuel ty op operand e rest = Some (Ok e, rest).
Proof.
  intros Hn Hty Hf. destruct fuel; [lia|]. cbn [binary_loop].
  by erewrite bind_Some by (by eapply Match_miss).
Qed.

Lemma next_in_length p rest : next_in p rest → (0 < length rest)%nat.
Proof. destruct rest; simpl; [done|lia]. Qed.

Lemma and_complete n or_expr us e fuel rest :
  complete_upto n or_expr → g_and us e → next_in (not_in after_and) rest →
  (length (us ++ rest) ≤ n)%nat → (length (us ++ rest) ≤ fuel)%nat →
  ParseAndExpr fuel or_expr (us ++ rest) = Some (Ok e, rest).
Proof.
  intros Hor HG Hn Hl Hf. pose proof (next_in_length _ _ Hn). rewrite length_app in Hf.
  destruct (and_loop_complete n or_expr us e Hor HG fuel rest) as (f' & Hf' & ->).
  - follow Hn.
  - done.
  - lia.
  - eapply binary_loop_end; [done|unfold after_and; set_solver|lia].
Qed.

Lemma or_loop_complete n or_expr us e :
  complete_upto n or_expr → g_or us e →
  ∀ fuel afuel rest, next_in (not_in after_and) rest → (length (us ++ rest) ≤ n)%nat →
    (length (us ++ rest) ≤ afuel)%nat → (length us ≤ fuel)%nat →
  ∃ f', (fuel ≤ f' + length us)%nat ∧
    rbind (ParseAndExpr afuel or_expr)
      (binary_loop fuel TokenType.kOr kOr (ParseAndExpr afuel or_expr)) (us ++ rest) =
    binary_loop f' TokenType.kOr kOr (ParseAndExpr afuel or_expr) e rest.
Proof.
  intros Hor. induction 1 as [ts e He|us l t ts r _ IH Ht Hr]; intros fuel afuel rest Hn Hl Ha Hf.
  - exists fuel. split; [lia|]. by erewrite rbind_Ok by (by eapply and_complete).
  - rewrite <- app_assoc, <- app_comm_cons in *. rewrite length_app in Hf |- *. simpl in Hf |- *.
    destruct (IH fuel afuel (t :: ts ++ rest)) as (f' & Hf' & ->).
    + apply (next_tok TokenType.kOr); [done|]. unfold after_and, comparisons. set_solver.
    + done.
    + done.
    + lia.
    + destruct f' as [|f']; [lia|]. exists f'. split; [lia|]. cbn [binary_loop].
      erewrite bind_Some by (by apply Match_hit). cbn iota.
      rewrite length_app in Hl, Ha. simpl in Hl, Ha.
      erewrite rbind_Ok; [done|]. eapply and_complete; [done..|lia|lia].
Qed.

Lemma or_complete f : complete_upto f (ParseOrExpr f).
Proof.
  induction f as [|f IH]; intros us e rest HG Hn Hl; [lia|]. cbn [ParseOrExpr].
  pose proof (next_in_length _ _ Hn).
  destruct (or_loop_complete f (ParseOrExpr f) us e IH HG (S f) (S f) rest) as (f' & Hf' & E).
  - follow Hn.
  - lia.
  - lia.
  - rewrite length_app in Hl. lia.
  - etransitivity; [exact E|]. rewrite length_app in Hl.
    eapply binary_loop_end; [done|unfold after_or; set_solver|lia].
Qed.

Lemma where_complete :
  complete (not_in (TokenType.kWhere :: after_or)) optional_where g_where.
Proof.
  intros us w rest HG Hn. unfold optional_where. destruct HG as [|t ts e Ht He].
  - by erewrite bind_Some by (eapply Check_miss; [exact Hn|set_solver]).
  - cbn [app]. erewrite bind_Some by (by apply Check_hit). cbn iota. unfold ParseWhereClause.
    erewrite rbind_Ok; [done|]. erewrite rbind_Ok by (by apply Expect_hit).
    apply or_complete; [done|follow Hn|lia].
Qed.

(** ** Statements *)

(** The next steps of a parser on tokens of the rule. *)
Ltac hit :=
  cbn [app]; rewrite <- ?app_assoc; cbn [app];
  first
    [erewrite rbind_Ok by (by apply Expect_hit)
    |erewrite bind_Some by (by apply Match_hit)
    |erewrite bind_Some by (by apply Check_hit)];
  cbn iota; cbn [negb].

(** A part of the rule, with the completeness lemma of its parser. *)
Ltac part H := cbn [app]; rewrite <- ?app_assoc; cbn [app]; erewrite rbind_Ok by (eapply H; done).

Lemma ident_ok msg us c rest :
  g_ident us c → expect_identifier msg (us ++ rest) = Some (Ok c, rest).
Proof.
  intros [t Ht]. unfold expect_identifier. cbn [app]. by erewrite bind_Some by (by apply Check_hit).
Qed.

Lemma literal_ok us v rest : g_literal us v → ParseLiteral (us ++ rest) = Some (Ok v, rest).
Proof.
  intros H. destruct H as [t Ht|t Ht|t Ht|t n Ht E|t d Ht E|t Ht]; unfold ParseLiteral; cbn [app];
    (erewrite bind_Some by reflexivity); rewrite Ht; try done;
    unfold bind, Advance; cbn; by rewrite E.
Qed.

Lemma type_complete : complete (not_in [TokenType.kLParen]) ParseColumnType g_type.
Proof.
  intros us tl rest H Hn. unfold ParseColumnType.
  destruct H as [t Ht|t Ht|t Ht|t Ht|t Ht|t p n q z Ht Hp Hi Hq Hz]; cbn [app];
    (erewrite bind_Some by reflexivity); rewrite Ht; (erewrite bind_Some by reflexivity); try done.
  - unfold ParseVarcharLength. erewrite rbind_Ok; [done|].
    by erewrite bind_Some by (eapply Match_miss; [exact Hn|set_solver]).
  - unfold ParseVarcharLength. erewrite rbind_Ok; [done|]. do 2 hit.
    erewrite bind_Some by reflexivity. rewrite Hz. by hit.
Qed.

Lemma column_complete :
  complete (not_in [TokenType.kNot; TokenType.kLParen]) ParseColumnDef g_column.
Proof.
  intros us c rest H Hn. unfold ParseColumnDef.
  destruct H as [us name ts tl [t Ht] Hty|us name ts tl t1 t2 [t Ht] Hty H1 H2]; hit;
    (erewrite bind_Some by reflexivity).
  - erewrite rbind_Ok by (apply type_complete; [done|follow Hn]).
    by erewrite bind_Some by (eapply Match_miss; [exact Hn|set_solver]).
  - erewrite rbind_Ok by (apply type_complete; [done|eapply next_tok; [eassumption|set_solver]]).
    hit. by hit.
Qed.

Lemma row_complete p : complete p ParseRow g_row.
Proof.
  intros us vs rest [t1 ts vs' t2 H1 HG H2] _. unfold ParseRow. hit.
  erewrite rbind_Ok.
  2:{ eapply (comma_complete []); [apply g_literal_nonempty|intros ? ? ? ? _; by apply literal_ok|set_solver|done|].
      eapply next_tok; [eassumption|set_solver]. }
  by hit.
Qed.

Lemma columns_complete : complete (not_in [TokenType.kLParen]) optional_columns g_columns.
Proof.
  intros us cs rest H Hn. unfold optional_columns. destruct H as [|t1 ts cs t2 H1 HG H2].
  - by erewrite bind_Some by (eapply Match_miss; [exact Hn|set_solver]).
  - hit. erewrite rbind_Ok.
    2:{ eapply (comma_complete []); [apply g_ident_nonempty|apply ident_complete|set_solver|done|].
        eapply next_tok; [eassumption|set_solver]. }
    by hit.
Qed.

Lemma assignment_complete p : complete p ParseAssignment g_assignment.
Proof.
  intros us a rest [us' c t ts v Hc Ht Hv] _. unfold ParseAssignment. rewrite <- app_assoc.
  erewrite rbind_Ok by (by apply ident_ok). hit. by erewrite rbind_Ok by (by apply literal_ok).
Qed.

Lemma alias_complete : complete (not_in [TokenType.kAs]) optional_alias g_alias.
Proof.
  intros us a rest H Hn. unfold optional_alias. destruct H as [|t ts a Ht Ha].
  - by erewrite bind_Some by (eapply Match_miss; [exact Hn|set_solver]).
  - hit. by erewrite rbind_Ok by (by apply ident_ok).
Qed.

Lemma item_complete : complete (not_in [TokenType.kAs]) ParseSelectItem g_item.
Proof.
  intros us i rest H Hn. unfold ParseSelectItem.
  destruct H as [us c ts a [t Ht] Ha|t f p us c q ts a Hf Hp Hc Hq Ha|t p s q ts a Ht Hp Hs Hq Ha].
  - cbn [app]. erewrite bind_Some by reflexivity. rewrite Ht. cbn [AggregateForToken]. hit.
    erewrite bind_Some by reflexivity. by erewrite rbind_Ok by (by apply alias_complete).
  - cbn [app]. erewrite bind_Some by reflexivity. rewrite Hf. erewrite bind_Some by reflexivity. hit.
    destruct Hc as [u Hu]. cbn [app].
    erewrite bind_Some.
    2:{ eapply (Match_miss _ [TokenType.kStar]); [by eapply next_tok; [exact Hu|set_solver]|set_solver]. }
    cbn iota. erewrite rbind_Ok.
    2:{ erewrite rbind_Ok; [reflexivity|]. by apply (ident_ok _ [u]); constructor. }
    hit. by erewrite rbind_Ok by (by apply alias_complete).
  - cbn [app]. erewrite bind_Some by reflexivity. rewrite Ht. cbn [AggregateForToken].
    erewrite bind_Some by reflexivity. hit. hit. erewrite rbind_Ok by reflexivity. hit.
    by erewrite rbind_Ok by (by apply alias_complete).
Qed.

Lemma items_complete :
  complete (not_in [TokenType.kComma; TokenType.kAs]) ParseSelectList g_items.
Proof.
  intros us its rest H Hn. unfold ParseSelectList. destruct H as [t Ht|ts its HG]; [by hit|].
  assert (next_in (not_in [TokenType.kStar]) (ts ++ rest)) as Hs.
  { clear Hn. assert (∀ vs i, g_item vs i → ∀ r, next_in (not_in [TokenType.kStar]) (vs ++ r)) as Hi.
    { intros vs i [us c ts' a [t Ht] _|t f p us c q ts' a Hf _ _ _ _|t p s q ts' a Ht _ _ _ _] r; cbn [app].
      - by eapply next_tok; [exact Ht|set_solver].
      - simpl. destruct (tok_type t); try done; by vm_compute.
      - by eapply next_tok; [exact Ht|set_solver]. }
    revert rest. induction HG as [vs i Hv|us xs t vs i _ IH _ _]; intros rest; [by eapply Hi|].
    rewrite <- app_assoc. apply IH. }
  erewrite bind_Some by (eapply Match_miss; [exact Hs|set_solver]). cbn iota.
  eapply (comma_complete [TokenType.kAs]); [apply g_item_nonempty|apply item_complete|set_solver|done|done].
Qed.

Lemma order_complete :
  complete (not_in [TokenType.kOrder; TokenType.kAsc; TokenType.kDesc]) optional_order_by g_order.
Proof.
  intros us o rest H Hn. unfold optional_order_by.
  destruct H as [|t1 t2 ts c H1 H2 Hc|t1 t2 ts c t3 H1 H2 Hc H3|t1 t2 ts c t3 H1 H2 Hc H3].
  - by erewrite bind_Some by (eapply Match_miss; [exact Hn|set_solver]).
  - hit. hit. erewrite rbind_Ok by (by apply ident_ok).
    erewrite bind_Some by (eapply Match_miss; [exact Hn|set_solver]). cbn iota.
    by erewrite bind_Some by (eapply Match_miss; [exact Hn|set_solver]).
  - hit. hit. erewrite rbind_Ok by (by apply ident_ok). cbn [app].
    erewrite bind_Some.
    2:{ eapply (Match_miss _ [TokenType.kDesc]); [eapply next_tok; [eassumption|set_solver]|set_solver]. }
    cbn iota. by hit.
  - hit. hit. erewrite rbind_Ok by (by apply ident_ok). by hit.
Qed.

Lemma limit_complete : complete (not_in [TokenType.kLimit]) optional_limit g_limit.
Proof.
  intros us l rest H Hn. unfold optional_limit. destruct H as [|t n z Ht Hi Hz].
  - by erewrite bind_Some by (eapply Match_miss; [exact Hn|set_solver]).
  - hit. hit. erewrite bind_Some by reflexivity. by rewrite Hz.
Qed.

(** What follows a statement. *)
Definition statement_end (ty : TokenType) : bool :=
  bool_decide (ty ∈ [TokenType.kSemicolon; TokenType.kEndOfInput]).

Lemma statement_end_not_in tys rest :
  next_in statement_end rest → TokenType.kSemicolon ∉ tys → TokenType.kEndOfInput ∉ tys →
  next_in (not_in tys) rest.
Proof.
  intros Hn H1 H2. eapply next_in_mono; [done|]. intros ty. unfold statement_end, not_in.
  rewrite !bool_decide_eq_true. set_solver.
Qed.

(** The parts of a query that may be left out begin with their keywords. *)
Definition clause_starts : list TokenType := [TokenType.kWhere; TokenType.kOrder; TokenType.kLimit].

Lemma limit_start ls l rest tys :
  g_limit ls l → next_in statement_end rest →
  tys ## [TokenType.kSemicolon; TokenType.kEndOfInput; TokenType.kLimit] → next_in (not_in tys) (ls ++ rest).
Proof.
  intros H Hn Hd. destruct H as [|t n z Ht Hi Hz]; [apply statement_end_not_in; [done|set_solver..]|].
  cbn [app]. eapply next_tok; [exact Ht|set_solver].
Qed.

Lemma order_start os o rest tys :
  g_order os o → next_in (not_in tys) rest → TokenType.kOrder ∉ tys → next_in (not_in tys) (os ++ rest).
Proof. intros H Hn Hd. destruct H; cbn [app]; [done|eapply next_tok; eassumption..]. Qed.

Lemma where_start ws w rest tys :
  g_where ws w → next_in (not_in tys) rest → TokenType.kWhere ∉ tys → next_in (not_in tys) (ws ++ rest).
Proof. intros H Hn Hd. destruct H; cbn [app]; [done|eapply next_tok; eassumption]. Qed.

Ltac tokens_differ := unfold after_or, after_and, comparisons; set_solver.

Lemma table_or_index_table what m1 m2 t ts :
  is_tok TokenType.kTable t → ParseTableOrIndex what m1 m2 (t :: ts) = m1 (t :: ts).
Proof. intros Ht. unfold ParseTableOrIndex. by hit. Qed.

Lemma table_or_index_index what m1 m2 t ts :
  is_tok TokenType.kIndex t → ParseTableOrIndex what m1 m2 (t :: ts) = m2 (t :: ts).
Proof.
  intros Ht. unfold ParseTableOrIndex.
  erewrite bind_Some.
  2:{ eapply (Check_miss _ [TokenType.kTable]); [eapply next_tok; [eassumption|set_solver]|set_solver]. }
  cbn iota. by hit.
Qed.

Lemma g_comma_cons {A} (G : Gram A) us : ¬ g_comma G us [].
Proof. intros H. remember [] as xs eqn:E. destruct H as [|? ys]; [done|]. by destruct ys. Qed.

Lemma create_table_complete t2 us name p ts cols q rest :
  is_tok TokenType.kTable t2 → g_ident us name → is_tok TokenType.kLParen p → g_comma g_column ts cols →
  is_tok TokenType.kRParen q →
  ParseCreateTable (t2 :: us ++ p :: ts ++ q :: rest) = Some (Ok (CreateTableStmt name cols), rest).
Proof.
  intros H2 Hname Hp Hcols Hq. unfold ParseCreateTable. hit. erewrite rbind_Ok by (by apply ident_ok). hit.
  erewrite rbind_Ok.
  2:{ eapply (comma_complete [TokenType.kNot; TokenType.kLParen]);
        [apply g_column_nonempty|apply column_complete|set_solver|done|].
      eapply next_tok; [eassumption|set_solver]. }
  hit. destruct cols as [|c cols]; [|done].
  exfalso. by apply (g_comma_cons _ _ Hcols).
Qed.

Lemma select_complete its items t2 us name ws w os o ls l rest :
  g_items its items → is_tok TokenType.kFrom t2 → g_ident us name → g_where ws w → g_order os o → g_limit ls l →
  next_in statement_end rest →
  ParseSelect (its ++ t2 :: us ++ ws ++ os ++ ls ++ rest) = Some (Ok (SelectStmt items name w o l), rest).
Proof.
  intros Hi H2 Hname Hw Ho Hl Hn. unfold ParseSelect.
  erewrite rbind_Ok by (apply items_complete; [done|eapply next_tok; [eassumption|set_solver]]).
  hit. erewrite rbind_Ok by (by apply ident_ok).
  assert (∀ tys, tys ## [TokenType.kSemicolon; TokenType.kEndOfInput; TokenType.kLimit] →
            next_in (not_in tys) (ls ++ rest)) as Hls by (intros; by eapply limit_start).
  erewrite rbind_Ok.
  2:{ apply where_complete; [done|]. eapply order_start; [done|apply Hls|]; tokens_differ. }
  erewrite rbind_Ok by (apply order_complete; [done|apply Hls; set_solver]).
  erewrite rbind_Ok by (apply limit_complete; [done|apply statement_end_not_in; [done|set_solver..]]). done.
Qed.

Lemma body_complete : complete statement_end ParseBody g_statement.
Proof.
  intros us s rest H Hn. unfold ParseBody.
  assert (∀ tys, tys ## [TokenType.kSemicolon; TokenType.kEndOfInput] → next_in (not_in tys) rest) as Hend.
  { intros tys Hd. apply statement_end_not_in; [done|set_solver..]. }
  destruct H; repeat (cbn [app]; rewrite <- ?app_assoc);
    (erewrite bind_Some by reflexivity);
    (match goal with H : is_tok _ ?t |- context [tok_type ?t] => rewrite H end);
    (erewrite bind_Some by reflexivity).
  - rewrite table_or_index_table by done. by apply create_table_complete.
  - rewrite table_or_index_table by done. unfold ParseDropTable. hit. by erewrite rbind_Ok by (by apply ident_ok).
  - rewrite table_or_index_index by done. unfold ParseCreateIndex. hit. erewrite rbind_Ok by (by apply ident_ok). hit.
    erewrite rbind_Ok by (by apply ident_ok). hit. erewrite rbind_Ok by (by apply ident_ok). by hit.
  - rewrite table_or_index_index by done. unfold ParseDropIndex. hit. by erewrite rbind_Ok by (by apply ident_ok).
  - unfold ParseInsert. hit. erewrite rbind_Ok by (by apply ident_ok).
    erewrite rbind_Ok by (apply columns_complete; [done|eapply next_tok; [eassumption|set_solver]]). hit.
    erewrite rbind_Ok; [done|]. eapply (comma_complete []);
      [apply g_row_nonempty|apply row_complete|set_solver|done|apply Hend; set_solver].
  - unfold ParseUpdate. erewrite rbind_Ok by (by apply ident_ok). hit.
    erewrite rbind_Ok.
    2:{ eapply (comma_complete []); [apply g_assignment_nonempty|apply assignment_complete|set_solver|done|].
        eapply where_start; [done|apply Hend|]; set_solver. }
    erewrite rbind_Ok; [done|]. apply where_complete; [done|]. apply Hend. tokens_differ.
  - unfold ParseDelete. hit. erewrite rbind_Ok by (by apply ident_ok).
    erewrite rbind_Ok; [done|]. apply where_complete; [done|]. apply Hend. tokens_differ.
  - by apply select_complete.
Qed.

Lemma statement_start us s rest :
  g_statement us s → next_in (not_in [TokenType.kEndOfInput]) (us ++ rest).
Proof. intros H. destruct H; cbn [app]; (eapply next_tok; [eassumption|set_solver]). Qed.

Lemma statement_complete toks s : g_sql toks s → ∃ ts', ParseStatement toks = Some (Ok s, ts').
Proof.
  intros H. unfold ParseStatement. destruct H as [ts s e Hs He|ts s t e Hs Ht He].
  - erewrite bind_Some by (eapply Check_miss; [by eapply statement_start|set_solver]). cbn iota.
    erewrite rbind_Ok by (apply body_complete; [done|]; simpl; by rewrite He).
    erewrite bind_Some.
    2:{ eapply (Match_miss _ [TokenType.kSemicolon]); [eapply next_tok; [eassumption|set_solver]|set_solver]. }
    erewrite bind_Some by (by apply Check_hit). by eexists.
  - erewrite bind_Some by (eapply Check_miss; [by eapply statement_start|set_solver]). cbn iota.
    erewrite rbind_Ok by (apply body_complete; [done|]; simpl; by rewrite Ht).
    hit. hit. by eexists.
Qed.

(** ** Positions do not matter *)

Definition same_tok (t t' : Token) : Prop := tok_type t = tok_type t' ∧ tok_lexeme t = tok_lexeme t'.

Definition same_outcome {A} (o o' : option (A * Parser)) : Prop :=
  match o, o' with
  | Some (a, ts), Some (a', ts') => a = a' ∧ Forall2 same_tok ts ts'
  | None, None => True
  | _, _ => False
  end.

Definition respects {A} (m : M Parser A) : Prop :=
  ∀ ts ts', Forall2 same_tok ts ts' → same_outcome (m ts) (m ts').

Lemma respects_ret {A} (a : A) : respects (ret a).
Proof. by intros ts ts' H. Qed.

Lemma respects_undefined {A} : respects (@undefined_behaviour Parser A).
Proof. by intros ts ts' H. Qed.

Lemma respects_bind {A B} (m : M Parser A) (k : A → M Parser B) :
  respects m → (∀ a, respects (k a)) → respects (bind m k).
Proof.
  intros Hm Hk ts ts' H. specialize (Hm ts ts' H). unfold bind, same_outcome in *.
  destruct (m ts) as [[a us]|], (m ts') as [[a' us']|]; try done. destruct Hm as [<- Hus]. by apply Hk.
Qed.

Lemma respects_PeekType : respects PeekType.
Proof. intros ts ts' [|t t' us us' [Ht Hl] Hus]; [done|]. split; [done|]. by constructor. Qed.

Lemma respects_PeekLexeme : respects PeekLexeme.
Proof. intros ts ts' [|t t' us us' [Ht Hl] Hus]; [done|]. split; [done|]. by constructor. Qed.

Lemma respects_Advance : respects Advance.
Proof. by intros ts ts' [|t t' us us' [Ht Hl] Hus]. Qed.

Create HintDb respects discriminated.
#[export] Hint Resolve respects_ret respects_undefined respects_PeekType respects_PeekLexeme respects_Advance : respects.

(** Through binds and case distinctions. *)
Ltac respect :=
  repeat first
    [solve [eauto with respects]
    |apply respects_bind; [|intros ?]
    |progress (unfold rret, fail)
    |match goal with |- respects (match ?x with _ => _ end) => destruct x end].

Lemma respects_rbind {A B} (m : PM A) (k : A → PM B) :
  respects m → (∀ a, respects (k a)) → respects (rbind m k).
Proof. intros. unfold rbind. respect. all: auto. Qed.

Ltac respect_all := repeat first [apply respects_rbind; [|intros ?]|progress respect].

Lemma respects_Check ty : respects (Check ty).
Proof. unfold Check. respect. Qed.
#[export] Hint Resolve respects_Check : respects.

Lemma respects_Match ty : respects (Match_ ty).
Proof. unfold Match_. respect. Qed.
#[export] Hint Resolve respects_Match : respects.

Lemma respects_Expect ty ctx : respects (Expect ty ctx).
Proof. unfold Expect. respect. Qed.

Lemma respects_ident msg : respects (expect_identifier msg).
Proof. unfold expect_identifier. respect. Qed.

Lemma respects_literal : respects ParseLiteral.
Proof. unfold ParseLiteral. respect. Qed.
#[export] Hint Resolve respects_Expect respects_ident respects_literal : respects.

Lemma respects_comma_loop {A} fuel (m : PM A) acc : respects m → respects (comma_loop fuel m acc).
Proof. intros Hm. revert acc. induction fuel as [|fuel IH]; intros acc; cbn [comma_loop]; respect_all; auto. Qed.

Lemma respects_fuel {A} (F : nat → M Parser A) (g : nat → nat) :
  (∀ n, respects (F n)) → respects (λ ts, F (g (length ts)) ts).
Proof. intros HF ts ts' H. rewrite (Forall2_length _ _ _ H). by apply HF. Qed.

Lemma respects_comma {A} (m : PM A) : respects m → respects (comma_list m).
Proof. intros Hm. apply (respects_fuel (λ n, comma_loop n m []) id). intros n. by apply respects_comma_loop. Qed.
#[export] Hint Resolve respects_comma : respects.

Lemma respects_binary_loop fuel ty op m e : respects m → respects (binary_loop fuel ty op m e).
Proof. intros Hm. revert e. induction fuel as [|fuel IH]; intros e; cbn [binary_loop]; respect_all; auto. Qed.
#[export] Hint Resolve respects_binary_loop : respects.

Lemma respects_comparison m : respects m → respects (ParseComparison m).
Proof. intros Hm. unfold ParseComparison, ParsePrimary. respect_all. Qed.
#[export] Hint Resolve respects_comparison : respects.

Lemma respects_and fuel m : respects m → respects (ParseAndExpr fuel m).
Proof. intros Hm. apply respects_rbind; auto with respects. Qed.
#[export] Hint Resolve respects_and : respects.

Lemma respects_or fuel : respects (ParseOrExpr fuel).
Proof.
  induction fuel as [|fuel IH]; cbn [ParseOrExpr]; [apply respects_undefined|].
  apply respects_rbind; auto with respects.
Qed.

Lemma respects_where : respects optional_where.
Proof.
  unfold optional_where, ParseWhereClause. respect_all.
  apply (respects_fuel ParseOrExpr S), respects_or.
Qed.
#[export] Hint Resolve respects_where : respects.

Lemma respects_statement : respects ParseStatement.
Proof.
  unfold ParseStatement, ParseBody, ParseTableOrIndex, ParseSelect, ParseInsert, ParseUpdate, ParseDelete,
    ParseCreateTable, ParseCreateIndex, ParseDropTable, ParseDropIndex, ParseSelectList, optional_columns,
    optional_order_by, optional_limit.
  respect_all; apply respects_comma.
  - unfold ParseSelectItem, optional_alias. respect_all.
  - unfold ParseRow. respect_all.
  - unfold ParseAssignment. respect_all.
  - unfold ParseColumnDef, ParseColumnType, ParseVarcharLength. respect_all.
Qed.

(** ** The theorems *)

(** C31: the parser returns on every text.  It accepts with statement [s]
    exactly when the text consists of tokens from which the grammar of
    statements derives [s], so that a text has at most one parse tree; every
    error is [InvalidArgument]. *)
Theorem parser_correct (src : chars) :
  (∃ r, ParseSQL src = Some r) ∧
  (∀ s, ParseSQL src = Some (Ok s) ↔ ∃ toks, lexes 0 src toks ∧ g_sql toks s) ∧
  (∀ e, ParseSQL src = Some (Err e) → code_ e = kInvalidArgument).
Proof.
  destruct (ParseSQL_total src) as (r & E & Hr). split_and!.
  - by exists r.
  - intros s. split; [intros E'; by simplify_eq|intros (toks & Hl & Hg)].
    destruct (statement_complete _ _ Hg) as [ts' E']. unfold ParseSQL.
    by rewrite (TokenizeAll_lexes _ _ Hl), E'.
  - intros e E'. by simplify_eq.
Qed.

(** Layout does not matter.  Two texts whose tokens agree in type and
    lexeme, whatever blanks and comments stand between them, are both accepted
    with the same statement or both rejected with the same message. *)
Theorem parser_layout_irrelevant (src src' : chars) (toks toks' : list Token) :
  lexes 0 src toks → lexes 0 src' toks' → Forall2 same_tok toks toks' →
  ParseSQL src = ParseSQL src'.
Proof.
  intros H H' Hs. unfold ParseSQL. rewrite (TokenizeAll_lexes _ _ H), (TokenizeAll_lexes _ _ H').
  pose proof (respects_statement _ _ Hs) as Ho. unfold same_outcome in Ho.
  destruct (ParseStatement toks) as [[r us]|], (ParseStatement toks') as [[r' us']|]; try done.
  by destruct Ho as [-> _].
Qed.

Definition layout_tokens (a b c d e : nat) : list Token :=
  [mkToken TokenType.kDrop (String.list_ascii_of_string "DROP") a;
   mkToken TokenType.kTable (String.list_ascii_of_string "TABLE") b;
   mkToken TokenType.kIdentifier (String.list_ascii_of_string "t") c;
   mkToken TokenType.kSemicolon (String.list_ascii_of_string ";") d; mkToken TokenType.kEndOfInput [] e].

Lemma parser_layout_irrelevant_witness :
  ParseSQL (String.list_ascii_of_string "DROP TABLE t;") =
  ParseSQL (String.list_ascii_of_string "  DROP   TABLE t ;  ").
Proof.
  apply (parser_layout_irrelevant _ _ (layout_tokens 0 5 11 12 13) (layout_tokens 2 9 15 17 20)).
  - apply TokenizeAll_sound. vm_compute. reflexivity.
  - apply TokenizeAll_sound. vm_compute. reflexivity.
  - unfold layout_tokens. repeat (apply Forall2_cons; split; [by split|]). by apply Forall2_nil.
Defined.
