(* ===== verification/Operators.v ===== *)
(** * Query operators: src/executor/operator.hpp, filter.hpp, project.hpp, limit.hpp, sort.hpp, aggregate.hpp

    An operator is an object with the methods [Open], [Next], [Close] and
    [GetError]; [Operator W Op] is that interface for objects of type [Op] whose
    methods act on a world [W], the rest of the database.  An operator owns its
    child; a [std::unique_ptr<Operator>] that may point to objects of two
    classes is a sum, and the instance for sums is the virtual dispatch.

    Loops over a child carry fuel, for which one more than the number of its
    tuples is enough. *)

From Stdlib Require Import SpecFloat.
From S2P Require Import Prelude Util Value Ast ExprEval.

Record Tuple := mkTuple { tup_rid : RecordId; tup_values : list Value }.

Class Operator (W Op : Type) := {
  Open : nat → M (Op * W) unit;
  Next : nat → M (Op * W) (option Tuple);
  Close : M (Op * W) unit;
  GetError : Op → Status
}.

(** Running a method of a part of an object. *)
Definition on_part {Op C W A} (get : Op → C) (set : C → Op → Op) (m : M (C * W) A) : M (Op * W) A :=
  λ '(op, w),
    match m (get op, w) with
    | Some (a, (c, w')) => Some (a, (set c op, w'))
    | None => None
    end.

(** Setting members. *)
Definition set_members {Op W} (f : Op → Op) : M (Op * W) unit := modify (λ '(op, w), (f op, w)).
Definition members {Op W} : M (Op * W) Op := gets fst.

(** ** Dispatch *)

Definition dispatch {A B W X} (m : M (A * W) X) (n : M (B * W) X) : M ((A + B) * W) X :=
  λ '(op, w),
    match op with
    | inl a => match m (a, w) with Some (x, (a', w')) => Some (x, (inl a', w')) | None => None end
    | inr b => match n (b, w) with Some (x, (b', w')) => Some (x, (inr b', w')) | None => None end
    end.

#[export] Instance sum_operator {W A B} `{Operator W A} `{Operator W B} : Operator W (A + B) := {|
  Open fuel := dispatch (Open fuel) (Open fuel);
  Next fuel := dispatch (Next fuel) (Next fuel);
  Close := dispatch Close Close;
  GetError op := match op with inl a => GetError a | inr b => GetError b end |}.

(** [while (auto tuple = op->Next()) out.push_back(...)]. *)
Fixpoint drain {W Op} `{Operator W Op} (next_fuel fuel : nat) (out : list Tuple) : M (Op * W) (list Tuple) :=
  match fuel with
  | O => undefined_behaviour
  | S fuel' =>
      let! tuple := Next next_fuel in
      match tuple with
      | None => ret out
      | Some t => drain next_fuel fuel' (out ++ [t])
      end
  end.

(** ** filter.hpp *)

Record FilterOperator (C : Type) := mkFilter {
  filter_child_ : C;
  filter_predicate_ : option Expr;
  filter_schema_ : Schema;
  filter_error_ : Status
}.
Arguments mkFilter {C}.
Arguments filter_child_ {C}.
Arguments filter_predicate_ {C}.
Arguments filter_schema_ {C}.
Arguments filter_error_ {C}.

Definition FilterOperator_new {C} (child : C) (predicate : option Expr) (schema : Schema) : FilterOperator C :=
  mkFilter child predicate schema Status_OK.

Section filter.
Context {W C : Type} `{Operator W C}.

Definition filter_set_child (c : C) (f : FilterOperator C) : FilterOperator C :=
  mkFilter c (filter_predicate_ f) (filter_schema_ f) (filter_error_ f).
Definition filter_set_error (e : Status) (f : FilterOperator C) : FilterOperator C :=
  mkFilter (filter_child_ f) (filter_predicate_ f) (filter_schema_ f) e.
Definition filter_on_child {A} (m : M (C * W) A) : M (FilterOperator C * W) A :=
  on_part filter_child_ filter_set_child m.

(** [while (true)]. *)
Fixpoint filter_next (child_fuel fuel : nat) : M (FilterOperator C * W) (option Tuple) :=
  match fuel with
  | O => undefined_behaviour
  | S fuel' =>
      let! tuple := filter_on_child (Next child_fuel) in
      match tuple with
      | None => ret None
      | Some t =>
          let! f := members in
          match EvaluatePredicate (filter_predicate_ f) (filter_schema_ f) (tup_values t) with
          | None => undefined_behaviour
          | Some (Err e) => do! set_members (filter_set_error e) in ret None
          | Some (Ok true) => ret (Some t)
          | Some (Ok false) => filter_next child_fuel fuel'
          end
      end
  end.

#[export] Instance filter_operator : Operator W (FilterOperator C) := {|
  Open fuel := do! filter_on_child (Open fuel) in set_members (filter_set_error Status_OK);
  Next fuel := filter_next fuel fuel;
  Close := filter_on_child Close;
  GetError f := if status_ok (filter_error_ f) then GetError (filter_child_ f) else filter_error_ f |}.
End filter.

(** ** project.hpp *)

Record ProjectOperator (C : Type) := mkProject {
  project_child_ : C;
  indices_ : list nat;
  project_column_names_ : list string;
  project_error_ : Status
}.
Arguments mkProject {C}.
Arguments project_child_ {C}.
Arguments indices_ {C}.
Arguments project_column_names_ {C}.
Arguments project_error_ {C}.

(** The second loop of [BuildColumnPlan]; an item without a column is
    undefined. *)
Fixpoint plan_items (schema : Schema) (items : list SelectItem) (indices : list nat) (names : list string) :
    option (list nat * list string * Status) :=
  match items with
  | [] => Some (indices, names, Status_OK)
  | item :: items' =>
      match item_column item with
      | None => None
      | Some column =>
          match IndexOf schema column with
          | None =>
              Some (indices, names, InvalidArgument ("unknown column '" +:+ column +:+ "' in SELECT list"))
          | Some idx => plan_items schema items' (indices ++ [idx]) (names ++ [default column (item_alias item)])
          end
      end
  end.

Definition BuildColumnPlan (schema : Schema) (items : list SelectItem) : option (list nat * list string * Status) :=
  match items with
  | [item] =>
      if is_star item then
        indices ← mapM (λ col, IndexOf schema (col_name col)) schema;
        Some (indices, col_name <$> schema, Status_OK)
      else plan_items schema items [] []
  | _ => plan_items schema items [] []
  end.

Definition ProjectOperator_new {C} (child : C) (items : list SelectItem) (schema : Schema) :
    option (ProjectOperator C) :=
  '(indices, names, error) ← BuildColumnPlan schema items;
  Some (mkProject child indices names error).

Section project.
Context {W C : Type} `{Operator W C}.

Definition project_set_child (c : C) (p : ProjectOperator C) : ProjectOperator C :=
  mkProject c (indices_ p) (project_column_names_ p) (project_error_ p).
Definition project_set_error (e : Status) (p : ProjectOperator C) : ProjectOperator C :=
  mkProject (project_child_ p) (indices_ p) (project_column_names_ p) e.
Definition project_on_child {A} (m : M (C * W) A) : M (ProjectOperator C * W) A :=
  on_part project_child_ project_set_child m.

Definition project_next (fuel : nat) : M (ProjectOperator C * W) (option Tuple) :=
  let! input := project_on_child (Next fuel) in
  match input with
  | None => ret None
  | Some t =>
      let! p := members in
      match mapM (λ idx, tup_values t !! idx) (indices_ p) with
      | None =>
          do! set_members (project_set_error (Corruption "Project: column index out of range")) in ret None
      | Some values => ret (Some (mkTuple (tup_rid t) values))
      end
  end.

#[export] Instance project_operator : Operator W (ProjectOperator C) := {|
  Open fuel := do! project_on_child (Open fuel) in set_members (project_set_error Status_OK);
  Next := project_next;
  Close := project_on_child Close;
  GetError p := if status_ok (project_error_ p) then GetError (project_child_ p) else project_error_ p |}.
End project.

(** ** limit.hpp *)

Record LimitOperator (C : Type) := mkLimit {
  limit_child_ : C;
  limit_ : Z;
  returned_ : Z
}.
Arguments mkLimit {C}.
Arguments limit_child_ {C}.
Arguments limit_ {C}.
Arguments returned_ {C}.

Definition LimitOperator_new {C} (child : C) (limit : Z) : LimitOperator C := mkLimit child limit 0.

Section limit.
Context {W C : Type} `{Operator W C}.

Definition limit_set_child (c : C) (l : LimitOperator C) : LimitOperator C := mkLimit c (limit_ l) (returned_ l).
Definition limit_set_returned (n : Z) (l : LimitOperator C) : LimitOperator C := mkLimit (limit_child_ l) (limit_ l) n.
Definition limit_on_child {A} (m : M (C * W) A) : M (LimitOperator C * W) A :=
  on_part limit_child_ limit_set_child m.

Definition limit_next (fuel : nat) : M (LimitOperator C * W) (option Tuple) :=
  let! l := members in
  if returned_ l >=? limit_ l then ret None
  else
    let! tuple := limit_on_child (Next fuel) in
    match tuple with
    | None => ret None
    | Some t => do! set_members (limit_set_returned (returned_ l + 1)) in ret (Some t)
    end.

#[export] Instance limit_operator : Operator W (LimitOperator C) := {|
  Open fuel := do! limit_on_child (Open fuel) in set_members (limit_set_returned 0);
  Next := limit_next;
  Close := limit_on_child Close;
  GetError l := GetError (limit_child_ l) |}.
End limit.

(** ** sort.hpp *)

(** [std::stable_sort]: the elements in order, equivalent ones as they were;
    undefined when [less] is not a strict weak order of the elements. *)
Fixpoint insert_stable {A} (less : A → A → bool) (x : A) (l : list A) : list A :=
  match l with
  | [] => [x]
  | y :: l' => if less x y then x :: l else y :: insert_stable less x l'
  end.

Definition sort_stable {A} (less : A → A → bool) (l : list A) : list A :=
  fold_left (λ sorted x, insert_stable less x sorted) l [].

Definition strict_weak_order {A} (less : A → A → bool) (l : list A) : bool :=
  forallb (λ a, negb (less a a) && forallb (λ b, forallb (λ c,
    (if less a b && less b c then less a c else true) &&
    (if negb (less a b) && negb (less b a) && negb (less b c) && negb (less c b)
     then negb (less a c) && negb (less c a) else true)) l) l) l.

Definition stable_sort {A} (less : A → A → bool) (l : list A) : option (list A) :=
  if strict_weak_order less l then Some (sort_stable less l) else None.

(** The comparison of two values of the sort column. *)
Definition key_less (descending : bool) (a b : Value) : bool :=
  let a_null := IsNull a in
  let b_null := IsNull b in
  if negb (Bool.eqb a_null b_null) then if descending then negb a_null else a_null
  else if a_null && b_null then false
  else
    let cmp := CompareForSort a b in
    if descending then cmp >? 0 else cmp <? 0.

(** Fewer than two elements are not compared; otherwise each has to have the
    column. *)
Definition sort_tuples (col : nat) (descending : bool) (ts : list Tuple) : option (list Tuple) :=
  match ts with
  | [] | [_] => Some ts
  | _ =>
      keyed ← mapM (λ t, (λ v, (v, t)) <$> tup_values t !! col) ts;
      sorted ← stable_sort (λ a b, key_less descending a.1 b.1) keyed;
      Some (sorted.*2)
  end.

Record SortOperator (C : Type) := mkSort {
  sort_child_ : C;
  order_by_ : OrderByClause;
  sort_schema_ : Schema;
  sort_buffered_ : list Tuple;
  sort_cursor_ : nat;
  sort_error_ : Status;
  child_error_ : Status
}.
Arguments mkSort {C}.
Arguments sort_child_ {C}.
Arguments order_by_ {C}.
Arguments sort_schema_ {C}.
Arguments sort_buffered_ {C}.
Arguments sort_cursor_ {C}.
Arguments sort_error_ {C}.
Arguments child_error_ {C}.

Definition SortOperator_new {C} (child : C) (order_by : OrderByClause) (schema : Schema) : SortOperator C :=
  mkSort child order_by schema [] 0 Status_OK Status_OK.

Section sort.
Context {W C : Type} `{Operator W C}.

Definition sort_set_child (c : C) (s : SortOperator C) : SortOperator C :=
  mkSort c (order_by_ s) (sort_schema_ s) (sort_buffered_ s) (sort_cursor_ s) (sort_error_ s) (child_error_ s).
Definition sort_set_buffer (b : list Tuple) (cursor : nat) (s : SortOperator C) : SortOperator C :=
  mkSort (sort_child_ s) (order_by_ s) (sort_schema_ s) b cursor (sort_error_ s) (child_error_ s).
Definition sort_set_error (e : Status) (s : SortOperator C) : SortOperator C :=
  mkSort (sort_child_ s) (order_by_ s) (sort_schema_ s) (sort_buffered_ s) (sort_cursor_ s) e (child_error_ s).
Definition sort_set_child_error (e : Status) (s : SortOperator C) : SortOperator C :=
  mkSort (sort_child_ s) (order_by_ s) (sort_schema_ s) (sort_buffered_ s) (sort_cursor_ s) (sort_error_ s) e.
Definition sort_on_child {A} (m : M (C * W) A) : M (SortOperator C * W) A :=
  on_part sort_child_ sort_set_child m.

Definition sort_open (fuel : nat) : M (SortOperator C * W) unit :=
  do! set_members (sort_set_buffer [] 0) in
  do! set_members (sort_set_error Status_OK) in
  let! s := members in
  match IndexOf (sort_schema_ s) (order_column (order_by_ s)) with
  | None =>
      set_members (sort_set_error
        (InvalidArgument ("ORDER BY: unknown column '" +:+ order_column (order_by_ s) +:+ "'")))
  | Some col =>
      do! sort_on_child (Open fuel) in
      let! buffered := sort_on_child (drain fuel fuel []) in
      let! s := members in
      do! set_members (sort_set_child_error (GetError (sort_child_ s))) in
      do! sort_on_child Close in
      match sort_tuples col (order_descending (order_by_ s)) buffered with
      | None => undefined_behaviour
      | Some sorted => set_members (sort_set_buffer sorted 0)
      end
  end.

Definition sort_next : M (SortOperator C * W) (option Tuple) :=
  let! s := members in
  if negb (status_ok (sort_error_ s)) then ret None
  else
    match sort_buffered_ s !! sort_cursor_ s with
    | None => ret None
    | Some t => do! set_members (sort_set_buffer (sort_buffered_ s) (S (sort_cursor_ s))) in ret (Some t)
    end.

#[export] Instance sort_operator : Operator W (SortOperator C) := {|
  Open := sort_open;
  Next _ := sort_next;
  Close := set_members (λ s, sort_set_buffer [] (sort_cursor_ s) s);
  GetError s := if status_ok (sort_error_ s) then child_error_ s else sort_error_ s |}.
End sort.

(** ** aggregate.hpp *)

(** [acc_count] is an [int64_t] that counts rows of one table; a file has fewer
    than 2^31 pages of 4096 bytes, so it stays far below its limit. *)

Record Accumulator := mkAcc {
  acc_count : Z;
  acc_sum : double;
  acc_has_value : bool;
  acc_min_v : option Value;
  acc_max_v : option Value
}.

Definition Accumulator_new : Accumulator := mkAcc 0 (S754_zero false) false None None.

Definition FuncName (f : AggregateFunc) : string :=
  match f with kCount => "COUNT" | kSum => "SUM" | kAvg => "AVG" | kMin => "MIN" | kMax => "MAX" end.

(** [a + b] and [a / b] on doubles. *)
Definition double_add (a b : double) : double := SFadd 53 1024 a b.
Definition double_div (a b : double) : double := SFdiv 53 1024 a b.

(** An item without an aggregate is undefined. *)
Definition item_name (item : SelectItem) : option string :=
  f ← item_aggregate item;
  let arg := if aggregate_star item then "*"%string else default "?"%string (item_column item) in
  Some (default (FuncName f +:+ "(" +:+ arg +:+ ")") (item_alias item)).

Definition BuildColumnNames (items : list SelectItem) : option (list string) := mapM item_name items.

Definition is_numeric (t : ColumnType) : bool :=
  match t with Value.kInt | Value.kBigInt | Value.kDouble => true | _ => false end.

(** The first loop of [Compute]. *)
Fixpoint check_items (schema : Schema) (items : list SelectItem) : option Status :=
  match items with
  | [] => Some Status_OK
  | item :: items' =>
      f ← item_aggregate item;
      if (bool_decide (f = kSum) || bool_decide (f = kAvg)) && negb (aggregate_star item) then
        column ← item_column item;
        match IndexOf schema column with
        | None => Some (InvalidArgument ("unknown column '" +:+ column +:+ "' in aggregate"))
        | Some idx =>
            col ← schema !! idx;
            if negb (is_numeric (col_type col)) then
              Some (InvalidArgument ("SUM/AVG requires a numeric column, got " +:+ column))
            else check_items schema items'
        end
      else check_items schema items'
  end.

Definition add_count (acc : Accumulator) : Accumulator :=
  mkAcc (acc_count acc + 1) (acc_sum acc) (acc_has_value acc) (acc_min_v acc) (acc_max_v acc).

(** One item and one tuple; [None] is undefined behaviour. *)
Definition accumulate (schema : Schema) (item : SelectItem) (values : list Value) (acc : Accumulator) :
    option (Result Accumulator) :=
  f ← item_aggregate item;
  if bool_decide (f = kCount) && aggregate_star item then Some (Ok (add_count acc))
  else
    column ← item_column item;
    match IndexOf schema column with
    | None =>
        Some (Err (InvalidArgument ("unknown column '" +:+ column +:+
          (if bool_decide (f = kCount) then "' in COUNT" else "' in aggregate"))))
    | Some idx =>
        v ← values !! idx;
        if IsNull v then Some (Ok acc)
        else
          match f with
          | kCount => Some (Ok (add_count acc))
          | kSum | kAvg =>
              match ValueToDoubleOrNull v with
              | None => Some (Err (InvalidArgument "non-numeric value encountered in SUM/AVG"))
              | Some d =>
                  Some (Ok (mkAcc (acc_count acc + 1) (double_add (acc_sum acc) d) true (acc_min_v acc) (acc_max_v acc)))
              end
          | kMin =>
              let take := match acc_min_v acc with None => true | Some m => CompareForSort v m <? 0 end in
              Some (Ok (mkAcc (acc_count acc) (acc_sum acc) true (if take then Some v else acc_min_v acc) (acc_max_v acc)))
          | kMax =>
              let take := match acc_max_v acc with None => true | Some m => CompareForSort v m >? 0 end in
              Some (Ok (mkAcc (acc_count acc) (acc_sum acc) true (acc_min_v acc) (if take then Some v else acc_max_v acc)))
          end
    end.

(** The items of one tuple. *)
Fixpoint accumulate_items (schema : Schema) (items : list SelectItem) (values : list Value)
    (accs : list Accumulator) : option (Result (list Accumulator)) :=
  match items, accs with
  | item :: items', acc :: accs' =>
      r ← accumulate schema item values acc;
      match r with
      | Err e => Some (Err e)
      | Ok acc =>
          rs ← accumulate_items schema items' values accs';
          match rs with Err e => Some (Err e) | Ok accs => Some (Ok (acc :: accs)) end
      end
  | _, _ => Some (Ok [])
  end.

(** The last loop of [Compute]. *)
Definition result_value (item : SelectItem) (acc : Accumulator) : option Value :=
  f ← item_aggregate item;
  Some match f with
       | kCount => VInt64 (acc_count acc)
       | kSum => if acc_has_value acc then VDouble (bits_of_double (acc_sum acc)) else VNull
       | kAvg =>
           if acc_has_value acc then
             VDouble (bits_of_double (double_div (acc_sum acc) (double_of_Z (acc_count acc))))
           else VNull
       | kMin => default VNull (acc_min_v acc)
       | kMax => default VNull (acc_max_v acc)
       end.

Fixpoint result_values (items : list SelectItem) (accs : list Accumulator) : option (list Value) :=
  match items, accs with
  | item :: items', acc :: accs' => v ← result_value item acc; vs ← result_values items' accs'; Some (v :: vs)
  | _, _ => Some []
  end.

Record AggregateOperator (C : Type) := mkAggregate {
  agg_child_ : C;
  agg_items_ : list SelectItem;
  agg_schema_ : Schema;
  agg_column_names_ : list string;
  result_values_ : list Value;
  done_ : bool;
  agg_error_ : Status
}.
Arguments mkAggregate {C}.
Arguments agg_child_ {C}.
Arguments agg_items_ {C}.
Arguments agg_schema_ {C}.
Arguments agg_column_names_ {C}.
Arguments result_values_ {C}.
Arguments done_ {C}.
Arguments agg_error_ {C}.

Definition AggregateOperator_new {C} (child : C) (items : list SelectItem) (schema : Schema) :
    option (AggregateOperator C) :=
  names ← BuildColumnNames items;
  Some (mkAggregate child items schema names [] false Status_OK).

Section aggregate.
Context {W C : Type} `{Operator W C}.

Definition agg_set_child (c : C) (a : AggregateOperator C) : AggregateOperator C :=
  mkAggregate c (agg_items_ a) (agg_schema_ a) (agg_column_names_ a) (result_values_ a) (done_ a) (agg_error_ a).
Definition agg_set_done (b : bool) (a : AggregateOperator C) : AggregateOperator C :=
  mkAggregate (agg_child_ a) (agg_items_ a) (agg_schema_ a) (agg_column_names_ a) (result_values_ a) b (agg_error_ a).
Definition agg_set_error (e : Status) (a : AggregateOperator C) : AggregateOperator C :=
  mkAggregate (agg_child_ a) (agg_items_ a) (agg_schema_ a) (agg_column_names_ a) (result_values_ a) (done_ a) e.
Definition agg_set_results (vs : list Value) (a : AggregateOperator C) : AggregateOperator C :=
  mkAggregate (agg_child_ a) (agg_items_ a) (agg_schema_ a) (agg_column_names_ a) vs (done_ a) (agg_error_ a).
Definition agg_on_child {A} (m : M (C * W) A) : M (AggregateOperator C * W) A :=
  on_part agg_child_ agg_set_child m.

(** [while (auto tuple = child_->Next())]; [None] when an error ended it. *)
Fixpoint agg_loop (child_fuel fuel : nat) (accs : list Accumulator) :
    M (AggregateOperator C * W) (option (list Accumulator)) :=
  match fuel with
  | O => undefined_behaviour
  | S fuel' =>
      let! tuple := agg_on_child (Next child_fuel) in
      match tuple with
      | None => ret (Some accs)
      | Some t =>
          let! a := members in
          match accumulate_items (agg_schema_ a) (agg_items_ a) (tup_values t) accs with
          | None => undefined_behaviour
          | Some (Err e) => do! set_members (agg_set_error e) in ret None
          | Some (Ok accs) => agg_loop child_fuel fuel' accs
          end
      end
  end.

Definition Compute_ (fuel : nat) : M (AggregateOperator C * W) unit :=
  let! a := members in
  match check_items (agg_schema_ a) (agg_items_ a) with
  | None => undefined_behaviour
  | Some status =>
      if negb (status_ok status) then set_members (agg_set_error status)
      else if negb (status_ok (agg_error_ a)) then ret tt
      else
        let! accs := agg_loop fuel fuel (replicate (length (agg_items_ a)) Accumulator_new) in
        match accs with
        | None => ret tt
        | Some accs =>
            match result_values (agg_items_ a) accs with
            | None => undefined_behaviour
            | Some vs => set_members (λ a, agg_set_results (result_values_ a ++ vs) a)
            end
        end
  end.

(** A default-constructed record id. *)
Definition agg_next (fuel : nat) : M (AggregateOperator C * W) (option Tuple) :=
  let! a := members in
  if done_ a then ret None
  else
    do! set_members (agg_set_done true) in
    do! Compute_ fuel in
    let! a := members in
    if negb (status_ok (agg_error_ a)) then ret None
    else ret (Some (mkTuple (mkRid kInvalidPageId 0) (result_values_ a))).

#[export] Instance aggregate_operator : Operator W (AggregateOperator C) := {|
  Open fuel :=
    do! agg_on_child (Open fuel) in
    do! set_members (agg_set_done false) in
    set_members (agg_set_error Status_OK);
  Next := agg_next;
  Close := agg_on_child Close;
  GetError a := if status_ok (agg_error_ a) then GetError (agg_child_ a) else agg_error_ a |}.
End aggregate.
