(* ===== verification/OperatorSpec.v ===== *)
(** * What the query operators compute

    [yields] describes an operator by the tuples it still returns and the error
    it then reports; [opens] an operator before [Open].  Each operator maps the
    description of its child to its own: a filter, a projection, a prefix, a
    stable sort, a tuple of aggregates.  The world is any that the operations
    keep in the invariant [I]. *)

From stdpp Require Import sorting.
From Stdlib Require Import SpecFloat.
From S2P Require Import Prelude Util Value RecordCodec Ast ExprEval Operators.

Section operators.
Context {W : Type} (I : W → Prop) (fuel : nat).

Section describe.
Context {Op : Type} `{Operator W Op}.

(** [op] returns the tuples [ts] and then none.  [GetError] is [pre] before
    each of them and [post] at the end. *)
Fixpoint yields (op : Op) (pre : Status) (ts : list Tuple) (post : Status) : Prop :=
  GetError op = pre ∧
  ∀ w, I w →
    match ts with
    | [] => ∃ op' w', Next fuel (op, w) = Some (None, (op', w')) ∧ I w' ∧ GetError op' = post
    | t :: ts' => ∃ op' w', Next fuel (op, w) = Some (Some t, (op', w')) ∧ I w' ∧ yields op' pre ts' post
    end.

(** Opening [op] gives an operator that yields what [Q] allows. *)
Definition opens (op : Op) (Q : Status → list Tuple → Status → Prop) : Prop :=
  ∀ w, I w → ∃ op' w' pre ts post, Open fuel (op, w) = Some (tt, (op', w')) ∧ I w' ∧
    yields op' pre ts post ∧ Q pre ts post.

(** [Close] returns, at any time. *)
Definition closes : Prop := ∀ (op : Op) w, I w → ∃ op' w', Close (op, w) = Some (tt, (op', w')) ∧ I w'.

Lemma yields_drain op pre ts post out n w :
  yields op pre ts post → I w → (length ts < n)%nat →
  ∃ op' w', drain fuel n out (op, w) = Some (out ++ ts, (op', w')) ∧ I w' ∧ GetError op' = post.
Proof.
  induction ts as [|t ts IH] in op, out, n, w |- *; intros Hy Hw Hn; destruct n as [|n]; simpl in *; try lia.
  - destruct Hy as [_ Hy]. destruct (Hy w Hw) as (op' & w' & E & ? & ?). exists op', w'.
    unfold bind. rewrite E, app_nil_r. done.
  - destruct Hy as [_ Hy]. destruct (Hy w Hw) as (op' & w' & E & Hw' & Hy').
    destruct (IH op' (out ++ [t]) n w' Hy' Hw') as (op2 & w2 & E2 & ? & ?); [lia|].
    exists op2, w2. unfold bind. rewrite E, E2, <- app_assoc. done.
Qed.

Lemma opens_impl op (Q Q' : Status → list Tuple → Status → Prop) :
  opens op Q → (∀ pre ts post, Q pre ts post → Q' pre ts post) → opens op Q'.
Proof.
  intros Ho HQ w Hw. destruct (Ho w Hw) as (op' & w' & pre & ts & post & ? & ? & ? & ?).
  exists op', w', pre, ts, post. auto.
Qed.
End describe.

(** ** Dispatch *)

Section sum.
Context {A B : Type} `{Operator W A} `{Operator W B}.

Lemma yields_inl (a : A) pre ts post : yields a pre ts post → yields (inl a : A + B) pre ts post.
Proof.
  induction ts as [|t ts IH] in a |- *; intros [Hp Hy]; (split; [done|]); intros w Hw;
    destruct (Hy w Hw) as (a' & w' & E & Hw' & Hr); exists (inl a'), w'; simpl; rewrite E; auto.
Qed.

Lemma yields_inr (b : B) pre ts post : yields b pre ts post → yields (inr b : A + B) pre ts post.
Proof.
  induction ts as [|t ts IH] in b |- *; intros [Hp Hy]; (split; [done|]); intros w Hw;
    destruct (Hy w Hw) as (b' & w' & E & Hw' & Hr); exists (inr b'), w'; simpl; rewrite E; auto.
Qed.

Lemma opens_inl (a : A) Q : opens a Q → opens (inl a : A + B) Q.
Proof.
  intros Ho w Hw. destruct (Ho w Hw) as (a' & w' & pre & ts & post & E & Hw' & Hy & HQ).
  exists (inl a'), w', pre, ts, post. simpl. rewrite E. do 2 (split; [done|]). split; [by apply yields_inl|done].
Qed.

Lemma opens_inr (b : B) Q : opens b Q → opens (inr b : A + B) Q.
Proof.
  intros Ho w Hw. destruct (Ho w Hw) as (b' & w' & pre & ts & post & E & Hw' & Hy & HQ).
  exists (inr b'), w', pre, ts, post. simpl. rewrite E. do 2 (split; [done|]). split; [by apply yields_inr|done].
Qed.

Lemma closes_sum : closes (Op := A) → closes (Op := B) → closes (Op := A + B).
Proof.
  intros Ha Hb [a|b] w Hw; [destruct (Ha a w Hw) as (x & w' & E & ?)|destruct (Hb b w Hw) as (x & w' & E & ?)];
    [exists (inl x)|exists (inr x)]; exists w'; simpl; by rewrite E.
Qed.
End sum.

(** A method of the child, from the parent. *)
Lemma on_part_run {Op C A} (get : Op → C) (set : C → Op → Op) (m : M (C * W) A) op w a c' w' :
  m (get op, w) = Some (a, (c', w')) → on_part get set m (op, w) = Some (a, (set c' op, w')).
Proof. intros E. unfold on_part. by rewrite E. Qed.

Lemma closes_part {Op C} `{Operator W C} (get : Op → C) (set : C → Op → Op) (op : Op) w :
  closes (Op := C) → I w → ∃ op' w', on_part get set Close (op, w) = Some (tt, (op', w')) ∧ I w'.
Proof.
  intros Hc Hw. destruct (Hc (get op) w Hw) as (c' & w' & E & ?). eexists _, w'. by erewrite on_part_run.
Qed.

(** ** Filter *)

Definition predicate_on (pred : option Expr) (schema : Schema) (t : Tuple) : option (Result bool) :=
  EvaluatePredicate pred schema (tup_values t).

(** The tuples that match, up to the first that cannot be evaluated. *)
Fixpoint filter_stream (pred : option Expr) (schema : Schema) (ts : list Tuple) (post : Status) :
    list Tuple * Status :=
  match ts with
  | [] => ([], post)
  | t :: ts' =>
      match predicate_on pred schema t with
      | Some (Err e) => ([], e)
      | Some (Ok b) =>
          let '(r, p) := filter_stream pred schema ts' post in (if b then t :: r else r, p)
      | None => ([], post)
      end
  end.

(** Tuples of the table's width. *)
Definition wide (schema : Schema) (ts : list Tuple) : Prop :=
  Forall (λ t, length (tup_values t) = length schema) ts.

Lemma predicate_defined pred schema t :
  length (tup_values t) = length schema → ∃ r, predicate_on pred schema t = Some r.
Proof.
  intros Hl. unfold predicate_on, EvaluatePredicate. destruct pred as [e|]; [|eauto].
  destruct (Evaluate_defined schema (tup_values t) e Hl) as [[[]|] ->]; eauto.
Qed.

Lemma Evaluate_err e schema row s : Evaluate e schema row = Some (Err s) → status_ok s = false.
Proof.
  induction e as [c|v|l IHl op r IHr]; simpl.
  - destruct (IndexOf schema c); [by destruct (row !! n)|]. intros [= <-]. done.
  - done.
  - unfold ValuesEqual, CompareOrdered. intros E.
    repeat (case_match; simplify_eq; try done; eauto).
Qed.

Lemma predicate_err pred schema t e : predicate_on pred schema t = Some (Err e) → status_ok e = false.
Proof.
  unfold predicate_on, EvaluatePredicate. destruct pred as [p|]; [|done].
  destruct (Evaluate p schema (tup_values t)) as [[[]|s]|] eqn:E; try done; intros [= <-]; try done.
  by eapply Evaluate_err.
Qed.

Section filter.
Context {C : Type} `{Operator W C}.

Lemma filter_next_spec pred schema (c : C) pre ts post n w :
  yields c pre ts post → wide schema ts → I w → (length ts < n)%nat →
  let '(out, p) := filter_stream pred schema ts post in
  match out with
  | [] => ∃ f' w', filter_next fuel n (mkFilter c pred schema Status_OK, w) = Some (None, (f', w')) ∧ I w' ∧
      GetError f' = p
  | t :: out' => ∃ c' w' ts', filter_next fuel n (mkFilter c pred schema Status_OK, w) =
      Some (Some t, (mkFilter c' pred schema Status_OK, w')) ∧ I w' ∧
      yields c' pre ts' post ∧ wide schema ts' ∧ (length ts' < length ts)%nat ∧
      filter_stream pred schema ts' post = (out', p)
  end.
Proof.
  induction ts as [|t ts IH] in c, n, w |- *; intros Hy Hwd Hw Hn; destruct n as [|n]; simpl in Hn; try lia.
  - destruct Hy as [_ Hy]. destruct (Hy w Hw) as (c' & w' & E & Hw' & Hp). simpl.
    eexists _, w'. unfold bind, filter_on_child. erewrite on_part_run by exact E. by split.
  - destruct Hy as [_ Hy]. destruct (Hy w Hw) as (c' & w' & E & Hw' & Hy').
    apply Forall_cons in Hwd as [Ht Hwd]. destruct (predicate_defined pred schema t Ht) as [r Hr].
    assert (filter_next fuel (S n) (mkFilter c pred schema Status_OK, w) =
      match r with
      | Err e => Some (None, (mkFilter c' pred schema e, w'))
      | Ok true => Some (Some t, (mkFilter c' pred schema Status_OK, w'))
      | Ok false => filter_next fuel n (mkFilter c' pred schema Status_OK, w')
      end) as ->.
    { cbn [filter_next]. unfold bind at 1, filter_on_child at 1. erewrite on_part_run by exact E.
      unfold bind at 1, members, gets. cbn [fst filter_predicate_ filter_schema_ filter_set_child].
      fold (predicate_on pred schema t). rewrite Hr. by destruct r as [[]|e]. }
    cbn [filter_stream]. rewrite Hr. destruct r as [b|e].
    + specialize (IH c' n w' Hy' Hwd Hw' ltac:(lia)). destruct (filter_stream pred schema ts post) as [r p] eqn:Ef.
      destruct b.
      * exists c', w', ts. do 4 (split; [done|]). split; [simpl; lia|done].
      * destruct r as [|t2 r]; [exact IH|]. destruct IH as (c2 & w2 & ts2 & ? & ? & ? & ? & ? & ?).
        exists c2, w2, ts2. do 4 (split; [done|]). split; [simpl; lia|done].
    + eexists _, w'. split; [reflexivity|]. split; [done|]. simpl. by rewrite (predicate_err _ _ _ _ Hr).
Qed.

Lemma yields_filter pred schema (c : C) pre ts post :
  yields c pre ts post → wide schema ts → (length ts < fuel)%nat →
  yields (mkFilter c pred schema Status_OK) pre (filter_stream pred schema ts post).1
    (filter_stream pred schema ts post).2.
Proof.
  remember (filter_stream pred schema ts post) as fs eqn:Efs. destruct fs as [out p]. symmetry in Efs. simpl.
  induction out as [|t out IH] in c, ts, Efs |- *; intros Hy Hwd Hf;
    (split; [destruct ts; apply Hy|]); intros w Hw;
    pose proof (filter_next_spec pred schema c pre ts post fuel w Hy Hwd Hw Hf) as Hn; rewrite Efs in Hn.
  - exact Hn.
  - destruct Hn as (c' & w' & ts' & E & Hw' & Hy' & Hwd' & Hl & Ef). eexists _, w'. split; [exact E|].
    split; [done|]. apply (IH c' ts'); try done. lia.
Qed.

Lemma opens_filter pred schema (c : C) (Q : Status → list Tuple → Status → Prop) :
  opens c Q → (∀ pre ts post, Q pre ts post → wide schema ts ∧ (length ts < fuel)%nat) →
  opens (FilterOperator_new c pred schema) (λ pre out p, ∃ ts post, Q pre ts post ∧
    filter_stream pred schema ts post = (out, p)).
Proof.
  intros Ho HQ w Hw. destruct (Ho w Hw) as (c' & w' & pre & ts & post & E & Hw' & Hy & Hq).
  destruct (HQ _ _ _ Hq) as [Hwd Hl].
  eexists _, w', pre, _, _. split; [|split; [done|split; [by apply (yields_filter pred schema c')|]]].
  - simpl. unfold bind, filter_on_child. by erewrite on_part_run by exact E.
  - exists ts, post. split; [done|]. by destruct (filter_stream pred schema ts post).
Qed.

Lemma closes_filter : closes (Op := C) → closes (Op := FilterOperator C).
Proof. intros Hc f w Hw. by apply closes_part. Qed.
End filter.

(** ** Project *)

(** The chosen columns of a tuple. *)
Definition project_tuple (indices : list nat) (t : Tuple) : option Tuple :=
  mkTuple (tup_rid t) <$> mapM (λ idx, tup_values t !! idx) indices.

Section project.
Context {C : Type} `{Operator W C}.

Lemma yields_project indices names (c : C) pre ts post out :
  yields c pre ts post → mapM (project_tuple indices) ts = Some out →
  yields (mkProject c indices names Status_OK) pre out post.
Proof.
  induction ts as [|t ts IH] in c, out |- *; intros [Hp Hy] Hout.
  - injection Hout as <-. split; [done|]. intros w Hw. destruct (Hy w Hw) as (c' & w' & E & Hw' & Hpost).
    eexists _, w'. split; [|split; [done|]]. 2: { by instantiate (1 := mkProject c' indices names Status_OK). }
    simpl. unfold project_next, bind, project_on_child. by erewrite on_part_run by exact E.
  - cbn [mapM] in Hout. apply option.bind_Some in Hout as (t' & Ht & Hout). apply option.bind_Some in Hout as (out' & Ho & [= <-]).
    split; [done|]. intros w Hw. destruct (Hy w Hw) as (c' & w' & E & Hw' & Hy').
    exists (mkProject c' indices names Status_OK), w'. split; [|split; [done|by apply IH]].
    unfold project_tuple in Ht. apply fmap_Some in Ht as (vs & Hvs & ->).
    simpl. unfold project_next, bind, project_on_child. erewrite on_part_run by exact E. unfold members, gets.
    cbn [fst indices_ project_set_child]. by rewrite Hvs.
Qed.

Lemma opens_project indices names err (c : C) (Q : Status → list Tuple → Status → Prop) :
  opens c Q → (∀ pre ts post, Q pre ts post → is_Some (mapM (project_tuple indices) ts)) →
  opens (mkProject c indices names err) (λ pre out post, ∃ ts, Q pre ts post ∧
    mapM (project_tuple indices) ts = Some out).
Proof.
  intros Ho HQ w Hw. destruct (Ho w Hw) as (c' & w' & pre & ts & post & E & Hw' & Hy & Hq).
  destruct (HQ _ _ _ Hq) as [out Hout].
  exists (mkProject c' indices names Status_OK), w', pre, out, post.
  split; [|split; [done|split; [by eapply yields_project|eauto]]].
  simpl. unfold bind, project_on_child. by erewrite on_part_run by exact E.
Qed.

Lemma closes_project : closes (Op := C) → closes (Op := ProjectOperator C).
Proof. intros Hc p w Hw. by apply closes_part. Qed.
End project.

(** ** Limit *)

(** The first [n] tuples; an error after them is not reached. *)
Definition limit_stream (n : Z) (pre : Status) (ts : list Tuple) (post : Status) : list Tuple * Status :=
  (take (Z.to_nat n) ts, if Z.of_nat (length ts) <? n then post else pre).

Section limit.
Context {C : Type} `{Operator W C}.

Lemma yields_limit limit r (c : C) pre ts post :
  yields c pre ts post →
  yields (mkLimit c limit r) pre (limit_stream (limit - r) pre ts post).1 (limit_stream (limit - r) pre ts post).2.
Proof.
  unfold limit_stream. cbn [fst snd].
  induction ts as [|t ts IH] in c, r |- *; intros Hy; pose proof Hy as [Hp Hy'].
  - rewrite take_nil. split; [done|]. intros w Hw. simpl length.
    destruct (Hy' w Hw) as (c' & w' & E & Hw' & Hpost).
    destruct (Z.ltb_spec (Z.of_nat 0) (limit - r)) as [Hlt|Hge].
    + exists (mkLimit c' limit r), w'. split; [|done]. simpl. unfold limit_next, bind, members, gets, limit_on_child.
      cbn [fst returned_ limit_]. destruct (Z.geb_spec r limit); [lia|]. by erewrite on_part_run by exact E.
    + exists (mkLimit c limit r), w. split; [|done]. simpl. unfold limit_next, bind, members, gets.
      cbn [fst returned_ limit_]. destruct (Z.geb_spec r limit); [done|lia].
  - destruct (decide (limit - r ≤ 0)) as [Hz|Hz].
    + replace (Z.to_nat (limit - r)) with 0%nat by lia. rewrite take_0. split; [done|]. intros w Hw.
      simpl length. destruct (Z.ltb_spec (Z.of_nat (S (length ts))) (limit - r)); [lia|].
      exists (mkLimit c limit r), w. split; [|done]. simpl. unfold limit_next, bind, members, gets.
      cbn [fst returned_ limit_]. destruct (Z.geb_spec r limit); [done|lia].
    + replace (Z.to_nat (limit - r)) with (S (Z.to_nat (limit - (r + 1)))) by lia.
      split; [done|]. intros w Hw. destruct (Hy' w Hw) as (c' & w' & E & Hw' & Hy2).
      exists (mkLimit c' limit (r + 1)), w'. split; [|split; [done|]].
      * simpl. unfold limit_next, bind, members, gets, limit_on_child. cbn [fst returned_ limit_].
        destruct (Z.geb_spec r limit); [lia|]. by erewrite on_part_run by exact E.
      * specialize (IH (r + 1) c' Hy2). simpl length.
        replace (Z.of_nat (S (length ts)) <? limit - r) with (Z.of_nat (length ts) <? limit - (r + 1)); [exact IH|].
        destruct (Z.ltb_spec (Z.of_nat (length ts)) (limit - (r + 1))), (Z.ltb_spec (Z.of_nat (S (length ts))) (limit - r)); lia.
Qed.

Lemma opens_limit limit (c : C) (Q : Status → list Tuple → Status → Prop) :
  opens c Q →
  opens (LimitOperator_new c limit) (λ pre out p, ∃ ts post, Q pre ts post ∧ limit_stream limit pre ts post = (out, p)).
Proof.
  intros Ho w Hw. destruct (Ho w Hw) as (c' & w' & pre & ts & post & E & Hw' & Hy & Hq).
  eexists (mkLimit c' limit 0), w', pre, _, _. split; [|split; [done|split]].
  - simpl. unfold bind, limit_on_child. by erewrite on_part_run by exact E.
  - by apply (yields_limit limit 0 c').
  - exists ts, post. split; [done|]. by rewrite Z.sub_0_r.
Qed.

Lemma closes_limit : closes (Op := C) → closes (Op := LimitOperator C).
Proof. intros Hc p w Hw. by apply closes_part. Qed.
End limit.

(** ** Sort *)

Section sort.
Context {C : Type} `{Operator W C}.

Lemma yields_buffer (c : C) clause schema ts n e :
  yields (mkSort c clause schema ts n Status_OK e) e (drop n ts) e.
Proof.
  remember (drop n ts) as rest eqn:Hr. symmetry in Hr.
  induction rest as [|t rest IH] in n, Hr |- *; (split; [done|]); intros w Hw.
  - exists (mkSort c clause schema ts n Status_OK e), w. split; [|done]. simpl. unfold sort_next, bind, members, gets.
    cbn. assert (ts !! n = None) as ->; [|done]. apply lookup_ge_None_2.
    apply (f_equal length) in Hr. rewrite length_drop in Hr. simpl in Hr. lia.
  - exists (mkSort c clause schema ts (S n) Status_OK e), w. split; [|split; [done|]].
    + simpl. unfold sort_next, bind, members, gets. cbn.
      assert (ts !! n = Some t) as ->; [|done]. rewrite <- (Nat.add_0_r n), <- lookup_drop, Hr. done.
    + apply IH. replace (S n) with (n + 1)%nat by lia. rewrite <- drop_drop, Hr. done.
Qed.

(** ORDER BY a column of the schema. *)
Lemma opens_sort clause schema col (c : C) (Q : Status → list Tuple → Status → Prop) :
  opens c Q → closes (Op := C) → IndexOf schema (order_column clause) = Some col →
  (∀ pre ts post, Q pre ts post → (length ts < fuel)%nat ∧ is_Some (sort_tuples col (order_descending clause) ts)) →
  opens (SortOperator_new c clause schema) (λ pre out post, pre = post ∧ ∃ pre0 ts, Q pre0 ts post ∧
    sort_tuples col (order_descending clause) ts = Some out).
Proof.
  intros Ho Hcl Hcol HQ w Hw. destruct (Ho w Hw) as (c1 & w1 & pre & ts & post & E1 & Hw1 & Hy & Hq).
  destruct (HQ _ _ _ Hq) as [Hl [out Hout]].
  destruct (yields_drain c1 pre ts post [] fuel w1 Hy Hw1 Hl) as (c2 & w2 & E2 & Hw2 & Hp).
  destruct (Hcl c2 w2 Hw2) as (c3 & w3 & E3 & Hw3).
  exists (mkSort c3 clause schema out 0 Status_OK post), w3, post, out, post.
  split; [|split; [done|split; [apply (yields_buffer c3 clause schema out 0)|eauto]]].
  cbn [Open sort_operator]. unfold sort_open. unfold bind, set_members, modify, members, gets.
  cbn [fst sort_set_buffer sort_set_error SortOperator_new sort_schema_ order_by_]. rewrite Hcol.
  unfold sort_on_child. erewrite (on_part_run _ _ (Open fuel)) by exact E1.
  erewrite (on_part_run _ _ (drain fuel fuel [])) by exact E2.
  cbn [fst sort_set_child sort_set_child_error sort_child_ order_by_ sort_schema_ sort_buffered_ sort_cursor_ sort_error_ child_error_].
  erewrite (on_part_run _ _ Close) by exact E3. cbn [order_by_ sort_set_error sort_set_buffer SortOperator_new app]. rewrite Hout, Hp. done.
Qed.

Lemma opens_sort_unknown clause schema (c : C) :
  IndexOf schema (order_column clause) = None →
  opens (SortOperator_new c clause schema) (λ pre out post, out = [] ∧
    post = InvalidArgument ("ORDER BY: unknown column '" +:+ order_column clause +:+ "'") ∧ pre = post).
Proof.
  intros Hcol w Hw. set (e := InvalidArgument _).
  exists (mkSort c clause schema [] 0 e Status_OK), w, e, [], e.
  split; [|split; [done|split; [|done]]].
  - cbn [Open sort_operator]. unfold sort_open, bind, set_members, modify, members, gets.
    cbn [fst sort_set_buffer sort_set_error SortOperator_new sort_schema_ order_by_]. by rewrite Hcol.
  - split; [done|]. intros w' Hw'. by exists (mkSort c clause schema [] 0 e Status_OK), w'.
Qed.

Lemma closes_sort : closes (Op := SortOperator C).
Proof. intros s w Hw. by eexists _, w. Qed.
End sort.

(** ** Aggregate *)

Section aggregate.
Context {C : Type} `{Operator W C}.

(** The accumulators after some tuples. *)
Fixpoint accumulate_all (schema : Schema) (items : list SelectItem) (ts : list Tuple) (accs : list Accumulator) :
    option (Result (list Accumulator)) :=
  match ts with
  | [] => Some (Ok accs)
  | t :: ts' =>
      r ← accumulate_items schema items (tup_values t) accs;
      match r with Err e => Some (Err e) | Ok accs => accumulate_all schema items ts' accs end
  end.

(** What draining the operator gives, and the error it then reports. *)
Definition aggregate_stream (schema : Schema) (items : list SelectItem) (ts : list Tuple) (post : Status) :
    option (list Tuple * Status) :=
  check ← check_items schema items;
  if status_ok check then
    r ← accumulate_all schema items ts (replicate (length items) Accumulator_new);
    match r with
    | Err e => Some ([], e)
    | Ok accs => vs ← result_values items accs; Some ([mkTuple (mkRid kInvalidPageId 0) vs], post)
    end
  else Some ([], check).

Lemma accumulate_err schema item values acc e :
  accumulate schema item values acc = Some (Err e) → status_ok e = false.
Proof.
  unfold accumulate. destruct (item_aggregate item) as [f|]; simpl; [|done].
  destruct (_ && _); [done|]. destruct (item_column item) as [column|]; simpl; [|done].
  destruct (IndexOf schema column) as [idx|]; [|by intros [= <-]].
  destruct (values !! idx) as [v|]; simpl; [|done]. destruct (IsNull v); [done|].
  destruct f; try done; destruct (ValueToDoubleOrNull v); try done; by intros [= <-].
Qed.

Lemma accumulate_items_err schema items values accs e :
  accumulate_items schema items values accs = Some (Err e) → status_ok e = false.
Proof.
  induction items as [|item items IH] in accs |- *; destruct accs as [|acc accs]; simpl; try done.
  destruct (accumulate schema item values acc) as [[a|e']|] eqn:E; simpl; try done.
  - destruct (accumulate_items schema items values accs) as [[l|e']|] eqn:E'; simpl; try done.
    intros [= <-]. by eapply IH.
  - intros [= <-]. by eapply accumulate_err.
Qed.

Lemma agg_loop_spec items schema names vs (c : C) pre ts post accs n w r :
  yields c pre ts post → I w → (length ts < n)%nat → accumulate_all schema items ts accs = Some r →
  ∃ c' w', agg_loop fuel n accs (mkAggregate c items schema names vs true Status_OK, w) =
      Some (match r with Ok accs' => Some accs' | Err _ => None end,
            (mkAggregate c' items schema names vs true (match r with Ok _ => Status_OK | Err e => e end), w')) ∧
    I w' ∧ match r with Ok _ => GetError c' = post | Err e => status_ok e = false end.
Proof.
  induction ts as [|t ts IH] in c, n, accs, w |- *; intros Hy Hw Hn Hr; destruct n as [|n]; simpl in Hn; try lia.
  - injection Hr as <-. destruct Hy as [_ Hy]. destruct (Hy w Hw) as (c' & w' & E & Hw' & Hp).
    exists c', w'. split; [|done]. cbn [agg_loop]. unfold bind, agg_on_child. by erewrite on_part_run by exact E.
  - destruct Hy as [_ Hy]. destruct (Hy w Hw) as (c' & w' & E & Hw' & Hy').
    cbn [accumulate_all] in Hr. cbn [agg_loop]. unfold bind at 1, agg_on_child at 1.
    erewrite on_part_run by exact E. unfold bind at 1, members, gets. cbn [fst agg_schema_ agg_items_ agg_set_child].
    destruct (accumulate_items schema items (tup_values t) accs) as [[accs'|e]|] eqn:Ea; [| |done]; cbn [mbind option_bind] in Hr.
    + destruct (IH c' accs' n w' Hy' Hw') as (c2 & w2 & E2 & ?); [lia|done|]. eauto.
    + injection Hr as <-. eexists c', w'. split; [reflexivity|]. split; [done|]. by eapply accumulate_items_err.
Qed.

(** The one call that computes. *)
Lemma agg_next_spec items schema names (c : C) pre ts post out p w :
  yields c pre ts post → I w → (length ts < fuel)%nat → aggregate_stream schema items ts post = Some (out, p) →
  ∃ op' w', agg_next fuel (mkAggregate c items schema names [] false Status_OK, w) = Some (head out, (op', w')) ∧
    I w' ∧ done_ op' = true ∧ GetError op' = p.
Proof.
  intros Hy Hw Hl Hs. unfold aggregate_stream in Hs. unfold agg_next.
  unfold bind at 1, members, gets. cbn [fst done_]. unfold bind at 1, set_members at 1, modify at 1, agg_set_done.
  cbn [agg_child_ agg_items_ agg_schema_ agg_column_names_ result_values_ done_ agg_error_].
  assert (∀ (m : M (AggregateOperator C * W) unit) st a' w', m st = Some (tt, (a', w')) →
    (do! m in let! a := gets fst in
     if negb (status_ok (agg_error_ a)) then ret None
     else ret (Some (mkTuple (mkRid kInvalidPageId 0) (result_values_ a)))) st =
    Some (if status_ok (agg_error_ a') then Some (mkTuple (mkRid kInvalidPageId 0) (result_values_ a')) else None,
          (a', w'))) as Hfin.
  { intros m st a' w' E. unfold bind. rewrite E. unfold gets. cbn [fst]. by destruct (status_ok (agg_error_ a')). }
  destruct (check_items schema items) as [check|] eqn:Hc; [|done]. cbn [mbind option_bind] in Hs.
  destruct (status_ok check) eqn:Hok.
  - destruct (accumulate_all _ _ _ _) as [r|] eqn:Ea; [|done]. cbn [mbind option_bind] in Hs.
    destruct (agg_loop_spec items schema names [] c pre ts post _ fuel w r Hy Hw Hl Ea) as (c' & w' & El & Hw' & Hr).
    destruct r as [accs|e].
    + destruct (result_values items accs) as [vs|] eqn:Ev; [|done]. cbn [mbind option_bind] in Hs. injection Hs as <- <-.
      exists (mkAggregate c' items schema names vs true Status_OK), w'. split; [|done].
      etrans; [apply (Hfin (Compute_ fuel) _ (mkAggregate c' items schema names vs true Status_OK) w')|reflexivity].
      unfold Compute_, bind, members, gets. cbn [fst agg_schema_ agg_items_ agg_error_]. rewrite Hc, Hok.
      change (status_ok Status_OK) with true. cbn [negb]. rewrite El, Ev. reflexivity.
    + injection Hs as <- <-. exists (mkAggregate c' items schema names [] true e), w'. cbn [GetError aggregate_operator agg_error_].
      rewrite Hr. split; [|done]. etrans; [apply (Hfin (Compute_ fuel) _ (mkAggregate c' items schema names [] true e) w')|cbn [agg_error_]; by rewrite Hr].
      unfold Compute_, bind, members, gets. cbn [fst agg_schema_ agg_items_ agg_error_]. rewrite Hc, Hok.
      change (status_ok Status_OK) with true. cbn [negb]. rewrite El. reflexivity.
  - injection Hs as <- <-. exists (mkAggregate c items schema names [] true check), w.
    cbn [GetError aggregate_operator agg_error_]. rewrite Hok. split; [|done].
    etrans; [apply (Hfin (Compute_ fuel) _ (mkAggregate c items schema names [] true check) w)|cbn [agg_error_]; by rewrite Hok].
    unfold Compute_, bind, members, gets. cbn [fst agg_schema_ agg_items_ agg_error_]. rewrite Hc, Hok. reflexivity.
Qed.

(** Opening and draining. *)
Lemma aggregate_runs items schema names (c : C) (Q : Status → list Tuple → Status → Prop) w :
  opens c Q → I w →
  (∀ pre ts post, Q pre ts post → (length ts < fuel)%nat ∧ is_Some (aggregate_stream schema items ts post)) → (1 < fuel)%nat →
  ∃ op' w' pre ts post out p, Q pre ts post ∧ aggregate_stream schema items ts post = Some (out, p) ∧
    (do! Open fuel in drain fuel fuel []) (mkAggregate c items schema names [] false Status_OK, w) =
      Some (out, (op', w')) ∧ I w' ∧ GetError op' = p.
Proof.
  intros Ho Hw HQ Hf. destruct (Ho w Hw) as (c1 & w1 & pre & ts & post & E1 & Hw1 & Hy & Hq).
  destruct (HQ _ _ _ Hq) as [Hl [[out p] Hs]].
  destruct (agg_next_spec items schema names c1 pre ts post out p w1 Hy Hw1 Hl Hs) as (op' & w' & En & Hw' & Hd & Hp).
  exists op', w', pre, ts, post, out, p. do 2 (split; [done|]). split; [|done].
  assert ((do! Open fuel in drain fuel fuel []) (mkAggregate c items schema names [] false Status_OK, w) =
    drain fuel fuel [] (mkAggregate c1 items schema names [] false Status_OK, w1)) as ->.
  { unfold bind. cbn [Open aggregate_operator]. unfold bind, agg_on_child. by erewrite on_part_run by exact E1. }
  assert (out = [] ∨ ∃ t, out = [t]) as Hout.
  { unfold aggregate_stream in Hs. destruct (check_items schema items) as [check|]; [|done]. cbn [mbind option_bind] in Hs.
    destruct (status_ok check); [|injection Hs as <- <-; by left].
    destruct (accumulate_all _ _ _ _) as [[accs|e]|]; [|injection Hs as <- <-; by left|done]. cbn [mbind option_bind] in Hs.
    destruct (result_values items accs); [|done]. injection Hs as <- <-. right. eauto. }
  assert (∀ n out0, drain fuel (S n) out0 (op', w') = Some (out0, (op', w'))) as Hdone.
  { intros n out0. cbn [drain Next aggregate_operator]. unfold bind, agg_next, bind, members, gets. cbn [fst].
    by rewrite Hd. }
  destruct fuel as [|[|n]] eqn:Hfu; [lia..|]. rewrite <- Hfu in *. rewrite Hfu at 2.
  cbn [drain Next aggregate_operator]. unfold bind at 1. rewrite En.
  destruct Hout as [->|[t ->]]; [done|]. apply (Hdone n [t]).
Qed.

Lemma closes_aggregate : closes (Op := C) → closes (Op := AggregateOperator C).
Proof. intros Hc a w Hw. by apply closes_part. Qed.
End aggregate.
End operators.
