(* ===== verification/SortSpec.v ===== *)
(** * ORDER BY sorts

    The comparison of the sort operator is a strict weak order on the values
    of a column ([rank_less]), so that [std::stable_sort] is defined; its result
    is the stable sort. *)

From stdpp Require Import sorting.
From Stdlib Require Import SpecFloat Strings.Ascii.
From S2P Require Import Prelude Util Value RecordCodec Ast ExprEval Doubles Operators OperatorSpec.

(** ** Stable insertion *)

Section stable.
Context {A : Type} (less : A → A → bool).

(** A strict weak order on a set of elements. *)
Record weak_order (P : A → Prop) : Prop := {
  wo_irrefl : ∀ a, P a → less a a = false;
  wo_trans : ∀ a b c, P a → P b → P c → less a b = true → less b c = true → less a c = true;
  wo_incomp : ∀ a b c, P a → P b → P c → less a b = false → less b a = false → less b c = false →
    less c b = false → less a c = false ∧ less c a = false
}.

Lemma strict_weak_order_spec l : weak_order (λ a, a ∈ l) → strict_weak_order less l = true.
Proof.
  intros [Hi Ht Hc]. unfold strict_weak_order. apply forallb_forall. intros a Ha%list_elem_of_In.
  apply andb_true_iff. split; [by rewrite Hi|]. apply forallb_forall. intros b Hb%list_elem_of_In.
  apply forallb_forall. intros c Hc'%list_elem_of_In. apply andb_true_iff. split.
  - destruct (less a b) eqn:E1; [|done]. destruct (less b c) eqn:E2; [|done]. simpl. by eapply (Ht a b c).
  - destruct (less a b) eqn:E1; [done|]. destruct (less b a) eqn:E2; [done|]. destruct (less b c) eqn:E3; [done|].
    destruct (less c b) eqn:E4; [done|]. simpl. by destruct (Hc a b c) as [-> ->].
Qed.

(** In a weak order "not greater" is transitive. *)
Lemma wo_le_trans P a b c :
  weak_order P → P a → P b → P c → less b a = false → less c b = false → less c a = false.
Proof.
  intros [Hi Ht Hc] Pa Pb Pc Hba Hcb. destruct (less c a) eqn:Hca; [|done]. exfalso.
  destruct (less a b) eqn:Hab.
  { rewrite (Ht c a b) in Hcb by done. done. }
  destruct (less b c) eqn:Hbc.
  { rewrite (Ht b c a) in Hba by done. done. }
  destruct (Hc a b c) as [_ ?]; try done. congruence.
Qed.

Definition sorted_by : list A → Prop := StronglySorted (λ a b, less b a = false).

Lemma insert_stable_perm x l : insert_stable less x l ≡ₚ x :: l.
Proof.
  induction l as [|y l IH]; simpl; [done|]. destruct (less x y); [done|]. rewrite IH. apply Permutation_swap.
Qed.

Lemma insert_stable_sorted P x l :
  weak_order P → P x → Forall P l → sorted_by l → sorted_by (insert_stable less x l).
Proof.
  intros Hw Px. induction l as [|y l IH]; intros Hl Hs; simpl; [by repeat constructor|].
  apply Forall_cons in Hl as [Py Hl]. apply StronglySorted_inv in Hs as [Hs Hy].
  destruct (less x y) eqn:E.
  - constructor; [by constructor|]. assert (less y x = false) as Hyx.
    { destruct (less y x) eqn:E2; [|done]. pose proof (wo_trans _ Hw x y x Px Py Px E E2).
      by rewrite (wo_irrefl _ Hw) in *. }
    constructor; [done|]. rewrite Forall_forall in Hy |- *. intros z Hz. rewrite Forall_forall in Hl.
    apply (wo_le_trans P x y z); auto.
  - constructor; [by apply IH|]. rewrite insert_stable_perm. by constructor.
Qed.

(** Elements that are equivalent to [x]. *)
Definition equivalent (x y : A) : Prop := less x y = false ∧ less y x = false.
#[export] Instance equivalent_dec x y : Decision (equivalent x y).
Proof. unfold equivalent. apply _. Defined.

(** Insertion puts [x] behind its equivalents. *)
Lemma insert_stable_equiv P z x l :
  weak_order P → P z → P x → Forall P l → sorted_by l →
  filter (equivalent z) (insert_stable less x l) = filter (equivalent z) l ++ filter (equivalent z) [x].
Proof.
  intros Hw Pz Px. induction l as [|y l IH]; intros Hl Hs; simpl; [done|].
  apply Forall_cons in Hl as [Py Hl]. pose proof Hs as Hs0. apply StronglySorted_inv in Hs as [Hs Hy].
  destruct (less x y) eqn:E.
  - rewrite (filter_cons _ x (y :: l)). destruct (decide (equivalent z x)) as [Hzx|Hzx].
    + assert (filter (equivalent z) (y :: l) = []) as ->; [|by rewrite filter_cons, decide_True by done].
      apply filter_none. rewrite Forall_forall. intros u Hu [Hzu Huz].
      assert (P u ∧ less u y = false) as [Pu Huy].
      { rewrite Forall_forall in Hy, Hl. apply elem_of_cons in Hu as [->|Hu]; [|by split; auto].
        split; [done|]. by apply (wo_irrefl _ Hw). }
      destruct Hzx as [Hzx Hxz]. assert (less x u = false) as Hxu by (by apply (wo_le_trans P u z x)).
      (* x < y ≤ u, but u ≤ z ≤ x *)
      by rewrite (wo_le_trans P y u x) in E.
    + rewrite (filter_cons _ x []), decide_False by done. by rewrite app_nil_r.
  - rewrite !(filter_cons _ y). rewrite IH by done. by case_decide.
Qed.

Lemma sort_stable_correct P l :
  weak_order P → Forall P l →
  sort_stable less l ≡ₚ l ∧ sorted_by (sort_stable less l) ∧
  ∀ z, P z → filter (equivalent z) (sort_stable less l) = filter (equivalent z) l.
Proof.
  intros Hw. unfold sort_stable.
  assert (∀ acc, Forall P acc → sorted_by acc → Forall P l →
    let r := fold_left (λ sorted x, insert_stable less x sorted) l acc in
    r ≡ₚ acc ++ l ∧ sorted_by r ∧ ∀ z, P z → filter (equivalent z) r = filter (equivalent z) acc ++ filter (equivalent z) l) as Hg.
  { induction l as [|x l IH]; intros acc Hacc Hs Hl r; simpl in r.
    - unfold r. rewrite app_nil_r. split_and!; try done. intros. by rewrite app_nil_r.
    - apply Forall_cons in Hl as [Px Hl].
      destruct (IH (insert_stable less x acc)) as (Hp & Hs' & Hf); try done.
      + rewrite insert_stable_perm. by constructor.
      + by eapply insert_stable_sorted.
      + fold r in Hp, Hs', Hf. split_and!; try done.
        * rewrite Hp, insert_stable_perm. apply Permutation_middle.
        * intros z Pz. rewrite Hf, (insert_stable_equiv P) by done. rewrite <- app_assoc. f_equal.
          by rewrite <- filter_app. }
  intros Hl. destruct (Hg [] ltac:(constructor) ltac:(constructor) Hl) as (? & ? & ?). split_and!; try done.
Qed.
End stable.

(** Sorting commutes with an embedding of the orders. *)
Lemma insert_stable_fmap {A B} (f : A → B) (less : A → A → bool) (less' : B → B → bool) x l :
  (∀ y, y ∈ l → less' (f x) (f y) = less x y) →
  insert_stable less' (f x) (f <$> l) = f <$> insert_stable less x l.
Proof.
  induction l as [|y l IH]; intros Hf; [done|]. cbn [fmap list_fmap insert_stable].
  rewrite Hf by apply list_elem_of_here. destruct (less x y); [done|]. cbn [fmap list_fmap]. f_equal.
  apply IH. intros z Hz. apply Hf. by apply list_elem_of_further.
Qed.

Lemma sort_stable_fmap {A B} (f : A → B) (less : A → A → bool) (less' : B → B → bool) l :
  (∀ x y, x ∈ l → y ∈ l → less' (f x) (f y) = less x y) →
  sort_stable less' (f <$> l) = f <$> sort_stable less l.
Proof.
  unfold sort_stable. change (@nil B) with (f <$> (@nil A)).
  assert (∀ acc, (∀ x y, x ∈ l ++ acc → y ∈ l ++ acc → less' (f x) (f y) = less x y) →
    fold_left (λ sorted x, insert_stable less' x sorted) (f <$> l) (f <$> acc) =
    f <$> fold_left (λ sorted x, insert_stable less x sorted) l acc) as Hg.
  { induction l as [|x l IH]; intros acc Hf; [done|]. cbn [fmap list_fmap fold_left].
    change (list_fmap A B f l) with (f <$> l).
    rewrite (insert_stable_fmap f less).
    - apply IH. intros a b Ha Hb. rewrite insert_stable_perm in Ha, Hb. rewrite <- Permutation_middle in Ha, Hb. by apply Hf.
    - intros y Hy. apply Hf; set_solver. }
  intros Hf. apply Hg. intros x y. rewrite app_nil_r. auto.
Qed.

(** ** Ranks *)

(** Lexicographic order of lists of numbers. *)
Fixpoint lex_compare (a b : list Z) : comparison :=
  match a, b with
  | [], [] => Eq
  | [], _ => Lt
  | _, [] => Gt
  | x :: a', y :: b' => match x ?= y with Eq => lex_compare a' b' | c => c end
  end.

Lemma lex_compare_refl a : lex_compare a a = Eq.
Proof. induction a as [|x a IH]; simpl; [done|]. by rewrite Z.compare_refl. Qed.

Lemma lex_compare_eq a b : lex_compare a b = Eq → a = b.
Proof.
  revert b. induction a as [|x a IH]; intros [|y b]; simpl; try done. destruct (x ?= y) eqn:E; try done.
  apply Z.compare_eq in E as ->. intros E. by rewrite (IH b E).
Qed.

Lemma lex_compare_antisym a b : lex_compare b a = CompOpp (lex_compare a b).
Proof.
  revert b. induction a as [|x a IH]; intros [|y b]; simpl; try done. rewrite (Z.compare_antisym x y).
  destruct (x ?= y); simpl; auto.
Qed.

Lemma lex_compare_trans a b c : lex_compare a b = Lt → lex_compare b c = Lt → lex_compare a c = Lt.
Proof.
  revert b c. induction a as [|x a IH]; intros [|y b] [|z c]; simpl; try done.
  destruct (Z.compare_spec x y), (Z.compare_spec y z), (Z.compare_spec x z); subst; try done; try lia.
  apply IH.
Qed.

Definition lex_less (a b : list Z) : bool := match lex_compare a b with Lt => true | _ => false end.

(** An order that ranks agree with is a weak order, and so is its converse. *)
Lemma weak_order_rank {A} (rank : A → list Z) (less : A → A → bool) (P : A → Prop) :
  (∀ a b, P a → P b → less a b = lex_less (rank a) (rank b)) → weak_order less P.
Proof.
  intros Hr. unfold lex_less in Hr. constructor.
  - intros a Pa. by rewrite Hr, lex_compare_refl.
  - intros a b c Pa Pb Pc. rewrite !Hr by done.
    destruct (lex_compare (rank a) (rank b)) eqn:E1; try done.
    destruct (lex_compare (rank b) (rank c)) eqn:E2; try done. by rewrite (lex_compare_trans _ _ _ E1 E2).
  - intros a b c Pa Pb Pc. rewrite !Hr by done. rewrite (lex_compare_antisym (rank a) (rank b)).
    rewrite (lex_compare_antisym (rank b) (rank c)).
    destruct (lex_compare (rank a) (rank b)) eqn:E1; try done. apply lex_compare_eq in E1 as ->.
    destruct (lex_compare (rank b) (rank c)) eqn:E2; try done. apply lex_compare_eq in E2 as ->.
    by rewrite lex_compare_refl.
Qed.

Lemma weak_order_flip {A} (less : A → A → bool) (P : A → Prop) :
  weak_order less P → weak_order (flip less) P.
Proof.
  intros [Hi Ht Hc]. constructor; unfold flip; [done| |].
  - intros a b c Pa Pb Pc Hba Hcb. by apply (Ht c b a).
  - intros a b c Pa Pb Pc H1 H2 H3 H4. by destruct (Hc a b c).
Qed.

Definition rank_double (d : double) : list Z :=
  match d with
  | S754_zero _ | S754_nan => [0; 0; 0]
  | S754_infinity s => if s then [-2; 0; 0] else [2; 0; 0]
  | S754_finite s m e => if s then [-1; - e; - Zpos m] else [1; e; Zpos m]
  end.

Fixpoint rank_string (s : string) : list Z :=
  match s with
  | EmptyString => []
  | String c s' => Z.of_N (N_of_ascii c) :: rank_string s'
  end.

(** NULL comes first; the values of one type have comparable ranks. *)
Definition rank (v : Value) : list Z :=
  match v with
  | VNull => []
  | VBool b => [if b then 1 else 0]
  | VString s => 0 :: rank_string s
  | VInt32 z | VInt64 z => rank_double (double_of_Z z)
  | VDouble b => rank_double (double_of_bits b)
  end.

Lemma rank_double_compare a b :
  is_nan a = false → is_nan b = false → SFcompare a b = Some (lex_compare (rank_double a) (rank_double b)).
Proof.
  destruct a as [sa|sa| |sa ma ea], b as [sb|sb| |sb mb eb]; try done; intros _ _; cbn [SFcompare rank_double];
    try (destruct sa); try (destruct sb); try done; cbn [lex_compare].
  - cbn [Z.compare]. rewrite Z.compare_opp, (Z.compare_antisym ea eb).
    destruct (ea ?= eb); cbn [CompOpp]; try done.
    cbn. change (Pos.compare_cont Eq ma mb) with (ma ?= mb)%positive.
    change (- Zpos ma ?= - Zpos mb) with (CompOpp (ma ?= mb)%positive).
    by destruct (ma ?= mb)%positive.
  - cbn [Z.compare Pos.compare Pos.compare_cont]. destruct (ea ?= eb); try done.
    transitivity (Some (ma ?= mb)%positive); [done|]. by destruct (ma ?= mb)%positive.
Qed.

Lemma rank_string_compare a b : String.compare a b = lex_compare (rank_string a) (rank_string b).
Proof.
  revert b. induction a as [|x a IH]; intros [|y b]; simpl; try done.
  unfold Ascii.compare. rewrite N2Z.inj_compare. by destruct (N_of_ascii x ?= N_of_ascii y)%N.
Qed.

(** ** The values of a column *)

(** A value of type [t] or NULL, and no NaN. *)
Definition sortable (t : ColumnType) (v : Value) : Prop :=
  ValueMatchesType v t = true ∧ ∀ d, ValueToDoubleOrNull v = Some d → is_nan d = false.

Lemma double_three_way_rank a b :
  is_nan a = false → is_nan b = false →
  double_three_way a b = three_way (lex_compare (rank_double a) (rank_double b)).
Proof.
  intros Ha Hb. unfold double_three_way, double_lt, SFltb. rewrite !rank_double_compare by done.
  rewrite (lex_compare_antisym (rank_double a) (rank_double b)). by destruct (lex_compare _ _).
Qed.

Lemma CompareForSort_rank t a b :
  sortable t a → sortable t b → IsNull a = false → IsNull b = false →
  CompareForSort a b = three_way (lex_compare (rank a) (rank b)).
Proof.
  intros [Ha Na] [Hb Nb] Ha0 Hb0. unfold CompareForSort.
  destruct t, a, b; try done; cbn [ValueToDoubleOrNull rank] in *;
    try (apply double_three_way_rank; [by apply Na|by apply Nb]).
  - unfold bool_three_way. by destruct b0, b.
  - unfold string_three_way. rewrite rank_string_compare. cbn [lex_compare Z.compare]. by destruct (lex_compare _ _).
Qed.

Lemma key_less_rank t a b : sortable t a → sortable t b → key_less false a b = lex_less (rank a) (rank b).
Proof.
  intros Ha Hb. unfold key_less, lex_less. destruct (IsNull a) eqn:Na, (IsNull b) eqn:Nb; cbn [negb Bool.eqb andb].
  - destruct a, b; done.
  - destruct a; try done. by destruct b as [|z|z|z|[]|s]; try done; cbn [rank]; unfold rank_double; repeat case_match.
  - destruct b; try done. by destruct a as [|z|z|z|[]|s]; try done; cbn [rank]; unfold rank_double; repeat case_match.
  - rewrite (CompareForSort_rank t) by done. by destruct (lex_compare _ _).
Qed.

Lemma key_less_flip t a b : sortable t a → sortable t b → key_less true a b = key_less false b a.
Proof.
  intros Ha Hb. unfold key_less. destruct (IsNull a) eqn:Na, (IsNull b) eqn:Nb; cbn [negb Bool.eqb andb]; try done.
  rewrite !(CompareForSort_rank t) by done. rewrite (lex_compare_antisym (rank a) (rank b)). by destruct (lex_compare _ _).
Qed.

Lemma key_less_weak_order descending t : weak_order (key_less descending) (sortable t).
Proof.
  assert (weak_order (key_less false) (sortable t)) as Hw.
  { apply (weak_order_rank rank). apply key_less_rank. }
  destruct descending; [|done]. destruct (weak_order_flip _ _ Hw) as [Hi Ht Hc]. unfold flip in *. constructor.
  - intros a Ha. rewrite (key_less_flip t) by done. auto.
  - intros a b c Ha Hb Hc'. rewrite !(key_less_flip t) by done. eauto.
  - intros a b c Ha Hb Hc'. rewrite !(key_less_flip t) by done. eauto.
Qed.

(** ** Tuples *)

Definition tuple_less (col : nat) (descending : bool) (a b : Tuple) : bool :=
  match tup_values a !! col, tup_values b !! col with
  | Some x, Some y => key_less descending x y
  | _, _ => false
  end.

(** The tuple has a column [col] of type [t]. *)
Definition sortable_at (col : nat) (t : ColumnType) (tu : Tuple) : Prop :=
  ∃ v, tup_values tu !! col = Some v ∧ sortable t v.

(** [out] is the tuples [ts] in the order of column [col]; those that compare
    equal are in the order they had. *)
Definition sorted_stably (col : nat) (descending : bool) (ts out : list Tuple) : Prop :=
  out ≡ₚ ts ∧
  StronglySorted (λ a b, tuple_less col descending b a = false) out ∧
  ∀ z, z ∈ ts → filter (equivalent (tuple_less col descending) z) out =
                filter (equivalent (tuple_less col descending) z) ts.

Lemma tuple_less_weak_order col descending t : weak_order (tuple_less col descending) (sortable_at col t).
Proof.
  destruct (key_less_weak_order descending t) as [Hi Ht Hc]. unfold tuple_less. constructor.
  - intros a (v & -> & Hv). auto.
  - intros a b c (x & -> & Hx) (y & -> & Hy) (z & -> & Hz). eauto.
  - intros a b c (x & -> & Hx) (y & -> & Hy) (z & -> & Hz). eauto.
Qed.

(** [sort_tuples] is the insertion sort on the tuples themselves. *)
Lemma sort_tuples_stable col descending t ts :
  Forall (sortable_at col t) ts → sort_tuples col descending ts = Some (sort_stable (tuple_less col descending) ts).
Proof.
  intros Hs. destruct ts as [|a [|b ts]]; [done..|]. unfold sort_tuples. remember (a :: b :: ts) as l eqn:Hl. clear Hl a b ts.
  set (keyed := λ tu, (default VNull (tup_values tu !! col), tu)).
  assert (mapM (λ t, (λ v, (v, t)) <$> tup_values t !! col) l = Some (keyed <$> l)) as ->.
  { apply mapM_Some. induction Hs as [|tu l (v & Hv & _) _ IH]; constructor; [|done]. unfold keyed. by rewrite Hv. }
  assert (∀ x y, x ∈ l → y ∈ l → key_less descending (keyed x).1 (keyed y).1 = tuple_less col descending x y) as He.
  { rewrite Forall_forall in Hs. intros x y Hx Hy. destruct (Hs x Hx) as (v & Hv & _), (Hs y Hy) as (w & Hw & _).
    unfold keyed, tuple_less. by rewrite Hv, Hw. }
  cbn [mbind option_bind]. unfold stable_sort. rewrite strict_weak_order_spec.
  - cbn [mbind option_bind]. rewrite (sort_stable_fmap keyed (tuple_less col descending)) by done.
    rewrite <- list_fmap_compose. by rewrite list_fmap_id.
  - assert (∀ a, a ∈ keyed <$> l → sortable t a.1) as Hk.
    { intros a (tu & -> & Hin)%list_elem_of_fmap. rewrite Forall_forall in Hs. destruct (Hs tu Hin) as (v & Hv & Hvs).
      unfold keyed. by rewrite Hv. }
    destruct (key_less_weak_order descending t) as [Hi Ht Hc]. constructor.
    + intros a Ha. apply Hi, Hk, Ha.
    + intros a b c Ha%Hk Hb%Hk Hc'%Hk. by apply Ht.
    + intros a b c Ha%Hk Hb%Hk Hc'%Hk. by apply Hc.
Qed.

Lemma sort_tuples_sorts col descending t ts :
  Forall (sortable_at col t) ts → ∃ out, sort_tuples col descending ts = Some out ∧ sorted_stably col descending ts out.
Proof.
  intros Hs. eexists. split; [by eapply sort_tuples_stable|].
  destruct (sort_stable_correct (tuple_less col descending) (sortable_at col t) ts) as (Hp & Ho & Hf).
  - apply tuple_less_weak_order.
  - done.
  - split; [done|]. split; [done|]. intros z Hz. apply Hf. by eapply Forall_forall.
Qed.
