(* ===== verification/AggregateSpec.v ===== *)
(** * What the aggregates mean

    A reference definition of COUNT, SUM, AVG, MIN and MAX on the list of a
    column's values ([aggregate_value]), and that the accumulators of the
    aggregate operator compute it.  SUM over integers is the exact sum as long
    as the magnitudes add up to less than 2^53. *)

From stdpp Require Import sorting.
From Stdlib Require Import SpecFloat.
From S2P Require Import Prelude Util Value RecordCodec Ast ExprEval Doubles Operators OperatorSpec SortSpec.

(** ** The reference *)

(** The values of a column that are not NULL. *)
Definition column_values (schema : Schema) (column : string) (rows : list (list Value)) : list Value :=
  match IndexOf schema column with
  | Some i => filter (λ v, IsNull v = false) (omap (lookup i) rows)
  | None => []
  end.

Definition item_values (schema : Schema) (item : SelectItem) (rows : list (list Value)) : list Value :=
  match item_column item with Some column => column_values schema column rows | None => [] end.

(** The sum, from left to right. *)
Definition sum_of (vs : list Value) : double :=
  fold_left double_add (omap ValueToDoubleOrNull vs) (S754_zero false).

(** The first of the values that come first in the order of ORDER BY. *)
Definition first_least (descending : bool) (vs : list Value) (v : Value) : Prop :=
  ∃ vs1 vs2, vs = vs1 ++ v :: vs2 ∧ (∀ w, w ∈ vs1 → key_less descending v w = true) ∧
    ∀ w, w ∈ vs2 → key_less descending w v = false.

Definition or_null (vs : list Value) (v w : Value) : Prop := match vs with [] => w = VNull | _ => w = v end.

(** The value [v] of [item] over [rows]. *)
Definition aggregate_value (schema : Schema) (rows : list (list Value)) (item : SelectItem) (v : Value) : Prop :=
  let vs := item_values schema item rows in
  let n := if aggregate_star item then length rows else length vs in
  match item_aggregate item with
  | None => False
  | Some kCount => v = VInt64 (Z.of_nat n)
  | Some kSum => or_null vs (VDouble (bits_of_double (sum_of vs))) v
  | Some kAvg => or_null vs (VDouble (bits_of_double (double_div (sum_of vs) (double_of_Z (Z.of_nat (length vs)))))) v
  | Some kMin => ∃ w, or_null vs w v ∧ (vs ≠ [] → first_least false vs w)
  | Some kMax => ∃ w, or_null vs w v ∧ (vs ≠ [] → first_least true vs w)
  end.

(** A query can ask for the item: its column exists, is numeric for SUM and AVG
    and holds comparable values for MIN and MAX. *)
Definition answerable (schema : Schema) (rows : list (list Value)) (item : SelectItem) : Prop :=
  ∃ f, item_aggregate item = Some f ∧
    if aggregate_star item then f = kCount
    else ∃ column i c, item_column item = Some column ∧ IndexOf schema column = Some i ∧ schema !! i = Some c ∧
      (f = kSum ∨ f = kAvg → is_numeric (col_type c) = true) ∧
      (f = kMin ∨ f = kMax → Forall (λ row, ∀ b, row !! i = Some (VDouble b) → is_nan (double_of_bits b) = false) rows).

(** ** Values of a column *)

Lemma column_values_app schema column rows1 rows2 :
  column_values schema column (rows1 ++ rows2) = column_values schema column rows1 ++ column_values schema column rows2.
Proof. unfold column_values. destruct (IndexOf schema column); [|done]. by rewrite omap_app, filter_app. Qed.

Lemma item_values_snoc schema item rows row :
  item_values schema item (rows ++ [row]) = item_values schema item rows ++ item_values schema item [row].
Proof. unfold item_values. destruct (item_column item); [apply column_values_app|done]. Qed.

Lemma column_values_one schema column i v row :
  IndexOf schema column = Some i → row !! i = Some v →
  column_values schema column [row] = if IsNull v then [] else [v].
Proof.
  intros Hi Hv. unfold column_values. rewrite Hi. cbn [omap list_omap]. rewrite Hv.
  destruct (IsNull v) eqn:En; [by rewrite filter_cons_False by congruence|by rewrite filter_cons_True].
Qed.

Lemma column_values_elem schema column i c rows v :
  IndexOf schema column = Some i → schema !! i = Some c → Forall (row_fits schema) rows →
  v ∈ column_values schema column rows →
  IsNull v = false ∧ ValueMatchesType v (col_type c) = true ∧ ∃ row, row ∈ rows ∧ row !! i = Some v.
Proof.
  intros Hi Hc Hf. unfold column_values. rewrite Hi. intros [Hn (row & Hin & Hv)%list_elem_of_omap]%list_elem_of_filter.
  split; [done|]. rewrite Forall_forall in Hf. destruct (Forall2_lookup_l _ _ _ _ _ (Hf row Hin) Hc) as (w & Hw & Hm).
  rewrite Hv in Hw. injection Hw as <-. split; [|eauto]. unfold value_fits in Hm. by apply andb_true_iff in Hm as [? _].
Qed.

Lemma sum_of_snoc vs v d : ValueToDoubleOrNull v = Some d → sum_of (vs ++ [v]) = double_add (sum_of vs) d.
Proof. intros Hd. unfold sum_of. rewrite omap_app, fold_left_app. cbn. by rewrite Hd. Qed.

Lemma numeric_value v t :
  is_numeric t = true → ValueMatchesType v t = true → IsNull v = false → is_Some (ValueToDoubleOrNull v).
Proof. destruct t, v; cbn; try done; eauto. Qed.

(** ** The least value so far *)

Lemma key_less_values descending a b :
  IsNull a = false → IsNull b = false →
  key_less descending a b = if descending then CompareForSort a b >? 0 else CompareForSort a b <? 0.
Proof. intros Ha Hb. unfold key_less. by rewrite Ha, Hb. Qed.

Lemma wo_less_le {A} (less : A → A → bool) P a b c :
  weak_order less P → P a → P b → P c → less a b = true → less c b = false → less a c = true.
Proof.
  intros Hw Pa Pb Pc Hab Hcb. destruct (less a c) eqn:Hac; [done|].
  assert (less a b = false); [|congruence]. by apply (wo_le_trans less P b c a).
Qed.

Lemma first_least_snoc descending t vs m v :
  Forall (sortable t) vs → sortable t v → first_least descending vs m →
  first_least descending (vs ++ [v]) (if key_less descending v m then v else m).
Proof.
  intros Hs Hv (vs1 & vs2 & -> & H1 & H2). pose proof (key_less_weak_order descending t) as Hw.
  apply Forall_app in Hs as [Hs1 [Hm Hs2]%Forall_cons]. rewrite Forall_forall in Hs1, Hs2.
  destruct (key_less descending v m) eqn:E.
  - exists (vs1 ++ m :: vs2), []. split; [done|]. split; [|intros w Hin; by apply not_elem_of_nil in Hin].
    intros w [Hin|[->|Hin]%elem_of_cons]%elem_of_app; [|done|].
    + by apply (wo_trans _ _ Hw v m w); auto.
    + by apply (wo_less_le _ _ v m w Hw); auto.
  - exists vs1, (vs2 ++ [v]). split; [by rewrite <- app_assoc|]. split; [done|].
    intros w [Hin| ->%list_elem_of_singleton]%elem_of_app; auto.
Qed.

(** The best value kept by MIN and MAX, [None] before the first. *)
Definition best_of (descending : bool) (vs : list Value) (o : option Value) : Prop :=
  match o with None => vs = [] | Some m => first_least descending vs m end.

Lemma best_of_snoc descending t vs o v :
  best_of descending vs o → Forall (sortable t) vs → sortable t v → Forall (λ w, IsNull w = false) (v :: vs) →
  best_of descending (vs ++ [v])
    (if match o with
        | None => true
        | Some m => if descending then CompareForSort v m >? 0 else CompareForSort v m <? 0
        end then Some v else o).
Proof.
  intros Hb Hs Hv [Hn Hns]%Forall_cons. destruct o as [m|]; cbn [best_of] in Hb.
  - pose proof (first_least_snoc descending t vs m v Hs Hv Hb) as Hf.
    assert (IsNull m = false) as Hm.
    { destruct Hb as (vs1 & vs2 & -> & _). by apply Forall_app in Hns as [_ [? _]%Forall_cons]. }
    rewrite key_less_values in Hf by done. by destruct (if descending then _ else _).
  - subst vs. exists [], []. split; [done|]. split; intros w Hw; by apply not_elem_of_nil in Hw.
Qed.

(** ** The accumulators *)

Definition summed (vs : list Value) (acc : Accumulator) : Prop :=
  acc_count acc = Z.of_nat (length vs) ∧ acc_sum acc = sum_of vs ∧ acc_has_value acc = negb (bool_decide (vs = [])).

(** The accumulator of [item] after [rows]. *)
Definition accumulated (schema : Schema) (item : SelectItem) (rows : list (list Value)) (acc : Accumulator) : Prop :=
  let vs := item_values schema item rows in
  match item_aggregate item with
  | None => False
  | Some kCount => acc_count acc = Z.of_nat (if aggregate_star item then length rows else length vs)
  | Some kSum | Some kAvg => summed vs acc
  | Some kMin => best_of false vs (acc_min_v acc)
  | Some kMax => best_of true vs (acc_max_v acc)
  end.

Lemma item_values_nil schema item : item_values schema item [] = [].
Proof. unfold item_values, column_values. destruct (item_column item); [|done]. by destruct (IndexOf _ _). Qed.

Lemma accumulated_new schema item : is_Some (item_aggregate item) → accumulated schema item [] Accumulator_new.
Proof.
  intros [f Hf]. unfold accumulated. rewrite Hf, item_values_nil. by destruct f, (aggregate_star item).
Qed.

Lemma answerable_sortable schema rows item f column i c :
  item_aggregate item = Some f → f = kMin ∨ f = kMax → aggregate_star item = false → item_column item = Some column →
  IndexOf schema column = Some i → schema !! i = Some c → answerable schema rows item → Forall (row_fits schema) rows →
  Forall (sortable (col_type c)) (item_values schema item rows).
Proof.
  intros Hf Hm Hst Hcol Hi Hc (f' & Hf' & Ha) Hrows. rewrite Hst in Ha. destruct Ha as (column' & i' & c' & E1 & E2 & E3 & _ & Hn).
  simplify_eq. specialize (Hn Hm). rewrite Forall_forall in Hn. apply Forall_forall. unfold item_values. rewrite Hcol.
  intros v Hv. destruct (column_values_elem _ _ _ _ _ _ Hi Hc Hrows Hv) as (_ & Ht & row & Hin & Hl). split; [done|].
  intros d. destruct v; cbn; try done; intros [= <-]; try apply is_nan_of_Z. by eapply Hn.
Qed.

Lemma answerable_subset schema rows rows' item :
  (∀ row, row ∈ rows' → row ∈ rows) → answerable schema rows item → answerable schema rows' item.
Proof.
  intros Hsub (f & Hf & Ha). exists f. split; [done|]. destruct (aggregate_star item); [done|].
  destruct Ha as (column & i & c & ? & ? & ? & ? & Hn). exists column, i, c. do 4 (split; [done|]).
  intros Hm. specialize (Hn Hm). rewrite Forall_forall in Hn. apply Forall_forall. intros row Hin. by apply Hn, Hsub.
Qed.

Lemma answerable_app schema rows1 rows2 item : answerable schema (rows1 ++ rows2) item → answerable schema rows1 item.
Proof. apply answerable_subset. intros row Hin. apply elem_of_app. by left. Qed.

Lemma sum_step vs v d acc :
  ValueToDoubleOrNull v = Some d → summed vs acc →
  summed (vs ++ [v]) (mkAcc (acc_count acc + 1) (double_add (acc_sum acc) d) true (acc_min_v acc) (acc_max_v acc)).
Proof.
  intros Hd (Hc & Hs & _). unfold summed. cbn [acc_count acc_sum acc_has_value]. rewrite length_app, (sum_of_snoc _ _ d), Hc, Hs by done.
  split; [cbn [length]; lia|]. split; [done|]. rewrite bool_decide_false; [done|]. by intros [_ ?]%app_eq_nil.
Qed.

(** One tuple. *)
Lemma accumulate_step schema item rows row acc :
  answerable schema (rows ++ [row]) item → Forall (row_fits schema) (rows ++ [row]) → accumulated schema item rows acc →
  ∃ acc', accumulate schema item row acc = Some (Ok acc') ∧ accumulated schema item (rows ++ [row]) acc'.
Proof.
  intros Ha Hfit Hacc. pose proof Ha as (f & Hf & Hcase). unfold accumulated in Hacc |- *. unfold accumulate.
  rewrite Hf in *. cbn [mbind option_bind]. rewrite item_values_snoc. destruct (aggregate_star item) eqn:Hst.
  { subst f. cbn. eexists. split; [done|]. cbn [acc_count add_count]. rewrite length_app. cbn [length]. lia. }
  destruct Hcase as (column & i & c & Hcol & Hi & Hc & Hnum & _). rewrite andb_false_r, Hcol. cbn [mbind option_bind]. rewrite Hi.
  pose proof Hfit as [_ [Hrow _]%Forall_cons]%Forall_app.
  destruct (Forall2_lookup_l _ _ _ _ _ Hrow Hc) as (v & Hv & Hm).
  assert (ValueMatchesType v (col_type c) = true) as Ht by (unfold value_fits in Hm; by apply andb_true_iff in Hm as [? _]).
  rewrite Hv. cbn [mbind option_bind].
  assert (item_values schema item [row] = if IsNull v then [] else [v]) as ->.
  { unfold item_values. rewrite Hcol. by apply (column_values_one _ _ i). }
  destruct (IsNull v) eqn:En; [exists acc; split; [done|]; by rewrite app_nil_r|].
  assert (f = kMin ∨ f = kMax → Forall (sortable (col_type c)) (item_values schema item rows) ∧ sortable (col_type c) v) as Hsort.
  { intros Hmm. pose proof (answerable_sortable _ _ _ _ _ _ _ Hf Hmm Hst Hcol Hi Hc Ha Hfit) as Hs.
    rewrite item_values_snoc in Hs. apply Forall_app in Hs as [? Hs]. split; [done|]. unfold item_values in Hs. rewrite Hcol in Hs.
    rewrite (column_values_one _ _ i v), En in Hs by done. by apply Forall_cons in Hs as [? _]. }
  assert (Forall (λ w, IsNull w = false) (v :: item_values schema item rows)) as Hnn.
  { constructor; [done|]. apply Forall_app in Hfit as [Hfit _]. apply Forall_forall. intros w Hw. unfold item_values in Hw.
    rewrite Hcol in Hw. by eapply (column_values_elem schema column i c rows w). }
  assert (f = kSum ∨ f = kAvg → ∃ d, ValueToDoubleOrNull v = Some d) as Hd.
  { intros Hs. by eapply numeric_value; [apply Hnum|..]. }
  destruct f.
  - eexists. split; [done|]. cbn [acc_count add_count]. rewrite length_app. cbn [length]. lia.
  - destruct (Hd ltac:(by left)) as [d Ed]. rewrite Ed. eexists. split; [done|]. by apply sum_step.
  - destruct (Hd ltac:(by right)) as [d Ed]. rewrite Ed. eexists. split; [done|]. by apply sum_step.
  - destruct Hsort as [Hs Hsv]; [by left|]. eexists. split; [done|]. cbn [acc_min_v]. by apply (best_of_snoc false (col_type c)).
  - destruct Hsort as [Hs Hsv]; [by right|]. eexists. split; [done|]. cbn [acc_max_v]. by apply (best_of_snoc true (col_type c)).
Qed.

(** The items of one tuple, and all tuples. *)
Lemma accumulate_items_step schema items rows row accs :
  Forall (answerable schema (rows ++ [row])) items → Forall (row_fits schema) (rows ++ [row]) →
  Forall2 (λ item acc, accumulated schema item rows acc) items accs →
  ∃ accs', accumulate_items schema items row accs = Some (Ok accs') ∧
    Forall2 (λ item acc, accumulated schema item (rows ++ [row]) acc) items accs'.
Proof.
  intros Ha Hfit Hacc. induction Hacc as [|item acc items accs Hacc _ IH]; [by eexists|].
  apply Forall_cons in Ha as [Ha1 Ha]. destruct (IH Ha) as (accs' & E & H2).
  destruct (accumulate_step _ _ _ _ _ Ha1 Hfit Hacc) as (acc' & E1 & H1).
  exists (acc' :: accs'). split; [|by constructor]. cbn [accumulate_items]. rewrite E1. cbn [mbind option_bind]. by rewrite E.
Qed.

Lemma accumulate_all_values schema items ts rows accs :
  Forall (answerable schema (rows ++ (tup_values <$> ts))) items → Forall (row_fits schema) (rows ++ (tup_values <$> ts)) →
  Forall2 (λ item acc, accumulated schema item rows acc) items accs →
  ∃ accs', accumulate_all schema items ts accs = Some (Ok accs') ∧
    Forall2 (λ item acc, accumulated schema item (rows ++ (tup_values <$> ts)) acc) items accs'.
Proof.
  revert rows accs. induction ts as [|t ts IH]; intros rows accs Ha Hfit Hacc.
  { exists accs. rewrite app_nil_r. done. }
  rewrite fmap_cons, cons_middle, app_assoc in *.
  destruct (accumulate_items_step schema items rows (tup_values t) accs) as (accs1 & E1 & H1); [| |done|].
  - eapply Forall_impl; [exact Ha|]. intros item. apply answerable_app.
  - by apply Forall_app in Hfit as [? _].
  - destruct (IH _ _ Ha Hfit H1) as (accs' & E & H2). exists accs'. split; [|done].
    cbn [accumulate_all]. rewrite E1. done.
Qed.

(** The first loop finds nothing wrong. *)
Lemma check_items_answerable schema rows items :
  Forall (answerable schema rows) items → check_items schema items = Some Status_OK.
Proof.
  induction 1 as [|item items (f & Hf & Ha) _ IH]; [done|]. cbn [check_items]. rewrite Hf. cbn [mbind option_bind].
  destruct (aggregate_star item); [by rewrite andb_false_r|].
  destruct Ha as (column & i & c & Hcol & Hi & Hc & Hnum & _). rewrite andb_true_r.
  destruct (bool_decide (f = kSum) || bool_decide (f = kAvg)) eqn:E; [|done].
  rewrite Hcol. cbn [mbind option_bind]. rewrite Hi, Hc. cbn [mbind option_bind]. rewrite Hnum; [done|].
  apply orb_true_iff in E as [E|E]; apply bool_decide_eq_true_1 in E; auto.
Qed.

Lemma result_value_accumulated schema rows item acc :
  accumulated schema item rows acc → ∃ v, result_value item acc = Some v ∧ aggregate_value schema rows item v.
Proof.
  unfold accumulated, result_value, aggregate_value, or_null. destruct (item_aggregate item) as [f|]; [|done].
  intros Hacc. cbn [mbind option_bind]. eexists. split; [done|]. set (vs := item_values schema item rows) in *. destruct f.
  - by rewrite Hacc.
  - destruct Hacc as (_ & Hs & Hv). rewrite Hv, Hs. by destruct vs.
  - destruct Hacc as (Hc & Hs & Hv). rewrite Hv, Hs, Hc. by destruct vs.
  - destruct (acc_min_v acc) as [m|]; cbn [best_of default] in Hacc |- *; [|by exists VNull; rewrite Hacc].
    exists m. split; [|done]. destruct vs; [|done]. by destruct Hacc as ([|? vs1] & ? & ? & _).
  - destruct (acc_max_v acc) as [m|]; cbn [best_of default] in Hacc |- *; [|by exists VNull; rewrite Hacc].
    exists m. split; [|done]. destruct vs; [|done]. by destruct Hacc as ([|? vs1] & ? & ? & _).
Qed.

(** ** The operator *)

(** The one tuple has the value of each item. *)
Lemma aggregate_stream_values schema items ts post :
  Forall (answerable schema (tup_values <$> ts)) items → Forall (row_fits schema) (tup_values <$> ts) →
  ∃ vs, aggregate_stream schema items ts post = Some ([mkTuple (mkRid kInvalidPageId 0) vs], post) ∧
    Forall2 (aggregate_value schema (tup_values <$> ts)) items vs.
Proof.
  intros Ha Hfit. unfold aggregate_stream. rewrite (check_items_answerable _ _ _ Ha). cbn [mbind option_bind].
  change (status_ok Status_OK) with true. cbn iota.
  destruct (accumulate_all_values schema items ts [] (replicate (length items) Accumulator_new)) as (accs & -> & Hacc); [done..| |].
  - clear -Ha. induction Ha as [|item items (f & Hf & _) _ IH]; cbn; constructor; [|done]. by apply accumulated_new; eexists.
  - cbn [mbind option_bind app] in *. assert (∃ vs, result_values items accs = Some vs ∧
      Forall2 (aggregate_value schema (tup_values <$> ts)) items vs) as (vs & -> & Hvs); [|by exists vs].
    clear Ha Hfit. induction Hacc as [|item acc items accs Hacc _ (vs & IH & Hvs)]; [by eexists|].
    destruct (result_value_accumulated _ _ _ _ Hacc) as (v & Ev & Hv). exists (v :: vs). cbn [result_values].
    rewrite Ev. cbn [mbind option_bind]. rewrite IH. split; [done|by constructor].
Qed.

(** ** Exact sums *)

Definition integer_value (v : Value) : option Z := match v with VInt32 z | VInt64 z => Some z | _ => None end.

Definition integer_sum (vs : list Value) : Z := foldr Z.add 0 (omap integer_value vs).
Definition magnitude (vs : list Value) : Z := foldr (λ z n, Z.abs z + n) 0 (omap integer_value vs).

Lemma sum_of_integers vs :
  Forall (λ v, is_Some (integer_value v)) vs → magnitude vs < 2 ^ 53 → sum_of vs = double_of_Z (integer_sum vs).
Proof.
  intros Hi Hm. unfold sum_of, integer_sum, magnitude in *.
  assert (omap ValueToDoubleOrNull vs = double_of_Z <$> omap integer_value vs) as ->.
  { clear Hm. induction Hi as [|v vs [z Hz] _ IH]; [done|]. cbn in *. rewrite Hz. by destruct v; simplify_eq/=; rewrite IH. }
  clear Hi. generalize dependent (omap integer_value vs). clear vs. intros zs Hm.
  change (S754_zero false) with (double_of_Z 0).
  assert (∀ x, Z.abs x + foldr (λ z n, Z.abs z + n) 0 zs < 2 ^ 53 →
    fold_left double_add (double_of_Z <$> zs) (double_of_Z x) = double_of_Z (x + foldr Z.add 0 zs)) as Hg; [|by apply Hg].
  clear Hm. induction zs as [|z zs IH]; intros x Hx; cbn in *; [f_equal; lia|].
  assert (0 ≤ foldr (λ z n, Z.abs z + n) 0 zs) by (clear; induction zs; cbn; lia).
  unfold double_add at 2. rewrite double_add_exact by (unfold exact_int; lia). rewrite IH by lia. f_equal. lia.
Qed.

(** Neither depends on the order of the rows. *)
#[export] Instance integer_sum_perm : Proper ((≡ₚ) ==> (=)) integer_sum.
Proof.
  unfold integer_sum. intros vs ws Hp.
  induction Hp as [|v vs ws _ IH|v w vs|vs ws us _ IH1 _ IH2]; cbn; repeat case_match; cbn; lia.
Qed.

#[export] Instance magnitude_perm : Proper ((≡ₚ) ==> (=)) magnitude.
Proof.
  unfold magnitude. intros vs ws Hp.
  induction Hp as [|v vs ws _ IH|v w vs|vs ws us _ IH1 _ IH2]; cbn; repeat case_match; cbn; lia.
Qed.

#[export] Instance column_values_perm schema column : Proper ((≡ₚ) ==> (≡ₚ)) (column_values schema column).
Proof. unfold column_values. intros rows1 rows2 Hp. destruct (IndexOf schema column); [|done]. by rewrite Hp. Qed.
