(* ===== verification/Database.v ===== *)
(** * The database object: src/database.hpp

    Three page files, each with its buffer pool: the catalog's, the tables' and
    the indexes'.  [Database_open] is the constructor on the contents of the
    three files of a directory (a file that is missing is [None]); [FlushAll]
    and the destructors leave the contents [Database_close] returns. *)

From stdpp Require Import gmap.
From S2P Require Import Prelude Util PageManager PageStore BufferPool HeapFile Catalog TableManager.

Record Database (Pool : Type) := mkDatabase {
  table_manager_ : TableManager Pool;
  index_buffer_pool_ : Pool
}.
Arguments mkDatabase {Pool}.
Arguments table_manager_ {Pool}.
Arguments index_buffer_pool_ {Pool}.

(** [db_->Tables()...], [db_->Catalog()...] and the trees, which work on
    [db_->IndexBufferPool()]. *)
Definition on_tables {Pool A} (m : M (TableManager Pool) A) : M (Database Pool) A :=
  λ db, match m (table_manager_ db) with
        | Some (a, t) => Some (a, mkDatabase t (index_buffer_pool_ db))
        | None => None
        end.
Definition on_db_catalog {Pool A} (m : M (Pool * CatalogManager) A) : M (Database Pool) A :=
  on_tables (on_catalog m).
Definition on_index_pool {Pool A} (m : M Pool A) : M (Database Pool) A :=
  λ db, match m (index_buffer_pool_ db) with
        | Some (a, p) => Some (a, mkDatabase (table_manager_ db) p)
        | None => None
        end.

(** ** Opening and closing *)

Definition DetectExistingTableCatalogFirstPage (pm : PageManager) : Z :=
  if page_count_ pm >? 1 then kFirstDataPageId else kInvalidPageId.
Definition DetectExistingIndexCatalogFirstPage (pm : PageManager) : Z :=
  if page_count_ pm >? 2 then kFirstDataPageId + 1 else kInvalidPageId.

Definition pool_over (file : option bytes) : BufferPool :=
  BufferPool_new (PageManager_open file) (Z.to_nat kDefaultBufferPoolSize).

Definition Database_open (fuel : nat) (catalog_file data_file index_file : option bytes) :
    option (Database BufferPool) :=
  let pm := PageManager_open catalog_file in
  cat ← CatalogManager_new fuel (DetectExistingTableCatalogFirstPage pm) (DetectExistingIndexCatalogFirstPage pm)
          (pool_over catalog_file);
  Some (mkDatabase (mkTables (pool_over data_file) cat ∅) (pool_over index_file)).

(** The statuses are ignored. *)
Definition Database_FlushAll (db : Database BufferPool) : Database BufferPool :=
  let t := table_manager_ db in
  mkDatabase
    (mkTables (FlushAll (data_pool t)).2 ((FlushAll (catalog t).1).2, (catalog t).2) (open_tables_ t))
    (FlushAll (index_buffer_pool_ db)).2.

Definition Database_close (db : Database BufferPool) : bytes * bytes * bytes :=
  let t := table_manager_ db in
  (PageManager_close (page_manager_ (catalog t).1), PageManager_close (page_manager_ (data_pool t)),
   PageManager_close (page_manager_ (index_buffer_pool_ db))).
