(* ===== verification/Scans.v ===== *)
(** * Scans: src/executor/seq_scan.hpp, src/executor/index_scan.hpp

    The operators at the leaves of a query, over the database. *)

From stdpp Require Import gmap.
From S2P Require Import Prelude Util Value PageStore HeapFile TableManager BPlusNode BPlusTree Database ExprEval Operators.

Record SeqScanOperator := mkSeqScan {
  seq_table_name_ : string;
  seq_buffered_ : list Tuple;
  seq_cursor_ : nat
}.

Definition SeqScanOperator_new (table_name : string) : SeqScanOperator := mkSeqScan table_name [] 0.

Record IndexScanOperator := mkIndexScan {
  idx_table_name_ : string;
  idx_tree_ : Z;
  low_ : option Z;
  low_inclusive_ : bool;
  high_ : option Z;
  high_inclusive_ : bool;
  is_equality_ : bool;
  candidates_ : list RecordId;
  idx_cursor_ : nat;
  idx_error_ : Status
}.

(** The two constructors. *)
Definition IndexScanOperator_equal (table_name : string) (tree equal_key : Z) : IndexScanOperator :=
  mkIndexScan table_name tree (Some equal_key) true (Some equal_key) true true [] 0 Status_OK.
Definition IndexScanOperator_range (table_name : string) (tree : Z) (low : option Z) (low_inclusive : bool)
    (high : option Z) (high_inclusive : bool) : IndexScanOperator :=
  mkIndexScan table_name tree low low_inclusive high high_inclusive false [] 0 Status_OK.

Section scans.
Context {Pool : Type} `{PageStore Pool}.
Abbreviation W := (Database Pool).

(** The database an operator works on. *)
Definition on_world {Op A} (m : M W A) : M (Op * W) A :=
  λ '(op, w), match m w with Some (a, w') => Some (a, (op, w')) | None => None end.

(** *** seq_scan.hpp *)

Definition seq_open (fuel : nat) : M (SeqScanOperator * W) unit :=
  let! s := members in
  let! r := on_world (on_tables (TableManager.Scan fuel (seq_table_name_ s)
              (λ rid values buffered, buffered ++ [mkTuple rid values]) [])) in
  set_members (λ s, mkSeqScan (seq_table_name_ s) r.2 0).

Definition seq_next : M (SeqScanOperator * W) (option Tuple) :=
  let! s := members in
  match seq_buffered_ s !! seq_cursor_ s with
  | None => ret None
  | Some t =>
      do! set_members (λ s, mkSeqScan (seq_table_name_ s) (seq_buffered_ s) (S (seq_cursor_ s))) in
      ret (Some t)
  end.

#[export] Instance seq_scan_operator : Operator W SeqScanOperator := {|
  Open := seq_open;
  Next _ := seq_next;
  Close := set_members (λ s, mkSeqScan (seq_table_name_ s) [] (seq_cursor_ s));
  GetError _ := Status_OK |}.

(** *** index_scan.hpp *)

Definition idx_set (candidates : list RecordId) (cursor : nat) (error : Status) (s : IndexScanOperator) :
    IndexScanOperator :=
  mkIndexScan (idx_table_name_ s) (idx_tree_ s) (low_ s) (low_inclusive_ s) (high_ s) (high_inclusive_ s)
    (is_equality_ s) candidates cursor error.

Definition idx_open (fuel : nat) : M (IndexScanOperator * W) unit :=
  do! set_members (idx_set [] 0 Status_OK) in
  let! s := members in
  if is_equality_ s then
    match low_ s with
    | None => undefined_behaviour
    | Some key =>
        let! result := on_world (on_index_pool (SearchEqual fuel (idx_tree_ s) key)) in
        match result with
        | Err e => set_members (idx_set [] 0 e)
        | Ok rids => set_members (idx_set rids 0 Status_OK)
        end
    end
  else
    let! result := on_world (on_index_pool
      (RangeScan fuel (idx_tree_ s) (low_ s) (low_inclusive_ s) (high_ s) (high_inclusive_ s))) in
    match result with
    | Err e => set_members (idx_set [] 0 e)
    | Ok entries => set_members (idx_set entries.*2 0 Status_OK)
    end.

(** [while (cursor_ < candidates_.size())], over the candidates that are
    left. *)
Fixpoint idx_loop (candidates : list RecordId) : M (IndexScanOperator * W) (option Tuple) :=
  match candidates with
  | [] => ret None
  | rid :: rest =>
      do! set_members (λ s, idx_set (candidates_ s) (S (idx_cursor_ s)) (idx_error_ s) s) in
      let! s := members in
      let! row := on_world (on_tables (TableManager.GetRow (idx_table_name_ s) rid)) in
      match row with
      | Ok values => ret (Some (mkTuple rid values))
      | Err _ => idx_loop rest
      end
  end.

Definition idx_next : M (IndexScanOperator * W) (option Tuple) :=
  let! s := members in idx_loop (drop (idx_cursor_ s) (candidates_ s)).

#[export] Instance index_scan_operator : Operator W IndexScanOperator := {|
  Open := idx_open;
  Next _ := idx_next;
  Close := set_members (λ s, idx_set [] (idx_cursor_ s) (idx_error_ s) s);
  GetError := idx_error_ |}.
End scans.
