(* ===== verification/Executor.v ===== *)
(** * The executor: src/executor/executor.hpp, executor.cpp, query_result.hpp

    [Execute] runs a statement against the database.  The order in which a
    statement meets the indexes of the catalog is that of an unordered map,
    which no statement changes while it traverses it: it is the argument
    [order]. *)

From stdpp Require Import gmap pretty.
From S2P Require Import Prelude Util Value PageStore HeapFile Catalog TableManager BPlusNode BPlusTree Database.
From S2P Require Import Ast ExprEval Operators Scans.

Record QueryResult := mkQueryResult {
  column_names : list string;
  result_rows : list (list Value);
  rows_affected : nat;
  message : string;
  scan_strategy : string
}.

(** A default-constructed result with a message. *)
Definition done_result (msg : string) : QueryResult := mkQueryResult [] [] 0 msg "".
Definition count_result (n : nat) (msg : string) : QueryResult :=
  mkQueryResult [] [] n (msg +:+ pretty n) "".

(** ** Helpers *)

Definition CoerceLiteralToColumnType (literal : Value) (col : Column) : Result Value :=
  if IsNull literal then
    if negb (col_nullable col) then
      Err (InvalidArgument ("NULL given for NOT NULL column '" +:+ col_name col +:+ "'"))
    else Ok literal
  else
    match col_type col with
    | Value.kInt =>
        match literal with
        | VInt64 v =>
            if (v <? - 2 ^ 31) || (v >? 2 ^ 31 - 1) then
              Err (InvalidArgument ("integer value out of range for INT column '" +:+ col_name col +:+ "'"))
            else Ok (VInt32 v)
        | _ => Err (InvalidArgument ("expected an integer value for column '" +:+ col_name col +:+ "'"))
        end
    | Value.kBigInt =>
        match literal with
        | VInt64 _ => Ok literal
        | _ => Err (InvalidArgument ("expected an integer value for column '" +:+ col_name col +:+ "'"))
        end
    | Value.kDouble =>
        match literal with
        | VDouble _ => Ok literal
        | VInt64 v => Ok (VDouble (bits_of_double (double_of_Z v)))
        | _ => Err (InvalidArgument ("expected a numeric value for column '" +:+ col_name col +:+ "'"))
        end
    | Value.kBool =>
        match literal with
        | VBool _ => Ok literal
        | _ => Err (InvalidArgument ("expected a boolean value for column '" +:+ col_name col +:+ "'"))
        end
    | Value.kVarchar =>
        match literal with
        | VString _ => Ok literal
        | _ => Err (InvalidArgument ("expected a string value for column '" +:+ col_name col +:+ "'"))
        end
    end.

Definition ExtractInt64Key (v : Value) : option Z :=
  match v with VInt32 z | VInt64 z => Some z | _ => None end.

(** ** Choosing an index *)

Fixpoint FlattenAnd (e : Expr) : list Expr :=
  match e with
  | BinaryExpr lhs kAnd rhs => FlattenAnd lhs ++ FlattenAnd rhs
  | _ => [e]
  end.

Definition FlipComparisonOp (op : BinaryOp) : BinaryOp :=
  match op with kLt => kGt | kGt => kLt | kLte => kGte | kGte => kLte | _ => op end.

Record IndexableConjunct := mkConjunct {
  conj_column : string;
  conj_op : BinaryOp;
  conj_value : Z
}.

Definition ExtractIndexableConjunct (e : Expr) : option IndexableConjunct :=
  match e with
  | BinaryExpr lhs op rhs =>
      if is_logical op then None
      else
        match lhs, rhs with
        | ColumnRefExpr column, LiteralExpr (VInt64 v) => Some (mkConjunct column op v)
        | LiteralExpr (VInt64 v), ColumnRefExpr column => Some (mkConjunct column (FlipComparisonOp op) v)
        | _, _ => None
        end
  | _ => None
  end.

(** The loop over the conjuncts: the first equality on an indexed column, or
    else the first conjunct on one. *)
Fixpoint choose_index (indexes : list IndexMetadata) (conjuncts : list Expr)
    (chosen : option (IndexableConjunct * IndexMetadata)) : option (IndexableConjunct * IndexMetadata) :=
  match conjuncts with
  | [] => chosen
  | e :: conjuncts' =>
      match ExtractIndexableConjunct e with
      | None => choose_index indexes conjuncts' chosen
      | Some candidate =>
          match List.find (λ idx, String.eqb (index_column_name idx) (conj_column candidate)) indexes with
          | None => choose_index indexes conjuncts' chosen
          | Some idx =>
              if bool_decide (conj_op candidate = kEq) then Some (candidate, idx)
              else
                choose_index indexes conjuncts'
                  (match chosen with Some _ => chosen | None => Some (candidate, idx) end)
          end
      end
  end.

Definition top_is_or (e : Expr) : bool := match e with BinaryExpr _ kOr _ => true | _ => false end.

(** The scan for a chosen conjunct over the tree [tree]. *)
Definition index_scan (table_name : string) (tree : Z) (c : IndexableConjunct) : IndexScanOperator :=
  let v := conj_value c in
  match conj_op c with
  | kEq => IndexScanOperator_equal table_name tree v
  | kLt => IndexScanOperator_range table_name tree None true (Some v) false
  | kLte => IndexScanOperator_range table_name tree None true (Some v) true
  | kGt => IndexScanOperator_range table_name tree (Some v) false None true
  | kGte => IndexScanOperator_range table_name tree (Some v) true None true
  | _ => IndexScanOperator_range table_name tree None true None true
  end.

Section executor.
Context {Pool : Type} `{PageStore Pool}.
Context (fuel : nat) (order : list string).
Abbreviation DM A := (M (Database Pool) (Result A)).

Definition indexes_for (table_name : string) : M (Database Pool) (list IndexMetadata) :=
  gets (λ db, GetIndexesForTable order table_name (catalog (table_manager_ db)).2).

(** ** Index maintenance *)

(** The body of the loop, for the operation [f] on the tree. *)
Definition maintain (f : Z → Z → RecordId → M Pool Status) (schema : Schema) (row : list Value) (rid : RecordId)
    (idx : IndexMetadata) : M (Database Pool) unit :=
  match IndexOf schema (index_column_name idx) with
  | None => ret tt
  | Some col_idx =>
      match row !! col_idx with
      | None => undefined_behaviour
      | Some v =>
          match ExtractInt64Key v with
          | None => ret tt
          | Some key =>
              let! tree := on_index_pool (BPlusTree_new (index_meta_page_id idx)) in
              do! on_index_pool (f tree key rid) in
              ret tt
          end
      end
  end.

Fixpoint maintain_all (f : Z → Z → RecordId → M Pool Status) (schema : Schema) (row : list Value) (rid : RecordId)
    (indexes : list IndexMetadata) : M (Database Pool) unit :=
  match indexes with
  | [] => ret tt
  | idx :: indexes' => do! maintain f schema row rid idx in maintain_all f schema row rid indexes'
  end.

Definition MaintainIndexesOnInsert (table_name : string) (schema : Schema) (row : list Value) (rid : RecordId) :
    M (Database Pool) unit :=
  let! indexes := indexes_for table_name in maintain_all (Insert fuel) schema row rid indexes.
Definition MaintainIndexesOnDelete (table_name : string) (schema : Schema) (row : list Value) (rid : RecordId) :
    M (Database Pool) unit :=
  let! indexes := indexes_for table_name in maintain_all (Delete fuel) schema row rid indexes.

(** ** Statements *)

(** [const Schema* schema = db_->Tables().GetSchema(...)], with the check. *)
Definition require_schema (table_name : string) : DM Schema :=
  let! schema := on_tables (GetSchema table_name) in
  match schema with
  | None => ret (Err (NotFound ("no such table '" +:+ table_name +:+ "'")))
  | Some schema => rret schema
  end.

(** [if (!status.ok()) return status;]. *)
Definition require_ok (m : M (Database Pool) Status) : DM unit :=
  let! status := m in
  if negb (status_ok status) then ret (Err status) else rret tt.

Definition ExecuteCreateTable (table_name : string) (columns : list Column) : DM QueryResult :=
  do? require_ok (on_tables (TableManager.CreateTable fuel table_name columns)) in
  rret (done_result "CREATE TABLE").

Definition ExecuteDropTable (table_name : string) : DM QueryResult :=
  do? require_ok (on_tables (TableManager.DropTable table_name)) in
  rret (done_result "DROP TABLE").

(** The visitor of [ExecuteCreateIndex], whose state is the index pool. *)
Definition index_row (tree : Z) (col_idx : nat) (rid : RecordId) (values : list Value) (pool : option Pool) :
    option Pool :=
  pool ← pool;
  v ← values !! col_idx;
  match ExtractInt64Key v with
  | None => Some pool
  | Some key => snd <$> Insert fuel tree key rid pool
  end.

Definition is_indexable (t : ColumnType) : bool :=
  match t with Value.kInt | Value.kBigInt => true | _ => false end.

Definition scan_into_index (table_name : string) (tree : Z) (col_idx : nat) : M (Database Pool) Status :=
  λ db,
    match TableManager.Scan fuel table_name (index_row tree col_idx) (Some (index_buffer_pool_ db)) (table_manager_ db) with
    | Some ((status, Some pool), t) => Some (status, mkDatabase t pool)
    | _ => None
    end.

Definition ExecuteCreateIndex (index_name table_name column_name : string) : DM QueryResult :=
  let? schema := require_schema table_name in
  match IndexOf schema column_name with
  | None => ret (Err (InvalidArgument ("unknown column '" +:+ column_name +:+ "' in CREATE INDEX")))
  | Some col_idx =>
      match schema !! col_idx with
      | None => undefined_behaviour
      | Some col =>
          if negb (is_indexable (col_type col)) then
            ret (Err (InvalidArgument ("index only supported on INT/BIGINT columns in this implementation, column '"
              +:+ column_name +:+ "' is " +:+ ColumnTypeName (col_type col))))
          else
            let! tree := on_index_pool (BPlusTree_new kInvalidPageId) in
            do? require_ok (scan_into_index table_name tree col_idx) in
            do? on_db_catalog (CreateIndex fuel index_name table_name column_name tree) in
            rret (done_result "CREATE INDEX")
      end
  end.

Definition ExecuteDropIndex (index_name : string) : DM QueryResult :=
  do? require_ok (on_db_catalog (DropIndex index_name)) in
  rret (done_result "DROP INDEX").

(** *** INSERT *)

(** [target_indices]. *)
Fixpoint target_columns (schema : Schema) (columns : list string) (indices : list nat) : Result (list nat) :=
  match columns with
  | [] => Ok indices
  | col_name :: columns' =>
      match IndexOf schema col_name with
      | None => Err (InvalidArgument ("unknown column '" +:+ col_name +:+ "' in INSERT"))
      | Some idx => target_columns schema columns' (indices ++ [idx])
      end
  end.

Definition target_indices (schema : Schema) (columns : list string) : Result (list nat) :=
  match columns with
  | [] => Ok (seq 0 (length schema))
  | _ => target_columns schema columns []
  end.

(** The loop that fills [full_row]; [None] is an index out of range. *)
Fixpoint fill_row (schema : Schema) (targets : list nat) (row full_row : list Value) : option (Result (list Value)) :=
  match row, targets with
  | v :: row', col_idx :: targets' =>
      col ← schema !! col_idx;
      match CoerceLiteralToColumnType v col with
      | Err e => Some (Err e)
      | Ok coerced => fill_row schema targets' row' (<[col_idx := coerced]> full_row)
      end
  | _, _ => Some (Ok full_row)
  end.

Definition insert_row (table_name : string) (schema : Schema) (targets : list nat) (row : list Value) : DM unit :=
  if negb (bool_decide (length row = length targets)) then
    ret (Err (InvalidArgument "INSERT value count does not match column count"))
  else
    match fill_row schema targets row (replicate (length schema) VNull) with
    | None => undefined_behaviour
    | Some (Err e) => ret (Err e)
    | Some (Ok full_row) =>
        let? rid := on_tables (TableManager.InsertRow fuel table_name full_row) in
        do! MaintainIndexesOnInsert table_name schema full_row rid in
        rret tt
    end.

Fixpoint insert_rows (table_name : string) (schema : Schema) (targets : list nat) (rows : list (list Value))
    (inserted : nat) : DM nat :=
  match rows with
  | [] => rret inserted
  | row :: rows' =>
      do? insert_row table_name schema targets row in
      insert_rows table_name schema targets rows' (S inserted)
  end.

Definition ExecuteInsert (table_name : string) (columns : list string) (rows : list (list Value)) : DM QueryResult :=
  let? schema := require_schema table_name in
  match target_indices schema columns with
  | Err e => ret (Err e)
  | Ok targets =>
      let? inserted := insert_rows table_name schema targets rows 0 in
      rret (count_result inserted "INSERT 0 ")
  end.

(** *** UPDATE and DELETE *)

(** The visitor that collects the matches. *)
Definition collect_match (where_ : option Expr) (schema : Schema) (rid : RecordId) (values : list Value)
    (matches : option (list Tuple)) : option (list Tuple) :=
  matches ← matches;
  r ← EvaluatePredicate where_ schema values;
  match r with
  | Ok true => Some (matches ++ [mkTuple rid values])
  | _ => Some matches
  end.

Definition find_matches (table_name : string) (where_ : option Expr) (schema : Schema) : DM (list Tuple) :=
  let! r := on_tables (TableManager.Scan fuel table_name (collect_match where_ schema) (Some [])) in
  match r.2 with
  | None => undefined_behaviour
  | Some matches => if negb (status_ok r.1) then ret (Err r.1) else rret matches
  end.

Fixpoint coerce_assignments (schema : Schema) (assignments : list (string * Value)) (out : list (nat * Value)) :
    option (Result (list (nat * Value))) :=
  match assignments with
  | [] => Some (Ok out)
  | (col_name, literal) :: assignments' =>
      match IndexOf schema col_name with
      | None => Some (Err (InvalidArgument ("unknown column '" +:+ col_name +:+ "' in UPDATE SET")))
      | Some idx =>
          col ← schema !! idx;
          match CoerceLiteralToColumnType literal col with
          | Err e => Some (Err e)
          | Ok coerced => coerce_assignments schema assignments' (out ++ [(idx, coerced)])
          end
      end
  end.

(** [match.values[idx] = value] for each assignment. *)
Fixpoint assign (assignments : list (nat * Value)) (values : list Value) : option (list Value) :=
  match assignments with
  | [] => Some values
  | (idx, value) :: assignments' =>
      if bool_decide (idx < length values)%nat then assign assignments' (<[idx := value]> values) else None
  end.

Definition update_row (table_name : string) (schema : Schema) (assignments : list (nat * Value)) (m : Tuple) : DM unit :=
  match assign assignments (tup_values m) with
  | None => undefined_behaviour
  | Some values =>
      let? rid := on_tables (TableManager.UpdateRow fuel table_name (tup_rid m) values) in
      do! MaintainIndexesOnDelete table_name schema (tup_values m) (tup_rid m) in
      do! MaintainIndexesOnInsert table_name schema values rid in
      rret tt
  end.

Definition delete_row (table_name : string) (schema : Schema) (m : Tuple) : DM unit :=
  do? require_ok (on_tables (TableManager.DeleteRow table_name (tup_rid m))) in
  do! MaintainIndexesOnDelete table_name schema (tup_values m) (tup_rid m) in
  rret tt.

(** [for (auto& match : matches)], counting. *)
Fixpoint each_match (f : Tuple → DM unit) (matches : list Tuple) (n : nat) : DM nat :=
  match matches with
  | [] => rret n
  | m :: matches' => do? f m in each_match f matches' (S n)
  end.

Definition ExecuteUpdate (table_name : string) (assignments : list (string * Value)) (where_ : option Expr) :
    DM QueryResult :=
  let? schema := require_schema table_name in
  match coerce_assignments schema assignments [] with
  | None => undefined_behaviour
  | Some (Err e) => ret (Err e)
  | Some (Ok assignments) =>
      let? matches := find_matches table_name where_ schema in
      let? updated := each_match (update_row table_name schema assignments) matches 0 in
      rret (count_result updated "UPDATE ")
  end.

Definition ExecuteDelete (table_name : string) (where_ : option Expr) : DM QueryResult :=
  let? schema := require_schema table_name in
  let? matches := find_matches table_name where_ schema in
  let? deleted := each_match (delete_row table_name schema) matches 0 in
  rret (count_result deleted "DELETE ").

(** *** SELECT *)

(** What [chain] may point to. *)
Abbreviation ScanOp := (SeqScanOperator + IndexScanOperator)%type.
Abbreviation FilteredOp := (ScanOp + FilterOperator ScanOp)%type.
Abbreviation SortedOp := (FilteredOp + SortOperator FilteredOp)%type.
Abbreviation FinalOp := (ProjectOperator SortedOp + LimitOperator (ProjectOperator SortedOp))%type.

(** The access path, and the strategy that is reported. *)
Definition plan_scan (table_name : string) (where_ : option Expr) : M (Database Pool) (ScanOp * string) :=
  let seq := (inl (SeqScanOperator_new table_name), "SeqScan"%string) in
  match where_ with
  | None => ret seq
  | Some e =>
      if top_is_or e then ret seq
      else
        let! indexes := indexes_for table_name in
        match choose_index indexes (FlattenAnd e) None with
        | None => ret seq
        | Some (c, idx) =>
            let! tree := on_index_pool (BPlusTree_new (index_meta_page_id idx)) in
            ret (inr (index_scan table_name tree c), "IndexScan(" +:+ index_name idx +:+ ")")
        end
  end.

Definition add_filter (chain : ScanOp) (where_ : option Expr) (schema : Schema) : FilteredOp :=
  match where_ with
  | None => inl chain
  | Some _ => inr (FilterOperator_new chain where_ schema)
  end.

Definition add_sort (chain : FilteredOp) (order_by : option OrderByClause) (schema : Schema) : SortedOp :=
  match order_by with
  | None => inl chain
  | Some clause => inr (SortOperator_new chain clause schema)
  end.

Definition add_limit (project : ProjectOperator SortedOp) (limit : option Z) : FinalOp :=
  match limit with
  | None => inl project
  | Some n => inr (LimitOperator_new project n)
  end.

(** Open the operator, take its tuples, look for an error, close it; [op] is
    local to the statement. *)
Definition run_query {Op} `{Operator (Database Pool) Op} (op : Op) : DM (list (list Value)) :=
  λ db,
    match (do! Open fuel in
           let! ts := drain fuel fuel [] in
           let! op := members in
           do! Close in
           ret (if status_ok (GetError op) then Ok (tup_values <$> ts) else Err (GetError op))) (op, db) with
    | Some (r, (_, db')) => Some (r, db')
    | None => None
    end.

Definition select_result (names : list string) (rows : list (list Value)) (strategy : string) : QueryResult :=
  mkQueryResult names rows 0 ("SELECT " +:+ pretty (length rows)) strategy.

Definition ExecuteSelect (items : list SelectItem) (table_name : string) (where_ : option Expr)
    (order_by : option OrderByClause) (limit : option Z) : DM QueryResult :=
  let? schema := require_schema table_name in
  let any_aggregate := existsb (λ item, bool_decide (is_Some (item_aggregate item))) items in
  let any_plain := existsb (λ item, negb (bool_decide (is_Some (item_aggregate item)))) items in
  if any_aggregate && any_plain then
    ret (Err (InvalidArgument "cannot mix aggregate and non-aggregate columns without GROUP BY (not supported)"))
  else
    let! scan := plan_scan table_name where_ in
    let chain := add_filter scan.1 where_ schema in
    if any_aggregate then
      match AggregateOperator_new chain items schema with
      | None => undefined_behaviour
      | Some agg =>
          let? rows := run_query agg in
          rret (select_result (agg_column_names_ agg) rows scan.2)
      end
    else
      match ProjectOperator_new (add_sort chain order_by schema) items schema with
      | None => undefined_behaviour
      | Some project =>
          let? rows := run_query (add_limit project limit) in
          rret (select_result (project_column_names_ project) rows scan.2)
      end.

Definition Execute (stmt : Statement) : DM QueryResult :=
  match stmt with
  | CreateTableStmt table_name columns => ExecuteCreateTable table_name columns
  | DropTableStmt table_name => ExecuteDropTable table_name
  | CreateIndexStmt index_name table_name column_name => ExecuteCreateIndex index_name table_name column_name
  | DropIndexStmt index_name => ExecuteDropIndex index_name
  | InsertStmt table_name columns rows => ExecuteInsert table_name columns rows
  | UpdateStmt table_name assignments where_ => ExecuteUpdate table_name assignments where_
  | DeleteStmt table_name where_ => ExecuteDelete table_name where_
  | SelectStmt items table_name where_ order_by limit => ExecuteSelect items table_name where_ order_by limit
  end.
End executor.
