(* ===== verification/IndexSpec.v ===== *)
(** * Indexes and the tables they index

    The trees of a database, side by side in the pool of the index file, and
    what ties them to the tables: an index on a column has one entry for each
    row whose column holds an integer.  [maintain_all_spec] is the effect of
    index maintenance on the trees; [content_insert] and [content_delete] say
    that it keeps them in step with the rows. *)

From stdpp Require Import gmap.
From S2P Require Import Prelude Util Value RecordCodec PageManager PageStore HeapFile Catalog CatalogSpec TableManager.
From S2P Require Import TableSpec TableTheorems BPlusNode BPlusTree BPlusTreeSpec BPlusTreeOps BPlusTreeSearch BPlusTreeTheorems.
From S2P Require Import Database Ast ExprEval Operators Scans Executor.

(** ** Entries *)

(** The key a row has in column [col]. *)
Definition row_key (col : nat) (row : Row) : option Z := row !! col ≫= ExtractInt64Key.

Definition row_entry (col : nat) (r : RecordId * Row) : option Entry := (λ k, (k, r.1)) <$> row_key col r.2.

Definition entries_of (col : nat) (rows : Rows) : list Entry := omap (row_entry col) (map_to_list rows).

Lemma omap_option_list {A B} (f : A → option B) x l : omap f (x :: l) = option_list (f x) ++ omap f l.
Proof. cbn. by destruct (f x). Qed.

Lemma entries_of_insert col rows rid row :
  rows !! rid = None → entries_of col (<[rid := row]> rows) ≡ₚ option_list (row_entry col (rid, row)) ++ entries_of col rows.
Proof. intros Hn. unfold entries_of. rewrite map_to_list_insert by done. by rewrite omap_option_list. Qed.

Lemma entries_of_delete col rows rid row :
  rows !! rid = Some row →
  entries_of col rows ≡ₚ option_list (row_entry col (rid, row)) ++ entries_of col (delete rid rows).
Proof.
  intros Hr. rewrite <- (insert_delete_id rows rid row) at 1 by done. apply entries_of_insert, lookup_delete_eq.
Qed.

Lemma elem_of_entries col rows k rid :
  (k, rid) ∈ entries_of col rows ↔ ∃ row, rows !! rid = Some row ∧ row_key col row = Some k.
Proof.
  unfold entries_of. rewrite list_elem_of_omap. split.
  - intros ([rid' row] & Hin%elem_of_map_to_list & He). unfold row_entry in He. simpl in He.
    apply fmap_Some in He as (k' & Hk & [= -> ->]). eauto.
  - intros (row & Hr & Hk). exists (rid, row). split; [by apply elem_of_map_to_list|]. unfold row_entry. simpl. by rewrite Hk.
Qed.

(** The rows with key [k]. *)
Definition key_count (col : nat) (k : Z) (rows : Rows) : Z := Z.of_nat (length (has_key k (entries_of col rows))).

Lemma key_count_insert col k rows rid row :
  rows !! rid = None →
  key_count col k (<[rid := row]> rows) = key_count col k rows + if decide (row_key col row = Some k) then 1 else 0.
Proof.
  intros Hn. unfold key_count, has_key. rewrite entries_of_insert, filter_app, length_app by done.
  unfold row_entry. cbn [fst snd]. destruct (row_key col row) as [k'|]; cbn [fmap option_fmap option_map option_list].
  - destruct (decide (Some k' = Some k)) as [[= ->]|Hne].
    + change (option_list (Some (k, rid))) with [(k, rid)]. rewrite filter_cons_True by done. cbn. lia.
    + change (option_list (Some (k', rid))) with [(k', rid)]. rewrite filter_cons_False by (cbn; congruence). cbn. lia.
  - rewrite decide_False by done. cbn. lia.
Qed.

Lemma key_count_delete col k rows rid row :
  rows !! rid = Some row →
  key_count col k (delete rid rows) = key_count col k rows - if decide (row_key col row = Some k) then 1 else 0.
Proof.
  intros Hr. rewrite <- (insert_delete_id rows rid row Hr) at 2.
  rewrite key_count_insert by apply lookup_delete_eq. lia.
Qed.

Lemma entries_delete_perm key rid es : (key, rid) ∈ es → es ≡ₚ (key, rid) :: entries_delete key rid es.
Proof.
  induction es as [|e es IH]; [by intros ?%elem_of_nil|]. intros Hin. cbn [entries_delete]. case_decide as He; [by subst|].
  apply elem_of_cons in Hin as [Hin|Hin]; [done|]. rewrite Permutation_swap. by constructor; apply IH.
Qed.

(** ** The trees *)

(** For each index: its entries and the pages of the tree. *)
Abbreviation Trees := (gmap string (list Entry * list Z)).

Section trees.
Context {Pool : Type} `{PageStoreSpec Pool}.
Implicit Types (s : Pool) (ixs : gmap string IndexMetadata) (trees : Trees) (a : Db).

Record trees_wf s ixs trees : Prop := {
  tr_idle : ps_idle s;
  tr_avail : 2 < ps_avail s;
  tr_name : ∀ name meta, ixs !! name = Some meta → index_name meta = name;
  tr_tree : ∀ name meta, ixs !! name = Some meta →
    ∃ es ps, trees !! name = Some (es, ps) ∧ index_at s (index_meta_page_id meta) es ps;
  tr_disjoint : ∀ n1 n2 m1 m2 t1 t2, n1 ≠ n2 → ixs !! n1 = Some m1 → ixs !! n2 = Some m2 →
    trees !! n1 = Some t1 → trees !! n2 = Some t2 →
    ∀ p, p ∈ index_meta_page_id m1 :: t1.2 → p ∉ index_meta_page_id m2 :: t2.2
}.

(** An operation on the tree of one index. *)
Lemma tree_step s s' ixs trees name meta es ps es' ps' n :
  trees_wf s ixs trees → ixs !! name = Some meta → trees !! name = Some (es, ps) →
  index_at s' (index_meta_page_id meta) es' ps' →
  grown s s' (index_meta_page_id meta :: ps) (index_meta_page_id meta :: ps') n →
  trees_wf s' ixs (<[name := (es', ps')]> trees).
Proof.
  intros Hwf Hm Ht Hix Hg. pose proof Hg as [Hi Ha Hc _ Hp Hr].
  assert (∀ n2 m2 es2 ps2, n2 ≠ name → ixs !! n2 = Some m2 → trees !! n2 = Some (es2, ps2) →
    index_at s (index_meta_page_id m2) es2 ps2 → ∀ p, p ∈ index_meta_page_id m2 :: ps2 →
    1 ≤ p < ps_count s ∧ p ∉ index_meta_page_id meta :: ps) as Hother.
  { intros n2 m2 es2 ps2 Hn Hm2 Ht2 Hix2 p Hp2. split; [by eapply index_pages|].
    eapply (tr_disjoint _ _ _ Hwf n2 name m2 meta (es2, ps2) (es, ps)); done. }
  split; [done|by rewrite Ha; apply Hwf|apply Hwf| |].
  - intros n2 m2 Hm2. destruct (decide (n2 = name)) as [->|Hn].
    + rewrite lookup_insert_eq. simplify_eq. eauto.
    + rewrite lookup_insert_ne by done. destruct (tr_tree _ _ _ Hwf _ _ Hm2) as (es2 & ps2 & Ht2 & Hix2).
      exists es2, ps2. split; [done|]. eapply index_frame; [done|lia|]. intros p Hp2.
      destruct (Hother n2 m2 es2 ps2 Hn Hm2 Ht2 Hix2 p Hp2). by apply Hr.
  - assert (∀ n2 m2 t2, n2 ≠ name → ixs !! n2 = Some m2 → trees !! n2 = Some t2 →
      ∀ p, p ∈ index_meta_page_id m2 :: t2.2 → p ∉ index_meta_page_id meta :: ps') as Hnew.
    { intros n2 m2 t2 Hn Hm2 Ht2 p Hp2 Hp'. destruct (tr_tree _ _ _ Hwf _ _ Hm2) as (es2 & ps2 & Ht2' & Hix2).
      simplify_eq. destruct (Hother n2 m2 es2 ps2 Hn Hm2 Ht2 Hix2 p Hp2) as [? Hno].
      apply Hp in Hp' as [?|?]; [done|lia]. }
    intros n1 n2 m1 m2 t1 t2 Hn Hm1 Hm2 [[<- <-]|[Hn1 Ht1]]%lookup_insert_Some [[<- <-]|[Hn2 Ht2]]%lookup_insert_Some p.
    + done.
    + simplify_eq. intros Hp1 Hp2. by apply (Hnew n2 m2 t2 (not_eq_sym Hn2) Hm2 Ht2 p Hp2).
    + simplify_eq. by apply (Hnew n1 m1 t1 (not_eq_sym Hn1) Hm1 Ht1 p).
    + by apply (tr_disjoint _ _ _ Hwf n1 n2 m1 m2 t1 t2).
Qed.

(** The store was only read. *)
Lemma trees_same s s' ixs trees : trees_wf s ixs trees → same_store s s' → trees_wf s' ixs trees.
Proof.
  intros [Hi Ha Hn Ht Hd] (Hi' & He & Ha'). split; try done; [by rewrite Ha'|].
  intros name meta Hm. destruct (Ht name meta Hm) as (es & ps & ? & ?). exists es, ps. split; [done|]. by eapply index_eqv.
Qed.

(** ** Maintenance *)

(** The entry of a row in an index. *)
Definition index_entry_of (schema : Schema) (row : Row) (rid : RecordId) (meta : IndexMetadata) : option Entry :=
  col ← IndexOf schema (index_column_name meta); row_entry col (rid, row).

Section maintain.
Context (fuel : nat) (f : Z → Z → RecordId → M Pool Status) (g : Z → RecordId → list Entry → list Entry).
Context (ok : list Entry → Entry → Prop).
Hypothesis f_spec : ∀ s meta es ps key rid,
  index_at s meta es ps → ok es (key, rid) → ps_idle s → 2 < ps_avail s →
  ps_count s + kMaxGrowth < 2 ^ 31 → ps_count s ≤ Z.of_nat fuel →
  ∃ st s' ps', f meta key rid s = Some (st, s') ∧ index_at s' meta (g key rid es) ps' ∧
    grown s s' (meta :: ps) (meta :: ps') kMaxGrowth.

Definition apply_entry (e : option Entry) (es : list Entry) : list Entry :=
  match e with Some (key, rid) => g key rid es | None => es end.

Lemma maintain_spec schema row rid meta t s ixs trees es ps :
  length row = length schema → trees_wf s ixs trees →
  ixs !! index_name meta = Some meta → trees !! index_name meta = Some (es, ps) →
  (∀ e, index_entry_of schema row rid meta = Some e → ok es e) →
  ps_count s + kMaxGrowth < 2 ^ 31 → ps_count s ≤ Z.of_nat fuel →
  ∃ s' ps', maintain f schema row rid meta (mkDatabase t s) = Some (tt, mkDatabase t s') ∧
    trees_wf s' ixs (<[index_name meta := (apply_entry (index_entry_of schema row rid meta) es, ps')]> trees) ∧
    ps_count s ≤ ps_count s' ≤ ps_count s + kMaxGrowth.
Proof.
  intros Hl Hwf Hm Ht Hok Hc Hf. unfold maintain, index_entry_of, row_entry, row_key in *. cbn [fst snd] in *.
  assert (trees_wf s ixs (<[index_name meta := (es, ps)]> trees)) as Hsame by (by rewrite insert_id).
  assert (0 ≤ kMaxGrowth) by done.
  pose proof (IndexOf_spec schema (index_column_name meta)) as Hix.
  destruct (IndexOf schema (index_column_name meta)) as [col|]; cbn [mbind option_bind] in *;
    [|exists s, ps; split; [done|]; split; [done|lia]].
  destruct Hix as (c & Hcol & _). assert (is_Some (row !! col)) as [v Hv].
  { apply lookup_lt_is_Some. rewrite Hl. by eapply lookup_lt_Some. }
  rewrite Hv in *. cbn [mbind option_bind] in *.
  destruct (ExtractInt64Key v) as [key|]; cbn [fmap option_fmap option_map apply_entry] in *;
    [|exists s, ps; split; [done|]; split; [done|lia]].
  destruct (tr_tree _ _ _ Hwf _ _ Hm) as (es2 & ps2 & Ht2 & Hia). rewrite Ht in Ht2. injection Ht2 as <- <-.
  destruct (f_spec s (index_meta_page_id meta) es ps key rid Hia) as (st & s' & ps' & E & Hia' & Hg);
    [by apply Hok|apply Hwf|apply Hwf|done|done|].
  exists s', ps'. split; [|split; [by eapply tree_step|apply Hg]].
  assert (index_meta_page_id meta ≠ kInvalidPageId) as Hne%Z.eqb_neq by (destruct Hia; unfold kInvalidPageId; lia).
  unfold bind, on_index_pool, BPlusTree_new. rewrite Hne. cbn [index_buffer_pool_ table_manager_ ret]. by rewrite E.
Qed.

(** All the indexes of a list; the others stay. *)
Lemma maintain_all_spec schema row rid metas t s ixs trees :
  length row = length schema → trees_wf s ixs trees → NoDup (index_name <$> metas) →
  (∀ meta, meta ∈ metas → ixs !! index_name meta = Some meta) →
  (∀ meta es ps e, meta ∈ metas → trees !! index_name meta = Some (es, ps) →
     index_entry_of schema row rid meta = Some e → ok es e) →
  ps_count s + kMaxGrowth * Z.of_nat (length metas) < 2 ^ 31 →
  ps_count s + kMaxGrowth * Z.of_nat (length metas) ≤ Z.of_nat fuel →
  ∃ s' trees', maintain_all f schema row rid metas (mkDatabase t s) = Some (tt, mkDatabase t s') ∧
    trees_wf s' ixs trees' ∧ ps_count s ≤ ps_count s' ≤ ps_count s + kMaxGrowth * Z.of_nat (length metas) ∧
    (∀ meta es ps, meta ∈ metas → trees !! index_name meta = Some (es, ps) →
       ∃ ps', trees' !! index_name meta = Some (apply_entry (index_entry_of schema row rid meta) es, ps')) ∧
    (∀ name, name ∉ index_name <$> metas → trees' !! name = trees !! name).
Proof.
  intros Hl. revert s trees. induction metas as [|meta metas IH]; intros s trees Hwf Hnd Hms Hok Hc Hf.
  { exists s, trees. split; [done|]. split; [done|]. split; [simpl; lia|]. split; [by intros ??? ?%elem_of_nil|done]. }
  cbn [fmap list_fmap] in Hnd. apply NoDup_cons in Hnd as [Hn Hnd]. cbn [length] in Hc, Hf.
  change (list_fmap _ _ index_name metas) with (index_name <$> metas) in *.
  assert (0 ≤ kMaxGrowth) by done.
  pose proof (Hms meta ltac:(left)) as Hm. destruct (tr_tree _ _ _ Hwf _ _ Hm) as (es & ps & Ht & _).
  destruct (maintain_spec schema row rid meta t s ixs trees es ps Hl Hwf Hm Ht) as (s1 & ps1 & E1 & Hwf1 & Hc1);
    [intros e; apply (Hok meta es ps e); [left|done]|lia..|].
  assert (∀ meta', meta' ∈ metas → index_name meta' ≠ index_name meta) as Hne.
  { intros meta' Hin Heq. apply Hn. rewrite <- Heq. by apply list_elem_of_fmap_2. }
  destruct (IH s1 _ Hwf1 Hnd) as (s' & trees' & E & Hwf' & Hc' & Hin' & Hout'); [|intros meta' es' ps' e Hin Hl2|lia..|].
  { intros meta' Hin. apply Hms. by right. }
  { rewrite lookup_insert_ne in Hl2 by (by apply not_eq_sym, Hne). apply (Hok meta' es' ps' e); [by right|done]. }
  exists s', trees'. split; [cbn [maintain_all]; by erewrite bind_Some by exact E1|].
  split; [done|]. split; [cbn [length]; lia|]. split.
  - intros meta' es' ps' [->|Hin]%elem_of_cons Ht'.
    + simplify_eq. exists ps1. rewrite Hout' by done. apply lookup_insert_eq.
    + apply (Hin' meta' es' ps' Hin). by rewrite lookup_insert_ne by (by apply not_eq_sym, Hne).
  - intros name Hname. cbn [fmap list_fmap] in Hname. apply not_elem_of_cons in Hname as [Hn1 Hn2].
    rewrite Hout' by done. by rewrite lookup_insert_ne by done.
Qed.
End maintain.

(** ** Trees and tables *)

(** Every index of a table that is there is on an integer column, and its
    entries are those of the rows. *)
Definition in_step a ixs trees : Prop :=
  ∀ name meta es ps schema rows, ixs !! name = Some meta → trees !! name = Some (es, ps) →
    a !! index_table_name meta = Some (schema, rows) →
    ∃ col c, IndexOf schema (index_column_name meta) = Some col ∧ schema !! col = Some c ∧
      is_indexable (col_type c) = true ∧ es ≡ₚ entries_of col rows.

(** [order] meets every index once. *)
Definition complete_order (order : list string) ixs : Prop := NoDup order ∧ ∀ name, is_Some (ixs !! name) → name ∈ order.

(** Room for [n] more rows under any key of an indexed column. *)
Definition dups_room (n : Z) ixs (table : string) (schema : Schema) (rows : Rows) : Prop :=
  ∀ name meta col k, ixs !! name = Some meta → index_table_name meta = table →
    IndexOf schema (index_column_name meta) = Some col → key_count col k rows + n ≤ kLeafMaxKeys.

Lemma indexes_for_spec order table (c : CatalogManager) :
  complete_order order (indexes_ c) → (∀ name meta, indexes_ c !! name = Some meta → index_name meta = name) →
  NoDup (index_name <$> GetIndexesForTable order table c) ∧
  ∀ meta, meta ∈ GetIndexesForTable order table c ↔
    indexes_ c !! index_name meta = Some meta ∧ index_table_name meta = table.
Proof.
  intros [Hnd Hall] Hname. unfold GetIndexesForTable.
  assert (index_name <$> (in_order order (indexes_ c)).*2 = (in_order order (indexes_ c)).*1) as Hn.
  { unfold in_order. clear Hnd Hall. induction order as [|n order IH]; [done|]. cbn.
    destruct (indexes_ c !! n) as [meta|] eqn:E; cbn; [|done]. f_equal; [by apply Hname|done]. }
  assert (∀ meta, meta ∈ (in_order order (indexes_ c)).*2 ↔ indexes_ c !! index_name meta = Some meta) as Hin.
  { intros meta. rewrite list_elem_of_fmap. unfold in_order. split.
    - intros ([n m] & -> & (n' & _ & Hf)%list_elem_of_omap). cbn in *. apply fmap_Some in Hf as (m' & Hm & [= -> ->]).
      by rewrite (Hname _ _ Hm).
    - intros Hm. exists (index_name meta, meta). split; [done|]. apply list_elem_of_omap. exists (index_name meta).
      split; [by apply Hall|]. by rewrite Hm. }
  split.
  - apply (sublist_NoDup _ (in_order order (indexes_ c)).*1).
    + unfold in_order. clear Hn Hin Hall. induction Hnd as [|n order Hnin Hnd IH]; [constructor|]. cbn.
      destruct (indexes_ c !! n) as [m|]; cbn; [|done]. constructor; [|done].
      intros ([n' m'] & Hn' & (n2 & Hin2 & Hf)%list_elem_of_omap)%list_elem_of_fmap. cbn in *. subst n'.
      apply fmap_Some in Hf as (? & _ & [= -> ->]). done.
    + rewrite <- Hn. apply fmap_sublist, sublist_filter.
  - intros meta. rewrite list_elem_of_filter, Hin. tauto.
Qed.

Lemma dups_room_below n ixs table schema rows name meta col es :
  dups_room n ixs table schema rows → 1 ≤ n → ixs !! name = Some meta → index_table_name meta = table →
  IndexOf schema (index_column_name meta) = Some col → es ≡ₚ entries_of col rows → dups_below kLeafMaxKeys es.
Proof.
  intros Hd Hn Hm Ht Hc He k. specialize (Hd name meta col k Hm Ht Hc). unfold key_count, has_key in Hd. rewrite He. lia.
Qed.

Lemma dups_room_insert n ixs table schema rows rid row :
  dups_room n ixs table schema rows → rows !! rid = None → dups_room (n - 1) ixs table schema (<[rid := row]> rows).
Proof.
  intros Hd Hn name meta col k Hm Ht Hc. specialize (Hd name meta col k Hm Ht Hc).
  rewrite key_count_insert by done. case_decide; lia.
Qed.

Lemma dups_room_delete n ixs table schema rows rid :
  dups_room n ixs table schema rows → dups_room n ixs table schema (delete rid rows).
Proof.
  intros Hd. destruct (rows !! rid) as [row|] eqn:Hr; [|by rewrite delete_id].
  intros name meta col k Hm Ht Hc. specialize (Hd name meta col k Hm Ht Hc).
  rewrite (key_count_delete _ _ _ _ row) by done. case_decide; lia.
Qed.

Abbreviation indexes t := (indexes_ (catalog t).2).

(** The growth of a pass over the indexes. *)
Definition pass (order : list string) : Z := kMaxGrowth * Z.of_nat (length order).

Lemma indexes_for_length order table (c : CatalogManager) : (length (GetIndexesForTable order table c) ≤ length order)%nat.
Proof.
  unfold GetIndexesForTable. etrans; [apply length_filter|]. rewrite length_fmap. unfold in_order.
  induction order as [|n order IH]; [done|]. cbn. destruct (_ !! n); cbn; lia.
Qed.

(** A pass that applies [g] to the entry of [row], where the rows become
    [rows']. *)
Lemma maintain_table (fuel : nat) (f : Z → Z → RecordId → M Pool Status) g ok order name schema rows rows' row rid t s trees a :
  (∀ s meta es ps key rid, index_at s meta es ps → ok es (key, rid) → ps_idle s → 2 < ps_avail s →
     ps_count s + kMaxGrowth < 2 ^ 31 → ps_count s ≤ Z.of_nat fuel →
     ∃ st s' ps', f meta key rid s = Some (st, s') ∧ index_at s' meta (g key rid es) ps' ∧
       grown s s' (meta :: ps) (meta :: ps') kMaxGrowth) →
  length row = length schema → trees_wf s (indexes t) trees → in_step a (indexes t) trees →
  complete_order order (indexes t) → a !! name = Some (schema, rows) →
  (∀ nm meta es col, indexes t !! nm = Some meta → index_table_name meta = name →
     IndexOf schema (index_column_name meta) = Some col → es ≡ₚ entries_of col rows →
     (∀ e, row_entry col (rid, row) = Some e → ok es e) ∧
     apply_entry g (row_entry col (rid, row)) es ≡ₚ entries_of col rows') →
  ps_count s + pass order < 2 ^ 31 → ps_count s + pass order ≤ Z.of_nat fuel →
  ∃ s' trees',
    (let! indexes := indexes_for order name in maintain_all f schema row rid indexes) (mkDatabase t s) =
      Some (tt, mkDatabase t s') ∧
    trees_wf s' (indexes t) trees' ∧ in_step (<[name := (schema, rows')]> a) (indexes t) trees' ∧
    ps_count s ≤ ps_count s' ≤ ps_count s + pass order.
Proof.
  intros Hf Hl Hwf Hst Hord Ha Hcol Hc Hfu. unfold bind, indexes_for, gets. cbn [table_manager_].
  set (metas := GetIndexesForTable order name (catalog t).2).
  destruct (indexes_for_spec order name (catalog t).2 Hord (tr_name _ _ _ Hwf)) as [Hnd Hin]. fold metas in Hnd, Hin.
  assert (kMaxGrowth * Z.of_nat (length metas) ≤ pass order) as Hlen.
  { unfold pass, metas. pose proof (indexes_for_length order name (catalog t).2). unfold kMaxGrowth. lia. }
  assert (∀ meta es ps, meta ∈ metas → trees !! index_name meta = Some (es, ps) →
    ∃ col c, IndexOf schema (index_column_name meta) = Some col ∧ schema !! col = Some c ∧
      is_indexable (col_type c) = true ∧ es ≡ₚ entries_of col rows) as Hmine.
  { intros meta es ps [Hm <-]%Hin Ht. by apply (Hst _ _ _ _ _ _ Hm Ht). }
  destruct (maintain_all_spec fuel f g ok Hf schema row rid metas t s (indexes t) trees) as
    (s' & trees' & E & Hwf' & Hc' & Hto & Hkeep); try done; try lia.
  { intros meta [Hm _]%Hin. done. }
  { intros meta es ps e Hmi Ht. destruct (Hmine meta es ps Hmi Ht) as (col & c & Hci & _ & _ & He).
    apply Hin in Hmi as [Hm Htn]. unfold index_entry_of. rewrite Hci.
    destruct (Hcol _ meta es col Hm Htn Hci He) as [Hok _]. apply Hok. }
  exists s', trees'. split; [done|]. split; [done|]. split; [|lia].
  intros nm meta es' ps' schema' rows2 Hm Ht' Ha'. pose proof (tr_name _ _ _ Hwf _ _ Hm) as <-.
  destruct (tr_tree _ _ _ Hwf _ _ Hm) as (es & ps & Ht & _).
  destruct (decide (index_table_name meta = name)) as [Htn|Htn].
  - rewrite Htn, lookup_insert_eq in Ha'. injection Ha' as <- <-.
    assert (meta ∈ metas) as Hmi by (by apply Hin).
    destruct (Hto meta es ps Hmi Ht) as (ps2 & Ht2). rewrite Ht' in Ht2. injection Ht2 as -> ->.
    destruct (Hmine meta es ps Hmi Ht) as (col & c & Hci & Hsc & Hty & He). exists col, c.
    unfold index_entry_of. rewrite Hci. split; [done|]. split; [done|]. split; [done|].
    destruct (Hcol _ meta es col Hm Htn Hci He) as [_ Hp]. exact Hp.
  - rewrite lookup_insert_ne in Ha' by (by apply not_eq_sym).
    rewrite Hkeep in Ht'; [by apply (Hst _ _ _ _ _ _ Hm Ht' Ha')|].
    intros (meta2 & Hn2 & Hm2%Hin)%list_elem_of_fmap. rewrite <- Hn2 in Hm2. destruct Hm2 as [Hm2 Htn2]. simplify_eq.
Qed.

Lemma row_key_valid col row k : Forall value_wf row → row_key col row = Some k → in_i64 k.
Proof.
  intros Hv Hk. unfold row_key in Hk. apply option.bind_Some in Hk as (v & Hr & Hk).
  pose proof (Forall_lookup_1 _ _ _ _ Hv Hr) as Hw. destruct v; simplify_eq/=; [|done].
  unfold in_i32, in_i64 in *. lia.
Qed.

Lemma MaintainIndexesOnInsert_spec fuel order name schema rows row rid t s trees a :
  length row = length schema → trees_wf s (indexes t) trees → in_step a (indexes t) trees →
  complete_order order (indexes t) → a !! name = Some (schema, rows) → rows !! rid = None →
  dups_room 1 (indexes t) name schema rows → Forall value_wf row →
  in_i32 (rid_page_id rid) → in_u16 (rid_slot_id rid) →
  ps_count s + pass order < 2 ^ 31 → ps_count s + pass order ≤ Z.of_nat fuel →
  ∃ s' trees', MaintainIndexesOnInsert fuel order name schema row rid (mkDatabase t s) = Some (tt, mkDatabase t s') ∧
    trees_wf s' (indexes t) trees' ∧ in_step (<[name := (schema, <[rid := row]> rows)]> a) (indexes t) trees' ∧
    ps_count s ≤ ps_count s' ≤ ps_count s + pass order.
Proof.
  intros Hl Hwf Hst Hord Ha Hnew Hd Hv Hr1 Hr2 Hc Hfu.
  eapply (maintain_table fuel (Insert fuel) entries_insert (λ es e, dups_below kLeafMaxKeys es ∧ entry_valid e)
    order name schema rows); try done.
  - intros s0 meta es ps key rid0 Hix [Hdu Hev] Hi Hav Hcn Hf0.
    destruct (Insert_spec fuel s0 meta key rid0 es ps) as (s' & ps' & ? & ? & ?); try done. by exists Status_OK, s', ps'.
  - intros nm meta es col Hm Htn Hci He. split.
    + intros e Hen. split; [by eapply dups_room_below|]. unfold row_entry in Hen. cbn [fst snd] in Hen.
      apply fmap_Some in Hen as (k & Hk & ->). split; [by eapply row_key_valid|done].
    + rewrite entries_of_insert, <- He by done. destruct (row_entry col (rid, row)) as [[k rid']|]; [|done].
      cbn. apply entries_insert_perm.
Qed.

Lemma MaintainIndexesOnDelete_spec fuel order name schema rows row rid t s trees a :
  length row = length schema → trees_wf s (indexes t) trees → in_step a (indexes t) trees →
  complete_order order (indexes t) → a !! name = Some (schema, rows) → rows !! rid = Some row →
  ps_count s + pass order < 2 ^ 31 → ps_count s + pass order ≤ Z.of_nat fuel →
  ∃ s' trees', MaintainIndexesOnDelete fuel order name schema row rid (mkDatabase t s) = Some (tt, mkDatabase t s') ∧
    trees_wf s' (indexes t) trees' ∧ in_step (<[name := (schema, delete rid rows)]> a) (indexes t) trees' ∧
    ps_count s ≤ ps_count s' ≤ ps_count s + pass order.
Proof.
  intros Hl Hwf Hst Hord Ha Hrow Hc Hfu.
  eapply (maintain_table fuel (Delete fuel) entries_delete (λ _ _, True) order name schema rows); try done.
  - intros s0 meta es ps key rid0 Hix _ Hi Hav Hcn Hf0.
    destruct (Delete_spec fuel s0 meta es ps key rid0 Hix Hi Hf0) as (s' & E & Hix' & Hg).
    eexists _, s', ps. split; [exact E|]. split; [done|]. by eapply grown_weaken; [|done].
  - intros nm meta es col Hm Htn Hci He. split; [done|].
    rewrite (entries_of_delete col rows rid row Hrow) in He.
    destruct (row_entry col (rid, row)) as [[k rid']|] eqn:Hen; [|done]. cbn in He |- *.
    apply (Permutation_cons_inv (a := (k, rid'))). rewrite <- He. symmetry. apply entries_delete_perm.
    rewrite He. left.
Qed.
End trees.
