(* ===== verification/ExecutorSpec.v ===== *)
(** * What the statements that change rows do

    The state of a database is well formed ([db_wf]) when its tables represent
    a map from names to tables and its indexes are in step with them.  INSERT,
    UPDATE and DELETE keep that and have the effects below on the map; the
    indexes do not show in them. *)

From stdpp Require Import gmap pretty.
From Stdlib Require Import SpecFloat.
From S2P Require Import Prelude Util Value RecordCodec PageManager PageStore HeapFile Catalog CatalogSpec TableManager.
From S2P Require Import TableSpec TableTheorems BPlusNode BPlusTree BPlusTreeSpec BPlusTreeOps BPlusTreeSearch BPlusTreeTheorems.
From S2P Require Import Database Ast ExprEval Doubles Operators OperatorSpec Scans Executor IndexSpec.

(** ** Rows from literals *)

Lemma CoerceLiteral_ok literal col v :
  value_wf literal → CoerceLiteralToColumnType literal col = Ok v →
  value_wf v ∧ ValueMatchesType v (col_type col) = true.
Proof.
  intros Hw. unfold CoerceLiteralToColumnType. destruct (IsNull literal) eqn:Hn.
  - destruct literal; try done. destruct (negb (col_nullable col)); [done|]. by intros [= <-].
  - destruct (col_type col), literal; try done.
    + destruct ((v0 <? - 2 ^ 31) || (v0 >? 2 ^ 31 - 1)) eqn:E; [done|]. intros [= <-]. split; [|done].
      cbn. unfold in_i32. lia.
    + by intros [= <-].
    + intros [= <-]. split; [|done]. by apply integral_bits, double_of_Z_integral.
    + by intros [= <-].
    + by intros [= <-].
    + by intros [= <-].
Qed.

Lemma target_columns_bound schema columns indices targets :
  target_columns schema columns indices = Ok targets → Forall (λ i, i < length schema)%nat indices →
  Forall (λ i, i < length schema)%nat targets.
Proof.
  revert indices. induction columns as [|c columns IH]; intros indices; simpl; [by intros [= <-]|].
  pose proof (IndexOf_spec schema c) as Hs. destruct (IndexOf schema c) as [idx|]; [|done].
  destruct Hs as (col & Hc & _). intros E Hi. apply (IH _ E). apply Forall_app. split; [done|].
  constructor; [by eapply lookup_lt_Some|done].
Qed.

Lemma target_indices_bound schema columns targets :
  target_indices schema columns = Ok targets → Forall (λ i, i < length schema)%nat targets.
Proof.
  unfold target_indices. destruct columns as [|c columns].
  - intros [= <-]. apply Forall_forall. intros i Hi%elem_of_seq. lia.
  - intros E. by eapply target_columns_bound.
Qed.

Lemma fill_row_spec schema targets row full :
  Forall (λ i, i < length schema)%nat targets → Forall value_wf row → Forall value_wf full → length full = length schema →
  ∃ r, fill_row schema targets row full = Some r ∧
    ∀ full', r = Ok full' → Forall value_wf full' ∧ length full' = length schema.
Proof.
  revert targets full. induction row as [|v row IH]; intros [|i targets] full Ht Hv Hf Hl; cbn [fill_row];
    try (eexists; split; [reflexivity|]; by intros full' [= <-]).
  apply Forall_cons in Ht as [Hi Ht]. apply Forall_cons in Hv as [Hv Hvs].
  apply lookup_lt_is_Some in Hi as [col Hcol]. rewrite Hcol. cbn [mbind option_bind].
  destruct (CoerceLiteralToColumnType v col) as [cv|e] eqn:E; [|by eexists].
  apply CoerceLiteral_ok in E as [Hcv _]; [|done]. apply IH; try done; [by apply Forall_insert|by rewrite length_insert].
Qed.

Section executor.
Context {Pool : Type} `{PageStoreSpec Pool}.
Implicit Types (t : TableManager Pool) (s : Pool) (db : Database Pool) (a : Db) (order : list string).

Abbreviation db_indexes db := (indexes_ (catalog (table_manager_ db)).2).

(** The pages where [Database] looks for the catalog. *)
Definition placed (c : CatalogManager) : Prop :=
  CatalogFirstPageId c = kFirstDataPageId ∧ IndexCatalogFirstPageId c = kFirstDataPageId + 1.

Record db_wf db a : Prop := {
  dbw_tables : db_at (table_manager_ db) a;
  dbw_trees : ∃ trees, trees_wf (index_buffer_pool_ db) (db_indexes db) trees ∧ in_step a (db_indexes db) trees;
  dbw_first : placed (catalog (table_manager_ db)).2
}.

Lemma db_wf_intro t s a trees :
  db_at t a → trees_wf s (indexes_ (catalog t).2) trees → in_step a (indexes_ (catalog t).2) trees → placed (catalog t).2 →
  db_wf (mkDatabase t s) a.
Proof. intros. split; eauto. Qed.

(** Room for [n] more pages in each file and as many ids, and fuel for the
    pages there are then. *)
Record db_room (fuel : nat) (n : Z) db : Prop := {
  rm_data : ps_count (data_pool (table_manager_ db)) + n < 2 ^ 31 - 1;
  rm_catalog : ps_count (catalog (table_manager_ db)).1 + n < 2 ^ 31 - 1;
  rm_index : ps_count (index_buffer_pool_ db) + n < 2 ^ 31 - 1;
  rm_tables : next_table_id_ (catalog (table_manager_ db)).2 + n < 2 ^ 32 - 1;
  rm_indexes : next_index_id_ (catalog (table_manager_ db)).2 + n < 2 ^ 32 - 1;
  rm_fuel_data : ps_count (data_pool (table_manager_ db)) + n ≤ Z.of_nat fuel;
  rm_fuel_catalog : ps_count (catalog (table_manager_ db)).1 + n ≤ Z.of_nat fuel;
  rm_fuel_index : ps_count (index_buffer_pool_ db) + n ≤ Z.of_nat fuel
}.

(** Statements on rows leave the catalog. *)
Definition db_rows (n : Z) db db' : Prop :=
  catalog (table_manager_ db') = catalog (table_manager_ db) ∧
  ps_count (data_pool (table_manager_ db')) ≤ ps_count (data_pool (table_manager_ db)) + n ∧
  ps_count (index_buffer_pool_ db') ≤ ps_count (index_buffer_pool_ db) + n.

Lemma db_rows_refl n db : 0 ≤ n → db_rows n db db.
Proof. intros. split; [done|lia]. Qed.

Lemma db_rows_trans n m db1 db2 db3 : db_rows n db1 db2 → db_rows m db2 db3 → db_rows (n + m) db1 db3.
Proof. intros (? & ? & ?) (? & ? & ?). split; [congruence|lia]. Qed.

Lemma db_rows_weaken n m db db' : n ≤ m → db_rows n db db' → db_rows m db db'.
Proof. intros ? (? & ? & ?). split; [done|lia]. Qed.

Lemma db_room_rows fuel n m db db' : db_room fuel (n + m) db → 0 ≤ n → db_rows n db db' → db_room fuel m db'.
Proof. intros [] Hn (Hc & ? & ?). split; rewrite ?Hc; lia. Qed.

Lemma db_room_weaken fuel n m db : m ≤ n → db_room fuel n db → db_room fuel m db.
Proof. intros ? []. split; lia. Qed.

Lemma db_room_tm fuel n db : db_room fuel n db → 0 ≤ n → tm_room fuel (table_manager_ db).
Proof. intros [] ?. split; lia. Qed.

(** ** INSERT *)

Definition insert_row_effect (schema : Schema) (targets : list nat) (row : list Value) (rows : Rows) (r : Result unit)
    (rows' : Rows) : Prop :=
  if decide (length row = length targets) then
    match fill_row schema targets row (replicate (length schema) VNull) with
    | None => False
    | Some (Err e) => r = Err e ∧ rows' = rows
    | Some (Ok full_row) =>
        ∃ r1, insert_effect schema full_row rows r1 rows' ∧ r = match r1 with Ok _ => Ok tt | Err e => Err e end
    end
  else r = Err (InvalidArgument "INSERT value count does not match column count") ∧ rows' = rows.

(** The cost of a row: a page for it and a pass over the indexes. *)
Definition row_cost order : Z := 1 + pass order.

Lemma pass_nonneg order : 0 ≤ pass order.
Proof. unfold pass, kMaxGrowth. lia. Qed.

Lemma insert_row_spec fuel order db a name schema rows targets row :
  db_wf db a → a !! name = Some (schema, rows) → complete_order order (db_indexes db) →
  db_room fuel (row_cost order) db → dups_room 1 (db_indexes db) name schema rows →
  Forall (λ i, i < length schema)%nat targets → Forall value_wf row →
  ∃ r db' rows', insert_row fuel order name schema targets row db = Some (r, db') ∧
    insert_row_effect schema targets row rows r rows' ∧ db_wf db' (<[name := (schema, rows')]> a) ∧
    db_rows (row_cost order) db db'.
Proof.
  intros Hwf Ha Hord Hroom Hd Ht Hv. pose proof Hwf as [Hdb (trees & Htr & Hst) Hpl]. pose proof (pass_nonneg order) as Hp.
  assert (∀ e : Status, ∃ (r : Result unit) db' rows', Some (Err e : Result unit, db) = Some (r, db') ∧
    (r = Err e ∧ rows' = rows) ∧ db_wf db' (<[name := (schema, rows')]> a) ∧ db_rows (row_cost order) db db') as Hsame.
  { intros e. exists (Err e), db, rows. rewrite insert_id by done. split; [done|]. split; [done|]. split; [done|].
    apply db_rows_refl. unfold row_cost. lia. }
  unfold insert_row, insert_row_effect. case_decide as Hl.
  2: { rewrite bool_decide_false by done. apply Hsame. }
  rewrite bool_decide_true by done. cbn [negb].
  destruct (fill_row_spec schema targets row (replicate (length schema) VNull) Ht Hv) as (r & -> & Hfull);
    [by apply Forall_replicate|by rewrite length_replicate|].
  destruct r as [full_row|e]; [|apply Hsame]. destruct (Hfull _ eq_refl) as [Hfv Hfl].
  destruct (InsertRow_db fuel (table_manager_ db) a name full_row Hdb) as (r1 & t1 & a1 & E1 & Hs1 & Hdb1 & Hg1);
    [apply (db_room_tm fuel (row_cost order)); [done|unfold row_cost; lia]|done|].
  cbn in Hs1. rewrite Ha in Hs1. destruct Hs1 as (r1' & rows1 & [= <-] & Heff & ->).
  destruct db as [t s]. cbn [table_manager_ index_buffer_pool_] in *. destruct Hg1 as [Hcat Hcnt].
  unfold rbind, bind, on_tables. cbn [table_manager_ index_buffer_pool_]. rewrite E1.
  destruct r1 as [rid|e].
  - pose proof Heff as Heff0. unfold insert_effect in Heff. destruct (Encode schema full_row) as [bs|]; [|by destruct Heff].
    repeat (case_decide; [by destruct Heff|]). destruct Heff as (rid' & [= <-] & Hnew & ->).
    destruct (db_row t1 _ name schema (<[rid := full_row]> rows) rid full_row Hdb1) as (_ & _ & Hr1 & Hr2);
      [apply lookup_insert_eq|apply lookup_insert_eq|].
    destruct Hroom as [_ _ Hri _ _ _ _ Hrf]. cbn [index_buffer_pool_] in Hri, Hrf. unfold row_cost in Hri, Hrf.
    destruct (MaintainIndexesOnInsert_spec fuel order name schema rows full_row rid t1 s trees a) as
      (s' & trees' & E2 & Htr' & Hst' & Hc'); rewrite ?Hcat; try done; try lia.
    unfold rret, ret. rewrite E2. eexists (Ok tt), _, _. split; [reflexivity|]. split; [by eexists (Ok rid)|]. split.
    + rewrite Hcat in *. eapply db_wf_intro; rewrite ?Hcat; done.
    + unfold row_cost. split; [done|]. cbn [table_manager_ index_buffer_pool_]. lia.
  - unfold insert_effect in Heff. assert (rows1 = rows) as ->.
    { destruct (Encode schema full_row); [|by destruct Heff]. repeat (case_decide; [by destruct Heff|]).
      by destruct Heff as (? & ? & _). }
    eexists (Err e), _, rows. split; [reflexivity|]. split; [by exists (Err e)|]. rewrite insert_id in * by done. split.
    + eapply db_wf_intro; rewrite ?Hcat; done.
    + unfold row_cost. split; [done|]. cbn [table_manager_ index_buffer_pool_]. lia.
Qed.

Fixpoint inserts (schema : Schema) (targets : list nat) (input : list (list Value)) (rows : Rows) (n : nat)
    (r : Result nat) (rows' : Rows) : Prop :=
  match input with
  | [] => r = Ok n ∧ rows' = rows
  | row :: input' =>
      ∃ r1 rows1, insert_row_effect schema targets row rows r1 rows1 ∧
        match r1 with
        | Ok _ => inserts schema targets input' rows1 (S n) r rows'
        | Err e => r = Err e ∧ rows' = rows1
        end
  end.

Lemma insert_row_effect_dups k ixs name schema targets row rows r rows' :
  insert_row_effect schema targets row rows r rows' → dups_room k ixs name schema rows →
  dups_room (k - 1) ixs name schema rows'.
Proof.
  intros He Hd. assert (dups_room (k - 1) ixs name schema rows) as Hd1.
  { intros nm meta col key Hm Ht Hc. specialize (Hd nm meta col key Hm Ht Hc). lia. }
  unfold insert_row_effect in He. case_decide; [|by destruct He as [_ ->]].
  destruct (fill_row _ _ _ _) as [[full|e]|]; [|by destruct He as [_ ->]|done].
  destruct He as (r1 & He & _). unfold insert_effect in He. destruct (Encode schema full); [|by destruct He as [_ ->]].
  repeat (case_decide; [by destruct He as [_ ->]|]). destruct He as (rid & _ & Hn & ->). by apply dups_room_insert.
Qed.

Lemma insert_rows_spec fuel order name schema targets input : ∀ db a rows n,
  db_wf db a → a !! name = Some (schema, rows) → complete_order order (db_indexes db) →
  db_room fuel (row_cost order * Z.of_nat (length input)) db →
  dups_room (Z.of_nat (length input)) (db_indexes db) name schema rows →
  Forall (λ i, i < length schema)%nat targets → Forall (Forall value_wf) input →
  ∃ r db' rows', insert_rows fuel order name schema targets input n db = Some (r, db') ∧
    inserts schema targets input rows n r rows' ∧ db_wf db' (<[name := (schema, rows')]> a) ∧
    db_rows (row_cost order * Z.of_nat (length input)) db db'.
Proof.
  pose proof (pass_nonneg order) as Hp.
  induction input as [|row input IH]; intros db a rows n Hwf Ha Hord Hroom Hd Ht Hv.
  { exists (Ok n), db, rows. rewrite insert_id by done. split; [done|]. split; [done|]. split; [done|]. apply db_rows_refl. simpl. lia. }
  apply Forall_cons in Hv as [Hrow Hv]. cbn [length] in Hroom, Hd. rewrite Nat2Z.inj_succ in Hroom, Hd.
  rewrite Z.mul_succ_r, Z.add_comm in Hroom.
  assert (0 ≤ row_cost order) as Hrc by (unfold row_cost; lia).
  destruct (insert_row_spec fuel order db a name schema rows targets row) as (r1 & db1 & rows1 & E1 & He1 & Hwf1 & Hg1);
    try done.
  { eapply db_room_weaken; [|exact Hroom]. lia. }
  { intros nm meta col key Hm Htn Hc. specialize (Hd nm meta col key Hm Htn Hc). lia. }
  cbn [insert_rows]. unfold rbind at 1, bind at 1. rewrite E1. cbn [inserts length]. rewrite Nat2Z.inj_succ, Z.mul_succ_r.
  destruct r1 as [[]|e].
  - destruct (IH db1 (<[name := (schema, rows1)]> a) rows1 (S n)) as (r & db' & rows' & E & Hi & Hwf' & Hg); try done.
    + apply lookup_insert_eq.
    + destruct Hg1 as [-> _]. done.
    + by apply (db_room_rows fuel (row_cost order) _ db).
    + destruct Hg1 as [-> _]. eapply insert_row_effect_dups in Hd; [|done].
      intros nm meta col key Hm Htn Hc. specialize (Hd nm meta col key Hm Htn Hc). lia.
    + exists r, db', rows'. rewrite insert_insert_eq in Hwf'. split; [done|]. split; [eauto|]. split; [done|].
      rewrite Z.add_comm. by eapply db_rows_trans.
  - exists (Err e), db1, rows1. split; [done|]. split; [by eexists _, _|]. split; [done|].
    eapply db_rows_weaken; [|exact Hg1]. lia.
Qed.

Definition no_such_table (name : string) : Status := NotFound ("no such table '" +:+ name +:+ "'").

Definition insert_stmt (name : string) (columns : list string) (input : list (list Value)) (a : Db)
    (r : Result QueryResult) (a' : Db) : Prop :=
  match a !! name with
  | None => r = Err (no_such_table name) ∧ a' = a
  | Some (schema, rows) =>
      match target_indices schema columns with
      | Err e => r = Err e ∧ a' = a
      | Ok targets =>
          ∃ r1 rows', inserts schema targets input rows 0 r1 rows' ∧ a' = <[name := (schema, rows')]> a ∧
            r = match r1 with Ok n => Ok (count_result n "INSERT 0 ") | Err e => Err e end
      end
  end.

(** [require_schema], on both branches. *)
Lemma require_schema_spec {A} db a name (k : Schema → M (Database Pool) (Result A)) :
  db_at (table_manager_ db) a →
  (let? schema := require_schema name in k schema) db =
    match a !! name with None => Some (Err (no_such_table name), db) | Some (schema, _) => k schema db end.
Proof.
  intros Hdb. unfold rbind, bind, require_schema, bind, on_tables. rewrite (GetSchema_db _ a) by done.
  destruct db as [t s]. cbn [table_manager_ index_buffer_pool_]. by destruct (a !! name) as [[schema rows]|].
Qed.

Lemma ExecuteInsert_spec fuel order name columns input db a :
  db_wf db a → complete_order order (db_indexes db) →
  db_room fuel (row_cost order * Z.of_nat (length input)) db → Forall (Forall value_wf) input →
  (∀ schema rows, a !! name = Some (schema, rows) → dups_room (Z.of_nat (length input)) (db_indexes db) name schema rows) →
  ∃ r db' a', ExecuteInsert fuel order name columns input db = Some (r, db') ∧ insert_stmt name columns input a r a' ∧
    db_wf db' a' ∧ db_rows (row_cost order * Z.of_nat (length input)) db db'.
Proof.
  intros Hwf Hord Hroom Hv Hd. pose proof (pass_nonneg order) as Hp.
  assert (0 ≤ row_cost order * Z.of_nat (length input)) as Hrc by (unfold row_cost; lia).
  unfold ExecuteInsert. rewrite (require_schema_spec db a) by apply Hwf. unfold insert_stmt.
  destruct (a !! name) as [[schema rows]|] eqn:Ha.
  2: { eexists _, db, a. split; [done|]. split; [done|]. split; [done|]. by apply db_rows_refl. }
  destruct (target_indices schema columns) as [targets|e] eqn:Et.
  2: { eexists _, db, a. split; [done|]. split; [done|]. split; [done|]. by apply db_rows_refl. }
  destruct (insert_rows_spec fuel order name schema targets input db a rows 0) as (r & db' & rows' & E & Hi & Hwf' & Hg);
    try done; [by eapply Hd|by eapply target_indices_bound|].
  unfold rbind, bind. rewrite E. destruct r as [n|e]; eexists _, db', _; (split; [reflexivity|]); (split; [|done]); eauto.
Qed.

(** ** The rows a WHERE clause selects *)

(** The condition holds; a condition that fails to evaluate does not. *)
Definition selected (where_ : option Expr) (schema : Schema) (row : Row) : bool :=
  match EvaluatePredicate where_ schema row with Some (Ok true) => true | _ => false end.

Definition tuple_of (r : RecordId * Row) : Tuple := mkTuple r.1 r.2.

Definition selected_rows (where_ : option Expr) (schema : Schema) (l : list (RecordId * Row)) : list (RecordId * Row) :=
  filter (λ r, selected where_ schema r.2 = true) l.

Lemma collect_match_fold where_ schema l ms :
  Forall (λ r, length r.2 = length schema) l →
  fold_left (λ acc '(rid, values), collect_match where_ schema rid values acc) l (Some ms) =
    Some (ms ++ (tuple_of <$> selected_rows where_ schema l)).
Proof.
  intros Hl. induction Hl as [|[rid values] l Hr Hl IH] in ms |- *; [by rewrite app_nil_r|].
  cbn [fold_left collect_match mbind option_bind]. unfold selected_rows. rewrite filter_cons. unfold selected. cbn [snd] in *.
  destruct (predicate_defined where_ schema (mkTuple rid values) Hr) as [r E]. unfold predicate_on in E. cbn in E.
  rewrite E. destruct r as [[]|]; cbn [mbind option_bind].
  - rewrite decide_True by done. rewrite IH, <- app_assoc. done.
  - rewrite decide_False by done. apply IH.
  - rewrite decide_False by done. apply IH.
Qed.

Lemma db_rows_wide t a name schema rows (l : list (RecordId * Row)) :
  db_at t a → a !! name = Some (schema, rows) → l ≡ₚ map_to_list rows →
  Forall (λ r, row_fits schema r.2) l.
Proof.
  intros Hdb Ha Hl. apply Forall_forall. intros [rid row] Hin. rewrite Hl in Hin. apply elem_of_map_to_list in Hin.
  by apply (db_row t a name schema rows rid row).
Qed.

Lemma row_fits_length schema row : row_fits schema row → length row = length schema.
Proof. intros Hf. symmetry. by eapply Forall2_length. Qed.

Lemma find_matches_spec fuel name where_ schema rows db a :
  db_wf db a → a !! name = Some (schema, rows) → db_room fuel 0 db →
  ∃ l db', find_matches fuel name where_ schema db = Some (Ok (tuple_of <$> selected_rows where_ schema l), db') ∧
    l ≡ₚ map_to_list rows ∧ db_wf db' a ∧ db_rows 0 db db'.
Proof.
  intros Hwf Ha Hroom. pose proof Hwf as [Hdb (trees & Htr & Hst) Hpl].
  destruct (Scan_db fuel (table_manager_ db) a name (collect_match where_ schema) (Some []) Hdb) as
    (st & l & t' & E & Hs & Hdb' & Hc & Hn); [by apply (db_room_tm fuel 0)|].
  cbn in Hs. rewrite Ha in Hs. destruct Hs as (_ & l' & [= -> ->] & Hl).
  exists l', (mkDatabase t' (index_buffer_pool_ db)). split; [|split; [done|]].
  - unfold find_matches, bind, on_tables. rewrite E. cbn [fst snd]. rewrite collect_match_fold; [done|].
    eapply Forall_impl; [by eapply (db_rows_wide (table_manager_ db))|]. cbn. intros r. apply row_fits_length.
  - split; [|split; [done|cbn; lia]]. eapply db_wf_intro; rewrite ?Hc; done.
Qed.

(** ** UPDATE *)

Definition assignments_ok (schema : Schema) (assignments : list (nat * Value)) : Prop :=
  Forall (λ '(i, v), (i < length schema)%nat ∧ value_wf v) assignments.

Lemma coerce_assignments_spec schema assignments out :
  Forall (λ '(_, v), value_wf v) assignments → assignments_ok schema out →
  ∃ r, coerce_assignments schema assignments out = Some r ∧ ∀ out', r = Ok out' → assignments_ok schema out'.
Proof.
  intros Hv. induction Hv as [|[c v] assignments Hw Hv IH] in out |- *; intros Ho; cbn [coerce_assignments].
  { eexists. split; [done|]. by intros out' [= <-]. }
  pose proof (IndexOf_spec schema c) as Hs. destruct (IndexOf schema c) as [idx|]; [|by eexists].
  destruct Hs as (col & Hc & _). rewrite Hc. cbn [mbind option_bind].
  destruct (CoerceLiteralToColumnType v col) as [cv|e] eqn:E; [|by eexists].
  apply CoerceLiteral_ok in E as [Hcv _]; [|done]. apply IH. apply Forall_app. split; [done|].
  constructor; [|done]. split; [by eapply lookup_lt_Some|done].
Qed.

Lemma assign_spec schema assignments values :
  assignments_ok schema assignments → length values = length schema → Forall value_wf values →
  ∃ values', assign assignments values = Some values' ∧ length values' = length schema ∧ Forall value_wf values'.
Proof.
  intros Ha. induction Ha as [|[i v] assignments [Hi Hw] Ha IH] in values |- *; intros Hl Hv; cbn [assign]; [eauto|].
  rewrite bool_decide_true by lia. apply IH; [by rewrite length_insert|by apply Forall_insert].
Qed.

(** Fits a page, if it fits the schema. *)
Definition storable (schema : Schema) (values : Row) : Prop :=
  ∀ bs, Encode schema values = Ok bs → blen bs ≤ max_record.

Lemma update_row_spec fuel order db a name schema rows assignments m :
  db_wf db a → a !! name = Some (schema, rows) → complete_order order (db_indexes db) →
  db_room fuel (row_cost order + pass order) db → dups_room 1 (db_indexes db) name schema rows →
  assignments_ok schema assignments → rows !! tup_rid m = Some (tup_values m) →
  (∀ values, assign assignments (tup_values m) = Some values → storable schema values) →
  ∃ values r1 r db' rows', assign assignments (tup_values m) = Some values ∧
    update_row fuel order name schema assignments m db = Some (r, db') ∧
    update_effect schema (tup_rid m) values rows r1 rows' ∧
    r = match r1 with Ok _ => Ok tt | Err e => Err e end ∧
    db_wf db' (<[name := (schema, rows')]> a) ∧ db_rows (row_cost order + pass order) db db'.
Proof.
  intros Hwf Ha Hord Hroom Hd Hasg Hrow Hsto. pose proof Hwf as [Hdb (trees & Htr & Hst) Hpl]. pose proof (pass_nonneg order) as Hp.
  destruct (db_row _ _ _ _ _ _ _ Hdb Ha Hrow) as (Hfits & Hvold & _).
  destruct (assign_spec schema assignments (tup_values m) Hasg) as (values & Eas & Hlen & Hval);
    [by apply row_fits_length|done|].
  specialize (Hsto _ Eas).
  destruct (UpdateRow_db fuel (table_manager_ db) a name (tup_rid m) values Hdb) as (r1 & t1 & a1 & E1 & Hs1 & Hdb1 & Hg1).
  { apply (db_room_tm fuel (row_cost order + pass order)); [done|unfold row_cost; lia]. }
  { split; [done|]. left. intros schema' rows0 Ha'. rewrite Ha in Ha'. injection Ha' as <- <-. eauto. }
  cbn in Hs1. rewrite Ha, Hrow in Hs1. destruct Hs1 as (r1' & rows1 & [= <-] & Heff & ->).
  destruct db as [t s]. cbn [table_manager_ index_buffer_pool_] in *. destruct Hg1 as [Hcat Hcnt].
  exists values, r1. unfold update_row. rewrite Eas. unfold rbind, bind, on_tables. cbn [table_manager_ index_buffer_pool_].
  rewrite E1. pose proof Heff as Heff0. unfold update_effect in Heff.
  destruct Hroom as [_ _ Hri _ _ _ _ Hrf]. cbn [index_buffer_pool_] in Hri, Hrf. unfold row_cost in *.
  destruct r1 as [new|e].
  - destruct (Encode schema values) as [bs|]; [|by destruct Heff].
    repeat (case_decide; [by destruct Heff|]). destruct Heff as (new' & [= <-] & Hnew & ->).
    destruct (MaintainIndexesOnDelete_spec fuel order name schema rows (tup_values m) (tup_rid m) t1 s trees a) as
      (s2 & trees2 & E2 & Htr2 & Hst2 & Hc2); rewrite ?Hcat; try done; try lia; [by apply row_fits_length|].
    set (rows2 := delete (tup_rid m) rows) in *.
    destruct (db_row t1 _ name schema (<[new := values]> rows2) new values Hdb1) as (_ & _ & Hr1 & Hr2);
      [apply lookup_insert_eq|apply lookup_insert_eq|].
    destruct (MaintainIndexesOnInsert_spec fuel order name schema rows2 values new t1 s2 trees2 (<[name := (schema, rows2)]> a)) as
      (s3 & trees3 & E3 & Htr3 & Hst3 & Hc3); rewrite ?Hcat; try done; try lia.
    { by rewrite Hcat in Htr2. }
    { by rewrite Hcat in Hst2. }
    { apply lookup_insert_eq. }
    { by apply dups_room_delete. }
    rewrite insert_insert_eq in Hst3. rewrite E2. unfold rret, ret. rewrite E3.
    eexists (Ok tt), _, _. split; [done|]. split; [reflexivity|]. split; [exact Heff0|]. split; [done|]. split.
    + eapply db_wf_intro; [done..|]. by rewrite Hcat.
    + split; [done|]. cbn [table_manager_ index_buffer_pool_]. lia.
  - assert (rows1 = rows) as ->.
    { destruct (Encode schema values) as [bs|] eqn:Een; [|by destruct Heff]. specialize (Hsto _ Een).
      case_decide; [by destruct Heff|]. case_decide; [lia|]. by destruct Heff as (? & ? & _). }
    eexists (Err e), _, rows. split; [done|]. split; [reflexivity|]. split; [done|]. split; [done|].
    rewrite insert_id in * by done. split.
    + eapply db_wf_intro; rewrite ?Hcat; done.
    + split; [done|]. cbn [table_manager_ index_buffer_pool_]. lia.
Qed.

Fixpoint updates (schema : Schema) (assignments : list (nat * Value)) (ms : list (RecordId * Row)) (rows : Rows)
    (n : nat) (r : Result nat) (rows' : Rows) : Prop :=
  match ms with
  | [] => r = Ok n ∧ rows' = rows
  | m :: ms' =>
      ∃ values r1 rows1, assign assignments m.2 = Some values ∧ update_effect schema m.1 values rows r1 rows1 ∧
        match r1 with
        | Ok _ => updates schema assignments ms' rows1 (S n) r rows'
        | Err e => r = Err e ∧ rows' = rows1
        end
  end.

(** An assignment gives the row the key [k], which it did not have. *)
Definition moves_to (assignments : list (nat * Value)) (col : nat) (k : Z) (m : RecordId * Row) : bool :=
  bool_decide (assign assignments m.2 ≫= row_key col = Some k) && negb (bool_decide (row_key col m.2 = Some k)).

(** Room for the rows that get a key of an indexed column. *)
Definition update_dups (ixs : gmap string IndexMetadata) (name : string) (schema : Schema)
    (assignments : list (nat * Value)) (ms : list (RecordId * Row)) (rows : Rows) : Prop :=
  ∀ nm meta col k, ixs !! nm = Some meta → index_table_name meta = name →
    IndexOf schema (index_column_name meta) = Some col →
    key_count col k rows + Z.of_nat (length (filter (λ m, moves_to assignments col k m = true) ms)) < kLeafMaxKeys.

Lemma update_dups_room ixs name schema assignments ms rows :
  update_dups ixs name schema assignments ms rows → dups_room 1 ixs name schema rows.
Proof. intros Hd nm meta col k Hm Ht Hc. specialize (Hd nm meta col k Hm Ht Hc). lia. Qed.

Lemma update_dups_step ixs name schema assignments m ms rows values new :
  update_dups ixs name schema assignments (m :: ms) rows → rows !! m.1 = Some m.2 →
  assign assignments m.2 = Some values → delete m.1 rows !! new = None →
  update_dups ixs name schema assignments ms (<[new := values]> (delete m.1 rows)).
Proof.
  intros Hd Hr Has Hn nm meta col k Hm Ht Hc. specialize (Hd nm meta col k Hm Ht Hc).
  rewrite key_count_insert by done. rewrite (key_count_delete _ _ _ _ m.2) by done.
  assert (moves_to assignments col k m = bool_decide (row_key col values = Some k) && negb (bool_decide (row_key col m.2 = Some k))) as Hmv.
  { unfold moves_to. by rewrite Has. }
  rewrite filter_cons, Hmv in Hd.
  destruct (decide (row_key col values = Some k)) as [Hk|Hk], (decide (row_key col m.2 = Some k)) as [Ho|Ho];
    rewrite ?(bool_decide_true _ Hk), ?(bool_decide_false _ Hk), ?(bool_decide_true _ Ho), ?(bool_decide_false _ Ho) in Hd;
    cbn [andb negb] in Hd; case_decide; cbn [length] in Hd; try done; lia.
Qed.

Abbreviation update_cost order := (row_cost order + pass order).

Lemma each_update_spec fuel order name schema assignments ms : ∀ db a rows n,
  db_wf db a → a !! name = Some (schema, rows) → complete_order order (db_indexes db) →
  db_room fuel (update_cost order * Z.of_nat (length ms)) db →
  update_dups (db_indexes db) name schema assignments ms rows →
  assignments_ok schema assignments → NoDup ms.*1 → Forall (λ m, rows !! m.1 = Some m.2) ms →
  Forall (λ m, ∀ values, assign assignments m.2 = Some values → storable schema values) ms →
  ∃ r db' rows', each_match (update_row fuel order name schema assignments) (tuple_of <$> ms) n db = Some (r, db') ∧
    updates schema assignments ms rows n r rows' ∧ db_wf db' (<[name := (schema, rows')]> a) ∧
    db_rows (update_cost order * Z.of_nat (length ms)) db db'.
Proof.
  pose proof (pass_nonneg order) as Hp. assert (0 ≤ update_cost order) as Hrc by (unfold row_cost; lia).
  induction ms as [|m ms IH]; intros db a rows n Hwf Ha Hord Hroom Hd Hasg Hnd Hms Hsto.
  { exists (Ok n), db, rows. rewrite insert_id by done. split; [done|]. split; [done|]. split; [done|].
    apply db_rows_refl. cbn [length]. lia. }
  apply Forall_cons in Hms as [Hm Hms]. apply Forall_cons in Hsto as [Hs Hsto]. cbn [fmap list_fmap] in Hnd.
  apply NoDup_cons in Hnd as [Hnin Hnd]. cbn [length] in *. rewrite Nat2Z.inj_succ, Z.mul_succ_r in *. rewrite Z.add_comm in Hroom.
  destruct (update_row_spec fuel order db a name schema rows assignments (tuple_of m)) as
    (values & r1 & r & db1 & rows1 & Eas & E1 & He1 & -> & Hwf1 & Hg1); try done.
  { eapply db_room_weaken; [|exact Hroom]. nia. }
  { by eapply update_dups_room. }
  cbn [fmap list_fmap each_match]. change (list_fmap _ _ tuple_of ms) with (tuple_of <$> ms).
  unfold rbind at 1, bind at 1. rewrite E1. cbn [tuple_of tup_values tup_rid] in Eas, He1. destruct r1 as [new|e].
  - assert (delete m.1 rows !! new = None ∧ rows1 = <[new := values]> (delete m.1 rows)) as [Hnew ->].
    { unfold update_effect in He1. destruct (Encode schema values); [|by destruct He1].
      repeat (case_decide; [by destruct He1|]). destruct He1 as (? & [= <-] & ? & ?). done. }
    destruct (IH db1 _ (<[new := values]> (delete m.1 rows)) (S n) Hwf1) as (r & db' & rows' & E & Hi & Hwf' & Hg); try done.
    + apply lookup_insert_eq.
    + destruct Hg1 as [-> _]. done.
    + by apply (db_room_rows fuel (update_cost order) _ db).
    + destruct Hg1 as [-> _]. by eapply update_dups_step.
    + rewrite Forall_forall in Hms |- *. intros m' Hin. specialize (Hms m' Hin).
      assert (m'.1 ≠ m.1) by (intros Heq; apply Hnin; rewrite <- Heq; by apply list_elem_of_fmap_2).
      rewrite lookup_insert_ne; [by rewrite lookup_delete_ne by done|]. intros ->. by rewrite lookup_delete_ne, Hms in Hnew by done.
    + exists r, db', rows'. rewrite insert_insert_eq in Hwf'. split; [done|]. split; [by eexists values, (Ok new), _|].
      split; [done|]. rewrite Z.add_comm. by eapply db_rows_trans.
  - exists (Err e), db1, rows1. split; [done|]. split; [by eexists values, (Err e), _|]. split; [done|].
    eapply db_rows_weaken; [|exact Hg1]. nia.
Qed.

Definition update_stmt (name : string) (assignments : list (string * Value)) (where_ : option Expr) (a : Db)
    (r : Result QueryResult) (a' : Db) : Prop :=
  match a !! name with
  | None => r = Err (no_such_table name) ∧ a' = a
  | Some (schema, rows) =>
      match coerce_assignments schema assignments [] with
      | Some (Ok asg) =>
          ∃ l r1 rows', l ≡ₚ map_to_list rows ∧ updates schema asg (selected_rows where_ schema l) rows 0 r1 rows' ∧
            a' = <[name := (schema, rows')]> a ∧
            r = match r1 with Ok n => Ok (count_result n "UPDATE ") | Err e => Err e end
      | Some (Err e) => r = Err e ∧ a' = a
      | None => False
      end
  end.

(** What UPDATE needs: the new rows fit a page, and the keys they get have
    room. *)
Definition update_fits (ixs : gmap string IndexMetadata) (name : string) (assignments : list (string * Value))
    (where_ : option Expr) (a : Db) : Prop :=
  ∀ schema rows asg, a !! name = Some (schema, rows) → coerce_assignments schema assignments [] = Some (Ok asg) →
    let ms := selected_rows where_ schema (map_to_list rows) in
    update_dups ixs name schema asg ms rows ∧
    Forall (λ m, ∀ values, assign asg m.2 = Some values → storable schema values) ms.

Lemma selected_rows_perm where_ schema l l' :
  l ≡ₚ l' → selected_rows where_ schema l ≡ₚ selected_rows where_ schema l'.
Proof. intros Hl. unfold selected_rows. by rewrite Hl. Qed.

Lemma selected_rows_in where_ schema l (rows : Rows) :
  l ≡ₚ map_to_list rows → NoDup (selected_rows where_ schema l).*1 ∧
  Forall (λ m, rows !! m.1 = Some m.2) (selected_rows where_ schema l) ∧ (length (selected_rows where_ schema l) ≤ size rows)%nat.
Proof.
  intros Hl. split; [|split].
  - eapply sublist_NoDup; [|apply fmap_sublist, sublist_filter]. rewrite Hl. apply NoDup_fst_map_to_list.
  - apply Forall_forall. intros [rid row] [_ Hin]%list_elem_of_filter. rewrite Hl in Hin. by apply elem_of_map_to_list in Hin.
  - etrans; [apply length_filter|]. rewrite Hl, length_map_to_list. done.
Qed.

Lemma ExecuteUpdate_spec fuel order name assignments where_ db a :
  db_wf db a → complete_order order (db_indexes db) → Forall (λ '(_, v), value_wf v) assignments →
  (∀ schema rows, a !! name = Some (schema, rows) → db_room fuel (update_cost order * Z.of_nat (size rows)) db) →
  update_fits (db_indexes db) name assignments where_ a →
  ∃ r db' a', ExecuteUpdate fuel order name assignments where_ db = Some (r, db') ∧
    update_stmt name assignments where_ a r a' ∧ db_wf db' a' ∧
    catalog (table_manager_ db') = catalog (table_manager_ db).
Proof.
  intros Hwf Hord Hv Hroom Hfit. pose proof (pass_nonneg order) as Hp.
  assert (0 ≤ update_cost order) as Hrc by (unfold row_cost; lia).
  unfold ExecuteUpdate. rewrite (require_schema_spec db a) by apply Hwf. unfold update_stmt.
  destruct (a !! name) as [[schema rows]|] eqn:Ha; [|by eexists _, db, a].
  destruct (coerce_assignments_spec schema assignments [] Hv) as (rc & Ec & Hasg); [constructor|]. rewrite Ec.
  destruct rc as [asg|e]; [|by eexists _, db, a].
  specialize (Hroom _ _ eq_refl). destruct (Hfit _ _ _ Ha Ec) as [Hd Hsto].
  destruct (find_matches_spec fuel name where_ schema rows db a Hwf Ha) as (l & db1 & E1 & Hl & Hwf1 & Hg1).
  { eapply db_room_weaken; [|exact Hroom]. nia. }
  destruct (selected_rows_in where_ schema l rows Hl) as (Hnd & Hin & Hlen).
  pose proof (selected_rows_perm where_ schema _ _ Hl) as Hperm.
  destruct (each_update_spec fuel order name schema asg (selected_rows where_ schema l) db1 a rows 0 Hwf1 Ha) as
    (r & db' & rows' & E & Hu & Hwf' & Hg); try done.
  - destruct Hg1 as [-> _]. done.
  - apply (db_room_rows fuel 0 _ db); [|done|done]. eapply db_room_weaken; [|exact Hroom].
    rewrite Z.add_0_l. apply Z.mul_le_mono_nonneg_l; lia.
  - destruct Hg1 as [-> _]. intros nm meta col k Hm Ht Hc. specialize (Hd nm meta col k Hm Ht Hc). by rewrite Hperm.
  - by eapply Hasg.
  - by rewrite Hperm.
  - unfold rbind, bind. rewrite E1, E. destruct Hg as [Hc _], Hg1 as [Hc1 _].
    destruct r as [n|e]; eexists _, db', _; (split; [reflexivity|]); (split; [|split; [done|congruence]]); eauto 10.
Qed.

(** ** DELETE *)

Lemma delete_row_spec fuel order db a name schema rows m :
  db_wf db a → a !! name = Some (schema, rows) → complete_order order (db_indexes db) →
  db_room fuel (pass order) db → rows !! tup_rid m = Some (tup_values m) →
  ∃ db', delete_row fuel order name schema m db = Some (Ok tt, db') ∧
    db_wf db' (<[name := (schema, delete (tup_rid m) rows)]> a) ∧ db_rows (pass order) db db'.
Proof.
  intros Hwf Ha Hord Hroom Hrow. pose proof Hwf as [Hdb (trees & Htr & Hst) Hpl]. pose proof (pass_nonneg order) as Hp.
  destruct (db_row _ _ _ _ _ _ _ Hdb Ha Hrow) as (Hfits & _).
  destruct (DeleteRow_db (table_manager_ db) a name (tup_rid m) Hdb) as (st & t1 & a1 & E1 & Hs1 & Hdb1 & Hcat & Hcnt).
  { left. intros schema' rows0 Ha'. rewrite Ha in Ha'. injection Ha' as <- <-. eauto. }
  cbn in Hs1. rewrite Ha, Hrow in Hs1. destruct Hs1 as ([= ->] & ->). destruct db as [t s]. cbn [table_manager_ index_buffer_pool_] in *.
  destruct Hroom as [_ _ Hri _ _ _ _ Hrf]. cbn [index_buffer_pool_] in Hri, Hrf.
  destruct (MaintainIndexesOnDelete_spec fuel order name schema rows (tup_values m) (tup_rid m) t1 s trees a) as
    (s2 & trees2 & E2 & Htr2 & Hst2 & Hc2); rewrite ?Hcat; try done; try lia; [by apply row_fits_length|].
  unfold delete_row, rbind, require_ok, bind, on_tables. cbn [table_manager_ index_buffer_pool_]. rewrite E1.
  change (status_ok Status_OK) with true. cbn [negb]. unfold rret, ret. rewrite E2. eexists. split; [reflexivity|]. split.
  - eapply db_wf_intro; [done..|]. by rewrite Hcat.
  - split; [done|]. cbn [table_manager_ index_buffer_pool_]. lia.
Qed.

(** The rows without those of [ms]. *)
Definition without (ms : list (RecordId * Row)) (rows : Rows) : Rows := foldr (λ m, delete m.1) rows ms.

Lemma lookup_without ms rows rid : without ms rows !! rid = if decide (rid ∈ ms.*1) then None else rows !! rid.
Proof.
  induction ms as [|m ms IH]; [done|]. cbn [without foldr]. change (foldr _ rows ms) with (without ms rows).
  destruct (decide (rid = m.1)) as [->|Hn].
  - rewrite lookup_delete_eq, decide_True; [done|]. left.
  - rewrite lookup_delete_ne, IH by done. cbn [fmap list_fmap]. apply decide_ext. rewrite elem_of_cons. tauto.
Qed.

Lemma each_delete_spec fuel order name schema ms : ∀ db a rows n,
  db_wf db a → a !! name = Some (schema, rows) → complete_order order (db_indexes db) →
  db_room fuel (pass order * Z.of_nat (length ms)) db → NoDup ms.*1 → Forall (λ m, rows !! m.1 = Some m.2) ms →
  ∃ db', each_match (delete_row fuel order name schema) (tuple_of <$> ms) n db = Some (Ok (n + length ms)%nat, db') ∧
    db_wf db' (<[name := (schema, without ms rows)]> a) ∧ db_rows (pass order * Z.of_nat (length ms)) db db'.
Proof.
  pose proof (pass_nonneg order) as Hp.
  induction ms as [|m ms IH]; intros db a rows n Hwf Ha Hord Hroom Hnd Hms.
  { exists db. rewrite Nat.add_0_r, insert_id by done. split; [done|]. split; [done|]. apply db_rows_refl. cbn [length]. lia. }
  apply Forall_cons in Hms as [Hm Hms]. cbn [fmap list_fmap] in Hnd. apply NoDup_cons in Hnd as [Hnin Hnd].
  cbn [length] in *. rewrite Nat2Z.inj_succ, Z.mul_succ_r in *. rewrite Z.add_comm in Hroom.
  destruct (delete_row_spec fuel order db a name schema rows (tuple_of m)) as (db1 & E1 & Hwf1 & Hg1); try done.
  { eapply db_room_weaken; [|exact Hroom]. nia. }
  cbn [tuple_of tup_rid] in Hwf1.
  destruct (IH db1 _ (delete m.1 rows) (S n) Hwf1) as (db' & E & Hwf' & Hg); try done.
  - apply lookup_insert_eq.
  - destruct Hg1 as [-> _]. done.
  - by apply (db_room_rows fuel (pass order) _ db).
  - rewrite Forall_forall in Hms |- *. intros m' Hin. rewrite lookup_delete_ne; [by apply Hms|].
    intros Heq. apply Hnin. rewrite Heq. by apply list_elem_of_fmap_2.
  - exists db'. split; [|split].
    + cbn [fmap list_fmap each_match]. change (list_fmap _ _ tuple_of ms) with (tuple_of <$> ms).
      unfold rbind at 1, bind at 1. rewrite E1, E. do 3 f_equal. lia.
    + rewrite insert_insert_eq in Hwf'. assert (without (m :: ms) rows = without ms (delete m.1 rows)) as ->; [|done].
      apply map_eq. intros rid. rewrite !lookup_without. cbn [fmap list_fmap]. change (list_fmap _ _ fst ms) with ms.*1.
      destruct (decide (rid = m.1)) as [->|Hne].
      * rewrite decide_True by left. rewrite decide_False by done. by rewrite lookup_delete_eq.
      * rewrite lookup_delete_ne by done. apply decide_ext. rewrite elem_of_cons. tauto.
    + rewrite Z.add_comm. by eapply db_rows_trans.
Qed.

Definition delete_stmt (name : string) (where_ : option Expr) (a : Db) (r : Result QueryResult) (a' : Db) : Prop :=
  match a !! name with
  | None => r = Err (no_such_table name) ∧ a' = a
  | Some (schema, rows) =>
      a' = <[name := (schema, filter (λ m, selected where_ schema m.2 = false) rows)]> a ∧
      r = Ok (count_result (size (filter (λ m, selected where_ schema m.2 = true) rows)) "DELETE ")
  end.

Lemma without_selected where_ schema l (rows : Rows) :
  l ≡ₚ map_to_list rows →
  without (selected_rows where_ schema l) rows = filter (λ m, selected where_ schema m.2 = false) rows ∧
  length (selected_rows where_ schema l) = size (filter (λ m, selected where_ schema m.2 = true) rows).
Proof.
  intros Hl. split.
  - apply map_eq. intros rid. rewrite lookup_without. apply option_eq. intros row. rewrite map_lookup_filter_Some. cbn [snd].
    assert (rid ∈ (selected_rows where_ schema l).*1 ↔ ∃ row, rows !! rid = Some row ∧ selected where_ schema row = true) as Hin.
    { rewrite list_elem_of_fmap. split.
      - intros ([rid' row'] & -> & [Hs Hin]%list_elem_of_filter). rewrite Hl in Hin. apply elem_of_map_to_list in Hin. eauto.
      - intros (row' & Hr & Hs). exists (rid, row'). split; [done|]. apply list_elem_of_filter. split; [done|].
        rewrite Hl. by apply elem_of_map_to_list. }
    case_decide as Hd; rewrite Hin in Hd.
    + destruct Hd as (row' & Hr & Hs). split; [done|]. intros [Hr2 Hs2]. congruence.
    + split; [|by intros [? _]]. intros Hr. split; [done|]. apply not_true_is_false. intros Hs. eauto.
  - rewrite <- length_map_to_list. apply Permutation_length. unfold selected_rows. rewrite Hl.
    apply NoDup_Permutation; [apply NoDup_filter, NoDup_map_to_list|apply NoDup_map_to_list|].
    intros [rid row]. rewrite list_elem_of_filter, !elem_of_map_to_list, map_lookup_filter_Some. tauto.
Qed.

Lemma ExecuteDelete_spec fuel order name where_ db a :
  db_wf db a → complete_order order (db_indexes db) →
  (∀ schema rows, a !! name = Some (schema, rows) → db_room fuel (pass order * Z.of_nat (size rows)) db) →
  ∃ r db' a', ExecuteDelete fuel order name where_ db = Some (r, db') ∧ delete_stmt name where_ a r a' ∧ db_wf db' a' ∧
    catalog (table_manager_ db') = catalog (table_manager_ db).
Proof.
  intros Hwf Hord Hroom. pose proof (pass_nonneg order) as Hp.
  unfold ExecuteDelete. rewrite (require_schema_spec db a) by apply Hwf. unfold delete_stmt.
  destruct (a !! name) as [[schema rows]|] eqn:Ha; [|by eexists _, db, a].
  specialize (Hroom _ _ eq_refl).
  destruct (find_matches_spec fuel name where_ schema rows db a Hwf Ha) as (l & db1 & E1 & Hl & Hwf1 & Hg1).
  { eapply db_room_weaken; [|exact Hroom]. nia. }
  destruct (selected_rows_in where_ schema l rows Hl) as (Hnd & Hin & Hlen).
  destruct (without_selected where_ schema l rows Hl) as [Hwo Hsz].
  destruct (each_delete_spec fuel order name schema (selected_rows where_ schema l) db1 a rows 0 Hwf1 Ha) as
    (db' & E & Hwf' & Hg); try done.
  - destruct Hg1 as [-> _]. done.
  - apply (db_room_rows fuel 0 _ db); [|done|done]. eapply db_room_weaken; [|exact Hroom].
    rewrite Z.add_0_l. apply Z.mul_le_mono_nonneg_l; lia.
  - unfold rbind, bind. rewrite E1, E. destruct Hg as [Hc _], Hg1 as [Hc1 _]. rewrite Hwo in Hwf'.
    eexists _, db', _. split; [reflexivity|]. rewrite Nat.add_0_l, Hsz. split; [done|]. split; [done|congruence].
Qed.
End executor.
