(* ===== verification/SelectSpec.v ===== *)
(** * What SELECT returns

    Whatever access path is chosen, the scan and the filter yield the rows that
    satisfy the WHERE clause, in some order; sorting, projection, LIMIT and the
    aggregates then work on those. *)

From stdpp Require Import gmap pretty sorting.
From Stdlib Require Import SpecFloat.
From S2P Require Import Prelude Util Value RecordCodec PageManager PageStore HeapFile Catalog CatalogSpec TableManager.
From S2P Require Import TableSpec TableTheorems BPlusNode BPlusTree BPlusTreeSpec BPlusTreeOps BPlusTreeSearch BPlusTreeTheorems.
From S2P Require Import Database Ast ExprEval Doubles Operators OperatorSpec SortSpec Scans Executor IndexSpec ExecutorSpec.

(** ** Filtering lists *)

Lemma filter_ext_in {A} (P Q : A → Prop) `{!∀ x, Decision (P x), !∀ x, Decision (Q x)} (l : list A) :
  (∀ x, x ∈ l → P x ↔ Q x) → filter P l = filter Q l.
Proof.
  induction l as [|x l IH]; intros Hpq; [done|]. rewrite !filter_cons, IH by (intros y Hy; apply Hpq; by right).
  apply decide_ext, Hpq. left.
Qed.

Lemma filter_map {A B} (f : A → B) (P : B → Prop) `{!∀ x, Decision (P x)} (l : list A) :
  filter P (f <$> l) = f <$> filter (λ x, P (f x)) l.
Proof. induction l as [|x l IH]; [done|]. cbn [fmap list_fmap]. rewrite !filter_cons. case_decide; [cbn; f_equal|]; apply IH. Qed.

(** ** Column plans and aggregates are defined *)

Lemma IndexOf_lt schema column idx : IndexOf schema column = Some idx → (idx < length schema)%nat.
Proof.
  intros E. pose proof (IndexOf_spec schema column) as Hs. rewrite E in Hs. destruct Hs as (c & Hc & _). by eapply lookup_lt_Some.
Qed.

Lemma plan_items_bound schema items indices names indices' names' e :
  plan_items schema items indices names = Some (indices', names', e) → Forall (λ i, i < length schema)%nat indices →
  Forall (λ i, i < length schema)%nat indices'.
Proof.
  revert indices names. induction items as [|item items IH]; intros indices names; cbn [plan_items]; [by intros [= <- _ _]|].
  destruct (item_column item) as [column|]; [|done]. destruct (IndexOf schema column) as [idx|] eqn:E; [|by intros [= <- _ _]].
  intros Ep Hi. apply (IH _ _ Ep). apply Forall_app. split; [done|]. constructor; [by eapply IndexOf_lt|done].
Qed.

Lemma BuildColumnPlan_bound schema items indices names e :
  BuildColumnPlan schema items = Some (indices, names, e) → Forall (λ i, i < length schema)%nat indices.
Proof.
  unfold BuildColumnPlan. destruct items as [|item [|item2 items]]; [intros E; by eapply plan_items_bound| |intros E; by eapply plan_items_bound].
  destruct (is_star item); [|intros E; by eapply plan_items_bound].
  destruct (mapM _ schema) as [l|] eqn:E; [|done]. intros [= <- _ _]. apply mapM_Some in E.
  apply Forall_forall. intros i Hi%list_elem_of_lookup. destruct Hi as [j Hj].
  destruct (Forall2_lookup_r _ _ _ _ _ E Hj) as (c & _ & Hc). by eapply IndexOf_lt.
Qed.

Lemma project_defined indices schema ts :
  Forall (λ i, i < length schema)%nat indices → wide schema ts → is_Some (mapM (project_tuple indices) ts).
Proof.
  intros Hi Hw. apply mapM_is_Some_2. eapply Forall_impl; [exact Hw|]. intros t Hl. cbn in Hl.
  unfold project_tuple. apply fmap_is_Some, mapM_is_Some_2. eapply Forall_impl; [exact Hi|]. intros i Hlt. cbn in Hlt.
  apply lookup_lt_is_Some. lia.
Qed.

(** Items as the parser makes them: all plain columns or a star, or all
    aggregates, with a star only in COUNT. *)
Definition plain_item (item : SelectItem) : Prop := is_Some (item_column item).
Definition aggregate_item (item : SelectItem) : Prop :=
  ∃ f, item_aggregate item = Some f ∧
    if aggregate_star item then f = kCount else is_Some (item_column item).

Lemma plan_defined schema items :
  Forall plain_item items ∨ (∃ item, items = [item] ∧ is_star item = true) → is_Some (BuildColumnPlan schema items).
Proof.
  assert (∀ items indices names, Forall plain_item items → is_Some (plan_items schema items indices names)) as Hp.
  { clear items. intros items indices names Hi. revert indices names. induction Hi as [|item items [c Hc] Hi IH]; intros indices names; cbn [plan_items].
    - eauto.
    - rewrite Hc. destruct (IndexOf schema c); [apply IH|eauto]. }
  unfold BuildColumnPlan. intros [Hi|(item & -> & ->)].
  - destruct items as [|item [|item2 items]]; [by apply Hp| |by apply Hp]. destruct (is_star item); [|by apply Hp].
    destruct (mapM _ schema) as [l|] eqn:E; [eauto|]. exfalso. apply mapM_None in E. apply Exists_exists in E as (c & Hc & Hn).
    pose proof (IndexOf_spec schema (col_name c)) as Hs. rewrite Hn in Hs. by apply (Hs c Hc).
  - destruct (mapM _ schema) as [l|] eqn:E; [eauto|]. exfalso. apply mapM_None in E. apply Exists_exists in E as (c & Hc & Hn).
    pose proof (IndexOf_spec schema (col_name c)) as Hs. rewrite Hn in Hs. by apply (Hs c Hc).
Qed.

Lemma check_items_defined schema items : Forall aggregate_item items → is_Some (check_items schema items).
Proof.
  intros Hi. induction Hi as [|item items (f & Hf & Hs) Hi IH]; [by eexists|]. cbn [check_items]. rewrite Hf. cbn [mbind option_bind].
  destruct (aggregate_star item); [by rewrite andb_false_r|]. rewrite andb_true_r. destruct Hs as [c ->].
  destruct (_ || _); [|done]. cbn [mbind option_bind]. destruct (IndexOf schema c) as [idx|] eqn:Ei; [|eauto].
  apply IndexOf_lt, lookup_lt_is_Some in Ei as [col ->]. cbn [mbind option_bind]. destruct (negb _); eauto.
Qed.

Lemma accumulate_defined schema item values acc :
  aggregate_item item → length values = length schema → is_Some (accumulate schema item values acc).
Proof.
  intros (f & Hf & Hs) Hl. unfold accumulate. rewrite Hf. cbn [mbind option_bind].
  destruct (aggregate_star item); [subst f; eauto|]. rewrite andb_false_r. destruct Hs as [c ->]. cbn [mbind option_bind].
  destruct (IndexOf schema c) as [idx|] eqn:Ei; [|eauto]. apply IndexOf_lt in Ei. rewrite <- Hl in Ei.
  apply lookup_lt_is_Some in Ei as [v ->]. cbn [mbind option_bind]. destruct (IsNull v); [eauto|].
  destruct f; eauto; destruct (ValueToDoubleOrNull v); eauto.
Qed.

Lemma accumulate_items_defined schema items values accs :
  Forall aggregate_item items → length values = length schema →
  ∃ r, accumulate_items schema items values accs = Some r ∧ ∀ accs', r = Ok accs' → length accs = length items → length accs' = length items.
Proof.
  intros Hi Hl. induction Hi as [|item items Hit Hi IH] in accs |- *; destruct accs as [|acc accs]; cbn [accumulate_items];
    try (eexists; split; [done|]; by intros accs' [= <-]).
  destruct (accumulate_defined schema item values acc Hit Hl) as [r ->]. cbn [mbind option_bind].
  destruct r as [acc'|e]; [|by eexists]. destruct (IH accs) as (r & -> & Hr). cbn [mbind option_bind].
  destruct r as [accs'|e]; [|by eexists]. eexists. split; [done|]. intros accs2 [= <-] [=]. cbn. f_equal. by apply Hr.
Qed.

Lemma aggregate_defined schema items ts post :
  Forall aggregate_item items → wide schema ts → is_Some (aggregate_stream schema items ts post).
Proof.
  intros Hi Hw. unfold aggregate_stream. destruct (check_items_defined schema items Hi) as [check ->]. cbn [mbind option_bind].
  destruct (status_ok check); [|eauto].
  assert (∀ accs, length accs = length items → ∃ r, accumulate_all schema items ts accs = Some r ∧
    ∀ accs', r = Ok accs' → length accs' = length items) as Hacc.
  { induction Hw as [|t ts Hl Hw IH]; intros accs Hla; cbn [accumulate_all].
    - eexists. split; [done|]. by intros accs' [= <-].
    - destruct (accumulate_items_defined schema items (tup_values t) accs Hi Hl) as (r & -> & Hr). cbn [mbind option_bind].
      destruct r as [accs'|e]; [apply IH; by apply Hr|by eexists]. }
  destruct (Hacc (replicate (length items) Accumulator_new)) as (r & -> & Hr); [apply length_replicate|].
  cbn [mbind option_bind]. destruct r as [accs|e]; [|eauto]. specialize (Hr accs eq_refl).
  assert (is_Some (result_values items accs)) as [vs ->]; [|cbn; eauto].
  clear -Hi Hr. induction Hi as [|item items (f & Hf & _) Hi IH] in accs, Hr |- *; destruct accs as [|acc accs]; cbn [result_values]; try by eexists.
  unfold result_value. rewrite Hf. cbn [mbind option_bind]. destruct (IH accs) as [vs ->]; [by injection Hr|]. cbn. eauto.
Qed.

(** ** Candidates of an index *)

Definition key_in (p : Z → bool) (col : nat) (r : RecordId * Row) : bool :=
  match row_key col r.2 with Some k => p k | None => false end.

(** The record ids a search of an index gives are those of the rows with such
    keys. *)
Lemma candidates_rows col (rows : Rows) es (p : Z → bool) :
  es ≡ₚ entries_of col rows →
  ∃ l, (filter (λ e, p e.1 = true) es).*2 = l.*1 ∧ l ≡ₚ filter (λ r, key_in p col r = true) (map_to_list rows) ∧
    Forall (λ r, rows !! r.1 = Some r.2) l.
Proof.
  intros He. set (f := λ e : Entry, (e.2, default [] (rows !! e.2))).
  assert (∀ L, Forall (λ r, rows !! r.1 = Some r.2) L →
    f <$> filter (λ e, p e.1 = true) (omap (row_entry col) L) = filter (λ r, key_in p col r = true) L) as Hf.
  { intros L HL. induction HL as [|[rid row] L Hr HL IH]; [done|]. cbn [fst snd] in Hr.
    rewrite omap_option_list, filter_app, fmap_app, IH, filter_cons.
    assert (key_in p col (rid, row) = match row_key col row with Some k => p k | None => false end) as Hk by done.
    rewrite Hk. unfold row_entry at 1. cbn [fst snd].
    destruct (row_key col row) as [k|]; cbn [fmap option_fmap option_map]; [|by case_decide].
    change (option_list (Some (k, rid))) with [(k, rid)]. rewrite filter_cons. cbn [fst].
    case_decide; [|done]. unfold f at 1. cbn. by rewrite Hr. }
  assert (Forall (λ r, rows !! r.1 = Some r.2) (map_to_list rows)) as Hall.
  { apply Forall_forall. intros [rid row] Hin. by apply elem_of_map_to_list in Hin. }
  assert (f <$> filter (λ e, p e.1 = true) es ≡ₚ filter (λ r, key_in p col r = true) (map_to_list rows)) as Hp.
  { rewrite He. unfold entries_of. by rewrite Hf. }
  exists (f <$> filter (λ e, p e.1 = true) es). split; [|split; [done|]].
  - rewrite <- list_fmap_compose. apply list_fmap_ext. by intros ? [].
  - rewrite Hp. apply Forall_forall. intros r [_ Hin]%list_elem_of_filter. by apply (Forall_forall (λ r, rows !! r.1 = Some r.2) (map_to_list rows)).
Qed.

(** ** Conjuncts *)

(** The keys the scan for a conjunct looks for. *)
Definition conj_test (c : IndexableConjunct) (k : Z) : bool :=
  match conj_op c with
  | kEq => k =? conj_value c
  | kLt => k <? conj_value c
  | kLte => k <=? conj_value c
  | kGt => k >? conj_value c
  | kGte => k >=? conj_value c
  | _ => true
  end.

Lemma selected_true e schema row :
  selected (Some e) schema row = true ↔ Evaluate e schema row = Some (Ok (VBool true)).
Proof.
  unfold selected, EvaluatePredicate. destruct (Evaluate e schema row) as [[[]|]|]; try done.
  destruct b; [done|]. split; [done|]. by intros [=].
Qed.

(** Every conjunct of a condition that holds does. *)
Lemma conjuncts_true e schema row :
  Evaluate e schema row = Some (Ok (VBool true)) → ∀ c, c ∈ FlattenAnd e → Evaluate c schema row = Some (Ok (VBool true)).
Proof.
  induction e as [col|v|l IHl op r IHr]; intros E c; try (cbn [FlattenAnd]; by intros ->%list_elem_of_singleton).
  destruct (decide (op = kAnd)) as [->|Hop].
  2: { assert (FlattenAnd (BinaryExpr l op r) = [BinaryExpr l op r]) as -> by (by destruct op). by intros ->%list_elem_of_singleton. }
  cbn [FlattenAnd]. cbn in E. destruct (Evaluate l schema row) as [[[| | | |lb|]|]|]; try done.
  destruct lb; cbn in E; [|done]. destruct (Evaluate r schema row) as [[[| | | |rb|]|]|]; try done.
  cbn in E. destruct rb; [|done]. intros [Hc|Hc]%elem_of_app; [by apply IHl|by apply IHr].
Qed.

Lemma choose_index_spec indexes conjuncts chosen c idx :
  choose_index indexes conjuncts chosen = Some (c, idx) →
  chosen = Some (c, idx) ∨ ∃ e, e ∈ conjuncts ∧ ExtractIndexableConjunct e = Some c ∧ idx ∈ indexes ∧
    index_column_name idx = conj_column c.
Proof.
  induction conjuncts as [|e conjuncts IH] in chosen |- *; cbn [choose_index]; [by left|].
  assert (∀ ch, choose_index indexes conjuncts ch = Some (c, idx) → ch = chosen →
    chosen = Some (c, idx) ∨ ∃ e', e' ∈ e :: conjuncts ∧ ExtractIndexableConjunct e' = Some c ∧ idx ∈ indexes ∧
      index_column_name idx = conj_column c) as Hskip.
  { intros ch E ->. apply IH in E as [?|(e' & ? & ?)]; [by left|right]. exists e'. split; [by right|done]. }
  destruct (ExtractIndexableConjunct e) as [cand|] eqn:Ec; [|eauto].
  destruct (List.find _ indexes) as [i|] eqn:Ef; [|eauto].
  apply List.find_some in Ef as [Hin%list_elem_of_In Heq%String.eqb_eq].
  case_bool_decide.
  - intros [= <- <-]. right. exists e. split; [left|done].
  - intros E. destruct chosen as [ch|]; [eauto|]. apply IH in E as [[= <- <-]|(e' & ? & ?)]; right.
    + exists e. split; [left|done].
    + exists e'. split; [by right|done].
Qed.

(** A value of an integer column. *)
Lemma int_column_value schema row col c :
  row_fits schema row → schema !! col = Some c → is_indexable (col_type c) = true →
  ∃ v, row !! col = Some v ∧ (v = VNull ∧ row_key col row = None ∨ ∃ z, int_value v = Some z ∧ row_key col row = Some z).
Proof.
  intros Hf Hc Hi. destruct (Forall2_lookup_l _ _ _ _ _ Hf Hc) as (v & Hv & Hm). exists v. split; [done|].
  unfold row_key. rewrite Hv. cbn [mbind option_bind]. unfold value_fits in Hm. apply andb_true_iff in Hm as [Hm _].
  destruct (col_type c), v; try done; (by left) || (right; by eexists).
Qed.

(** A conjunct that holds has its column's key among those the index is
    searched for; [<>] is not searched for, and the integers have to be
    compared exactly. *)
Lemma conjunct_key schema row rid col cc e c :
  ExtractIndexableConjunct e = Some c → Evaluate e schema row = Some (Ok (VBool true)) →
  IndexOf schema (conj_column c) = Some col → schema !! col = Some cc → is_indexable (col_type cc) = true →
  row_fits schema row → conj_op c ≠ kNeq → exact_int (conj_value c) →
  (∀ k, row_key col row = Some k → exact_int k) → key_in (conj_test c) col (rid, row) = true.
Proof.
  intros Hx E Hci Hsc Hty Hf Hop Hev Hek. unfold key_in. cbn [snd].
  destruct (int_column_value _ _ _ _ Hf Hsc Hty) as (v & Hv & Hkey).
  destruct e as [|lv|l op r]; try done. cbn [ExtractIndexableConjunct] in Hx. cbn [Evaluate] in E.
  destruct (is_logical op) eqn:Hlog; [done|].
  destruct l as [cl|lv|]; [|destruct lv; try done|done]; destruct r as [cr|rv|]; try done; [destruct rv; try done|];
    injection Hx as <-; cbn [conj_column conj_op conj_value Evaluate] in *; rewrite Hci, Hv in E; cbn [fmap option_fmap option_map] in E.
  - destruct Hkey as [[-> _]|(z & Hz & Hk)].
    { cbn in E. destruct op; done. }
    rewrite Hk. destruct (int_compare_exact v (VInt64 v0) z v0 Hz eq_refl (Hek z Hk) Hev) as (E1 & E2 & _).
    destruct (int_value_double v z Hz) as [_ Hn]. rewrite E1, E2, Hn in E. unfold conj_test. cbn [conj_op conj_value].
    destruct op; try done; cbn in E; unfold three_way in E; destruct (Z.compare_spec z v0); try done; try lia.
    all: injection E as E%bool_decide_eq_true; lia.
  - destruct Hkey as [[-> _]|(z & Hz & Hk)].
    { cbn in E. destruct op; done. }
    rewrite Hk. destruct (int_compare_exact (VInt64 v0) v v0 z eq_refl Hz Hev (Hek z Hk)) as (E1 & E2 & _).
    destruct (int_value_double v z Hz) as [_ Hn]. rewrite E1, E2, Hn in E. unfold conj_test. cbn [conj_op conj_value].
    destruct op; try done; cbn in E; unfold three_way in E; destruct (Z.compare_spec v0 z); try done; cbn [FlipComparisonOp]; try lia.
    all: injection E as E%bool_decide_eq_true; lia.
Qed.

Section select.
Context {Pool : Type} `{PageStoreSpec Pool}.
Context (fuel : nat) (a : Db) (db0 : Database Pool).
Implicit Types (w : Database Pool).

Abbreviation db_indexes db := (indexes_ (catalog (table_manager_ db)).2).

(** While a query runs, the tables and indexes stay as they are in [db0]. *)
Definition reading w : Prop := db_wf w a ∧ db_rows 0 db0 w.

Context (Hroom : db_room fuel 0 db0).

Lemma reading_room w : reading w → db_room fuel 0 w.
Proof. intros [_ Hg]. by apply (db_room_rows fuel 0 0 db0). Qed.

Lemma reading_tables w t' :
  reading w → db_at t' a → tm_rows 0 (table_manager_ w) t' → reading (mkDatabase t' (index_buffer_pool_ w)).
Proof.
  intros [[_ (trees & Htr & Hst) Hpl] Hg] Hdb [Hc Hn]. split.
  - eapply db_wf_intro; rewrite ?Hc; done.
  - rewrite <- (Z.add_0_r 0). eapply db_rows_trans; [exact Hg|]. split; [done|cbn [table_manager_ index_buffer_pool_]; lia].
Qed.

Lemma reading_index w s' :
  reading w → same_store (index_buffer_pool_ w) s' → reading (mkDatabase (table_manager_ w) s').
Proof.
  intros [[Hdb (trees & Htr & Hst) Hpl] Hg] Hs. pose proof Hs as (_ & [Hc _] & _). split.
  - eapply db_wf_intro; [done|by eapply trees_same|done..].
  - rewrite <- (Z.add_0_r 0). eapply db_rows_trans; [exact Hg|]. split; [done|cbn [table_manager_ index_buffer_pool_]; lia].
Qed.

(** What an operator yields: tuples of the list [l] of rows, and no error. *)
Definition yields_rows (P : list (RecordId * Row) → Prop) (pre : Status) (ts : list Tuple) (post : Status) : Prop :=
  pre = Status_OK ∧ post = Status_OK ∧ ∃ l, P l ∧ ts = tuple_of <$> l.

(** ** Sequential scan *)

Lemma yields_seq name ts n : yields reading fuel (mkSeqScan name ts n) Status_OK (drop n ts) Status_OK.
Proof.
  remember (drop n ts) as rest eqn:Hr. symmetry in Hr.
  induction rest as [|t rest IH] in n, Hr |- *; (split; [done|]); intros w Hw.
  - exists (mkSeqScan name ts n), w. split; [|done]. simpl. unfold seq_next, bind, members, gets. cbn.
    assert (ts !! n = None) as ->; [|done]. apply lookup_ge_None_2.
    apply (f_equal length) in Hr. rewrite length_drop in Hr. simpl in Hr. lia.
  - exists (mkSeqScan name ts (S n)), w. split; [|split; [done|]].
    + simpl. unfold seq_next, bind, members, gets. cbn.
      assert (ts !! n = Some t) as ->; [|done]. rewrite <- (Nat.add_0_r n), <- lookup_drop, Hr. done.
    + apply IH. replace (S n) with (n + 1)%nat by lia. rewrite <- drop_drop, Hr. done.
Qed.

Lemma fold_tuples (l : list (RecordId * Row)) acc :
  fold_left (λ acc '(rid, values), acc ++ [mkTuple rid values]) l acc = acc ++ (tuple_of <$> l).
Proof.
  induction l as [|[rid row] l IH] in acc |- *; cbn [fold_left fmap list_fmap]; [by rewrite app_nil_r|].
  by rewrite IH, <- app_assoc.
Qed.

Lemma opens_seq name schema rows :
  a !! name = Some (schema, rows) →
  opens reading fuel (SeqScanOperator_new name) (yields_rows (λ l, l ≡ₚ map_to_list rows)).
Proof.
  intros Ha w Hw. pose proof Hw as [[Hdb _ _] _].
  destruct (Scan_db fuel (table_manager_ w) a name (λ rid values buffered, buffered ++ [mkTuple rid values]) [] Hdb) as
    (st & l & t' & E & Hs & Hdb' & Hg); [apply (db_room_tm fuel 0); [by apply reading_room|done]|].
  cbn in Hs. rewrite Ha in Hs. destruct Hs as (_ & l' & [= -> ->] & Hl). rewrite fold_tuples in E.
  exists (mkSeqScan name (tuple_of <$> l') 0), (mkDatabase t' (index_buffer_pool_ w)), Status_OK, (tuple_of <$> l'), Status_OK.
  split; [|split; [by apply reading_tables|split; [apply (yields_seq name (tuple_of <$> l') 0)|]]].
  - simpl. unfold seq_open, bind, members, gets, on_world, on_tables. cbn [fst seq_table_name_ SeqScanOperator_new].
    by rewrite E.
  - split; [done|]. split; [done|]. eauto.
Qed.

Lemma closes_seq : closes reading (Op := SeqScanOperator).
Proof. intros op w Hw. by eexists _, w. Qed.

(** ** Index scan *)

Lemma yields_index name schema rows tree lo li hi hinc eq l n :
  a !! name = Some (schema, rows) → Forall (λ r, rows !! r.1 = Some r.2) l →
  yields reading fuel (mkIndexScan name tree lo li hi hinc eq l.*1 n Status_OK) Status_OK (tuple_of <$> drop n l) Status_OK.
Proof.
  intros Ha Hl. remember (drop n l) as rest eqn:Hr. symmetry in Hr.
  induction rest as [|[rid row] rest IH] in n, Hr |- *; (split; [done|]); intros w Hw.
  - exists (mkIndexScan name tree lo li hi hinc eq l.*1 n Status_OK), w. split; [|done].
    simpl. unfold idx_next, bind, members, gets. cbn [fst idx_cursor_ candidates_].
    rewrite <- fmap_drop, Hr. done.
  - cbn [fmap list_fmap]. change (list_fmap _ _ tuple_of rest) with (tuple_of <$> rest).
    assert (rows !! rid = Some row) as Hrow.
    { rewrite Forall_forall in Hl. apply (Hl (rid, row)). rewrite <- (take_drop n l), Hr. apply elem_of_app. right. left. }
    pose proof Hw as [[Hdb _ _] _].
    destruct (GetRow_db (table_manager_ w) a name rid Hdb) as (r & t' & E & Hs & Hdb' & Hg).
    { left. intros schema' rows' Ha'. rewrite Ha in Ha'. injection Ha' as <- <-. eauto. }
    cbn in Hs. rewrite Ha, Hrow in Hs. destruct Hs as (_ & [= ->]).
    exists (mkIndexScan name tree lo li hi hinc eq l.*1 (S n) Status_OK), (mkDatabase t' (index_buffer_pool_ w)).
    split; [|split; [by apply reading_tables|]].
    + simpl. unfold idx_next, bind at 1, members, gets. cbn [fst idx_cursor_ candidates_]. rewrite <- fmap_drop, Hr.
      cbn [fmap list_fmap idx_loop fst]. unfold bind, set_members, modify, members, gets, on_world, on_tables.
      cbn [fst idx_table_name_ idx_set]. by rewrite E.
    + apply IH. replace (S n) with (n + 1)%nat by lia. rewrite <- drop_drop, Hr. done.
Qed.

Lemma closes_index : closes reading (Op := IndexScanOperator).
Proof. intros op w Hw. by eexists _, w. Qed.

(** The candidates of [Open] are the rows with such keys. *)
Lemma index_open w name schema rows nm meta col (c : IndexableConjunct) :
  reading w → a !! name = Some (schema, rows) → db_indexes db0 !! nm = Some meta → index_table_name meta = name →
  IndexOf schema (index_column_name meta) = Some col →
  ∃ l w', Open fuel (index_scan name (index_meta_page_id meta) c, w) =
      Some (tt, (idx_set l.*1 0 Status_OK (index_scan name (index_meta_page_id meta) c), w')) ∧ reading w' ∧
    l ≡ₚ filter (λ r, key_in (conj_test c) col r = true) (map_to_list rows) ∧ Forall (λ r, rows !! r.1 = Some r.2) l.
Proof.
  intros Hw Ha Hm Htn Hci. pose proof Hw as [[Hdb (trees & Htr & Hst) _] Hg]. pose proof Hg as [Hcat _].
  rewrite <- Hcat in Hm. destruct (tr_tree _ _ _ Htr _ _ Hm) as (es & ps & Ht & Hix).
  rewrite <- Htn in Ha. destruct (Hst _ _ _ _ _ _ Hm Ht Ha) as (col' & cc & Hci' & _ & _ & He).
  rewrite Hci in Hci'. injection Hci' as <-.
  destruct (candidates_rows col rows es (conj_test c) He) as (l & Hrids & Hl & Hall). exists l.
  pose proof (rm_fuel_index _ _ _ (reading_room _ Hw)) as Hfu. rewrite Z.add_0_r in Hfu.
  pose proof (tr_idle _ _ _ Htr) as Hi.
  assert (∀ lo li hi hinc s',
    RangeScan fuel (index_meta_page_id meta) lo li hi hinc (index_buffer_pool_ w) =
      Some (Ok (within (below_low lo li) (above_high hi hinc) es), s') →
    (within (below_low lo li) (above_high hi hinc) es).*2 = l.*1 → same_store (index_buffer_pool_ w) s' →
    ∃ w', Open fuel (IndexScanOperator_range name (index_meta_page_id meta) lo li hi hinc, w) =
      Some (tt, (idx_set l.*1 0 Status_OK (IndexScanOperator_range name (index_meta_page_id meta) lo li hi hinc), w')) ∧
      reading w') as Hrange.
  { intros lo li hi hinc s' E Heq Hs. exists (mkDatabase (table_manager_ w) s'). split; [|by apply reading_index].
    cbn [Open index_scan_operator]. unfold idx_open, bind, set_members, modify, members, gets, on_world, on_index_pool.
    cbn [fst idx_set IndexScanOperator_range is_equality_ idx_tree_ low_ low_inclusive_ high_ high_inclusive_].
    rewrite E. cbv beta iota. by rewrite Heq. }
  assert (∀ lo li hi hinc, (∀ k, below_low lo li k = false ∧ above_high hi hinc k = false ↔ conj_test c k = true) →
    ∃ w', Open fuel (IndexScanOperator_range name (index_meta_page_id meta) lo li hi hinc, w) =
      Some (tt, (idx_set l.*1 0 Status_OK (IndexScanOperator_range name (index_meta_page_id meta) lo li hi hinc), w')) ∧
      reading w') as Hr.
  { intros lo li hi hinc Hiff. destruct (RangeScan_spec fuel _ _ es ps lo li hi hinc Hix Hi Hfu) as (s' & E & Hs).
    apply (Hrange lo li hi hinc s' E); [|done]. rewrite <- Hrids. f_equal. unfold within. apply list_filter_iff.
    intros [k rid]. apply Hiff. }
  assert (∃ w', Open fuel (index_scan name (index_meta_page_id meta) c, w) =
      Some (tt, (idx_set l.*1 0 Status_OK (index_scan name (index_meta_page_id meta) c), w')) ∧ reading w') as (w' & E & Hw');
    [|by exists w'].
  unfold conj_test, index_scan in *. destruct (conj_op c);
    try (apply Hr; intros k; unfold below_low, above_high; cbn [negb andb orb]; lia).
  destruct (SearchEqual_spec fuel _ _ es ps (conj_value c) Hix Hi Hfu) as (s' & E & Hs).
  exists (mkDatabase (table_manager_ w) s'). split; [|by apply reading_index].
  cbn [Open index_scan_operator]. unfold idx_open, bind, set_members, modify, members, gets, on_world, on_index_pool.
  cbn [fst idx_set IndexScanOperator_equal is_equality_ idx_tree_ low_ low_inclusive_ high_ high_inclusive_].
  rewrite E. cbv beta iota. rewrite <- Hrids. do 4 f_equal. unfold has_key. f_equal. apply list_filter_iff.
  intros [k rid]. cbn. symmetry. apply Z.eqb_eq.
Qed.

Lemma opens_index name schema rows nm meta col (c : IndexableConjunct) :
  a !! name = Some (schema, rows) → db_indexes db0 !! nm = Some meta → index_table_name meta = name →
  IndexOf schema (index_column_name meta) = Some col →
  opens reading fuel (index_scan name (index_meta_page_id meta) c)
    (yields_rows (λ l, l ≡ₚ filter (λ r, key_in (conj_test c) col r = true) (map_to_list rows))).
Proof.
  intros Ha Hm Htn Hci w Hw. destruct (index_open w name schema rows nm meta col c Hw Ha Hm Htn Hci) as (l & w' & E & Hw' & Hl & Hall).
  eexists _, w', Status_OK, (tuple_of <$> l), Status_OK. split; [exact E|]. split; [done|]. split.
  - assert (∃ tree lo li hi hinc eq, idx_set l.*1 0 Status_OK (index_scan name (index_meta_page_id meta) c) =
      mkIndexScan name tree lo li hi hinc eq l.*1 0 Status_OK) as (tree & lo & li & hi & hinc & eq & ->).
    { unfold index_scan. by destruct (conj_op c); eexists _, _, _, _, _, _. }
    by apply (yields_index name schema rows tree lo li hi hinc eq l 0).
  - split; [done|]. split; [done|]. eauto.
Qed.

(** ** The access path *)

Context (name : string) (schema : Schema) (rows : Rows) (where_ : option Expr) (order : list string).
Context (Ha : a !! name = Some (schema, rows)).

(** The condition evaluates on every row. *)
Definition where_total : Prop := ∀ rid row, rows !! rid = Some row → ∃ b, EvaluatePredicate where_ schema row = Some (Ok b).

(** Conjuncts on an indexed column are not [<>], and the integers they compare
    are within 53 bits. *)
Definition index_exact : Prop :=
  ∀ e ec c nm meta col, where_ = Some e → ec ∈ FlattenAnd e → ExtractIndexableConjunct ec = Some c →
    db_indexes db0 !! nm = Some meta → index_table_name meta = name → index_column_name meta = conj_column c →
    IndexOf schema (conj_column c) = Some col →
    conj_op c ≠ kNeq ∧ exact_int (conj_value c) ∧
    ∀ rid row k, rows !! rid = Some row → row_key col row = Some k → exact_int k.

Context (Hord : complete_order order (db_indexes db0)) (Hwh : where_total) (Hexact : index_exact).
Context (Hread : reading db0) (Hsize : (size rows < fuel)%nat).

(** The scan yields some of the rows, with all that satisfy the condition. *)
Lemma plan_scan_spec :
  ∃ (scan : SeqScanOperator + IndexScanOperator) strategy p,
    plan_scan order name where_ db0 = Some ((scan, strategy), db0) ∧
    opens reading fuel scan (yields_rows (λ l, l ≡ₚ filter (λ r, p r = true) (map_to_list rows))) ∧
    (∀ rid row, rows !! rid = Some row → selected where_ schema row = true → p (rid, row) = true) ∧
    (where_ = None → ∀ r, p r = true).
Proof.
  pose proof Hread as [[Hdb (trees & Htr & Hst) _] _].
  assert (∃ (scan : SeqScanOperator + IndexScanOperator) strategy p,
    Some ((inl (SeqScanOperator_new name) : SeqScanOperator + IndexScanOperator, "SeqScan"%string), db0) = Some ((scan, strategy), db0) ∧
    opens reading fuel scan (yields_rows (λ l, l ≡ₚ filter (λ r, p r = true) (map_to_list rows))) ∧
    (∀ rid row, rows !! rid = Some row → selected where_ schema row = true → p (rid, row) = true) ∧
    (where_ = None → ∀ r, p r = true)) as Hseq.
  { eexists _, _, (λ _, true). split; [reflexivity|]. split; [|done]. apply opens_inl.
    eapply opens_impl; [by eapply opens_seq|]. intros pre ts post (-> & -> & l & Hl & ->). split; [done|]. split; [done|].
    exists l. split; [|done]. rewrite Hl. rewrite filter_all; [done|]. by apply Forall_forall. }
  unfold plan_scan. destruct where_ as [e|] eqn:Hw; [|exact Hseq]. destruct (top_is_or e); [exact Hseq|].
  unfold bind, indexes_for, gets.
  destruct (indexes_for_spec order name (catalog (table_manager_ db0)).2 Hord (tr_name _ _ _ Htr)) as [_ Hin].
  destruct (choose_index _ (FlattenAnd e) None) as [[c idx]|] eqn:Ec; [|exact Hseq].
  apply choose_index_spec in Ec as [|(ec & Hec & Hx & [Hm Htn]%Hin & Hcn)]; [done|].
  destruct (tr_tree _ _ _ Htr _ _ Hm) as (es & ps & Ht & Hix). pose proof Ha as Ha2. rewrite <- Htn in Ha2.
  destruct (Hst _ _ _ _ _ _ Hm Ht Ha2) as (col & cc & Hci & Hsc & Hty & _).
  assert (IndexOf schema (conj_column c) = Some col) as Hci' by (by rewrite <- Hcn).
  destruct (Hexact e ec c _ idx col Hw Hec Hx Hm Htn Hcn Hci') as (Hop & Hev & Hek).
  assert (index_meta_page_id idx ≠ kInvalidPageId) as Hne%Z.eqb_neq by (destruct Hix; unfold kInvalidPageId; lia).
  unfold on_index_pool, BPlusTree_new. rewrite Hne. cbn [ret].
  eexists _, _, (key_in (conj_test c) col). split; [by destruct db0|]. split; [|split; [|done]].
  - apply opens_inr. by eapply opens_index.
  - intros rid row Hr Hs%selected_true. apply (conjunct_key schema row rid col cc ec c); try done.
    + by eapply conjuncts_true.
    + by apply (db_row _ _ _ _ _ _ _ Hdb Ha Hr).
    + intros k. by apply (Hek rid).
Qed.

Lemma filter_stream_total ts post :
  Forall (λ t, ∃ b, predicate_on where_ schema t = Some (Ok b)) ts →
  filter_stream where_ schema ts post = (filter (λ t, selected where_ schema (tup_values t) = true) ts, post).
Proof.
  intros Ht. induction Ht as [|t ts [b Eb] Ht IH]; [done|]. cbn [filter_stream]. rewrite Eb, IH, filter_cons.
  unfold predicate_on in Eb. assert (selected where_ schema (tup_values t) = b) as -> by (unfold selected; rewrite Eb; by destruct b).
  by destruct b.
Qed.

(** The scan and the filter: the rows that satisfy the condition. *)
Lemma opens_filtered (scan : SeqScanOperator + IndexScanOperator) p :
  opens reading fuel scan (yields_rows (λ l, l ≡ₚ filter (λ r, p r = true) (map_to_list rows))) →
  (∀ rid row, rows !! rid = Some row → selected where_ schema row = true → p (rid, row) = true) →
  (where_ = None → ∀ r, p r = true) →
  opens reading fuel (add_filter scan where_ schema)
    (yields_rows (λ l, l ≡ₚ selected_rows where_ schema (map_to_list rows))).
Proof.
  intros Ho Hp Hall. unfold add_filter. destruct where_ as [e|] eqn:Hw.
  - apply opens_inr. rewrite <- Hw in *. eapply opens_impl; [apply (opens_filter reading fuel where_ schema scan _ Ho)|].
    + intros pre ts post (-> & -> & l & Hl & ->).
      assert (∀ r, r ∈ l → rows !! r.1 = Some r.2) as Hin.
      { intros [rid row] Hin. rewrite Hl in Hin. by apply list_elem_of_filter in Hin as [_ ?%elem_of_map_to_list]. }
      split.
      * apply Forall_fmap, Forall_forall. intros r Hr. cbn. apply row_fits_length.
        destruct Hread as [[Hdb _ _] _]. by apply (db_row _ _ _ _ _ _ _ Hdb Ha (Hin r Hr)).
      * rewrite length_fmap, Hl. eapply Nat.le_lt_trans; [apply length_filter|]. by rewrite length_map_to_list.
    + intros pre out post' (ts & post & (-> & -> & l & Hl & ->) & Ef).
      assert (∀ r, r ∈ l → rows !! r.1 = Some r.2) as Hin.
      { intros [rid row] Hin. rewrite Hl in Hin. by apply list_elem_of_filter in Hin as [_ ?%elem_of_map_to_list]. }
      rewrite filter_stream_total in Ef.
      2: { apply Forall_fmap, Forall_forall. intros r Hr. unfold predicate_on. cbn. by apply (Hwh r.1), Hin. }
      injection Ef as <- <-. split; [done|]. split; [done|]. exists (selected_rows where_ schema l). split.
      * unfold selected_rows. rewrite Hl, list_filter_filter. apply Permutation_refl', filter_ext_in.
        intros [rid row] Hr%elem_of_map_to_list. cbn [snd]. split; [tauto|]. intros Hs. split; [done|by apply Hp].
      * unfold selected_rows. by rewrite filter_map.
  - apply opens_inl. eapply opens_impl; [exact Ho|]. intros pre ts post (-> & -> & l & Hl & ->). split; [done|]. split; [done|].
    exists l. split; [|done]. rewrite Hl. unfold selected_rows, selected, EvaluatePredicate.
    rewrite !filter_all; [done|by apply Forall_forall|]. apply Forall_forall. intros r _. by apply Hall.
Qed.

Lemma closes_filtered : closes reading (Op := (SeqScanOperator + IndexScanOperator) + FilterOperator (SeqScanOperator + IndexScanOperator)).
Proof.
  assert (closes reading (Op := SeqScanOperator + IndexScanOperator)) as Hs by (apply closes_sum; [apply closes_seq|apply closes_index]).
  apply closes_sum; [done|by apply closes_filter].
Qed.

(** ** Sorting *)

Definition unknown_order (clause : OrderByClause) : Status :=
  InvalidArgument ("ORDER BY: unknown column '" +:+ order_column clause +:+ "'").

(** The tuples [ts] in the order of the clause, and the error. *)
Definition ordered (order_by : option OrderByClause) (ts out : list Tuple) (e : Status) : Prop :=
  match order_by with
  | None => out = ts ∧ e = Status_OK
  | Some clause =>
      match IndexOf schema (order_column clause) with
      | None => out = [] ∧ e = unknown_order clause
      | Some col => sorted_stably col (order_descending clause) ts out ∧ e = Status_OK
      end
  end.

(** The column of ORDER BY holds no NaN. *)
Definition order_comparable (order_by : option OrderByClause) : Prop :=
  ∀ clause col rid row b, order_by = Some clause → IndexOf schema (order_column clause) = Some col →
    rows !! rid = Some row → row !! col = Some (VDouble b) → is_nan (double_of_bits b) = false.

Lemma row_sortable order_by clause col c rid row :
  order_comparable order_by → order_by = Some clause → IndexOf schema (order_column clause) = Some col →
  schema !! col = Some c → rows !! rid = Some row → sortable_at col (col_type c) (mkTuple rid row).
Proof.
  intros Ho Hcl Hci Hsc Hr. destruct Hread as [[Hdb _ _] _]. destruct (db_row _ _ _ _ _ _ _ Hdb Ha Hr) as (Hf & _).
  destruct (Forall2_lookup_l _ _ _ _ _ Hf Hsc) as (v & Hv & Hm). exists v. split; [done|]. split.
  - unfold value_fits in Hm. by apply andb_true_iff in Hm as [? _].
  - intros d. destruct v; cbn; try done; intros [= <-]; try apply is_nan_of_Z. by eapply Ho.
Qed.

Lemma selected_size l : l ≡ₚ selected_rows where_ schema (map_to_list rows) → (length l ≤ size rows)%nat.
Proof. intros ->. etrans; [apply length_filter|]. by rewrite length_map_to_list. Qed.

Lemma selected_in l r : l ≡ₚ selected_rows where_ schema (map_to_list rows) → r ∈ l → rows !! r.1 = Some r.2.
Proof. intros -> [_ Hin]%list_elem_of_filter. destruct r. by apply elem_of_map_to_list in Hin. Qed.

Abbreviation ScanOp := (SeqScanOperator + IndexScanOperator)%type.
Abbreviation FilteredOp := (ScanOp + FilterOperator ScanOp)%type.
Abbreviation SortedOp := (FilteredOp + SortOperator FilteredOp)%type.

Lemma opens_sorted (chain : FilteredOp) order_by :
  order_comparable order_by →
  opens reading fuel chain (yields_rows (λ l, l ≡ₚ selected_rows where_ schema (map_to_list rows))) →
  opens reading fuel (add_sort chain order_by schema : SortedOp) (λ pre out post, pre = post ∧
    ∃ l, l ≡ₚ selected_rows where_ schema (map_to_list rows) ∧ ordered order_by (tuple_of <$> l) out post).
Proof.
  intros Hcmp Ho. unfold add_sort, ordered. destruct order_by as [clause|] eqn:Eo.
  2: { apply opens_inl. eapply opens_impl; [exact Ho|]. intros pre ts post (-> & -> & l & Hl & ->). eauto. }
  apply opens_inr. destruct (IndexOf schema (order_column clause)) as [col|] eqn:Hci.
  - pose proof (IndexOf_lt _ _ _ Hci) as Hlt. apply lookup_lt_is_Some in Hlt as [c Hsc].
    assert (∀ l, l ≡ₚ selected_rows where_ schema (map_to_list rows) →
      Forall (sortable_at col (col_type c)) (tuple_of <$> l)) as Hsort.
    { intros l Hl. apply Forall_fmap, Forall_forall. intros r Hr. eapply row_sortable; try done. by eapply selected_in. }
    eapply opens_impl; [apply (opens_sort reading fuel clause schema col chain _ Ho closes_filtered Hci)|].
    + intros pre ts post (-> & -> & l & Hl & ->). split; [rewrite length_fmap; pose proof (selected_size l Hl); lia|].
      destruct (sort_tuples_sorts col (order_descending clause) _ _ (Hsort l Hl)) as (out & -> & _). eauto.
    + intros pre out post (-> & pre0 & ts & (-> & -> & l & Hl & ->) & Es). split; [done|]. exists l. split; [done|].
      destruct (sort_tuples_sorts col (order_descending clause) _ _ (Hsort l Hl)) as (out' & Es' & Hs).
      rewrite Es in Es'. injection Es' as <-. done.
  - eapply opens_impl; [by apply opens_sort_unknown|]. intros pre out post (-> & -> & ->). split; [done|].
    exists (selected_rows where_ schema (map_to_list rows)). done.
Qed.

Lemma closes_sorted : closes reading (Op := SortedOp).
Proof. apply closes_sum; [apply closes_filtered|apply closes_sort]. Qed.

(** ** Projection and LIMIT *)

Definition limited (limit : option Z) (out : list Tuple) : list Tuple :=
  match limit with None => out | Some n => take (Z.to_nat n) out end.

Abbreviation FinalOp := (ProjectOperator SortedOp + LimitOperator (ProjectOperator SortedOp))%type.

Lemma ordered_wide order_by l out e :
  l ≡ₚ selected_rows where_ schema (map_to_list rows) → ordered order_by (tuple_of <$> l) out e →
  wide schema out ∧ (length out ≤ size rows)%nat.
Proof.
  intros Hl Hor. assert (wide schema (tuple_of <$> l)) as Hw.
  { apply Forall_fmap, Forall_forall. intros r Hr. cbn. apply row_fits_length.
    destruct Hread as [[Hdb _ _] _]. apply (db_row _ _ _ _ _ _ _ Hdb Ha (selected_in l r Hl Hr)). }
  pose proof (selected_size l Hl). unfold ordered in Hor. destruct order_by as [clause|].
  - destruct (IndexOf schema _) as [col|].
    + destruct Hor as [(Hp & _) _]. unfold wide. rewrite Hp, length_fmap. done.
    + destruct Hor as [-> _]. split; [constructor|simpl; lia].
  - destruct Hor as [-> _]. by rewrite length_fmap.
Qed.

Lemma opens_final (chain : SortedOp) order_by limit indices names err :
  opens reading fuel chain (λ pre out post, pre = post ∧
    ∃ l, l ≡ₚ selected_rows where_ schema (map_to_list rows) ∧ ordered order_by (tuple_of <$> l) out post) →
  Forall (λ i, i < length schema)%nat indices →
  opens reading fuel (add_limit (mkProject chain indices names err) limit : FinalOp) (λ pre final post,
    ∃ l ts out, l ≡ₚ selected_rows where_ schema (map_to_list rows) ∧ ordered order_by (tuple_of <$> l) ts post ∧
      mapM (project_tuple indices) ts = Some out ∧ final = limited limit out).
Proof.
  intros Ho Hi. assert (opens reading fuel (mkProject chain indices names err) (λ pre out post, pre = post ∧
    ∃ l ts, l ≡ₚ selected_rows where_ schema (map_to_list rows) ∧ ordered order_by (tuple_of <$> l) ts post ∧
      mapM (project_tuple indices) ts = Some out)) as Hproj.
  { eapply opens_impl; [apply (opens_project reading fuel indices names err chain _ Ho)|].
    - intros pre ts post (_ & l & Hl & Hor). apply (project_defined indices schema); [done|]. by eapply ordered_wide.
    - intros pre out post (ts & (-> & l & Hl & Hor) & Hout). eauto 10. }
  unfold add_limit, limited. destruct limit as [n|].
  - apply opens_inr. eapply opens_impl; [apply (opens_limit reading fuel n _ _ Hproj)|].
    intros pre final post (out & post0 & (-> & l & ts & Hl & Hor & Hout) & Hlim). unfold limit_stream in Hlim.
    injection Hlim as <- Hp. exists l, ts, out. split; [done|]. split; [|done]. by destruct (_ <? n); subst post.
  - apply opens_inl. eapply opens_impl; [exact Hproj|]. intros pre out post (_ & l & ts & ? & ? & ?). eauto 10.
Qed.

Lemma closes_final : closes reading (Op := FinalOp).
Proof.
  pose proof (closes_project _ closes_sorted). apply closes_sum; [done|by apply closes_limit].
Qed.

(** ** Running *)

Lemma run_query_spec {Op} `{Operator (Database Pool) Op} (op : Op) (Q : Status → list Tuple → Status → Prop) :
  opens reading fuel op Q → closes reading (Op := Op) → (∀ pre ts post, Q pre ts post → (length ts < fuel)%nat) →
  ∃ pre ts post db', Q pre ts post ∧ reading db' ∧
    run_query fuel op db0 = Some (if status_ok post then Ok (tup_values <$> ts) else Err post, db').
Proof.
  intros Ho Hc Hl. destruct (Ho db0 Hread) as (op1 & w1 & pre & ts & post & E1 & Hw1 & Hy & HQ).
  destruct (yields_drain reading fuel op1 pre ts post [] fuel w1 Hy Hw1 (Hl _ _ _ HQ)) as (op2 & w2 & E2 & Hw2 & Hp).
  destruct (Hc op2 w2 Hw2) as (op3 & w3 & E3 & Hw3). exists pre, ts, post, w3. split; [done|]. split; [done|].
  unfold run_query, bind. rewrite E1, E2. unfold members, gets. cbn [fst]. rewrite E3. unfold ret. by rewrite Hp.
Qed.

Definition any_aggregate (items : list SelectItem) : bool := existsb (λ item, bool_decide (is_Some (item_aggregate item))) items.
Definition any_plain (items : list SelectItem) : bool := existsb (λ item, negb (bool_decide (is_Some (item_aggregate item)))) items.

Definition mixed_items : Status :=
  InvalidArgument "cannot mix aggregate and non-aggregate columns without GROUP BY (not supported)".

(** The rows of a query without aggregates; [l] are the selected rows. *)
Definition plain_result (items : list SelectItem) (order_by : option OrderByClause) (limit : option Z)
    (l : list (RecordId * Row)) (strategy : string) (r : Result QueryResult) : Prop :=
  ∃ indices names err ts e out, BuildColumnPlan schema items = Some (indices, names, err) ∧
    ordered order_by (tuple_of <$> l) ts e ∧ mapM (project_tuple indices) ts = Some out ∧
    r = if status_ok e then Ok (select_result names (tup_values <$> limited limit out) strategy) else Err e.

(** The row of a query with aggregates. *)
Definition aggregate_result (items : list SelectItem) (l : list (RecordId * Row)) (strategy : string)
    (r : Result QueryResult) : Prop :=
  ∃ names out e, BuildColumnNames items = Some names ∧
    aggregate_stream schema items (tuple_of <$> l) Status_OK = Some (out, e) ∧
    r = if status_ok e then Ok (select_result names (tup_values <$> out) strategy) else Err e.

Definition select_rows (items : list SelectItem) (order_by : option OrderByClause) (limit : option Z)
    (r : Result QueryResult) : Prop :=
  if any_aggregate items && any_plain items then r = Err mixed_items
  else ∃ l strategy, l ≡ₚ selected_rows where_ schema (map_to_list rows) ∧
    if any_aggregate items then aggregate_result items l strategy r else plain_result items order_by limit l strategy r.

Definition items_ok (items : list SelectItem) : Prop :=
  if any_aggregate items then any_plain items = true ∨ Forall aggregate_item items
  else Forall plain_item items ∨ (∃ item, items = [item] ∧ is_star item = true).

Lemma run_aggregate_spec items names (chain : FilteredOp) :
  opens reading fuel chain (yields_rows (λ l, l ≡ₚ selected_rows where_ schema (map_to_list rows))) →
  Forall aggregate_item items → (1 < fuel)%nat →
  ∃ l out e db', l ≡ₚ selected_rows where_ schema (map_to_list rows) ∧
    aggregate_stream schema items (tuple_of <$> l) Status_OK = Some (out, e) ∧ reading db' ∧
    run_query fuel (mkAggregate chain items schema names [] false Status_OK) db0 =
      Some (if status_ok e then Ok (tup_values <$> out) else Err e, db').
Proof.
  intros Ho Hi Hf.
  destruct (aggregate_runs reading fuel items schema names chain _ db0 Ho Hread) as
    (op1 & w1 & pre & ts & post & out & e & (-> & -> & l & Hl & ->) & Es & E1 & Hw1 & He); [|done|].
  { intros pre ts post (-> & -> & l & Hl & ->). split; [rewrite length_fmap; pose proof (selected_size l Hl); lia|].
    apply aggregate_defined; [done|]. by apply (ordered_wide None l _ Status_OK Hl). }
  destruct (closes_aggregate _ closes_filtered op1 w1 Hw1) as (op2 & w2 & E2 & Hw2).
  exists l, out, e, w2. split; [done|]. split; [done|]. split; [done|].
  unfold run_query. unfold bind in E1 |- *.
  destruct (Open fuel (mkAggregate chain items schema names [] false Status_OK, db0)) as [[[] st]|]; [|done].
  rewrite E1. unfold members, gets. cbn [fst]. rewrite E2. unfold ret. by rewrite He.
Qed.

Lemma ExecuteSelect_rows items order_by limit :
  items_ok items → order_comparable order_by → (1 < fuel)%nat →
  ∃ r db', ExecuteSelect fuel order items name where_ order_by limit db0 = Some (r, db') ∧ reading db' ∧
    select_rows items order_by limit r.
Proof.
  intros Hi Hcmp Hf. destruct plan_scan_spec as (scan & strategy & p & Ep & Ho & Hp & Hall).
  pose proof (opens_filtered scan p Ho Hp Hall) as Hof. pose proof Hread as [[Hdb _ _] _].
  unfold ExecuteSelect. rewrite (require_schema_spec db0 a), Ha by done. unfold select_rows, items_ok in *.
  fold (any_aggregate items). fold (any_plain items).
  destruct (any_aggregate items) eqn:Eagg; [destruct (any_plain items) eqn:Epl|]; cbn [andb].
  - by eexists _, db0.
  - destruct Hi as [|Hi]; [done|]. unfold bind at 1. rewrite Ep. cbn [fst snd].
    assert (is_Some (BuildColumnNames items)) as [names En].
    { apply mapM_is_Some_2. eapply Forall_impl; [exact Hi|]. intros item (f & Hif & _). unfold compose, item_name. rewrite Hif. cbn. eauto. }
    unfold AggregateOperator_new. rewrite En. cbn [mbind option_bind].
    destruct (run_aggregate_spec items names (add_filter scan where_ schema) Hof Hi Hf) as (l & out & e & db' & Hl & Es & Hr & E).
    unfold rbind, bind. rewrite E. cbn [agg_column_names_].
    exists (if status_ok e then Ok (select_result names (tup_values <$> out) strategy) else Err e), db'.
    split; [by destruct (status_ok e)|]. split; [done|]. exists l, strategy. split; [done|].
    by exists names, out, e.
  - unfold bind at 1. rewrite Ep. cbn [fst snd]. unfold ProjectOperator_new.
    destruct (plan_defined schema items Hi) as [[[indices names] err] Epl]. rewrite Epl. cbn [mbind option_bind].
    pose proof (opens_sorted (add_filter scan where_ schema) order_by Hcmp Hof) as Hos.
    destruct (run_query_spec _ _ (opens_final _ order_by limit indices names err Hos (BuildColumnPlan_bound _ _ _ _ _ Epl)) closes_final)
      as (pre & final & post & db' & (l & ts & out & Hl & Hor & Hout & ->) & Hr & E).
    { intros pre final post (l & ts & out & Hl & Hor & Hout & ->). destruct (ordered_wide _ _ _ _ Hl Hor) as [_ Hlen].
      apply length_mapM in Hout. unfold limited. destruct limit; rewrite ?length_take; lia. }
    unfold rbind, bind. rewrite E. cbn [project_column_names_].
    exists (if status_ok post then Ok (select_result names (tup_values <$> limited limit out) strategy) else Err post), db'.
    split; [by destruct (status_ok post)|]. split; [done|]. exists l, strategy. split; [done|].
    by exists indices, names, err, ts, post, out.
Qed.
End select.
