(* ===== verification/DdlSpec.v ===== *)
(** * What the statements that change the catalog do

    CREATE INDEX fills a new tree with the entries of the rows that are there;
    the others add and remove names.  All keep the database well formed; a
    table whose name an index of a dropped table still has must not be
    created. *)

From stdpp Require Import gmap pretty.
From S2P Require Import Prelude Util Value RecordCodec PageManager PageStore HeapFile Catalog CatalogSpec TableManager.
From S2P Require Import TableSpec TableTheorems BPlusNode BPlusTree BPlusTreeSpec BPlusTreeOps BPlusTreeSearch BPlusTreeTheorems.
From S2P Require Import Database Ast ExprEval Operators Scans Executor IndexSpec ExecutorSpec.

(** The directory of indexes: the table and the column of each. *)
Abbreviation Directory := (gmap string (string * string)).

Section ddl.
Context {Pool : Type} `{PageStoreSpec Pool}.
Implicit Types (s : Pool) (db : Database Pool) (a : Db) (ixs : gmap string IndexMetadata).

(** ** New trees *)

Lemma trees_extend s s' ixs trees :
  trees_wf s ixs trees → ps_idle s' → 2 < ps_avail s' → ps_count s ≤ ps_count s' →
  (∀ q, 1 ≤ q < ps_count s → ps_view s' q = ps_view s q) → trees_wf s' ixs trees.
Proof.
  intros Hwf Hi Ha Hc Hv. split; try done; try apply Hwf. intros name meta Hm.
  destruct (tr_tree _ _ _ Hwf _ _ Hm) as (es & ps & Ht & Hix). exists es, ps. split; [done|].
  eapply index_frame; [done|lia|]. intros p Hp. apply Hv. by eapply index_pages.
Qed.

(** A tree on pages that are new to [s] gets a name. *)
Lemma trees_add s s' ixs trees name meta es ps :
  trees_wf s ixs trees → trees_wf s' ixs trees → ixs !! name = None → index_name meta = name →
  index_at s' (index_meta_page_id meta) es ps → (∀ p, p ∈ index_meta_page_id meta :: ps → ps_count s ≤ p) →
  trees_wf s' (<[name := meta]> ixs) (<[name := (es, ps)]> trees).
Proof.
  intros Hwf Hwf' Hn Hname Hix Hnew.
  assert (∀ n2 m2 t2, ixs !! n2 = Some m2 → trees !! n2 = Some t2 → ∀ p, p ∈ index_meta_page_id m2 :: t2.2 → p < ps_count s) as Hold.
  { intros n2 m2 t2 Hm2 Ht2 p Hp. destruct (tr_tree _ _ _ Hwf _ _ Hm2) as (es2 & ps2 & Ht2' & Hix2). simplify_eq.
    by eapply index_pages. }
  split; [apply Hwf'|apply Hwf'| | |].
  - intros n2 m2 [[<- <-]|[_ Hm2]]%lookup_insert_Some; [done|]. by apply (tr_name _ _ _ Hwf).
  - intros n2 m2 [[<- <-]|[Hne Hm2]]%lookup_insert_Some; [rewrite lookup_insert_eq; eauto|].
    rewrite lookup_insert_ne by done. by apply (tr_tree _ _ _ Hwf').
  - intros n1 n2 m1 m2 t1 t2 Hne [[<- <-]|[Hn1 Hm1]]%lookup_insert_Some [[<- <-]|[Hn2 Hm2]]%lookup_insert_Some.
    + done.
    + rewrite lookup_insert_eq, lookup_insert_ne by done. intros [= <-] Ht2 p Hp1 Hp2.
      pose proof (Hold _ _ _ Hm2 Ht2 p Hp2). pose proof (Hnew p Hp1). lia.
    + rewrite lookup_insert_eq, lookup_insert_ne by done. intros Ht1 [= <-] p Hp1 Hp2.
      pose proof (Hold _ _ _ Hm1 Ht1 p Hp1). pose proof (Hnew p Hp2). lia.
    + rewrite !lookup_insert_ne by done. by apply (tr_disjoint _ _ _ Hwf').
Qed.

(** The visitor of CREATE INDEX, over the rows. *)
Lemma index_rows_spec fuel tree col l : ∀ s es ps,
  index_at s tree es ps → ps_idle s → 2 < ps_avail s →
  Forall (λ r, is_Some (r.2 !! col) ∧ ∀ e, row_entry col r = Some e → entry_valid e) l →
  (∀ k, Z.of_nat (length (has_key k (es ++ omap (row_entry col) l))) < kLeafMaxKeys) →
  ps_count s + kMaxGrowth * Z.of_nat (length l) < 2 ^ 31 → ps_count s + kMaxGrowth * Z.of_nat (length l) ≤ Z.of_nat fuel →
  ∃ s' es' ps', fold_left (λ acc '(rid, values), index_row fuel tree col rid values acc) l (Some s) = Some s' ∧
    index_at s' tree es' ps' ∧ es' ≡ₚ es ++ omap (row_entry col) l ∧
    grown s s' (tree :: ps) (tree :: ps') (kMaxGrowth * Z.of_nat (length l)).
Proof.
  induction l as [|[rid row] l IH]; intros s es ps Hix Hi Hav Hl Hd Hc Hf.
  { exists s, es, ps. split; [done|]. split; [done|]. split; [cbn; by rewrite app_nil_r|].
    eapply grown_weaken; [|apply grown_same]; [cbn; lia|by apply same_store_refl|]. by destruct Hix as (_ & ? & _). }
  apply Forall_cons in Hl as [[[v Hv] He] Hl]. cbn [snd] in Hv. cbn [length] in Hc, Hf. rewrite Nat2Z.inj_succ, Z.mul_succ_r in Hc, Hf.
  assert (0 ≤ kMaxGrowth) by done. cbn [fold_left index_row mbind option_bind]. rewrite Hv. cbn [mbind option_bind].
  rewrite omap_option_list in Hd |- *. cbn [length]. rewrite Nat2Z.inj_succ, Z.mul_succ_r.
  assert (row_entry col (rid, row) = (λ k, (k, rid)) <$> ExtractInt64Key v) as Hre.
  { unfold row_entry, row_key. cbn [fst snd]. by rewrite Hv. }
  rewrite Hre in He, Hd |- *.
  destruct (ExtractInt64Key v) as [key|]; cbn [fmap option_fmap option_map] in *.
  - change (option_list (Some (key, rid))) with [(key, rid)] in *. cbn [app] in *.
    destruct (Insert_spec fuel s tree key rid es ps Hix) as (s1 & ps1 & E1 & Hix1 & Hg1); [|by apply He|done|done|lia|lia|].
    { intros k. specialize (Hd k). rewrite has_key_app, length_app in Hd. unfold has_key in Hd. lia. }
    rewrite E1. cbn [fmap option_fmap option_map snd]. destruct Hg1 as [Hi1 Ha1 Hc1 Hn1 Hp1 Hr1] eqn:Eg. clear Eg.
    destruct (IH s1 (entries_insert key rid es) ps1 Hix1 Hi1) as (s' & es' & ps' & E & Hix' & Hes' & Hg'); [lia|done| |lia|lia|].
    { intros k. specialize (Hd k). unfold has_key in *. rewrite entries_insert_perm. by rewrite <- Permutation_middle in Hd. }
    exists s', es', ps'. split; [done|]. split; [done|]. split.
    + rewrite Hes', entries_insert_perm. by rewrite <- Permutation_middle.
    + rewrite Z.add_comm. eapply grown_trans; [|exact Hg']. by split.
  - destruct (IH s es ps Hix Hi Hav Hl) as (s' & es' & ps' & E & Hix' & Hes' & Hg'); [exact Hd|lia|lia|].
    exists s', es', ps'. split; [done|]. split; [done|]. split; [done|]. by eapply grown_weaken; [|exact Hg']; lia.
Qed.

(** ** The statements *)

Lemma placed_same c c' : placed c → same_first c c' → placed c'.
Proof. intros [??] [??]. split; congruence. Qed.

Abbreviation db_indexes db := (indexes_ (catalog (table_manager_ db)).2).

(** What an index is on. *)
Definition target_of (meta : IndexMetadata) : string * string := (index_table_name meta, index_column_name meta).
Definition directory db : Directory := target_of <$> db_indexes db.

(** No index has the name of a missing table. *)
Definition unindexed (d : Directory) (name : string) : Prop := ∀ nm column, d !! nm ≠ Some (name, column).

Definition create_table_stmt (name : string) (columns : list Column) (a : Db) (r : Result QueryResult) (a' : Db) : Prop :=
  ∃ st, create_effect name columns a st a' ∧ r = if status_ok st then Ok (done_result "CREATE TABLE") else Err st.

Lemma ExecuteCreateTable_spec fuel name columns db a :
  db_wf db a → db_room fuel 1 db → columns ≠ [] → Forall column_wf columns →
  (a !! name = None → unindexed (directory db) name) →
  ∃ r db' a', ExecuteCreateTable fuel name columns db = Some (r, db') ∧ create_table_stmt name columns a r a' ∧
    db_wf db' a' ∧ directory db' = directory db.
Proof.
  intros [Hdb (trees & Htr & Hst) Hpl] Hroom Hne Hcols Hun.
  destruct (CreateTable_db fuel (table_manager_ db) a name columns Hdb) as (st & t' & a' & E & Heff & Hdb' & _ & Hix & _ & Hfirst);
    [by apply (db_room_tm fuel 1)|done|].
  destruct db as [t s]. cbn [table_manager_ index_buffer_pool_] in *.
  assert (in_step a' (indexes_ (catalog t).2) trees) as Hst'.
  { unfold create_effect in Heff. destruct (a !! name) as [[schema rows]|] eqn:Ha; [by destruct Heff as [_ ->]|].
    repeat (case_decide; [by destruct Heff as [_ ->]|]). destruct Heff as [_ ->].
    intros nm meta es ps schema rows Hm Ht. destruct (decide (index_table_name meta = name)) as [Hn|Hn].
    - destruct (Hun eq_refl nm (index_column_name meta)). unfold directory. cbn [table_manager_]. rewrite lookup_fmap, Hm.
      cbn. unfold target_of. by rewrite Hn.
    - rewrite lookup_insert_ne by (by apply not_eq_sym). by apply (Hst nm meta es ps). }
  eexists (if status_ok st then Ok (done_result "CREATE TABLE") else Err st), (mkDatabase t' s), a'.
  unfold ExecuteCreateTable, rbind, require_ok, bind, on_tables. cbn [table_manager_ index_buffer_pool_]. rewrite E.
  split; [by destruct (status_ok st)|]. split; [by exists st|]. split.
  - eapply db_wf_intro; rewrite ?Hix; try done. by eapply placed_same.
  - unfold directory. cbn [table_manager_]. by rewrite Hix.
Qed.

Definition drop_table_stmt (name : string) (a : Db) (r : Result QueryResult) (a' : Db) : Prop :=
  a' = delete name a ∧
  r = match a !! name with
      | Some _ => Ok (done_result "DROP TABLE")
      | None => Err (NotFound ("DropTable: table '" +:+ name +:+ "' does not exist"))
      end.

Lemma ExecuteDropTable_spec name db a :
  db_wf db a →
  ∃ r db' a', ExecuteDropTable name db = Some (r, db') ∧ drop_table_stmt name a r a' ∧ db_wf db' a' ∧
    directory db' = directory db.
Proof.
  intros [Hdb (trees & Htr & Hst) Hpl].
  destruct (DropTable_db (table_manager_ db) a name Hdb) as (st & t' & E & Hs & Hdb' & _ & _ & Hix & _ & Hfirst).
  cbn in Hs. destruct Hs as [[= ->] _]. destruct db as [t s]. cbn [table_manager_ index_buffer_pool_] in *.
  exists match a !! name with
         | Some _ => Ok (done_result "DROP TABLE")
         | None => Err (NotFound ("DropTable: table '" +:+ name +:+ "' does not exist"))
         end, (mkDatabase t' s), (delete name a).
  unfold ExecuteDropTable, rbind, require_ok, bind, on_tables. cbn [table_manager_ index_buffer_pool_]. rewrite E.
  split; [by destruct (a !! name)|]. split; [done|]. split.
  - eapply (db_wf_intro _ _ _ trees); rewrite ?Hix; try done; [|by eapply placed_same].
    intros nm meta es ps schema rows Hm Ht [_ Hd]%lookup_delete_Some. by apply (Hst nm meta es ps).
  - unfold directory. cbn [table_manager_]. by rewrite Hix.
Qed.

Definition drop_index_stmt (iname : string) (d : Directory) (r : Result QueryResult) (d' : Directory) : Prop :=
  d' = delete iname d ∧
  r = match d !! iname with
      | Some _ => Ok (done_result "DROP INDEX")
      | None => Err (NotFound ("DropIndex: index '" +:+ iname +:+ "' does not exist"))
      end.

Lemma trees_remove s ixs trees name : trees_wf s ixs trees → trees_wf s (delete name ixs) trees.
Proof.
  intros [Hi Ha Hn Ht Hd]. split; try done.
  - intros nm meta [_ Hm]%lookup_delete_Some. by apply Hn.
  - intros nm meta [_ Hm]%lookup_delete_Some. by apply Ht.
  - intros n1 n2 m1 m2 t1 t2 Hne [_ Hm1]%lookup_delete_Some [_ Hm2]%lookup_delete_Some. by apply (Hd n1 n2).
Qed.

Lemma ExecuteDropIndex_spec iname db a :
  db_wf db a →
  ∃ r db', ExecuteDropIndex iname db = Some (r, db') ∧ drop_index_stmt iname (directory db) r (directory db') ∧ db_wf db' a.
Proof.
  intros [Hdb (trees & Htr & Hst) Hpl]. pose proof Hdb as (chains & Hwf & _). destruct (tw_catalog _ _ Hwf) as (tc & ic & Hcat).
  destruct db as [[d [cs c] o] s]. cbn [table_manager_ index_buffer_pool_ catalog fst snd] in *.
  destruct (DropIndex_spec cs c tc ic iname Hcat) as (cs' & c' & E & (Hcat' & _ & _ & _ & Hfirst) & Hix & Htab & _).
  exists match indexes_ c !! iname with
         | Some _ => Ok (done_result "DROP INDEX")
         | None => Err (NotFound ("DropIndex: index '" +:+ iname +:+ "' does not exist"))
         end, (mkDatabase (mkTables d (cs', c') o) s).
  unfold ExecuteDropIndex, rbind, require_ok, bind, on_db_catalog, on_tables, on_catalog.
  cbn [table_manager_ index_buffer_pool_ catalog fst snd data_pool open_tables_]. rewrite E.
  split; [by destruct (indexes_ c !! iname)|]. split.
  - unfold drop_index_stmt, directory. cbn [table_manager_ catalog snd]. rewrite Hix, fmap_delete. split; [done|].
    rewrite lookup_fmap. by destruct (indexes_ c !! iname).
  - eapply (db_wf_intro _ _ _ trees); cbn [catalog snd]; rewrite ?Hix; [| | |by eapply placed_same].
    + apply (db_at_catalog (mkTables d (cs, c) o) a cs' c'); [done|by eexists _, _|done].
    + by apply trees_remove.
    + intros nm meta es ps schema rows [_ Hm]%lookup_delete_Some. by apply (Hst nm meta es ps).
Qed.

(** ** CREATE INDEX *)

Definition index_size (iname table column : string) : Z :=
  blen (EncodeIndexMetadata (mkIndex 0 iname table column 0 no_rid)).

Lemma index_size_any id iname table column page rid :
  blen (EncodeIndexMetadata (mkIndex id iname table column page rid)) = index_size iname table column.
Proof.
  unfold index_size. rewrite !EncodeIndexMetadata_enc. unfold enc_index.
  cbn [index_id index_name index_table_name index_column_name index_meta_page_id]. by rewrite !blen_app, !blen_le_split.
Qed.

Definition create_index_stmt (iname table column : string) (a : Db) (d : Directory) (r : Result QueryResult)
    (d' : Directory) : Prop :=
  match a !! table with
  | None => r = Err (no_such_table table) ∧ d' = d
  | Some (schema, _) =>
      match IndexOf schema column ≫= λ col, schema !! col with
      | None => r = Err (InvalidArgument ("unknown column '" +:+ column +:+ "' in CREATE INDEX")) ∧ d' = d
      | Some c =>
          if negb (is_indexable (col_type c)) then
            r = Err (InvalidArgument ("index only supported on INT/BIGINT columns in this implementation, column '"
              +:+ column +:+ "' is " +:+ ColumnTypeName (col_type c))) ∧ d' = d
          else match d !! iname with
          | Some _ => r = Err (AlreadyExists ("CreateIndex: index '" +:+ iname +:+ "' already exists")) ∧ d' = d
          | None =>
              if decide (65535 < index_size iname table column) then
                r = Err (InvalidArgument "CreateIndex: encoded metadata too large") ∧ d' = d
              else if decide (max_record < index_size iname table column) then
                r = Err (OutOfSpace "InsertRecord: record too large for an empty page") ∧ d' = d
              else r = Ok (done_result "CREATE INDEX") ∧ d' = <[iname := (table, column)]> d
          end
      end
  end.

(** The cost: two pages of the new tree, an insertion for each row, a catalog
    record. *)
Definition index_cost (rows : Rows) : Z := 2 + kMaxGrowth * Z.of_nat (size rows).

(** Fewer than [kLeafMaxKeys] rows have the same key. *)
Definition indexable_rows (a : Db) (table column : string) : Prop :=
  ∀ schema rows col k, a !! table = Some (schema, rows) → IndexOf schema column = Some col →
    key_count col k rows < kLeafMaxKeys.

(** The new tree, filled by the scan. *)
Lemma fill_index_spec fuel table schema rows col c t s trees a :
  db_at t a → trees_wf s (indexes_ (catalog t).2) trees → a !! table = Some (schema, rows) →
  schema !! col = Some c → (∀ k, key_count col k rows < kLeafMaxKeys) → db_room fuel (index_cost rows) (mkDatabase t s) →
  ∃ s1 t' s' es ps, on_index_pool (BPlusTree_new kInvalidPageId) (mkDatabase t s) = Some (ps_count s, mkDatabase t s1) ∧
    scan_into_index fuel table (ps_count s) col (mkDatabase t s1) = Some (Status_OK, mkDatabase t' s') ∧
    db_at t' a ∧ catalog t' = catalog t ∧ trees_wf s' (indexes_ (catalog t).2) trees ∧
    index_at s' (ps_count s) es ps ∧ es ≡ₚ entries_of col rows ∧ (∀ p, p ∈ ps_count s :: ps → ps_count s ≤ p).
Proof.
  intros Hdb Htr Ha Hsc Hd Hroom. pose proof Hroom as [_ _ Hri _ _ _ _ Hrf]. cbn [index_buffer_pool_] in Hri, Hrf.
  unfold index_cost in Hri, Hrf, Hroom. assert (0 ≤ kMaxGrowth) as Hg0 by done.
  pose proof (tr_idle _ _ _ Htr) as Hi. pose proof (tr_avail _ _ _ Htr) as Hav.
  destruct (BPlusTree_new_spec s Hi) as (s1 & E1 & Hix1 & Hi1 & Ha1 & Hc1 & Hv1); [lia..|].
  destruct (Scan_db fuel t a table (index_row fuel (ps_count s) col) (Some s1) Hdb) as
    (st & l & t' & E2 & Hs & Hdb' & Hcat & _); [apply (db_room_tm fuel _ _ Hroom); lia|].
  cbn in Hs. rewrite Ha in Hs. destruct Hs as (_ & l' & [= -> <-] & Hl).
  assert (length l = size rows) as Hlen by (by rewrite Hl, length_map_to_list).
  assert (omap (row_entry col) l ≡ₚ entries_of col rows) as Hes by (unfold entries_of; by rewrite Hl).
  destruct (index_rows_spec fuel (ps_count s) col l s1 [] [ps_count s + 1] Hix1 Hi1) as
    (s' & es & ps & E3 & Hix & Hperm & [Hi' Ha' Hc' _ Hp' Hr']).
  { lia. }
  { apply Forall_forall. intros [rid row] Hin. rewrite Hl in Hin. apply elem_of_map_to_list in Hin.
    destruct (db_row _ _ _ _ _ _ _ Hdb Ha Hin) as (Hf & Hv & Hr1 & Hr2). cbn [fst snd]. split.
    - apply lookup_lt_is_Some. rewrite (row_fits_length _ _ Hf). by eapply lookup_lt_Some.
    - intros e. unfold row_entry. cbn [fst snd]. intros (k & Hk & ->)%fmap_Some. split; [by eapply row_key_valid|done]. }
  { intros k. cbn [app]. specialize (Hd k). unfold key_count, has_key in *. by rewrite Hes. }
  { rewrite Hlen. lia. }
  { rewrite Hlen. lia. }
  exists s1, t', s', es, ps. split; [unfold on_index_pool; cbn [index_buffer_pool_]; by rewrite E1|]. split.
  { unfold scan_into_index. cbn [index_buffer_pool_ table_manager_]. rewrite E2. by rewrite E3. }
  split; [done|]. split; [done|].
  assert (∀ p, p ∈ ps_count s :: ps → ps_count s ≤ p) as Hpages.
  { intros p [Hin|?]%Hp'; [|lia]. apply elem_of_cons in Hin as [->|Hin%list_elem_of_singleton]; lia. }
  split; [|split; [done|split; [|done]]].
  - apply (trees_extend s); [done|done|lia|lia|]. intros q Hq. rewrite Hr', Hv1; [done|done|lia|].
    intros [->|?%list_elem_of_singleton]%elem_of_cons; lia.
  - rewrite Hperm. cbn [app]. done.
Qed.

Lemma ExecuteCreateIndex_spec fuel iname table column db a :
  db_wf db a → db_room fuel 0 db → indexable_rows a table column →
  (∀ schema rows, a !! table = Some (schema, rows) → db_room fuel (index_cost rows) db) →
  ∃ r db', ExecuteCreateIndex fuel iname table column db = Some (r, db') ∧
    create_index_stmt iname table column a (directory db) r (directory db') ∧ db_wf db' a.
Proof.
  intros Hwf Hroom0 Hrows Hroom. unfold ExecuteCreateIndex. rewrite (require_schema_spec db a) by apply Hwf. unfold create_index_stmt.
  destruct (a !! table) as [[schema rows]|] eqn:Ha; [|by eexists _, db].
  pose proof (IndexOf_spec schema column) as Hs. destruct (IndexOf schema column) as [col|] eqn:Hci; [|by eexists _, db].
  destruct Hs as (c & Hsc & _). cbn [mbind option_bind]. rewrite Hsc.
  destruct (is_indexable (col_type c)) eqn:Hty; cbn [negb]; [|by eexists _, db].
  specialize (Hroom _ _ eq_refl). destruct Hwf as [Hdb (trees & Htr & Hst) Hpl].
  destruct db as [t s]. cbn [table_manager_ index_buffer_pool_] in *.
  destruct (fill_index_spec fuel table schema rows col c t s trees a) as
    (s1 & t' & s' & es & ps & E1 & E2 & Hdb' & Hcat & Htr' & Hix & Hes & Hpages); try done.
  { intros k. by eapply Hrows. }
  unfold bind at 1. rewrite E1. unfold rbind at 1, require_ok, bind at 1 2. rewrite E2. change (status_ok Status_OK) with true. cbn [negb].
  unfold rret at 1, ret at 1.
  pose proof Hdb' as (chains & Hwf' & _). destruct (tw_catalog _ _ Hwf') as (tc & ic & Hcwf).
  destruct t' as [d' [cs cm] o']. cbn [catalog fst snd data_pool open_tables_] in *. destruct t as [d [cs0 cm0] o].
  cbn [catalog] in Hcat. injection Hcat as <- <-. cbn [catalog snd] in Htr, Hst, Htr'.
  assert (length ic ≤ fuel)%nat as Hfu.
  { destruct (cw_indexes _ _ _ Hcwf) as [[_ Hch Hnd _] _ _ _]. cbn in *.
    assert (Z.of_nat (length ic) ≤ Z.max 0 (ps_count cs - 1)).
    { apply NoDup_range_length; [done|]. intros q Hq. by eapply is_chain_in. }
    destruct Hroom0 as [_ _ _ _ _ _ Hfc _]. cbn in Hfc. lia. }
  destruct Hroom0 as [_ Hrc Hri _ Hni _ _ _]. cbn [table_manager_ catalog fst snd index_buffer_pool_] in Hrc, Hri, Hni.
  pose proof (ps_count_range s (idle_wf _ (tr_idle _ _ _ Htr))) as Hcr.
  destruct (CreateIndex_spec fuel cs cm tc ic iname table column (ps_count s) Hcwf Hfu) as
    (r & cs' & cm' & ic' & E3 & (Hcwf' & _ & _ & _ & Hfirst) & Htab & _ & Hres); [lia|lia|unfold in_i32; lia|].
  unfold rbind, bind, on_db_catalog, on_tables, on_catalog. cbn [table_manager_ index_buffer_pool_ catalog fst snd data_pool open_tables_].
  rewrite E3. set (db' := mkDatabase (mkTables d' (cs', cm') o') s').
  assert (db_at (mkTables d' (cs', cm') o') a) as Hdb2.
  { apply (db_at_catalog (mkTables d' (cs, cm) o') a cs' cm'); [done|by eexists _, _|done]. }
  assert (indexes_ cm' = indexes_ cm → db_wf db' a ∧ directory db' = directory (mkDatabase (mkTables d (cs, cm) o) s)) as Hsame.
  { intros Hix'. split; [|unfold directory; cbn; by rewrite Hix'].
    eapply (db_wf_intro _ _ _ trees); cbn [catalog snd]; rewrite ?Hix'; try done. by eapply placed_same. }
  unfold directory at 1. cbn [table_manager_ catalog snd]. rewrite lookup_fmap.
  destruct (indexes_ cm !! iname) as [m0|] eqn:Hin; cbn [fmap option_fmap option_map].
  { destruct Hres as [-> ->]. destruct Hsame as [? Hdir]; [done|]. eexists _, db'. split; [reflexivity|]. by rewrite Hdir. }
  destruct Hres as (_ & Hcr' & Hix'). unfold create_result in Hcr'. cbn [ce_encode index_entry] in Hcr'. rewrite index_size_any in Hcr'.
  case_decide as H65; [|case_decide as Hpg].
  - subst r. destruct (Hsame Hix') as [? Hdir]. eexists _, db'. split; [reflexivity|]. by rewrite Hdir.
  - subst r. destruct (Hsame Hix') as [? Hdir]. eexists _, db'. split; [reflexivity|]. by rewrite Hdir.
  - destruct Hcr' as [rid ->]. eexists _, db'. split; [reflexivity|]. cbn [ce_set_rid index_entry] in Hix'.
    set (meta := set_rid_index _ _) in Hix'. split.
    + split; [done|]. unfold directory. cbn [db' table_manager_ catalog snd]. rewrite Hix', fmap_insert. done.
    + eapply (db_wf_intro _ _ _ (<[iname := (es, ps)]> trees)); cbn [catalog snd]; rewrite ?Hix';
        [done|by apply (trees_add s)| |by eapply placed_same].
      intros nm meta2 es2 ps2 schema2 rows2 [[<- <-]|[Hne Hm2]]%lookup_insert_Some.
      * rewrite lookup_insert_eq. intros [= <- <-]. cbn [meta set_rid_index index_table_name index_column_name].
        rewrite Ha. intros [= <- <-]. exists col, c. done.
      * rewrite lookup_insert_ne by done. by apply (Hst nm meta2).
Qed.
End ddl.
