(* ===== verification/ExecutorTheorems.v ===== *)
(** * The executor implements SQL on a map of tables

    [sql_step] says what a statement returns and makes of the tables and of the
    directory of indexes.  Queries and changes are described on the tables
    alone: an index only shows in the reported strategy. *)

From stdpp Require Import gmap pretty sorting.
From S2P Require Import Prelude Util Value RecordCodec PageManager PageStore BufferPool HeapFile Catalog CatalogSpec TableManager.
From S2P Require Import TableSpec TableTheorems BPlusNode BPlusTree BPlusTreeSpec BPlusTreeOps BPlusTreeSearch BPlusTreeTheorems.
From S2P Require Import Database Ast ExprEval Doubles Operators OperatorSpec SortSpec Scans Executor IndexSpec ExecutorSpec.
From S2P Require Import SelectSpec DdlSpec.

(** ** The specification *)

Definition sql_step (stmt : Statement) (a : Db) (d : Directory) (r : Result QueryResult) (a' : Db) (d' : Directory) : Prop :=
  match stmt with
  | CreateTableStmt name columns => create_table_stmt name columns a r a' ∧ d' = d
  | DropTableStmt name => drop_table_stmt name a r a' ∧ d' = d
  | CreateIndexStmt iname table column => create_index_stmt iname table column a d r d' ∧ a' = a
  | DropIndexStmt iname => drop_index_stmt iname d r d' ∧ a' = a
  | InsertStmt name columns input => insert_stmt name columns input a r a' ∧ d' = d
  | UpdateStmt name assignments where_ => update_stmt name assignments where_ a r a' ∧ d' = d
  | DeleteStmt name where_ => delete_stmt name where_ a r a' ∧ d' = d
  | SelectStmt items name where_ order_by limit =>
      a' = a ∧ d' = d ∧
      match a !! name with
      | None => r = Err (no_such_table name)
      | Some (schema, rows) => select_rows schema rows where_ items order_by limit r
      end
  end.

Section theorems.
Context {Pool : Type} `{PageStoreSpec Pool}.
Implicit Types (db : Database Pool) (a : Db).

Abbreviation db_indexes db := (indexes_ (catalog (table_manager_ db)).2).

(** What a statement needs: literals of their types' ranges, room in the files
    for what it adds, fuel for what it reads; keys of indexed columns below the
    duplicates a tree can hold; for UPDATE, rows that fit a page; for SELECT, a
    condition that evaluates, conjuncts on indexed columns that the index
    answers, no NaN in the sort column. *)
Definition stmt_ok (fuel : nat) (order : list string) (stmt : Statement) db a : Prop :=
  match stmt with
  | CreateTableStmt name columns =>
      db_room fuel 1 db ∧ columns ≠ [] ∧ Forall column_wf columns ∧ (a !! name = None → unindexed (directory db) name)
  | DropTableStmt _ | DropIndexStmt _ => True
  | CreateIndexStmt iname table column =>
      db_room fuel 0 db ∧ indexable_rows a table column ∧
      ∀ schema rows, a !! table = Some (schema, rows) → db_room fuel (index_cost rows) db
  | InsertStmt name columns input =>
      db_room fuel (row_cost order * Z.of_nat (length input)) db ∧ Forall (Forall value_wf) input ∧
      ∀ schema rows, a !! name = Some (schema, rows) →
        dups_room (Z.of_nat (length input)) (db_indexes db) name schema rows
  | UpdateStmt name assignments where_ =>
      Forall (λ '(_, v), value_wf v) assignments ∧ update_fits (db_indexes db) name assignments where_ a ∧
      ∀ schema rows, a !! name = Some (schema, rows) → db_room fuel ((row_cost order + pass order) * Z.of_nat (size rows)) db
  | DeleteStmt name where_ =>
      ∀ schema rows, a !! name = Some (schema, rows) → db_room fuel (pass order * Z.of_nat (size rows)) db
  | SelectStmt items name where_ order_by limit =>
      ∀ schema rows, a !! name = Some (schema, rows) →
        db_room fuel 0 db ∧ (1 < fuel)%nat ∧ (size rows < fuel)%nat ∧ where_total schema rows where_ ∧
        index_exact db name schema rows where_ ∧ items_ok items ∧ order_comparable schema rows order_by
  end.

Lemma directory_same db db' :
  catalog (table_manager_ db') = catalog (table_manager_ db) → directory db' = directory db.
Proof. intros Hc. unfold directory. by rewrite Hc. Qed.

Lemma execute_step fuel order stmt db a :
  db_wf db a → complete_order order (db_indexes db) → stmt_ok fuel order stmt db a →
  ∃ r db' a', Execute fuel order stmt db = Some (r, db') ∧ sql_step stmt a (directory db) r a' (directory db') ∧ db_wf db' a'.
Proof.
  intros Hwf Hord Hok.
  destruct stmt as [name columns|name|iname table column|iname|name columns input|name assignments where_|name where_|items name where_ order_by limit];
    cbn [stmt_ok Execute sql_step] in *.
  - destruct Hok as (Hroom & Hne & Hc & Hun).
    destruct (ExecuteCreateTable_spec fuel name columns db a) as (r & db' & a' & ? & ? & ? & ?); try done. by exists r, db', a'.
  - destruct (ExecuteDropTable_spec name db a Hwf) as (r & db' & a' & ? & ? & ? & ?). by exists r, db', a'.
  - destruct Hok as (Hr0 & Hrows & Hroom).
    destruct (ExecuteCreateIndex_spec fuel iname table column db a) as (r & db' & ? & ? & ?); try done. by exists r, db', a.
  - destruct (ExecuteDropIndex_spec iname db a Hwf) as (r & db' & ? & ? & ?). by exists r, db', a.
  - destruct Hok as (Hroom & Hv & Hd).
    destruct (ExecuteInsert_spec fuel order name columns input db a) as (r & db' & a' & ? & ? & ? & Hc & _); try done.
    exists r, db', a'. rewrite (directory_same db db') by done. done.
  - destruct Hok as (Hv & Hfit & Hroom).
    destruct (ExecuteUpdate_spec fuel order name assignments where_ db a) as (r & db' & a' & ? & ? & ? & Hc); try done.
    exists r, db', a'. rewrite (directory_same db db') by done. done.
  - destruct (ExecuteDelete_spec fuel order name where_ db a) as (r & db' & a' & ? & ? & ? & Hc); try done.
    exists r, db', a'. rewrite (directory_same db db') by done. done.
  - destruct (a !! name) as [[schema rows]|] eqn:Ha.
    + destruct (Hok _ _ eq_refl) as (Hroom & Hf & Hsz & Htot & Hex & Hi & Hcmp).
      destruct (ExecuteSelect_rows fuel a db Hroom name schema rows where_ order Ha Hord Htot Hex) with items order_by limit
        as (r & db' & E & [Hwf' [Hc _]] & Hs); try done.
      { split; [done|]. by apply db_rows_refl. }
      exists r, db', a. rewrite (directory_same db db') by done. done.
    + exists (Err (no_such_table name)), db, a. split; [|done].
      unfold ExecuteSelect. rewrite (require_schema_spec db a) by apply Hwf. by rewrite Ha.
Qed.
End theorems.
