(* ===== verification/DatabaseSpec.v ===== *)
(** * Opening and reopening a database

    A new database is well formed and empty; after [FlushAll] the three files
    hold it, and a database opened on them has the same tables and indexes. *)

From stdpp Require Import gmap pretty.
From S2P Require Import Prelude Util Value RecordCodec PageManager PageStore BufferPool HeapFile Catalog CatalogSpec TableManager.
From S2P Require Import TableSpec TableTheorems BPlusNode BPlusTree BPlusTreeSpec BPlusTreeOps BPlusTreeSearch BPlusTreeTheorems.
From S2P Require Import Database Ast ExprEval Operators OperatorSpec Scans Executor IndexSpec ExecutorSpec SelectSpec DdlSpec ExecutorTheorems.

(** ** A new database *)

Lemma pool_over_none : ps_idle (pool_over None) ∧ ps_count (pool_over None) = 1 ∧ 2 < ps_avail (pool_over None).
Proof.
  split; [|vm_compute; done]. unfold pool_over. change (Z.to_nat kDefaultBufferPoolSize) with (S 63).
  apply BufferPool_new_idle. by split; vm_compute.
Qed.

Lemma Database_create fuel :
  ∃ db, Database_open fuel None None None = Some db ∧ db_wf db ∅ ∧ directory db = ∅.
Proof.
  destruct pool_over_none as (Hi & Hc & Hav).
  destruct (CatalogManager_create fuel (pool_over None) Hi) as (cs & c & E & Hwf & _ & Ht & Hx & _); [rewrite Hc; lia|].
  rewrite Hc in Hwf. exists (mkDatabase (mkTables (pool_over None) (cs, c) ∅) (pool_over None)). split; [|split].
  - unfold Database_open. change (DetectExistingTableCatalogFirstPage (PageManager_open None)) with kInvalidPageId.
    change (DetectExistingIndexCatalogFirstPage (PageManager_open None)) with kInvalidPageId. by rewrite E.
  - apply (db_wf_intro _ _ _ ∅); cbn [catalog snd]; rewrite ?Hx.
    + apply tm_start; [done|by eexists _, _|done].
    + split; [done|done|by intros ??|by intros ??|by intros ??????].
    + by intros ??????.
    + destruct Hwf as [[[_ Ht1 _ _] _ _ _] [[_ Hx1 _ _] _ _ _] _]. cbn [fst snd] in Ht1, Hx1.
      destruct Ht1 as [Ht1 _], Hx1 as [Hx1 _]. split; [exact Ht1|exact Hx1].
  - unfold directory. cbn [table_manager_ catalog snd]. rewrite Hx. apply fmap_empty.
Qed.

(** ** Reopening *)

Section reopen.
Context {Pool : Type} `{PageStoreSpec Pool}.

(** The tables, from a store with the same pages and a catalog that was loaded
    again; no table is open yet. *)
Lemma db_at_reopen (t : TableManager Pool) a s' cat' :
  db_at t a → ps_idle s' → ps_eqv (data_pool t) s' → (∃ tchain ichain, catalog_wf cat' tchain ichain) →
  tables_ cat'.2 = tables_ (catalog t).2 → db_at (mkTables s' cat' ∅) a.
Proof.
  intros (chains & Hwf & Ha) Hi [Hc Hv] Hcat Htab. destruct cat' as [cs' c'].
  destruct (tm_extend t chains s' cs' c') as [[Hw1 Hw2 Hw3 Hw4 Hw5 Hw6] Hof]; try done; [lia|].
  exists chains. split; [split; try done|intros name; rewrite Ha; symmetry; apply (Hof name)].
Qed.
End reopen.

Lemma restart_over bp : restart (S 63) bp = pool_over (Some (PageManager_close (page_manager_ bp))).
Proof. done. Qed.

Lemma Database_reopen fuel (db : Database BufferPool) a :
  db_wf db a → db_room fuel 0 db →
  let '(catalog_file, data_file, index_file) := Database_close (Database_FlushAll db) in
  ∃ db', Database_open fuel (Some catalog_file) (Some data_file) (Some index_file) = Some db' ∧
    db_wf db' a ∧ directory db' = directory db.
Proof.
  intros [Hdb (trees & Htr & Hst) [Hp1 Hp2]] Hroom. pose proof Hdb as (chains & Hwf & _).
  destruct (tw_catalog _ _ Hwf) as (tc & ic & Hcat). destruct db as [[d [cs c] o] s].
  cbn [table_manager_ index_buffer_pool_ catalog data_pool open_tables_ fst snd] in *.
  pose proof (hwf_idle _ _ (dw_heap _ _ _ _ (cw_tables _ _ _ Hcat))) as Hics. cbn [fst snd] in Hics.
  destruct (flush_restart 63 cs Hics) as (cs1 & E1 & Hi1 & He1).
  destruct (flush_restart 63 d (tw_idle _ _ Hwf)) as (d1 & E2 & Hi2 & He2).
  destruct (flush_restart 63 s (tr_idle _ _ _ Htr)) as (s1 & E3 & Hi3 & He3).
  unfold Database_FlushAll, Database_close. cbn [table_manager_ index_buffer_pool_ catalog data_pool open_tables_ fst snd].
  rewrite E1, E2, E3. cbn [snd page_manager_ table_manager_ index_buffer_pool_ catalog data_pool fst].
  rewrite restart_over in Hi1, He1, Hi2, He2, Hi3, He3.
  destruct (cw_tables _ _ _ Hcat) as [[_ Hct Hndt Hlt] _ _ _]. destruct (cw_indexes _ _ _ Hcat) as [[_ Hci Hndi Hli] _ _ _].
  cbn [fst snd] in *.
  assert ((length tc ≤ fuel)%nat ∧ (length ic ≤ fuel)%nat) as [Hf1 Hf2].
  { assert (∀ l p, is_chain cs p l → NoDup l → (length l ≤ fuel)%nat) as Hl; [|split; by eapply Hl].
    intros l p Hch Hnd. assert (Z.of_nat (length l) ≤ Z.max 0 (ps_count cs - 1)).
    { apply NoDup_range_length; [done|]. intros q Hq. by eapply is_chain_in. }
    pose proof (rm_fuel_catalog _ _ _ Hroom) as Hrf. cbn [table_manager_ catalog fst] in Hrf. lia. }
  destruct (CatalogManager_open fuel cs c tc ic _ Hcat Hf1 Hf2 He1 Hi1) as
    (cs2 & c2 & Eo & _ & Hcat2 & Ht2 & Hx2 & _ & _ & Hfi1 & Hfi2).
  assert (2 < ps_count cs) as Hcc.
  { destruct ic as [|q ic]; [by apply not_elem_of_nil in Hli|]. destruct Hci as (Hq & ? & _).
    unfold IndexCatalogFirstPageId, kFirstDataPageId in Hp2. lia. }
  set (cf := PageManager_close (page_manager_ cs1)) in *.
  assert (page_count_ (PageManager_open (Some cf)) = ps_count cs) as Hpc.
  { destruct He1 as [He1 _]. exact He1. }
  eexists. split; [|split].
  - unfold Database_open. unfold DetectExistingTableCatalogFirstPage, DetectExistingIndexCatalogFirstPage. rewrite Hpc.
    destruct (Z.gtb_spec (ps_count cs) 1); [|lia]. destruct (Z.gtb_spec (ps_count cs) 2); [|lia].
    rewrite Hp1, Hp2 in Eo. rewrite Eo. reflexivity.
  - apply (db_wf_intro _ _ _ trees); cbn [catalog snd]; rewrite ?Hx2; try done.
    + eapply db_at_reopen; [exact Hdb|done|done|by eexists _, _|done].
    + destruct He3 as [Hc3 Hv3]. eapply trees_extend; [exact Htr|done|vm_compute; reflexivity|lia|done].
    + split; congruence.
  - unfold directory. cbn [table_manager_ catalog snd]. by rewrite Hx2.
Qed.
