(* ===== verification/Samples.v ===== *)
(** * Sample databases

    Databases made by running statements on a new one, with what they
    represent; the theorems on databases are applied to them. *)

From stdpp Require Import gmap pretty.
From S2P Require Import Prelude Util Value RecordCodec PageManager PageStore BufferPool HeapFile Catalog CatalogSpec TableManager.
From S2P Require Import TableSpec TableTheorems BPlusNode BPlusTree BPlusTreeSpec BPlusTreeOps BPlusTreeSearch BPlusTreeTheorems.
From S2P Require Import Database Ast ExprEval Operators OperatorSpec Scans Executor IndexSpec ExecutorSpec SelectSpec DdlSpec ExecutorTheorems.
From S2P Require Import DatabaseSpec.

(** A new database after some statements, each with the order in which the
    indexes are visited. *)
Fixpoint run (fuel : nat) (stmts : list (list string * Statement)) (db : Database BufferPool) : option (Database BufferPool) :=
  match stmts with
  | [] => Some db
  | (order, stmt) :: stmts' => p ← Execute fuel order stmt db; run fuel stmts' p.2
  end.

Definition sample (fuel : nat) (stmts : list (list string * Statement)) : option (Database BufferPool) :=
  db ← Database_open fuel None None None; run fuel stmts db.

Lemma run_app fuel stmts1 stmts2 db : run fuel (stmts1 ++ stmts2) db = run fuel stmts1 db ≫= run fuel stmts2.
Proof.
  induction stmts1 as [|[order stmt] stmts1 IH] in db |- *; [done|]. cbn [app run].
  destruct (Execute fuel order stmt db) as [p|]; [|done]. cbn [mbind option_bind]. apply IH.
Qed.

Lemma sample_step fuel stmts order stmt db r db' :
  sample fuel stmts = Some db → Execute fuel order stmt db = Some (r, db') → sample fuel (stmts ++ [(order, stmt)]) = Some db'.
Proof.
  unfold sample. destruct (Database_open fuel None None None) as [db0|]; [|done]. cbn [mbind option_bind]. intros Hs E.
  rewrite run_app, Hs. cbn [mbind option_bind run]. by rewrite E.
Qed.

(** Room, by computation. *)
Definition has_room (fuel : nat) (n : Z) (db : Database BufferPool) : bool :=
  let t := table_manager_ db in
  let count := Z.max (ps_count (data_pool t)) (Z.max (ps_count (catalog t).1) (ps_count (index_buffer_pool_ db))) in
  let next := Z.max (next_table_id_ (catalog t).2) (next_index_id_ (catalog t).2) in
  (count + n <? 2 ^ 31 - 1) && (next + n <? 2 ^ 32 - 1) && (count + n <=? Z.of_nat fuel).

Lemma sample_room fuel stmts n db :
  match sample fuel stmts with Some db => has_room fuel n db | None => false end = true →
  sample fuel stmts = Some db → db_room fuel n db.
Proof. intros Hb E. rewrite E in Hb. unfold has_room in Hb. split; lia. Qed.

Lemma directory_empty db : directory (Pool := BufferPool) db = ∅ → indexes_ (catalog (table_manager_ db)).2 = ∅.
Proof. unfold directory. apply fmap_empty_inv. Qed.

Lemma complete_order_empty db : directory (Pool := BufferPool) db = ∅ → complete_order [] (indexes_ (catalog (table_manager_ db)).2).
Proof. intros ->%directory_empty. split; [constructor|]. intros name [? Hn]. by rewrite lookup_empty in Hn. Qed.

(** ** A table *)

Definition people : list Column := [mkColumn "id" Value.kInt true 255; mkColumn "name" Value.kVarchar true 20].

Definition create_people : Statement := CreateTableStmt "people" people.
Definition insert_alice : Statement := InsertStmt "people" [] [[VInt64 7; VString "alice"]].
Definition index_by_id : Statement := CreateIndexStmt "by_id" "people" "id".

Definition alice : list Value := [VInt32 7; VString "alice"].

Definition sample0 : list (list string * Statement) := [].
Definition sample1 := sample0 ++ [([], create_people)].
Definition sample2 := sample1 ++ [([], insert_alice)].
Definition sample3 := sample2 ++ [([], index_by_id)].

Lemma people_wf : Forall column_wf people.
Proof. repeat constructor; vm_compute; done. Qed.

Lemma sample0_room db : sample 200 sample0 = Some db → db_room 200 100 db.
Proof. apply sample_room. vm_compute. reflexivity. Qed.

Lemma sample1_room db : sample 200 sample1 = Some db → db_room 200 100 db.
Proof. apply sample_room. vm_compute. reflexivity. Qed.

Lemma sample2_room db : sample 200 sample2 = Some db → db_room 200 100 db.
Proof. apply sample_room. vm_compute. reflexivity. Qed.

Lemma sample3_room db : sample 200 sample3 = Some db → db_room 200 100 db.
Proof. apply sample_room. vm_compute. reflexivity. Qed.

(** ** A new database *)

Lemma sample0_open fuel : sample fuel sample0 = Database_open fuel None None None.
Proof. unfold sample. by destruct (Database_open fuel None None None). Qed.

Lemma sample0_wf fuel : ∃ db, sample fuel sample0 = Some db ∧ db_wf db ∅ ∧ directory db = ∅.
Proof. rewrite sample0_open. exact (Database_create fuel). Qed.

Lemma create_people_ok a db : directory db = ∅ → db_room 200 100 db → stmt_ok (Pool := BufferPool) 200 [] create_people db a.
Proof.
  intros Hd Hroom. split; [eapply db_room_weaken; [|exact Hroom]; lia|]. split; [done|]. split; [apply people_wf|].
  intros _ nm column. rewrite Hd, lookup_empty. done.
Qed.

(** ** With the table *)

Lemma sample1_wf : ∃ db, sample 200 sample1 = Some db ∧ db_wf db {["people" := (people, ∅)]} ∧ directory db = ∅.
Proof.
  destruct (sample0_wf 200) as (db0 & E0 & Hwf0 & Hd0). pose proof (sample0_room db0 E0) as Hroom.
  destruct (execute_step 200 [] create_people db0 ∅ Hwf0 (complete_order_empty db0 Hd0) (create_people_ok ∅ db0 Hd0 Hroom))
    as (r & db & a' & E & [(st & Heff & _) Hd] & Hwf).
  rewrite Hd0 in Hd. assert (a' = {["people" := (people, ∅)]}) as ->.
  { unfold create_effect in Heff. rewrite lookup_empty in Heff.
    assert (table_size "people" people ≤ 100) by (vm_compute; discriminate).
    rewrite !decide_False in Heff by (change max_record with 4080; lia). by destruct Heff as [_ ->]. }
  exists db. exact (conj (sample_step 200 sample0 [] create_people db0 r db E0 E) (conj Hwf Hd)).
Qed.

(** ** With a row *)

Lemma insert_alice_ok rows db :
  directory db = ∅ → db_room 200 100 db → stmt_ok (Pool := BufferPool) 200 [] insert_alice db {["people" := (people, rows)]}.
Proof.
  intros Hd Hroom. split; [eapply db_room_weaken; [|exact Hroom]; vm_compute; done|].
  split; [repeat constructor; vm_compute; done|].
  intros schema rows' _ nm meta col k Hm. by rewrite (directory_empty db Hd), lookup_empty in Hm.
Qed.

Lemma insert_alice_effect r a' :
  insert_stmt "people" [] [[VInt64 7; VString "alice"]] {["people" := (people, ∅)]} r a' →
  ∃ rid, a' = {["people" := (people, {[rid := alice]})]}.
Proof.
  unfold insert_stmt. rewrite lookup_singleton_eq. change (target_indices people []) with (Ok [0%nat; 1%nat]). cbn iota.
  intros (r1 & rows' & (r2 & rows1 & Hi & Hr) & -> & _).
  unfold insert_row_effect in Hi. rewrite decide_True in Hi by done.
  change (fill_row people [0%nat; 1%nat] [VInt64 7; VString "alice"] (replicate (length people) VNull)) with (Some (Ok alice)) in Hi.
  destruct Hi as (r3 & Hi & ->). unfold insert_effect in Hi.
  destruct (Encode people alice) as [bs|] eqn:Eb; [|vm_compute in Eb; discriminate].
  assert (blen bs ≤ 100).
  { vm_compute in Eb. injection Eb as <-. vm_compute. discriminate. }
  rewrite !decide_False in Hi by (change max_record with 4080; lia). destruct Hi as (rid & -> & _ & ->).
  destruct Hr as [_ ->]. exists rid. by rewrite insert_singleton_eq.
Qed.

Lemma sample2_wf :
  ∃ db rid, sample 200 sample2 = Some db ∧ db_wf db {["people" := (people, {[rid := alice]})]} ∧ directory db = ∅.
Proof.
  destruct sample1_wf as (db0 & E0 & Hwf0 & Hd0). pose proof (sample1_room db0 E0) as Hroom.
  destruct (execute_step 200 [] insert_alice db0 _ Hwf0 (complete_order_empty db0 Hd0) (insert_alice_ok ∅ db0 Hd0 Hroom))
    as (r & db & a' & E & [Hi Hd] & Hwf).
  rewrite Hd0 in Hd. destruct (insert_alice_effect r a' Hi) as [rid ->]. exists db, rid.
  exact (conj (sample_step 200 sample1 [] insert_alice db0 r db E0 E) (conj Hwf Hd)).
Qed.

(** ** With an index *)

Lemma people_id : IndexOf people "id" = Some 0%nat.
Proof. done. Qed.

Lemma alice_key_count rid k : key_count 0 k {[rid := alice]} ≤ 1.
Proof. rewrite <- insert_empty, key_count_insert by done. case_decide; vm_compute; discriminate. Qed.

Lemma index_by_id_ok rid db :
  db_room 200 100 db → stmt_ok (Pool := BufferPool) 200 [] index_by_id db {["people" := (people, {[rid := alice]})]}.
Proof.
  intros Hroom. split; [eapply db_room_weaken; [|exact Hroom]; lia|]. split.
  - intros schema rows col k. rewrite lookup_singleton_eq. intros [= <- <-]. rewrite people_id. intros [= <-].
    pose proof (alice_key_count rid k). assert (1 < kLeafMaxKeys) by (vm_compute; done). lia.
  - intros schema rows. rewrite lookup_singleton_eq. intros [= <- <-]. eapply db_room_weaken; [|exact Hroom].
    unfold index_cost. rewrite map_size_singleton. vm_compute. discriminate.
Qed.

Definition by_id : Directory := {["by_id" := ("people", "id")]}.

Lemma sample3_step db0 rid :
  sample 200 sample2 = Some db0 → db_wf db0 {["people" := (people, {[rid := alice]})]} → directory db0 = ∅ →
  ∃ db, sample 200 sample3 = Some db ∧ db_wf db {["people" := (people, {[rid := alice]})]} ∧ directory db = by_id.
Proof.
  intros E0 Hwf0 Hd0. pose proof (sample2_room db0 E0) as Hroom.
  destruct (execute_step 200 [] index_by_id db0 _ Hwf0 (complete_order_empty db0 Hd0) (index_by_id_ok rid db0 Hroom))
    as (r & db & a' & E & [Hi ->] & Hwf).
  exists db. refine (conj (sample_step 200 sample2 [] index_by_id db0 r db E0 E) (conj Hwf _)).
  rewrite Hd0 in Hi. unfold create_index_stmt in Hi. rewrite lookup_singleton_eq in Hi.
  change (IndexOf people "id" ≫= λ col, people !! col) with (Some (mkColumn "id" Value.kInt true 255)) in Hi.
  cbn [is_indexable col_type negb] in Hi. rewrite lookup_empty in Hi.
  assert (index_size "by_id" "people" "id" ≤ 100) by (vm_compute; discriminate).
  rewrite !decide_False in Hi by (change max_record with 4080; lia). by destruct Hi as [_ ->].
Qed.

Lemma sample3_wf :
  ∃ db rid, sample 200 sample3 = Some db ∧ db_wf db {["people" := (people, {[rid := alice]})]} ∧ directory db = by_id.
Proof.
  destruct sample2_wf as (db0 & rid & E0 & Hwf0 & Hd0). destruct (sample3_step db0 rid E0 Hwf0 Hd0) as (db & Hdb).
  exists db, rid. exact Hdb.
Qed.

Lemma by_id_index (db : Database BufferPool) nm meta :
  directory db = by_id → indexes_ (catalog (table_manager_ db)).2 !! nm = Some meta → nm = "by_id" ∧ target_of meta = ("people", "id").
Proof.
  intros Hd Hm. assert (directory db !! nm = Some (target_of meta)) as Hx by (unfold directory; by rewrite lookup_fmap, Hm).
  rewrite Hd in Hx. unfold by_id in Hx. by apply lookup_singleton_Some in Hx as [-> <-].
Qed.

Lemma complete_order_by_id (db : Database BufferPool) :
  directory db = by_id → complete_order ["by_id"] (indexes_ (catalog (table_manager_ db)).2).
Proof.
  intros Hd. split; [apply NoDup_singleton|]. intros nm [meta Hm]. destruct (by_id_index db nm meta Hd Hm) as [-> _]. by left.
Qed.

(** ** Queries *)

Definition find_seven : Expr := BinaryExpr (ColumnRefExpr "id") kEq (LiteralExpr (VInt64 7)).
Definition star_item : SelectItem := mkItem true None None false None.

(** A query on the one row, whatever index it may use. *)
Lemma query_ok order rid items where_ order_by limit (db : Database BufferPool) :
  db_room 200 100 db → items_ok items →
  (∃ b, EvaluatePredicate where_ people alice = Some (Ok b)) →
  index_exact db "people" people {[rid := alice]} where_ →
  stmt_ok 200 order (SelectStmt items "people" where_ order_by limit) db {["people" := (people, {[rid := alice]})]}.
Proof.
  intros Hroom Hi Hw Hx schema rows. rewrite lookup_singleton_eq. intros [= <- <-]. rewrite map_size_singleton.
  split; [eapply db_room_weaken; [|exact Hroom]; lia|]. split; [lia|]. split; [lia|]. split; [|split; [done|split; [done|]]].
  - intros rid' row [<- <-]%lookup_singleton_Some. exact Hw.
  - intros clause col rid' row b _ _ [<- <-]%lookup_singleton_Some. by destruct col as [|[|col]].
Qed.

Lemma no_index_exact rid where_ (db : Database BufferPool) :
  directory db = ∅ → index_exact db "people" people {[rid := alice]} where_.
Proof. intros Hd e ec c nm meta col _ _ _ Hm. by rewrite (directory_empty db Hd), lookup_empty in Hm. Qed.

Lemma find_seven_exact rid (db : Database BufferPool) : index_exact db "people" people {[rid := alice]} (Some find_seven).
Proof.
  intros e ec c nm meta col [= <-] Hin Hc _ _ _ Hcol. apply list_elem_of_singleton in Hin as ->.
  vm_compute in Hc. injection Hc as <-. cbn [conj_op conj_value conj_column] in *. split; [done|].
  split; [vm_compute; done|]. intros rid' row k [<- <-]%lookup_singleton_Some. rewrite people_id in Hcol.
  injection Hcol as <-. intros [= <-]. vm_compute. done.
Qed.

Lemma find_seven_total : ∃ b, EvaluatePredicate (Some find_seven) people alice = Some (Ok b).
Proof. by exists true. Qed.

Lemma star_ok : items_ok [star_item].
Proof. right. by exists star_item. Qed.

(** [COUNT] of all rows and [MAX(name)]. *)
Definition count_max : list SelectItem :=
  [mkItem false None (Some kCount) true None; mkItem false (Some "name") (Some kMax) false None].

Lemma count_max_ok : items_ok count_max.
Proof. right. apply Forall_cons; split; [by exists kCount|]. apply Forall_singleton. exists kMax. split; [done|by eexists]. Qed.

Lemma all_total : ∃ b, EvaluatePredicate None people alice = Some (Ok b).
Proof. by exists true. Qed.
