(* ===== verification/DatabaseTheorems.v ===== *)
(** * Sessions

    Statements keep a database well formed, [FlushAll] makes it durable, and a
    session of statements and restarts does not get stuck. *)

From stdpp Require Import gmap pretty.
From S2P Require Import Prelude Util Value RecordCodec PageManager PageStore BufferPool HeapFile Catalog CatalogSpec TableManager.
From S2P Require Import TableSpec TableTheorems BPlusNode BPlusTree BPlusTreeSpec BPlusTreeOps BPlusTreeSearch BPlusTreeTheorems.
From S2P Require Import Database Ast ExprEval Operators OperatorSpec Scans Executor IndexSpec ExecutorSpec SelectSpec DdlSpec ExecutorTheorems.
From S2P Require Import DatabaseSpec Samples.

(** ** Reachable databases *)

Abbreviation db_indexes db := (indexes_ (catalog (table_manager_ db)).2).

(** The databases a session gets to: it opens a new directory, executes
    statements that meet their conditions, and flushes and reopens. *)
Inductive reachable (fuel : nat) : Database BufferPool → Prop :=
  | reach_new db : Database_open fuel None None None = Some db → reachable fuel db
  | reach_execute order stmt db r db' :
      reachable fuel db → complete_order order (db_indexes db) → (∀ a, db_wf db a → stmt_ok fuel order stmt db a) →
      Execute fuel order stmt db = Some (r, db') → reachable fuel db'
  | reach_reopen db catalog_file data_file index_file db' :
      reachable fuel db → db_room fuel 0 db →
      Database_close (Database_FlushAll db) = (catalog_file, data_file, index_file) →
      Database_open fuel (Some catalog_file) (Some data_file) (Some index_file) = Some db' → reachable fuel db'.

Lemma reachable_wf fuel db : reachable fuel db → ∃ a, db_wf db a.
Proof.
  induction 1 as [db E|order stmt db r db' _ [a Hwf] Hord Hok E|db cf df xf db' _ [a Hwf] Hroom Ec E].
  - destruct (Database_create fuel) as (db0 & E0 & Hwf & _). exists ∅. rewrite E in E0. by injection E0 as <-.
  - destruct (execute_step fuel order stmt db a Hwf Hord (Hok a Hwf)) as (r0 & db0 & a0 & E0 & _ & Hwf0).
    exists a0. rewrite E in E0. by injection E0 as _ <-.
  - pose proof (Database_reopen fuel db a Hwf Hroom) as Hr. rewrite Ec in Hr. destruct Hr as (db0 & E0 & Hwf0 & _).
    exists a. rewrite E in E0. by injection E0 as <-.
Qed.

(** ** The theorems *)

(** C1: the executor refines SQL on a map of tables.  On a well-formed
    database every statement that meets the conditions of [stmt_ok] returns (no
    undefined behaviour, no fault), with the result and the new tables and
    directory of indexes that [sql_step] prescribes, and leaves the database
    well formed: each index has exactly the entries of its table's rows.  The
    specification mentions no index but in the names that exist and in the
    reported strategy, so such a query through an index returns the rows a full
    scan would.  The conditions: ids, pages and fuel do not run out; a created
    table has a column and no index is left over from a dropped table of its
    name; at most [kLeafMaxKeys] rows have the same key of an index (fewer when
    the index is created); updated rows fit a page; and for SELECT the WHERE
    clause evaluates on every row, its conjuncts on indexed columns are not [<>]
    and compare integers within 53 bits, and the sort column has no NaN. *)
Theorem execute_refines {Pool} `{PageStoreSpec Pool} fuel order stmt (db : Database Pool) a :
  db_wf db a → complete_order order (db_indexes db) → stmt_ok fuel order stmt db a →
  ∃ r db' a', Execute fuel order stmt db = Some (r, db') ∧ sql_step stmt a (directory db) r a' (directory db') ∧
    db_wf db' a'.
Proof. apply execute_step. Qed.

(** C2: a flushed database is on disk.  After [FlushAll] and the destructors,
    a database opened on the three files has the same tables with the same rows
    under the same record ids, the same indexes, and is well formed. *)
Theorem database_durable fuel (db : Database BufferPool) a :
  db_wf db a → db_room fuel 0 db →
  let '(catalog_file, data_file, index_file) := Database_close (Database_FlushAll db) in
  ∃ db', Database_open fuel (Some catalog_file) (Some data_file) (Some index_file) = Some db' ∧
    db_wf db' a ∧ directory db' = directory db.
Proof. apply Database_reopen. Qed.

(** C3: a session does not get stuck.  In every database that a session reaches,
    opening, executing statements and reopening in any order, a statement that
    meets its conditions returns and leads to a reachable database again, and
    the database is well formed. *)
Theorem session_progress fuel order stmt db :
  reachable fuel db → complete_order order (db_indexes db) → (∀ a, db_wf db a → stmt_ok fuel order stmt db a) →
  (∃ a, db_wf db a) ∧ ∃ r db', Execute fuel order stmt db = Some (r, db') ∧ reachable fuel db'.
Proof.
  intros Hr Hord Hok. destruct (reachable_wf fuel db Hr) as [a Hwf]. split; [eauto|].
  destruct (execute_step fuel order stmt db a Hwf Hord (Hok a Hwf)) as (r & db' & _ & E & _).
  exists r, db'. split; [done|]. by eapply reach_execute.
Qed.

(** ** Witnesses *)

(** A query through an index. *)
Lemma execute_refines_witness :
  ∃ db rid r db', sample 200 sample3 = Some db ∧
    Execute 200 ["by_id"] (SelectStmt [star_item] "people" (Some find_seven) None None) db = Some (r, db') ∧
    select_rows people {[rid := alice]} (Some find_seven) [star_item] None None r ∧
    db_wf db' {["people" := (people, {[rid := alice]})]}.
Proof.
  destruct sample3_wf as (db & rid & E & Hwf & Hd). pose proof (sample3_room db E) as Hroom.
  destruct (execute_refines 200 ["by_id"] (SelectStmt [star_item] "people" (Some find_seven) None None) db _ Hwf)
    as (r & db' & a' & Er & (-> & _ & Hs) & Hwf').
  - exact (complete_order_by_id db Hd).
  - exact (query_ok _ _ _ _ _ _ db Hroom star_ok find_seven_total (find_seven_exact rid db)).
  - rewrite lookup_singleton_eq in Hs. exists db, rid, r, db'. exact (conj E (conj Er (conj Hs Hwf'))).
Defined.

Lemma database_durable_witness :
  ∃ db rid, sample 200 sample3 = Some db ∧
    let '(catalog_file, data_file, index_file) := Database_close (Database_FlushAll db) in
    ∃ db', Database_open 200 (Some catalog_file) (Some data_file) (Some index_file) = Some db' ∧
      db_wf db' {["people" := (people, {[rid := alice]})]} ∧ directory db' = directory db.
Proof.
  destruct sample3_wf as (db & rid & E & Hwf & Hd). exists db, rid. split; [exact E|].
  apply (database_durable 200 db _ Hwf). eapply db_room_weaken; [|exact (sample3_room db E)]. lia.
Defined.

Lemma session_progress_witness :
  ∃ db r db', sample 200 sample0 = Some db ∧ Execute 200 [] create_people db = Some (r, db') ∧ reachable 200 db'.
Proof.
  destruct (sample0_wf 200) as (db & E & Hwf & Hd).
  destruct (session_progress 200 [] create_people db) as (_ & r & db' & Er & Hr).
  - apply reach_new. rewrite <- sample0_open. exact E.
  - exact (complete_order_empty db Hd).
  - intros a _. exact (create_people_ok a db Hd (sample0_room db E)).
  - exists db, r, db'. exact (conj E (conj Er Hr)).
Defined.
