(* ===== verification/QueryTheorems.v ===== *)
(** * Queries

    What SELECT returns on a well-formed database, from the specification of
    the executor: the aggregates are those of the reference definition, SUM of
    integers is exact, and the indexes that exist do not change the rows. *)

From stdpp Require Import gmap.
From S2P Require Import Prelude Util Value RecordCodec PageStore BufferPool HeapFile Catalog CatalogSpec TableManager TableSpec TableTheorems.
From S2P Require Import Database Ast ExprEval Doubles Operators OperatorSpec SortSpec AggregateSpec Scans Executor IndexSpec.
From S2P Require Import ExecutorSpec SelectSpec DdlSpec ExecutorTheorems Samples.

Section queries.
Context {Pool : Type} `{PageStoreSpec Pool}.
Implicit Types (db : Database Pool) (a : Db).

Abbreviation db_indexes db := (indexes_ (catalog (table_manager_ db)).2).

(** The values of the rows a condition selects, in some order. *)
Definition selection (where_ : option Expr) (schema : Schema) (rows : Rows) : list (list Value) :=
  (selected_rows where_ schema (map_to_list rows)).*2.

Lemma selection_rows where_ schema rows row :
  row ∈ selection where_ schema rows → ∃ rid, rows !! rid = Some row.
Proof.
  unfold selection, selected_rows. intros ([rid row'] & -> & [_ Hin]%list_elem_of_filter)%list_elem_of_fmap.
  exists rid. by apply elem_of_map_to_list in Hin.
Qed.

Lemma selection_fits db a name schema rows where_ :
  db_wf db a → a !! name = Some (schema, rows) → Forall (row_fits schema) (selection where_ schema rows).
Proof.
  intros [Hdb _ _] Ha. apply Forall_forall. intros row [rid Hr]%selection_rows.
  by destruct (db_row _ _ _ _ _ _ _ Hdb Ha Hr).
Qed.

Lemma answerable_aggregate schema rows items :
  items ≠ [] → Forall (answerable schema rows) items → any_aggregate items = true ∧ any_plain items = false.
Proof.
  intros Hne Hi. assert (Forall (λ item, bool_decide (is_Some (item_aggregate item)) = true) items) as Hb.
  { eapply Forall_impl; [exact Hi|]. intros item (f & Hf & _). rewrite Hf. by apply bool_decide_true. }
  unfold any_aggregate, any_plain. clear Hi. destruct Hb as [|item items Hb1 Hb]; [done|]. cbn [existsb]. rewrite Hb1. split; [done|].
  cbn [negb orb]. induction Hb as [|item' items Hb' _ IH]; [done|]. cbn [existsb]. rewrite Hb'. by apply IH.
Qed.

(** The row of a query with aggregates. *)
Lemma aggregate_query fuel order items name where_ order_by limit db a schema rows :
  db_wf db a → complete_order order (db_indexes db) → a !! name = Some (schema, rows) →
  stmt_ok fuel order (SelectStmt items name where_ order_by limit) db a →
  items ≠ [] → Forall (answerable schema (selection where_ schema rows)) items →
  ∃ l names vs strategy db', l ≡ₚ selection where_ schema rows ∧ BuildColumnNames items = Some names ∧
    Execute fuel order (SelectStmt items name where_ order_by limit) db = Some (Ok (select_result names [vs] strategy), db') ∧
    Forall2 (aggregate_value schema l) items vs.
Proof.
  intros Hwf Hord Ha Hok Hne Hi. destruct (answerable_aggregate _ _ _ Hne Hi) as [Hagg Hpl].
  destruct (execute_step fuel order _ db a Hwf Hord Hok) as (r & db' & a' & E & (_ & _ & Hs) & _).
  rewrite Ha in Hs. unfold select_rows in Hs. rewrite Hagg, Hpl in Hs. cbn [andb] in Hs.
  destruct Hs as (l & strategy & Hl & names & out & e & Hn & Hst & ->).
  assert (tup_values <$> (tuple_of <$> l) = l.*2) as Hv.
  { rewrite <- list_fmap_compose. by apply list_fmap_ext. }
  assert (l.*2 ≡ₚ selection where_ schema rows) as Hl2 by (unfold selection; by rewrite <- Hl).
  destruct (aggregate_stream_values schema items (tuple_of <$> l) Status_OK) as (vs & Es & Hvs).
  - rewrite Hv. eapply Forall_impl; [exact Hi|]. intros item. apply answerable_subset. intros row Hin. by rewrite <- Hl2.
  - rewrite Hv, Hl2. by eapply selection_fits.
  - rewrite Hst in Es. injection Es as -> ->. rewrite Hv in Hvs. exists (l.*2), names, vs, strategy, db'. done.
Qed.

(** SUM of one column of integers. *)
Definition sum_item (column : string) : SelectItem := mkItem false (Some column) (Some kSum) false None.

Lemma integer_column_values db a name schema rows where_ column i c :
  db_wf db a → a !! name = Some (schema, rows) → IndexOf schema column = Some i → schema !! i = Some c →
  col_type c = Value.kInt ∨ col_type c = Value.kBigInt →
  Forall (λ v, is_Some (integer_value v)) (column_values schema column (selection where_ schema rows)).
Proof.
  intros Hwf Ha Hi Hc Ht. apply Forall_forall. intros v Hv.
  destruct (column_values_elem _ _ _ _ _ _ Hi Hc (selection_fits _ _ _ _ _ _ Hwf Ha) Hv) as (Hn & Hm & _).
  destruct Ht as [Ht|Ht]; rewrite Ht in Hm; destruct v; try done; cbn; eauto.
Qed.

(** ** Two databases with the same tables *)

Lemma mapM_omap {A B} (f : A → option B) l k : mapM f l = Some k → k = omap f l.
Proof. intros Hk%mapM_Some. induction Hk as [|x y l k Hxy _ IH]; [done|]. cbn. by rewrite Hxy, IH. Qed.

Lemma ordered_perm schema order_by ts1 ts2 out1 out2 e1 e2 :
  ts1 ≡ₚ ts2 → ordered schema order_by ts1 out1 e1 → ordered schema order_by ts2 out2 e2 → out1 ≡ₚ out2 ∧ e1 = e2.
Proof.
  intros Hp. unfold ordered. destruct order_by as [clause|]; [|by intros [-> ->] [-> ->]].
  destruct (IndexOf schema _); [|by intros [-> ->] [-> ->]].
  intros [(Hs1 & _) ->] [(Hs2 & _) ->]. split; [|done]. by rewrite Hs1, Hs2.
Qed.

(** The same answer, up to the order of the rows and the reported strategy. *)
Definition same_answer (r1 r2 : Result QueryResult) : Prop :=
  match r1, r2 with
  | Ok q1, Ok q2 => column_names q1 = column_names q2 ∧ result_rows q1 ≡ₚ result_rows q2 ∧ message q1 = message q2
  | Err e1, Err e2 => e1 = e2
  | _, _ => False
  end.

Lemma plain_result_perm schema items order_by l1 l2 strategy1 strategy2 r1 r2 :
  l1 ≡ₚ l2 → plain_result schema items order_by None l1 strategy1 r1 → plain_result schema items order_by None l2 strategy2 r2 →
  same_answer r1 r2.
Proof.
  intros Hl (indices & names & err & ts1 & e1 & out1 & Hplan & Ho1 & Hm1 & ->) (indices' & names' & err' & ts2 & e2 & out2 & Hplan' & Ho2 & Hm2 & ->).
  rewrite Hplan in Hplan'. injection Hplan' as <- <- <-.
  destruct (ordered_perm schema order_by _ _ _ _ _ _ (fmap_Permutation tuple_of _ _ Hl) Ho1 Ho2) as [Hts <-].
  apply mapM_omap in Hm1 as ->, Hm2 as ->. destruct (status_ok e1); [|done].
  cbn [same_answer select_result limited column_names result_rows message]. split; [done|]. rewrite Hts.
  split; [done|]. by rewrite !length_fmap.
Qed.
End queries.

(** ** Theorems *)

(** C7: a query with aggregates that can be answered and that meets the
    conditions of [stmt_ok] returns one row whose values are those of the
    reference definition over the selected rows: COUNT their number, COUNT of a
    column, SUM, AVG, MIN and MAX over its values that are not NULL, NULL when
    there are none; MIN and MAX are the first of the values that ORDER BY would
    put first. *)
Theorem aggregate_query_correct {Pool} `{PageStoreSpec Pool} fuel order items name where_ order_by limit
    (db : Database Pool) a schema rows :
  db_wf db a → complete_order order (indexes_ (catalog (table_manager_ db)).2) → a !! name = Some (schema, rows) →
  stmt_ok fuel order (SelectStmt items name where_ order_by limit) db a →
  items ≠ [] → Forall (answerable schema (selection where_ schema rows)) items →
  ∃ l names vs strategy db', l ≡ₚ selection where_ schema rows ∧ BuildColumnNames items = Some names ∧
    Execute fuel order (SelectStmt items name where_ order_by limit) db = Some (Ok (select_result names [vs] strategy), db') ∧
    Forall2 (aggregate_value schema l) items vs.
Proof. apply aggregate_query. Qed.

(** C9: SUM over a column of integers is exact: as long as the magnitudes of the
    selected values add up to less than 2^53, the result is the double of their
    mathematical sum, whatever order the rows are read in. *)
Theorem sum_query_exact {Pool} `{PageStoreSpec Pool} fuel order column name where_ (db : Database Pool) a schema rows i c :
  db_wf db a → complete_order order (indexes_ (catalog (table_manager_ db)).2) → a !! name = Some (schema, rows) →
  stmt_ok fuel order (SelectStmt [sum_item column] name where_ None None) db a →
  IndexOf schema column = Some i → schema !! i = Some c → col_type c = Value.kInt ∨ col_type c = Value.kBigInt →
  let vs := column_values schema column (selection where_ schema rows) in
  vs ≠ [] → magnitude vs < 2 ^ 53 →
  ∃ strategy db',
    Execute fuel order (SelectStmt [sum_item column] name where_ None None) db =
      Some (Ok (select_result ["SUM(" +:+ column +:+ ")"] [[VDouble (bits_of_double (double_of_Z (integer_sum vs)))]] strategy), db').
Proof.
  intros Hwf Hord Ha Hok Hi Hc Ht vs Hne Hm.
  pose proof (integer_column_values db a name schema rows where_ column i c Hwf Ha Hi Hc Ht) as Hint. fold vs in Hint.
  destruct (aggregate_query fuel order [sum_item column] name where_ None None db a schema rows) as
    (l & names & out & strategy & db' & Hl & Hn & E & Hv); try done.
  - apply Forall_singleton. exists kSum. split; [done|]. cbn [sum_item aggregate_star item_column].
    exists column, i, c. do 3 (split; [done|]). split; [|by intros [|]]. intros _. by destruct Ht as [-> | ->].
  - exists strategy, db'. rewrite E. injection Hn as <-. apply Forall2_cons_inv_l in Hv as (v & vs' & Hv & Hnil & ->).
    apply Forall2_nil_inv_l in Hnil as ->. unfold aggregate_value, item_values in Hv.
    cbn [sum_item item_aggregate item_column aggregate_star] in Hv.
    assert (column_values schema column l ≡ₚ vs) as Hp by (unfold vs; by rewrite Hl).
    rewrite sum_of_integers in Hv; [|by rewrite Hp|by rewrite Hp]. rewrite (integer_sum_perm _ _ Hp) in Hv. unfold or_null in Hv.
    destruct (column_values schema column l) eqn:El; [|by rewrite Hv]. by apply Permutation_nil_l in Hp.
Qed.

(** C8: indexes do not change what a query returns.  On two databases with the
    same tables and different indexes, a query without aggregates and LIMIT that
    meets the conditions of [stmt_ok] on both (its conjuncts on indexed columns
    are not [<>] and compare integers within 53 bits, the WHERE clause evaluates
    on every row, the sort column has no NaN) gives the same column names, the
    same rows up to their order, and the same message, or the same error. *)
Theorem indexes_transparent {Pool1 Pool2} `{PageStoreSpec Pool1} `{PageStoreSpec Pool2} fuel1 fuel2 order1 order2
    items name where_ order_by (db1 : Database Pool1) (db2 : Database Pool2) a :
  let stmt := SelectStmt items name where_ order_by None in
  db_wf db1 a → complete_order order1 (indexes_ (catalog (table_manager_ db1)).2) → stmt_ok fuel1 order1 stmt db1 a →
  db_wf db2 a → complete_order order2 (indexes_ (catalog (table_manager_ db2)).2) → stmt_ok fuel2 order2 stmt db2 a →
  any_aggregate items = false →
  ∃ r1 db1' r2 db2', Execute fuel1 order1 stmt db1 = Some (r1, db1') ∧ Execute fuel2 order2 stmt db2 = Some (r2, db2') ∧
    same_answer r1 r2.
Proof.
  intros stmt Hwf1 Hord1 Hok1 Hwf2 Hord2 Hok2 Hagg.
  destruct (execute_step fuel1 order1 stmt db1 a Hwf1 Hord1 Hok1) as (r1 & db1' & a1 & E1 & (_ & _ & Hs1) & _).
  destruct (execute_step fuel2 order2 stmt db2 a Hwf2 Hord2 Hok2) as (r2 & db2' & a2 & E2 & (_ & _ & Hs2) & _).
  exists r1, db1', r2, db2'. do 2 (split; [done|]). destruct (a !! name) as [[schema rows]|]; [|by rewrite Hs1, Hs2].
  unfold select_rows in Hs1, Hs2. rewrite Hagg in Hs1, Hs2. cbn [andb] in Hs1, Hs2.
  destruct Hs1 as (l1 & strategy1 & Hl1 & Hr1), Hs2 as (l2 & strategy2 & Hl2 & Hr2).
  eapply plain_result_perm; [|exact Hr1|exact Hr2]. by rewrite Hl1, Hl2.
Qed.

(** ** Witnesses *)

Lemma selection_alice rid : selection None people {[rid := alice]} = [alice].
Proof. unfold selection, selected_rows. by rewrite map_to_list_singleton. Qed.

Lemma count_max_answerable rid : Forall (answerable people (selection None people {[rid := alice]})) count_max.
Proof.
  rewrite selection_alice. apply Forall_cons; split; [by exists kCount|]. apply Forall_singleton. exists kMax. split; [done|].
  exists "name", 1%nat, (mkColumn "name" Value.kVarchar true 20). do 3 (split; [done|]). split; [by intros [|]|].
  intros _. by repeat constructor.
Qed.

Lemma aggregate_query_correct_witness :
  ∃ db l names vs strategy db', sample 200 sample2 = Some db ∧ l ≡ₚ [alice] ∧
    Execute 200 [] (SelectStmt count_max "people" None None None) db = Some (Ok (select_result names [vs] strategy), db') ∧
    Forall2 (aggregate_value people l) count_max vs.
Proof.
  destruct sample2_wf as (db & rid & E & Hwf & Hd).
  destruct (aggregate_query_correct 200 [] count_max "people" None None None db _ people {[rid := alice]} Hwf)
    as (l & names & vs & strategy & db' & Hl & Hn & Er & Hv).
  - exact (complete_order_empty db Hd).
  - apply lookup_singleton_eq.
  - exact (query_ok _ _ _ _ _ _ db (sample2_room db E) count_max_ok all_total (no_index_exact rid None db Hd)).
  - discriminate.
  - exact (count_max_answerable rid).
  - rewrite selection_alice in Hl. exists db, l, names, vs, strategy, db'. exact (conj E (conj Hl (conj Er Hv))).
Defined.

Lemma sum_id_ok : items_ok [sum_item "id"].
Proof. right. apply Forall_singleton. exists kSum. split; [done|by eexists]. Qed.

Lemma sum_query_exact_witness :
  ∃ db strategy db', sample 200 sample2 = Some db ∧
    Execute 200 [] (SelectStmt [sum_item "id"] "people" None None None) db =
      Some (Ok (select_result ["SUM(id)"] [[VDouble (bits_of_double (double_of_Z 7))]] strategy), db').
Proof.
  destruct sample2_wf as (db & rid & E & Hwf & Hd).
  destruct (sum_query_exact 200 [] "id" "people" None db _ people {[rid := alice]} 0 (mkColumn "id" Value.kInt true 255) Hwf)
    as (strategy & db' & Er).
  - exact (complete_order_empty db Hd).
  - apply lookup_singleton_eq.
  - exact (query_ok _ _ _ _ _ _ db (sample2_room db E) sum_id_ok all_total (no_index_exact rid None db Hd)).
  - reflexivity.
  - reflexivity.
  - left. reflexivity.
  - rewrite selection_alice. discriminate.
  - rewrite selection_alice. reflexivity.
  - rewrite selection_alice in Er. exists db, strategy, db'. exact (conj E Er).
Defined.

Lemma indexes_transparent_witness :
  ∃ db1 db2 r1 db1' r2 db2', sample 200 sample2 = Some db1 ∧ sample 200 sample3 = Some db2 ∧
    Execute 200 [] (SelectStmt [star_item] "people" (Some find_seven) None None) db1 = Some (r1, db1') ∧
    Execute 200 ["by_id"] (SelectStmt [star_item] "people" (Some find_seven) None None) db2 = Some (r2, db2') ∧
    same_answer r1 r2.
Proof.
  destruct sample2_wf as (db1 & rid & E1 & Hwf1 & Hd1). destruct (sample3_step db1 rid E1 Hwf1 Hd1) as (db2 & E2 & Hwf2 & Hd2).
  destruct (indexes_transparent 200 200 [] ["by_id"] [star_item] "people" (Some find_seven) None db1 db2 _ Hwf1
    (complete_order_empty db1 Hd1)
    (query_ok _ _ _ _ _ _ db1 (sample2_room db1 E1) star_ok find_seven_total (find_seven_exact rid db1)) Hwf2
    (complete_order_by_id db2 Hd2)
    (query_ok _ _ _ _ _ _ db2 (sample3_room db2 E2) star_ok find_seven_total (find_seven_exact rid db2)) eq_refl)
    as (r1 & db1' & r2 & db2' & Er1 & Er2 & Hs).
  exists db1, db2, r1, db1', r2, db2'. exact (conj E1 (conj E2 (conj Er1 (conj Er2 Hs)))).
Defined.
