(* ===== verification/Formatter.v ===== *)
(** * Printing results: src/executor/result_formatter.cpp

    A query result as a table of text.  [pad] subtracts unsigned numbers and
    would ask for a string of an impossible length if a cell were wider than
    its column ([None]); it never is.  A reference definition of the table, and
    that its lines are aligned. *)

From stdpp Require Import pretty.
From Stdlib Require Import SpecFloat Strings.Ascii Strings.String.
From S2P Require Import Prelude Util Value Ast ExprEval PageStore Database Executor.

(** ** Numbers *)

(** [m * 2 ^ e] to the nearest multiple of a millionth, ties to even, in
    millionths. *)
Definition millionths (m e : Z) : Z :=
  let n := m * 10 ^ 6 in
  if 0 <=? e then n * 2 ^ e
  else
    let d := 2 ^ (- e) in
    let q := n / d in
    match 2 * (n mod d) ?= d with
    | Lt => q
    | Gt => q + 1
    | Eq => if Z.even q then q else q + 1
    end.

(** [n] with zeros in front to [k] digits. *)
Fixpoint digits (k : nat) (n : Z) : string :=
  match k with
  | O => ""
  | S k' => digits k' (n / 10) +:+ String (ascii_of_nat (48 + Z.to_nat (n mod 10))) ""
  end.

(** [std::to_string] of a double: [printf] with ["%f"]. *)
Definition double_to_string (bits : Z) : string :=
  let sign (s : bool) := if s then "-" else "" in
  match double_of_bits bits with
  | S754_nan => sign (Z.testbit bits 63) +:+ "nan"
  | S754_infinity s => sign s +:+ "inf"
  | S754_zero s => sign s +:+ "0.000000"
  | S754_finite s m e =>
      let n := millionths (Zpos m) e in
      sign s +:+ pretty (n / 10 ^ 6) +:+ "." +:+ digits 6 (n mod 10 ^ 6)
  end.

Definition FormatValue (v : Value) : string :=
  match v with
  | VNull => "NULL"
  | VInt32 z | VInt64 z => pretty z
  | VDouble b => double_to_string b
  | VBool b => if b then "true" else "false"
  | VString s => s
  end.

(** ** The table *)

(** [std::string(n, c)] *)
Definition fill (n : nat) (c : ascii) : string := String.string_of_list_ascii (replicate n c).

Definition newline : string := String (ascii_of_nat 10) "".

Definition pad (s : string) (width : nat) : option string :=
  if bool_decide (String.length s ≤ width)%nat then Some (s +:+ fill (width - String.length s) " ") else None.

(** The loop over the columns of a row: the rendered cells and the widths. *)
Fixpoint render_row (widths : list nat) (row : list Value) : list string * list nat :=
  match widths, row with
  | w :: widths', v :: row' =>
      let text := FormatValue v in
      let '(rendered, widths'') := render_row widths' row' in
      (text :: rendered, Nat.max w (String.length text) :: widths'')
  | _, _ => ([], widths)
  end.

Fixpoint render_rows (widths : list nat) (rows : list (list Value)) : list (list string) * list nat :=
  match rows with
  | [] => ([], widths)
  | row :: rows' =>
      let '(rendered, widths1) := render_row widths row in
      let '(cells, widths2) := render_rows widths1 rows' in
      (rendered :: cells, widths2)
  end.

(** A line of padded cells; a missing cell is empty. *)
Fixpoint pad_cells (widths : list nat) (cells : list string) : option (list string) :=
  match widths with
  | [] => Some []
  | w :: widths' =>
      cell ← pad (default "" (head cells)) w;
      cells' ← pad_cells widths' (tail cells);
      Some (cell :: cells')
  end.

(** The loop over the columns of a line. *)
Definition line (cells : list string) : string := String.concat " | " cells.

Fixpoint lines (widths : list nat) (rows : list (list string)) : option string :=
  match rows with
  | [] => Some ""
  | row :: rows' =>
      cells ← pad_cells widths row;
      rest ← lines widths rows';
      Some (line cells +:+ newline +:+ rest)
  end.

Definition footer (rows : nat) (strategy : string) : string :=
  "(" +:+ pretty rows +:+ (if Nat.eqb rows 1 then " row)" else " rows)") +:+
  (if bool_decide (strategy = "") then "" else "  [" +:+ strategy +:+ "]").

Definition FormatQueryResult (result : QueryResult) : option string :=
  match column_names result with
  | [] => Some (message result)
  | names =>
      let '(cells, widths) := render_rows (String.length <$> names) (result_rows result) in
      header ← pad_cells widths names;
      let rule := String.concat "-+-" ((λ w, fill w "-") <$> widths) in
      body ← lines widths cells;
      Some (line header +:+ newline +:+ rule +:+ newline +:+ body +:+
            footer (length (result_rows result)) (scan_strategy result))
  end.

(** ** The reference *)

(** The text in column [c] of a row. *)
Definition cell (row : list Value) (c : nat) : string := default "" (FormatValue <$> row !! c).

(** The width of a column: its longest text. *)
Definition column_width (rows : list (list Value)) (c : nat) (name : string) : nat :=
  max_list (String.length name :: ((λ row, String.length (cell row c)) <$> rows)).

Definition padded (w : nat) (s : string) : string := s +:+ fill (w - String.length s) " ".

Definition table_widths (names : list string) (rows : list (list Value)) : list nat := imap (column_width rows) names.

Definition table_row (widths : list nat) (row : list Value) : string :=
  line (imap (λ c w, padded w (cell row c)) widths).

Definition table_header (names : list string) (rows : list (list Value)) : string :=
  line (zip_with padded (table_widths names rows) names).

Definition table_rule (names : list string) (rows : list (list Value)) : string :=
  String.concat "-+-" ((λ w, fill w "-") <$> table_widths names rows).

(** The lines of a table. *)
Definition table_lines (names : list string) (rows : list (list Value)) : list string :=
  table_header names rows :: table_rule names rows :: (table_row (table_widths names rows) <$> rows).

Definition table_text (result : QueryResult) : string :=
  foldr (λ l rest, l +:+ newline +:+ rest) (footer (length (result_rows result)) (scan_strategy result))
    (table_lines (column_names result) (result_rows result)).

(** ** Widths *)

Lemma render_row_spec widths row :
  render_row widths row =
    (FormatValue <$> take (length widths) row, imap (λ c w, Nat.max w (String.length (cell row c))) widths).
Proof.
  revert row. induction widths as [|w widths IH]; intros row; [by destruct row|].
  destruct row as [|v row]; cbn [render_row].
  - f_equal. apply list_eq. intros i. rewrite list_lookup_imap. unfold cell. rewrite lookup_nil.
    destruct (_ !! i); cbn; [|done]. f_equal. lia.
  - rewrite IH. cbn. done.
Qed.

Lemma render_rows_spec widths rows :
  render_rows widths rows =
    ((λ row, FormatValue <$> take (length widths) row) <$> rows,
     imap (λ c w, Nat.max w (max_list ((λ row, String.length (cell row c)) <$> rows))) widths).
Proof.
  revert widths. induction rows as [|row rows IH]; intros widths; cbn [render_rows].
  - f_equal. apply list_eq. intros i. rewrite list_lookup_imap. destruct (_ !! i); cbn; [|done]. f_equal. lia.
  - rewrite render_row_spec, IH. cbn. rewrite length_imap. f_equal.
    apply list_eq. intros i. rewrite !list_lookup_imap. destruct (widths !! i); cbn; [|done]. f_equal. lia.
Qed.

Lemma final_widths names rows :
  (render_rows (String.length <$> names) rows).2 = table_widths names rows.
Proof.
  rewrite render_rows_spec. cbn [snd]. apply list_eq. intros i. unfold table_widths. rewrite !list_lookup_imap, list_lookup_fmap.
  by destruct (names !! i).
Qed.

(** ** Padding *)

Lemma pad_fits s w : (String.length s ≤ w)%nat → pad s w = Some (padded w s).
Proof. intros Hw. unfold pad. by rewrite bool_decide_true. Qed.

Lemma string_length_app s t : String.length (s +:+ t) = (String.length s + String.length t)%nat.
Proof. induction s as [|c s IH]; [done|]. change (S (String.length (s +:+ t)) = S (String.length s) + String.length t)%nat. by rewrite IH. Qed.

Lemma fill_length n c : String.length (fill n c) = n.
Proof. unfold fill. induction n as [|n IH]; cbn; [done|]. by rewrite IH. Qed.

Lemma padded_length w s : (String.length s ≤ w)%nat → String.length (padded w s) = w.
Proof. intros Hw. unfold padded. rewrite string_length_app, fill_length. lia. Qed.

(** Cells that fit are padded. *)
Lemma pad_cells_fit widths cells :
  (∀ i w, widths !! i = Some w → String.length (default "" (cells !! i)) ≤ w)%nat →
  pad_cells widths cells = Some (imap (λ i w, padded w (default "" (cells !! i))) widths).
Proof.
  revert cells. induction widths as [|w widths IH]; intros cells Hf; [done|]. cbn [pad_cells].
  assert (default "" (head cells) = default "" (cells !! 0%nat)) as -> by (by destruct cells).
  rewrite pad_fits by (by apply (Hf 0%nat)). cbn [mbind option_bind].
  assert (∀ i, tail cells !! i = cells !! S i) as Ht by (by destruct cells).
  rewrite IH; [|intros i w' Hi; rewrite Ht; by apply (Hf (S i))]. cbn [mbind option_bind]. cbn. do 2 f_equal.
  apply imap_ext. intros i w' _. cbn. by rewrite Ht.
Qed.

Lemma width_bounds_name names rows i name :
  names !! i = Some name → ∃ w, table_widths names rows !! i = Some w ∧ (String.length name ≤ w)%nat ∧
    ∀ row, row ∈ rows → (String.length (cell row i) ≤ w)%nat.
Proof.
  intros Hn. unfold table_widths. rewrite list_lookup_imap, Hn. eexists. split; [done|]. unfold column_width. cbn. split; [lia|].
  intros row Hr. assert (String.length (cell row i) ≤ max_list ((λ row, String.length (cell row i)) <$> rows))%nat; [|lia].
  apply max_list_elem_of_le. apply list_elem_of_fmap. eauto.
Qed.

Lemma table_widths_lookup names rows i w :
  table_widths names rows !! i = Some w →
  ∃ name, names !! i = Some name ∧ (String.length name ≤ w)%nat ∧ ∀ row, row ∈ rows → (String.length (cell row i) ≤ w)%nat.
Proof.
  intros Hw. destruct (names !! i) as [name|] eqn:Hn.
  - destruct (width_bounds_name names rows i name Hn) as (w' & Hw' & ? & ?). rewrite Hw in Hw'. injection Hw' as <-. eauto.
  - unfold table_widths in Hw. by rewrite list_lookup_imap, Hn in Hw.
Qed.

(** ** The formatter prints the table *)

Lemma table_widths_length names rows : length (table_widths names rows) = length names.
Proof. apply length_imap. Qed.

Lemma header_padded names rows :
  pad_cells (table_widths names rows) names = Some (zip_with padded (table_widths names rows) names).
Proof.
  rewrite pad_cells_fit.
  - f_equal. apply list_eq. intros i. rewrite list_lookup_imap, lookup_zip_with.
    destruct (table_widths names rows !! i) as [w|] eqn:Hw; [|done]. cbn.
    destruct (table_widths_lookup _ _ _ _ Hw) as (name & Hn & _). by rewrite Hn.
  - intros i w Hw. destruct (table_widths_lookup _ _ _ _ Hw) as (name & -> & ? & _). done.
Qed.

Lemma lines_padded names rows sub :
  (∀ row, row ∈ sub → row ∈ rows) →
  lines (table_widths names rows) ((λ row, FormatValue <$> take (length names) row) <$> sub) =
    Some (foldr (λ l rest, l +:+ newline +:+ rest) "" (table_row (table_widths names rows) <$> sub)).
Proof.
  induction sub as [|row sub IH]; intros Hsub; [done|].
  assert (∀ i w, table_widths names rows !! i = Some w →
    default "" ((FormatValue <$> take (length names) row) !! i) = cell row i) as Hcell.
  { intros i w Hw. apply lookup_lt_Some in Hw. rewrite table_widths_length in Hw. unfold cell.
    by rewrite list_lookup_fmap, lookup_take_lt. }
  rewrite fmap_cons. cbn [lines]. rewrite pad_cells_fit.
  - cbn [mbind option_bind]. rewrite IH by (intros r Hr; apply Hsub; by right). cbn [mbind option_bind fmap list_fmap foldr].
    do 2 f_equal. unfold table_row, line. f_equal. apply imap_ext. intros i w Hw. cbn. by rewrite (Hcell _ _ Hw).
  - intros i w Hw. rewrite (Hcell _ _ Hw). destruct (table_widths_lookup _ _ _ _ Hw) as (_ & _ & _ & Hr). apply Hr, Hsub. by left.
Qed.

Lemma string_app_assoc (s t u : string) : (s +:+ t) +:+ u = s +:+ (t +:+ u).
Proof. induction s as [|c s IH]; [done|]. change (String c ((s +:+ t) +:+ u) = String c (s +:+ (t +:+ u))). by rewrite IH. Qed.

Lemma foldr_lines_app ls rest :
  foldr (λ l rest, l +:+ newline +:+ rest) "" ls +:+ rest = foldr (λ l rest, l +:+ newline +:+ rest) rest ls.
Proof. induction ls as [|l ls IH]; [done|]. cbn [foldr]. by rewrite !string_app_assoc, IH. Qed.

Lemma FormatQueryResult_table result :
  column_names result ≠ [] → FormatQueryResult result = Some (table_text result).
Proof.
  intros Hne. unfold FormatQueryResult, table_text. destruct (column_names result) as [|name names'] eqn:En; [done|].
  rewrite <- En in *. clear En name names'. set (names := column_names result) in *. set (rows := result_rows result) in *.
  pose proof (final_widths names rows) as Hw. rewrite render_rows_spec in Hw |- *. cbn [snd] in Hw. rewrite Hw, length_fmap.
  rewrite header_padded. cbn [mbind option_bind]. rewrite lines_padded by done. cbn [mbind option_bind].
  unfold table_lines, table_header, table_rule. cbn [foldr]. by rewrite foldr_lines_app.
Qed.

(** The text of a result. *)
Definition result_text (q : QueryResult) : string := if bool_decide (column_names q = []) then message q else table_text q.

Lemma FormatQueryResult_text q : FormatQueryResult q = Some (result_text q).
Proof.
  unfold result_text. case_bool_decide as Hn; [|by apply FormatQueryResult_table]. unfold FormatQueryResult. by rewrite Hn.
Qed.

(** ** Alignment *)

(** The width of a line. *)
Definition line_width (widths : list nat) : nat := (sum_list widths + 3 * (length widths - 1))%nat.

Lemma concat_width sep cells widths :
  String.length sep = 3%nat → Forall2 (λ s w, String.length s = w) cells widths →
  String.length (String.concat sep cells) = line_width widths.
Proof.
  intros Hs Hc. unfold line_width. induction Hc as [|s w cells widths Hsw Hc IH]; [done|].
  destruct Hc as [|s' w' cells widths Hsw' Hc]; [cbn in *; lia|].
  change (String.concat sep (s :: s' :: cells)) with (s +:+ sep +:+ String.concat sep (s' :: cells)).
  rewrite !string_length_app, IH, Hs, Hsw. clear. cbn. lia.
Qed.

Lemma table_lines_width names rows :
  Forall (λ l, String.length l = line_width (table_widths names rows)) (table_lines names rows).
Proof.
  set (ws := table_widths names rows). unfold table_lines. constructor; [|constructor].
  - apply concat_width; [done|]. apply Forall2_same_length_lookup_2.
    + unfold ws. rewrite length_zip_with, table_widths_length. lia.
    + intros i s w Hs Hw. rewrite lookup_zip_with in Hs. destruct (table_widths_lookup _ _ _ _ Hw) as (name & Hn & Hl & _).
      fold ws in Hs. rewrite Hw, Hn in Hs. injection Hs as <-. by apply padded_length.
  - apply concat_width; [done|]. fold ws. clearbody ws. induction ws as [|w ws IH]; constructor; [apply fill_length|done].
  - apply Forall_fmap, Forall_forall. intros row Hrow. unfold compose, table_row. apply concat_width; [done|].
    apply Forall2_same_length_lookup_2; [by rewrite length_imap|]. intros i s w Hs Hw.
    rewrite list_lookup_imap in Hs. fold ws in Hs. rewrite Hw in Hs. injection Hs as <-.
    destruct (table_widths_lookup _ _ _ _ Hw) as (_ & _ & _ & Hr). apply padded_length. auto.
Qed.

(** C10: a query result is always printed, as the table of the reference
    definition: the header, a rule, a line per row and the footer, the columns as
    wide as their longest text; all the lines have the same width.  A result
    without columns is its message. *)
Theorem formatter_prints_table result :
  FormatQueryResult result = Some (if bool_decide (column_names result = []) then message result else table_text result) ∧
  Forall (λ l, String.length l = line_width (table_widths (column_names result) (result_rows result)))
    (table_lines (column_names result) (result_rows result)).
Proof. split; [apply FormatQueryResult_text|apply table_lines_width]. Qed.

Example double_to_string_examples :
  double_to_string (bits_of_double (double_of_Z 7)) = "7.000000" ∧
  double_to_string 4591870180066957722 = "0.100000" ∧
  double_to_string 13837985395039954534 = "-3.300000".
Proof. vm_compute. done. Qed.
