(* ===== verification/Repl.v ===== *)
(** * The shell: src/cli/repl.hpp, repl.cpp

    [ProcessStatement] parses, executes and prints one statement; [Run] collects
    lines up to one with a semicolon outside that line's quotes and hands the
    text over.  How the input is divided is specified apart from the code
    ([division]): lines, ends of statements, [.exit] and blank texts are
    predicates on the text.  The shell on a well-formed database carries out the
    texts so divided, in order, and what they did is in the files when it
    ends. *)

From stdpp Require Import gmap pretty.
From Stdlib Require Import Strings.Ascii.
From S2P Require Import Prelude Util Value PageManager PageStore BufferPool HeapFile Catalog CatalogSpec TableManager TableSpec TableTheorems.
From S2P Require Import Tokenizer Ast Parser ParserSpec BPlusNode BPlusTree Database ExprEval Operators Scans Executor IndexSpec ExecutorSpec.
From S2P Require Import SelectSpec DdlSpec ExecutorTheorems DatabaseSpec Formatter Samples.

Abbreviation Db_ := (Database BufferPool).

(** ** Operations *)

(** Nothing but blanks and semicolons. *)
Definition blank (sql : string) : bool :=
  forallb (λ c, bool_decide (c ∈ [" "; "009"; "010"; "013"; ";"]%char)) (String.list_ascii_of_string sql).

(** A semicolon outside quotes; [in_string] is the state of the scan. *)
Fixpoint found_terminator (in_string : bool) (line : list ascii) : bool :=
  match line with
  | [] => false
  | c :: line' =>
      if Ascii.eqb c "'" then found_terminator (negb in_string) line'
      else if Ascii.eqb c ";" && negb in_string then true
      else found_terminator in_string line'
  end.

Definition terminated (line : string) : bool := found_terminator false (String.list_ascii_of_string line).

Definition is_exit (line : string) : bool := bool_decide (line = ".exit" ∨ line = ".quit").

(** The lines that [std::getline] reads from a text. *)
Fixpoint getlines (text : list ascii) (line : string) : list string :=
  match text with
  | [] => if bool_decide (line = "") then [] else [line]
  | c :: text' => if Ascii.eqb c "010" then line :: getlines text' "" else getlines text' (line +:+ String c "")
  end.

Definition banner : string := "MiniDB -- type SQL statements ending in ';', or .exit to quit." +:+ newline.
Definition prompt (first : bool) : string := if first then "minidb> " else "    ...> ".

Lemma string_app_nil s : s +:+ "" = s.
Proof. induction s as [|c s IH]; [done|]. change (String c (s +:+ "") = String c s). by rewrite IH. Qed.

(** ** How the input is divided *)

(** The quotes in a text. *)
Definition quotes (l : list ascii) : nat := length (filter (λ c, c = "'"%char) l).

(** A line that ends a statement has a semicolon after an even number of
    quotes. *)
Definition ends_statement (line : string) : Prop :=
  ∃ before after, String.list_ascii_of_string line = before ++ ";"%char :: after ∧ Nat.even (quotes before) = true.

Definition exit_line (line : string) : Prop := line = ".exit" ∨ line = ".quit".

(** A text is its lines, each followed by a newline; the last one need not
    be. *)
Definition input_lines (text : string) (ls : list string) : Prop :=
  ∃ full tail, text = foldr (λ l rest, l +:+ newline +:+ rest) tail full ∧
    ls = full ++ (if decide (tail = "") then [] else [tail]) ∧
    Forall (λ l, "010"%char ∉ String.list_ascii_of_string l) (full ++ [tail]).

(** A text without a statement. *)
Definition blanks (text : string) : Prop :=
  Forall (λ c, c = " " ∨ c = "009" ∨ c = "010" ∨ c = "013" ∨ c = ";")%char (String.list_ascii_of_string text).

Definition starts_exit (ls : list string) : Prop := ∃ l, head ls = Some l ∧ exit_line l.

(** The lines of one statement: the last one is the first that ends it. *)
Definition chunk (ls : list string) : Prop :=
  ∃ body last, ls = body ++ [last] ∧ Forall (λ l, ¬ ends_statement l) body ∧ ends_statement last ∧ ¬ starts_exit ls.

(** What is left when the shell ends: a statement without its end (or
    nothing), or [.exit] with what follows it. *)
Definition leftover (ls : list string) : Prop := Forall (λ l, ¬ ends_statement l) ls ∨ starts_exit ls.

Record division (text : string) (chunks : list (list string)) (rest : list string) : Prop := {
  div_lines : input_lines text (concat chunks ++ rest);
  div_chunks : Forall chunk chunks;
  div_rest : leftover rest
}.

(** *** The code's tests decide these predicates *)

Lemma found_terminator_iff l : ∀ in_string,
  found_terminator in_string l = true ↔
  ∃ before after, l = before ++ ";"%char :: after ∧ Nat.even (quotes before) = negb in_string.
Proof.
  induction l as [|c l IH]; intros b; cbn [found_terminator].
  { split; [done|]. intros (? & ? & E & _). by apply app_cons_not_nil in E. }
  assert (∀ before after, c :: l = before ++ ";"%char :: after → before = [] ∧ c = ";"%char ∨
    ∃ before', before = c :: before' ∧ l = before' ++ ";"%char :: after) as Hsplit.
  { intros [|c' before'] after [= -> E]; [by left|right]. by exists before'. }
  destruct (Ascii.eqb_spec c "'") as [->|Hq]; [|destruct (Ascii.eqb_spec c ";") as [->|Hs]].
  - rewrite IH. split.
    + intros (before & after & -> & E). exists ("'"%char :: before), after. split; [done|].
      unfold quotes. rewrite filter_cons_True by done. cbn [length]. rewrite Nat.even_succ, <- Nat.negb_even.
      unfold quotes in E. rewrite E. by destruct b.
    + intros (before & after & E & Ev). destruct (Hsplit _ _ E) as [[_ ?]|(before' & -> & ->)]; [done|].
      exists before', after. split; [done|]. unfold quotes in Ev. rewrite filter_cons_True in Ev by done.
      cbn [length] in Ev. rewrite Nat.even_succ, <- Nat.negb_even in Ev. unfold quotes. by destruct (Nat.even _), b.
  - destruct b; cbn [negb andb].
    + rewrite IH. split; intros (before & after & E & Ev).
      * exists (";"%char :: before), after. split; [by rewrite E|done].
      * destruct (Hsplit _ _ E) as [[-> _]|(before' & -> & ->)]; [done|]. by exists before', after.
    + split; [|done]. intros _. by exists [], l.
  - cbn [andb]. rewrite IH. split; intros (before & after & E & Ev).
    + exists (c :: before), after. split; [by rewrite E|]. unfold quotes. by rewrite filter_cons_False.
    + destruct (Hsplit _ _ E) as [[_ ?]|(before' & -> & ->)]; [done|]. exists before', after. split; [done|].
      unfold quotes in Ev. by rewrite filter_cons_False in Ev.
Qed.

Lemma terminated_iff line : terminated line = true ↔ ends_statement line.
Proof. apply (found_terminator_iff _ false). Qed.

Lemma terminated_false line : terminated line = false ↔ ¬ ends_statement line.
Proof. rewrite <- terminated_iff. by destruct (terminated line). Qed.

Lemma blank_decide text : blank text = bool_decide (blanks text).
Proof.
  unfold blank, blanks. apply eq_bool_prop_intro. rewrite bool_decide_spec, Is_true_true, forallb_forall, Forall_forall.
  split; intros Hc c Hin; specialize (Hc c).
  - apply list_elem_of_In, Hc, bool_decide_eq_true in Hin. set_solver.
  - apply list_elem_of_In, Hc in Hin. apply bool_decide_eq_true. set_solver.
Qed.

Definition starts_with_exit (ls : list string) : bool := match ls with [] => false | l :: _ => is_exit l end.

Lemma starts_with_exit_iff ls : starts_with_exit ls = true ↔ starts_exit ls.
Proof.
  unfold starts_exit, starts_with_exit, is_exit, exit_line. destruct ls as [|l ls]; cbn [head].
  - split; [done|]. by intros (? & ? & _).
  - rewrite bool_decide_eq_true. split; [by exists l|]. by intros (? & [= <-] & ?).
Qed.

#[export] Instance starts_exit_dec ls : Decision (starts_exit ls).
Proof. refine (cast_if (decide (starts_with_exit ls = true))); by rewrite <- starts_with_exit_iff. Defined.

Lemma starts_exit_decide ls : starts_with_exit ls = bool_decide (starts_exit ls).
Proof. apply eq_bool_prop_intro. by rewrite bool_decide_spec, Is_true_true, starts_with_exit_iff. Qed.

(** [getlines] reads the lines of the text. *)
Lemma getlines_line l rest acc :
  "010"%char ∉ String.list_ascii_of_string l →
  getlines (String.list_ascii_of_string (l +:+ newline +:+ rest)) acc =
    (acc +:+ l) :: getlines (String.list_ascii_of_string rest) "".
Proof.
  induction l as [|c l IH] in acc |- *; intros Hn.
  { by rewrite string_app_nil. }
  change (String c l +:+ newline +:+ rest) with (String c (l +:+ newline +:+ rest)).
  cbn [String.list_ascii_of_string getlines] in *. destruct (Ascii.eqb_spec c "010") as [->|_]; [set_solver|].
  rewrite IH by set_solver. by rewrite string_app_assoc.
Qed.

Lemma getlines_tail l acc :
  "010"%char ∉ String.list_ascii_of_string l →
  getlines (String.list_ascii_of_string l) acc = if decide (acc +:+ l = "") then [] else [acc +:+ l].
Proof.
  induction l as [|c l IH] in acc |- *; intros Hn; cbn [String.list_ascii_of_string getlines].
  { rewrite string_app_nil. by destruct (decide (acc = "")) as [->|]; [|rewrite bool_decide_false]. }
  destruct (Ascii.eqb_spec c "010") as [->|_]; [cbn in Hn; set_solver|].
  rewrite IH by (cbn in Hn; set_solver). by rewrite string_app_assoc.
Qed.

Lemma input_lines_unique text ls : input_lines text ls → ls = getlines (String.list_ascii_of_string text) "".
Proof.
  intros (full & tail & -> & -> & [Hf Ht]%Forall_app). apply Forall_inv in Ht.
  induction Hf as [|l full Hl Hf IH]; cbn [foldr app].
  - rewrite getlines_tail by exact Ht. reflexivity.
  - rewrite getlines_line by done. by rewrite <- IH.
Qed.

Lemma input_lines_exists text : ∃ ls, input_lines text ls.
Proof.
  induction text as [|c text (ls & full & tail & E & _ & Hall)].
  { exists [], [], "". split_and!; try done. by repeat constructor; cbn; set_solver. }
  destruct (decide (c = "010"%char)) as [->|Hc].
  { eexists _, ("" :: full), tail. split_and!; [by rewrite E|reflexivity|]. constructor; [cbn; set_solver|done]. }
  destruct full as [|l full]; cbn [foldr] in E.
  - eexists _, [], (String c tail). split_and!; [by rewrite E|reflexivity|].
    apply Forall_inv in Hall. constructor; [cbn; set_solver|done].
  - eexists _, (String c l :: full), tail. split_and!; [by rewrite E|reflexivity|].
    apply Forall_cons in Hall as [Hl Hall]. constructor; [cbn; set_solver|done].
Qed.

Section repl.
(** [order db] is the order in which the unordered map of [db]'s indexes is
    traversed. *)
Context (fuel : nat) (order : Db_ → list string).

Definition ProcessStatement (sql : string) : M Db_ string :=
  if blank sql then ret ""
  else
    match ParseSQL (String.list_ascii_of_string sql) with
    | None => undefined_behaviour
    | Some (Err e) => ret ("ERROR: " +:+ message_ e)
    | Some (Ok stmt) => λ db,
        (let! result := Execute fuel (order db) stmt in
         match result with
         | Err e => ret ("ERROR: " +:+ message_ e)
         | Ok q => match FormatQueryResult q with None => undefined_behaviour | Some text => ret text end
         end) db
    end.

Fixpoint repl_loop (lines : list string) (buffer : string) (first : bool) (out : string) : M Db_ string :=
  let out := out +:+ prompt first in
  match lines with
  | [] => ret out
  | line :: lines' =>
      if first && is_exit line then ret out
      else
        let buffer := buffer +:+ line +:+ newline in
        if terminated line then
          let! output := ProcessStatement buffer in
          repl_loop lines' "" true (out +:+ if bool_decide (output = "") then "" else output +:+ newline)
        else repl_loop lines' buffer false out
  end.

Definition Repl_Run (text : string) : M Db_ string :=
  let! out := repl_loop (getlines (String.list_ascii_of_string text) "") "" true banner in
  do! modify Database_FlushAll in
  ret out.

Definition chunk_text (ls : list string) : string := foldr (λ l rest, l +:+ newline +:+ rest) "" ls.

(** The prompts for [n] lines. *)
Definition prompts (n : nat) : string :=
  match n with O => "" | S n' => "minidb> " +:+ foldr String.append "" (replicate n' "    ...> ") end.

Definition shown (output : string) : string := if bool_decide (output = "") then "" else output +:+ newline.

(** The statements, one after the other. *)
Fixpoint process_all (texts : list string) : M Db_ (list string) :=
  match texts with
  | [] => ret []
  | text :: texts' =>
      let! output := ProcessStatement text in
      let! outputs := process_all texts' in
      ret (output :: outputs)
  end.

(** The text on the screen. *)
Definition transcript (chunks : list (list string)) (outputs : list string) (rest : list string) : string :=
  foldr String.append (prompts (if decide (starts_exit rest) then 1 else S (length rest)))
    (zip_with (λ ls output, prompts (length ls) +:+ shown output) chunks outputs).

Lemma chunk_text_snoc ls l : chunk_text (ls ++ [l]) = chunk_text ls +:+ l +:+ newline.
Proof.
  unfold chunk_text. induction ls as [|l' ls IH]; [done|]. cbn [app foldr]. by rewrite IH, !string_app_assoc.
Qed.

Lemma prompts_S n : prompts (S n) = prompts n +:+ prompt (Nat.eqb n 0).
Proof.
  destruct n as [|n]; [done|]. cbn [prompts Nat.eqb replicate]. rewrite string_app_assoc. f_equal.
  induction n as [|n IH]; [done|]. cbn [replicate foldr]. rewrite string_app_assoc. f_equal. exact IH.
Qed.

Lemma starts_with_exit_snoc ls l : starts_with_exit (ls ++ [l]) = if Nat.eqb (length ls) 0 then is_exit l else starts_with_exit ls.
Proof. by destruct ls. Qed.

(** The division of the lines, with [body] read of the current statement. *)
Fixpoint divide (lines body : list string) : list (list string) * list string :=
  match lines with
  | [] => ([], body)
  | line :: lines' =>
      if Nat.eqb (length body) 0 && is_exit line then ([], line :: lines')
      else if terminated line then
        let '(chunks, rest) := divide lines' [] in ((body ++ [line]) :: chunks, rest)
      else divide lines' (body ++ [line])
  end.

Lemma unfinished_snoc body line :
  Nat.eqb (length body) 0 && is_exit line = false → starts_with_exit body = false → starts_with_exit (body ++ [line]) = false.
Proof. intros He Hx. rewrite starts_with_exit_snoc. by destruct (Nat.eqb (length body) 0). Qed.

Lemma divide_spec lines : ∀ body,
  Forall (λ l, ¬ ends_statement l) body → starts_with_exit body = false →
  let '(chunks, rest) := divide lines body in
  body ++ lines = concat chunks ++ rest ∧ Forall chunk chunks ∧ leftover rest.
Proof.
  induction lines as [|line lines IH]; intros body Hb Hx; cbn [divide].
  { rewrite app_nil_r. split; [done|]. split; [done|]. by left. }
  destruct (_ && _) eqn:Eexit.
  { apply andb_true_iff in Eexit as [Hl%Nat.eqb_eq He]. apply length_zero_iff_nil in Hl as ->.
    split; [done|]. split; [done|]. right. by apply starts_with_exit_iff. }
  pose proof (unfinished_snoc body line Eexit Hx) as Hx'. destruct (terminated line) eqn:Et.
  - specialize (IH [] ltac:(done) eq_refl). destruct (divide lines []) as [chunks rest]. destruct IH as (El & Hc & Hr). cbn [app] in El.
    split; [cbn [concat]; by rewrite <- !app_assoc, <- El|]. split; [|done]. constructor; [|done]. exists body, line.
    split_and!; [done|done|by apply terminated_iff|]. by rewrite <- starts_with_exit_iff, Hx'.
  - specialize (IH (body ++ [line])). destruct (divide lines (body ++ [line])) as [chunks rest].
    rewrite <- app_assoc in IH. apply IH; [|done]. apply Forall_app. split; [done|]. constructor; [|done]. by apply terminated_false.
Qed.

Lemma divide_skip l : ∀ body more,
  Forall (λ x, ¬ ends_statement x) l → starts_with_exit (body ++ l) = false → divide (l ++ more) body = divide more (body ++ l).
Proof.
  induction l as [|x l IH]; intros body more Hl Hx; [by rewrite app_nil_r|].
  apply Forall_cons in Hl as [Hx1%terminated_false Hl]. cbn [app divide].
  destruct (Nat.eqb (length body) 0 && is_exit x) eqn:E.
  - exfalso. apply andb_true_iff in E as [Hb%Nat.eqb_eq He]. apply length_zero_iff_nil in Hb as ->. cbn in Hx. congruence.
  - rewrite Hx1, IH; rewrite <- ?app_assoc; done.
Qed.

(** There is no other way to divide the lines. *)
Lemma divide_unique chunks rest : Forall chunk chunks → leftover rest → divide (concat chunks ++ rest) [] = (chunks, rest).
Proof.
  intros Hc Hr. induction Hc as [|ls chunks (body & l & -> & Hb & Hl & Hx) Hc IH]; cbn [concat app].
  - destruct rest as [|x rest]; [done|]. destruct (starts_with_exit (x :: rest)) eqn:Ex.
    + cbn in Ex. cbn [divide length Nat.eqb]. by rewrite Ex.
    + destruct Hr as [Hr|Hr%starts_with_exit_iff]; [|congruence].
      rewrite <- (app_nil_r (x :: rest)) at 1. by rewrite divide_skip.
  - apply terminated_iff in Hl. rewrite <- starts_with_exit_iff in Hx. apply not_true_is_false in Hx.
    rewrite <- !app_assoc, divide_skip; [|done|].
    + cbn [app divide]. rewrite starts_with_exit_snoc in Hx. destruct (Nat.eqb (length body) 0); [rewrite Hx|];
        cbn [andb]; by rewrite Hl, IH.
    + destruct body; [done|]. by rewrite starts_with_exit_snoc in Hx.
Qed.

Lemma repl_loop_spec lines : ∀ body out db,
  starts_with_exit body = false →
  repl_loop lines (chunk_text body) (Nat.eqb (length body) 0) (out +:+ prompts (length body)) db =
    (let! outputs := process_all (chunk_text <$> (divide lines body).1) in
     ret (out +:+ transcript (divide lines body).1 outputs (divide lines body).2)) db.
Proof.
  induction lines as [|line lines IH]; intros body out db Hx; cbn [repl_loop divide].
  { cbn [fst snd fmap list_fmap process_all]. unfold bind, ret, transcript. rewrite decide_False by (by rewrite <- starts_with_exit_iff, Hx). cbn [zip_with foldr].
    by rewrite prompts_S, string_app_assoc. }
  destruct (_ && _) eqn:Eexit.
  { apply andb_true_iff in Eexit as [Hl%Nat.eqb_eq He]. apply length_zero_iff_nil in Hl as ->.
    cbn [fst snd fmap list_fmap process_all]. unfold bind, ret, transcript. cbn [zip_with foldr].
    rewrite decide_True by (by apply starts_with_exit_iff).
    cbn [length prompts]. by rewrite string_app_nil. }
  rewrite <- chunk_text_snoc. destruct (terminated line) eqn:Et.
  - destruct (divide lines []) as [chunks rest] eqn:Ed. cbn [fst snd] in *. rewrite fmap_cons. cbn [process_all].
    unfold bind at 1 2 3. destruct (ProcessStatement (chunk_text (body ++ [line])) db) as [[output db1]|]; [|done].
    specialize (IH [] (((out +:+ prompts (length body)) +:+ prompt (Nat.eqb (length body) 0)) +:+ shown output) db1 eq_refl).
    change (chunk_text []) with "" in IH. cbn [length prompts Nat.eqb] in IH. rewrite string_app_nil, Ed in IH.
    fold (shown output). rewrite IH. cbn [fst snd].
    unfold bind, ret. destruct (process_all (chunk_text <$> chunks) db1) as [[outputs db2]|]; [|done].
    do 2 f_equal. unfold transcript. cbn [zip_with foldr]. rewrite length_app, Nat.add_1_r, prompts_S. by rewrite !string_app_assoc.
  - rewrite <- IH by (by apply unfinished_snoc). rewrite length_app, Nat.add_1_r, prompts_S. cbn [Nat.eqb].
    by rewrite string_app_assoc.
Qed.

Lemma Repl_Run_spec text chunks rest db :
  division text chunks rest →
  Repl_Run text db =
    (let! outputs := process_all (chunk_text <$> chunks) in
     do! modify Database_FlushAll in
     ret (banner +:+ transcript chunks outputs rest)) db.
Proof.
  intros [Hlines%input_lines_unique Hc Hr].
  pose proof (repl_loop_spec (concat chunks ++ rest) [] banner db eq_refl) as Hl.
  rewrite divide_unique in Hl by done. cbn [fst snd] in Hl. change (chunk_text []) with "" in Hl.
  cbn [length prompts Nat.eqb] in Hl. rewrite string_app_nil in Hl. unfold Repl_Run. unfold bind at 1. rewrite <- Hlines, Hl.
  unfold bind. by destruct (process_all _ db) as [[outputs db1]|].
Qed.

Lemma division_exists text :
  ∃ chunks rest, division text chunks rest ∧
    ∀ chunks' rest', division text chunks' rest' → chunks' = chunks ∧ rest' = rest.
Proof.
  destruct (input_lines_exists text) as [ls Hls]. pose proof (divide_spec ls [] ltac:(done) eq_refl) as Hd.
  destruct (divide ls []) as [chunks rest]. destruct Hd as (El & Hc & Hr). cbn [app] in El.
  exists chunks, rest. split; [split; [by rewrite <- El|done|done]|]. intros chunks' rest' [Hl' Hc' Hr'].
  apply input_lines_unique in Hls, Hl'. pose proof (divide_unique chunks rest Hc Hr) as E.
  pose proof (divide_unique chunks' rest' Hc' Hr') as E'. rewrite Hl', <- Hls, El, E in E'. by injection E' as -> ->.
Qed.

(** ** What the statements do *)

(** What is printed for a result. *)
Definition printed (r : Result QueryResult) : string :=
  match r with
  | Err e => "ERROR: " +:+ message_ e
  | Ok q => result_text q
  end.

(** The texts of a session on a map of tables and the names of the indexes. *)
Fixpoint sql_session (texts : list string) (a : Db) (d : Directory) (outputs : list string) (a' : Db) (d' : Directory) : Prop :=
  match texts, outputs with
  | [], [] => a' = a ∧ d' = d
  | text :: texts', output :: outputs' =>
      if decide (blanks text) then output = "" ∧ sql_session texts' a d outputs' a' d'
      else match ParseSQL (String.list_ascii_of_string text) with
           | None => False
           | Some (Err e) => output = "ERROR: " +:+ message_ e ∧ sql_session texts' a d outputs' a' d'
           | Some (Ok stmt) => ∃ r a1 d1, sql_step stmt a d r a1 d1 ∧ output = printed r ∧ sql_session texts' a1 d1 outputs' a' d'
           end
  | _, _ => False
  end.

(** Each statement meets its conditions when its turn comes, and the database
    can be read again at the end. *)
Fixpoint session_ok (texts : list string) (db : Db_) : Prop :=
  match texts with
  | [] => db_room fuel 0 db
  | text :: texts' =>
      if decide (blanks text) then session_ok texts' db
      else match ParseSQL (String.list_ascii_of_string text) with
           | Some (Ok stmt) =>
               complete_order (order db) (indexes_ (catalog (table_manager_ db)).2) ∧
               (∀ a, db_wf db a → stmt_ok fuel (order db) stmt db a) ∧
               ∀ r db', Execute fuel (order db) stmt db = Some (r, db') → session_ok texts' db'
           | _ => session_ok texts' db
           end
  end.

Lemma process_all_spec texts : ∀ db a,
  db_wf db a → session_ok texts db →
  ∃ outputs db' a', process_all texts db = Some (outputs, db') ∧ sql_session texts a (directory db) outputs a' (directory db') ∧
    db_wf db' a' ∧ db_room fuel 0 db'.
Proof.
  induction texts as [|text texts IH]; intros db a Hwf Hok; cbn [session_ok] in Hok.
  { exists [], db, a. done. }
  cbn [process_all]. unfold bind at 1. unfold ProcessStatement. rewrite blank_decide.
  destruct (bool_decide (blanks text)) eqn:Eb; [apply bool_decide_eq_true in Eb|apply bool_decide_eq_false in Eb];
    [rewrite decide_True in Hok by done|rewrite decide_False in Hok by done].
  { destruct (IH db a Hwf Hok) as (outputs & db' & a' & E & Hs & ?). exists ("" :: outputs), db', a'.
    unfold ret at 1, bind. rewrite E. cbn [sql_session]. by rewrite decide_True. }
  destruct (ParseSQL_total (String.list_ascii_of_string text)) as (r & Ep & _). rewrite Ep in Hok |- *.
  destruct r as [stmt|e].
  - destruct Hok as (Hord & Hst & Hnext). destruct (execute_step fuel (order db) stmt db a Hwf Hord (Hst a Hwf)) as (r & db1 & a1 & E1 & Hs1 & Hwf1).
    destruct (IH db1 a1 Hwf1 (Hnext r db1 E1)) as (outputs & db' & a' & E & Hs & ?).
    exists (printed r :: outputs), db', a'. unfold bind. rewrite E1. split; [|split; [|done]].
    + destruct r as [q|e]; [rewrite FormatQueryResult_text|]; unfold ret; by rewrite E.
    + cbn [sql_session]. rewrite decide_False, Ep by done. by exists r, a1, (directory db1).
  - destruct (IH db a Hwf Hok) as (outputs & db' & a' & E & Hs & ?). exists (("ERROR: " +:+ message_ e) :: outputs), db', a'.
    unfold ret at 1, bind. rewrite E. cbn [sql_session]. by rewrite decide_False, Ep.
Qed.
End repl.

(** ** The theorem *)

(** C6: the shell carries out what is typed.  Its input has exactly one
    division into lines, the chunks of lines that each end with the first line
    that has a semicolon after an even number of that line's quotes, and what
    is left: an unfinished chunk, or [.exit] or [.quit] at the start of a chunk
    with all that follows.  If each chunk that is not blank and parses is a
    statement that meets its conditions when its turn comes ([session_ok]), the
    shell returns; each chunk is executed as one statement, in order, as SQL
    prescribes; the screen shows the banner and, for each chunk, its prompts
    and its output; and when the shell ends the three files hold the database:
    it can be opened again with the tables and indexes the statements left. *)
Theorem repl_session_correct fuel order text (db : Db_) a :
  (∃ chunks rest, division text chunks rest ∧
     ∀ chunks' rest', division text chunks' rest' → chunks' = chunks ∧ rest' = rest) ∧
  ∀ chunks rest, division text chunks rest →
  db_wf db a → session_ok fuel order (chunk_text <$> chunks) db →
  ∃ outputs db' a',
    Repl_Run fuel order text db =
      Some (("MiniDB -- type SQL statements ending in ';', or .exit to quit." +:+ newline) +:+
            transcript chunks outputs rest, db') ∧
    sql_session (chunk_text <$> chunks) a (directory db) outputs a' (directory db') ∧
    let '(catalog_file, data_file, index_file) := Database_close db' in
    ∃ db'', Database_open fuel (Some catalog_file) (Some data_file) (Some index_file) = Some db'' ∧
      db_wf db'' a' ∧ directory db'' = directory db'.
Proof.
  split; [apply division_exists|]. intros chunks rest Hdiv Hwf Hok.
  pose proof (Repl_Run_spec fuel order text chunks rest db Hdiv) as Hrun.
  destruct (process_all_spec fuel order _ db a Hwf Hok) as (outputs & db1 & a' & E & Hs & Hwf1 & Hroom).
  exists outputs, (Database_FlushAll db1), a'. unfold bind in Hrun. rewrite E in Hrun. split; [exact Hrun|].
  split; [exact Hs|]. exact (Database_reopen fuel db1 a' Hwf1 Hroom).
Qed.

(** ** Witness *)

Definition typed : string :=
  "CREATE TABLE people (" +:+ newline +:+ "  id INT, name VARCHAR(20));" +:+ newline +:+ ".exit" +:+ newline.

Definition typed_chunk : list string := ["CREATE TABLE people ("; "  id INT, name VARCHAR(20));"].

Lemma typed_division : division typed [typed_chunk] [".exit"].
Proof.
  split.
  - exists (typed_chunk ++ [".exit"]), "". split; [done|]. split; [done|].
    assert (forallb (λ l, negb (existsb (Ascii.eqb "010") (String.list_ascii_of_string l))) ((typed_chunk ++ [".exit"]) ++ [""]) = true)
      as Hb by (vm_compute; reflexivity).
    rewrite forallb_forall in Hb. apply Forall_forall. intros l Hl%list_elem_of_In%Hb Hin%list_elem_of_In.
    apply negb_true_iff in Hl. assert (existsb (Ascii.eqb "010") (String.list_ascii_of_string l) = true); [|congruence].
    apply existsb_exists. by exists "010"%char.
  - constructor; [|done]. eexists [_], _. split; [reflexivity|]. split_and!.
    + constructor; [|done]. apply terminated_false. vm_compute. reflexivity.
    + apply terminated_iff. vm_compute. reflexivity.
    + rewrite <- starts_with_exit_iff. vm_compute. discriminate.
  - right. apply starts_with_exit_iff. vm_compute. reflexivity.
Qed.

Lemma typed_parses :
  ¬ blanks (chunk_text typed_chunk) ∧
  ParseSQL (String.list_ascii_of_string (chunk_text typed_chunk)) = Some (Ok create_people).
Proof.
  split; [|vm_compute; reflexivity]. apply (bool_decide_eq_false (blanks (chunk_text typed_chunk))).
  rewrite <- blank_decide. vm_compute. reflexivity.
Qed.

Lemma typed_ok db :
  sample 200 sample0 = Some db → directory db = ∅ →
  session_ok 200 (λ _, []) (chunk_text <$> [typed_chunk]) db.
Proof.
  intros E Hd. cbn [fmap list_fmap session_ok]. destruct typed_parses as [Hb Ep]. rewrite decide_False, Ep by exact Hb.
  split; [exact (complete_order_empty db Hd)|].
  split; [intros a _; exact (create_people_ok a db Hd (sample0_room db E))|]. intros r db' Er.
  eapply db_room_weaken; [|exact (sample1_room db' (sample_step 200 sample0 [] create_people db r db' E Er))]. lia.
Qed.

Lemma repl_session_correct_witness :
  ∃ db outputs db' a', sample 200 sample0 = Some db ∧
    Repl_Run 200 (λ _, []) typed db = Some (banner +:+ transcript [typed_chunk] outputs [".exit"], db') ∧
    sql_session [chunk_text typed_chunk] ∅ ∅ outputs a' (directory db').
Proof.
  destruct (sample0_wf 200) as (db & E & Hwf & Hd).
  destruct (proj2 (repl_session_correct 200 (λ _, []) typed db ∅) _ _ typed_division Hwf (typed_ok db E Hd))
    as (outputs & db' & a' & Er & Hs & _).
  rewrite Hd in Hs. exists db, outputs, db', a'. exact (conj E (conj Er Hs)).
Defined.
