(* ===== verification/Protocol.v ===== *)
(** * The wire protocol: src/network/protocol.hpp, protocol.cpp

    Frames over a stream socket.  The socket calls are the operating system's;
    what the protocol relies on of [send] and [recv] is the interface
    [SocketSpec]: they may move fewer bytes than asked, be interrupted, or
    fail. *)

From S2P Require Import Prelude Util Value.
From coqutil Require Word.LittleEndianList.

Import LittleEndianList.

(** ** The socket interface *)

Class Socket (S : Type) := {
  SocketSend : bytes → S → Z * S;
  (** The result of the call and the bytes stored in the buffer. *)
  SocketRecv : Z → S → (Z * bytes) * S;
  (** [errno == EINTR] after the last call. *)
  WasInterrupted : S → bool
}.

(** What can be said of a connection: the bytes it has accepted for sending,
    the bytes that are to arrive before the peer closes it, a bound on the
    interruptions still to come, and whether it stays up. *)
Class SocketView (S : Type) := {
  outgoing : S → bytes;
  incoming : S → bytes;
  interruptions : S → nat;
  alive : S → Prop
}.

(** A call that moved nothing: interrupted (which happens finitely often), or
    failed, which does not happen while the connection is up. *)
Definition sock_idle {S : Type} `{Socket S, SocketView S} (s s' : S) : Prop :=
  outgoing s' = outgoing s ∧ incoming s' = incoming s ∧
  (interruptions s' ≤ interruptions s)%nat ∧
  (WasInterrupted s' = true → (interruptions s' < interruptions s)%nat) ∧
  (alive s → alive s').

Class SocketSpec (S : Type) `{Socket S, SocketView S} : Prop := {
  send_law data s n s' :
    0 < blen data → SocketSend data s = (n, s') →
    (n ≤ 0 ∧ sock_idle s s' ∧ (alive s → WasInterrupted s' = true)) ∨
    (0 < n ≤ blen data ∧ outgoing s' = outgoing s ++ take (Z.to_nat n) data ∧
     incoming s' = incoming s ∧ (interruptions s' ≤ interruptions s)%nat ∧ (alive s → alive s'));
  recv_law len s n bs s' :
    0 < len → SocketRecv len s = ((n, bs), s') →
    (n < 0 ∧ sock_idle s s' ∧ (alive s → WasInterrupted s' = true)) ∨
    (n = 0 ∧ incoming s = [] ∧ s' = s) ∨
    (0 < n ≤ len ∧ n ≤ blen (incoming s) ∧ bs = take (Z.to_nat n) (incoming s) ∧
     incoming s' = drop (Z.to_nat n) (incoming s) ∧
     outgoing s' = outgoing s ∧ (interruptions s' ≤ interruptions s)%nat ∧ (alive s → alive s'))
}.

(** ** Operations

    [fuel] bounds the iterations of the two loops, which the source does not
    bound. *)

Definition kMaxFrameSize : Z := 64 * 1024 * 1024.

(** Byte order conversions on a little-endian host. *)
Definition htonl (v : Z) : Z := le_combine (rev (le_split 4 v)).
Definition ntohl (v : Z) : Z := htonl v.

Section protocol.
Context {S : Type} `{Socket S}.

(** [data] is what is left to send. *)
Fixpoint WriteAll (fuel : nat) (data : bytes) : M S bool :=
  match fuel with
  | O => undefined_behaviour
  | Datatypes.S fuel' => λ s,
      if 0 <? blen data then
        let '(n, s') := SocketSend data s in
        if n <=? 0 then
          if WasInterrupted s' then WriteAll fuel' data s' else ret false s'
        else WriteAll fuel' (drop (Z.to_nat n) data) s'
      else ret true s
  end.

(** [acc] is what has been received of [len] bytes. *)
Fixpoint ReadAll_loop (fuel : nat) (acc : bytes) (len : Z) : M S (bool * bytes) :=
  match fuel with
  | O => undefined_behaviour
  | Datatypes.S fuel' => λ s,
      if blen acc <? len then
        let '((n, bs), s') := SocketRecv (len - blen acc) s in
        if n =? 0 then ret (false, acc) s'
        else if n <? 0 then
          if WasInterrupted s' then ReadAll_loop fuel' acc len s' else ret (false, acc) s'
        else ReadAll_loop fuel' (acc ++ bs) len s'
      else ret (true, acc) s
  end.

Definition ReadAll (fuel : nat) (len : Z) : M S (bool * bytes) := ReadAll_loop fuel [] len.

Definition WriteFrame (fuel : nat) (payload : string) : M S Status :=
  let len_net := htonl (u32 (blen (string_bytes payload))) in
  let! sent := WriteAll fuel (le_split 4 len_net) in
  if negb sent then ret (IOError "WriteFrame: failed to write length prefix")
  else
    let! sent := WriteAll fuel (string_bytes payload) in
    if negb sent then ret (IOError "WriteFrame: failed to write payload")
    else ret Status_OK.

Definition ReadFrame (fuel : nat) : M S (Result string) :=
  let! r := ReadAll fuel 4 in
  if negb r.1 then ret (Err (IOError "ReadFrame: connection closed or read failed"))
  else
    let len := ntohl (le_combine r.2) in
    if kMaxFrameSize <? len then
      ret (Err (InvalidArgument "ReadFrame: advertised frame size exceeds maximum"))
    else if 0 <? len then
      let! r := ReadAll fuel len in
      if negb r.1 then ret (Err (IOError "ReadFrame: connection closed mid-payload"))
      else ret (Ok (bytes_string r.2))
    else ret (Ok "").

Definition WriteResponse (fuel : nat) (ok : bool) (payload : string) : M S Status :=
  let status_byte := byte_of_Z (if ok then 0 else 1) in
  let! sent := WriteAll fuel [status_byte] in
  if negb sent then ret (IOError "WriteResponse: failed to write status byte")
  else WriteFrame fuel payload.

Definition ReadResponse (fuel : nat) : M S (Result (bool * string)) :=
  let! r := ReadAll fuel 1 in
  if negb r.1 then ret (Err (IOError "ReadResponse: connection closed or read failed"))
  else
    let status_byte := default zero_byte (head r.2) in
    let! frame := ReadFrame fuel in
    match frame with
    | Err e => ret (Err e)
    | Ok payload => ret (Ok (bool_decide (Z_of_byte status_byte = 0), payload))
    end.

End protocol.

(** ** The bytes of a frame *)

Definition frame_bytes (payload : string) : bytes :=
  rev (le_split 4 (blen (string_bytes payload))) ++ string_bytes payload.
Definition response_bytes (ok : bool) (payload : string) : bytes :=
  byte_of_Z (if ok then 0 else 1) :: frame_bytes payload.

(** What a reader makes of a stream of bytes, and the bytes it leaves. *)
Definition parse_frame (bs : bytes) : Result string * bytes :=
  if blen bs <? 4 then (Err (IOError "ReadFrame: connection closed or read failed"), [])
  else
    let len := ntohl (le_combine (take 4 bs)) in
    let body := drop 4 bs in
    if kMaxFrameSize <? len then
      (Err (InvalidArgument "ReadFrame: advertised frame size exceeds maximum"), body)
    else if blen body <? len then (Err (IOError "ReadFrame: connection closed mid-payload"), [])
    else (Ok (bytes_string (take (Z.to_nat len) body)), drop (Z.to_nat len) body).

Definition parse_response (bs : bytes) : Result (bool * string) * bytes :=
  match bs with
  | [] => (Err (IOError "ReadResponse: connection closed or read failed"), [])
  | b :: bs' =>
      match parse_frame bs' with
      | (Err e, rest) => (Err e, rest)
      | (Ok payload, rest) => (Ok (bool_decide (Z_of_byte b = 0), payload), rest)
      end
  end.

Lemma split_htonl v : le_split 4 (htonl v) = rev (le_split 4 v).
Proof.
  unfold htonl. rewrite <- (split_le_combine (rev (le_split 4 v))) at 2.
  by rewrite length_rev, length_le_split.
Qed.

Lemma ntohl_rev v : in_u32 v → ntohl (le_combine (rev (le_split 4 v))) = v.
Proof.
  intros ?. unfold ntohl, htonl. pose proof (split_htonl v) as E. unfold htonl in E. rewrite E, rev_involutive.
  by apply le_combine_split_small.
Qed.

Lemma blen_rev_split v : blen (rev (le_split 4 v)) = 4.
Proof. unfold blen. by rewrite length_rev, length_le_split. Qed.

(** ** Lemmas: the loops *)

Section spec.
Context {S : Type} `{Hspec : SocketSpec S}.

(** Every byte is sent, in order, however the socket splits them. *)
Lemma WriteAll_spec fuel data (s : S) :
  (length data + interruptions s < fuel)%nat →
  ∃ sent s', WriteAll fuel data s = Some (sent, s') ∧ incoming s' = incoming s ∧
    (interruptions s' ≤ interruptions s)%nat ∧
    (alive s → sent = true ∧ alive s') ∧
    (∃ k, outgoing s' = outgoing s ++ take k data) ∧
    (sent = true → outgoing s' = outgoing s ++ data).
Proof.
  revert data s. induction fuel as [|fuel IH]; intros data s Hf; [lia|]. cbn [WriteAll].
  destruct (Z.ltb_spec 0 (blen data)) as [Hlt|Hge].
  2:{ assert (data = []) as -> by (apply nil_length_inv; blia).
      eexists _, _. split_and!; [reflexivity|done|done|done| |by rewrite app_nil_r].
      exists O. by rewrite app_nil_r. }
  destruct (SocketSend data s) as [n s1] eqn:E.
  destruct (send_law data s n s1 Hlt E) as [(Hn & (Ho & Hi & Hle & Hint & Hal) & Hup)|(Hn & Ho & Hi & Hle & Hal)].
  - destruct (Z.leb_spec n 0); [|lia]. destruct (WasInterrupted s1) eqn:Hw.
    + specialize (Hint eq_refl). destruct (IH data s1) as (sent & s' & ? & ? & ? & Ha & Hk & Ht); [lia|].
      rewrite Ho in *. exists sent, s'. split_and!; [done|congruence|lia|tauto|done|done].
    + exists false, s1. split_and!; [done..| | |done].
      * intros Ha. by specialize (Hup Ha).
      * exists O. by rewrite Ho, take_0, app_nil_r.
  - destruct (Z.leb_spec n 0); [lia|].
    destruct (IH (drop (Z.to_nat n) data) s1) as (sent & s' & ? & ? & ? & Ha & [k Hk] & Ht).
    { rewrite length_drop. blia. }
    exists sent, s'. split_and!; [done|congruence|lia|tauto| |].
    + exists (Z.to_nat n + k)%nat. rewrite Hk, Ho, <- app_assoc. f_equal.
      by rewrite take_take_drop.
    + intros ->. rewrite Ht, Ho, <- app_assoc by done. f_equal. apply take_drop.
Qed.

(** The bytes received are the next ones of the stream, in order. *)
Lemma ReadAll_spec fuel acc len (s : S) :
  (length (incoming s) + interruptions s < fuel)%nat → blen acc ≤ len →
  ∃ ok got s', ReadAll_loop fuel acc len s = Some ((ok, acc ++ got), s') ∧
    outgoing s' = outgoing s ∧ (interruptions s' ≤ interruptions s)%nat ∧
    incoming s = got ++ incoming s' ∧ (alive s → alive s') ∧
    (ok = true → blen (acc ++ got) = len) ∧
    (ok = false → alive s → incoming s' = [] ∧ blen (acc ++ got) < len).
Proof.
  revert acc s. induction fuel as [|fuel IH]; intros acc s Hf Hacc; [lia|]. cbn [ReadAll_loop].
  destruct (Z.ltb_spec (blen acc) len) as [Hlt|Hge].
  2:{ exists true, [], s. rewrite app_nil_r. split_and!; [done..|lia|done]. }
  destruct (SocketRecv (len - blen acc) s) as [[n bs] s1] eqn:E.
  destruct (recv_law (len - blen acc) s n bs s1 ltac:(lia) E)
    as [(Hn & (Ho & Hi & Hle & Hint & Hal) & Hup)|[(-> & Hi & ->)|(Hn & Hb & -> & Hi & Ho & Hle & Hal)]].
  - destruct (Z.eqb_spec n 0); [lia|]. destruct (Z.ltb_spec n 0); [|lia]. destruct (WasInterrupted s1) eqn:Hw.
    + specialize (Hint eq_refl).
      destruct (IH acc s1) as (ok & got & s' & ? & ? & ? & Hin & ? & ? & ?); [rewrite Hi; lia|done|].
      exists ok, got, s'. split_and!; [done|congruence|lia|congruence|tauto|done|tauto].
    + exists false, [], s1. rewrite app_nil_r. split_and!; [done|done|done|done|done|done|].
      intros _ Ha. by specialize (Hup Ha).
  - exists false, [], s. rewrite app_nil_r. split_and!; [done..|]. intros _ _. by split.
  - destruct (Z.eqb_spec n 0); [lia|]. destruct (Z.ltb_spec n 0); [lia|].
    assert (blen (take (Z.to_nat n) (incoming s)) = n) as Hlen.
    { unfold blen in *. rewrite length_take. lia. }
    destruct (IH (acc ++ take (Z.to_nat n) (incoming s)) s1)
      as (ok & got & s' & Hr & ? & ? & Hin & ? & Hok & Hko); [rewrite Hi, length_drop; blia|rewrite blen_app; lia|].
    exists ok, (take (Z.to_nat n) (incoming s) ++ got), s'. rewrite app_assoc.
    split_and!; [done|congruence|lia| |tauto|done|tauto].
    rewrite <- app_assoc, <- Hin, Hi. by rewrite take_drop.
Qed.

Lemma ReadAll_stream fuel len (s : S) :
  (length (incoming s) + interruptions s < fuel)%nat → 0 ≤ len →
  ∃ ok got s', ReadAll fuel len s = Some ((ok, got), s') ∧ outgoing s' = outgoing s ∧
    (length (incoming s') + interruptions s' < fuel)%nat ∧ (alive s → alive s') ∧
    (ok = true → len ≤ blen (incoming s) ∧ got = take (Z.to_nat len) (incoming s) ∧
                 incoming s' = drop (Z.to_nat len) (incoming s)) ∧
    (alive s → ok = false → blen (incoming s) < len ∧ incoming s' = []).
Proof.
  intros Hf Hlen.
  destruct (ReadAll_spec fuel [] len s Hf ltac:(by rewrite blen_nil))
    as (ok & got & s' & E & ? & ? & Hin & ? & Hok & Hko). cbn [app] in *.
  exists ok, got, s'. split_and!; [exact E|done| |done| |].
  - rewrite Hin, length_app in Hf. lia.
  - intros Ht. specialize (Hok Ht). rewrite Hin, blen_app.
    assert (Z.to_nat len = length got) as -> by blia. rewrite take_app_length, drop_app_length.
    split_and!; [blia|done|done].
  - intros Ha Hn. destruct (Hko Hn Ha) as [Hnil ?]. rewrite Hnil, app_nil_r in Hin. by rewrite Hin.
Qed.

Lemma WriteAll_complete fuel data (s : S) :
  (length data + interruptions s < fuel)%nat → alive s →
  ∃ s', WriteAll fuel data s = Some (true, s') ∧ outgoing s' = outgoing s ++ data ∧
        incoming s' = incoming s ∧ (interruptions s' ≤ interruptions s)%nat ∧ alive s'.
Proof.
  intros Hf Ha. destruct (WriteAll_spec fuel data s Hf) as (sent & s' & E & ? & ? & Hal & _ & Hs).
  destruct (Hal Ha) as [-> ?]. exists s'. split_and!; auto.
Qed.

(** ** Lemmas: frames *)

Lemma WriteFrame_spec fuel payload (s : S) :
  blen (string_bytes payload) < 2 ^ 32 → alive s →
  (4 + length (string_bytes payload) + interruptions s < fuel)%nat →
  ∃ s', WriteFrame fuel payload s = Some (Status_OK, s') ∧
        outgoing s' = outgoing s ++ frame_bytes payload ∧ incoming s' = incoming s ∧
        (interruptions s' ≤ interruptions s)%nat ∧ alive s'.
Proof.
  intros Hl Ha Hf. unfold WriteFrame. rewrite split_htonl, u32_small by (split; [blia|done]).
  destruct (WriteAll_complete fuel (rev (le_split 4 (blen (string_bytes payload)))) s) as (s1 & E1 & Ho1 & Hi1 & ? & Ha1);
    [rewrite length_rev, length_le_split; lia|done|].
  erewrite bind_Some by exact E1. cbn [negb].
  destruct (WriteAll_complete fuel (string_bytes payload) s1) as (s2 & E2 & Ho2 & Hi2 & ? & Ha2); [lia|done|].
  erewrite bind_Some by exact E2. exists s2. split_and!; [done| |congruence|lia|done].
  unfold frame_bytes. by rewrite Ho2, Ho1, <- app_assoc.
Qed.

Lemma ntohl_range bs : blen bs = 4 → in_u32 (ntohl (le_combine bs)).
Proof.
  intros Hb. unfold ntohl, htonl.
  pose proof (le_combine_range (rev (le_split 4 (le_combine bs)))) as Hr.
  rewrite blen_rev_split in Hr. exact Hr.
Qed.

(** Reading a frame is parsing the stream, while the connection is up; a frame
    that is read is one of the stream in any case. *)
Lemma ReadFrame_refines fuel (s : S) :
  (length (incoming s) + interruptions s < fuel)%nat →
  ∃ r s', ReadFrame fuel s = Some (r, s') ∧ outgoing s' = outgoing s ∧ (alive s → alive s') ∧
    (alive s ∨ result_ok r = true → parse_frame (incoming s) = (r, incoming s')).
Proof.
  intros Hf. unfold ReadFrame.
  destruct (ReadAll_stream fuel 4 s Hf ltac:(lia)) as (ok & hd & s1 & E1 & Ho1 & Hf1 & Hal1 & Hok1 & Hko1).
  erewrite bind_Some by exact E1. cbn [fst snd]. unfold parse_frame. destruct ok; cbn [negb].
  2:{ eexists _, s1. split_and!; [reflexivity|done|done|]. intros [Ha|Hr]; [|done].
      destruct (Hko1 Ha eq_refl) as [Hlt Hnil]. apply Z.ltb_lt in Hlt. by rewrite Hlt, Hnil. }
  destruct (Hok1 eq_refl) as (Hge & -> & Hin1). apply Z.ltb_ge in Hge as Hg. rewrite Hg. clear Hg.
  change (Z.to_nat 4) with 4%nat in *. rewrite <- Hin1.
  assert (in_u32 (ntohl (le_combine (take 4 (incoming s))))) as Hlen.
  { apply ntohl_range. unfold blen in *. rewrite length_take. lia. }
  set (len := ntohl (le_combine (take 4 (incoming s)))) in *.
  destruct (Z.ltb_spec kMaxFrameSize len); [by eexists _, s1|].
  destruct (Z.ltb_spec 0 len) as [Hpos|Hz].
  2:{ eexists _, s1. split_and!; [reflexivity|done|done|]. intros _.
      assert (len = 0) as -> by (unfold in_u32 in Hlen; lia).
      destruct (Z.ltb_spec (blen (incoming s1)) 0); [blia|]. done. }
  destruct (ReadAll_stream fuel len s1 Hf1 ltac:(lia)) as (ok & body & s2 & E2 & Ho2 & _ & Hal2 & Hok2 & Hko2).
  erewrite bind_Some by exact E2. cbn [fst snd]. destruct ok; cbn [negb].
  - destruct (Hok2 eq_refl) as (Hge2 & -> & Hin2).
    eexists _, s2. split_and!; [reflexivity|congruence|tauto|]. intros _.
    apply Z.ltb_ge in Hge2 as ->. by rewrite Hin2.
  - eexists _, s2. split_and!; [reflexivity|congruence|tauto|]. intros [Ha|Hr]; [|done].
    destruct (Hko2 (Hal1 Ha) eq_refl) as [Hlt Hnil]. apply Z.ltb_lt in Hlt as ->. by rewrite Hnil.
Qed.

Lemma ReadResponse_refines fuel (s : S) :
  (length (incoming s) + interruptions s < fuel)%nat →
  ∃ r s', ReadResponse fuel s = Some (r, s') ∧ outgoing s' = outgoing s ∧ (alive s → alive s') ∧
    (alive s ∨ result_ok r = true → parse_response (incoming s) = (r, incoming s')).
Proof.
  intros Hf. unfold ReadResponse.
  destruct (ReadAll_stream fuel 1 s Hf ltac:(lia)) as (ok & hd & s1 & E1 & Ho1 & Hf1 & Hal1 & Hok1 & Hko1).
  erewrite bind_Some by exact E1. cbn [fst snd]. unfold parse_response. destruct ok; cbn [negb].
  2:{ eexists _, s1. split_and!; [reflexivity|done|done|]. intros [Ha|Hr]; [|done].
      destruct (Hko1 Ha eq_refl) as [Hlt Hnil]. rewrite Hnil. destruct (incoming s); [done|].
      rewrite blen_cons in Hlt. blia. }
  destruct (Hok1 eq_refl) as (Hge & -> & Hin1). change (Z.to_nat 1) with 1%nat in *.
  destruct (incoming s) as [|b bs]; [by apply Z.leb_le in Hge|]. cbn [take drop head default from_option id] in *.
  destruct (ReadFrame_refines fuel s1 Hf1) as (r & s2 & E2 & Ho2 & Hal2 & Hr).
  erewrite bind_Some by exact E2. rewrite Hin1, drop_0 in Hr.
  destruct r as [payload|e]; (eexists _, s2; split_and!; [reflexivity|congruence|tauto|]).
  - intros _. rewrite Hr; [done|]. by right.
  - intros [Ha|Ht]; rewrite Hr; [done|by left; auto|done|by right].
Qed.

End spec.

(** ** A socket to test against

    A socket that follows a script: each call moves at most the bytes the next
    event allows, or is interrupted, or fails. *)

Inductive SockEvent := EvBytes (n : positive) | EvInterrupt | EvFail.

Record ScriptSocket := mkScript {
  ss_script : list SockEvent;
  ss_errno : bool;
  ss_out : bytes;
  ss_in : bytes
}.

Definition script_limit (s : ScriptSocket) (len : Z) : Z :=
  match ss_script s with EvBytes n :: _ => Z.min (Zpos n) len | _ => len end.

#[export] Instance script_socket : Socket ScriptSocket := {
  SocketSend data s :=
    let script' := tail (ss_script s) in
    match ss_script s with
    | EvInterrupt :: _ => (-1, mkScript script' true (ss_out s) (ss_in s))
    | EvFail :: _ => (-1, mkScript script' false (ss_out s) (ss_in s))
    | _ =>
        let n := script_limit s (blen data) in
        (n, mkScript script' false (ss_out s ++ take (Z.to_nat n) data) (ss_in s))
    end;
  SocketRecv len s :=
    let script' := tail (ss_script s) in
    match ss_script s with
    | EvInterrupt :: _ => ((-1, []), mkScript script' true (ss_out s) (ss_in s))
    | EvFail :: _ => ((-1, []), mkScript script' false (ss_out s) (ss_in s))
    | _ =>
        if decide (ss_in s = []) then ((0, []), s)
        else
          let n := Z.min (script_limit s len) (blen (ss_in s)) in
          ((n, take (Z.to_nat n) (ss_in s)),
           mkScript script' false (ss_out s) (drop (Z.to_nat n) (ss_in s)))
    end;
  WasInterrupted s := ss_errno s
}.

#[export] Instance script_view : SocketView ScriptSocket := {
  outgoing := ss_out;
  incoming := ss_in;
  interruptions s := length (ss_script s);
  alive s := Forall (λ e, match e with EvFail => False | _ => True end) (ss_script s)
}.

#[export] Instance script_spec : SocketSpec ScriptSocket.
Proof.
  split.
  - intros data s n s' Hd. destruct s as [[|[k| |] script] err out inc]; cbn; intros [= <- <-].
    + right. split_and!; [lia|lia|done|done|done|done].
    + right. split_and!; [lia|lia|done|done|cbn; lia|by intros [_ ?]%Forall_cons_1].
    + left. unfold sock_idle. cbn. split_and!; [lia|done|done|lia|lia|by intros [_ ?]%Forall_cons_1|done].
    + left. unfold sock_idle. cbn. split_and!; [lia|done|done|lia|done|by intros [_ ?]%Forall_cons_1|].
      by intros [? _]%Forall_cons_1.
  - intros len s n bs s' Hd. destruct s as [[|[k| |] script] err out inc]; cbn;
      try (destruct (decide (inc = [])) as [->|Hne]);
      try (assert (0 < blen inc) by (destruct inc; [done|rewrite blen_cons; blia]));
      intros [= <- <- <-].
    + right; left. done.
    + right; right. split_and!; [lia|lia|lia|done|done|done|done|done].
    + right; left. done.
    + right; right. split_and!; [lia|lia|lia|done|done|done|cbn; lia|by intros [_ ?]%Forall_cons_1].
    + left. unfold sock_idle. cbn. split_and!; [lia|done|done|lia|lia|by intros [_ ?]%Forall_cons_1|done].
    + left. unfold sock_idle. cbn. split_and!; [lia|done|done|lia|lia|by intros [_ ?]%Forall_cons_1|done].
    + left. unfold sock_idle. cbn. split_and!; [lia|done|done|lia|done|by intros [_ ?]%Forall_cons_1|].
      by intros [? _]%Forall_cons_1.
    + left. unfold sock_idle. cbn. split_and!; [lia|done|done|lia|done|by intros [_ ?]%Forall_cons_1|].
      by intros [? _]%Forall_cons_1.
Qed.

Lemma parse_frame_bytes payload rest :
  blen (string_bytes payload) ≤ kMaxFrameSize → parse_frame (frame_bytes payload ++ rest) = (Ok payload, rest).
Proof.
  intros Hl. unfold parse_frame, frame_bytes. rewrite <- app_assoc, blen_app, blen_rev_split.
  destruct (Z.ltb_spec (4 + blen (string_bytes payload ++ rest)) 4); [blia|].
  rewrite take_app_length', drop_app_length' by (by rewrite length_rev, length_le_split).
  rewrite ntohl_rev by (unfold kMaxFrameSize in Hl; blia).
  destruct (Z.ltb_spec kMaxFrameSize (blen (string_bytes payload))); [lia|]. rewrite blen_app.
  destruct (Z.ltb_spec (blen (string_bytes payload) + blen rest) (blen (string_bytes payload))); [blia|].
  rewrite take_app_length', drop_app_length' by blia. by rewrite bytes_string_bytes.
Qed.

Lemma parse_response_bytes ok payload rest :
  blen (string_bytes payload) ≤ kMaxFrameSize →
  parse_response (response_bytes ok payload ++ rest) = (Ok (ok, payload), rest).
Proof.
  intros Hl. unfold response_bytes, parse_response. cbn [app]. rewrite parse_frame_bytes by done.
  by destruct ok.
Qed.

(** A sender does not bound what it sends: a payload over the readers' limit
    is written, and rejected with its bytes left in the stream. *)
Lemma oversized_frame_rejected {S : Type} `{Hspec : SocketSpec S} fuel payload rest (s : S) :
  kMaxFrameSize < blen (string_bytes payload) < 2 ^ 32 → alive s →
  (4 + length (string_bytes payload) + interruptions s < fuel)%nat →
  (∃ s', WriteFrame fuel payload s = Some (Status_OK, s') ∧ outgoing s' = outgoing s ++ frame_bytes payload) ∧
  parse_frame (frame_bytes payload ++ rest) =
  (Err (InvalidArgument "ReadFrame: advertised frame size exceeds maximum"), string_bytes payload ++ rest).
Proof.
  intros [Hl Hu] Ha Hf. split.
  - destruct (WriteFrame_spec fuel payload s Hu Ha Hf) as (s' & ? & ? & _). by exists s'.
  - unfold parse_frame, frame_bytes. rewrite <- app_assoc, blen_app, blen_rev_split.
    destruct (Z.ltb_spec (4 + blen (string_bytes payload ++ rest)) 4); [blia|].
    rewrite take_app_length', drop_app_length' by (by rewrite length_rev, length_le_split).
    rewrite ntohl_rev by (split; [blia|done]).
    by destruct (Z.ltb_spec kMaxFrameSize (blen (string_bytes payload))); [|lia].
Qed.

(** ** The theorems *)

(** C38: a response survives the network.  On a connection that stays up, with
    any split of the bytes over the [send] and [recv] calls and any finite
    number of interruptions at either end, what [WriteResponse] sends for a
    payload within the frame limit is what [ReadResponse] returns, and the
    reader is left exactly after it, so that responses can follow each
    other. *)
Theorem protocol_roundtrip {S1 S2 : Type} `{SocketSpec S1} `{SocketSpec S2} ok payload fuel (s : S1) :
  blen (string_bytes payload) ≤ kMaxFrameSize → alive s →
  (5 + length (string_bytes payload) + interruptions s < fuel)%nat →
  ∃ s' sent,
    WriteResponse fuel ok payload s = Some (Status_OK, s') ∧ alive s' ∧
    outgoing s' = outgoing s ++ sent ∧ incoming s' = incoming s ∧
    ∀ (r : S2) rest fuel',
      alive r → incoming r = sent ++ rest → (length (incoming r) + interruptions r < fuel')%nat →
      ∃ r', ReadResponse fuel' r = Some (Ok (ok, payload), r') ∧ alive r' ∧
            incoming r' = rest ∧ outgoing r' = outgoing r.
Proof.
  intros Hl Ha Hf. unfold WriteResponse.
  destruct (WriteAll_complete fuel [byte_of_Z (if ok then 0 else 1)] s) as (s1 & E1 & Ho1 & Hi1 & ? & Ha1);
    [simpl; lia|done|].
  destruct (WriteFrame_spec fuel payload s1) as (s2 & E2 & Ho2 & Hi2 & _ & Ha2);
    [unfold kMaxFrameSize in Hl; lia|done|lia|].
  exists s2, (response_bytes ok payload). split_and!; [by erewrite bind_Some by exact E1|done| |congruence|].
  { by rewrite Ho2, Ho1, <- app_assoc. }
  intros r rest fuel' Har Hin Hf'.
  destruct (ReadResponse_refines fuel' r Hf') as (res & r' & E & Ho & Hal & Hp).
  specialize (Hp (or_introl Har)). rewrite Hin, parse_response_bytes in Hp by done. injection Hp as <- Hrest.
  exists r'. split_and!; auto.
Qed.

Definition sample_sender : ScriptSocket := mkScript [EvInterrupt; EvBytes 3; EvBytes 2; EvInterrupt] false [] [].
Definition sample_receiver : ScriptSocket :=
  mkScript [EvBytes 1; EvBytes 1; EvInterrupt; EvBytes 2] false [] (response_bytes false "no such table").

Lemma protocol_roundtrip_witness :
  ∃ s' r', WriteResponse 30 false "no such table" sample_sender = Some (Status_OK, s') ∧
    outgoing s' = response_bytes false "no such table" ∧
    ReadResponse 30 sample_receiver = Some (Ok (false, "no such table"%string), r').
Proof.
  destruct (protocol_roundtrip (S1 := ScriptSocket) (S2 := ScriptSocket) false "no such table" 30 sample_sender)
    as (s' & sent & E & _ & Ho & _ & Hr).
  - vm_compute. discriminate.
  - repeat constructor.
  - vm_compute. lia.
  - assert (sent = response_bytes false "no such table") as ->.
    { vm_compute in E. injection E as <-. vm_compute in Ho. by rewrite <- Ho. }
    destruct (Hr sample_receiver [] 30%nat) as (r' & E' & _).
    + repeat constructor.
    + by rewrite app_nil_r.
    + vm_compute. lia.
    + exists s', r'. split_and!; [exact E|exact Ho|exact E'].
Defined.

(** C39: reading is parsing the stream of bytes.  [ReadFrame] and
    [ReadResponse] return on every connection; while it stays up, their result
    and the bytes they leave are those of the parsers [parse_frame] and
    [parse_response] on the incoming bytes, however these are split (errors
    included: closed early, closed within the payload, length over the limit);
    and on any connection a successful result is that of the parser. *)
Theorem protocol_read_refines {S : Type} `{SocketSpec S} fuel (s : S) :
  (length (incoming s) + interruptions s < fuel)%nat →
  (∃ r s', ReadFrame fuel s = Some (r, s') ∧ outgoing s' = outgoing s ∧
     (alive s ∨ result_ok r = true → parse_frame (incoming s) = (r, incoming s'))) ∧
  (∃ r s', ReadResponse fuel s = Some (r, s') ∧ outgoing s' = outgoing s ∧
     (alive s ∨ result_ok r = true → parse_response (incoming s) = (r, incoming s'))).
Proof.
  intros Hf. split.
  - destruct (ReadFrame_refines fuel s Hf) as (r & s' & ? & ? & _ & ?). by exists r, s'.
  - destruct (ReadResponse_refines fuel s Hf) as (r & s' & ? & ? & _ & ?). by exists r, s'.
Qed.

Lemma protocol_read_refines_witness :
  ∃ s', ReadFrame 30 (mkScript [EvBytes 2; EvInterrupt] false [] [byte_of_Z 0; byte_of_Z 0; byte_of_Z 0]) =
        Some (Err (IOError "ReadFrame: connection closed or read failed"), s') ∧
        parse_frame [byte_of_Z 0; byte_of_Z 0; byte_of_Z 0] =
        (Err (IOError "ReadFrame: connection closed or read failed"), incoming s').
Proof.
  destruct (protocol_read_refines 30 (mkScript [EvBytes 2; EvInterrupt] false [] [byte_of_Z 0; byte_of_Z 0; byte_of_Z 0]))
    as [(r & s' & E & _ & Hp) _].
  - vm_compute. lia.
  - specialize (Hp ltac:(left; repeat constructor)). vm_compute in E. injection E as <- <-.
    eexists. split; [vm_compute; reflexivity|exact Hp].
Defined.
