(* ===== verification/Listener.v ===== *)
(** * Starting and stopping the server: src/network/tcp_server.cpp

    [TCPServer::Start] and [Stop] over the operating system's socket calls, which
    are an interface: a call may fail, and the descriptors that are open are what
    is known of the system.  A start that fails leaves no descriptor behind, and
    neither does a start followed by a stop. *)

From S2P Require Import Prelude Util.

(** ** The calls *)

Class SocketApi (W : Type) := {
  (** [None] is [kInvalidSocket]. *)
  sys_socket : W → option Z * W;
  sys_reuse_address : Z → W → W;
  (** The port is in host order; the result is whether the call succeeded. *)
  sys_bind : Z → Z → W → bool * W;
  sys_getsockname : Z → W → option Z * W;
  sys_listen : Z → Z → W → bool * W;
  sys_close : Z → W → W
}.

Class SocketApiView (W : Type) := { open_descriptors : W → gset Z }.

Class SocketApiSpec (W : Type) `{SocketApi W, SocketApiView W} : Prop := {
  socket_law w r w' :
    sys_socket w = (r, w') →
    match r with
    | Some fd => (fd ∉ open_descriptors w) ∧ open_descriptors w' = {[fd]} ∪ open_descriptors w
    | None => open_descriptors w' = open_descriptors w
    end;
  reuse_law fd w : open_descriptors (sys_reuse_address fd w) = open_descriptors w;
  bind_law fd port w : open_descriptors (sys_bind fd port w).2 = open_descriptors w;
  name_law fd w : open_descriptors (sys_getsockname fd w).2 = open_descriptors w;
  listen_law fd backlog w : open_descriptors (sys_listen fd backlog w).2 = open_descriptors w;
  close_law fd w : open_descriptors (sys_close fd w) = open_descriptors w ∖ {[fd]}
}.

(** ** Start *)

(** The members [Start] and [Stop] set: [listen_fd_] is [None] for
    [kInvalidSocket], [accept_thread_] is whether the thread is joinable. *)
Record Listener := mkListener {
  listen_fd_ : option Z;
  port_ : Z;
  listener_running_ : bool;
  accept_thread_ : bool
}.

Definition not_listening (p : Z) (l : Listener) : Listener := mkListener None p (listener_running_ l) (accept_thread_ l).

Definition kBacklog : Z := 16.

(** Assigning to a thread that is joinable terminates the program. *)
Definition Start {W : Type} `{SocketApi W} (port : Z) : M (Listener * W) Status :=
  λ '(l, w),
    match sys_socket w with
    | (None, w) => Some (IOError "TCPServer::Start: socket() failed", (not_listening (port_ l) l, w))
    | (Some fd, w) =>
        let w := sys_reuse_address fd w in
        match sys_bind fd (u16 port) w with
        | (false, w) => Some (IOError "TCPServer::Start: bind() failed", (not_listening (port_ l) l, sys_close fd w))
        | (true, w) =>
            let '(name, w) := sys_getsockname fd w in
            let p := default port name in
            match sys_listen fd kBacklog w with
            | (false, w) => Some (IOError "TCPServer::Start: listen() failed", (not_listening p l, sys_close fd w))
            | (true, w) =>
                if accept_thread_ l then None else Some (Status_OK, (mkListener (Some fd) p true true, w))
            end
        end
    end.

(** The threads are joined, which waits for them to end. *)
Definition Stop {W : Type} `{SocketApi W} : M (Listener * W) unit :=
  λ '(l, w),
    if listener_running_ l then
      match listen_fd_ l with
      | Some fd => Some (tt, (mkListener None (port_ l) false false, sys_close fd w))
      | None => Some (tt, (mkListener None (port_ l) false false, w))
      end
    else Some (tt, (l, w)).

(** ** What they leave open *)

(** A start of a server that is not running returns: it either has the server
    running on a new descriptor, and opens nothing else, or reports an I/O error
    with the server as it was and every descriptor it opened closed. *)
Theorem start_leaks_nothing {W : Type} `{SocketApiSpec W} port l (w : W) :
  accept_thread_ l = false →
  ∃ st l' w', Start port (l, w) = Some (st, (l', w')) ∧
    if status_ok st then
      ∃ fd, l' = mkListener (Some fd) (port_ l') true true ∧ (fd ∉ open_descriptors w) ∧
        open_descriptors w' = {[fd]} ∪ open_descriptors w
    else code_ st = kIOError ∧ l' = not_listening (port_ l') l ∧ open_descriptors w' = open_descriptors w.
Proof.
  intros Hacc. unfold Start. destruct (sys_socket w) as [[fd|] w1] eqn:E1; pose proof (socket_law _ _ _ E1) as Hs; cbn in Hs.
  2: by eexists _, _, w1.
  destruct Hs as [Hfresh Hopen].
  pose proof (bind_law fd (u16 port) (sys_reuse_address fd w1)) as Hb. destruct (sys_bind _ _ _) as [[] w2]; cbn [snd] in Hb.
  - pose proof (name_law fd w2) as Hn. destruct (sys_getsockname fd w2) as [name w3]. cbn [snd] in Hn.
    pose proof (listen_law fd kBacklog w3) as Hl. destruct (sys_listen fd kBacklog w3) as [[] w4]; cbn [snd] in Hl.
    + rewrite Hacc. eexists _, _, w4. split; [done|]. exists fd. do 2 (split; [done|]). by rewrite Hl, Hn, Hb, reuse_law.
    + eexists _, _, _. split; [done|]. do 2 (split; [done|]). rewrite close_law, Hl, Hn, Hb, reuse_law, Hopen. set_solver.
  - eexists _, _, _. split; [done|]. do 2 (split; [done|]). rewrite close_law, Hb, reuse_law, Hopen. set_solver.
Qed.

(** Started and stopped, the server can be started again and nothing is open. *)
Lemma start_stop_restores {W : Type} `{SocketApiSpec W} port l (w : W) l1 w1 :
  accept_thread_ l = false → Start port (l, w) = Some (Status_OK, (l1, w1)) →
  ∃ l2 w2, Stop (l1, w1) = Some (tt, (l2, w2)) ∧ accept_thread_ l2 = false ∧ listener_running_ l2 = false ∧
    open_descriptors w2 = open_descriptors w.
Proof.
  intros Hacc E. destruct (start_leaks_nothing port l w Hacc) as (st & l' & w' & E' & Hst). rewrite E in E'.
  injection E' as <- <- <-. destruct Hst as (fd & -> & Hfresh & Hopen). unfold Stop. cbn [listener_running_ listen_fd_].
  eexists _, _. split; [done|]. do 2 (split; [done|]). rewrite close_law, Hopen. set_solver.
Qed.

(** ** An operating system to test against *)

(** Descriptors are numbered; ports in [taken] cannot be bound. *)
Record TestOs := mkOs { os_open : gset Z; os_next : Z; os_taken : gset Z }.

#[export] Instance test_api : SocketApi TestOs := {
  sys_socket w := if bool_decide (os_next w ∈ os_open w) then (None, w)
                  else (Some (os_next w), mkOs ({[os_next w]} ∪ os_open w) (os_next w + 1) (os_taken w));
  sys_reuse_address _ w := w;
  sys_bind _ port w := (negb (bool_decide (port ∈ os_taken w)), w);
  sys_getsockname _ w := (None, w);
  sys_listen _ _ w := (true, w);
  sys_close fd w := mkOs (os_open w ∖ {[fd]}) (os_next w) (os_taken w)
}.
#[export] Instance test_api_view : SocketApiView TestOs := { open_descriptors := os_open }.

#[export] Instance test_api_spec : SocketApiSpec TestOs.
Proof.
  split; try done. intros w r w'. cbn. case_bool_decide; intros [= <- <-]; done.
Qed.

(** A port over 16 bits is cut: 70000 is bound as 4464. *)
Example start_cuts_port :
  Start 70000 (mkListener None 0 false false, mkOs ∅ 3 {[4464]}) =
  Some (IOError "TCPServer::Start: bind() failed", (mkListener None 0 false false, mkOs ∅ 4 {[4464]})).
Proof. vm_compute. reflexivity. Qed.

(** Starting a server twice terminates the program. *)
Example start_twice :
  (do! Start 5433 in Start 5434) (mkListener None 0 false false, mkOs ∅ 3 ∅) = None.
Proof. vm_compute. reflexivity. Qed.
