(* ===== verification/Server.v ===== *)
(** * The server: src/network/tcp_server.hpp, tcp_server.cpp

    A thread per connection reads a request, parses it, executes it under a
    mutex and sends the response.  The threads are a step relation on the state
    they share; a statement's execution begins when the mutex is taken and ends
    later, other threads move in between.  In every interleaving the responses
    and the database are those of serving the requests one after the other. *)

From stdpp Require Import gmap pretty.
From Stdlib Require Import Strings.Ascii.
From coqutil Require Word.LittleEndianList.
From S2P Require Import Prelude Util Value PageManager PageStore BufferPool Catalog TableManager TableSpec TableTheorems Tokenizer Ast Parser ParserSpec.
From S2P Require Import Database ExprEval Operators Scans Executor Formatter Protocol.
From S2P Require Import IndexSpec ExecutorSpec DdlSpec ExecutorTheorems DatabaseSpec Samples.

Abbreviation Db_ := (Database BufferPool).

(** ** The threads *)

(** Where [HandleConnection] is. *)
Inductive Pc :=
  | AtTop                                           (* while (running_) *)
  | Polling                                         (* in the loop, before ReadFrame *)
  | Parsing (request : string)                      (* a request was read *)
  | Waiting (request : string) (stmt : Statement)   (* before the lock_guard *)
  | Executing (request : string) (stmt : Statement) (started : Db_)
                                                    (* in Execute, from [started] *)
  | Refusing (text : string)                        (* an error to send, in the scope of the lock *)
  | Responding (text : string)                      (* a result to send *)
  | Closed.

Record Connection (S : Type) := mkConn { client_fd : S; conn_pc : Pc }.
Arguments mkConn {S} _ _.
Arguments client_fd {S} _.
Arguments conn_pc {S} _.

(** [exec_mutex_] is the connection that holds the mutex; [accepting] says that
    the accept thread is past the test of its loop. *)
Record Server (S : Type) := mkServer {
  running_ : bool;
  accepting : bool;
  exec_mutex_ : option nat;
  server_db : Db_;
  connection_threads_ : list (Connection S)
}.
Arguments mkServer {S} _ _ _ _ _.
Arguments running_ {S} _.
Arguments accepting {S} _.
Arguments exec_mutex_ {S} _.
Arguments server_db {S} _.
Arguments connection_threads_ {S} _.

Section server.
Context {S : Type} `{Socket S}.
(** [fuel] is for the database, [sfuel] for the loops on sockets; [order] is the
    order in which the map of indexes is traversed. *)
Context (fuel sfuel : nat) (order : Db_ → list string).

Definition set_conn (i : nat) (c : Connection S) (sv : Server S) : Server S :=
  mkServer (running_ sv) (accepting sv) (exec_mutex_ sv) (server_db sv) (<[i := c]> (connection_threads_ sv)).
Definition set_mutex (m : option nat) (sv : Server S) : Server S :=
  mkServer (running_ sv) (accepting sv) m (server_db sv) (connection_threads_ sv).
Definition set_db (db : Db_) (sv : Server S) : Server S :=
  mkServer (running_ sv) (accepting sv) (exec_mutex_ sv) db (connection_threads_ sv).

(** A request with its response. *)
Abbreviation Exchange := (string * (bool * string))%type.

(** One step, with the exchange it decides, if any. *)
Inductive server_step : Server S → option (nat * Exchange) → Server S → Prop :=
  | step_listen sv :
      running_ sv = true →
      server_step sv None (mkServer true true (exec_mutex_ sv) (server_db sv) (connection_threads_ sv))
  | step_no_client sv :
      accepting sv = true →
      server_step sv None (mkServer (running_ sv) false (exec_mutex_ sv) (server_db sv) (connection_threads_ sv))
  | step_accept sv s :
      accepting sv = true →
      server_step sv None
        (mkServer (running_ sv) false (exec_mutex_ sv) (server_db sv) (connection_threads_ sv ++ [mkConn s AtTop]))
  | step_stop sv :
      server_step sv None (mkServer false (accepting sv) (exec_mutex_ sv) (server_db sv) (connection_threads_ sv))
  | step_enter sv i s :
      connection_threads_ sv !! i = Some (mkConn s AtTop) → running_ sv = true →
      server_step sv None (set_conn i (mkConn s Polling) sv)
  | step_timeout sv i s :
      connection_threads_ sv !! i = Some (mkConn s Polling) →
      server_step sv None (set_conn i (mkConn s AtTop) sv)
  | step_leave sv i s :
      connection_threads_ sv !! i = Some (mkConn s AtTop) → running_ sv = false →
      server_step sv None (set_conn i (mkConn s Closed) sv)
  | step_read sv i s request s' :
      connection_threads_ sv !! i = Some (mkConn s Polling) →
      ReadFrame sfuel s = Some (Ok request, s') →
      server_step sv None (set_conn i (mkConn s' (Parsing request)) sv)
  | step_hang_up sv i s e s' :
      connection_threads_ sv !! i = Some (mkConn s Polling) →
      ReadFrame sfuel s = Some (Err e, s') →
      server_step sv None (set_conn i (mkConn s' Closed) sv)
  | step_parse_error sv i s request e st s' :
      connection_threads_ sv !! i = Some (mkConn s (Parsing request)) →
      ParseSQL (String.list_ascii_of_string request) = Some (Err e) →
      WriteResponse sfuel false (message_ e) s = Some (st, s') →
      server_step sv (Some (i, (request, (false, message_ e)))) (set_conn i (mkConn s' AtTop) sv)
  | step_parse sv i s request stmt :
      connection_threads_ sv !! i = Some (mkConn s (Parsing request)) →
      ParseSQL (String.list_ascii_of_string request) = Some (Ok stmt) →
      server_step sv None (set_conn i (mkConn s (Waiting request stmt)) sv)
  | step_lock sv i s request stmt :
      connection_threads_ sv !! i = Some (mkConn s (Waiting request stmt)) →
      exec_mutex_ sv = None →
      server_step sv None (set_mutex (Some i) (set_conn i (mkConn s (Executing request stmt (server_db sv))) sv))
  | step_execute_error sv i s request stmt started e db' :
      connection_threads_ sv !! i = Some (mkConn s (Executing request stmt started)) →
      Execute fuel (order started) stmt started = Some (Err e, db') →
      server_step sv (Some (i, (request, (false, message_ e))))
        (set_db db' (set_conn i (mkConn s (Refusing (message_ e))) sv))
  | step_execute sv i s request stmt started q db' text :
      connection_threads_ sv !! i = Some (mkConn s (Executing request stmt started)) →
      Execute fuel (order started) stmt started = Some (Ok q, db') →
      FormatQueryResult q = Some text →
      server_step sv (Some (i, (request, (true, text))))
        (set_mutex None (set_db db' (set_conn i (mkConn s (Responding text)) sv)))
  | step_refuse sv i s text st s' :
      connection_threads_ sv !! i = Some (mkConn s (Refusing text)) →
      WriteResponse sfuel false text s = Some (st, s') →
      server_step sv None (set_mutex None (set_conn i (mkConn s' AtTop) sv))
  | step_respond sv i s text st s' :
      connection_threads_ sv !! i = Some (mkConn s (Responding text)) →
      WriteResponse sfuel true text s = Some (st, s') →
      server_step sv None (set_conn i (mkConn s' AtTop) sv).

(** ** One request after the other *)

(** The whole of a request, alone. *)
Definition serve (request : string) : M Db_ (bool * string) :=
  match ParseSQL (String.list_ascii_of_string request) with
  | None => undefined_behaviour
  | Some (Err e) => ret (false, message_ e)
  | Some (Ok stmt) => λ db,
      (let! result := Execute fuel (order db) stmt in
       match result with
       | Err e => ret (false, message_ e)
       | Ok q => match FormatQueryResult q with None => undefined_behaviour | Some text => ret (true, text) end
       end) db
  end.

(** Serving requests one after the other. *)
Fixpoint served (db : Db_) (es : list Exchange) (db' : Db_) : Prop :=
  match es with
  | [] => db' = db
  | (request, response) :: es' => ∃ db1, serve request db = Some (response, db1) ∧ served db1 es' db'
  end.

(** A socket on which requests were read and answered, one at a time. *)
Inductive answered : S → list Exchange → S → Prop :=
  | answered_nil s : answered s [] s
  | answered_snoc s es s1 request s2 ok text st s3 :
      answered s es s1 → ReadFrame sfuel s1 = Some (Ok request, s2) →
      WriteResponse sfuel ok text s2 = Some (st, s3) → answered s (es ++ [(request, (ok, text))]) s3.

(** ** Reachable states *)

(** [log] has the exchanges in the order they were decided, [starts] the sockets
    as they were accepted. *)
Inductive reached (db0 : Db_) : list S → list (nat * Exchange) → Server S → Prop :=
  | reached_start : reached db0 [] [] (mkServer true false None db0 [])
  | reached_step starts log sv o sv' :
      reached db0 starts log sv → server_step sv o sv' →
      reached db0 (starts ++ (client_fd <$> drop (length starts) (connection_threads_ sv'))) (log ++ option_list o) sv'.

(** ** The invariant *)

Implicit Types (log : list (nat * Exchange)) (es : list Exchange) (o : option (nat * Exchange)) (sv : Server S).

Definition exchanges_of (i : nat) (log : list (nat * Exchange)) : list Exchange := (filter (λ e, e.1 = i) log).*2.

Definition holds (pc : Pc) : bool := match pc with Executing _ _ _ | Refusing _ => true | _ => false end.

(** What a connection has done: [s0] is the socket it started with, [es] its
    exchanges. *)
Definition conn_inv (s0 : S) (es : list Exchange) (c : Connection S) : Prop :=
  let in_progress request := ∃ s1, answered s0 es s1 ∧ ReadFrame sfuel s1 = Some (Ok request, client_fd c) in
  let parsed request stmt := ParseSQL (String.list_ascii_of_string request) = Some (Ok stmt) in
  let to_send ok text := ∃ es' request s1, es = es' ++ [(request, (ok, text))] ∧ answered s0 es' s1 ∧
    ReadFrame sfuel s1 = Some (Ok request, client_fd c) in
  match conn_pc c with
  | AtTop | Polling => answered s0 es (client_fd c)
  | Parsing request => in_progress request
  | Waiting request stmt => in_progress request ∧ parsed request stmt
  | Executing request stmt _ => in_progress request ∧ parsed request stmt
  | Refusing text => to_send false text
  | Responding text => to_send true text
  | Closed => ∃ s1, answered s0 es s1
  end.

Definition started_at (db : Db_) (c : Connection S) : Prop :=
  match conn_pc c with Executing _ _ started => started = db | _ => True end.

Record server_inv (db0 : Db_) (starts : list S) (log : list (nat * Exchange)) (sv : Server S) : Prop := {
  inv_served : served db0 log.*2 (server_db sv);
  inv_length : length starts = length (connection_threads_ sv);
  inv_log : ∀ i e, (i, e) ∈ log → (i < length (connection_threads_ sv))%nat;
  inv_conn : ∀ i s0 c, starts !! i = Some s0 → connection_threads_ sv !! i = Some c → conn_inv s0 (exchanges_of i log) c;
  inv_lock : ∀ i c, connection_threads_ sv !! i = Some c → (holds (conn_pc c) = true ↔ exec_mutex_ sv = Some i);
  inv_holder : ∀ i, exec_mutex_ sv = Some i → (i < length (connection_threads_ sv))%nat;
  inv_started : ∀ i c, connection_threads_ sv !! i = Some c → started_at (server_db sv) c
}.

Lemma exchanges_of_app i log1 log2 : exchanges_of i (log1 ++ log2) = exchanges_of i log1 ++ exchanges_of i log2.
Proof. unfold exchanges_of. by rewrite filter_app, fmap_app. Qed.

Lemma exchanges_of_other i j e : j ≠ i → exchanges_of i [(j, e)] = [].
Proof. intros Hne. unfold exchanges_of. by rewrite filter_cons_False. Qed.

Lemma exchanges_of_self i e : exchanges_of i [(i, e)] = [e].
Proof. unfold exchanges_of. by rewrite filter_cons_True. Qed.

Lemma exchanges_of_snoc i log e : exchanges_of i (log ++ option_list (Some (i, e))) = exchanges_of i log ++ [e].
Proof. rewrite exchanges_of_app. f_equal. apply exchanges_of_self. Qed.

Lemma exchanges_of_fresh i log : (∀ j e, (j, e) ∈ log → (j < i)%nat) → exchanges_of i log = [].
Proof.
  intros Hl. unfold exchanges_of. induction log as [|[j e] log IH]; [done|].
  assert (j < i)%nat by (apply (Hl j e); by left). rewrite filter_cons_False by (cbn; lia). apply IH.
  intros j' e' Hin. apply (Hl j' e'). by right.
Qed.

Lemma served_app db0 es1 es2 db : served db0 (es1 ++ es2) db ↔ ∃ db1, served db0 es1 db1 ∧ served db1 es2 db.
Proof.
  revert db0. induction es1 as [|[request response] es1 IH]; intros db0; cbn [app served].
  - split; [eauto|]. by intros (db1 & -> & ?).
  - split.
    + intros (db1 & E & (db2 & ? & ?)%IH). eauto.
    + intros (db2 & (db1 & E & ?) & ?). exists db1. split; [done|]. apply IH. eauto.
Qed.

(** A step of connection [i]: its new state [c'], the exchange it decided, the
    mutex and the database it leaves. *)
Lemma inv_update db0 starts log sv i c c' o m' db' :
  server_inv db0 starts log sv → connection_threads_ sv !! i = Some c →
  (∀ j e, o = Some (j, e) → j = i) →
  (∀ s0, conn_inv s0 (exchanges_of i log) c → conn_inv s0 (exchanges_of i (log ++ option_list o)) c') →
  served db0 (log ++ option_list o).*2 db' →
  (holds (conn_pc c') = true ↔ m' = Some i) → (∀ j, j ≠ i → m' = Some j ↔ exec_mutex_ sv = Some j) →
  started_at db' c' → (db' = server_db sv ∨ exec_mutex_ sv = Some i) →
  server_inv db0 starts (log ++ option_list o) (mkServer (running_ sv) (accepting sv) m' db' (<[i := c']> (connection_threads_ sv))).
Proof.
  intros [Hs Hlen Hlog Hconn Hlock Hhold Hst] Hi Ho Hc Hs' Hh Hm Hst' Hdb. pose proof (lookup_lt_Some _ _ _ Hi) as Hlt.
  split; cbn [server_db connection_threads_ exec_mutex_]; rewrite ?length_insert; try done.
  - intros j e [Hin|Hin]%elem_of_app; [by eapply Hlog|]. destruct o as [[j' e']|]; [|by apply not_elem_of_nil in Hin].
    apply list_elem_of_singleton in Hin. injection Hin as -> ->. by rewrite (Ho _ _ eq_refl).
  - intros j s0 cj H0 Hj. destruct (decide (j = i)) as [->|Hne].
    + rewrite list_lookup_insert_eq in Hj by done. injection Hj as <-. by apply Hc, Hconn.
    + rewrite list_lookup_insert_ne in Hj by done. rewrite exchanges_of_app.
      assert (exchanges_of j (option_list o) = []) as ->; [|rewrite app_nil_r; by apply Hconn].
      destruct o as [[j' e']|]; [|done]. rewrite (Ho _ _ eq_refl). by apply exchanges_of_other.
  - intros j cj Hj. destruct (decide (j = i)) as [->|Hne].
    + rewrite list_lookup_insert_eq in Hj by done. by injection Hj as <-.
    + rewrite list_lookup_insert_ne in Hj by done. rewrite (Hlock _ _ Hj), Hm by done. done.
  - intros j Hj. destruct (decide (j = i)) as [->|Hne]; [done|]. by apply Hhold, Hm.
  - intros j cj Hj. destruct (decide (j = i)) as [->|Hne].
    + rewrite list_lookup_insert_eq in Hj by done. by injection Hj as <-.
    + rewrite list_lookup_insert_ne in Hj by done. destruct Hdb as [->|Hheld]; [by eapply Hst|].
      unfold started_at. destruct (conn_pc cj) eqn:Epc; try done.
      assert (exec_mutex_ sv = Some j) by (apply (Hlock j cj Hj); by rewrite Epc). congruence.
Qed.

Lemma snoc_served db0 log db request response db' i :
  served db0 log.*2 db → serve request db = Some (response, db') →
  served db0 (log ++ option_list (Some (i, (request, response)))).*2 db'.
Proof. intros Hs E. rewrite fmap_app. apply served_app. exists db. split; [done|]. by exists db'. Qed.

Lemma inv_accept db0 starts log sv s :
  server_inv db0 starts log sv →
  server_inv db0 (starts ++ [s]) log (mkServer (running_ sv) false (exec_mutex_ sv) (server_db sv) (connection_threads_ sv ++ [mkConn s AtTop])).
Proof.
  intros [Hs Hlen Hlog Hconn Hlock Hhold Hst].
  assert (∀ i c, (connection_threads_ sv ++ [mkConn s AtTop]) !! i = Some c →
    connection_threads_ sv !! i = Some c ∨ i = length (connection_threads_ sv) ∧ c = mkConn s AtTop) as Hcases.
  { intros i c [?|[Hge Hc]]%lookup_app_Some; [by left|right]. apply list_lookup_singleton_Some in Hc as [Hz <-]. split; [lia|done]. }
  split; cbn [server_db connection_threads_ exec_mutex_]; rewrite ?length_app; cbn [length]; try done; [lia|..].
  - intros i e Hin. specialize (Hlog i e Hin). lia.
  - intros i s0 c H0 [Hc|[-> ->]]%Hcases.
    + rewrite lookup_app_l in H0 by (rewrite Hlen; by eapply lookup_lt_Some). by apply Hconn.
    + rewrite <- Hlen in *. rewrite lookup_app_r, Nat.sub_diag in H0 by done. injection H0 as <-.
      rewrite exchanges_of_fresh by done. apply answered_nil.
  - intros i c [Hc|[-> ->]]%Hcases; [by apply Hlock|]. split; [done|]. intros Hm%Hhold. lia.
  - intros i Hm%Hhold. lia.
  - intros i c [Hc|[-> ->]]%Hcases; [by eapply Hst|done].
Qed.

(** A step of connection [i] that decides nothing and leaves the database. *)
Lemma inv_quiet db0 starts log sv i c c' m' :
  server_inv db0 starts log sv → connection_threads_ sv !! i = Some c →
  (∀ s0 es, conn_inv s0 es c → conn_inv s0 es c') →
  (holds (conn_pc c') = true ↔ m' = Some i) → (∀ j, j ≠ i → m' = Some j ↔ exec_mutex_ sv = Some j) →
  started_at (server_db sv) c' →
  server_inv db0 starts log (mkServer (running_ sv) (accepting sv) m' (server_db sv) (<[i := c']> (connection_threads_ sv))).
Proof.
  intros Hinv Hi Hc Hh Hm Hst. rewrite <- (app_nil_r log). apply (inv_update _ _ _ _ i c c' None); try done.
  - intros s0 Hs0. rewrite app_nil_r. by apply Hc.
  - rewrite app_nil_r. apply Hinv.
  - by left.
Qed.

(** A connection that does not hold the mutex leaves it as it is. *)
Lemma unheld db0 starts log sv i c pc :
  server_inv db0 starts log sv → connection_threads_ sv !! i = Some c → holds (conn_pc c) = false → holds pc = false →
  (holds pc = true ↔ exec_mutex_ sv = Some i).
Proof. intros Hinv Hi Hn Hn'. pose proof (inv_lock _ _ _ _ Hinv i c Hi) as Hl. rewrite Hn in Hl. by rewrite Hn'. Qed.

Lemma held db0 starts log sv i c :
  server_inv db0 starts log sv → connection_threads_ sv !! i = Some c → holds (conn_pc c) = true →
  exec_mutex_ sv = Some i ∧ ∀ j, j ≠ i → None = Some j ↔ exec_mutex_ sv = Some j.
Proof.
  intros Hinv Hi Hh. apply (inv_lock _ _ _ _ Hinv i c Hi) in Hh as E. split; [done|]. intros j Hne. rewrite E.
  split; [done|]. congruence.
Qed.

(** A connection that executes holds the mutex, started from the database as it
    is, and serves its request. *)
Lemma executing_inv db0 starts log sv i s request stmt started :
  server_inv db0 starts log sv → connection_threads_ sv !! i = Some (mkConn s (Executing request stmt started)) →
  exec_mutex_ sv = Some i ∧ (∀ j, j ≠ i → None = Some j ↔ exec_mutex_ sv = Some j) ∧ started = server_db sv ∧
  ∀ r db', Execute fuel (order (server_db sv)) stmt (server_db sv) = Some (r, db') →
    serve request (server_db sv) = Some (match r with Err e => (false, message_ e) | Ok q => (true, result_text q) end, db').
Proof.
  intros Hinv Hi. destruct (held _ _ _ _ _ _ Hinv Hi eq_refl) as [Hm Hj]. split; [done|]. split; [done|].
  split; [apply (inv_started _ _ _ _ Hinv _ _ Hi)|]. intros r db' He.
  destruct (lookup_lt_is_Some_2 starts i) as [s0 H0]; [rewrite (inv_length _ _ _ _ Hinv); by eapply lookup_lt_Some|].
  destruct (inv_conn _ _ _ _ Hinv i s0 _ H0 Hi) as [_ Hp]. unfold serve. rewrite Hp. unfold bind. rewrite He.
  by destruct r as [q|e]; [rewrite FormatQueryResult_text|].
Qed.

Lemma server_step_inv db0 starts log sv o sv' :
  server_inv db0 starts log sv → server_step sv o sv' →
  server_inv db0 (starts ++ (client_fd <$> drop (length starts) (connection_threads_ sv'))) (log ++ option_list o) sv'.
Proof.
  intros Hinv Hstep. pose proof (inv_length _ _ _ _ Hinv) as Hlen. pose proof (inv_served _ _ _ _ Hinv) as Hs.
  assert (∀ sv2 : Server S, length (connection_threads_ sv2) = length (connection_threads_ sv) →
    starts ++ (client_fd <$> drop (length starts) (connection_threads_ sv2)) = starts) as Hsame.
  { intros sv2 Hl. rewrite drop_ge by lia. apply app_nil_r. }
  destruct Hstep as [sv Hrun|sv Hacc|sv s Hacc|sv|sv i s Hi Hrun|sv i s Hi|sv i s Hi Hrun|sv i s request s' Hi Hr|sv i s e s' Hi Hr|
    sv i s request e st s' Hi Hp Hw|sv i s request stmt Hi Hp|sv i s request stmt Hi Hm|sv i s request stmt started e db' Hi He|
    sv i s request stmt started q db' text Hi He Hf|sv i s text st s' Hi Hw|sv i s text st s' Hi Hw];
    try (rewrite Hsame by (cbn; rewrite ?length_insert; done)); rewrite ?app_nil_r.
  - destruct Hinv. by split.
  - destruct Hinv. by split.
  - cbn [connection_threads_ option_list]. rewrite Hlen, drop_app_length. by apply inv_accept.
  - destruct Hinv. by split.
  - apply (inv_quiet _ _ _ sv i _ (mkConn s Polling) _ Hinv Hi); try done. by apply (unheld _ _ _ _ _ _ Polling Hinv Hi).
  - apply (inv_quiet _ _ _ sv i _ (mkConn s AtTop) _ Hinv Hi); try done. by apply (unheld _ _ _ _ _ _ AtTop Hinv Hi).
  - apply (inv_quiet _ _ _ sv i _ (mkConn s Closed) _ Hinv Hi); try done; [|by apply (unheld _ _ _ _ _ _ Closed Hinv Hi)].
    intros s0 es Hc. by exists s.
  - apply (inv_quiet _ _ _ sv i _ (mkConn s' (Parsing request)) _ Hinv Hi); try done;
      [|by apply (unheld _ _ _ _ _ _ (Parsing request) Hinv Hi)].
    intros s0 es Hc. by exists s.
  - apply (inv_quiet _ _ _ sv i _ (mkConn s' Closed) _ Hinv Hi); try done; [|by apply (unheld _ _ _ _ _ _ Closed Hinv Hi)].
    intros s0 es Hc. by exists s.
  - apply (inv_update _ _ _ sv i _ (mkConn s' AtTop) _ _ _ Hinv Hi); try done.
    + by intros j e' [= -> _].
    + intros s0 (s1 & Ha & Hr). rewrite exchanges_of_snoc.
      by apply (answered_snoc s0 _ s1 request s false (message_ e) st s').
    + apply (snoc_served _ _ (server_db sv)); [done|]. unfold serve. by rewrite Hp.
    + by apply (unheld _ _ _ _ _ _ AtTop Hinv Hi).
    + by left.
  - apply (inv_quiet _ _ _ sv i _ (mkConn s (Waiting request stmt)) _ Hinv Hi); try done.
    by apply (unheld _ _ _ _ _ _ (Waiting request stmt) Hinv Hi).
  - apply (inv_quiet _ _ _ sv i _ (mkConn s (Executing request stmt (server_db sv))) _ Hinv Hi); try done.
    intros j Hne. rewrite Hm. split; [congruence|done].
  - destruct (executing_inv _ _ _ _ _ _ _ _ _ Hinv Hi) as (Hmi & _ & -> & Hserve).
    apply (inv_update _ _ _ sv i _ (mkConn s (Refusing (message_ e))) _ _ _ Hinv Hi); try done; [by intros j e' [= -> _]| | |by right].
    + intros s0 [(s1 & Ha & Hr) _]. rewrite exchanges_of_snoc. by exists (exchanges_of i log), request, s1.
    + apply (snoc_served _ _ (server_db sv)); [done|]. apply (Hserve _ _ He).
  - destruct (executing_inv _ _ _ _ _ _ _ _ _ Hinv Hi) as (Hmi & Hmj & -> & Hserve).
    rewrite FormatQueryResult_text in Hf. injection Hf as <-.
    apply (inv_update _ _ _ sv i _ (mkConn s (Responding (result_text q))) _ _ _ Hinv Hi); try done; [by intros j e' [= -> _]| | |by right].
    + intros s0 [(s1 & Ha & Hr) _]. rewrite exchanges_of_snoc. by exists (exchanges_of i log), request, s1.
    + apply (snoc_served _ _ (server_db sv)); [done|]. apply (Hserve _ _ He).
  - destruct (held _ _ _ _ _ _ Hinv Hi eq_refl) as [Hmi Hmj].
    apply (inv_quiet _ _ _ sv i _ (mkConn s' AtTop) _ Hinv Hi); try done.
    intros s0 es (es' & request & s1 & -> & Ha & Hr). by eapply answered_snoc.
  - apply (inv_quiet _ _ _ sv i _ (mkConn s' AtTop) _ Hinv Hi); try done; [|by apply (unheld _ _ _ _ _ _ AtTop Hinv Hi)].
    intros s0 es (es' & request & s1 & -> & Ha & Hr). by eapply answered_snoc.
Qed.

Lemma reached_inv db0 starts log sv : reached db0 starts log sv → server_inv db0 starts log sv.
Proof.
  induction 1 as [|starts log sv o sv' _ IH Hstep]; [|by eapply server_step_inv].
  split; try done; cbn [connection_threads_ exec_mutex_ server_db].
  all: try (intros i c Hi; by rewrite lookup_nil in Hi). all: intros; by set_solver.
Qed.
End server.

(** ** The bytes on the wire *)

Section bytes.
Context {S : Type} `{Hspec : SocketSpec S}.

(** Reading uses up bytes and interruptions only. *)
Lemma ReadAll_budget fuel len (s : S) ok got s' :
  (length (incoming s) + interruptions s < fuel)%nat → 0 ≤ len → ReadAll fuel len s = Some ((ok, got), s') →
  (length (incoming s') ≤ length (incoming s) ∧ interruptions s' ≤ interruptions s)%nat.
Proof.
  intros Hf Hlen E. destruct (ReadAll_spec fuel [] len s Hf ltac:(by rewrite blen_nil)) as (ok' & got' & s1 & E' & _ & Hi & Hin & _).
  unfold ReadAll in E. rewrite E in E'. injection E' as <- <- <-. rewrite Hin, length_app. lia.
Qed.

Lemma ReadFrame_budget fuel (s : S) r s' :
  (length (incoming s) + interruptions s < fuel)%nat → ReadFrame fuel s = Some (r, s') →
  (length (incoming s') ≤ length (incoming s) ∧ interruptions s' ≤ interruptions s)%nat.
Proof.
  intros Hf. unfold ReadFrame, bind. destruct (ReadAll fuel 4 s) as [[[ok got] s1]|] eqn:E1; [|done].
  destruct (ReadAll_budget fuel 4 s ok got s1 Hf ltac:(lia) E1) as [Hi1 Hn1]. cbn [fst snd]. destruct ok; [|by intros [= _ <-]].
  cbn [negb]. destruct (kMaxFrameSize <? _); [by intros [= _ <-]|]. destruct (Z.ltb_spec 0 (ntohl (LittleEndianList.le_combine got))); [|by intros [= _ <-]].
  destruct (ReadAll fuel _ s1) as [[[ok2 got2] s2]|] eqn:E2; [|done].
  destruct (ReadAll_budget fuel (ntohl (LittleEndianList.le_combine got)) s1 ok2 got2 s2 ltac:(lia) ltac:(lia) E2) as [Hi2 Hn2]. cbn [fst snd].
  destruct ok2; intros [= _ <-]; lia.
Qed.

Lemma WriteResponse_spec fuel ok payload (s : S) :
  blen (string_bytes payload) < 2 ^ 32 → alive s → (5 + length (string_bytes payload) + interruptions s < fuel)%nat →
  ∃ s', WriteResponse fuel ok payload s = Some (Status_OK, s') ∧ outgoing s' = outgoing s ++ response_bytes ok payload ∧
    incoming s' = incoming s ∧ (interruptions s' ≤ interruptions s)%nat ∧ alive s'.
Proof.
  intros Hl Ha Hf. unfold WriteResponse.
  destruct (WriteAll_complete fuel [byte_of_Z (if ok then 0 else 1)] s) as (s1 & E1 & Ho1 & Hi1 & ? & Ha1); [simpl; lia|done|].
  destruct (WriteFrame_spec fuel payload s1) as (s2 & E2 & Ho2 & Hi2 & ? & Ha2); [done|done|lia|].
  exists s2. split; [by erewrite bind_Some by exact E1|]. split; [by rewrite Ho2, Ho1, <- app_assoc|].
  split; [congruence|]. split; [lia|done].
Qed.

(** The requests a stream of bytes holds, one frame after the other. *)
Fixpoint requests_in (bs : bytes) (requests : list string) (rest : bytes) : Prop :=
  match requests with
  | [] => rest = bs
  | request :: requests' => ∃ bs', parse_frame bs = (Ok request, bs') ∧ requests_in bs' requests' rest
  end.

Lemma requests_in_app bs qs1 qs2 rest :
  requests_in bs (qs1 ++ qs2) rest ↔ ∃ bs', requests_in bs qs1 bs' ∧ requests_in bs' qs2 rest.
Proof.
  revert bs. induction qs1 as [|q qs1 IH]; intros bs; cbn [app requests_in].
  - split; [eauto|]. by intros (bs' & -> & ?).
  - split.
    + intros (bs1 & E & (bs2 & ? & ?)%IH). eauto.
    + intros (bs2 & (bs1 & E & ?) & ?). exists bs1. split; [done|]. apply IH. eauto.
Qed.

Definition responses_bytes (es : list (string * (bool * string))) : bytes :=
  concat ((λ e, response_bytes e.2.1 e.2.2) <$> es).

(** The connection has room for the responses. *)
Definition responses_fit (sfuel : nat) (s0 : S) (es : list (string * (bool * string))) : Prop :=
  Forall (λ e, blen (string_bytes e.2.2) < 2 ^ 32 ∧ (5 + length (string_bytes e.2.2) + interruptions s0 < sfuel)%nat) es.

Lemma answered_bytes sfuel (s0 : S) es s :
  answered sfuel s0 es s → alive s0 → (length (incoming s0) + interruptions s0 < sfuel)%nat → responses_fit sfuel s0 es →
  alive s ∧ (length (incoming s) ≤ length (incoming s0))%nat ∧ (interruptions s ≤ interruptions s0)%nat ∧
  requests_in (incoming s0) es.*1 (incoming s) ∧ outgoing s = outgoing s0 ++ responses_bytes es.
Proof.
  intros Hans Ha Hf. induction Hans as [s|s0 es s1 request s2 ok text st s3 Hans IH Hr Hw]; intros Hfit.
  { split; [done|]. split; [done|]. split; [done|]. split; [done|]. unfold responses_bytes. cbn. by rewrite app_nil_r. }
  apply Forall_app in Hfit as [Hfit [[Hl Hb] _]%Forall_cons]. cbn [fst snd] in Hl, Hb.
  destruct (IH Ha Hf Hfit) as (Ha1 & Hi1 & Hn1 & Hq & Ho). clear IH.
  assert (length (incoming s1) + interruptions s1 < sfuel)%nat as Hf1 by lia.
  destruct (ReadFrame_refines sfuel s1 Hf1) as (r & s2' & Hr' & Ho2 & Ha2 & Hp). rewrite Hr in Hr'. injection Hr' as <- <-.
  destruct (ReadFrame_budget sfuel s1 _ s2 Hf1 Hr) as [Hi2 Hn2].
  destruct (WriteResponse_spec sfuel ok text s2) as (s3' & Hw' & Ho3 & Hi3 & Hn3 & Ha3); [done|by apply Ha2|lia|].
  rewrite Hw in Hw'. injection Hw' as -> <-. split; [done|]. rewrite Hi3. split; [lia|]. split; [lia|]. split.
  - rewrite fmap_app. apply requests_in_app. exists (incoming s1). split; [done|]. exists (incoming s2). split; [|done].
    apply Hp. by left.
  - rewrite Ho3, Ho2, Ho, <- app_assoc. f_equal. unfold responses_bytes. rewrite fmap_app, concat_app. cbn. by rewrite app_nil_r.
Qed.
End bytes.

(** ** The responses as SQL has them *)

Section sql.
Context (fuel : nat) (order : Db_ → list string).

Definition response_of (r : Result QueryResult) : bool * string :=
  match r with Err e => (false, message_ e) | Ok q => (true, result_text q) end.

(** The exchanges on a map of tables and the names of the indexes. *)
Fixpoint sql_served (es : list (string * (bool * string))) (a : Db) (d : Directory) (a' : Db) (d' : Directory) : Prop :=
  match es with
  | [] => a' = a ∧ d' = d
  | (request, response) :: es' =>
      match ParseSQL (String.list_ascii_of_string request) with
      | None => False
      | Some (Err e) => response = (false, message_ e) ∧ sql_served es' a d a' d'
      | Some (Ok stmt) => ∃ r a1 d1, sql_step stmt a d r a1 d1 ∧ response = response_of r ∧ sql_served es' a1 d1 a' d'
      end
  end.

(** Each request meets its conditions when its turn comes. *)
Fixpoint requests_ok (requests : list string) (db : Db_) : Prop :=
  match requests with
  | [] => True
  | request :: requests' =>
      match ParseSQL (String.list_ascii_of_string request) with
      | Some (Ok stmt) =>
          complete_order (order db) (indexes_ (catalog (table_manager_ db)).2) ∧
          (∀ a, db_wf db a → stmt_ok fuel (order db) stmt db a) ∧
          ∀ r db', Execute fuel (order db) stmt db = Some (r, db') → requests_ok requests' db'
      | _ => requests_ok requests' db
      end
  end.

Lemma served_sql es : ∀ db a db',
  served fuel order db es db' → db_wf db a → requests_ok es.*1 db →
  ∃ a', sql_served es a (directory db) a' (directory db') ∧ db_wf db' a'.
Proof.
  induction es as [|[request response] es IH]; intros db a db' Hs Hwf Hok.
  { cbn in Hs. subst db'. by exists a. }
  destruct Hs as (db1 & E & Hs). cbn [fmap list_fmap fst requests_ok sql_served] in *. unfold serve in E.
  destruct (ParseSQL _) as [[stmt|e]|]; [| |done].
  - destruct Hok as (Hord & Hst & Hnext).
    destruct (execute_step fuel (order db) stmt db a Hwf Hord (Hst a Hwf)) as (r & db2 & a2 & E2 & Hs2 & Hwf2).
    unfold bind in E. rewrite E2 in E. assert (response = response_of r ∧ db1 = db2) as [-> ->].
    { destruct r as [q|e]; [rewrite FormatQueryResult_text in E|]; by injection E as <- <-. }
    destruct (IH db2 a2 db' Hs Hwf2 (Hnext r db2 E2)) as (a' & ? & ?). exists a'. split; [|done]. by exists r, a2, (directory db2).
  - injection E as <- <-. destruct (IH db a db' Hs Hwf Hok) as (a' & ? & ?). by exists a'.
Qed.
End sql.

(** ** The theorem *)

(** C4: the server serves its requests one after the other.  In every state the
    threads reach, in whatever order they move, (1) the database and all the
    responses are those of serving the logged requests alone, in the order they
    were executed; (2) at most one thread is in the scope of the lock; (3) on a
    connection that stays up and is between requests, the requests logged for it
    are the frames it has received, in order, and the bytes sent are exactly the
    responses to them, in order; (4) when the database was well formed and each
    request met its conditions in its turn, the responses are those that SQL
    prescribes. *)
Theorem server_serializable {S : Type} `{SocketSpec S} fuel sfuel order db0 starts log (sv : Server S) :
  reached fuel sfuel order db0 starts log sv →
  served fuel order db0 log.*2 (server_db sv) ∧
  (∀ i j ci cj, connection_threads_ sv !! i = Some ci → connection_threads_ sv !! j = Some cj →
     holds (conn_pc ci) = true → holds (conn_pc cj) = true → i = j) ∧
  (∀ i s0 s, starts !! i = Some s0 → connection_threads_ sv !! i = Some (mkConn s AtTop) →
     alive s0 → (length (incoming s0) + interruptions s0 < sfuel)%nat → responses_fit sfuel s0 (exchanges_of i log) →
     requests_in (incoming s0) (exchanges_of i log).*1 (incoming s) ∧
     outgoing s = outgoing s0 ++ responses_bytes (exchanges_of i log)) ∧
  (∀ a, db_wf db0 a → requests_ok fuel order log.*2.*1 db0 →
     ∃ a', sql_served log.*2 a (directory db0) a' (directory (server_db sv)) ∧ db_wf (server_db sv) a').
Proof.
  intros [Hs Hlen Hlog Hconn Hlock Hhold Hst]%reached_inv. split; [done|]. split; [|split].
  - intros i j ci cj Hi Hj Hhi%(Hlock i ci Hi) Hhj%(Hlock j cj Hj). congruence.
  - intros i s0 s Hs0 Hi Ha Hf Hfit. pose proof (Hconn i s0 _ Hs0 Hi) as Hc. cbn in Hc.
    destruct (answered_bytes sfuel s0 _ s Hc Ha Hf Hfit) as (_ & _ & _ & ? & ?). done.
  - intros a Hwf Hok. by eapply served_sql.
Qed.

(** ** No deadlock *)

Section progress.
Context {S : Type} `{Socket S} (fuel sfuel : nat) (order : Db_ → list string).

(** The call the connection is about to make returns. *)
Definition call_returns (c : Connection S) : Prop :=
  let s := client_fd c in
  match conn_pc c with
  | Polling => is_Some (ReadFrame sfuel s)
  | Parsing request =>
      ∀ e, ParseSQL (String.list_ascii_of_string request) = Some (Err e) → is_Some (WriteResponse sfuel false (message_ e) s)
  | Executing _ stmt started => is_Some (Execute fuel (order started) stmt started)
  | Refusing text => is_Some (WriteResponse sfuel false text s)
  | Responding text => is_Some (WriteResponse sfuel true text s)
  | AtTop | Waiting _ _ | Closed => True
  end.

(** A step that moves connection [j]. *)
Definition can_move (sv : Server S) (j : nat) : Prop :=
  ∃ o sv', server_step fuel sfuel order sv o sv' ∧ connection_threads_ sv' !! j ≠ connection_threads_ sv !! j.

Lemma can_move_intro sv j c o sv' c' :
  connection_threads_ sv !! j = Some c → server_step fuel sfuel order sv o sv' →
  connection_threads_ sv' = <[j := c']> (connection_threads_ sv) → conn_pc c' ≠ conn_pc c → can_move sv j.
Proof.
  intros Hj Hs Hc Hne. exists o, sv'. split; [done|]. rewrite Hc, list_lookup_insert_eq by (by eapply lookup_lt_Some).
  rewrite Hj. congruence.
Qed.

Lemma unlocked_moves sv j c :
  connection_threads_ sv !! j = Some c → conn_pc c ≠ Closed → call_returns c →
  (∀ request stmt, conn_pc c = Waiting request stmt → exec_mutex_ sv = None) → can_move sv j.
Proof.
  destruct c as [s pc]. cbn [conn_pc]. intros Hj Hnc Hr Hm. unfold call_returns in Hr. cbn [conn_pc client_fd] in Hr.
  destruct pc as [| |request|request stmt|request stmt started|text|text|]; try done.
  - destruct (running_ sv) eqn:E.
    + by eapply (can_move_intro _ _ _ _ _ (mkConn s Polling)); [done|by eapply step_enter|..].
    + by eapply (can_move_intro _ _ _ _ _ (mkConn s Closed)); [done|by eapply step_leave|..].
  - destruct Hr as [[[request|e] s'] Hr].
    + by eapply (can_move_intro _ _ _ _ _ (mkConn s' (Parsing request))); [done|by eapply step_read|..].
    + by eapply (can_move_intro _ _ _ _ _ (mkConn s' Closed)); [done|by eapply step_hang_up|..].
  - destruct (ParseSQL_total (String.list_ascii_of_string request)) as (r & Ep & _). destruct r as [stmt|e].
    + by eapply (can_move_intro _ _ _ _ _ (mkConn s (Waiting request stmt))); [done|by eapply step_parse|..].
    + destruct (Hr e Ep) as [[st s'] Hw].
      by eapply (can_move_intro _ _ _ _ _ (mkConn s' AtTop)); [done|by eapply step_parse_error|..].
  - by eapply (can_move_intro _ _ _ _ _ (mkConn s (Executing request stmt (server_db sv))));
      [done|eapply step_lock; [done|by eapply Hm]|..].
  - destruct Hr as [[[q|e] db'] He].
    + by eapply (can_move_intro _ _ _ _ _ (mkConn s (Responding (result_text q))));
        [done|eapply step_execute; [done|done|apply FormatQueryResult_text]|..].
    + by eapply (can_move_intro _ _ _ _ _ (mkConn s (Refusing (message_ e)))); [done|by eapply step_execute_error|..].
  - destruct Hr as [[st s'] Hw]. by eapply (can_move_intro _ _ _ _ _ (mkConn s' AtTop)); [done|by eapply step_refuse|..].
  - destruct Hr as [[st s'] Hw]. by eapply (can_move_intro _ _ _ _ _ (mkConn s' AtTop)); [done|by eapply step_respond|..].
Qed.
End progress.

(** C5: the server does not deadlock.  In every state the threads reach, a
    connection that is not closed can move, or it waits for the mutex and the
    connection that holds it can move, as long as the calls they are about to
    make (to the socket and the executor) return. *)
Theorem server_no_deadlock {S : Type} `{Socket S} fuel sfuel order db0 starts log (sv : Server S) i c :
  reached fuel sfuel order db0 starts log sv → connection_threads_ sv !! i = Some c → conn_pc c ≠ Closed →
  (∀ j cj, connection_threads_ sv !! j = Some cj → call_returns fuel sfuel order cj) →
  ∃ j, can_move fuel sfuel order sv j ∧
    (j = i ∨ (∃ request stmt, conn_pc c = Waiting request stmt) ∧ exec_mutex_ sv = Some j).
Proof.
  intros Hinv%reached_inv Hi Hnc Hret.
  destruct (exec_mutex_ sv) as [j|] eqn:Em.
  - assert ((∃ request stmt, conn_pc c = Waiting request stmt) ∨ ¬ ∃ request stmt, conn_pc c = Waiting request stmt) as [Hw|Hw].
    { destruct (conn_pc c); first [by left; eauto|by right; intros (? & ? & ?)]. }
    + destruct (lookup_lt_is_Some_2 (connection_threads_ sv) j) as [cj Hj]; [by eapply inv_holder|].
      pose proof (proj2 (inv_lock _ _ _ _ _ _ _ Hinv j cj Hj) Em) as Hh. exists j. split; [|by right].
      eapply unlocked_moves; [done|by intros E; rewrite E in Hh|by eapply Hret|]. intros request stmt E. by rewrite E in Hh.
    + exists i. split; [|by left]. eapply unlocked_moves; [done|done|by eapply Hret|]. intros request stmt E. exfalso. eauto.
  - exists i. split; [|by left]. by eapply unlocked_moves; [..|by eapply Hret|].
Qed.

(** ** Witness *)

(** A client that asks to drop a table that does not exist. *)
Definition drop_ghost : string := "DROP TABLE ghost;".
Definition client : ScriptSocket := mkScript [EvBytes 3; EvInterrupt] false [] (frame_bytes drop_ghost).
Definition client_read : ScriptSocket := mkScript [] false [] [].
Definition ghost_error : Status := NotFound "DropTable: table 'ghost' does not exist".

Lemma drop_ghost_parses : ParseSQL (String.list_ascii_of_string drop_ghost) = Some (Ok (DropTableStmt "ghost")).
Proof. vm_compute. reflexivity. Qed.

Lemma client_reads : ReadFrame 200 client = Some (Ok drop_ghost, client_read).
Proof. vm_compute. reflexivity. Qed.

Lemma ghost_executes : ∃ db db', sample 200 sample0 = Some db ∧
  Execute 200 [] (DropTableStmt "ghost") db = Some (Err ghost_error, db').
Proof.
  destruct (sample0_wf 200) as (db & E & Hwf & Hd).
  destruct (execute_step 200 [] (DropTableStmt "ghost") db ∅ Hwf (complete_order_empty db Hd) I) as (r & db' & a' & Er & [[_ ->] _] & _).
  rewrite lookup_empty in Er. exists db, db'. exact (conj E Er).
Qed.

(** The steps of one connection, from its acceptance to its response. *)
Lemma one_connection (db db' : Db_) s3 st :
  Execute 200 [] (DropTableStmt "ghost") db = Some (Err ghost_error, db') →
  WriteResponse 200 false (message_ ghost_error) client_read = Some (st, s3) →
  reached 200 200 (λ _, []) db [client] [(0%nat, (drop_ghost, (false, message_ ghost_error)))]
    (mkServer true false None db' [mkConn s3 AtTop]).
Proof.
  intros He Hw. pose proof (reached_start (S := ScriptSocket) 200 200 (λ _, []) db) as Hr.
  eapply reached_step in Hr; [|apply step_listen; done].
  eapply reached_step in Hr; [|apply (step_accept _ _ _ _ client); done].
  eapply reached_step in Hr; [|apply (step_enter _ _ _ _ 0 client); done].
  eapply reached_step in Hr; [|apply (step_read _ _ _ _ 0 client drop_ghost client_read); [done|apply client_reads]].
  eapply reached_step in Hr; [|apply (step_parse _ _ _ _ 0 client_read drop_ghost); [done|apply drop_ghost_parses]].
  eapply reached_step in Hr; [|apply (step_lock _ _ _ _ 0 client_read drop_ghost (DropTableStmt "ghost")); done].
  eapply reached_step in Hr; [|apply (step_execute_error _ _ _ _ 0 client_read drop_ghost (DropTableStmt "ghost") db ghost_error db'); [done|exact He]].
  eapply reached_step in Hr; [|apply (step_refuse _ _ _ _ 0 client_read (message_ ghost_error) st s3); [done|exact Hw]].
  exact Hr.
Qed.

Lemma server_serializable_witness :
  ∃ db db' s, sample 200 sample0 = Some db ∧
    served 200 (λ _, []) db [(drop_ghost, (false, message_ ghost_error))] db' ∧
    outgoing (s : ScriptSocket) = response_bytes false (message_ ghost_error).
Proof.
  destruct ghost_executes as (db & db' & E & He).
  destruct (WriteResponse 200 false (message_ ghost_error) client_read) as [[st s3]|] eqn:Hw; [|vm_compute in Hw; discriminate].
  destruct (server_serializable 200 200 (λ _, []) db _ _ _ (one_connection db db' s3 st He Hw)) as (Hs & _ & Hb & _).
  exists db, db', s3. split; [exact E|]. split; [exact Hs|].
  destruct (Hb 0%nat client s3 eq_refl eq_refl) as [_ Ho].
  - repeat constructor.
  - vm_compute. lia.
  - constructor; [|constructor]. split; [reflexivity|vm_compute; lia].
  - rewrite Ho. reflexivity.
Defined.

Lemma server_no_deadlock_witness :
  ∃ db db' s o sv', sample 200 sample0 = Some db ∧
    server_step 200 200 (λ _, []) (mkServer true false None db' [mkConn (s : ScriptSocket) AtTop]) o sv' ∧
    connection_threads_ sv' !! 0%nat ≠ Some (mkConn s AtTop).
Proof.
  destruct ghost_executes as (db & db' & E & He).
  destruct (WriteResponse 200 false (message_ ghost_error) client_read) as [[st s3]|] eqn:Hw; [|vm_compute in Hw; discriminate].
  destruct (server_no_deadlock 200 200 (λ _, []) db _ _ _ 0%nat (mkConn s3 AtTop) (one_connection db db' s3 st He Hw))
    as (j & (o & sv' & Hs & Hne) & [-> |[(request & stmt & Hpc) _]]).
  - reflexivity.
  - discriminate.
  - intros [|j] cj Hj; [|destruct j; discriminate]. injection Hj as <-. exact I.
  - exists db, db', s3, o, sv'. exact (conj E (conj Hs Hne)).
  - discriminate.
Defined.
