(* ===== verification/Divergences.v ===== *)
(** * Where the program departs from SQL

    Short sessions with the shell, evaluated: what the executor answers where
    SQL would have it otherwise.  They lie outside the conditions of the
    theorems on the executor, or show what its specification allows. *)

From stdpp Require Import gmap pretty.
From Stdlib Require Import Strings.Ascii.
From S2P Require Import Prelude Util Value PageManager PageStore BufferPool Catalog TableManager Database Executor Formatter Samples Repl.

(** The indexes in the order of their names. *)
Definition by_name (db : Database BufferPool) : list string := elements (dom (indexes_ (catalog (table_manager_ db)).2)).

(** What the shell prints for some statements on a new database. *)
Definition session (texts : list string) : option (list string) :=
  db ← sample 100 []; fst <$> process_all 100 by_name texts db.

Definition text (ls : list string) : string := String.concat newline ls.

(** A dropped table's rows come back through an index that was not dropped with
    it, once a table of its name is created. *)
Example dropped_rows_return :
  session ["CREATE TABLE t (a INT, b VARCHAR(9));"; "INSERT INTO t VALUES (1, 'old');"; "CREATE INDEX i ON t (a);";
           "DROP TABLE t;"; "CREATE TABLE t (a INT, b VARCHAR(9));"; "SELECT b FROM t;"; "SELECT b FROM t WHERE a = 1;"] =
  Some ["CREATE TABLE"; "INSERT 0 1"; "CREATE INDEX"; "DROP TABLE"; "CREATE TABLE";
        text ["b"; "-"; "(0 rows)  [SeqScan]"]; text ["b  "; "---"; "old"; "(1 row)  [IndexScan(i)]"]].
Proof. vm_compute. reflexivity. Qed.

(** An unknown column of a SELECT list is not reported. *)
Example unknown_column_selected :
  session ["CREATE TABLE t (a INT);"; "INSERT INTO t VALUES (1);"; "SELECT nope FROM t;"] =
  Some ["CREATE TABLE"; "INSERT 0 1"; "SELECT 1"].
Proof. vm_compute. reflexivity. Qed.

(** An unknown column in the condition of an UPDATE is not reported, in that of
    a SELECT it is. *)
Example unknown_column_updated :
  session ["CREATE TABLE t (a INT);"; "INSERT INTO t VALUES (1);"; "UPDATE t SET a = 2 WHERE nope = 1;";
           "SELECT a FROM t WHERE nope = 1;"] =
  Some ["CREATE TABLE"; "INSERT 0 1"; "UPDATE 0"; "ERROR: unknown column 'nope' in expression"].
Proof. vm_compute. reflexivity. Qed.

(** NULL is unequal to 5 in a scan and not in an index. *)
Example unequal_through_index :
  session ["CREATE TABLE t (a INT);"; "INSERT INTO t VALUES (NULL);"; "SELECT a FROM t WHERE a <> 5;";
           "CREATE INDEX i ON t (a);"; "SELECT a FROM t WHERE a <> 5;"] =
  Some ["CREATE TABLE"; "INSERT 0 1"; text ["a   "; "----"; "NULL"; "(1 row)  [SeqScan]"];
        "CREATE INDEX"; text ["a"; "-"; "(0 rows)  [IndexScan(i)]"]].
Proof. vm_compute. reflexivity. Qed.

(** Integers over 53 bits are compared as doubles in a scan, exactly in an
    index. *)
Example large_integers_through_index :
  session ["CREATE TABLE t (a BIGINT);"; "INSERT INTO t VALUES (9007199254740993);";
           "SELECT COUNT(*) FROM t WHERE a = 9007199254740992;"; "CREATE INDEX i ON t (a);";
           "SELECT COUNT(*) FROM t WHERE a = 9007199254740992;"] =
  Some ["CREATE TABLE"; "INSERT 0 1"; text ["COUNT(*)"; "--------"; "1       "; "(1 row)  [SeqScan]"];
        "CREATE INDEX"; text ["COUNT(*)"; "--------"; "0       "; "(1 row)  [IndexScan(i)]"]].
Proof. vm_compute. reflexivity. Qed.

(** A failing INSERT keeps the rows before the one that failed. *)
Example insert_keeps_prefix :
  session ["CREATE TABLE t (a INT);"; "INSERT INTO t VALUES (1), ('x');"; "SELECT a FROM t;"] =
  Some ["CREATE TABLE"; "ERROR: expected an integer value for column 'a'"; text ["a"; "-"; "1"; "(1 row)  [SeqScan]"]].
Proof. vm_compute. reflexivity. Qed.

(** LIMIT is ignored with aggregates; an unknown column of MIN is reported only
    when there are rows. *)
Example aggregates_checked_late :
  session ["CREATE TABLE t (a INT);"; "SELECT MIN(nope) FROM t LIMIT 0;"; "INSERT INTO t VALUES (1);"; "SELECT MIN(nope) FROM t;"] =
  Some ["CREATE TABLE"; text ["MIN(nope)"; "---------"; "NULL     "; "(1 row)  [SeqScan]"]; "INSERT 0 1";
        "ERROR: unknown column 'nope' in aggregate"].
Proof. vm_compute. reflexivity. Qed.

(** Two statements on one line are handed over as one. *)
Example one_statement_a_line :
  session ["CREATE TABLE t (a INT); DROP TABLE t;"] = Some ["ERROR: unexpected trailing tokens starting at 'DROP'"].
Proof. vm_compute. reflexivity. Qed.

(** The shell forgets at the end of a line that it is inside quotes. *)
Example quotes_forgotten :
  divide ["INSERT INTO t VALUES ('a"; "b; c');"] [] = ([["INSERT INTO t VALUES ('a"; "b; c');"]], []) ∧
  divide ["INSERT INTO t VALUES ('a"; "b; c"; "');"] [] =
    ([["INSERT INTO t VALUES ('a"; "b; c"]], ["');"]).
Proof. split; vm_compute; reflexivity. Qed.
